(* ===== verification/_CoqProject ===== *)
-Q . S2P
Prelude.v
CInt.v
CArray.v
CStdio.v
CNet.v
QuadraticSorts.v
QuickSort.v
MergeSort.v
HeapSort.v
SortSpec.v
UseHeap.v
Float64.v
TokenBucket.v
TimerStamp.v
TimerFormat.v
TimerQueue.v
TimerQueueInv.v
TimerQueueRun.v
TimerQueueSpec.v
TimerRefine.v
TimerRace.v
TimerStopRace.v
TimerDemo.v
TimerChannel.v
TimerLoop.v
TaskQueue.v
ThreadPool.v
ThreadPoolInv.v
ThreadPoolSpec.v
ThreadPoolRefine.v
ThreadPoolLive.v
EpollSocket.v
SyncFile.v
SyncServer.v
WireFormat.v
EchoProto.v
EchoMessages.v
WireVarint.v
EchoTyping.v
EchoServer.v
EchoSpec.v
EchoSystem.v
LRUCache.v
Jump.v
Exercises.v
KSmallest.v
SyncClient.v
SyncCut.v
SelectChat.v
