(* ===== verification/Prelude.v ===== *)
(** * Verification of the algo repository: root file

    The repository is a collection of C++ programs: sorting functions, a rate
    limiter, a timer library with its event loop, two thread pools, a file
    transfer server and client, an echo server and client over protocol buffers,
    a chat, and some exercises.  This development translates them into functions
    of [res] (a value, or the undefined behaviour that was met), and into step
    relations where threads interleave, and proves what they compute.

    ** Conventions

    - [res A]: [Ok a], or [Err e] with [e] the undefined behaviour or abort met.
      A theorem [wp r Q] is total correctness: [r] finishes, without undefined
      behaviour, with a value in [Q].  [wpe r Q E] also says which errors may be.
    - Integers are [Z].  CInt checks signed arithmetic at the width of its type
      and wraps unsigned arithmetic and conversions; the target is LP64.
    - Arrays are lists with checked access (CArray); cells that may be
      indeterminate are options.  [double] is the Standard Library's bit-level
      binary64 (Float64).
    - C++ objects with shared pointers to them live in stores ([gmap] from
      addresses or node numbers), so aliasing and lifetimes are those of the code.
    - What is outside the repository is a parameter: a class of operations with
      the laws its documentation gives ([Socket], [Wire], [StdHeap], [TopOf]) or
      a variable (the clock, the allocator, descriptors, what [epoll_wait],
      [accept] and the keyboard give).  Each class has an instance that satisfies
      its laws, on which the witnesses run.

    ** The programs and the files that model them (paths are below src/)

    - sort_algo: QuadraticSorts (bubble_sort.cc, choose_sort.cc, insert_sort.cc),
      QuickSort (quick_sort.cc), MergeSort (merge_sort.cc), HeapSort
      (heap_sort.cc), each with its program's [main]; SortSpec, the contract they
      share as the class [ArraySorter], with instances; UseHeap (use_heap.cc).
    - tools/rate_limiter: TokenBucket (token_bucket_limiter.{h,cc}, main.cc), on
      Float64.
    - timerfd: TimerStamp (timer_stamp.h, timer.{h,cpp}, [AddTime]), TimerFormat
      (timer_stamp.cpp), TimerQueue (timer_queue.{h,cpp}), with its invariant in
      TimerQueueInv, the expiry of timers in TimerQueueRun, the properties in
      TimerQueueSpec, an abstract scheduler it refines in TimerRefine, and a
      caller in a second thread that adds a timer in TimerRace and stops one in
      TimerStopRace; TimerChannel (timer_channel, timer_epoll); TimerLoop
      (timer_loop_mgr), which runs the queue from the events of its two channels;
      TimerDemo (test_main.cpp).
    - thread pools: TaskQueue is the interface of their task containers with both
      implementations (include/threadpool.h: a list; socket/epoll/threadpool.h
      and tools/sync_file/epoll_socket/threadpool.h: a list with iterators by
      descriptor); ThreadPool, the step relation of the pools over the interface;
      ThreadPoolInv, its invariants; ThreadPoolSpec, the properties for any
      container that keeps the interface's laws; ThreadPoolRefine, the abstract
      executor the pools refine; ThreadPoolLive, a measure of the work left and
      the states in which the pools come to rest.
    - tools/sync_file: EpollSocket (epoll_socket.{h,cpp}: transfers of a given
      length, and the framing), SyncFile (file_operation/sync_file.{h,cpp}),
      SyncServer (epoll_socket/server.{h,cpp}, server/main.cpp), SyncClient
      (epoll_socket/client.{h,cpp}, client/main.cpp, and whole sessions), SyncCut
      (an answer cut off by the end of the connection), CNet
      (what both epoll servers keep of their sockets).  SyncClient and SyncServer
      call SyncFile, which calls EpollSocket, over any [Socket]; SyncServer queues
      tasks with TaskQueue's container.
    - socket/epoll: WireFormat (the interface of the protocol buffer runtime and
      the parse loop all messages share), EchoProto and EchoMessages (echo.pb.h,
      echo.pb.cc), WireVarint (the documented wire format as an instance of the
      runtime), EchoTyping (types of parsed members), EchoServer (server.cpp,
      client.cpp), EchoSpec (properties of the messages and the two programs),
      EchoSystem (the server's loop and the workers of its pool together, each
      client sending ahead or waiting for its replies), EchoSession (the turns of a
      client that waits, with that system).
    - socket/select: SelectChat (server.cc, client.cc).
    - test: LRUCache (146.cc), Jump (45.cc), Exercises (7.cc, 17.cc), KSmallest
      (373.cc).
    - CStdio: text and the integer conversions of [printf], for what is printed.

    ** What the theorems show

    - Sorting: each function sorts its range and permutes it, hence all agree
      ([sorts_agree]), with index arithmetic in range; use_heap.cc calls
      [sort_heap] outside its precondition, whatever the implementation.
    - Rate limiter: exactly when a permit is granted, and that refused requests
      push the window on.
    - Timer queue: an invariant ties the two containers, the sequence numbers and
      the heap, and every reachable state keeps it; each operation does what it
      promises; a round runs exactly the due timers and fails only through a
      callback that stops a timer: one that stops its own repeating timer
      dereferences [end()] ([self_stop_fails]).  Every run of the queue is, through
      an abstraction of heap and containers, a run of a scheduler that keeps only
      the jobs that wait and the jobs that run.  The loop and its channels keep
      their protocol with epoll.  A timer added from another thread than the loop's
      can fail an assertion or be read after it was freed; one stopped from there
      can fail the assertion, or dereference [end()] or an iterator to an erased
      node.  Time stamps print
      the Gregorian calendar, and are recovered from the text.
    - Pools: no step of any interleaving is undefined, each is a step of an
      abstract executor (tasks are taken in order, each at most once), a queued
      task always has a worker or a notification on its way; without new calls
      every run ends, and while the pool runs it ends with every task finished;
      and when [Destory] returns every task taken has finished; but [Destory] can
      wait for ever, its wake-up lost.
    - sync_file: a transfer of any length round-trips over any reliable
      connection, however it is cut; a whole session copies each file byte for
      byte; an answer cut off at any byte is undefined behaviour within the header
      and a damaged copy, reported as success, after it; an over-long request overruns the buffer; the server's tasks use
      variables that are dead.
    - Messages: parse after serialize is the identity, sizes are exact, parsing
      ends on every input, gives typed members and merges; the echo of a request
      returns it; a short read loses the framing.  Loop and workers together answer
      each request once on its connection, to a client that waits for its replies
      in the order of its requests, so that its session gives back its numbers;
      except that a task taken before its client was closed answers the next client
      with the same descriptor.
    - Chat: lines arrive in both directions however TCP cuts them; the list of
      connections is raced on; the only errors of the server are two.
    - Exercises: the cache refines a list of recently used entries; the greedy
      jumps are fewest; the pairs returned are those of smallest sum, in order;
      the reversed number and the combinations of letters are exact.

    ** Fuel

    [loop fuel body s] is [Err NoFuel] when [fuel] turns were not enough, so a
    theorem that gives [Ok] or [wp] shows that they were.  Where the code bounds a
    loop the definition computes the fuel: [hi - lo + 2] for a counted [for], the
    width of the range for the recursive sorts (each call has a smaller one), the
    length of the input for the parsers (each field takes a byte), ten digits for
    an [int].  A loop over a connection has no bound in the code, which retries as
    long as a call is interrupted: its fuel is an argument, and the theorems ask
    for more than the bytes to move plus [patience], the number of times the
    connection makes the code wait.  Event loops run on the list of what
    [epoll_wait] or [select] reports, one element for each turn.

    ** Not modelled

    - Reflection, descriptor tables, arenas, the hand-over of owned strings and
      the RPC stubs in echo.pb.{h,cc}: generated code the programs do not reach.
    - The runtime of protocol buffers, the kernel and the C++ library beyond what
      the interfaces say; logging and printing by the servers; futures and the
      bodies of the tasks in the pools; waiting for a key.
    - The event loops run in one thread each; a second thread is modelled where
      the programs have one: the pools (ThreadPool), the echo server's workers
      (EchoSystem), a caller of the timer library (TimerRace, TimerStopRace), the
      chat's threads (SelectChat).  In TimerRace and TimerStopRace each access is
      one step, which leaves out what a data race inside an access may do besides.  The tasks of the file server use dead variables, so it is not
      run with its workers.  Memory orders are sequentially consistent, and races
      are stated where found.
    - The results that are only logged ([timerfd_create], [eventfd],
      [timerfd_settime], [bind], [listen]); the getters of the channels and timers,
      which are the projections of their records; the flush of a file stream when
      it is destroyed, since writes reach the model's files at once.
    - Makefiles, test.sh, binaries. *)
From stdpp Require Export base list gmap strings sorting.
From Stdlib Require Export ZArith Lia.

#[global] Open Scope Z_scope.

(** ** Undefined behaviour and run-time errors

    Every operation that the language leaves undefined (or that aborts the
    program) is an explicit error of the model; a function of the model that
    returns [Ok] has performed none of them. *)
Inductive ub : Type :=
  | OutOfBounds       (** read or write outside an array or buffer *)
  | SignedOverflow    (** signed integer arithmetic out of range *)
  | BadCast           (** floating value does not fit the integer type *)
  | DivByZero         (** integer division by zero *)
  | NullDeref         (** null pointer dereferenced *)
  | Uninit            (** indeterminate value read *)
  | UseAfterFree      (** dead object accessed or freed again *)
  | EndIterator       (** [end()] iterator dereferenced or erased *)
  | AssertFailed      (** [assert] aborts *)
  | Thrown            (** uncaught C++ exception *)
  | BadPrecond        (** library function called outside its precondition *)
  | DataRace          (** conflicting accesses of two threads, none ordered before the other *)
  | BadObject         (** bytes stored over an object that is not trivially copyable *)
  | NoFuel.           (** the loop bound of the model was too small *)

Inductive res (A : Type) : Type :=
  | Ok (a : A)
  | Err (e : ub).
Arguments Ok {A} a.
Arguments Err {A} e.

#[global] Instance ub_eq_dec : EqDecision ub.
Proof. solve_decision. Defined.

#[global] Instance res_eq_dec `{EqDecision A} : EqDecision (res A).
Proof. solve_decision. Defined.

#[global] Instance res_ret : MRet res := @Ok.
#[global] Instance res_bind : MBind res := λ A B f m,
  match m with Ok a => f a | Err e => Err e end.

(** ** Total correctness

    [wp r Q]: the computation [r] finishes without undefined behaviour, and its
    result satisfies [Q]. *)
Definition wp {A} (r : res A) (Q : A → Prop) : Prop :=
  match r with Ok a => Q a | Err _ => False end.

Lemma wp_ret {A} (a : A) (Q : A → Prop) : Q a → wp (mret a) Q.
Proof. done. Qed.

Lemma wp_ok {A} (a : A) (Q : A → Prop) : Q a → wp (Ok a) Q.
Proof. done. Qed.

Lemma wp_bind {A B} (m : res A) (f : A → res B) (Q : B → Prop) :
  wp m (λ a, wp (f a) Q) → wp (m ≫= f) Q.
Proof. by destruct m. Qed.

Lemma wp_mono {A} (r : res A) (P Q : A → Prop) :
  wp r P → (∀ a, P a → Q a) → wp r Q.
Proof. destruct r; simpl; auto. Qed.

Lemma wp_elim {A} (r : res A) (Q : A → Prop) :
  wp r Q → ∃ a, r = Ok a ∧ Q a.
Proof. destruct r; simpl; [eauto | done]. Qed.

Lemma wp_eq {A} (r : res A) (a : A) : wp r (λ b, b = a) → r = Ok a.
Proof. destruct r; simpl; [by intros -> | done]. Qed.

Lemma wp_of_eq {A} (r : res A) (a : A) (Q : A → Prop) : r = Ok a → Q a → wp r Q.
Proof. by intros ->. Qed.

Lemma wp_if {A} (b : bool) (r s : res A) (Q : A → Prop) :
  (b = true → wp r Q) → (b = false → wp s Q) → wp (if b then r else s) Q.
Proof. destruct b; auto. Qed.

(** ** Loops

    [loop fuel body s] iterates [body] from [s]: [inl s'] continues with [s'],
    [inr r] leaves the loop with [r] (the condition failed, or a [break] or a
    [return] was met). *)
Fixpoint loop {S R} (fuel : nat) (body : S → res (S + R)) (s : S) : res R :=
  match fuel with
  | O => Err NoFuel
  | Datatypes.S fuel' =>
      x ← body s;
      match x with
      | inl s' => loop fuel' body s'
      | inr r => mret r
      end
  end.

Lemma loop_S {S R} fuel (body : S → res (S + R)) s :
  loop (Datatypes.S fuel) body s = x ← body s; match x with inl s' => loop fuel body s' | inr r => mret r end.
Proof. reflexivity. Qed.

Lemma wp_loop {S R} (I : S → Prop) (m : S → nat) (body : S → res (S + R)) (Q : R → Prop) :
  (∀ s, I s → wp (body s) (λ x, match x with
                               | inl s' => I s' ∧ (m s' < m s)%nat
                               | inr r => Q r end)) →
  ∀ fuel s, I s → (m s < fuel)%nat → wp (loop fuel body s) Q.
Proof.
  intros Hbody fuel. induction fuel as [|fuel IH]; intros s HI Hm; [lia|].
  simpl. apply wp_bind. eapply wp_mono; [by apply Hbody|].
  intros [s'|r]; simpl; [|done]. intros [HI' Hlt]. apply IH; [done|lia].
Qed.

(** [while (c) body] *)
Definition while {S} (fuel : nat) (c : S → res bool) (body : S → res S) : S → res S :=
  loop fuel (λ s, b ← c s; if b : bool then s' ← body s; mret (inl s') else mret (inr s)).

Lemma wp_while {S} (I : S → Prop) (m : S → nat) (c : S → res bool) (body : S → res S) (Q : S → Prop) :
  (∀ s, I s → wp (c s) (λ b, if b : bool
                             then wp (body s) (λ s', I s' ∧ (m s' < m s)%nat)
                             else Q s)) →
  ∀ fuel s, I s → (m s < fuel)%nat → wp (while fuel c body s) Q.
Proof.
  intros H. apply wp_loop. intros s HI. apply wp_bind.
  eapply wp_mono; [by apply H|]. intros [|] HQ; simpl; [|done].
  apply wp_bind. eapply wp_mono; [exact HQ|]. done.
Qed.

(** ** Runs that show events

    A step of [R] shows some events; [lrun R es s s'] is a run whose steps show
    [es] one after the other. *)
Inductive lrun {S L} (R : list L → S → S → Prop) : list L → S → S → Prop :=
  | lrun_nil s : lrun R [] s s
  | lrun_step es es' s1 s2 s3 : R es s1 s2 → lrun R es' s2 s3 → lrun R (es ++ es') s1 s3.

(** Forward simulation: a function that takes every step (from states that keep
    the invariant [I]) to a step that shows the same, or to a stutter that shows
    nothing, takes every run to a run that shows the same. *)
Lemma lrun_simulation {S T L} (R : list L → S → S → Prop) (R' : list L → T → T → Prop) (I : S → Prop) (f : S → T) :
  (∀ es s s', I s → R es s s' → I s' ∧ (R' es (f s) (f s') ∨ es = [] ∧ f s' = f s)) →
  ∀ es s s', I s → lrun R es s s' → lrun R' es (f s) (f s').
Proof.
  intros Hsim es s s' Hs Hr. revert Hs. induction Hr as [s|es es' s1 s2 s3 H1 _ IH]; intros Hs; [constructor|].
  destruct (Hsim _ _ _ Hs H1) as [H2 [HR|[-> Hf]]]; [econstructor; [exact HR|by apply IH]|].
  rewrite <- Hf. by apply IH.
Qed.

(** ** Lists *)
Lemma StronglySorted_lookup {A} (R : relation A) (l : list A) :
  StronglySorted R l ↔
  ∀ i j x y, (i < j)%nat → l !! i = Some x → l !! j = Some y → R x y.
Proof.
  split.
  - induction 1 as [|a l Hl IH Ha]; intros i j x y Hij Hx Hy; [done|].
    destruct j as [|j]; [lia|]. destruct i as [|i]; simplify_eq/=; [|by eapply (IH i j); try lia].
    rewrite Forall_lookup in Ha. by eapply Ha.
  - induction l as [|a l IH]; intros H; constructor.
    + apply IH. intros i j x y Hij. apply (H (S i) (S j)). lia.
    + apply Forall_lookup. intros i x Hx. apply (H 0%nat (S i)); [lia|done|done].
Qed.

Lemma StronglySorted_snoc {A} (R : relation A) (l : list A) x :
  StronglySorted R l → Forall (λ y, R y x) l → StronglySorted R (l ++ [x]).
Proof.
  induction 1 as [|y l Hl IH Hy]; simpl; [by repeat constructor|].
  intros [Hn Hf]%Forall_cons. constructor; [auto|]. apply Forall_app. by split; [|constructor].
Qed.

Lemma StronglySorted_lt_NoDup (l : list nat) : StronglySorted lt l → NoDup l.
Proof.
  induction 1 as [|x l Hl IH Hx]; constructor; [|done]. intros Hin.
  rewrite Forall_forall in Hx. specialize (Hx x Hin). lia.
Qed.

Lemma filter_ext_on {A} (P Q : A → Prop) `{∀ x, Decision (P x), ∀ x, Decision (Q x)} (l : list A) :
  (∀ x, x ∈ l → P x ↔ Q x) → filter P l = filter Q l.
Proof.
  induction l as [|x l IH]; intros H1; [done|]. rewrite !filter_cons, IH by set_solver.
  rewrite (decide_ext (P x) (Q x)) by (apply H1; left). done.
Qed.

Lemma filter_all {A} (P : A → Prop) `{∀ x, Decision (P x)} (l : list A) :
  (∀ x, x ∈ l → P x) → filter P l = l.
Proof.
  induction l as [|x l IH]; intros H1; [done|]. rewrite filter_cons_True by (apply H1; left).
  rewrite IH; [done|set_solver].
Qed.

Lemma filter_none {A} (P : A → Prop) `{∀ x, Decision (P x)} (l : list A) :
  (∀ x, x ∈ l → ¬ P x) → filter P l = [].
Proof.
  induction l as [|x l IH]; intros H1; [done|]. rewrite filter_cons_False by (apply H1; left).
  apply IH. set_solver.
Qed.

Lemma NoDup_fst_inj {A B} (l : list (A * B)) a b1 b2 :
  NoDup l.*1 → (a, b1) ∈ l → (a, b2) ∈ l → b1 = b2.
Proof.
  induction l as [|[a' b'] l IH]; simpl; [by intros _ ?%not_elem_of_nil|].
  intros [Hn Hnd]%NoDup_cons. rewrite !elem_of_cons.
  assert (Ha : ∀ b, (a, b) ∈ l → a ∈ l.*1) by (intros b H; apply list_elem_of_fmap; by exists (a, b)).
  intros [E1|H1] [E2|H2]; simplify_eq; [done|by apply Ha in H2|by apply Ha in H1|auto].
Qed.

(** ** Outcomes with errors

    [wpe r Q E]: the result of [r] satisfies [Q], or its error satisfies [E]. *)
Definition wpe {A} (r : res A) (Q : A → Prop) (E : ub → Prop) : Prop :=
  match r with Ok a => Q a | Err e => E e end.

Lemma wpe_ret {A} (a : A) Q E : Q a → wpe (mret a) Q E.
Proof. done. Qed.

Lemma wpe_bind {A B} (m : res A) (f : A → res B) Q E :
  wpe m (λ a, wpe (f a) Q E) E → wpe (m ≫= f) Q E.
Proof. by destruct m. Qed.

Lemma wpe_mono {A} (r : res A) (P Q : A → Prop) E :
  wpe r P E → (∀ a, P a → Q a) → wpe r Q E.
Proof. destruct r; simpl; auto. Qed.

Lemma wpe_of_eq {A} (r : res A) a (Q : A → Prop) E : r = Ok a → Q a → wpe r Q E.
Proof. by intros ->. Qed.

Lemma wpe_wp {A} (r : res A) (Q : A → Prop) E : wpe r Q E → (∀ e, ¬ E e) → wp r Q.
Proof. destruct r; simpl; [done|]. intros HE Hn. by apply (Hn e). Qed.

Lemma wpe_loop {S R} (I : S → Prop) (m : S → nat) (body : S → res (S + R)) (Q : R → Prop) (E : ub → Prop) :
  (∀ s, I s → wpe (body s) (λ x, match x with
                               | inl s' => I s' ∧ (m s' < m s)%nat
                               | inr r => Q r end) E) →
  ∀ fuel s, I s → (m s < fuel)%nat → wpe (loop fuel body s) Q E.
Proof.
  intros Hbody fuel. induction fuel as [|fuel IH]; intros s HI Hm; [lia|].
  simpl. apply wpe_bind. eapply wpe_mono; [by apply Hbody|].
  intros [s'|r]; simpl; [|done]. intros [HI' Hlt]. apply IH; [done|lia].
Qed.

Lemma wpe_of_wp {A} (r : res A) (Q : A → Prop) E : wp r Q → wpe r Q E.
Proof. by destruct r. Qed.

(** ** Automation

    [wp] collects the rules that drive symbolic execution; [mono] the ones that
    weaken a postcondition. *)
Create HintDb wp discriminated.
#[export] Hint Resolve wp_ret wp_ok wpe_ret wp_bind wpe_bind : wp.
