(* ===== verification/CInt.v ===== *)
(** * Machine integers of the target (LP64): widths, wrap-around, checked
    arithmetic, truncating division, counted loops over [int].

    Signed overflow is undefined behaviour, so the signed operations are
    partial ([res]); unsigned arithmetic and conversions wrap. *)
From S2P Require Import Prelude.

Definition INT_MIN : Z := - 2 ^ 31.
Definition INT_MAX : Z := 2 ^ 31 - 1.
Definition INT64_MIN : Z := - 2 ^ 63.
Definition INT64_MAX : Z := 2 ^ 63 - 1.
Definition UINT32_MAX : Z := 2 ^ 32 - 1.
Definition UINT64_MAX : Z := 2 ^ 64 - 1.

Definition in_int (z : Z) : bool := (INT_MIN <=? z) && (z <=? INT_MAX).
Definition in_int64 (z : Z) : bool := (INT64_MIN <=? z) && (z <=? INT64_MAX).

(** Conversions: to an unsigned type modulo [2^w]; to a signed type the value
    congruent modulo [2^w] that fits. *)
Definition to_u32 (z : Z) : Z := z mod 2 ^ 32.
Definition to_u64 (z : Z) : Z := z mod 2 ^ 64.
Definition to_i32 (z : Z) : Z := (z + 2 ^ 31) mod 2 ^ 32 - 2 ^ 31.
Definition to_i64 (z : Z) : Z := (z + 2 ^ 63) mod 2 ^ 64 - 2 ^ 63.

Definition chk32 (z : Z) : res Z := if in_int z then Ok z else Err SignedOverflow.
Definition chk64 (z : Z) : res Z := if in_int64 z then Ok z else Err SignedOverflow.

Definition iadd (a b : Z) : res Z := chk32 (a + b).
Definition isub (a b : Z) : res Z := chk32 (a - b).
Definition imul (a b : Z) : res Z := chk32 (a * b).
Definition idiv (a b : Z) : res Z :=
  if b =? 0 then Err DivByZero else chk32 (Z.quot a b).
Definition irem (a b : Z) : res Z :=
  if b =? 0 then Err DivByZero else
  _ ← chk32 (Z.quot a b); mret (Z.rem a b).

Definition ladd (a b : Z) : res Z := chk64 (a + b).
Definition lsub (a b : Z) : res Z := chk64 (a - b).
Definition lmul (a b : Z) : res Z := chk64 (a * b).

Lemma wp_chk32 z Q : INT_MIN ≤ z ≤ INT_MAX → Q z → wp (chk32 z) Q.
Proof.
  intros [H1 H2] HQ. unfold chk32, in_int.
  apply Z.leb_le in H1, H2. by rewrite H1, H2.
Qed.

Lemma wp_chk64 z Q : INT64_MIN ≤ z ≤ INT64_MAX → Q z → wp (chk64 z) Q.
Proof.
  intros [H1 H2] HQ. unfold chk64, in_int64.
  apply Z.leb_le in H1, H2. by rewrite H1, H2.
Qed.

Lemma chk32_overflow z : z < INT_MIN ∨ INT_MAX < z → chk32 z = Err SignedOverflow.
Proof.
  unfold chk32, in_int. destruct (Z.leb_spec INT_MIN z), (Z.leb_spec z INT_MAX); simpl; (done || lia).
Qed.

(** Reduces an arithmetic side condition about the bounds to numerals. *)
Ltac int_lia := unfold INT_MIN, INT_MAX, INT64_MIN, INT64_MAX, UINT32_MAX, UINT64_MAX in *; lia.

Lemma wp_idiv a b Q :
  b ≠ 0 → INT_MIN ≤ Z.quot a b ≤ INT_MAX → Q (Z.quot a b) → wp (idiv a b) Q.
Proof.
  intros Hb Hr HQ. unfold idiv. rewrite (proj2 (Z.eqb_neq b 0) Hb). by apply wp_chk32.
Qed.

Lemma to_i32_id z : INT_MIN ≤ z ≤ INT_MAX → to_i32 z = z.
Proof. intros. unfold to_i32. rewrite Z.mod_small; int_lia. Qed.

Lemma to_i64_id z : INT64_MIN ≤ z ≤ INT64_MAX → to_i64 z = z.
Proof. intros. unfold to_i64. rewrite Z.mod_small; int_lia. Qed.

Lemma to_u64_id z : 0 ≤ z ≤ UINT64_MAX → to_u64 z = z.
Proof. intros. unfold to_u64. apply Z.mod_small; int_lia. Qed.

Lemma to_u32_id z : 0 ≤ z ≤ UINT32_MAX → to_u32 z = z.
Proof. intros. unfold to_u32. apply Z.mod_small; int_lia. Qed.

(** ** Counted loops over [int]

    [for_le lo hi body] is [for (int i = lo; i <= hi; ++i) body];
    [for_ge hi lo body] is [for (int i = hi; i >= lo; --i) body].  The loop
    variable is local and checked, so an overflowing counter is an error; the
    fuel is the number of iterations plus the final test, computed from the
    bounds. *)
Definition for_le {S} (lo hi : Z) (body : Z → S → res S) (s : S) : res S :=
  loop (Z.to_nat (hi - lo + 2))
    (λ '(i, s), if i <=? hi then s' ← body i s; i' ← iadd i 1; mret (inl (i', s'))
                else mret (inr s))
    (lo, s).

Definition for_ge {S} (hi lo : Z) (body : Z → S → res S) (s : S) : res S :=
  loop (Z.to_nat (hi - lo + 2))
    (λ '(i, s), if lo <=? i then s' ← body i s; i' ← isub i 1; mret (inl (i', s'))
                else mret (inr s))
    (hi, s).

Lemma wp_for_le {S} (I : Z → S → Prop) lo hi (body : Z → S → res S) s (Q : S → Prop) :
  INT_MIN ≤ lo → hi < INT_MAX → lo ≤ hi + 1 →
  I lo s →
  (∀ i s, lo ≤ i ≤ hi → I i s → wp (body i s) (I (i + 1))) →
  (∀ s, I (hi + 1) s → Q s) →
  wp (for_le lo hi body s) Q.
Proof.
  intros Hlo Hhi Hle HI Hbody HQ. unfold for_le.
  apply (wp_loop (λ '(i, s), lo ≤ i ≤ hi + 1 ∧ I i s) (λ '(i, _), Z.to_nat (hi + 1 - i))).
  - intros [i t] [Hi Ht]. destruct (Z.leb_spec i hi); simpl.
    + apply wp_bind. eapply wp_mono; [apply Hbody; [lia|done]|]. intros t' Ht'.
      apply wp_bind, wp_chk32; [int_lia|]. simpl. split; [split; [lia|done]|lia].
    + apply HQ. by replace (hi + 1) with i by lia.
  - split; [lia|done].
  - lia.
Qed.

(** A loop whose bounds are empty does nothing. *)
Lemma for_le_empty {S} lo hi (body : Z → S → res S) s :
  hi = lo - 1 → for_le lo hi body s = Ok s.
Proof.
  intros ->. unfold for_le. replace (Z.to_nat (lo - 1 - lo + 2)) with 1%nat by lia.
  simpl. by destruct (Z.leb_spec lo (lo - 1)); [lia|].
Qed.

Lemma wp_for_ge {S} (I : Z → S → Prop) hi lo (body : Z → S → res S) s (Q : S → Prop) :
  INT_MIN < lo → hi ≤ INT_MAX → lo ≤ hi + 1 →
  I hi s →
  (∀ i s, lo ≤ i ≤ hi → I i s → wp (body i s) (I (i - 1))) →
  (∀ s, I (lo - 1) s → Q s) →
  wp (for_ge hi lo body s) Q.
Proof.
  intros Hlo Hhi Hle HI Hbody HQ. unfold for_ge.
  apply (wp_loop (λ '(i, s), lo - 1 ≤ i ≤ hi ∧ I i s) (λ '(i, _), Z.to_nat (i - lo + 1))).
  - intros [i t] [Hi Ht]. destruct (Z.leb_spec lo i); simpl.
    + apply wp_bind. eapply wp_mono; [apply Hbody; [lia|done]|]. intros t' Ht'.
      apply wp_bind, wp_chk32; [int_lia|]. simpl. split; [split; [lia|done]|lia].
    + apply HQ. by replace (lo - 1) with i by lia.
  - split; [lia|done].
  - lia.
Qed.

(** ** 64-bit arithmetic in range *)
Lemma chk64_ok z : INT64_MIN ≤ z ≤ INT64_MAX → chk64 z = Ok z.
Proof. intros Hz. by apply wp_eq, wp_chk64. Qed.
Lemma ladd_ok a b : INT64_MIN ≤ a + b ≤ INT64_MAX → ladd a b = Ok (a + b).
Proof. apply chk64_ok. Qed.
Lemma lsub_ok a b : INT64_MIN ≤ a - b ≤ INT64_MAX → lsub a b = Ok (a - b).
Proof. apply chk64_ok. Qed.
Lemma chk32_ok z : INT_MIN ≤ z ≤ INT_MAX → chk32 z = Ok z.
Proof. intros Hz. by apply wp_eq, wp_chk32. Qed.
