(* ===== verification/CArray.v ===== *)
(** * C arrays: checked access, ranges, sortedness, permutations.

    A C array with elements of type [A] is a [list A] addressed by a [Z] index;
    an access outside it is [OutOfBounds].  Cells that may be indeterminate have
    type [option Z]. *)
From S2P Require Import Prelude CInt.

Section Access.
Context {A : Type} `{Inhabited A}.

Definition len (v : list A) : Z := Z.of_nat (length v).
Definition at_ (v : list A) (i : Z) : A := v !!! Z.to_nat i.
Definition upd (v : list A) (i : Z) (x : A) : list A := <[Z.to_nat i := x]> v.
Definition swp (v : list A) (i j : Z) : list A := upd (upd v i (at_ v j)) j (at_ v i).

Definition in_range (v : list A) (i : Z) : bool := (0 <=? i) && (i <? len v).
Definition aget (v : list A) (i : Z) : res A :=
  if in_range v i then Ok (at_ v i) else Err OutOfBounds.
Definition aset (v : list A) (i : Z) (x : A) : res (list A) :=
  if in_range v i then Ok (upd v i x) else Err OutOfBounds.

(** [std::swap(vec[i], vec[j])] *)
Definition aswap (v : list A) (i j : Z) : res (list A) :=
  x ← aget v i; y ← aget v j; v' ← aset v i y; aset v' j x.

(** The elements at [lo..hi]. *)
Definition slice (v : list A) (lo hi : Z) : list A :=
  take (Z.to_nat (hi - lo + 1)) (drop (Z.to_nat lo) v).
End Access.

(** A read of a cell that may be indeterminate. *)
Definition init {A} (x : option A) : res A :=
  match x with Some a => Ok a | None => Err Uninit end.

Declare Scope array_scope.
Delimit Scope array_scope with array.
Notation "v .[ i ]" := (at_ v i) (at level 1, left associativity, format "v .[ i ]") : array_scope.
#[global] Open Scope array_scope.

(** Sortedness on the index range [lo..hi], and the relation "[w] is [v] with
    the elements at [lo..hi] rearranged". *)
Definition sorted_on (v : list Z) (lo hi : Z) : Prop :=
  ∀ i j, lo ≤ i → i ≤ j → j ≤ hi → v.[i] ≤ v.[j].

Definition same_outside (v w : list Z) (lo hi : Z) : Prop :=
  ∀ k, 0 ≤ k → (k < lo ∨ hi < k) → w.[k] = v.[k].

Definition perm_on (v w : list Z) (lo hi : Z) : Prop :=
  w ≡ₚ v ∧ same_outside v w lo hi.

(** The reference: the slice [lo..hi] replaced by its sorted rearrangement. *)
Definition sort_range (v : list Z) (lo hi : Z) : list Z :=
  take (Z.to_nat lo) v ++ merge_sort (≤) (slice v lo hi) ++ drop (Z.to_nat (hi + 1)) v.

(** ** Access *)
Section AccessLemmas.
Context {A : Type} `{Inhabited A}.
Implicit Types (v w : list A) (x : A).

Lemma len_nonneg v : 0 ≤ len v.
Proof. unfold len. lia. Qed.

Lemma len_upd v i x : len (upd v i x) = len v.
Proof. unfold len, upd. by rewrite length_insert. Qed.

Lemma len_swp v i j : len (swp v i j) = len v.
Proof. unfold swp. by rewrite !len_upd. Qed.

Lemma len_perm v w : w ≡ₚ v → len w = len v.
Proof. unfold len. by intros ->. Qed.

Lemma at_upd v i j x :
  0 ≤ i < len v → 0 ≤ j → (upd v i x).[j] = if decide (i = j) then x else v.[j].
Proof.
  unfold at_, upd, len. intros Hi Hj. case_decide as Hij.
  - subst j. apply list_lookup_total_insert_eq. lia.
  - apply list_lookup_total_insert_ne. lia.
Qed.

Lemma at_upd_eq v i x : 0 ≤ i < len v → (upd v i x).[i] = x.
Proof. intros. rewrite at_upd by lia. by rewrite decide_True. Qed.

Lemma at_upd_ne v i j x : 0 ≤ i < len v → 0 ≤ j → i ≠ j → (upd v i x).[j] = v.[j].
Proof. intros. rewrite at_upd by lia. by rewrite decide_False. Qed.

Lemma at_swp v i j k :
  0 ≤ i < len v → 0 ≤ j < len v → 0 ≤ k →
  (swp v i j).[k] = if decide (k = j) then v.[i] else if decide (k = i) then v.[j] else v.[k].
Proof.
  intros Hi Hj Hk. unfold swp. rewrite at_upd by (rewrite ?len_upd; lia).
  repeat case_decide; try congruence; rewrite at_upd by lia; repeat case_decide; congruence.
Qed.

Lemma upd_same v i : upd v i v.[i] = v.
Proof.
  unfold upd, at_. destruct (decide (Z.to_nat i < length v)%nat).
  - apply list_insert_id. by apply list_lookup_lookup_total_lt.
  - apply list_insert_ge. lia.
Qed.

Lemma upd_upd v i x y : upd (upd v i x) i y = upd v i y.
Proof. apply list_insert_insert_eq. Qed.

Lemma array_ext v w : len v = len w → (∀ k, 0 ≤ k < len v → v.[k] = w.[k]) → v = w.
Proof.
  unfold len, at_. intros Hl Hk. apply list_eq_same_length with (length v); [lia|lia|].
  intros i x y Hi Hx Hy. specialize (Hk (Z.of_nat i) ltac:(lia)).
  rewrite Nat2Z.id in Hk. rewrite (list_lookup_total_correct _ _ _ Hx) in Hk.
  by rewrite (list_lookup_total_correct _ _ _ Hy) in Hk.
Qed.

Lemma wp_aget v i Q : 0 ≤ i < len v → Q v.[i] → wp (aget v i) Q.
Proof.
  intros Hi HQ. unfold aget, in_range.
  by rewrite (proj2 (Z.leb_le 0 i)), (proj2 (Z.ltb_lt i (len v))) by lia.
Qed.

Lemma wp_aset v i x Q : 0 ≤ i < len v → Q (upd v i x) → wp (aset v i x) Q.
Proof.
  intros Hi HQ. unfold aset, in_range.
  by rewrite (proj2 (Z.leb_le 0 i)), (proj2 (Z.ltb_lt i (len v))) by lia.
Qed.

Lemma wp_aswap v i j Q :
  0 ≤ i < len v → 0 ≤ j < len v → Q (swp v i j) → wp (aswap v i j) Q.
Proof.
  intros Hi Hj HQ. unfold aswap.
  apply wp_bind, wp_aget, wp_bind, wp_aget, wp_bind, wp_aset, wp_aset; rewrite ?len_upd; done.
Qed.

(** ** Permutations *)
Lemma swp_perm v i j : 0 ≤ i < len v → 0 ≤ j < len v → swp v i j ≡ₚ v.
Proof.
  unfold swp, upd, at_, len. intros Hi Hj.
  apply Permutation_insert_swap; apply list_lookup_lookup_total_lt; lia.
Qed.

(** Filling the hole [i] from [j] and putting [x] at [j] is, up to
    rearrangement, putting [x] at [i]. *)
Lemma hole_perm v i j x :
  0 ≤ i < len v → 0 ≤ j < len v → upd (upd v i v.[j]) j x ≡ₚ upd v i x.
Proof.
  intros Hi Hj. destruct (decide (i = j)) as [<-|Hij].
  - by rewrite upd_same.
  - replace (upd (upd v i v.[j]) j x) with (swp (upd v i x) i j).
    { apply swp_perm; rewrite len_upd; lia. }
    unfold swp. rewrite at_upd_eq, at_upd_ne, upd_upd by (rewrite ?len_upd; lia). done.
Qed.

(** ** Slices *)
Lemma slice_length v lo hi :
  0 ≤ lo → lo ≤ hi + 1 → hi < len v → length (slice v lo hi) = Z.to_nat (hi - lo + 1).
Proof. intros. unfold slice. rewrite length_take, length_drop. unfold len in *. lia. Qed.

Lemma slice_lookup v lo hi k :
  0 ≤ lo → hi < len v → (Z.of_nat k ≤ hi - lo) →
  slice v lo hi !! k = Some v.[lo + Z.of_nat k].
Proof.
  intros. unfold slice, at_. rewrite lookup_take_lt by lia. rewrite lookup_drop.
  replace (Z.to_nat (lo + Z.of_nat k)) with (Z.to_nat lo + k)%nat by lia.
  apply list_lookup_lookup_total_lt. unfold len in *. lia.
Qed.

Lemma slice_split v lo hi :
  0 ≤ lo → lo ≤ hi + 1 →
  v = take (Z.to_nat lo) v ++ slice v lo hi ++ drop (Z.to_nat (hi + 1)) v.
Proof.
  intros. unfold slice.
  replace (Z.to_nat (hi + 1)) with (Z.to_nat lo + Z.to_nat (hi - lo + 1))%nat by lia.
  by rewrite <- drop_drop, !take_drop.
Qed.

Lemma slice_cons v lo hi :
  0 ≤ lo ≤ hi → hi < len v → slice v lo hi = at_ v lo :: slice v (lo + 1) hi.
Proof.
  intros. unfold slice, at_.
  replace (Z.to_nat (hi - lo + 1)) with (S (Z.to_nat (hi - (lo + 1) + 1))) by lia.
  replace (Z.to_nat (lo + 1)) with (S (Z.to_nat lo)) by lia.
  rewrite (drop_S _ (v !!! Z.to_nat lo) (Z.to_nat lo)); [done|].
  apply list_lookup_lookup_total_lt. unfold len in *. lia.
Qed.

Lemma slice_nil v lo hi : hi < lo → slice v lo hi = [].
Proof. intros. unfold slice. by replace (Z.to_nat (hi - lo + 1)) with 0%nat by lia. Qed.

Lemma slice_app v lo mid hi :
  0 ≤ lo → lo ≤ mid + 1 → mid ≤ hi → slice v lo mid ++ slice v (mid + 1) hi = slice v lo hi.
Proof.
  intros. unfold slice.
  replace (Z.to_nat (hi - lo + 1)) with (Z.to_nat (mid - lo + 1) + Z.to_nat (hi - (mid + 1) + 1))%nat by lia.
  replace (Z.to_nat (mid + 1)) with (Z.to_nat lo + Z.to_nat (mid - lo + 1))%nat by lia.
  by rewrite <- drop_drop, <- take_take_drop.
Qed.

Lemma slice_full v : slice v 0 (len v - 1) = v.
Proof. unfold slice, len. rewrite take_ge; [done|]. rewrite length_drop. lia. Qed.

Lemma at_app_l v w i : 0 ≤ i < len v → (v ++ w).[i] = v.[i].
Proof. unfold len, at_. intros. by rewrite lookup_total_app_l by lia. Qed.

Lemma at_app_r v w i : len v ≤ i → (v ++ w).[i] = w.[i - len v].
Proof.
  unfold len, at_. intros. rewrite lookup_total_app_r by lia. f_equal. lia.
Qed.

Lemma at_take v n i : 0 ≤ i < n → (take (Z.to_nat n) v).[i] = v.[i].
Proof. unfold at_. intros. apply lookup_total_take_lt. lia. Qed.

Lemma at_drop v n i : 0 ≤ n → 0 ≤ i → (drop (Z.to_nat n) v).[i] = v.[n + i].
Proof. unfold at_. intros. rewrite lookup_total_drop. f_equal. lia. Qed.

Lemma len_app v w : len (v ++ w) = len v + len w.
Proof. unfold len. rewrite length_app. lia. Qed.

Lemma len_take v n : 0 ≤ n ≤ len v → len (take (Z.to_nat n) v) = n.
Proof. unfold len. intros. rewrite length_take. lia. Qed.

Lemma len_drop v n : 0 ≤ n ≤ len v → len (drop (Z.to_nat n) v) = len v - n.
Proof. unfold len. intros. rewrite length_drop. lia. Qed.

Lemma len_slice v lo hi :
  0 ≤ lo → lo ≤ hi + 1 → hi < len v → len (slice v lo hi) = hi - lo + 1.
Proof. intros. unfold len. rewrite slice_length by done. lia. Qed.

(** The range [lo..hi] of [v] replaced by the list [m] of the same length. *)
Definition splice v lo hi (m : list A) : list A :=
  take (Z.to_nat lo) v ++ m ++ drop (Z.to_nat (hi + 1)) v.

Lemma len_splice v lo hi m :
  0 ≤ lo → lo ≤ hi + 1 → hi < len v → len m = hi - lo + 1 → len (splice v lo hi m) = len v.
Proof. intros. unfold splice. rewrite !len_app, len_take, len_drop by lia. lia. Qed.

Lemma at_splice v lo hi m k :
  0 ≤ lo → lo ≤ hi + 1 → hi < len v → len m = hi - lo + 1 → 0 ≤ k →
  (splice v lo hi m).[k] = if decide (lo ≤ k ≤ hi) then m.[k - lo] else v.[k].
Proof.
  intros Hlo Hle Hhi Hm Hk. unfold splice. case_decide.
  - rewrite at_app_r, len_take by (rewrite ?len_take; lia). rewrite at_app_l by lia. done.
  - destruct (decide (k < lo)).
    + rewrite at_app_l by (rewrite len_take; lia). by rewrite at_take by lia.
    + rewrite at_app_r, len_take by (rewrite ?len_take; lia). rewrite at_app_r by lia.
      rewrite at_drop by lia. f_equal. lia.
Qed.

Lemma slice_splice v lo hi m :
  0 ≤ lo → lo ≤ hi + 1 → hi < len v → len m = hi - lo + 1 → slice (splice v lo hi m) lo hi = m.
Proof.
  intros Hlo Hle Hhi Hm. apply array_ext; [rewrite len_slice; rewrite ?len_splice; lia|].
  intros k Hk. rewrite len_slice in Hk by (rewrite ?len_splice; lia).
  unfold at_ at 1. erewrite list_lookup_total_correct.
  2:{ apply slice_lookup; rewrite ?len_splice by done; lia. }
  rewrite at_splice by lia. case_decide; [|lia]. f_equal. lia.
Qed.
End AccessLemmas.

(** ** Rearrangements of a range *)
Lemma same_outside_refl v lo hi : same_outside v v lo hi.
Proof. by intros k Hk Hout. Qed.

Lemma same_outside_trans u v w lo hi :
  same_outside u v lo hi → same_outside v w lo hi → same_outside u w lo hi.
Proof. intros H1 H2 k Hk Hout. by rewrite H2, H1. Qed.

Lemma same_outside_weaken v w lo hi lo' hi' :
  same_outside v w lo hi → lo' ≤ lo → hi ≤ hi' → same_outside v w lo' hi'.
Proof. intros H Hlo Hhi k Hk Hout. apply H; lia. Qed.

Lemma same_outside_upd v i x lo hi :
  0 ≤ i < len v → lo ≤ i ≤ hi → same_outside v (upd v i x) lo hi.
Proof. intros Hi Hr k Hk Hout. apply at_upd_ne; lia. Qed.

Lemma perm_on_refl v lo hi : perm_on v v lo hi.
Proof. split; [done|apply same_outside_refl]. Qed.

Lemma perm_on_trans u v w lo hi : perm_on u v lo hi → perm_on v w lo hi → perm_on u w lo hi.
Proof. intros [H1 ?] [H2 ?]. split; [by rewrite H2|by eapply same_outside_trans]. Qed.

Lemma perm_on_weaken v w lo hi lo' hi' :
  perm_on v w lo hi → lo' ≤ lo → hi ≤ hi' → perm_on v w lo' hi'.
Proof. intros [? ?] ??. split; [done|by eapply same_outside_weaken]. Qed.

Lemma perm_on_swp v i j lo hi :
  0 ≤ lo → hi < len v → lo ≤ i ≤ hi → lo ≤ j ≤ hi → perm_on v (swp v i j) lo hi.
Proof.
  intros. split; [apply swp_perm; lia|].
  intros k Hk Hout. rewrite at_swp by lia. by repeat case_decide; try lia.
Qed.

Lemma perm_on_len v w lo hi : perm_on v w lo hi → len w = len v.
Proof. intros [? _]. by apply len_perm. Qed.

Lemma perm_on_parts v w lo hi :
  perm_on v w lo hi → 0 ≤ lo → lo ≤ hi + 1 →
  take (Z.to_nat lo) w = take (Z.to_nat lo) v ∧
  slice w lo hi ≡ₚ slice v lo hi ∧
  drop (Z.to_nat (hi + 1)) w = drop (Z.to_nat (hi + 1)) v.
Proof.
  intros Hp Hlo Hhi. pose proof (perm_on_len _ _ _ _ Hp) as Hl. destruct Hp as [Hp Hs].
  unfold len in Hl.
  assert (Hout : ∀ k : nat, Z.of_nat k < lo ∨ hi < Z.of_nat k → w !! k = v !! k).
  { intros k Hk. specialize (Hs (Z.of_nat k) ltac:(lia) Hk). unfold at_ in Hs.
    rewrite Nat2Z.id in Hs. destruct (decide (k < length v)%nat).
    - rewrite !list_lookup_lookup_total_lt by lia. by rewrite Hs.
    - rewrite !lookup_ge_None_2 by lia. done. }
  assert (Ht : take (Z.to_nat lo) w = take (Z.to_nat lo) v).
  { apply list_eq. intros k. destruct (decide (k < Z.to_nat lo)%nat).
    - rewrite !lookup_take_lt by lia. apply Hout. lia.
    - rewrite !lookup_take_ge by lia. done. }
  assert (Hd : drop (Z.to_nat (hi + 1)) w = drop (Z.to_nat (hi + 1)) v).
  { apply list_eq. intros k. rewrite !lookup_drop. apply Hout. lia. }
  split; [done|]. split; [|done].
  rewrite (slice_split w lo hi), (slice_split v lo hi), Ht, Hd in Hp by lia.
  by apply (inj (take (Z.to_nat lo) v ++.)), (inj (.++ drop (Z.to_nat (hi + 1)) v)) in Hp.
Qed.

Lemma perm_on_splice v lo hi m :
  0 ≤ lo → lo ≤ hi + 1 → hi < len v → m ≡ₚ slice v lo hi → perm_on v (splice v lo hi m) lo hi.
Proof.
  intros Hlo Hle Hhi Hm. split.
  - unfold splice. rewrite Hm. by rewrite <- slice_split by lia.
  - intros k Hk Hout. apply len_perm in Hm. rewrite len_slice in Hm by lia.
    rewrite at_splice by lia. by case_decide; try lia.
Qed.

(** A property of every element at [lo..hi] survives a rearrangement there. *)
Lemma perm_on_forall (P : Z → Prop) v w lo hi :
  perm_on v w lo hi → 0 ≤ lo → hi < len v →
  (∀ k, lo ≤ k ≤ hi → P v.[k]) → ∀ k, lo ≤ k ≤ hi → P w.[k].
Proof.
  intros Hp Hlo Hhi HP k Hk. pose proof (perm_on_len _ _ _ _ Hp) as Hl.
  destruct (perm_on_parts v w lo hi Hp) as (_ & Hs & _); [lia..|].
  assert (Hf : Forall P (slice v lo hi)).
  { apply Forall_lookup. intros n x Hx.
    pose proof (lookup_lt_Some _ _ _ Hx) as Hn. rewrite slice_length in Hn by lia.
    rewrite slice_lookup in Hx by lia. injection Hx as <-. apply HP. lia. }
  rewrite <- Hs, Forall_lookup in Hf. apply (Hf (Z.to_nat (k - lo))).
  rewrite slice_lookup by lia. do 2 f_equal. lia.
Qed.

(** ** The reference sort *)
Lemma sorted_on_slice v lo hi :
  0 ≤ lo → lo ≤ hi + 1 → hi < len v → sorted_on v lo hi ↔ StronglySorted (≤) (slice v lo hi).
Proof.
  intros Hlo Hle Hhi. rewrite StronglySorted_lookup. split.
  - intros Hs i j x y Hij Hx Hy.
    pose proof (lookup_lt_Some _ _ _ Hy) as Hj. rewrite slice_length in Hj by lia.
    rewrite slice_lookup in Hx, Hy by lia. simplify_eq. apply Hs; lia.
  - intros Hs i j Hi Hij Hj. destruct (decide (i = j)) as [->|]; [done|].
    apply (Hs (Z.to_nat (i - lo)) (Z.to_nat (j - lo))); [lia| |];
      rewrite slice_lookup by lia; do 2 f_equal; lia.
Qed.

#[export] Instance Zle_antisymm : AntiSymm (=) Z.le.
Proof. intros x y. lia. Qed.
#[export] Instance Zle_total : Total Z.le.
Proof. intros x y. lia. Qed.

(** The sorted rearrangement of a range is unique: it is the reference. *)
Lemma sort_range_unique v w lo hi :
  0 ≤ lo → lo ≤ hi + 1 → hi < len v →
  perm_on v w lo hi → sorted_on w lo hi → w = sort_range v lo hi.
Proof.
  intros Hlo Hle Hhi Hp Hs. pose proof (perm_on_len _ _ _ _ Hp) as Hl.
  destruct (perm_on_parts v w lo hi Hp) as (Ht & Hsl & Hd); [lia..|].
  rewrite (slice_split w lo hi) by lia. unfold sort_range. rewrite Ht, Hd.
  do 2 f_equal. apply (StronglySorted_unique (≤)).
  - apply sorted_on_slice; [lia..|done].
  - apply StronglySorted_merge_sort; apply _.
  - by rewrite merge_sort_Permutation.
Qed.

Lemma sort_range_wp (r : res (list Z)) v lo hi :
  0 ≤ lo → lo ≤ hi + 1 → hi < len v →
  wp r (λ w, perm_on v w lo hi ∧ sorted_on w lo hi) → r = Ok (sort_range v lo hi).
Proof.
  intros ??? Hr. apply wp_eq. eapply wp_mono; [exact Hr|].
  intros w [??]. by apply sort_range_unique.
Qed.

Lemma sort_range_full v : sort_range v 0 (len v - 1) = merge_sort (≤) v.
Proof.
  unfold sort_range. rewrite slice_full, drop_ge by (unfold len; lia).
  by rewrite app_nil_r.
Qed.

Lemma sort_range_empty v lo : 0 ≤ lo → sort_range v lo (lo - 1) = v.
Proof.
  intros. unfold sort_range, slice. replace (Z.to_nat (lo - 1 - lo + 1)) with 0%nat by lia.
  replace (lo - 1 + 1) with lo by lia. simpl. apply take_drop.
Qed.

(** ** Automation: one step of symbolic execution; the range conditions are
    left to [lia] over the array lengths. *)
Ltac range_lia := rewrite ?len_swp, ?len_upd; int_lia.

Ltac wp_step :=
  cbn beta iota;
  lazymatch goal with
  | |- wp (_ ≫= _) _ => apply wp_bind
  | |- wp (mret _) _ => apply wp_ret
  | |- wp (iadd _ _) _ => apply wp_chk32; [try range_lia|]
  | |- wp (isub _ _) _ => apply wp_chk32; [try range_lia|]
  | |- wp (imul _ _) _ => apply wp_chk32; [try range_lia|]
  | |- wp (aget _ _) _ => apply wp_aget; [try range_lia|]
  | |- wp (aset _ _ _) _ => apply wp_aset; [try range_lia|]
  | |- wp (aswap _ _ _) _ => apply wp_aswap; [try range_lia|try range_lia|]
  end.
Ltac wp_steps := repeat wp_step.
