(* ===== verification/CStdio.v ===== *)
(** * Text as C sees it: bytes of a literal, and the integer conversions of
    [printf] ("%d", "%4d", "%02d", and their 64-bit forms). *)
From S2P Require Import Prelude CInt CArray.

Definition bytes (s : string) : list Z := (λ a, Z.of_nat (Ascii.nat_of_ascii a)) <$> String.list_ascii_of_string s.

(** The decimal digits of [n], at most [k] of them, and the value of digits. *)
Fixpoint udec (k : nat) (n : Z) : list Z :=
  match k with
  | O => []
  | S k => (if n <? 10 then [] else udec k (n / 10)) ++ [48 + n mod 10]
  end.
Definition dval (l : list Z) : Z := foldl (λ a d, 10 * a + (d - 48)) 0 l.
Definition is_digit (d : Z) : Prop := 48 ≤ d ≤ 57.

(** [%<width>d], with the flag [0] or without; 20 digits are enough for 64 bits. *)
Definition fmt_d (zero : bool) (width : nat) (z : Z) : list Z :=
  let sign := if z <? 0 then [45] else [] in
  let ds := udec 20 (Z.abs z) in
  let pad := (width - length sign - length ds)%nat in
  if zero then sign ++ replicate pad 48 ++ ds else replicate pad 32 ++ sign ++ ds.

(** The string a caller makes of the buffer [snprintf] filled. *)
Definition snprintf (size : nat) (text : list Z) : list Z := take (size - 1) text.

(** ** Lemmas *)
Lemma dval_app l1 l2 : dval (l1 ++ l2) = dval l1 * 10 ^ len l2 + dval l2.
Proof.
  induction l2 as [|d l2 IH] using rev_ind; [rewrite app_nil_r; change (len []) with 0; change (dval []) with 0; lia|].
  rewrite app_assoc. unfold dval in *. rewrite !foldl_snoc, IH. unfold len. rewrite length_app. cbn [length].
  replace (Z.of_nat (length l2 + 1)) with (Z.of_nat (length l2) + 1) by lia.
  rewrite Z.pow_add_r by lia. lia.
Qed.

Lemma dval_udec k n : 0 ≤ n < 10 ^ Z.of_nat k → dval (udec k n) = n.
Proof.
  revert n. induction k as [|k IH]; intros n Hn; [cbn in *; lia|].
  cbn [udec]. rewrite dval_app. change (len [48 + n mod 10]) with 1. change (dval [48 + n mod 10]) with (10 * 0 + (48 + n mod 10 - 48)).
  pose proof (Z.div_mod n 10 ltac:(lia)). destruct (Z.ltb_spec n 10) as [Hlt|Hge].
  - change (dval []) with 0. rewrite (Z.mod_small n 10) by lia. lia.
  - rewrite IH; [lia|]. rewrite Nat2Z.inj_succ, Z.pow_succ_r in Hn by lia.
    split; [apply Z.div_pos; lia|apply Z.div_lt_upper_bound; lia].
Qed.

Lemma udec_digits k n : 0 ≤ n → Forall is_digit (udec k n).
Proof.
  revert n. induction k as [|k IH]; intros n Hn; [constructor|]. cbn [udec].
  pose proof (Z.mod_pos_bound n 10 ltac:(lia)). apply Forall_app. split.
  - case_match; [constructor|apply IH, Z.div_pos; lia].
  - repeat constructor; unfold is_digit; lia.
Qed.

Lemma udec_length k j n : 0 ≤ n < 10 ^ Z.of_nat j → (0 < j)%nat → (length (udec k n) ≤ j)%nat.
Proof.
  revert k n. induction j as [|j IH]; intros k n Hn Hj; [lia|].
  destruct k as [|k]; cbn [udec length]; [lia|]. rewrite length_app. cbn [length].
  destruct (Z.ltb_spec n 10) as [Hlt|Hge]; [cbn [length]; lia|].
  rewrite Nat2Z.inj_succ, Z.pow_succ_r in Hn by lia.
  assert (n / 10 < 10 ^ Z.of_nat j) by (apply Z.div_lt_upper_bound; lia).
  assert (0 < j)%nat by (destruct j; [cbn in Hn; lia|lia]).
  specialize (IH k (n / 10) ltac:(split; [apply Z.div_pos; lia|done]) ltac:(done)). lia.
Qed.

Lemma udec_nonempty k n : (0 < k)%nat → (0 < length (udec k n))%nat.
Proof. destruct k; cbn [udec]; [lia|]. rewrite length_app. cbn. lia. Qed.

Lemma dval_zeros n : dval (replicate n 48) = 0.
Proof. induction n as [|n IH]; [done|]. rewrite replicate_S_end, dval_app, IH. done. Qed.

Lemma fmt_d_unsigned n : 0 ≤ n → fmt_d false 0 n = udec 20 n.
Proof. intros Hn. unfold fmt_d. rewrite (proj2 (Z.ltb_ge n 0)), Z.abs_eq by done. done. Qed.

(** "%0<w>d" of a number of at most [w] digits. *)
Lemma fmt_d_fixed w n : (0 < w ≤ 20)%nat → 0 ≤ n < 10 ^ Z.of_nat w →
  length (fmt_d true w n) = w ∧ dval (fmt_d true w n) = n ∧ Forall is_digit (fmt_d true w n).
Proof.
  intros Hw Hn. unfold fmt_d. rewrite (proj2 (Z.ltb_ge n 0)), Z.abs_eq by lia. cbn [app length].
  pose proof (udec_length 20 w n Hn ltac:(lia)). split; [|split].
  - rewrite length_app, length_replicate. lia.
  - rewrite dval_app, dval_zeros, dval_udec; [lia|].
    split; [lia|]. eapply Z.lt_le_trans; [apply Hn|]. apply Z.pow_le_mono_r; lia.
  - apply Forall_app. split; [apply Forall_replicate; unfold is_digit; lia|apply udec_digits; lia].
Qed.

Lemma dval_bound l : Forall is_digit l → 0 ≤ dval l < 10 ^ len l.
Proof.
  induction l as [|d l IH] using rev_ind; intros Hl; [by cbn|].
  apply Forall_app in Hl as [Hl Hd]. rewrite Forall_singleton in Hd. unfold is_digit in Hd. specialize (IH Hl).
  rewrite dval_app. change (len [d]) with 1. change (dval [d]) with (10 * 0 + (d - 48)).
  rewrite len_app. change (len [d]) with 1. rewrite Z.pow_add_r by (pose proof (len_nonneg l); lia). lia.
Qed.

(** "%<w>d" of a number of exactly [w] digits. *)
Lemma fmt_d_exact w n : (0 < w ≤ 20)%nat → 10 ^ (Z.of_nat w - 1) ≤ n < 10 ^ Z.of_nat w →
  fmt_d false w n = fmt_d true w n.
Proof.
  intros Hw Hn. assert (0 ≤ n) by (pose proof (Z.pow_nonneg 10 (Z.of_nat w - 1)); lia).
  assert (Hl : (w ≤ length (udec 20 n))%nat).
  { pose proof (dval_bound _ (udec_digits 20 n ltac:(lia))) as Hb.
    rewrite dval_udec in Hb by (split; [lia|]; eapply Z.lt_le_trans; [apply Hn|]; apply Z.pow_le_mono_r; lia).
    destruct (decide (w ≤ length (udec 20 n))%nat) as [|Hlt]; [done|].
    assert (10 ^ len (udec 20 n) ≤ 10 ^ (Z.of_nat w - 1)) by (apply Z.pow_le_mono_r; unfold len; lia). lia. }
  unfold fmt_d. rewrite (proj2 (Z.ltb_ge n 0)), Z.abs_eq by lia. cbn [length].
  by replace (w - 0 - length (udec 20 n))%nat with 0%nat by lia.
Qed.
