(* ===== verification/CNet.v ===== *)
(** * Addresses, and what the two epoll servers keep of their sockets. *)
From S2P Require Import Prelude CInt CArray CStdio.

Definition AF_INET : Z := 2.
Record sockaddr_in : Type := MkAddr { sin_family : Z; sin_port : Z; sin_addr : Z }.

(** On a little-endian machine. *)
Definition htons (x : Z) : Z := (x mod 256) * 256 + x / 256 mod 256.

Definition SERVER_IP : list Z := bytes "127.0.0.1".
Definition SERVER_PORT : Z := 9190.
(** [htonl(INADDR_ANY)] *)
Definition INADDR_ANY : Z := 0.

(** The address and the descriptors of a server; the descriptors are
    indeterminate ([None]) until [InitServer] sets them. *)
Record Listener : Type := MkListener {
  server_port : Z;
  server_ip : list Z;
  serv_sock : option Z;
  serv_adr : option sockaddr_in;
  epfd : option Z;
}.

Definition new_listener (port : Z) (ip : list Z) : Listener := MkListener port ip None None None.
Definition open_socket (fd : Z) (l : Listener) : Listener :=
  MkListener (server_port l) (server_ip l) (Some fd)
    (Some (MkAddr AF_INET (htons (server_port l)) INADDR_ANY)) (epfd l).
Definition open_epoll (fd : Z) (l : Listener) : Listener :=
  MkListener (server_port l) (server_ip l) (serv_sock l) (serv_adr l) (Some fd).

(** The servers' destructors: the descriptors closed. *)
Definition close_listener (l : Listener) : res (list Z) :=
  a ← init (serv_sock l); b ← init (epfd l); mret [a; b].

(** [pool.addThread(size)], whose size is an [unsigned short], on the number of
    threads (at most 16). *)
Definition addThread (size threads : Z) : Z := threads + Z.min (size mod 2 ^ 16) (Z.max 0 (16 - threads)).
