(* ===== verification/QuadraticSorts.v ===== *)
(** * The quadratic sorts of sort_algo/: [BubbleSort], [ChooseSort], [InsertSort].

    Each definition is the C++ function on an [int] array; [start] is a
    parameter the three functions take and never read. *)
From S2P Require Import Prelude CInt CArray.

Definition BubbleSort (vec : list Z) (start end_ : Z) : res (list Z) :=
  for_le 0 end_ (λ i vec,
    for_le i end_ (λ j vec,
      x ← aget vec i;
      y ← aget vec j;
      if y <? x then aswap vec i j else mret vec) vec) vec.

Definition ChooseSort (vec : list Z) (start end_ : Z) : res (list Z) :=
  for_le 0 end_ (λ i vec,
    tmp ← for_le i end_ (λ j tmp,
      x ← aget vec tmp;
      y ← aget vec j;
      if y <? x then mret j else mret tmp) i;
    aswap vec i tmp) vec.

Definition InsertSort (vec : list Z) (start end_ : Z) : res (list Z) :=
  for_le 0 end_ (λ i vec,
    j0 ← isub i 1;
    for_ge j0 0 (λ j vec,
      j1 ← iadd j 1;
      x ← aget vec j1;
      y ← aget vec j;
      if x <=? y then aswap vec j1 j else mret vec) vec) vec.

(** The literal array every [main] of sort_algo/ sorts. *)
Definition main_vec : list Z := [2; 43; 54; 1; 8; 5; 0; 2; 32; 78; 10].

(** The [main] functions: sort, then print [vec[0]] to [vec[10]] in order. *)
Definition bubble_main : res (list Z) :=
  vec ← BubbleSort main_vec 0 10;
  for_le 0 10 (λ i out, x ← aget vec i; mret (out ++ [x])) [].
Definition choose_main : res (list Z) :=
  vec ← ChooseSort main_vec 0 10;
  for_le 0 10 (λ i out, x ← aget vec i; mret (out ++ [x])) [].
Definition insert_main : res (list Z) :=
  vec ← InsertSort main_vec 0 10;
  for_le 0 10 (λ i out, x ← aget vec i; mret (out ++ [x])) [].

(** The exchange at the end of choose_sort.cc's [main]: [a ^= b], [b = a ^ b],
    [a = a ^ b] on two [int]s given as two's complement values. *)
Definition xor_swap (a b : Z) : Z * Z :=
  let a := Z.lxor a b in
  let b := Z.lxor a b in
  let a := Z.lxor a b in
  (a, b).

(** The two lines printed there: the numbers before and after. *)
Definition choose_exchange : (Z * Z) * (Z * Z) :=
  let a := 10 in
  let b := 9 in
  ((a, b), xor_swap a b).

Example choose_exchange_prints : choose_exchange = ((10, 9), (9, 10)).
Proof. reflexivity. Qed.

(** ** Selection order: every element before [i] is below everything after it *)
Definition min_prefix (v : list Z) (i hi : Z) : Prop :=
  ∀ a b, 0 ≤ a → a < i → a ≤ b → b ≤ hi → v.[a] ≤ v.[b].

Lemma min_prefix_0 v hi : min_prefix v 0 hi.
Proof. intros a b. lia. Qed.

Lemma min_prefix_sorted v hi : min_prefix v (hi + 1) hi → sorted_on v 0 hi.
Proof. intros H a b Ha Hab Hb. apply H; lia. Qed.

Lemma min_prefix_step v w i hi :
  0 ≤ i → hi < len v →
  min_prefix v i hi → perm_on v w i hi → (∀ k, i ≤ k ≤ hi → w.[i] ≤ w.[k]) →
  min_prefix w (i + 1) hi.
Proof.
  intros Hi Hhi Hv Hp Hw a b Ha Hai Hab Hb.
  destruct (decide (a = i)) as [->|]; [apply Hw; lia|].
  assert (Hwa : w.[a] = v.[a]) by (apply Hp; lia). rewrite Hwa.
  destruct (decide (b < i)).
  - assert (Hwb : w.[b] = v.[b]) by (apply Hp; lia). rewrite Hwb. apply Hv; lia.
  - assert (∀ k, i ≤ k ≤ hi → v.[a] ≤ w.[k]) as H; [|apply H; lia].
    apply (perm_on_forall (Z.le v.[a]) v w i hi); [done|lia|lia|].
    intros k Hk. apply Hv; lia.
Qed.

(** ** Inner loops *)
Lemma bubble_inner v i hi :
  0 ≤ i ≤ hi → hi < len v → hi < INT_MAX →
  wp (for_le i hi (λ j vec, x ← aget vec i; y ← aget vec j;
        if y <? x then aswap vec i j else mret vec) v)
     (λ w, perm_on v w i hi ∧ ∀ k, i ≤ k ≤ hi → w.[i] ≤ w.[k]).
Proof.
  intros Hi Hhi Hmax.
  apply (wp_for_le (λ j w, perm_on v w i hi ∧ ∀ k, i ≤ k < j → w.[i] ≤ w.[k])); try int_lia.
  - split; [apply perm_on_refl|lia].
  - intros j w Hj [Hp Hw]. pose proof (perm_on_len _ _ _ _ Hp) as Hl.
    wp_steps. apply wp_if; intros Hb; [apply Z.ltb_lt in Hb|apply Z.ltb_ge in Hb]; wp_steps.
    + split; [eapply perm_on_trans; [done|apply perm_on_swp; lia]|].
      intros k Hk. rewrite !at_swp by lia.
      repeat case_decide; subst; try lia. specialize (Hw k); lia.
    + split; [done|]. intros k Hk. destruct (decide (k = j)) as [->|]; [lia|apply Hw; lia].
  - intros w [Hp Hw]. split; [done|]. intros k Hk. apply Hw. lia.
Qed.

Lemma choose_inner v i hi :
  0 ≤ i ≤ hi → hi < len v → hi < INT_MAX →
  wp (for_le i hi (λ j tmp, x ← aget v tmp; y ← aget v j;
        if y <? x then mret j else mret tmp) i)
     (λ t, i ≤ t ≤ hi ∧ ∀ k, i ≤ k ≤ hi → v.[t] ≤ v.[k]).
Proof.
  intros Hi Hhi Hmax.
  apply (wp_for_le (λ j t, i ≤ t ≤ hi ∧ ∀ k, i ≤ k < j → v.[t] ≤ v.[k])); try int_lia.
  - split; [lia|lia].
  - intros j t Hj [Ht Hw].
    wp_steps. apply wp_if; intros Hb; [apply Z.ltb_lt in Hb|apply Z.ltb_ge in Hb]; wp_steps;
      (split; [lia|]); intros k Hk; destruct (decide (k = j)) as [->|];
      try specialize (Hw k); lia.
  - intros t [Ht Hw]. split; [done|]. intros k Hk. apply Hw. lia.
Qed.

Definition insert_inv (v : list Z) (i j : Z) (w : list Z) : Prop :=
  perm_on v w 0 i ∧ sorted_on w 0 j ∧ sorted_on w (j + 1) i ∧
  ∀ a b, 0 ≤ a ≤ j → j + 2 ≤ b ≤ i → w.[a] ≤ w.[b].

Lemma insert_inner v i :
  0 ≤ i → i < len v → i < INT_MAX → sorted_on v 0 (i - 1) →
  wp (for_ge (i - 1) 0 (λ j vec, j1 ← iadd j 1; x ← aget vec j1; y ← aget vec j;
        if x <=? y then aswap vec j1 j else mret vec) v)
     (λ w, perm_on v w 0 i ∧ sorted_on w 0 i).
Proof.
  intros Hi Hlen Hmax Hs.
  apply (wp_for_ge (insert_inv v i)); try int_lia.
  - split_and!; [apply perm_on_refl|done| |]; intros a b; intros; [|lia].
    replace b with a by lia. done.
  - intros j w Hj (Hp & H1 & H2 & H3). pose proof (perm_on_len _ _ _ _ Hp) as Hl.
    wp_steps. apply wp_if; intros Hb; [apply Z.leb_le in Hb|apply Z.leb_gt in Hb]; wp_steps.
    + split_and!.
      * eapply perm_on_trans; [done|apply perm_on_swp; lia].
      * intros a b Ha Hab Hbj. rewrite !at_swp by lia. repeat case_decide; try lia. apply H1; lia.
      * intros a b Ha Hab Hbj. rewrite !at_swp by lia. repeat case_decide; subst; try lia;
          first [apply H3; lia | apply H2; lia].
      * intros a b Ha Hbj. rewrite !at_swp by lia. repeat case_decide; subst; try lia;
          first [apply H3; lia | apply H1; lia].
    + split_and!; [done| | |].
      * intros a b Ha Hab Hbj. apply H1; lia.
      * intros a b Ha Hab Hbj. destruct (decide (a = j)) as [->|]; [|apply H2; lia].
        destruct (decide (b = j)) as [->|]; [lia|].
        destruct (decide (b = j + 1)) as [->|]; [lia|]. apply H3; lia.
      * intros a b Ha Hbj. destruct (decide (b = j + 1)) as [->|]; [|apply H3; lia].
        transitivity (w.[j]); [apply H1; lia|lia].
  - intros w (Hp & _ & H2 & _). split; [done|]. by replace 0 with (0 - 1 + 1) by lia.
Qed.

(** ** Functional correctness *)

(** What a correct sort of [0..end] promises: whatever the array, no undefined
    behaviour, and exactly the reference rearrangement of the range. *)
Lemma bubble_wp vec start end_ :
  -1 ≤ end_ < len vec → end_ < INT_MAX →
  wp (BubbleSort vec start end_) (λ w, perm_on vec w 0 end_ ∧ sorted_on w 0 end_).
Proof.
  intros Hend Hmax. unfold BubbleSort.
  apply (wp_for_le (λ i w, perm_on vec w 0 end_ ∧ min_prefix w i end_)); try int_lia.
  - split; [apply perm_on_refl|apply min_prefix_0].
  - intros i w Hi [Hp Hm]. pose proof (perm_on_len _ _ _ _ Hp) as Hl.
    eapply wp_mono; [apply bubble_inner; lia|]. intros w' [Hp' Hw']. split.
    + eapply perm_on_trans; [done|]. eapply perm_on_weaken; [done|lia..].
    + eapply min_prefix_step; [lia| |done..]. lia.
  - intros w [Hp Hm]. split; [done|by apply min_prefix_sorted].
Qed.

Lemma choose_wp vec start end_ :
  -1 ≤ end_ < len vec → end_ < INT_MAX →
  wp (ChooseSort vec start end_) (λ w, perm_on vec w 0 end_ ∧ sorted_on w 0 end_).
Proof.
  intros Hend Hmax. unfold ChooseSort.
  apply (wp_for_le (λ i w, perm_on vec w 0 end_ ∧ min_prefix w i end_)); try int_lia.
  - split; [apply perm_on_refl|apply min_prefix_0].
  - intros i w Hi [Hp Hm]. pose proof (perm_on_len _ _ _ _ Hp) as Hl.
    apply wp_bind. eapply wp_mono; [apply choose_inner; lia|]. intros t [Ht Hw].
    wp_step. split.
    + eapply perm_on_trans; [done|]. apply perm_on_swp; lia.
    + eapply min_prefix_step; [lia| |done|apply (perm_on_swp _ i t i end_); lia|]; [lia|].
      intros k Hk. rewrite !at_swp by lia. repeat case_decide; subst; try lia; apply Hw; lia.
  - intros w [Hp Hm]. split; [done|by apply min_prefix_sorted].
Qed.

Lemma insert_wp vec start end_ :
  -1 ≤ end_ < len vec → end_ < INT_MAX →
  wp (InsertSort vec start end_) (λ w, perm_on vec w 0 end_ ∧ sorted_on w 0 end_).
Proof.
  intros Hend Hmax. unfold InsertSort.
  apply (wp_for_le (λ i w, perm_on vec w 0 end_ ∧ sorted_on w 0 (i - 1))); try int_lia.
  - split; [apply perm_on_refl|]. intros a b. lia.
  - intros i w Hi [Hp Hs]. pose proof (perm_on_len _ _ _ _ Hp) as Hl.
    wp_steps. eapply wp_mono; [apply insert_inner; (lia || done)|]. intros w' [Hp' Hs']. split.
    + eapply perm_on_trans; [done|]. eapply perm_on_weaken; [done|lia..].
    + by replace (i + 1 - 1) with i by lia.
  - intros w [Hp Hs]. split; [done|]. by replace (end_ + 1 - 1) with end_ in Hs by lia.
Qed.

(** ** Properties *)

(** [BubbleSort] runs without undefined behaviour on every array and every
    [end] inside it, leaves everything after [end] alone, and replaces
    [vec[0..end]] by its sorted rearrangement; [start] has no influence. *)
Theorem bubble_sort_correct vec start end_ :
  -1 ≤ end_ < len vec → end_ < INT_MAX →
  BubbleSort vec start end_ = Ok (sort_range vec 0 end_).
Proof. intros. apply sort_range_wp; [lia..|by apply bubble_wp]. Qed.

Lemma bubble_sort_correct_witness :
  BubbleSort [3; 1; 2; 0] 1 2 = Ok [1; 2; 3; 0].
Proof. apply (bubble_sort_correct [3; 1; 2; 0] 1 2); done. Defined.

(** The same contract for [ChooseSort] (selection by index, one swap per
    round). *)
Theorem choose_sort_correct vec start end_ :
  -1 ≤ end_ < len vec → end_ < INT_MAX →
  ChooseSort vec start end_ = Ok (sort_range vec 0 end_).
Proof. intros. apply sort_range_wp; [lia..|by apply choose_wp]. Qed.

Lemma choose_sort_correct_witness :
  ChooseSort [3; 1; 2; 0] 0 3 = Ok [0; 1; 2; 3].
Proof. apply (choose_sort_correct [3; 1; 2; 0] 0 3); done. Defined.

(** The same contract for [InsertSort], whose inner loop has no early exit
    and swaps equal neighbours too. *)
Theorem insert_sort_correct vec start end_ :
  -1 ≤ end_ < len vec → end_ < INT_MAX →
  InsertSort vec start end_ = Ok (sort_range vec 0 end_).
Proof. intros. apply sort_range_wp; [lia..|by apply insert_wp]. Qed.

Lemma insert_sort_correct_witness :
  InsertSort [3; 1; 3; 0] 0 3 = Ok [0; 1; 3; 3].
Proof. apply (insert_sort_correct [3; 1; 3; 0] 0 3); done. Defined.
