(* ===== verification/QuickSort.v ===== *)
(** * sort_algo/quick_sort.cc: [ParititionSort] and [QuickSort]. *)
From S2P Require Import Prelude CInt CArray QuadraticSorts.

(** The hole-moving partition: [tmp] is the pivot, the cell that holds a
    duplicate alternates between the two ends.  The loops run at most
    [end - start] times, which is the fuel. *)
Definition ParititionSort (vec : list Z) (start end_ : Z) : res (list Z * Z) :=
  let fuel := Z.to_nat (end_ - start + 1) in
  tmp ← aget vec start;
  '(vec, start, end_) ← while fuel
    (λ '(vec, start, end_), mret (start <? end_))
    (λ '(vec, start, end_),
      end_ ← while fuel
        (λ end_, if start <? end_ then x ← aget vec end_; mret (tmp <=? x) else mret false)
        (λ end_, isub end_ 1) end_;
      x ← aget vec end_;
      vec ← aset vec start x;
      start ← while fuel
        (λ start, if start <? end_ then x ← aget vec start; mret (x <=? tmp) else mret false)
        (λ start, iadd start 1) start;
      x ← aget vec start;
      vec ← aset vec end_ x;
      mret (vec, start, end_))
    (vec, start, end_);
  vec ← aset vec start tmp;
  mret (vec, start).

(** The recursion shrinks the range, so [fuel] above its width is enough. *)
Fixpoint QuickSort_rec (fuel : nat) (vec : list Z) (start end_ : Z) : res (list Z) :=
  match fuel with
  | O => Err NoFuel
  | S fuel =>
      if start <? end_ then
        '(vec, idx) ← ParititionSort vec start end_;
        l ← isub idx 1;
        vec ← QuickSort_rec fuel vec start l;
        r ← iadd idx 1;
        QuickSort_rec fuel vec r end_
      else mret vec
  end.

Definition QuickSort (vec : list Z) (start end_ : Z) : res (list Z) :=
  QuickSort_rec (S (Z.to_nat (end_ - start + 1))) vec start end_.

Definition quick_main : res (list Z) :=
  vec ← QuickSort main_vec 0 10;
  for_le 0 10 (λ i out, x ← aget vec i; mret (out ++ [x])) [].

(** ** Partition *)

(** Loop invariant: the array with the pivot put back in the hole [s] is a
    rearrangement of the input, and the scanned parts are on the right side. *)
Definition part_inv (vec : list Z) (lo hi tmp : Z) (v : list Z) (s e : Z) : Prop :=
  lo ≤ s ≤ e ∧ e ≤ hi ∧ len v = len vec ∧ perm_on vec (upd v s tmp) lo hi ∧
  (∀ k, lo ≤ k < s → v.[k] ≤ tmp) ∧ (∀ k, e < k ≤ hi → tmp ≤ v.[k]).

(** The two scans. *)
Lemma scan_down v tmp s e fuel :
  0 ≤ s ≤ e → e < len v → e ≤ INT_MAX → (Z.to_nat (e - s) < fuel)%nat →
  wp (while fuel (λ e, if s <? e then x ← aget v e; mret (tmp <=? x) else mret false)
        (λ e, isub e 1) e)
     (λ e', s ≤ e' ≤ e ∧ (s = e' ∨ v.[e'] < tmp) ∧ ∀ k, e' < k ≤ e → tmp ≤ v.[k]).
Proof.
  intros Hs He Hmax Hfuel.
  apply (wp_while (λ e', s ≤ e' ≤ e ∧ ∀ k, e' < k ≤ e → tmp ≤ v.[k]) (λ e', Z.to_nat (e' - s)));
    [|split; lia|done].
  intros e' [He' Hk]. apply wp_if; intros Hb; [apply Z.ltb_lt in Hb|apply Z.ltb_ge in Hb];
    wp_steps; [|split_and!; [lia..|by left; lia|done]].
  destruct (Z.leb_spec tmp v.[e']).
  - wp_steps. split; [|lia]. split; [lia|]. intros k Hk'.
    destruct (decide (k = e')) as [->|]; [done|apply Hk; lia].
  - split_and!; [lia..|by right|done].
Qed.

Lemma scan_up v tmp s e fuel :
  0 ≤ s ≤ e → e < len v → e ≤ INT_MAX → (Z.to_nat (e - s) < fuel)%nat →
  wp (while fuel (λ s, if s <? e then x ← aget v s; mret (x <=? tmp) else mret false)
        (λ s, iadd s 1) s)
     (λ s', s ≤ s' ≤ e ∧ (s < e → v.[s] ≤ tmp → s < s') ∧ ∀ k, s ≤ k < s' → v.[k] ≤ tmp).
Proof.
  intros Hs He Hmax Hfuel.
  apply (wp_while (λ s', s ≤ s' ≤ e ∧ ∀ k, s ≤ k < s' → v.[k] ≤ tmp) (λ s', Z.to_nat (e - s')));
    [|split; lia|done].
  intros s' [Hs' Hk]. apply wp_if; intros Hb; [apply Z.ltb_lt in Hb|apply Z.ltb_ge in Hb];
    wp_steps; [|split_and!; [lia..|done]].
  destruct (Z.leb_spec v.[s'] tmp).
  - wp_steps. split; [|lia]. split; [lia|]. intros k Hk'.
    destruct (decide (k = s')) as [->|]; [done|apply Hk; lia].
  - split_and!; [lia..| |done]. intros. destruct (decide (s = s')); [subst; lia|lia].
Qed.

(** One round: move the hole to the right end, then back to the left scan. *)
Lemma part_round vec lo hi tmp v s e e' s' :
  0 ≤ lo → hi < len vec → part_inv vec lo hi tmp v s e → s < e →
  s ≤ e' ≤ e → (∀ k, e' < k ≤ e → tmp ≤ v.[k]) →
  let v1 := upd v s v.[e'] in
  s ≤ s' ≤ e' → (∀ k, s ≤ k < s' → v1.[k] ≤ tmp) →
  part_inv vec lo hi tmp (upd v1 e' v1.[s']) s' e'.
Proof.
  intros Hlo Hhi (Hse & He & Hl & Hp & HL & HR) Hlt He' Hdn v1 Hs' Hup.
  assert (Hl1 : len v1 = len v) by apply len_upd.
  split; [lia|]. split; [lia|]. split; [by rewrite len_upd; lia|]. split; [|split].
  - eapply perm_on_trans; [exact Hp|]. split.
    + rewrite hole_perm by lia. apply hole_perm; lia.
    + intros k Hk Hout. unfold v1. by rewrite !at_upd_ne by (rewrite ?len_upd; lia).
  - intros k Hk. rewrite at_upd by lia. case_decide; [subst; lia|].
    destruct (decide (k < s)); [|apply Hup; lia].
    unfold v1. rewrite at_upd_ne by lia. apply HL. lia.
  - intros k Hk. rewrite at_upd_ne by lia. unfold v1. rewrite at_upd_ne by lia.
    destruct (decide (k ≤ e)); [apply Hdn; lia|apply HR; lia].
Qed.

Lemma partition_wp vec lo hi :
  0 ≤ lo ≤ hi → hi < len vec → hi ≤ INT_MAX →
  wp (ParititionSort vec lo hi) (λ '(w, idx), perm_on vec w lo hi ∧ lo ≤ idx ≤ hi ∧ w.[idx] = vec.[lo] ∧
    (∀ k, lo ≤ k < idx → w.[k] ≤ w.[idx]) ∧ (∀ k, idx < k ≤ hi → w.[idx] ≤ w.[k])).
Proof.
  intros Hlo Hhi Hmax. unfold ParititionSort. do 3 wp_step. set (tmp := vec.[lo]).
  apply wp_mono with (P := λ '(v, s, e), part_inv vec lo hi tmp v s e ∧ s = e).
  - apply (wp_while (λ '(v, s, e), part_inv vec lo hi tmp v s e)
             (λ '(_, s, e), Z.to_nat (e - s))).
    + intros [[v s] e] Hinv. pose proof Hinv as (Hse & He & Hl & Hp & HL & HR).
      wp_step. destruct (Z.ltb_spec s e); [|split; [done|lia]].
      wp_step. eapply wp_mono; [apply scan_down; lia|]. intros e' (He' & Hstop & Hdn).
      do 4 wp_step. set (v1 := upd v s v.[e']).
      assert (Hl1 : len v1 = len v) by apply len_upd.
      wp_step. eapply wp_mono; [apply scan_up; lia|]. intros s' (Hs' & Hmove & Hup).
      wp_steps. split; [apply part_round with (s := s) (e := e); try done; try lia|].
      destruct (decide (e' < e)); [lia|]. assert (e' = e) as -> by lia.
      destruct Hstop; [lia|]. unfold v1 in Hmove. rewrite at_upd_eq in Hmove by lia.
      specialize (Hmove ltac:(lia) ltac:(lia)). lia.
    + split; [lia|]. split; [lia|]. split; [done|]. split; [|split; intros; lia].
      unfold tmp. rewrite upd_same. apply perm_on_refl.
    + lia.
  - intros [[v s] e] [(Hse & He & Hl & Hp & HL & HR) <-]. wp_steps.
    split; [done|]. split; [lia|].
    rewrite at_upd_eq by lia. split; [done|]. split; intros k Hk; rewrite at_upd_ne by lia; auto with lia.
Qed.

(** Sorting the two sides of a partition sorts the whole. *)
Lemma sorted_on_pivot w lo idx hi :
  lo ≤ idx ≤ hi → sorted_on w lo (idx - 1) → sorted_on w (idx + 1) hi →
  (∀ k, lo ≤ k < idx → w.[k] ≤ w.[idx]) → (∀ k, idx < k ≤ hi → w.[idx] ≤ w.[k]) →
  sorted_on w lo hi.
Proof.
  intros Hi HL HR Hl Hr i j Hlo Hij Hhi.
  destruct (Z.lt_trichotomy i idx) as [|[->|]], (Z.lt_trichotomy j idx) as [|[->|]];
    try lia; auto with lia.
  transitivity w.[idx]; auto with lia.
Qed.

Lemma quick_rec_wp fuel vec lo hi :
  (Z.to_nat (hi - lo + 1) < fuel)%nat →
  0 ≤ lo → lo ≤ hi + 1 → hi < len vec → hi < INT_MAX →
  wp (QuickSort_rec fuel vec lo hi) (λ w, perm_on vec w lo hi ∧ sorted_on w lo hi).
Proof.
  revert vec lo hi. induction fuel as [|fuel IH]; intros vec lo hi Hf Hlo Hle Hhi Hmax; [lia|].
  simpl. destruct (Z.ltb_spec lo hi).
  2:{ wp_steps. split; [apply perm_on_refl|]. intros i j ???. by replace j with i by lia. }
  wp_step. eapply wp_mono; [apply partition_wp; lia|].
  intros [v idx] (Hp & Hidx & _ & HL & HR). pose proof (perm_on_len _ _ _ _ Hp) as Hl.
  do 3 wp_step. eapply wp_mono; [apply IH; lia|]. intros v1 [Hp1 Hs1].
  pose proof (perm_on_len _ _ _ _ Hp1) as Hl1.
  do 2 wp_step. eapply wp_mono; [apply IH; lia|]. intros w [Hp2 Hs2].
  assert (Hidx1 : v1.[idx] = v.[idx]) by (apply Hp1; lia).
  assert (Hidx2 : w.[idx] = v1.[idx]) by (apply Hp2; lia).
  split.
  - eapply perm_on_trans; [done|]. eapply perm_on_trans; eapply perm_on_weaken; eauto; lia.
  - apply sorted_on_pivot with idx; [lia| |done| |].
    + intros i j ???. destruct Hp2 as [_ Ho]. rewrite !Ho by lia. auto.
    + intros k Hk. assert (Hk1 : w.[k] = v1.[k]) by (apply Hp2; lia).
      rewrite Hk1, Hidx2, Hidx1.
      apply (perm_on_forall (λ x, x ≤ v.[idx]) v v1 lo (idx - 1)); try lia; auto with lia.
    + intros k Hk. rewrite Hidx2.
      apply (perm_on_forall (λ x, v1.[idx] ≤ x) v1 w (idx + 1) hi); try lia; auto.
      intros k' Hk'. rewrite Hidx1. assert (Hk1 : v1.[k'] = v.[k']) by (apply Hp1; lia).
      rewrite Hk1. auto with lia.
Qed.

Lemma quick_wp vec lo hi :
  0 ≤ lo → lo ≤ hi + 1 → hi < len vec → hi < INT_MAX →
  wp (QuickSort vec lo hi) (λ w, perm_on vec w lo hi ∧ sorted_on w lo hi).
Proof. intros. apply quick_rec_wp; lia. Qed.

(** ** Properties *)

(** [ParititionSort] on a non-empty range inside the array terminates
    without undefined behaviour; it rearranges only [vec[start..end]], and the
    returned index splits it: nothing left of it exceeds the pivot, nothing
    right of it is below the pivot. *)
Theorem partition_correct vec lo hi :
  0 ≤ lo ≤ hi → hi < len vec → hi ≤ INT_MAX →
  ∃ w idx, ParititionSort vec lo hi = Ok (w, idx) ∧ perm_on vec w lo hi ∧ lo ≤ idx ≤ hi ∧
    w.[idx] = vec.[lo] ∧
    (∀ k, lo ≤ k < idx → w.[k] ≤ w.[idx]) ∧ (∀ k, idx < k ≤ hi → w.[idx] ≤ w.[k]).
Proof.
  intros. destruct (wp_elim _ _ (partition_wp vec lo hi ltac:(done) ltac:(done) ltac:(done)))
    as ([w idx] & -> & Hw).
  by exists w, idx.
Qed.

Lemma partition_correct_witness :
  ∃ w idx, ParititionSort [5; 9; 1; 5] 0 3 = Ok (w, idx) ∧ perm_on [5; 9; 1; 5] w 0 3 ∧
    0 ≤ idx ≤ 3 ∧ w.[idx] = 5 ∧
    (∀ k, 0 ≤ k < idx → w.[k] ≤ w.[idx]) ∧ (∀ k, idx < k ≤ 3 → w.[idx] ≤ w.[k]).
Proof. apply (partition_correct [5; 9; 1; 5] 0 3); done. Defined.

(** [QuickSort] sorts exactly [vec[start..end]], for every range inside the
    array (the empty one included). *)
Theorem quick_sort_correct vec lo hi :
  0 ≤ lo → lo ≤ hi + 1 → hi < len vec → hi < INT_MAX →
  QuickSort vec lo hi = Ok (sort_range vec lo hi).
Proof. intros. apply sort_range_wp; [lia..|by apply quick_wp]. Qed.

Lemma quick_sort_correct_witness :
  QuickSort [9; 3; 1; 3; 0] 1 3 = Ok [9; 1; 3; 3; 0].
Proof. apply (quick_sort_correct [9; 3; 1; 3; 0] 1 3); done. Defined.
