(* ===== verification/MergeSort.v ===== *)
(** * sort_algo/merge_sort.cc: [Merge] and [MergeSort]. *)
From S2P Require Import Prelude CInt CArray QuadraticSorts.

(** [new int[n]]: indeterminate cells; a negative length throws. *)
Definition new_int (n : Z) : res (list (option Z)) :=
  if n <? 0 then Err Thrown else Ok (replicate (Z.to_nat n) None).

(** Each loop runs at most [end - start + 1] times, and tests once more. *)
Definition Merge (vec : list Z) (start mid end_ : Z) : res (list Z) :=
  let fuel := Z.to_nat (end_ - start + 2) in
  j ← iadd mid 1;
  d ← isub end_ start; n ← iadd d 1;
  arr ← new_int n;
  '(arr, i, j, k) ← while fuel
    (λ '(arr, i, j, k), mret ((i <=? mid) && (j <=? end_)))
    (λ '(arr, i, j, k),
      x ← aget vec i; y ← aget vec j;
      if y <? x
      then arr ← aset arr k (Some y); k ← iadd k 1; j ← iadd j 1; mret (arr, i, j, k)
      else arr ← aset arr k (Some x); k ← iadd k 1; i ← iadd i 1; mret (arr, i, j, k))
    (arr, start, j, 0);
  '(arr, i, k) ← while fuel
    (λ '(arr, i, k), mret (i <=? mid))
    (λ '(arr, i, k),
      x ← aget vec i; arr ← aset arr k (Some x); k ← iadd k 1; i ← iadd i 1; mret (arr, i, k))
    (arr, i, k);
  '(arr, j, k) ← while fuel
    (λ '(arr, j, k), mret (j <=? end_))
    (λ '(arr, j, k),
      y ← aget vec j; arr ← aset arr k (Some y); k ← iadd k 1; j ← iadd j 1; mret (arr, j, k))
    (arr, j, k);
  '(vec, k) ← for_le start end_ (λ n '(vec, k),
      c ← aget arr k; x ← init c; vec ← aset vec n x; k ← iadd k 1; mret (vec, k))
    (vec, 0);
  mret vec.

Fixpoint MergeSort_rec (fuel : nat) (vec : list Z) (start end_ : Z) : res (list Z) :=
  match fuel with
  | O => Err NoFuel
  | S fuel =>
      if end_ <=? start then mret vec
      else
        s ← iadd start end_;
        mid ← idiv s 2;
        vec ← MergeSort_rec fuel vec start mid;
        m ← iadd mid 1;
        vec ← MergeSort_rec fuel vec m end_;
        Merge vec start mid end_
  end.

Definition MergeSort (vec : list Z) (start end_ : Z) : res (list Z) :=
  MergeSort_rec (S (Z.to_nat (end_ - start + 1))) vec start end_.

Definition merge_main : res (list Z) :=
  vec ← MergeSort main_vec 0 10;
  for_le 0 10 (λ i out, x ← aget vec i; mret (out ++ [x])) [].

(** ** The scratch buffer: the values written so far, then indeterminate cells *)
Definition filled (n : Z) (wr : list Z) : list (option Z) :=
  (Some <$> wr) ++ replicate (Z.to_nat n - length wr) None.

Lemma len_filled n wr : len wr ≤ n → len (filled n wr) = n.
Proof. unfold len, filled. rewrite length_app, length_fmap, length_replicate. lia. Qed.

Lemma upd_filled n wr x : len wr < n → upd (filled n wr) (len wr) (Some x) = filled n (wr ++ [x]).
Proof.
  unfold len, filled, upd. intros. rewrite Nat2Z.id.
  rewrite insert_app_r_alt by (rewrite length_fmap; lia).
  rewrite length_fmap, Nat.sub_diag, fmap_app, <- (assoc_L (++)), length_app. simpl.
  replace (Z.to_nat n - length wr)%nat with (S (Z.to_nat n - (length wr + 1)))%nat by lia.
  done.
Qed.

Lemma at_filled n wr k : 0 ≤ k < len wr → (filled n wr).[k] = Some wr.[k].
Proof.
  intros Hk. unfold filled. rewrite at_app_l by (unfold len in *; rewrite length_fmap; lia).
  unfold at_. apply list_lookup_total_correct. rewrite list_lookup_fmap.
  rewrite list_lookup_lookup_total_lt; [done|]. unfold len in *. lia.
Qed.

(** The buffer with [wr] written and the two cursors at [i] and [j]: what is
    still to be merged completes [wr] to the merge of the two halves. *)
Definition merge_inv (vec : list Z) (lo mid hi : Z) (wr : list Z) (i j k : Z) : Prop :=
  lo ≤ i ≤ mid + 1 ∧ mid + 1 ≤ j ≤ hi + 1 ∧
  k = (i - lo) + (j - (mid + 1)) ∧ len wr = k ∧
  wr ++ list_merge (≤) (slice vec i mid) (slice vec j hi)
  = list_merge (≤) (slice vec lo mid) (slice vec (mid + 1) hi).

Section Merge.
Context (vec : list Z) (lo mid hi : Z).
Context (Hlo : 0 ≤ lo) (Hmid : lo ≤ mid) (Hhi : mid < hi) (Hlen : hi < len vec).
Context (Hmax : hi < INT_MAX).
Let n := hi - lo + 1.

Lemma merge_inv_left wr i j k :
  merge_inv vec lo mid hi wr i j k → i ≤ mid → (j ≤ hi → vec.[i] ≤ vec.[j]) →
  merge_inv vec lo mid hi (wr ++ [vec.[i]]) (i + 1) j (k + 1).
Proof.
  intros (Hi & Hj & Hk & Hw & Heq) Him Hle. split; [lia|]. split; [lia|].
  split; [lia|]. split; [rewrite len_app; unfold len at 2; simpl; lia|].
  rewrite <- Heq, (slice_cons vec i mid), <- (assoc_L (++)) by lia. f_equal.
  destruct (decide (j ≤ hi)).
  - rewrite (slice_cons vec j hi) by lia. rewrite list_merge_cons.
    rewrite decide_True by auto. done.
  - rewrite !(slice_nil vec j hi) by lia. by rewrite !list_merge_nil_r.
Qed.

Lemma merge_inv_right wr i j k :
  merge_inv vec lo mid hi wr i j k → j ≤ hi → (i ≤ mid → vec.[j] < vec.[i]) →
  merge_inv vec lo mid hi (wr ++ [vec.[j]]) i (j + 1) (k + 1).
Proof.
  intros (Hi & Hj & Hk & Hw & Heq) Hjh Hlt. split; [lia|]. split; [lia|].
  split; [lia|]. split; [rewrite len_app; unfold len at 2; simpl; lia|].
  rewrite <- Heq, (slice_cons vec j hi), <- (assoc_L (++)) by lia. f_equal.
  destruct (decide (i ≤ mid)).
  - rewrite (slice_cons vec i mid) by lia. rewrite list_merge_cons.
    rewrite decide_False by (specialize (Hlt l); lia). done.
  - rewrite !(slice_nil vec i mid) by lia. by rewrite !list_merge_nil_l.
Qed.

(** Writing the value [x] at the cursor [k]. *)
Lemma wp_put {B} wr i j k x (f : list (option Z) → res B) Q :
  merge_inv vec lo mid hi wr i j k → k < n → wp (f (filled n (wr ++ [x]))) Q →
  wp (arr ← aset (filled n wr) k (Some x); f arr) Q.
Proof.
  intros (Hi & Hj & Hk & Hw & _) Hn Hf.
  apply wp_bind, wp_aset; [rewrite len_filled; lia|]. subst k.
  rewrite <- Hw, upd_filled by lia. done.
Qed.

(** The first loop, both halves non-empty, leaves one of them exhausted. *)
Lemma merge_loop wr i j k fuel :
  merge_inv vec lo mid hi wr i j k → (Z.to_nat (n - k) < fuel)%nat →
  wp (while fuel
    (λ '(arr, i, j, k), mret ((i <=? mid) && (j <=? hi)))
    (λ '(arr, i, j, k),
      x ← aget vec i; y ← aget vec j;
      if y <? x
      then arr ← aset arr k (Some y); k ← iadd k 1; j ← iadd j 1; mret (arr, i, j, k)
      else arr ← aset arr k (Some x); k ← iadd k 1; i ← iadd i 1; mret (arr, i, j, k))
    (filled n wr, i, j, k))
   (λ '(arr, i, j, k), ∃ wr, arr = filled n wr ∧ merge_inv vec lo mid hi wr i j k ∧
      (mid < i ∨ hi < j)).
Proof.
  intros Hinv Hf.
  apply (wp_while (λ '(arr, i, j, k), ∃ wr, arr = filled n wr ∧ merge_inv vec lo mid hi wr i j k)
           (λ '(_, _, _, k), Z.to_nat (n - k))); [|by eauto|done].
  intros [[[arr i'] j'] k'] (w & -> & Hw). pose proof Hw as (Hi & Hj & Hk & Hl & _).
  wp_step. destruct (Z.leb_spec i' mid), (Z.leb_spec j' hi); simpl;
    try (exists w; split; [done|split; [done|lia]]).
  wp_steps. apply wp_if; intros Hb; [apply Z.ltb_lt in Hb|apply Z.ltb_ge in Hb].
  - apply (wp_put w i' j' k'); [done|lia|]. wp_steps.
    split; [|lia]. eexists; split; [done|]. by apply merge_inv_right.
  - apply (wp_put w i' j' k'); [done|lia|]. wp_steps.
    split; [|lia]. eexists; split; [done|]. by apply merge_inv_left.
Qed.

(** The two loops that copy what is left of one half. *)
Lemma left_loop wr i j k fuel :
  merge_inv vec lo mid hi wr i j k → mid < i ∨ hi < j → (Z.to_nat (n - k) < fuel)%nat →
  wp (while fuel
    (λ '(arr, i, k), mret (i <=? mid))
    (λ '(arr, i, k),
      x ← aget vec i; arr ← aset arr k (Some x); k ← iadd k 1; i ← iadd i 1; mret (arr, i, k))
    (filled n wr, i, k))
   (λ '(arr, i, k), ∃ wr, arr = filled n wr ∧ merge_inv vec lo mid hi wr i j k ∧ mid < i).
Proof.
  intros Hinv Hor Hf.
  apply (wp_while (λ '(arr, i, k), ∃ wr, arr = filled n wr ∧ merge_inv vec lo mid hi wr i j k ∧
                     (mid < i ∨ hi < j)) (λ '(_, _, k), Z.to_nat (n - k))); [|by eauto|done].
  intros [[arr i'] k'] (w & -> & Hw & Hor'). pose proof Hw as (Hi & Hj & Hk & Hl & _).
  wp_step. destruct (Z.leb_spec i' mid); [|exists w; done].
  do 2 wp_step. apply (wp_put w i' j k'); [done|lia|]. wp_steps.
  split; [|lia]. eexists; split; [done|]. split; [apply merge_inv_left; [done|lia|lia]|lia].
Qed.

Lemma right_loop wr i j k fuel :
  merge_inv vec lo mid hi wr i j k → mid < i → (Z.to_nat (n - k) < fuel)%nat →
  wp (while fuel
    (λ '(arr, j, k), mret (j <=? hi))
    (λ '(arr, j, k),
      y ← aget vec j; arr ← aset arr k (Some y); k ← iadd k 1; j ← iadd j 1; mret (arr, j, k))
    (filled n wr, j, k))
   (λ '(arr, j, k), arr = filled n (list_merge (≤) (slice vec lo mid) (slice vec (mid + 1) hi))).
Proof.
  intros Hinv Hi Hf.
  apply (wp_while (λ '(arr, j, k), ∃ wr, arr = filled n wr ∧ merge_inv vec lo mid hi wr i j k)
           (λ '(_, _, k), Z.to_nat (n - k))); [|by eauto|done].
  intros [[arr j'] k'] (w & -> & Hw). pose proof Hw as (Hi' & Hj & Hk & Hl & Heq).
  wp_step. destruct (Z.leb_spec j' hi).
  - do 2 wp_step. apply (wp_put w i j' k'); [done|lia|]. wp_steps.
    split; [|lia]. eexists; split; [done|]. apply merge_inv_right; [done|lia|lia].
  - rewrite <- Heq, !slice_nil, list_merge_nil_l by lia. by rewrite app_nil_r.
Qed.

(** The copy back into the array. *)
Lemma copy_loop m :
  len m = n →
  wp ('(v, k) ← for_le lo hi (λ n '(vec, k),
        c ← aget (filled (hi - lo + 1) m) k; x ← init c; vec ← aset vec n x; k ← iadd k 1;
        mret (vec, k)) (vec, 0);
      mret v)
     (λ w, w = splice vec lo hi m).
Proof.
  intros Hm. apply wp_bind.
  apply (wp_for_le (λ i '(v, k), k = i - lo ∧ len v = len vec ∧
            ∀ q, 0 ≤ q → v.[q] = if decide (lo ≤ q < i) then m.[q - lo] else vec.[q])); try int_lia.
  - split; [lia|]. split; [done|]. intros q Hq. by case_decide; try lia.
  - intros i [v k] Hi (-> & Hl & Hv).
    wp_step. wp_step; [rewrite len_filled; lia|]. rewrite at_filled by lia.
    wp_step. apply wp_ok. wp_steps. split; [lia|]. split; [by rewrite len_upd|].
    intros q Hq. rewrite at_upd by lia. rewrite Hv by lia.
    repeat case_decide; subst; try lia; done.
  - intros [v k] (-> & Hl & Hv). wp_step. apply array_ext; [rewrite len_splice; lia|].
    intros q Hq. rewrite Hv, at_splice by lia. repeat case_decide; (done || lia).
Qed.

Lemma merge_inv_0 : merge_inv vec lo mid hi [] lo (mid + 1) 0.
Proof. split_and!; try lia; done. Qed.
End Merge.

Lemma merge_spec vec lo mid hi :
  0 ≤ lo → lo ≤ mid → mid < hi → hi < len vec → hi < INT_MAX →
  wp (Merge vec lo mid hi) (λ w,
    w = splice vec lo hi (list_merge (≤) (slice vec lo mid) (slice vec (mid + 1) hi))).
Proof.
  intros Hlo Hmid Hhi Hlen Hmax. unfold Merge.
  wp_steps. unfold new_int. destruct (Z.ltb_spec (hi - lo + 1) 0); [lia|]. apply wp_ok.
  replace (replicate _ _) with (filled (hi - lo + 1) []) by (unfold filled; by rewrite Nat.sub_0_r).
  wp_step. eapply wp_mono; [apply (merge_loop vec lo mid hi) with (k := 0); (done || lia || idtac)|].
  { by apply merge_inv_0. }
  intros [[[arr i] j] k] (wr & -> & Hinv & Hor). pose proof Hinv as (Hi & Hj & Hk & _).
  wp_step. eapply wp_mono; [eapply (left_loop vec lo mid hi); eassumption || lia|].
  clear -Hlo Hmid Hhi Hlen Hmax.
  intros [[arr i'] k'] (wr' & -> & Hinv & Hi'). pose proof Hinv as (Hi & Hj & Hk & _).
  wp_step. eapply wp_mono; [eapply (right_loop vec lo mid hi); eassumption || lia|].
  intros [[arr j'] k''] ->. apply (copy_loop vec lo mid hi); try done.
  rewrite (len_perm _ _ (merge_Permutation _ _ _)), len_app, !len_slice by lia. lia.
Qed.

Lemma merge_rec_wp fuel vec lo hi :
  (Z.to_nat (hi - lo + 1) < fuel)%nat →
  0 ≤ lo → lo ≤ hi + 1 → hi < len vec → hi < INT_MAX → lo + hi ≤ INT_MAX →
  2 * hi ≤ INT_MAX →
  wp (MergeSort_rec fuel vec lo hi) (λ w, perm_on vec w lo hi ∧ sorted_on w lo hi).
Proof.
  revert vec lo hi. induction fuel as [|fuel IH]; intros vec lo hi Hf Hlo Hle Hhi Hmax Hsum Hsum2; [lia|].
  simpl. destruct (Z.leb_spec hi lo).
  { wp_steps. split; [apply perm_on_refl|]. intros i j ???. by replace j with i by lia. }
  do 3 wp_step. assert (Hq : Z.quot (lo + hi) 2 = (lo + hi) / 2) by (apply Z.quot_div_nonneg; lia).
  assert (Hm : lo ≤ (lo + hi) / 2 < hi) by (pose proof (Z.div_mod (lo + hi) 2); pose proof (Z.mod_pos_bound (lo + hi) 2); lia).
  apply wp_idiv; [done|int_lia|]. rewrite Hq. set (mid := (lo + hi) / 2) in *.
  wp_step. eapply wp_mono; [apply IH; lia|]. intros v1 [Hp1 Hs1].
  pose proof (perm_on_len _ _ _ _ Hp1) as Hl1.
  do 3 wp_step. eapply wp_mono; [apply IH; lia|]. intros v2 [Hp2 Hs2].
  pose proof (perm_on_len _ _ _ _ Hp2) as Hl2.
  eapply wp_mono; [apply merge_spec; lia|]. intros w ->.
  assert (Hs1' : sorted_on v2 lo mid).
  { intros i j ???. destruct Hp2 as [_ Ho]. rewrite !Ho by lia. auto. }
  apply sorted_on_slice in Hs1', Hs2; try lia.
  set (m := list_merge (≤) _ _).
  assert (Hm' : m ≡ₚ slice v2 lo hi) by (unfold m; rewrite merge_Permutation, slice_app by lia; done).
  assert (len m = hi - lo + 1) by (rewrite (len_perm _ _ Hm'), len_slice; lia).
  split.
  - do 2 (eapply perm_on_trans; [eapply perm_on_weaken; [done|lia..]|]). by apply perm_on_splice; try lia.
  - apply sorted_on_slice; [lia..|rewrite len_splice; lia|]. rewrite slice_splice by lia.
    apply Sorted_StronglySorted; [apply _|]. apply Sorted_list_merge; [apply _|by apply StronglySorted_Sorted..].
Qed.

Lemma merge_wp vec lo hi :
  0 ≤ lo → lo ≤ hi + 1 → hi < len vec → 2 * hi ≤ INT_MAX →
  wp (MergeSort vec lo hi) (λ w, perm_on vec w lo hi ∧ sorted_on w lo hi).
Proof. intros. apply merge_rec_wp; int_lia. Qed.

(** ** Properties *)

(** [Merge] replaces [vec[start..end]] by the stable merge of its two
    halves (on a tie the left element comes first), reads no indeterminate cell
    of the scratch buffer and stays inside both arrays. *)
Theorem merge_correct vec lo mid hi :
  0 ≤ lo → lo ≤ mid → mid < hi → hi < len vec → hi < INT_MAX →
  Merge vec lo mid hi
  = Ok (splice vec lo hi (list_merge (≤) (slice vec lo mid) (slice vec (mid + 1) hi))).
Proof. intros. by apply wp_eq, merge_spec. Qed.

Lemma merge_correct_witness : Merge [7; 2; 5; 1; 5; 0] 1 2 4 = Ok [7; 1; 2; 5; 5; 0].
Proof. apply (merge_correct [7; 2; 5; 1; 5; 0] 1 2 4); done. Defined.

(** [MergeSort] sorts exactly [vec[start..end]], provided twice [end] still
    fits an [int]. *)
Theorem merge_sort_correct vec lo hi :
  0 ≤ lo → lo ≤ hi + 1 → hi < len vec → 2 * hi ≤ INT_MAX →
  MergeSort vec lo hi = Ok (sort_range vec lo hi).
Proof. intros. apply sort_range_wp; [lia..|by apply merge_wp]. Qed.

Lemma merge_sort_correct_witness : MergeSort [9; 3; 1; 3; 0] 1 3 = Ok [9; 1; 3; 3; 0].
Proof. apply (merge_sort_correct [9; 3; 1; 3; 0] 1 3); done. Defined.

(** The midpoint [(start + end) / 2] is computed in [int]: on any range with
    [start < end] whose bounds sum above [INT_MAX] the first call already
    overflows, whatever the array. *)
Theorem merge_sort_midpoint_overflow vec lo hi :
  lo < hi → INT_MAX < lo + hi → MergeSort vec lo hi = Err SignedOverflow.
Proof.
  intros Hlt Hsum. unfold MergeSort, MergeSort_rec. destruct (Z.leb_spec hi lo); [lia|].
  unfold iadd. by rewrite chk32_overflow by lia.
Qed.

Lemma merge_sort_midpoint_overflow_witness :
  MergeSort [] (2 ^ 30) (2 ^ 30 + 1) = Err SignedOverflow.
Proof. apply merge_sort_midpoint_overflow; done. Defined.
