(* ===== verification/HeapSort.v ===== *)
(** * sort_algo/heap_sort.cc: [Heap] (sift down) and [HeapSort]. *)
From S2P Require Import Prelude CInt CArray QuadraticSorts.

(** The cursor [head] at least doubles at every round, so [end + 2] rounds are
    more than enough. *)
Definition Heap (vec : list Z) (start end_ : Z) : res (list Z) :=
  son ← (d ← imul start 2; iadd d 1);
  '(vec, _, _) ← loop (Z.to_nat (end_ + 2))
    (λ '(vec, head, son),
      if son <=? end_ then
        s1 ← iadd son 1;
        right ← (if s1 <=? end_ then x ← aget vec son; y ← aget vec s1; mret (x <? y)
                 else mret false);
        son ← (if right : bool then iadd son 1 else mret son);
        x ← aget vec son; y ← aget vec head;
        if x <? y then mret (inr (vec, head, son))
        else
          vec ← aswap vec head son;
          let head := son in
          son ← (d ← imul head 2; iadd d 1);
          mret (inl (vec, head, son))
      else mret (inr (vec, head, son)))
    (vec, start, son);
  mret vec.

Definition HeapSort (vec : list Z) (start end_ : Z) : res (list Z) :=
  d ← isub end_ start;
  len ← iadd d 1;
  h ← idiv len 2;
  i0 ← isub h 1;
  vec ← for_ge i0 0 (λ i vec, Heap vec i end_) vec;
  i1 ← isub len 1;
  for_ge i1 0 (λ i vec,
    vec ← aswap vec 0 i;
    e ← isub i 1;
    Heap vec 0 e) vec.

(** [main] sorts the first ten elements of the eleven-element array and prints
    all eleven. *)
Definition heap_main : res (list Z) :=
  let vec_len := 10 in
  e ← isub vec_len 1;
  vec ← HeapSort main_vec 0 e;
  for_le 0 vec_len (λ i out, x ← aget vec i; mret (out ++ [x])) [].

(** ** Heaps: every node at [lo..hi] dominates its sons at or below [hi] *)
Definition dominates (v : list Z) (k hi : Z) : Prop :=
  (2 * k + 1 ≤ hi → v.[2 * k + 1] ≤ v.[k]) ∧ (2 * k + 2 ≤ hi → v.[2 * k + 2] ≤ v.[k]).
Definition heap_from (v : list Z) (lo hi : Z) : Prop :=
  ∀ k, lo ≤ k → k ≤ hi → dominates v k hi.

(** The root of a heap is its maximum. *)
Lemma heap_root v hi k : heap_from v 0 hi → 0 ≤ k ≤ hi → v.[k] ≤ v.[0].
Proof.
  intros Hh. revert k.
  assert (∀ n k, k ≤ Z.of_nat n → 0 ≤ k ≤ hi → v.[k] ≤ v.[0]) as H.
  2:{ intros k Hk. apply (H (Z.to_nat k)); lia. }
  induction n as [|n IH]; intros k Hn Hk; [by replace k with 0 by lia|].
  destruct (decide (k = 0)) as [->|]; [done|].
  pose proof (Z.div_mod (k - 1) 2 ltac:(lia)). pose proof (Z.mod_pos_bound (k - 1) 2 ltac:(lia)).
  set (p := (k - 1) / 2) in *. transitivity v.[p]; [|apply IH; lia].
  destruct (Hh p) as [H1 H2]; [lia..|].
  destruct (decide ((k - 1) mod 2 = 0)).
  - replace k with (2 * p + 1) by lia. apply H1. lia.
  - replace k with (2 * p + 2) by lia. apply H2. lia.
Qed.

(** A heap of width [0..hi - 1] keeps nothing of a swap at [hi]. *)
Lemma heap_from_same v w lo hi hi' :
  0 ≤ lo → hi' ≤ hi → heap_from v lo hi → (∀ k, lo ≤ k ≤ hi' → w.[k] = v.[k]) → heap_from w lo hi'.
Proof.
  intros Hlo Hle Hh Hs k Hk Hk'. destruct (Hh k) as [H1 H2]; [lia..|].
  split; intros; rewrite !Hs by lia; [apply H1|apply H2]; lia.
Qed.

(** ** Sift down *)

(** While sifting, only [head] may be dominated by its sons, and these are
    already below the father of [head]. *)
Definition sift_inv (v0 : list Z) (lo hi : Z) (v : list Z) (head : Z) : Prop :=
  lo ≤ head ∧ perm_on v0 v lo hi ∧
  (∀ k, lo ≤ k → k ≤ hi → k ≠ head → dominates v k hi) ∧
  (∀ p, lo ≤ p → (head = 2 * p + 1 ∨ head = 2 * p + 2) →
     (2 * head + 1 ≤ hi → v.[2 * head + 1] ≤ v.[p]) ∧
     (2 * head + 2 ≤ hi → v.[2 * head + 2] ≤ v.[p])).

(** Swapping [head] with its larger son [s] moves the defect to [s]. *)
Lemma sift_step v0 lo hi v head s :
  0 ≤ lo → hi < len v0 → sift_inv v0 lo hi v head →
  (s = 2 * head + 1 ∨ s = 2 * head + 2) → s ≤ hi → v.[head] ≤ v.[s] →
  (2 * head + 1 ≤ hi → v.[2 * head + 1] ≤ v.[s]) →
  (2 * head + 2 ≤ hi → v.[2 * head + 2] ≤ v.[s]) →
  sift_inv v0 lo hi (swp v head s) s.
Proof.
  intros Hlo Hhi (Hh & Hp & Hd & Hg) Hs Hsh Hle H1 H2.
  pose proof (perm_on_len _ _ _ _ Hp) as Hl.
  assert (Hsw : ∀ k, 0 ≤ k → (swp v head s).[k] =
            if decide (k = s) then v.[head] else if decide (k = head) then v.[s] else v.[k])
    by (intros; apply at_swp; lia).
  split; [lia|]. split; [eapply perm_on_trans; [done|apply perm_on_swp; lia]|]. split.
  - intros k Hk Hkh Hks. destruct (decide (k = head)) as [->|Hkn].
    + split; intros; rewrite !Hsw by lia; repeat case_decide; subst; try lia; auto with lia.
    + destruct (Hd k) as [D1 D2]; [lia..|].
      split; intros; rewrite !Hsw by lia; repeat case_decide; try lia; auto with lia;
        destruct (Hg k ltac:(lia) ltac:(lia)) as [G1 G2]; destruct Hs as [-> | ->]; auto with lia.
  - intros q Hq Hqs. assert (q = head) as -> by lia.
    destruct (Hd s) as [D1 D2]; [lia..|].
    split; intros; rewrite !Hsw by lia; repeat case_decide; try lia; auto with lia.
Qed.

(** The comparison that chooses between the two sons. *)
Lemma pick_wp v son hi Q :
  0 ≤ son ≤ hi → hi < len v → hi < INT_MAX →
  (∀ b : bool, (if b then son + 1 ≤ hi ∧ v.[son] < v.[son + 1]
                else son + 1 ≤ hi → v.[son + 1] ≤ v.[son]) → Q b) →
  wp (if son + 1 <=? hi then x ← aget v son; y ← aget v (son + 1); mret (x <? y)
      else mret false) Q.
Proof.
  intros Hs Hhi Hmax HQ. destruct (Z.leb_spec (son + 1) hi); wp_steps; apply HQ; [|lia].
  destruct (Z.ltb_spec v.[son] v.[son + 1]); [done|lia].
Qed.

Lemma heap_round vec lo hi v head :
  0 ≤ lo → hi < len vec → 2 * hi + 2 ≤ INT_MAX → head * 2 + 1 ≤ hi → sift_inv vec lo hi v head →
  wp (s1 ← iadd (head * 2 + 1) 1;
      right ← (if s1 <=? hi then x ← aget v (head * 2 + 1); y ← aget v s1; mret (x <? y)
               else mret false);
      son ← (if right : bool then iadd (head * 2 + 1) 1 else mret (head * 2 + 1));
      x ← aget v son; y ← aget v head;
      if x <? y then mret (inr (v, head, son))
      else
        vec ← aswap v head son;
        son' ← (d ← imul son 2; iadd d 1);
        mret (inl (vec, son, son')))
     (λ r : list Z * Z * Z + list Z * Z * Z, match r with
      | inl (v', h, s) => s = h * 2 + 1 ∧ head < h ∧ h ≤ hi ∧ sift_inv vec lo hi v' h
      | inr (v', _, _) => perm_on vec v' lo hi ∧ heap_from v' lo hi
      end).
Proof.
  intros Hlo Hhi Hmax Hson Hinv.
  pose proof Hinv as (Hh & Hp & Hd & Hg). pose proof (perm_on_len _ _ _ _ Hp) as Hl.
  do 2 wp_step. wp_step. apply pick_wp; [int_lia..|]. intros b Hb.
  wp_step. apply wp_mono with (λ s, (s = 2 * head + 1 ∨ s = 2 * head + 2) ∧ s ≤ hi ∧
    v.[2 * head + 1] ≤ v.[s] ∧ (2 * head + 2 ≤ hi → v.[2 * head + 2] ≤ v.[s])).
  { replace (head * 2 + 1 + 1) with (2 * head + 2) in * by lia.
    replace (head * 2 + 1) with (2 * head + 1) in * by lia.
    destruct b; wp_steps; [|by split_and!; auto with lia].
    replace (2 * head + 1 + 1) with (2 * head + 2) by lia. split_and!; auto with lia. }
  intros s (Hs & Hsh & H1 & H2). do 4 wp_step.
  apply wp_if; intros Hc; [apply Z.ltb_lt in Hc|apply Z.ltb_ge in Hc]; wp_steps.
  - split; [done|]. intros k Hk Hk'. destruct (decide (k = head)) as [->|]; [|auto].
    split; intros; [lia|]. specialize (H2 ltac:(lia)). lia.
  - split_and!; [lia..|]. eapply sift_step; eauto.
Qed.

Lemma heap_wp vec lo hi :
  0 ≤ lo → lo ≤ hi + 1 → hi < len vec → 2 * hi + 3 ≤ INT_MAX →
  (∀ k, lo < k → k ≤ hi → dominates vec k hi) →
  wp (Heap vec lo hi) (λ w, perm_on vec w lo hi ∧ heap_from w lo hi).
Proof.
  intros Hlo Hle Hhi Hmax Hv. unfold Heap.
  do 2 wp_step. do 2 wp_step. wp_step.
  eapply wp_mono.
  - apply (wp_loop (λ '(v, head, son), son = head * 2 + 1 ∧ head ≤ hi + 1 ∧ sift_inv vec lo hi v head)
             (λ '(_, head, _), Z.to_nat (hi + 1 - head))
             _ (λ '(v, _, _), perm_on vec v lo hi ∧ heap_from v lo hi)); [| |lia].
    + intros [[v head] son] (-> & Hhd & Hinv).
      destruct (Z.leb_spec (head * 2 + 1) hi).
      * eapply wp_mono; [by apply heap_round with (1 := Hlo) (2 := Hhi); try lia|].
        intros [[[v' h] s]|[[v' h] s]]; [|done]. intros (-> & Hlt & Hle' & Hinv').
        split; [split_and!; (done || lia)|]. destruct Hinv. lia.
      * destruct Hinv as (Hh & Hp & Hd & Hg).
        wp_steps. split; [done|]. intros k Hk Hk'. destruct (decide (k = head)) as [->|]; [|auto].
        split; lia.
    + split_and!; [lia..|]. split; [lia|]. split; [apply perm_on_refl|]. split; [auto with lia|].
      intros p Hp Hs. lia.
  - intros [[v h] s] [Hp Hh]. by wp_step.
Qed.

(** The second loop: [0..i] is a heap, below the sorted tail [i + 1..hi]. *)
Definition extract_inv (vec : list Z) (hi i : Z) (v : list Z) : Prop :=
  perm_on vec v 0 hi ∧ heap_from v 0 i ∧ sorted_on v (i + 1) hi ∧
  ∀ a b, 0 ≤ a ≤ i → i < b ≤ hi → v.[a] ≤ v.[b].

Lemma extract_round vec hi i v :
  0 ≤ i ≤ hi → hi < len vec → 2 * hi + 3 ≤ INT_MAX → extract_inv vec hi i v →
  wp (v ← aswap v 0 i; e ← isub i 1; Heap v 0 e) (extract_inv vec hi (i - 1)).
Proof.
  intros Hi Hhi Hmax (Hp & Hh & Hs & Ht). pose proof (perm_on_len _ _ _ _ Hp) as Hl.
  do 2 wp_step. set (v1 := swp v 0 i).
  assert (Hl1 : len v1 = len v) by apply len_swp.
  assert (Hv1 : ∀ k, 0 < k → k ≠ i → v1.[k] = v.[k]).
  { intros. unfold v1. rewrite at_swp by lia. by repeat case_decide; try lia. }
  assert (Hv1i : v1.[i] = v.[0]).
  { unfold v1. rewrite at_swp by lia. repeat case_decide; lia. }
  do 2 wp_step. eapply wp_mono; [apply heap_wp; try lia|].
  { intros k Hk Hk'. destruct (Hh k) as [D1 D2]; [lia..|].
    split; intros; rewrite !Hv1 by lia; auto with lia. }
  intros w [Hp2 Hh2].
  assert (Hw : ∀ k, i ≤ k → w.[k] = v1.[k]) by (intros; apply Hp2; lia).
  assert (Hv1m : ∀ k, 0 ≤ k ≤ i - 1 → v1.[k] ≤ v.[0] ∧ ∀ b, i < b ≤ hi → v1.[k] ≤ v.[b]).
  { intros k Hk. unfold v1. rewrite at_swp by lia. repeat case_decide; try lia; subst.
    - split; [by apply heap_root with i; try lia|intros; apply Ht; lia].
    - split; [by apply heap_root with i; try lia|intros; apply Ht; lia]. }
  assert (Hwm : ∀ k, 0 ≤ k ≤ i - 1 → w.[k] ≤ v.[0] ∧ ∀ b, i < b ≤ hi → w.[k] ≤ v.[b]).
  { apply (perm_on_forall (λ x, x ≤ v.[0] ∧ ∀ b, i < b ≤ hi → x ≤ v.[b]) v1 w); (done || lia). }
  split; [|split; [done|split]].
  - eapply perm_on_trans; [done|]. eapply perm_on_trans; [apply (perm_on_swp v 0 i); lia|].
    eapply perm_on_weaken; [done|lia..].
  - intros a b Ha Hab Hb. rewrite !Hw by lia.
    destruct (decide (a = i)) as [->|].
    + rewrite Hv1i. destruct (decide (b = i)) as [->|]; [lia|]. rewrite Hv1 by lia. apply Ht; lia.
    + rewrite !Hv1 by lia. apply Hs; lia.
  - intros a b Ha Hb. destruct (Hwm a) as [W1 W2]; [lia|]. rewrite (Hw b) by lia.
    destruct (decide (b = i)) as [->|]; [lia|]. rewrite Hv1 by lia. apply W2. lia.
Qed.

Lemma heapsort_wp vec end_ :
  -1 ≤ end_ < len vec → 2 * end_ + 3 ≤ INT_MAX →
  wp (HeapSort vec 0 end_) (λ w, perm_on vec w 0 end_ ∧ sorted_on w 0 end_).
Proof.
  intros Hend Hmax. unfold HeapSort. do 4 wp_step.
  replace (end_ - 0 + 1) with (end_ + 1) by lia.
  assert (Hq : Z.quot (end_ + 1) 2 = (end_ + 1) / 2) by (apply Z.quot_div_nonneg; lia).
  pose proof (Z.div_mod (end_ + 1) 2 ltac:(lia)). pose proof (Z.mod_pos_bound (end_ + 1) 2 ltac:(lia)).
  wp_step. apply wp_idiv; [done|rewrite Hq; int_lia|]. rewrite Hq.
  set (h := (end_ + 1) / 2) in *. do 3 wp_step.
  apply (wp_for_ge (λ i v, perm_on vec v 0 end_ ∧ heap_from v (i + 1) end_)); try int_lia.
  - split; [apply perm_on_refl|]. intros k Hk Hk'. split; lia.
  - intros i v Hi [Hp Hh]. pose proof (perm_on_len _ _ _ _ Hp) as Hl.
    eapply wp_mono; [apply heap_wp; try lia|].
    { intros k Hk Hk'. apply Hh; lia. }
    intros w [Hp' Hh']. split; [|by replace (i - 1 + 1) with i by lia].
    eapply perm_on_trans; [done|]. eapply perm_on_weaken; [done|lia..].
  - intros v [Hp Hh]. do 2 wp_step.
    apply (wp_for_ge (extract_inv vec end_)); try int_lia.
    + replace (end_ + 1 - 1) with end_ by lia.
      split; [done|]. split; [done|]. split; [intros a b; lia|lia].
    + intros i w Hi Hw. apply extract_round; lia || done.
    + intros w (Hp' & _ & Hs & _). split; [done|]. done.
Qed.

(** ** Properties *)

(** [Heap] (sift down) terminates without undefined behaviour and, when only
    the root of [vec[start..end]] may violate the heap order, establishes it
    from [start] on by rearranging that range alone. *)
Theorem heap_sift_correct vec lo hi :
  0 ≤ lo → lo ≤ hi + 1 → hi < len vec → 2 * hi + 3 ≤ INT_MAX →
  (∀ k, lo < k → k ≤ hi → dominates vec k hi) →
  ∃ w, Heap vec lo hi = Ok w ∧ perm_on vec w lo hi ∧ heap_from w lo hi.
Proof.
  intros. apply wp_elim. by apply heap_wp.
Qed.

Lemma heap_sift_correct_witness :
  ∃ w, Heap [1; 4; 3; 2] 0 3 = Ok w ∧ perm_on [1; 4; 3; 2] w 0 3 ∧ heap_from w 0 3.
Proof.
  apply (heap_sift_correct [1; 4; 3; 2] 0 3); try done.
  intros k Hk Hk'. assert (k = 1 ∨ k = 2 ∨ k = 3) as [-> | [-> | ->]] by lia;
    split; vm_compute; done.
Defined.

(** [HeapSort] called with [start = 0] sorts exactly [vec[0..end]]. *)
Theorem heap_sort_correct vec end_ :
  -1 ≤ end_ < len vec → 2 * end_ + 3 ≤ INT_MAX →
  HeapSort vec 0 end_ = Ok (sort_range vec 0 end_).
Proof. intros. apply sort_range_wp; [lia..|by apply heapsort_wp]. Qed.

Lemma heap_sort_correct_witness : HeapSort [9; 3; 1; 3; 0] 0 3 = Ok [1; 3; 3; 9; 0].
Proof. apply (heap_sort_correct [9; 3; 1; 3; 0] 3); done. Defined.
