(* ===== verification/SortSpec.v ===== *)
(** * The contract of the sorting functions of sort_algo/, as an interface,
    with what a client may conclude from the contract alone. *)
From S2P Require Import Prelude CInt CArray QuadraticSorts QuickSort MergeSort HeapSort.

(** [sort vec 0 end] is defined for every prefix of at most [limit + 1] cells
    and yields the reference rearrangement. *)
Class ArraySorter (limit : Z) (sort : list Z → Z → Z → res (list Z)) : Prop :=
  sorter_spec : ∀ vec end_, -1 ≤ end_ < len vec → end_ ≤ limit →
    sort vec 0 end_ = Ok (sort_range vec 0 end_).

(** The largest index every one of the six sorts handles: [Heap] computes
    [2 * head + 1 + 1 + 1] at most. *)
Definition sort_limit : Z := 2 ^ 30 - 2.

#[export] Instance bubble_sorter : ArraySorter sort_limit BubbleSort.
Proof. intros vec e ??. apply sort_range_wp; [lia..|]. apply bubble_wp; unfold sort_limit in *; int_lia. Qed.
#[export] Instance choose_sorter : ArraySorter sort_limit ChooseSort.
Proof. intros vec e ??. apply sort_range_wp; [lia..|]. apply choose_wp; unfold sort_limit in *; int_lia. Qed.
#[export] Instance insert_sorter : ArraySorter sort_limit InsertSort.
Proof. intros vec e ??. apply sort_range_wp; [lia..|]. apply insert_wp; unfold sort_limit in *; int_lia. Qed.
#[export] Instance quick_sorter : ArraySorter sort_limit QuickSort.
Proof. intros vec e ??. apply sort_range_wp; [lia..|]. apply quick_wp; unfold sort_limit in *; int_lia. Qed.
#[export] Instance merge_sorter : ArraySorter sort_limit MergeSort.
Proof. intros vec e ??. apply sort_range_wp; [lia..|]. apply merge_wp; unfold sort_limit in *; int_lia. Qed.
#[export] Instance heap_sorter : ArraySorter sort_limit HeapSort.
Proof. intros vec e ??. apply sort_range_wp; [lia..|]. apply heapsort_wp; unfold sort_limit in *; int_lia. Qed.

Section Client.
Context {limit : Z} (sort : list Z → Z → Z → res (list Z)) `{!ArraySorter limit sort}.

(** Sorting a whole array is the library's merge sort. *)
Lemma sorter_full vec : len vec - 1 ≤ limit → sort vec 0 (len vec - 1) = Ok (merge_sort (≤) vec).
Proof.
  intros. rewrite sorter_spec; [by rewrite sort_range_full|pose proof (len_nonneg vec); lia|done].
Qed.

(** The result depends on the multiset of the elements only. *)
Lemma sorter_perm vec vec' :
  vec ≡ₚ vec' → len vec - 1 ≤ limit →
  sort vec 0 (len vec - 1) = sort vec' 0 (len vec' - 1).
Proof.
  intros Hp Hl. pose proof (len_perm _ _ Hp). rewrite !sorter_full by lia. f_equal.
  apply (StronglySorted_unique (≤)); try (apply StronglySorted_merge_sort; apply _).
  by rewrite !merge_sort_Permutation.
Qed.

Lemma sorter_idem vec w :
  len vec - 1 ≤ limit → sort vec 0 (len vec - 1) = Ok w → sort w 0 (len w - 1) = Ok w.
Proof.
  intros Hl Hw. rewrite sorter_full in Hw by done. injection Hw as <-.
  assert (Hm : len (merge_sort (≤) vec) = len vec) by apply len_perm, merge_sort_Permutation.
  rewrite sorter_full by lia.
  f_equal. apply (StronglySorted_unique (≤)); try (apply StronglySorted_merge_sort; apply _).
  by rewrite merge_sort_Permutation.
Qed.
End Client.

(** ** Properties *)

(** C36: The six sorts are interchangeable: on every array of at most
    [2^30 - 1] elements each of them returns the same array, the sorted
    rearrangement of the input. *)
Theorem sorts_agree vec :
  len vec ≤ sort_limit + 1 →
  Forall (λ sort, sort vec 0 (len vec - 1) = Ok (merge_sort (≤) vec))
    [BubbleSort; ChooseSort; InsertSort; QuickSort; MergeSort; HeapSort].
Proof.
  intros Hl. repeat (apply Forall_cons; split); try apply Forall_nil; try done;
    apply (sorter_full (limit := sort_limit)); (apply _ || lia).
Qed.

Lemma sorts_agree_witness :
  Forall (λ sort, sort [4; 1; 3; 1] 0 3 = Ok [1; 1; 3; 4])
    [BubbleSort; ChooseSort; InsertSort; QuickSort; MergeSort; HeapSort].
Proof. apply (sorts_agree [4; 1; 3; 1]). done. Defined.

(** What the [main] functions print: five of the six programs print the
    array sorted; heap_sort.cc sorts only its first ten elements, so the
    [10] at the end stays behind the [78]. *)
Theorem mains_output :
  Forall (λ out, out = Ok [0; 1; 2; 2; 5; 8; 10; 32; 43; 54; 78])
    [bubble_main; choose_main; insert_main; quick_main; merge_main] ∧
  heap_main = Ok [0; 1; 2; 2; 5; 8; 32; 43; 54; 78; 10].
Proof. by vm_compute; repeat constructor. Qed.
