(* ===== verification/UseHeap.v ===== *)
(** * sort_algo/use_heap.cc: the heap algorithms of the C++ library.

    [std::make_heap] and the others are promised to give some heap, not a
    particular one: they are a class of operations with the laws of the C++
    standard, and what the program does is proved for all of them. *)
From S2P Require Import Prelude CInt CArray CStdio HeapSort.

(** The first [n] elements are a heap (for [less<int>]). *)
Definition is_heap (v : list Z) (n : Z) : bool :=
  forallb (λ k, v.[(k - 1) / 2] >=? v.[k]) (seqZ 1 (n - 1)).

Class StdHeap : Type := {
  make_heap : list Z → list Z;
  push_heap : list Z → list Z;
  pop_heap : list Z → list Z;
  sort_heap : list Z → list Z;
}.

Class StdHeapLaws `{StdHeap} : Prop := {
  make_heap_perm v : make_heap v ≡ₚ v;
  make_heap_heap v : is_heap (make_heap v) (len v) = true;
  push_heap_perm v : is_heap v (len v - 1) = true → push_heap v ≡ₚ v;
  push_heap_heap v : is_heap v (len v - 1) = true → is_heap (push_heap v) (len v) = true;
  pop_heap_perm v : is_heap v (len v) = true → pop_heap v ≡ₚ v;
  pop_heap_last v : is_heap v (len v) = true → 0 < len v → (pop_heap v).[len v - 1] = v.[0];
  pop_heap_heap v : is_heap v (len v) = true → is_heap (pop_heap v) (len v - 1) = true;
  sort_heap_sorts v : is_heap v (len v) = true → sort_heap v = merge_sort (≤) v;
}.

(** A call of a library function, undefined outside its precondition. *)
Definition requires {A} (pre : bool) (a : A) : res A := if pre then mret a else Err BadPrecond.

Definition PrintHeap (vec : list Z) : list Z :=
  bytes ">>>:" ++ concat ((λ item, fmt_d false 0 item ++ [44]) <$> vec) ++ [10].

Section Main.
Context `{StdHeap}.

Definition use_heap_vec : list Z := [2; 5; 1; 6; 3; 0; 9; 2].

(** [main] up to its [pop_heap]: the vector, and what is printed. *)
Definition use_heap_pops : res (list Z * list Z) :=
  let vec := use_heap_vec in
  let out := PrintHeap vec in
  let vec := make_heap vec in
  let out := out ++ PrintHeap vec in
  let vec := vec ++ [4] in
  vec ← requires (is_heap vec (len vec - 1)) (push_heap vec);
  let out := out ++ PrintHeap vec in
  vec ← requires (is_heap vec (len vec)) (pop_heap vec);
  mret (vec, out ++ PrintHeap vec).

Definition use_heap_main : res (list Z) :=
  '(vec, out) ← use_heap_pops;
  vec ← requires (is_heap vec (len vec)) (sort_heap vec);
  mret (out ++ PrintHeap vec).
End Main.

(** ** Lemmas *)
Lemma is_heap_spec v n : is_heap v n = true ↔ ∀ k, 1 ≤ k < n → v.[k] ≤ v.[(k - 1) / 2].
Proof.
  unfold is_heap. rewrite forallb_forall. split; intros Hh k Hk.
  - specialize (Hh k). rewrite <- list_elem_of_In, elem_of_seqZ in Hh. specialize (Hh ltac:(lia)). lia.
  - rewrite <- list_elem_of_In, elem_of_seqZ in Hk. specialize (Hh k ltac:(lia)). lia.
Qed.

(** The two orders of the nodes: fathers, and sons. *)
Lemma is_heap_from v n : heap_from v 0 (n - 1) → is_heap v n = true.
Proof.
  intros Hh. apply is_heap_spec. intros k Hk. destruct (Hh ((k - 1) / 2)) as [H1 H2];
    [apply Z.div_pos; lia|apply Z.div_le_upper_bound; lia|].
  pose proof (Z.div_mod (k - 1) 2 ltac:(lia)). pose proof (Z.mod_pos_bound (k - 1) 2 ltac:(lia)).
  destruct (decide ((k - 1) mod 2 = 0)).
  - replace (2 * ((k - 1) / 2) + 1) with k in H1 by lia. apply H1. lia.
  - replace (2 * ((k - 1) / 2) + 2) with k in H2 by lia. apply H2. lia.
Qed.

Lemma is_heap_app v x : is_heap v (len v) = true → is_heap (v ++ x) (len v) = true.
Proof.
  rewrite !is_heap_spec. intros Hh k Hk. specialize (Hh k Hk).
  assert (0 ≤ (k - 1) / 2 < len v) by (split; [apply Z.div_pos; lia|apply Z.div_lt_upper_bound; lia]).
  rewrite !at_app_l by lia. done.
Qed.

Lemma heap_top v n k : is_heap v n = true → 0 ≤ k < n → v.[k] ≤ v.[0].
Proof.
  rewrite is_heap_spec. intros Hh. assert (∀ m k, k ≤ Z.of_nat m → 0 ≤ k < n → v.[k] ≤ v.[0]) as H.
  2:{ intros Hk. apply (H (Z.to_nat k)); lia. }
  induction m as [|m IH]; intros j Hj Hk; [by replace j with 0 by lia|].
  destruct (decide (j = 0)) as [->|]; [done|]. specialize (Hh j ltac:(lia)).
  etrans; [exact Hh|]. apply IH; [|split]; [apply Z.div_le_upper_bound; lia|apply Z.div_pos; lia|apply Z.div_lt_upper_bound; lia].
Qed.

Section Proofs.
Context `{StdHeapLaws}.

(** The program's heap operations are called within their preconditions up to
    [pop_heap], which leaves the vector with the maximum, 9, at its end. *)
Lemma use_heap_pops_ok : wp use_heap_pops (λ '(vec, out), vec ≡ₚ use_heap_vec ++ [4] ∧ vec.[8] = 9 ∧ is_heap vec 8 = true).
Proof.
  unfold use_heap_pops. set (v := make_heap use_heap_vec).
  assert (Hp : v ≡ₚ use_heap_vec) by apply make_heap_perm. assert (Hl : len v = 8) by (by rewrite (len_perm _ _ Hp)).
  assert (Hl9 : len (v ++ [4]) = 9) by (by rewrite len_app, Hl).
  assert (H1 : is_heap (v ++ [4]) (len (v ++ [4]) - 1) = true).
  { rewrite Hl9. replace (9 - 1) with (len v) by lia. apply is_heap_app. rewrite Hl. apply (make_heap_heap use_heap_vec). }
  unfold requires. rewrite H1. cbn [mbind res_bind mret res_ret]. set (w := push_heap (v ++ [4])).
  assert (Hw : w ≡ₚ use_heap_vec ++ [4]) by (unfold w; rewrite push_heap_perm by done; by rewrite Hp).
  assert (H2 : is_heap w (len w) = true).
  { rewrite (len_perm _ _ Hw). change (len (use_heap_vec ++ [4])) with 9. rewrite <- Hl9. by apply push_heap_heap. }
  rewrite H2. cbn [mbind res_bind mret res_ret wp].
  assert (Hw9 : len w = 9) by (by rewrite (len_perm _ _ Hw)). split; [by rewrite pop_heap_perm|split].
  - replace 8 with (len w - 1) by lia. rewrite pop_heap_last by (done || lia).
    assert (Hin : 9 ∈ w) by (rewrite Hw; do 6 right; left).
    assert (Hmax : Forall (λ x, x ≤ 9) w) by (rewrite Hw; repeat constructor; lia).
    apply list_elem_of_lookup in Hin as [i Hi]. pose proof (lookup_lt_Some _ _ _ Hi).
    pose proof (heap_top w (len w) (Z.of_nat i) H2 ltac:(unfold len; lia)) as Htop.
    unfold at_ in *. rewrite Nat2Z.id, (list_lookup_total_correct _ _ _ Hi) in Htop.
    assert (w !!! Z.to_nat 0 ≤ 9); [|lia].
    destruct w as [|x w']; [done|]. by inversion Hmax.
  - replace 8 with (len w - 1) by lia. by apply pop_heap_heap.
Qed.
End Proofs.

(** ** Property *)

(** Whatever heaps the library makes, the final [sort_heap] is called on a
    range that is not a heap, [pop_heap] having moved the maximum to its end:
    the call is outside its precondition, and undefined. *)
Theorem use_heap_undefined `{StdHeapLaws} : use_heap_main = Err BadPrecond.
Proof.
  unfold use_heap_main. pose proof use_heap_pops_ok as Hw. destruct use_heap_pops as [[vec out]|]; [|done].
  destruct Hw as (Hp & H9 & Hh). cbn [mbind res_bind].
  replace (is_heap vec (len vec)) with false; [done|]. symmetry. apply not_true_is_false. intros Hall.
  assert (Hl : len vec = 9) by (by rewrite (len_perm _ _ Hp)). rewrite Hl in Hall.
  rewrite is_heap_spec in Hall. specialize (Hall 8 ltac:(lia)). change ((8 - 1) / 2) with 3 in Hall. rewrite H9 in Hall.
  assert (Hv : vec = take 8 vec ++ [9]).
  { destruct vec as [|x0 [|x1 [|x2 [|x3 [|x4 [|x5 [|x6 [|x7 [|x8 [|]]]]]]]]]]; try (unfold len in Hl; cbn [length] in Hl; lia). change (x8 = 9) in H9. by subst. }
  assert (Hp' : take 8 vec ≡ₚ [2; 5; 1; 6; 3; 0; 2; 4]).
  { apply (Permutation_app_inv_r [9]). rewrite <- Hv, Hp.
    change (use_heap_vec ++ [4]) with ([2; 5; 1; 6; 3; 0] ++ 9 :: [2; 4]).
    rewrite <- Permutation_middle. by rewrite Permutation_cons_append. }
  assert (Hlt : Forall (λ x, x < 9) (take 8 vec)) by (rewrite Hp'; repeat constructor; lia).
  rewrite <- (at_take vec 8 3) in Hall by lia. change (Z.to_nat 8) with 8%nat in Hall.
  destruct (take 8 vec) as [|x0 [|x1 [|x2 [|x3 l]]]] eqn:Ht; try (by apply Permutation_length in Hp').
  rewrite !Forall_cons in Hlt. assert (9 ≤ x3) by exact Hall. lia.
Qed.

(** A library that keeps its heaps sorted, largest first. *)
Definition descending (v : list Z) : list Z := reverse (merge_sort (≤) v).
#[local] Instance sorting_heap : StdHeap := {|
  make_heap := descending;
  push_heap := descending;
  pop_heap v := descending (drop 1 v) ++ take 1 v;
  sort_heap := merge_sort (≤);
|}.

Lemma descending_perm v : descending v ≡ₚ v.
Proof. unfold descending. rewrite reverse_Permutation. apply merge_sort_Permutation. Qed.

Lemma len_descending v : len (descending v) = len v.
Proof. apply len_perm, descending_perm. Qed.

Lemma descending_at v i j : 0 ≤ i ≤ j → j < len v → (descending v).[j] ≤ (descending v).[i].
Proof.
  intros Hi Hj. unfold descending. set (w := merge_sort (≤) v).
  assert (Hl : len w = len v) by apply len_perm, merge_sort_Permutation.
  assert (Hs : sorted_on w 0 (len w - 1)).
  { apply sorted_on_slice; [lia|lia|lia|]. rewrite slice_full. apply StronglySorted_merge_sort; apply _. }
  assert (Hrev : ∀ k, 0 ≤ k < len w → (reverse w).[k] = w.[len w - 1 - k]).
  { intros k Hk. unfold at_. rewrite !list_lookup_total_alt, reverse_lookup by (unfold len in *; lia).
    do 3 f_equal. unfold len. lia. }
  rewrite !Hrev by lia. apply Hs; lia.
Qed.

Lemma descending_is_heap v x : is_heap (descending v ++ x) (len v) = true.
Proof.
  apply is_heap_spec. intros k Hk.
  assert (0 ≤ (k - 1) / 2 ≤ k - 1) by (split; [apply Z.div_pos; lia|apply Z.div_le_upper_bound; lia]).
  rewrite !at_app_l by (rewrite len_descending; lia). apply descending_at; lia.
Qed.

#[local] Instance sorting_heap_laws : StdHeapLaws.
Proof.
  constructor; unfold make_heap, push_heap, pop_heap, sort_heap, sorting_heap; intros v.
  - apply descending_perm.
  - rewrite <- (app_nil_r (descending v)). apply descending_is_heap.
  - intros _. apply descending_perm.
  - intros _. rewrite <- (app_nil_r (descending v)). apply descending_is_heap.
  - intros _. rewrite descending_perm, Permutation_app_comm. by rewrite take_drop.
  - intros _ Hl. destruct v as [|x v]; [done|]. change (drop 1 (x :: v)) with v. change (take 1 (x :: v)) with [x]. rewrite at_app_r by (rewrite len_descending; unfold len; cbn [length]; lia).
    rewrite len_descending. replace (len (x :: v) - 1 - len v) with 0 by (unfold len; cbn [length]; lia). done.
  - intros _. destruct v as [|x v]; [done|]. change (drop 1 (x :: v)) with v. change (take 1 (x :: v)) with [x]. replace (len (x :: v) - 1) with (len v) by (unfold len; cbn [length]; lia).
    apply descending_is_heap.
  - done.
Qed.

Lemma use_heap_undefined_witness : @use_heap_main sorting_heap = Err BadPrecond.
Proof. apply (@use_heap_undefined sorting_heap sorting_heap_laws). Defined.
