(* ===== verification/Float64.v ===== *)
(** * IEEE 754 binary64 ([double]) for the parts of the program that use it:
    the operations are the Standard Library's bit-level specification at
    precision 53 and maximal exponent 1024; conversions to integer types
    truncate and are undefined outside the target's range. *)
From Stdlib Require Import SpecFloat.
From S2P Require Import Prelude CInt.

Abbreviation f64 := spec_float.

Definition f64_of_Z (z : Z) : f64 := binary_normalize 53 1024 z 0 false.
Definition f64_add : f64 → f64 → f64 := SFadd 53 1024.
Definition f64_sub : f64 → f64 → f64 := SFsub 53 1024.
Definition f64_mul : f64 → f64 → f64 := SFmul 53 1024.
Definition f64_div : f64 → f64 → f64 := SFdiv 53 1024.
Definition f64_lt : f64 → f64 → bool := SFltb.
Definition f64_le : f64 → f64 → bool := SFleb.
Definition f64_zero : f64 := S754_zero false.

(** [std::min(a, b)] is [(b < a) ? b : a]. *)
Definition f64_min (a b : f64) : f64 := if f64_lt b a then b else a.

(** [!x] and [x ? ... : ...] test for zero; a NaN counts as true. *)
Definition f64_is_zero (x : f64) : bool :=
  match x with S754_zero _ => true | _ => false end.

Definition signed (s : bool) (z : Z) : Z := if s then - z else z.

(** Rounding toward zero; [None] for infinities and NaN. *)
Definition f64_trunc (x : f64) : option Z :=
  match x with
  | S754_zero _ => Some 0
  | S754_finite s m e =>
      Some (signed s (if 0 <=? e then Z.pos m * 2 ^ e else Z.pos m / 2 ^ (- e)))
  | _ => None
  end.

Definition f64_to_i64 (x : f64) : res Z :=
  match f64_trunc x with
  | Some z => if in_int64 z then Ok z else Err BadCast
  | None => Err BadCast
  end.
Definition f64_to_i32 (x : f64) : res Z :=
  match f64_trunc x with
  | Some z => if in_int z then Ok z else Err BadCast
  | None => Err BadCast
  end.
Definition f64_to_u64 (x : f64) : res Z :=
  match f64_trunc x with
  | Some z => if (0 <=? z) && (z <=? UINT64_MAX) then Ok z else Err BadCast
  | None => Err BadCast
  end.

(** [std::ceil] *)
Definition f64_ceil (x : f64) : f64 :=
  match x with
  | S754_finite s m e =>
      if 0 <=? e then x
      else let c := - ((- signed s (Z.pos m)) / 2 ^ (- e)) in
           if c =? 0 then S754_zero s else f64_of_Z c
  | _ => x
  end.

(** ** Digits and shifts *)
Lemma digits2_log2 m : Z.pos (digits2_pos m) = Z.log2 (Z.pos m) + 1.
Proof.
  induction m as [m IH|m IH|]; [| |done]; simpl digits2_pos; rewrite Pos2Z.inj_succ, IH.
  - rewrite (Pos2Z.inj_xI m). rewrite Z.log2_succ_double by done. lia.
  - rewrite (Pos2Z.inj_xO m). rewrite Z.log2_double by done. lia.
Qed.

Lemma Zdigits2_log2 z : 0 < z → Zdigits2 z = Z.log2 z + 1.
Proof. destruct z as [|p|p]; [lia| |lia]. intros _. apply digits2_log2. Qed.

Lemma iter_pos_nat {A} (f : A → A) p x : SpecFloat.iter_pos f p x = Nat.iter (Pos.to_nat p) f x.
Proof.
  revert x. induction p as [p IH|p IH|]; intros x; cbn [SpecFloat.iter_pos]; [| |done]; rewrite !IH.
  - rewrite Pos2Nat.inj_xI, <- !Nat.iter_succ_r, <- Nat.iter_add. f_equal. lia.
  - rewrite Pos2Nat.inj_xO, <- Nat.iter_add. f_equal. lia.
Qed.

Lemma shr_1_spec m r s :
  0 ≤ m → shr_1 (Build_shr_record m r s) = Build_shr_record (m / 2) (Z.odd m) (r || s).
Proof.
  intros Hm. destruct m as [|[p|p|]|p]; try lia; simpl; try done.
  - f_equal. rewrite (Pos2Z.inj_xI p). rewrite Z.mul_comm, Z.div_add_l by done. by rewrite Z.add_0_r.
  - f_equal. rewrite (Pos2Z.inj_xO p). rewrite Z.mul_comm, Z.div_mul by done. done.
Qed.

Lemma shr_iter_m n m r s :
  0 ≤ m → shr_m (Nat.iter n shr_1 (Build_shr_record m r s)) = m / 2 ^ Z.of_nat n.
Proof.
  revert m r s. induction n as [|n IH]; intros m r s Hm; [by rewrite Z.div_1_r|].
  rewrite Nat.iter_succ_r, shr_1_spec by done. rewrite IH by (apply Z.div_pos; lia).
  rewrite Nat2Z.inj_succ, Z.pow_succ_r by lia. rewrite Z.div_div by lia. done.
Qed.

Lemma shr_iter_exact n k :
  0 ≤ k →
  Nat.iter n shr_1 (Build_shr_record (k * 2 ^ Z.of_nat n) false false)
  = Build_shr_record k false false.
Proof.
  intros Hk. induction n as [|n IH]; [by rewrite Z.mul_1_r|].
  rewrite Nat.iter_succ_r, Nat2Z.inj_succ, Z.pow_succ_r by lia.
  replace (k * (2 * 2 ^ Z.of_nat n)) with (2 * (k * 2 ^ Z.of_nat n)) by lia.
  rewrite shr_1_spec by lia. rewrite Z.odd_mul. simpl.
  rewrite (Z.mul_comm 2), Z.div_mul by done. exact IH.
Qed.

(** [fexp] at binary64. *)
Abbreviation fexp64 := (fexp 53 1024).
Lemma fexp64_eq x : fexp64 x = Z.max (x - 53) (-1074).
Proof. done. Qed.

Lemma shr_m_spec m e n :
  0 ≤ m → shr_m (fst (shr (Build_shr_record m false false) e n)) = m / 2 ^ Z.max n 0.
Proof.
  intros Hm. destruct n as [|p|p]; simpl; [by rewrite Z.div_1_r| |by rewrite Z.div_1_r].
  rewrite iter_pos_nat, shr_iter_m by done. by rewrite positive_nat_Z.
Qed.

Lemma shr_loc_m m l e n :
  0 ≤ m → shr_m (fst (shr (shr_record_of_loc m l) e n)) = m / 2 ^ Z.max n 0.
Proof.
  intros Hm. destruct n as [|p|p]; simpl.
  1,3: destruct l as [|[]]; simpl; by rewrite Z.div_1_r.
  rewrite iter_pos_nat. destruct l as [|[]]; simpl; rewrite shr_iter_m by done;
    by rewrite positive_nat_Z.
Qed.

Lemma shr_exp mrs e n : snd (shr mrs e n) = e + Z.max n 0.
Proof. destruct n; simpl; lia. Qed.

Lemma shr_exact k e n :
  0 ≤ k → 0 ≤ n →
  shr (Build_shr_record (k * 2 ^ n) false false) e n = (Build_shr_record k false false, e + n).
Proof.
  intros Hk Hn. destruct n as [|p|p]; simpl; [by rewrite Z.mul_1_r, Z.add_0_r| |lia].
  rewrite iter_pos_nat. f_equal. rewrite <- (positive_nat_Z p). by apply shr_iter_exact.
Qed.

Lemma shr_nonpos mrs e n : n ≤ 0 → shr mrs e n = (mrs, e).
Proof. by destruct n; simpl. Qed.

Lemma log2_mul_pow2_pos k j : 0 < k → 0 ≤ j → Z.log2 (k * 2 ^ j) = Z.log2 k + j.
Proof. intros. rewrite Z.log2_mul_pow2 by lia. lia. Qed.

(** ** Rounding is exact on representable values *)
Lemma round_aux_exact s k j e :
  0 < k → Z.log2 k ≤ 52 → 0 ≤ j → -1074 ≤ e + j →
  let m := k * 2 ^ j in
  let n := Z.max (fexp64 (Z.log2 m + 1 + e) - e) 0 in
  e + n ≤ 971 →
  binary_round_aux 53 1024 s m e loc_Exact = S754_finite s (Z.to_pos (m / 2 ^ n)) (e + n).
Proof.
  intros Hk Hk52 Hj Hemin m n Hmax.
  assert (Hm : 0 < m) by (apply Z.mul_pos_pos; [done|apply Z.pow_pos_nonneg; lia]).
  assert (Hlm : Z.log2 m = Z.log2 k + j) by (apply log2_mul_pow2_pos; lia).
  assert (Hnj : n ≤ j) by (unfold n; rewrite fexp64_eq, Hlm; lia).
  set (q := k * 2 ^ (j - n)).
  assert (Hmq : m = q * 2 ^ n).
  { unfold m, q. rewrite <- Z.mul_assoc, <- Z.pow_add_r by lia. do 2 f_equal. lia. }
  assert (Hq : 0 < q) by (apply Z.mul_pos_pos; [done|apply Z.pow_pos_nonneg; lia]).
  assert (Hlq : Z.log2 q = Z.log2 m - n).
  { unfold q. rewrite log2_mul_pow2_pos by lia. lia. }
  assert (Hdiv : m / 2 ^ n = q) by (rewrite Hmq, Z.div_mul; [done|apply Z.pow_nonzero; lia]).
  unfold binary_round_aux, shr_fexp. rewrite (Zdigits2_log2 m) by done. simpl shr_record_of_loc.
  assert (Hs1 : shr (Build_shr_record m false false) e (fexp64 (Z.log2 m + 1 + e) - e)
                = (Build_shr_record q false false, e + n)).
  { destruct (decide (fexp64 (Z.log2 m + 1 + e) - e ≤ 0)) as [Hle|Hgt].
    - rewrite shr_nonpos by done. assert (Hn0 : n = 0) by (unfold n; lia).
      rewrite Hn0 in Hmq |- *. by rewrite Z.add_0_r, Hmq, Z.mul_1_r.
    - replace (fexp64 (Z.log2 m + 1 + e) - e) with n by (unfold n; lia).
      rewrite Hmq. apply shr_exact; lia. }
  rewrite Hs1. simpl. rewrite (Zdigits2_log2 q) by done. rewrite Hlq.
  rewrite shr_nonpos by (unfold n; rewrite !fexp64_eq; lia).
  simpl. rewrite Hdiv. destruct q as [|p|p]; try lia. simpl.
  by rewrite (proj2 (Z.leb_le (e + n) (1024 - 53)) Hmax).
Qed.

Lemma shl_align_le m e e' :
  e' ≤ e → ∃ mx, shl_align m e e' = (mx, e') ∧ Z.pos mx = Z.pos m * 2 ^ (e - e').
Proof.
  intros Hle. unfold shl_align. destruct (e' - e) as [|p|p] eqn:Hd; [|lia|].
  - exists m. assert (e' = e) as -> by lia. by rewrite Z.sub_diag, Z.mul_1_r.
  - eexists. split; [done|]. replace (e - e') with (Z.pos p) by lia.
    clear Hd. induction p as [|p IH] using Pos.peano_ind; [simpl; lia|].
    rewrite Pos.iter_succ, Pos2Z.inj_xO, IH, Pos2Z.inj_succ, Z.pow_succ_r by lia. lia.
Qed.

(** The unique finite value with a 53-bit mantissa. *)
Definition f64_norm (z : Z) : f64 :=
  S754_finite false (Z.to_pos (z * 2 ^ (52 - Z.log2 z))) (Z.log2 z - 52).

Lemma log2_small z : 0 < z → z < 2 ^ 53 → 0 ≤ Z.log2 z ≤ 52.
Proof.
  intros Hz Hlt. split; [apply Z.log2_nonneg|].
  assert (Z.log2 z < 53); [|lia]. by apply Z.log2_lt_pow2.
Qed.

Lemma f64_of_Z_exact z : 0 < z → z < 2 ^ 53 → f64_of_Z z = f64_norm z.
Proof.
  intros Hz Hlt. pose proof (log2_small z Hz Hlt) as HL.
  unfold f64_of_Z, binary_normalize. destruct z as [|p|p]; try lia.
  unfold binary_round. rewrite digits2_log2, fexp64_eq. rewrite Z.add_0_r.
  destruct (shl_align_le p 0 (Z.max (Z.log2 (Z.pos p) + 1 - 53) (-1074))) as (mx & -> & Hmx); [lia|].
  replace (Z.max (Z.log2 (Z.pos p) + 1 - 53) (-1074)) with (Z.log2 (Z.pos p) - 52) in * by lia.
  rewrite Hmx. replace (0 - (Z.log2 (Z.pos p) - 52)) with (52 - Z.log2 (Z.pos p)) by lia.
  pose proof (log2_mul_pow2_pos (Z.pos p) (52 - Z.log2 (Z.pos p)) ltac:(lia) ltac:(lia)) as Hlm.
  assert (Hn : Z.max (fexp64 (Z.log2 (Z.pos p * 2 ^ (52 - Z.log2 (Z.pos p))) + 1
                 + (Z.log2 (Z.pos p) - 52)) - (Z.log2 (Z.pos p) - 52)) 0 = 0)
    by (rewrite Hlm, fexp64_eq; lia).
  rewrite round_aux_exact by (rewrite ?Hn; lia). rewrite Hn.
  by rewrite Z.div_1_r, Z.add_0_r.
Qed.

Lemma f64_trunc_of_Z z : 0 ≤ z → z < 2 ^ 53 → f64_trunc (f64_of_Z z) = Some z.
Proof.
  intros Hz Hlt. destruct (decide (z = 0)) as [->|]; [done|].
  rewrite f64_of_Z_exact by lia. pose proof (log2_small z ltac:(lia) Hlt) as HL.
  assert (Hp : 0 < z * 2 ^ (52 - Z.log2 z)) by (apply Z.mul_pos_pos; [lia|apply Z.pow_pos_nonneg; lia]).
  unfold f64_norm, f64_trunc. rewrite Z2Pos.id by done. f_equal. simpl.
  destruct (Z.leb_spec 0 (Z.log2 z - 52)).
  - replace (52 - Z.log2 z) with 0 by lia. replace (Z.log2 z - 52) with 0 by lia. lia.
  - replace (- (Z.log2 z - 52)) with (52 - Z.log2 z) by lia.
    apply Z.div_mul, Z.pow_nonzero; lia.
Qed.

(** Rounding up a quotient of integers. *)
Definition cdiv (a b : Z) : Z := - ((- a) / b).

Lemma cdiv_spec a b : 0 < b → b * (cdiv a b - 1) < a ≤ b * cdiv a b.
Proof.
  intros Hb. unfold cdiv. pose proof (Z.div_mod (- a) b ltac:(lia)).
  pose proof (Z.mod_pos_bound (- a) b Hb). lia.
Qed.

Lemma cdiv_mul_r a b c : 0 < c → 0 < b → cdiv (a * c) (b * c) = cdiv a b.
Proof.
  intros. unfold cdiv. f_equal. rewrite <- Z.mul_opp_l. apply Z.div_mul_cancel_r; lia.
Qed.

Lemma div_eucl_mul a b : b ≠ 0 → Z.div_eucl (a * b) b = (a, 0).
Proof.
  intros Hb. pose proof (Z.div_mul a b Hb) as H1. pose proof (Z.mod_mul a b Hb) as H2.
  unfold Z.div, Z.modulo in *. destruct (Z.div_eucl (a * b) b). congruence.
Qed.

(** A small integer divided by [2 ^ k] is exact. *)
Lemma f64_div_pow2 z k :
  0 < z → z < 2 ^ 53 → 0 ≤ k ≤ 52 →
  f64_div (f64_of_Z z) (f64_of_Z (2 ^ k))
  = S754_finite false (Z.to_pos (z * 2 ^ (52 - Z.log2 z))) (Z.log2 z - 52 - k).
Proof.
  intros Hz Hlt Hk. pose proof (log2_small z ltac:(lia) Hlt) as HL.
  assert (H2k : 0 < 2 ^ k) by (apply Z.pow_pos_nonneg; lia).
  rewrite !f64_of_Z_exact by (try apply Z.pow_lt_mono_r; lia).
  unfold f64_norm. rewrite Z.log2_pow2 by lia. rewrite <- Z.pow_add_r by lia.
  replace (k + (52 - k)) with 52 by lia. set (L := Z.log2 z) in *.
  assert (Hm1 : 0 < z * 2 ^ (52 - L)) by (apply Z.mul_pos_pos; [lia|apply Z.pow_pos_nonneg; lia]).
  assert (Hl1 : Z.log2 (z * 2 ^ (52 - L)) = 52) by (rewrite log2_mul_pow2_pos by lia; fold L; lia).
  unfold f64_div, SFdiv, SFdiv_core_binary. rewrite Z2Pos.id by done.
  rewrite (Z2Pos.id (2 ^ 52)) by done.
  rewrite (Zdigits2_log2 _ Hm1), Hl1, (Zdigits2_log2 (2 ^ 52)) by done. rewrite Z.log2_pow2 by lia.
  replace (Z.min _ _) with (L - k - 53) by (rewrite fexp64_eq; lia).
  replace (L - 52 - (k - 52) - (L - k - 53)) with 53 by lia.
  rewrite Z.shiftl_mul_pow2 by lia.
  replace (z * 2 ^ (52 - L) * 2 ^ 53) with (z * 2 ^ (53 - L) * 2 ^ 52).
  2:{ rewrite <- !Z.mul_assoc, <- !Z.pow_add_r by lia. do 2 f_equal. lia. }
  assert (Hde : Z.div_eucl (z * 2 ^ (53 - L) * 2 ^ 52) (2 ^ 52) = (z * 2 ^ (53 - L), 0)).
  { apply div_eucl_mul; lia. }
  rewrite Hde. change (new_location (2 ^ 52) 0) with loc_Exact.
  assert (Hlm : Z.log2 (z * 2 ^ (53 - L)) = 53) by (rewrite log2_mul_pow2_pos by lia; fold L; lia).
  assert (Hn : Z.max (fexp64 (Z.log2 (z * 2 ^ (53 - L)) + 1 + (L - k - 53)) - (L - k - 53)) 0 = 1)
    by (rewrite Hlm, fexp64_eq; lia).
  rewrite round_aux_exact by (rewrite ?Hn; lia). rewrite Hn. f_equal; [|lia]. f_equal.
  replace (53 - L) with (52 - L + 1) by lia. rewrite Z.pow_add_r by lia.
  rewrite Z.mul_assoc. by apply Z.div_mul.
Qed.

(** [ceil((double)z / 2^k)] is the integer quotient rounded up. *)
Lemma f64_ceil_div_pow2 z k :
  0 < z → z < 2 ^ 53 → 0 ≤ k ≤ 52 →
  f64_trunc (f64_ceil (f64_div (f64_of_Z z) (f64_of_Z (2 ^ k)))) = Some (cdiv z (2 ^ k)).
Proof.
  intros Hz Hlt Hk. pose proof (log2_small z ltac:(lia) Hlt) as HL.
  assert (H2k : 0 < 2 ^ k) by (apply Z.pow_pos_nonneg; lia).
  rewrite f64_div_pow2 by done. set (L := Z.log2 z) in *.
  assert (H2L : 0 < 2 ^ (52 - L)) by (apply Z.pow_pos_nonneg; lia).
  assert (Hm1 : 0 < z * 2 ^ (52 - L)) by (apply Z.mul_pos_pos; lia).
  assert (Hc : 0 ≤ cdiv z (2 ^ k) ≤ z) by (pose proof (cdiv_spec z (2 ^ k) H2k); nia).
  unfold f64_ceil. destruct (Z.leb_spec 0 (L - 52 - k)).
  - assert (k = 0) as -> by lia. assert (HL52 : L = 52) by lia. rewrite HL52. simpl.
    f_equal. rewrite Z.mul_1_r. unfold cdiv. rewrite Z.div_1_r. rewrite Z2Pos.id; lia.
  - unfold signed. rewrite Z2Pos.id by done.
    replace (2 ^ (- (L - 52 - k))) with (2 ^ k * 2 ^ (52 - L)).
    2:{ rewrite <- Z.pow_add_r by lia. f_equal. lia. }
    fold (cdiv (z * 2 ^ (52 - L)) (2 ^ k * 2 ^ (52 - L))). rewrite cdiv_mul_r by done.
    destruct (Z.eqb_spec (cdiv z (2 ^ k)) 0) as [->|]; [done|].
    apply f64_trunc_of_Z; lia.
Qed.

(** Products of small integers are exact. *)
Lemma f64_mul_exact a b :
  0 < a → 0 < b → a * b < 2 ^ 53 → f64_mul (f64_of_Z a) (f64_of_Z b) = f64_of_Z (a * b).
Proof.
  intros Ha Hb Hab. rewrite !f64_of_Z_exact by nia.
  pose proof (log2_small a ltac:(lia) ltac:(nia)) as HLa.
  pose proof (log2_small b ltac:(lia) ltac:(nia)) as HLb.
  pose proof (log2_small (a * b) ltac:(nia) ltac:(nia)) as HL.
  pose proof (Z.log2_mul_below a b Ha Hb) as Hlow.
  unfold f64_norm, f64_mul, SFmul.
  set (La := Z.log2 a) in *. set (Lb := Z.log2 b) in *. set (L := Z.log2 (a * b)) in *.
  assert (0 < 2 ^ (52 - La)) by (apply Z.pow_pos_nonneg; lia).
  assert (0 < 2 ^ (52 - Lb)) by (apply Z.pow_pos_nonneg; lia).
  rewrite Pos2Z.inj_mul, !Z2Pos.id by nia.
  replace (a * 2 ^ (52 - La) * (b * 2 ^ (52 - Lb))) with (a * b * 2 ^ (104 - La - Lb)).
  2:{ replace (104 - La - Lb) with (52 - La + (52 - Lb)) by lia. rewrite Z.pow_add_r by lia. lia. }
  replace (La - 52 + (Lb - 52)) with (- (104 - La - Lb)) by lia.
  set (j := 104 - La - Lb) in *.
  assert (Hlm : Z.log2 (a * b * 2 ^ j) = L + j) by (apply log2_mul_pow2_pos; nia).
  assert (Hn : Z.max (fexp64 (Z.log2 (a * b * 2 ^ j) + 1 + - j) - - j) 0 = L - 52 + j)
    by (rewrite Hlm, fexp64_eq; lia).
  rewrite round_aux_exact by (rewrite ?Hn; (lia || nia)). rewrite Hn. f_equal; [|lia]. f_equal.
  replace (a * b * 2 ^ j) with (a * b * 2 ^ (52 - L) * 2 ^ (L - 52 + j)).
  - apply Z.div_mul, Z.pow_nonzero; lia.
  - rewrite <- (Z.mul_assoc (a * b)), <- Z.pow_add_r by lia. do 2 f_equal. lia.
Qed.

(** ** Rounding a non-zero value within the exponent range gives a non-zero one *)
Lemma log2_div_pow2 m n : 0 < m → 0 ≤ n ≤ Z.log2 m → Z.log2 (m / 2 ^ n) = Z.log2 m - n.
Proof.
  intros Hm Hn. rewrite <- Z.shiftr_div_pow2 by lia. rewrite Z.log2_shiftr by lia. lia.
Qed.

Lemma div_pow2_pos m n : 0 < m → 0 ≤ n ≤ Z.log2 m → 0 < m / 2 ^ n.
Proof.
  intros Hm Hn. apply Z.div_str_pos. split; [apply Z.pow_pos_nonneg; lia|].
  apply Z.log2_le_pow2; lia.
Qed.

Lemma round_even_bounds m l : m ≤ round_nearest_even m l ≤ m + 1.
Proof. destruct l as [|[]]; simpl; try lia. destruct (Z.even m); lia. Qed.

Lemma log2_succ_le m k : 0 < m → m ≤ k ≤ m + 1 → Z.log2 m ≤ Z.log2 k ≤ Z.log2 m + 1.
Proof.
  intros Hm Hk. split; [apply Z.log2_le_mono; lia|].
  pose proof (Z.log2_le_mono k (m + 1) ltac:(lia)). pose proof (Z.log2_succ_le m).
  rewrite <- Z.add_1_r in *. lia.
Qed.

Lemma round_aux_finite s m e l :
  0 < m → -1074 ≤ e → e + Z.max (Z.log2 m - 52) 0 + 1 ≤ 971 →
  ∃ m' e', binary_round_aux 53 1024 s m e l = S754_finite s m' e' ∧
    e ≤ e' ≤ e + Z.max (Z.log2 m - 52) 0 + 1 ∧ Z.log2 (Z.pos m') ≤ 53.
Proof.
  intros Hm He Hmax. unfold binary_round_aux, shr_fexp. rewrite (Zdigits2_log2 m) by done.
  pose proof (Z.log2_nonneg m) as HL.
  destruct (shr _ e (fexp64 (Z.log2 m + 1 + e) - e)) as [mrs1 e1] eqn:Hs1.
  set (N := Z.max (fexp64 (Z.log2 m + 1 + e) - e) 0).
  assert (HN : N = Z.max (Z.log2 m - 52) 0) by (unfold N; rewrite fexp64_eq; lia).
  assert (Hm1 : shr_m mrs1 = m / 2 ^ N).
  { unfold N. rewrite <- (shr_loc_m m l e) by lia. by rewrite Hs1. }
  assert (He1 : e1 = e + N) by (unfold N; rewrite <- (shr_exp (shr_record_of_loc m l)); by rewrite Hs1).
  assert (Hp1 : 0 < shr_m mrs1) by (rewrite Hm1; apply div_pow2_pos; lia).
  assert (Hl1 : Z.log2 (shr_m mrs1) = Z.log2 m - N) by (rewrite Hm1; apply log2_div_pow2; lia).
  set (m2 := round_nearest_even _ _).
  pose proof (round_even_bounds (shr_m mrs1) (loc_of_shr_record mrs1)) as Hb. fold m2 in Hb.
  pose proof (log2_succ_le _ _ Hp1 Hb) as Hl2.
  rewrite (Zdigits2_log2 m2) by lia. simpl shr_record_of_loc.
  destruct (shr _ e1 (fexp64 (Z.log2 m2 + 1 + e1) - e1)) as [mrs3 e3] eqn:Hs3.
  set (N2 := Z.max (fexp64 (Z.log2 m2 + 1 + e1) - e1) 0).
  assert (HN2 : 0 ≤ N2 ≤ 1 ∧ N2 ≤ Z.log2 m2).
  { unfold N2. rewrite fexp64_eq. pose proof (Z.log2_nonneg m2). lia. }
  assert (Hm3 : shr_m mrs3 = m2 / 2 ^ N2).
  { unfold N2. rewrite <- (shr_m_spec m2 e1) by lia. by rewrite Hs3. }
  assert (He3 : e3 = e1 + N2).
  { unfold N2. rewrite <- (shr_exp (Build_shr_record m2 false false)). by rewrite Hs3. }
  assert (Hp3 : 0 < shr_m mrs3) by (rewrite Hm3; apply div_pow2_pos; lia).
  assert (Hl3 : Z.log2 (shr_m mrs3) ≤ 53) by (rewrite Hm3, log2_div_pow2; lia).
  destruct (shr_m mrs3) as [|p|p]; try lia.
  rewrite (proj2 (Z.leb_le e3 (1024 - 53))) by lia. exists p, e3. split; [done|]. split; lia.
Qed.

Lemma f64_of_Z_finite z :
  z ≠ 0 → - 2 ^ 64 < z < 2 ^ 64 →
  ∃ m e, f64_of_Z z = S754_finite (z <? 0) m e ∧ -52 ≤ e ≤ 12 ∧ Z.log2 (Z.pos m) ≤ 53.
Proof.
  intros Hz Hr.
  assert (∀ p s, Z.pos p < 2 ^ 64 → ∃ m e, binary_round 53 1024 s p 0 = S754_finite s m e ∧
            -52 ≤ e ≤ 12 ∧ Z.log2 (Z.pos m) ≤ 53) as H.
  { intros p s Hp. assert (HL : 0 ≤ Z.log2 (Z.pos p) < 64).
    { split; [apply Z.log2_nonneg|]. by apply Z.log2_lt_pow2. }
    unfold binary_round. rewrite digits2_log2, fexp64_eq, Z.add_0_r.
    destruct (decide (Z.log2 (Z.pos p) ≤ 52)).
    - destruct (shl_align_le p 0 (Z.max (Z.log2 (Z.pos p) + 1 - 53) (-1074))) as (mx & -> & Hmx); [lia|].
      replace (Z.max (Z.log2 (Z.pos p) + 1 - 53) (-1074)) with (Z.log2 (Z.pos p) - 52) in * by lia.
      assert (Z.log2 (Z.pos mx) = 52) by (rewrite Hmx, log2_mul_pow2_pos; lia).
      destruct (round_aux_finite s (Z.pos mx) (Z.log2 (Z.pos p) - 52) loc_Exact) as (m & e & -> & He & Hm); [lia..|].
      exists m, e. split; [done|lia].
    - unfold shl_align. destruct (_ - 0) as [|q|q] eqn:Hq; [lia| |lia].
      destruct (round_aux_finite s (Z.pos p) 0 loc_Exact) as (m & e & -> & He & Hm); [lia..|].
      exists m, e. split; [done|lia]. }
  unfold f64_of_Z, binary_normalize. destruct z as [|p|p]; [done| |]; simpl; apply H; lia.
Qed.

Lemma f64_div_nonzero s1 m1 e1 s2 m2 e2 :
  -100 ≤ e1 ≤ 100 → -100 ≤ e2 ≤ 100 → Z.log2 (Z.pos m1) ≤ 100 → Z.log2 (Z.pos m2) ≤ 100 →
  f64_is_zero (f64_div (S754_finite s1 m1 e1) (S754_finite s2 m2 e2)) = false.
Proof.
  intros He1 He2 HL1 HL2. unfold f64_div, SFdiv, SFdiv_core_binary.
  rewrite !Zdigits2_log2 by lia. rewrite fexp64_eq.
  pose proof (Z.log2_nonneg (Z.pos m1)). pose proof (Z.log2_nonneg (Z.pos m2)).
  set (e' := Z.min _ _). set (t := e1 - e2 - e').
  assert (He' : -400 ≤ e' ≤ 400) by (unfold e'; lia).
  assert (Ht : 0 ≤ t ∧ Z.log2 (Z.pos m2) + 53 ≤ Z.log2 (Z.pos m1) + t ∧ t ≤ 300)
    by (unfold t, e'; lia).
  assert (Hm' : match t with Z0 => Z.pos m1 | Z.pos _ => Z.shiftl (Z.pos m1) t | Z.neg _ => 0 end
                = Z.pos m1 * 2 ^ t).
  { destruct t as [|p|p]; [lia|by rewrite Z.shiftl_mul_pow2 by lia|lia]. }
  rewrite Hm'. set (a := Z.pos m1 * 2 ^ t).
  assert (Hla : Z.log2 a = Z.log2 (Z.pos m1) + t) by (apply log2_mul_pow2_pos; lia).
  assert (Ha : 0 < a) by (apply Z.mul_pos_pos; [lia|apply Z.pow_pos_nonneg; lia]).
  assert (Hq : 0 < a / Z.pos m2).
  { apply Z.div_str_pos. split; [lia|]. apply Z.lt_le_incl, Z.log2_lt_cancel. lia. }
  assert (Hlq : Z.log2 (a / Z.pos m2) ≤ 400).
  { etransitivity; [apply (Z.log2_le_mono _ a)|lia]. apply Z.div_le_upper_bound; nia. }
  unfold Z.div in *. destruct (Z.div_eucl a (Z.pos m2)) as [q r].
  destruct (round_aux_finite (xorb s1 s2) q e' (new_location (Z.pos m2) r)) as (m & e & -> & _);
    [lia..|done].
Qed.
