(* ===== verification/TokenBucket.v ===== *)
(** * tools/rate_limiter: the token bucket and its driver.

    Time is in the unit of the caller's [now] ([uint64_t]); permits are
    [double].  The mutex of [Aquire] makes each call atomic, so a history of the
    limiter is a sequence of calls. *)
From Stdlib Require Import SpecFloat.
From S2P Require Import Prelude CInt Float64.

(** [class TokenBucketRateLimiter] *)
Record limiter : Type := Limiter {
  interval_ : f64;
  max_permits_ : f64;
  stored_permits_ : f64;
  next_free_ : Z;
}.

#[export] Instance limiter_eq_dec : EqDecision limiter.
Proof. intros x y. unfold Decision. repeat decide equality. Defined.

Definition TokenBucketRateLimiter : limiter :=
  let max_permits := f64_of_Z 1 in
  Limiter (f64_div (f64_of_Z 1000000) max_permits) max_permits (f64_of_Z 1) 0.

Definition Init (timewindow : Z) (max_permits : f64) (s : limiter) : res limiter :=
  let max' := if f64_le max_permits f64_zero then f64_of_Z 1 else max_permits in
  w ← imul timewindow 1000;
  mret (Limiter (f64_div (f64_of_Z w) max_permits) max' max' (next_free_ s)).

Definition Sync (now : Z) (s : limiter) : limiter :=
  if next_free_ s <? now then
    let step := f64_div (f64_of_Z (to_u64 (now - next_free_ s))) (interval_ s) in
    Limiter (interval_ s) (max_permits_ s)
      (f64_min (max_permits_ s) (f64_add (stored_permits_ s) step)) now
  else s.

(** Returns the wait as the signed count of a [microseconds] duration. *)
Definition ClaimNext (permits : f64) (now : Z) (s : limiter) : res (Z * limiter) :=
  let s := Sync now s in
  let wait := to_u64 (next_free_ s - now) in
  let stored := f64_min permits (stored_permits_ s) in
  let fresh := f64_sub permits stored in
  next_free ← f64_to_u64 (f64_mul fresh (interval_ s));
  mret (to_i64 wait,
        Limiter (interval_ s) (max_permits_ s)
          (f64_sub (stored_permits_ s) stored) (to_u64 (next_free_ s + next_free))).

Definition Aquire (permits : f64) (now : Z) (s : limiter) : res (Z * limiter) :=
  '(wait_time, s) ← ClaimNext permits now s;
  let b := f64_is_zero (f64_div (f64_of_Z wait_time) (f64_of_Z 1000)) in
  mret ((if b then 1 else 0), s).

Definition GetRate (s : limiter) : f64 := max_permits_ s.

(** ** main.cc *)

(** [OrderRequest]: the [int] given becomes an [unsigned int]. *)
Definition OrderRequest (reqt : Z) : Z := to_u32 reqt.

Definition OrderController (timeWindow upperLimit : Z) : res limiter :=
  Init timeWindow (f64_of_Z upperLimit) TokenBucketRateLimiter.

(** [allow]: the product is computed in [unsigned int], then widened. *)
Definition allow (order : Z) (s : limiter) : res (bool * limiter) :=
  '(ret, s) ← Aquire (f64_of_Z 1) (to_u64 (to_u32 (order * 1000))) s;
  mret (negb (ret =? 0), s).

Fixpoint allow_all (orders : list Z) (s : limiter) : res (list bool * limiter) :=
  match orders with
  | [] => mret ([], s)
  | o :: orders =>
      '(b, s) ← allow (OrderRequest o) s;
      '(bs, s) ← allow_all orders s;
      mret (b :: bs, s)
  end.

Definition limiter_main : res (list bool) :=
  oc ← OrderController 3 1;
  '(bs, _) ← allow_all [1; 4; 1; 3; 5; 6; 7; 8; 9; 10; 1] oc;
  mret bs.

(** ** Lemmas *)
Lemma f64_wait_zero w :
  INT64_MIN ≤ w ≤ INT64_MAX →
  f64_is_zero (f64_div (f64_of_Z w) (f64_of_Z 1000)) = (w =? 0).
Proof.
  intros Hw. destruct (Z.eqb_spec w 0) as [->|Hne]; [done|].
  destruct (f64_of_Z_finite w) as (m & e & -> & He & Hm); [done|int_lia|].
  rewrite (f64_of_Z_exact 1000) by done. apply f64_div_nonzero; try lia; vm_compute; done.
Qed.

Lemma to_i64_zero w : 0 ≤ w ≤ UINT64_MAX → (to_i64 w =? 0) = (w =? 0).
Proof.
  intros Hw. apply eq_true_iff_eq. rewrite !Z.eqb_eq. unfold to_i64. split; [|by intros ->].
  pose proof (Z.div_mod (w + 2 ^ 63) (2 ^ 64) ltac:(lia)).
  assert ((w + 2 ^ 63) / 2 ^ 64 = 0 ∨ (w + 2 ^ 63) / 2 ^ 64 = 1) as [Hd|Hd]; [|int_lia..].
  pose proof (Z.mod_pos_bound (w + 2 ^ 63) (2 ^ 64) ltac:(lia)). int_lia.
Qed.

Lemma to_i64_range w : INT64_MIN ≤ to_i64 w ≤ INT64_MAX.
Proof. unfold to_i64. pose proof (Z.mod_pos_bound (w + 2 ^ 63) (2 ^ 64) ltac:(lia)). int_lia. Qed.

Definition u64 (z : Z) : Prop := 0 ≤ z ≤ UINT64_MAX.

Lemma Sync_next_free now s : next_free_ (Sync now s) = Z.max (next_free_ s) now.
Proof. unfold Sync. destruct (Z.ltb_spec (next_free_ s) now); simpl; lia. Qed.

Lemma Sync_config now s :
  interval_ (Sync now s) = interval_ s ∧ max_permits_ (Sync now s) = max_permits_ s.
Proof. unfold Sync. by destruct (_ <? _). Qed.

(** What a successful claim returns and leaves behind. *)
Lemma ClaimNext_inv permits now s w s' :
  u64 now → u64 (next_free_ s) → ClaimNext permits now s = Ok (w, s') →
  let fresh := f64_sub permits (f64_min permits (stored_permits_ (Sync now s))) in
  ∃ cost, f64_to_u64 (f64_mul fresh (interval_ s)) = Ok cost ∧
    w = to_i64 (Z.max (next_free_ s - now) 0) ∧
    next_free_ s' = to_u64 (Z.max (next_free_ s) now + cost) ∧
    interval_ s' = interval_ s ∧ max_permits_ s' = max_permits_ s.
Proof.
  intros Hnow Hnf Hc fresh. unfold ClaimNext in Hc.
  destruct (Sync_config now s) as [Hi Hm]. rewrite Hi, Hm, Sync_next_free in Hc. fold fresh in Hc.
  destruct (f64_to_u64 (f64_mul fresh (interval_ s))) as [cost|]; [|done].
  simpl in Hc. injection Hc as <- <-. exists cost. split_and!; try done.
  f_equal. replace (Z.max (next_free_ s) now - now) with (Z.max (next_free_ s - now) 0) by lia.
  apply to_u64_id. unfold u64 in *. lia.
Qed.

Lemma Aquire_grant permits now s r s' :
  u64 now → u64 (next_free_ s) → Aquire permits now s = Ok (r, s') →
  r = if next_free_ s <=? now then 1 else 0.
Proof.
  intros Hnow Hnf Ha. unfold Aquire in Ha.
  destruct (ClaimNext permits now s) as [[w s1]|] eqn:Hc; [|done].
  destruct (ClaimNext_inv _ _ _ _ _ Hnow Hnf Hc) as (cost & _ & -> & _).
  simpl in Ha. rewrite f64_wait_zero in Ha by apply to_i64_range.
  rewrite to_i64_zero in Ha by (unfold u64 in *; lia). injection Ha as <- _.
  destruct (Z.leb_spec (next_free_ s) now), (Z.eqb_spec (Z.max (next_free_ s - now) 0) 0); lia.
Qed.

(** ** A drained bucket with an integral period *)
Definition drained (P nf : Z) (mx : f64) : limiter := Limiter (f64_of_Z P) mx f64_zero nf.

Lemma drained_claim P nf mx now :
  0 < P → P < 2 ^ 53 → u64 now → u64 nf → nf + P ≤ UINT64_MAX → now ≤ nf →
  ClaimNext (f64_of_Z 1) now (drained P nf mx) = Ok (to_i64 (nf - now), drained P (nf + P) mx).
Proof.
  intros HP HPm Hnow Hnf Hwrap Hle. unfold ClaimNext, Sync. simpl next_free_.
  destruct (Z.ltb_spec nf now); [lia|]. simpl stored_permits_.
  change (f64_sub (f64_of_Z 1) (f64_min (f64_of_Z 1) f64_zero)) with (f64_of_Z 1).
  simpl interval_. rewrite f64_mul_exact by lia. rewrite Z.mul_1_l.
  unfold f64_to_u64. rewrite f64_trunc_of_Z by lia.
  rewrite (proj2 (Z.leb_le 0 P)), (proj2 (Z.leb_le P UINT64_MAX)) by (unfold u64 in *; lia). simpl.
  rewrite !to_u64_id by (unfold u64 in *; lia).
  done.
Qed.

(** One more claim of a single permit per element of [nows]. *)
Fixpoint acquire_all (nows : list Z) (s : limiter) : res (list Z * limiter) :=
  match nows with
  | [] => mret ([], s)
  | now :: nows =>
      '(r, s) ← Aquire (f64_of_Z 1) now s;
      '(rs, s) ← acquire_all nows s;
      mret (r :: rs, s)
  end.

(** ** Properties *)

(** C39: A request is granted ([Aquire] returns 1) exactly when the bucket is
    not in debt at [now], that is when [next_free_ <= now]; the detour through
    a [microseconds] count and a [double] division never turns a pending wait
    into a grant, whatever the permits asked. *)
Theorem aquire_grants_iff permits now s r s' :
  u64 now → u64 (next_free_ s) → Aquire permits now s = Ok (r, s') →
  r = (if next_free_ s <=? now then 1 else 0) ∧
  ∃ cost, f64_to_u64 (f64_mul (f64_sub permits (f64_min permits (stored_permits_ (Sync now s))))
                        (interval_ s)) = Ok cost ∧
    next_free_ s' = to_u64 (Z.max (next_free_ s) now + cost).
Proof.
  intros Hnow Hnf Ha. split; [by eapply Aquire_grant|]. unfold Aquire in Ha.
  destruct (ClaimNext permits now s) as [[w s1]|] eqn:Hc; [|done].
  destruct (ClaimNext_inv _ _ _ _ _ Hnow Hnf Hc) as (cost & Hcost & _ & Hn & _).
  simpl in Ha. injection Ha as _ <-. by exists cost.
Qed.

Lemma aquire_grants_iff_witness :
  let s := drained 3000 7000 (f64_of_Z 1) in
  (0 : Z) = (if next_free_ s <=? 3000 then 1 else 0) ∧
  ∃ cost, f64_to_u64 (f64_mul (f64_sub (f64_of_Z 1) (f64_min (f64_of_Z 1)
              (stored_permits_ (Sync 3000 s)))) (interval_ s)) = Ok cost ∧
    10000 = to_u64 (Z.max (next_free_ s) 3000 + cost).
Proof.
  apply (aquire_grants_iff (f64_of_Z 1) 3000 (drained 3000 7000 (f64_of_Z 1)) 0
           (drained 3000 10000 (f64_of_Z 1))); vm_compute; (split; discriminate) || reflexivity.
Defined.

(** C40: Refused requests are charged too.  On a drained bucket whose period is
    a whole number [P] of time units, every request made before [next_free_] is
    refused and moves [next_free_] a full period further, so [n] of them delay
    the next grant by [n * P]: a client that retries once per period or faster
    is refused forever. *)
Theorem refusals_push_window P mx nows nf :
  0 < P → P < 2 ^ 53 → u64 nf → nf + P * Z.of_nat (length nows) ≤ UINT64_MAX →
  Forall (λ now, 0 ≤ now < nf) nows →
  acquire_all nows (drained P nf mx)
  = Ok (replicate (length nows) 0, drained P (nf + P * Z.of_nat (length nows)) mx).
Proof.
  intros HP HPm Hnf Hwrap Hnows. revert nf Hnf Hwrap Hnows.
  induction nows as [|now nows IH]; intros nf Hnf Hwrap Hnows.
  { simpl. by rewrite Z.mul_0_r, Z.add_0_r. }
  apply Forall_cons in Hnows as [Hnow Hnows]. simpl length in *. rewrite Nat2Z.inj_succ in *.
  cbn [acquire_all]. unfold Aquire. rewrite drained_claim by (unfold u64 in *; nia). simpl.
  rewrite f64_wait_zero by apply to_i64_range. rewrite to_i64_zero by (unfold u64 in *; lia).
  destruct (Z.eqb_spec (nf - now) 0); [lia|].
  rewrite IH; simpl; [|unfold u64 in *; nia|nia|].
  - by replace (nf + P + P * Z.of_nat (length nows)) with (nf + P * Z.succ (Z.of_nat (length nows))) by lia.
  - eapply Forall_impl; [done|]. simpl. lia.
Qed.

Lemma refusals_push_window_witness :
  acquire_all [1000; 3000; 5000] (drained 3000 7000 (f64_of_Z 1))
  = Ok ([0; 0; 0], drained 3000 16000 (f64_of_Z 1)).
Proof.
  apply (refusals_push_window 3000 (f64_of_Z 1) [1000; 3000; 5000] 7000);
    try (vm_compute; (split; discriminate) || discriminate || reflexivity).
  repeat constructor; discriminate.
Defined.

(** Refilling never overfills: after [Sync] the stored permits are not
    above a capacity that is a number, and [next_free_] is the later of its old
    value and [now]. *)
Theorem sync_bounds now s :
  f64_le (max_permits_ s) (max_permits_ s) = true →
  f64_le (stored_permits_ s) (max_permits_ s) = true →
  f64_le (stored_permits_ (Sync now s)) (max_permits_ (Sync now s)) = true ∧
  next_free_ (Sync now s) = Z.max (next_free_ s) now.
Proof.
  intros Hmax Hst. split; [|apply Sync_next_free].
  unfold Sync. destruct (next_free_ s <? now); simpl; [|done].
  unfold f64_min. destruct (f64_lt _ _) eqn:Hlt; [|done].
  revert Hlt. unfold f64_lt, f64_le, SFltb, SFleb. by destruct (SFcompare _ _) as [[]|].
Qed.

Lemma sync_bounds_witness :
  let s := Limiter (f64_of_Z 3000) (f64_of_Z 1) f64_zero 1000 in
  f64_le (stored_permits_ (Sync 9000 s)) (f64_of_Z 1) = true ∧ next_free_ (Sync 9000 s) = 9000.
Proof.
  apply (sync_bounds 9000 (Limiter (f64_of_Z 3000) (f64_of_Z 1) f64_zero 1000)); reflexivity.
Defined.

(** [Init] guards the capacity against [max_permits <= 0] but divides by
    the raw argument: with [max_permits] zero the period is infinite, and the
    first claim the stored permits do not cover converts infinity to
    [uint64_t], which is undefined. *)
Theorem init_zero_permits timewindow s0 s now permits :
  0 < timewindow ≤ 2000000 → 0 < permits < 2 ^ 53 → Init timewindow f64_zero s0 = Ok s →
  max_permits_ s = f64_of_Z 1 ∧ interval_ s = S754_infinity false ∧
  ∀ mx nf, now ≤ nf →
    ClaimNext (f64_of_Z permits) now (Limiter (interval_ s) mx f64_zero nf) = Err BadCast.
Proof.
  intros Htw Hp Hs. unfold Init, imul in Hs.
  assert (Hc : chk32 (timewindow * 1000) = Ok (timewindow * 1000)).
  { apply wp_eq, wp_chk32; [int_lia|done]. }
  rewrite Hc in Hs. simpl in Hs. injection Hs as <-. simpl.
  assert (Hi : f64_div (f64_of_Z (timewindow * 1000)) f64_zero = S754_infinity false).
  { rewrite f64_of_Z_exact by lia. done. }
  split; [done|]. split; [done|]. intros mx nf Hle.
  unfold ClaimNext, Sync. simpl. destruct (Z.ltb_spec nf now); [lia|]. simpl. rewrite Hi.
  assert (Hf : f64_sub (f64_of_Z permits) (f64_min (f64_of_Z permits) f64_zero) = f64_of_Z permits).
  { rewrite f64_of_Z_exact by lia. done. }
  rewrite Hf, f64_of_Z_exact by lia. done.
Qed.

Lemma init_zero_permits_witness :
  let s := Limiter (S754_infinity false) (f64_of_Z 1) (f64_of_Z 1) 0 in
  max_permits_ s = f64_of_Z 1 ∧ interval_ s = S754_infinity false ∧
  ∀ mx nf, 1000 ≤ nf →
    ClaimNext (f64_of_Z 1) 1000 (Limiter (interval_ s) mx f64_zero nf) = Err BadCast.
Proof. apply (init_zero_permits 3 TokenBucketRateLimiter); [lia|lia|reflexivity]. Defined.

(** The run of main.cc answers as its comments say: with one permit per
    3 ms window the requests at 1 ms and 4 ms pass and the nine later ones are
    refused. *)
Theorem limiter_main_output :
  limiter_main = Ok ([true; true] ++ replicate 9 false).
Proof. vm_compute. reflexivity. Qed.
