(* ===== verification/TimerStamp.v ===== *)
(** * timerfd/timer_stamp.h, timer.h, timer.cpp: time stamps and timers.

    A [TimerStamp] is its only field, [micro_seconds_since_epoch_] ([int64_t]). *)
From Stdlib Require Import SpecFloat.
From S2P Require Import Prelude CInt Float64.

Definition kMicroSecondsPerSecond : Z := 1000 * 1000.

Definition Invalid : Z := 0.
Definition Valid (t : Z) : bool := 0 <? t.

(** [operator<] and [operator==] on stamps. *)
Definition stamp_lt (lhs rhs : Z) : bool := lhs <? rhs.
Definition stamp_eq (lhs rhs : Z) : bool := lhs =? rhs.

Definition TimeDifference (high low : Z) : res f64 :=
  diff ← lsub high low;
  mret (f64_div (f64_of_Z diff) (f64_of_Z kMicroSecondsPerSecond)).

Definition AddTime (timestamp : Z) (seconds : f64) : res Z :=
  delta ← f64_to_i64 (f64_mul seconds (f64_of_Z kMicroSecondsPerSecond));
  ladd timestamp delta.

(** [class Timer]; the callback, user code, is a name. *)
Record Timer : Type := MkTimer {
  callback_ : Z;
  expiration_ : Z;
  interval_ : f64;
  repeat_ : bool;
  sequence_ : Z;
}.

(** The constructor, given the value of [num_created_] it increments. *)
Definition new_Timer (cb when : Z) (interval : f64) (num_created : Z) : Timer :=
  MkTimer cb when interval (f64_lt f64_zero interval) num_created.

Definition ReStart (NowTime : Z) (t : Timer) : res Timer :=
  e ← (if repeat_ t then AddTime NowTime (interval_ t) else mret Invalid);
  mret (MkTimer (callback_ t) e (interval_ t) (repeat_ t) (sequence_ t)).

(** ** Lemmas *)
Lemma AddTime_of_seconds t n :
  0 ≤ n → n * kMicroSecondsPerSecond < 2 ^ 53 → 0 ≤ t ≤ 2 ^ 62 →
  AddTime t (f64_of_Z n) = Ok (t + n * kMicroSecondsPerSecond).
Proof.
  unfold kMicroSecondsPerSecond. intros Hn Hlt Ht. unfold AddTime, f64_to_i64.
  assert (Hm : f64_trunc (f64_mul (f64_of_Z n) (f64_of_Z kMicroSecondsPerSecond)) = Some (n * 1000000)).
  { unfold kMicroSecondsPerSecond. destruct (decide (n = 0)) as [->|]; [done|].
    rewrite f64_mul_exact by lia. apply f64_trunc_of_Z; lia. }
  rewrite Hm. unfold in_int64.
  rewrite (proj2 (Z.leb_le _ _)), (proj2 (Z.leb_le _ _)) by int_lia. simpl.
  apply wp_eq, wp_chk64; [int_lia|]. lia.
Qed.

(** ** Properties *)

(** Adding a whole number of seconds is exact: the [double] product by
    1000000 and the truncation back to [int64_t] lose nothing below 2^53
    microseconds (285 years). *)
Theorem add_time_seconds_exact t n :
  0 ≤ n → n * kMicroSecondsPerSecond < 2 ^ 53 → 0 ≤ t ≤ 2 ^ 62 →
  AddTime t (f64_of_Z n) = Ok (t + n * kMicroSecondsPerSecond).
Proof. apply AddTime_of_seconds. Qed.

Lemma add_time_seconds_exact_witness : AddTime 5 (f64_of_Z 7) = Ok 7000005.
Proof. apply (add_time_seconds_exact 5 7); lia || reflexivity. Defined.
