(* ===== verification/TimerFormat.v ===== *)
(** * timerfd/timer_stamp.cpp: time stamps as text.

    [gmtime_r] is the Gregorian calendar: [civil] computes the date of a day, and
    is proved against [day_number], the definition of the calendar. *)
From S2P Require Import Prelude CInt CArray CStdio TimerStamp.

(** ** [gmtime_r] *)
Record tm : Type := MkTm { tm_year : Z; tm_mon : Z; tm_mday : Z; tm_hour : Z; tm_min : Z; tm_sec : Z }.

(** The date (year, month from 1, day of the month) of the day [n] days after
    1970-01-01; years start in March, in cycles of 400. *)
Definition civil (n : Z) : Z * Z * Z :=
  let z := n + 719468 in
  let era := z / 146097 in
  let doe := z mod 146097 in
  let yoe := (doe - doe / 1460 + doe / 36524 - doe / 146096) / 365 in
  let doy := doe - (365 * yoe + yoe / 4 - yoe / 100) in
  let mp := (5 * doy + 2) / 153 in
  let m := if mp <? 10 then mp + 3 else mp - 9 in
  (yoe + era * 400 + (if m <=? 2 then 1 else 0), m, doy - (153 * mp + 2) / 5 + 1).

Definition gmtime_r (seconds : Z) : tm :=
  let '(y, m, d) := civil (seconds / 86400) in
  let r := seconds mod 86400 in
  MkTm (y - 1900) (m - 1) d (r / 3600) (r / 60 mod 60) (r mod 60).

(** ** The code *)
Definition ToString (t : Z) : list Z :=
  let seconds := Z.quot t kMicroSecondsPerSecond in
  let microseconds := Z.rem t kMicroSecondsPerSecond in
  snprintf 32 (fmt_d false 0 seconds ++ [46] ++ fmt_d true 6 microseconds).

Definition ToFormattedString (showMicroseconds : bool) (t : Z) : list Z :=
  let seconds := Z.quot t kMicroSecondsPerSecond in
  let tm_time := gmtime_r seconds in
  let date := fmt_d false 4 (tm_year tm_time + 1900) ++ fmt_d true 2 (tm_mon tm_time + 1) ++
              fmt_d true 2 (tm_mday tm_time) ++ [32] ++ fmt_d true 2 (tm_hour tm_time) ++ [58] ++
              fmt_d true 2 (tm_min tm_time) ++ [58] ++ fmt_d true 2 (tm_sec tm_time) in
  if showMicroseconds then
    let microseconds := Z.rem t kMicroSecondsPerSecond in
    snprintf 64 (date ++ [46] ++ fmt_d true 6 microseconds)
  else snprintf 64 date.

(** ** The calendar *)
Definition leap (y : Z) : bool := (y mod 4 =? 0) && (negb (y mod 100 =? 0) || (y mod 400 =? 0)).
Definition month_length (lp : bool) (m : Z) : Z :=
  if m =? 2 then (if lp then 29 else 28)
  else if (m =? 4) || (m =? 6) || (m =? 9) || (m =? 11) then 30 else 31.
Definition valid_date (y m d : Z) : bool := (1 <=? m) && (m <=? 12) && (1 <=? d) && (d <=? month_length (leap y) m).

(** Days before a month, before a year (from the year 1), since 1970-01-01. *)
Fixpoint days_before_month (lp : bool) (k : nat) : Z :=
  match k with O => 0 | S k => days_before_month lp k + month_length lp (Z.of_nat k + 1) end.
Definition days_before_year (y : Z) : Z := 365 * (y - 1) + (y - 1) / 4 - (y - 1) / 100 + (y - 1) / 400.
Definition day_number (y m d : Z) : Z :=
  days_before_year y + days_before_month (leap y) (Z.to_nat (m - 1)) + (d - 1) - days_before_year 1970.

Lemma month_length_max lp m : month_length lp m ≤ 31.
Proof. unfold month_length. repeat case_match; lia. Qed.

Lemma leap_days y : Z.b2z (leap y) = y / 4 - (y - 1) / 4 - (y / 100 - (y - 1) / 100) + (y / 400 - (y - 1) / 400).
Proof.
  unfold leap. destruct (Z.eqb_spec (y mod 4) 0), (Z.eqb_spec (y mod 100) 0), (Z.eqb_spec (y mod 400) 0);
    cbn [negb andb orb Z.b2z]; Z.to_euclidean_division_equations; lia.
Qed.

(** The year of a cycle, and the day in it (from March 1). *)
Lemma year_of_era doe : 0 ≤ doe < 146097 → let y := (doe - doe / 1460 + doe / 36524 - doe / 146096) / 365 in
  0 ≤ y ≤ 399 ∧ 0 ≤ doe - (365 * y + y / 4 - y / 100) ≤
    364 + ((y + 1) / 4 - y / 4 - (y + 1) / 100 + y / 100 + (y + 1) / 400).
Proof. intros H y. unfold y. split_and!; Z.to_euclidean_division_equations; lia. Qed.

(** [f] holds of the [k] integers from [n] on. *)
Fixpoint all_from (f : Z → bool) (k : nat) (n : Z) : bool :=
  match k with O => true | S k => if f n then all_from f k (n + 1) else false end.

Lemma all_from_spec f k n : all_from f k n = true → ∀ x, n ≤ x < n + Z.of_nat k → f x = true.
Proof.
  revert n. induction k as [|k IH]; intros n Ha x Hx; [lia|]. cbn [all_from] in Ha.
  destruct (f n) eqn:Hf; [|done]. destruct (decide (x = n)) as [->|]; [done|]. apply (IH (n + 1) Ha). lia.
Qed.

(** The month and the day of a day counted from March 1: before January, in the
    same calendar year ([a]: is it a leap year); from January on, in the next one
    ([b]).  By computation on the 366 days. *)
Definition month_ok (a b : bool) (doy : Z) : bool :=
  let mp := (5 * doy + 2) / 153 in
  let m := if mp <? 10 then mp + 3 else mp - 9 in
  let d := doy - (153 * mp + 2) / 5 + 1 in
  let lp := if mp <? 10 then a else b in
  (1 <=? m) && (m <=? 12) && (1 <=? d) && (d <=? month_length lp m) && (Bool.eqb (m <=? 2) (10 <=? mp)) &&
  (days_before_month lp (Z.to_nat (m - 1)) + (d - 1) =? (if mp <? 10 then doy + 59 + Z.b2z a else doy - 306)).

Lemma month_of_year a b doy : 0 ≤ doy ≤ 364 + Z.b2z b → month_ok a b doy = true.
Proof.
  intros Hd. apply (all_from_spec _ (Z.to_nat (365 + Z.b2z b)) 0); [by destruct a, b|].
  destruct b; cbn [Z.b2z] in *; lia.
Qed.

Lemma civil_correct n : let '(y, m, d) := civil n in valid_date y m d = true ∧ day_number y m d = n.
Proof.
  unfold civil. set (z := n + 719468). pose proof (Z.div_mod z 146097 ltac:(lia)) as Hz.
  pose proof (Z.mod_pos_bound z 146097 ltac:(lia)) as Hdoe. set (doe := z mod 146097) in *. set (era := z / 146097) in *.
  destruct (year_of_era doe Hdoe) as [Hy Hdoy]. set (yoe := (doe - _ + _ - _) / 365) in *.
  set (doy := doe - (365 * yoe + yoe / 4 - yoe / 100)) in *. set (Y := yoe + era * 400).
  pose proof (leap_days Y) as Ha. pose proof (leap_days (Y + 1)) as Hb. replace (Y + 1 - 1) with Y in Hb by lia.
  assert (Hq : Y / 4 = yoe / 4 + 100 * era ∧ Y / 100 = yoe / 100 + 4 * era ∧ Y / 400 = era ∧
    (Y + 1) / 4 = (yoe + 1) / 4 + 100 * era ∧ (Y + 1) / 100 = (yoe + 1) / 100 + 4 * era ∧
    (Y + 1) / 400 = (yoe + 1) / 400 + era).
  { unfold Y. clear -Hy. split_and!; Z.to_euclidean_division_equations; lia. }
  pose proof (month_of_year (leap Y) (leap (Y + 1)) doy ltac:(lia)) as Hm. unfold month_ok in Hm.
  unfold valid_date, day_number. change (days_before_year 1970) with 719162.
  assert (Hn : n = 365 * Y + Y / 4 - Y / 100 + Y / 400 + doy - 719468)
    by (unfold z in Hz; unfold doy; assert (HY : Y = yoe + era * 400) by done; lia).
  clearbody doy Y. set (d := doy - _ + 1) in *. destruct (Z.ltb_spec ((5 * doy + 2) / 153) 10) as [Hmp|Hmp].
  - set (m := (5 * doy + 2) / 153 + 3) in *. replace (m <=? 2) with false in * by (symmetry; apply Z.leb_gt; unfold m; Z.to_euclidean_division_equations; lia).
    rewrite Z.add_0_r. apply andb_true_iff in Hm as [Hm Hd]. apply andb_true_iff in Hm as [Hm _]. rewrite Hm.
    apply Z.eqb_eq in Hd. split; [done|]. unfold days_before_year. lia.
  - set (m := (5 * doy + 2) / 153 - 9) in *. apply andb_true_iff in Hm as [Hm Hd]. apply andb_true_iff in Hm as [Hm H2].
    apply eqb_prop in H2. rewrite (proj2 (Z.leb_le 10 _) Hmp) in H2. rewrite H2, Hm.
    apply Z.eqb_eq in Hd. split; [done|]. unfold days_before_year. rewrite !Z.add_simpl_r. lia.
Qed.

(** ** Properties *)

(** The time a broken-down time stands for. *)
Definition tm_valid (t : tm) : Prop :=
  valid_date (tm_year t + 1900) (tm_mon t + 1) (tm_mday t) = true ∧
  0 ≤ tm_hour t < 24 ∧ 0 ≤ tm_min t < 60 ∧ 0 ≤ tm_sec t < 60.
Definition timegm (t : tm) : Z :=
  day_number (tm_year t + 1900) (tm_mon t + 1) (tm_mday t) * 86400 + tm_hour t * 3600 + tm_min t * 60 + tm_sec t.

Lemma gmtime_correct seconds : tm_valid (gmtime_r seconds) ∧ timegm (gmtime_r seconds) = seconds.
Proof.
  unfold gmtime_r, tm_valid, timegm. pose proof (civil_correct (seconds / 86400)) as Hc.
  destruct (civil (seconds / 86400)) as [[y m] d]. destruct Hc as [Hv Hd].
  cbn [tm_year tm_mon tm_mday tm_hour tm_min tm_sec].
  replace (y - 1900 + 1900) with y by lia. replace (m - 1 + 1) with m by lia. rewrite Hv, Hd.
  clear. split_and!; try done; Z.to_euclidean_division_equations; lia.
Qed.

(** Reading the two texts back. *)
Definition read_stamp (s : list Z) : Z :=
  let k := (length s - 7)%nat in dval (take k s) * 1000000 + dval (drop (S k) s).
Definition field (i n : nat) (s : list Z) : Z := dval (take n (drop i s)).
Definition read_formatted (s : list Z) : Z :=
  timegm (MkTm (field 0 4 s - 1900) (field 4 2 s - 1) (field 6 2 s) (field 9 2 s) (field 12 2 s) (field 15 2 s))
    * 1000000 + field 18 6 s.

Ltac spell l H := repeat (destruct l as [|? l]; simpl in H; try lia); clear H.

Lemma read_fields Y M D h mi s us : length Y = 4%nat → length M = 2%nat → length D = 2%nat → length h = 2%nat →
  length mi = 2%nat → length s = 2%nat → length us = 6%nat →
  read_formatted (take (64 - 1) ((Y ++ M ++ D ++ [32] ++ h ++ [58] ++ mi ++ [58] ++ s) ++ [46] ++ us)) =
  timegm (MkTm (dval Y - 1900) (dval M - 1) (dval D) (dval h) (dval mi) (dval s)) * 1000000 + dval us.
Proof.
  intros H1 H2 H3 H4 H5 H6 H7. spell Y H1. spell M H2. spell D H3. spell h H4. spell mi H5. spell s H6. spell us H7.
  reflexivity.
Qed.

(** The text of a stamp from 1970 on, however large, is not cut by its
    32-byte buffer and determines the stamp; a negative stamp gets a sign in its
    microseconds (and within the first second only there). *)
Theorem to_string_exact t : INT64_MIN ≤ t ≤ INT64_MAX →
  (0 ≤ t → read_stamp (ToString t) = t) ∧
  (-1000000 < t < 0 → ∃ ds, ToString t = [48; 46; 45] ++ ds ∧ dval ds = - t).
Proof.
  intros Ht. unfold ToString, snprintf, kMicroSecondsPerSecond. split; intros Hs.
  - rewrite Z.quot_div_nonneg, Z.rem_mod_nonneg by lia. set (q := t / (1000 * 1000)). set (r := t mod (1000 * 1000)).
    assert (Hr : 0 ≤ r < 10 ^ Z.of_nat 6) by (unfold r; apply Z.mod_pos_bound; lia).
    assert (Hq : 0 ≤ q < 10 ^ Z.of_nat 13).
    { unfold q. split; [apply Z.div_pos; lia|]. apply Z.div_lt_upper_bound; [lia|int_lia]. }
    destruct (fmt_d_fixed 6 r ltac:(lia) Hr) as (Hl & Hv & _). rewrite fmt_d_unsigned by lia.
    pose proof (udec_length 20 13 q Hq ltac:(lia)) as Hlq. assert (Hq' : 0 ≤ q < 10 ^ Z.of_nat 20) by int_lia.
    rewrite take_ge by (rewrite !length_app, Hl; cbn [length]; lia).
    unfold read_stamp. rewrite !length_app, Hl. cbn [length].
    replace (length (udec 20 q) + (1 + 6) - 7)%nat with (length (udec 20 q)) by lia.
    rewrite take_app_length, dval_udec by done.
    rewrite (app_assoc _ [46]), drop_app_length' by (rewrite length_app; cbn; lia). rewrite Hv.
    unfold q, r. pose proof (Z.div_mod t (1000 * 1000) ltac:(lia)). lia.
  - replace t with (- - t) by lia. set (u := - t). rewrite Z.quot_opp_l, Z.rem_opp_l by lia.
    rewrite Z.quot_small, Z.rem_small by lia. exists (replicate (5 - length (udec 20 u)) 48 ++ udec 20 u). split.
    + change (- 0) with 0. unfold fmt_d at 2. rewrite (proj2 (Z.ltb_lt (- u) 0)) by lia.
      rewrite Z.abs_opp, Z.abs_eq by lia. change (fmt_d false 0 0) with [48].
      pose proof (udec_length 20 6 u ltac:(lia) ltac:(lia)). cbn [length app].
      rewrite take_ge; [done|]. cbn [length]. rewrite length_app, length_replicate. lia.
    + rewrite dval_app, dval_zeros, dval_udec by lia. lia.
Qed.

Lemma to_string_exact_witness : read_stamp (ToString 1700000000000042) = 1700000000000042.
Proof. apply (to_string_exact 1700000000000042); int_lia. Defined.

Lemma date_bounds seconds : 0 ≤ seconds < 253402300800 → 1000 ≤ tm_year (gmtime_r seconds) + 1900 < 10000.
Proof.
  intros Hs. unfold gmtime_r. pose proof (civil_correct (seconds / 86400)) as Hc.
  destruct (civil (seconds / 86400)) as [[y m] d]. destruct Hc as [Hv Hd]. cbn [tm_year].
  unfold valid_date, day_number in *. apply andb_true_iff in Hv as [Hv Hd2].
  apply andb_true_iff in Hv as [Hv Hd1]. apply andb_true_iff in Hv as [Hm1 Hm2].
  apply Z.leb_le in Hd1, Hd2, Hm1, Hm2. change (days_before_year 1970) with 719162 in Hd.
  assert (Hb : 0 ≤ days_before_month (leap y) (Z.to_nat (m - 1)) ≤ 335 ∧ month_length (leap y) m ≤ 31).
  { assert (Hk : (Z.to_nat (m - 1) ≤ 11)%nat) by lia. split.
    - revert Hk. generalize (Z.to_nat (m - 1)). clear. intros k Hk. do 12 (destruct k as [|k]; [by destruct (leap y)|]). lia.
    - apply month_length_max. }
  assert (0 ≤ seconds / 86400 < 2932897) by (split; [apply Z.div_pos; lia|apply Z.div_lt_upper_bound; lia]).
  unfold days_before_year in Hd. clear -Hd Hb Hd1 Hd2 H. Z.to_euclidean_division_equations; lia.
Qed.

(** C35: The formatted text of a stamp from 1970 to 9999 is the date and the time
    of the Gregorian calendar (UTC) at that stamp: reading its fields as a date
    gives the stamp back. *)
Theorem formatted_exact t : 0 ≤ t < 253402300800 * 1000000 → read_formatted (ToFormattedString true t) = t.
Proof.
  intros Ht. unfold ToFormattedString, snprintf, kMicroSecondsPerSecond.
  rewrite Z.quot_div_nonneg, Z.rem_mod_nonneg by lia. set (q := t / (1000 * 1000)). set (r := t mod (1000 * 1000)).
  assert (Hr : 0 ≤ r < 10 ^ Z.of_nat 6) by (unfold r; apply Z.mod_pos_bound; lia).
  assert (Hq : 0 ≤ q < 253402300800) by (unfold q; split; [apply Z.div_pos; lia|apply Z.div_lt_upper_bound; lia]).
  pose proof (date_bounds q Hq) as Hy. destruct (gmtime_correct q) as [(Hv & Hh & Hmi & Hs) Hg].
  destruct (gmtime_r q) as [y m d h mi s]. cbn [tm_year tm_mon tm_mday tm_hour tm_min tm_sec] in *.
  unfold valid_date in Hv. apply andb_true_iff in Hv as [Hv Hd2].
  apply andb_true_iff in Hv as [Hv Hd1]. apply andb_true_iff in Hv as [Hm1 Hm2].
  apply Z.leb_le in Hd1, Hd2, Hm1, Hm2. pose proof (month_length_max (leap (y + 1900)) (m + 1)) as Hml.
  rewrite (fmt_d_exact 4) by (lia || (cbn; lia)).
  destruct (fmt_d_fixed 4 (y + 1900)) as (L1 & V1 & _); [lia|cbn; lia|].
  destruct (fmt_d_fixed 2 (m + 1)) as (L2 & V2 & _); [lia|cbn; lia|].
  destruct (fmt_d_fixed 2 d) as (L3 & V3 & _); [lia|cbn; lia|].
  destruct (fmt_d_fixed 2 h) as (L4 & V4 & _); [lia|cbn; lia|].
  destruct (fmt_d_fixed 2 mi) as (L5 & V5 & _); [lia|cbn; lia|].
  destruct (fmt_d_fixed 2 s) as (L6 & V6 & _); [lia|cbn; lia|].
  destruct (fmt_d_fixed 6 r ltac:(lia) Hr) as (L7 & V7 & _).
  rewrite read_fields by done. rewrite V1, V2, V3, V4, V5, V6, V7.
  replace (y + 1900 - 1900) with y by lia. replace (m + 1 - 1) with m by lia. rewrite Hg.
  unfold q, r. pose proof (Z.div_mod t (1000 * 1000) ltac:(lia)). lia.
Qed.

(** 2023-11-14 22:13:20 *)
Lemma formatted_exact_witness :
  ToFormattedString true 1700000000000042 = bytes "20231114 22:13:20.000042" ∧
  read_formatted (bytes "20231114 22:13:20.000042") = 1700000000000042.
Proof.
  assert (H : ToFormattedString true 1700000000000042 = bytes "20231114 22:13:20.000042") by reflexivity.
  split; [exact H|]. rewrite <- H. apply (formatted_exact 1700000000000042). lia.
Defined.
