(* ===== verification/TimerQueue.v ===== *)
(** * timerfd/timer_queue.{h,cpp} and the timer calls of timer_loop_mgr.cpp.

    The state is everything [TimerQueue] owns: the timers on the heap (by
    address), the ordered set [timers_], the two maps by sequence number, the
    flag, and what it asked of the kernel.  What lies outside src/ is a
    parameter: the clock, the allocator, and what the user's callbacks do. *)
From S2P Require Import Prelude CInt Float64 TimerStamp.

(** ** [std::set<std::pair<TimerStamp, Timer*>>] as its ordered sequence *)
Abbreviation entry := (Z * Z)%type.

Definition entry_lt (a b : entry) : bool :=
  stamp_lt a.1 b.1 || (negb (stamp_lt b.1 a.1) && (a.2 <? b.2)).

Fixpoint set_emplace (e : entry) (l : list entry) : list entry :=
  match l with
  | [] => [e]
  | x :: l' => if entry_lt e x then e :: l
               else if entry_lt x e then x :: set_emplace e l' else l
  end.

Fixpoint set_erase (e : entry) (l : list entry) : list entry :=
  match l with
  | [] => []
  | x :: l' => if entry_lt e x then l
               else if entry_lt x e then x :: set_erase e l' else l'
  end.

(** The elements before [upper_bound(sentry)], and those from it on. *)
Fixpoint split_upper (sentry : entry) (l : list entry) : list entry * list entry :=
  match l with
  | [] => ([], [])
  | x :: l' => if entry_lt sentry x then ([], l)
               else let '(a, b) := split_upper sentry l' in (x :: a, b)
  end.

(** A [timerfd_settime]: the clock reading it was computed from and the
    [timespec] (seconds, nanoseconds) passed. *)
Record settime : Type := Settime { st_now : Z; tv_sec : Z; tv_nsec : Z }.

(** [class TimerQueue], with [Timer::num_created_], the heap of timers, the
    number of clock readings so far, the logs of [timerfd_settime] calls and of
    callbacks started (newest first), and the number of reads of the descriptor. *)
Record TimerQueue : Type := MkQueue {
  heap : gmap Z Timer;
  timers_ : list entry;
  active_timers_ : gmap Z Z;
  cancelingTimers_ : gmap Z Z;
  callingExpiredTimers_ : bool;
  num_created_ : Z;
  clock_reads : nat;
  armed : list settime;
  started : list Z;
  fd_reads : nat;
}.

(** The calls a callback can make on the timer manager. *)
Inductive call : Type :=
  | CallAtTime (time : Z) (cb : Z)
  | CallAfterTime (delay_seconds : f64) (cb : Z)
  | CallEveryTime (interval_seconds : f64) (cb : Z)
  | CallStop (timerId : Z).

(** Field updates. *)
Definition set_heap h q := MkQueue h (timers_ q) (active_timers_ q) (cancelingTimers_ q)
  (callingExpiredTimers_ q) (num_created_ q) (clock_reads q) (armed q) (started q) (fd_reads q).
Definition set_timers l a q := MkQueue (heap q) l a (cancelingTimers_ q)
  (callingExpiredTimers_ q) (num_created_ q) (clock_reads q) (armed q) (started q) (fd_reads q).
Definition set_calling b q := MkQueue (heap q) (timers_ q) (active_timers_ q) (cancelingTimers_ q)
  b (num_created_ q) (clock_reads q) (armed q) (started q) (fd_reads q).
Definition clear_canceling q := MkQueue (heap q) (timers_ q) (active_timers_ q) ∅
  (callingExpiredTimers_ q) (num_created_ q) (clock_reads q) (armed q) (started q) (fd_reads q).
Definition arm e q := MkQueue (heap q) (timers_ q) (active_timers_ q) (cancelingTimers_ q)
  (callingExpiredTimers_ q) (num_created_ q) (clock_reads q) (e :: armed q) (started q) (fd_reads q).
Definition log_start cb q := MkQueue (heap q) (timers_ q) (active_timers_ q) (cancelingTimers_ q)
  (callingExpiredTimers_ q) (num_created_ q) (clock_reads q) (armed q) (cb :: started q) (fd_reads q).
Definition count_created q := MkQueue (heap q) (timers_ q) (active_timers_ q) (cancelingTimers_ q)
  (callingExpiredTimers_ q) (to_i64 (num_created_ q + 1)) (clock_reads q) (armed q) (started q) (fd_reads q).
Definition count_read q := MkQueue (heap q) (timers_ q) (active_timers_ q) (cancelingTimers_ q)
  (callingExpiredTimers_ q) (num_created_ q) (S (clock_reads q)) (armed q) (started q) (fd_reads q).

(** [readTimerfd]: what [::read] returns is only logged. *)
Definition readTimerfd q := MkQueue (heap q) (timers_ q) (active_timers_ q) (cancelingTimers_ q)
  (callingExpiredTimers_ q) (num_created_ q) (clock_reads q) (armed q) (started q) (S (fd_reads q)).

Definition UINTPTR_MAX : Z := 2 ^ 64 - 1.

Section Queue.
(** The [n]-th reading of the system clock, in microseconds. *)
Variable clock : nat → Z.
(** The address [new Timer] returns. *)
Variable alloc : gmap Z Timer → Z.
(** What the callback [cb] does when it is the [n]-th started. *)
Variable user : nat → Z → list call.

Definition NowTime (q : TimerQueue) : Z * TimerQueue := (clock (clock_reads q), count_read q).

Definition deref (p : Z) (q : TimerQueue) : res Timer :=
  match heap q !! p with Some t => Ok t | None => Err UseAfterFree end.
Definition free (p : Z) (q : TimerQueue) : res TimerQueue :=
  _ ← deref p q; mret (set_heap (delete p (heap q)) q).

(** [assert(timers_.size() == active_timers_.size())] *)
Definition assert_sizes (q : TimerQueue) : res unit :=
  if Nat.eqb (length (timers_ q)) (size (active_timers_ q)) then Ok tt else Err AssertFailed.

Definition howMuchTimeFronNow (when : Z) (q : TimerQueue) : res (settime * TimerQueue) :=
  let '(now, q) := NowTime q in
  microseconds ← lsub when now;
  let microseconds := if microseconds <? 100 then 100 else microseconds in
  mret (Settime now (Z.quot microseconds kMicroSecondsPerSecond)
                (Z.rem microseconds kMicroSecondsPerSecond * 1000), q).

Definition resetTimerfd (Expiration : Z) (q : TimerQueue) : res TimerQueue :=
  '(ts, q) ← howMuchTimeFronNow Expiration q;
  mret (arm ts q).

Definition insert_timer (timer : Z) (q : TimerQueue) : res (bool * TimerQueue) :=
  _ ← assert_sizes q;
  t ← deref timer q;
  let when := expiration_ t in
  let earliestChanged := match timers_ q with [] => true | it :: _ => stamp_lt when it.1 end in
  let active := match active_timers_ q !! sequence_ t with
                | Some _ => active_timers_ q
                | None => <[sequence_ t := timer]> (active_timers_ q)
                end in
  let q := set_timers (set_emplace (when, timer) (timers_ q)) active q in
  _ ← assert_sizes q;
  mret (earliestChanged, q).

Definition AddTimerInLoop (timer : Z) (q : TimerQueue) : res TimerQueue :=
  '(earliestChanged, q) ← insert_timer timer q;
  if earliestChanged : bool then t ← deref timer q; resetTimerfd (expiration_ t) q else mret q.

Definition AddTimer (cb when : Z) (interval : f64) (q : TimerQueue) : res (Z * TimerQueue) :=
  let timer := alloc (heap q) in
  let t := new_Timer cb when interval (num_created_ q) in
  let q := set_heap (<[timer := t]> (heap q)) (count_created q) in
  q ← AddTimerInLoop timer q;
  t ← deref timer q;
  mret (sequence_ t, q).

(** [CancelInLoop]: in the [else if] branch [it] is [end()], and [it->second]
    dereferences it. *)
Definition CancelInLoop (timerId : Z) (q : TimerQueue) : res TimerQueue :=
  q ← match active_timers_ q !! timerId with
      | Some p =>
          t ← deref p q;
          let timers := set_erase (expiration_ t, p) (timers_ q) in
          q ← free p q;
          mret (set_timers timers (delete timerId (active_timers_ q)) q)
      | None => if callingExpiredTimers_ q then Err EndIterator else mret q
      end;
  _ ← assert_sizes q;
  mret q.

Definition StopTimer (timerId : Z) (q : TimerQueue) : res TimerQueue := CancelInLoop timerId q.

(** [TimerEventMgr::AddtimerAtTime] and its siblings. *)
Definition AddtimerAtTime (time cb : Z) (q : TimerQueue) : res (Z * TimerQueue) :=
  AddTimer cb time f64_zero q.
Definition AddtimerAfterTime (delay_seconds : f64) (cb : Z) (q : TimerQueue) : res (Z * TimerQueue) :=
  let '(now, q) := NowTime q in
  time ← AddTime now delay_seconds;
  AddtimerAtTime time cb q.
Definition AddtimerEveryTime (interval_seconds : f64) (cb : Z) (q : TimerQueue) : res (Z * TimerQueue) :=
  let '(now, q) := NowTime q in
  time ← AddTime now interval_seconds;
  AddTimer cb time interval_seconds q.

Definition exec_call (c : call) (q : TimerQueue) : res TimerQueue :=
  match c with
  | CallAtTime time cb => '(_, q) ← AddtimerAtTime time cb q; mret q
  | CallAfterTime d cb => '(_, q) ← AddtimerAfterTime d cb q; mret q
  | CallEveryTime i cb => '(_, q) ← AddtimerEveryTime i cb q; mret q
  | CallStop id => StopTimer id q
  end.

Fixpoint exec_calls (cs : list call) (q : TimerQueue) : res TimerQueue :=
  match cs with
  | [] => mret q
  | c :: cs => q ← exec_call c q; exec_calls cs q
  end.

(** [it.second->Start()]: the timer is read, its callback runs. *)
Definition Start (timer : Z) (q : TimerQueue) : res TimerQueue :=
  t ← deref timer q;
  exec_calls (user (length (started q)) (callback_ t)) (log_start (callback_ t) q).

Fixpoint start_all (expired : list entry) (q : TimerQueue) : res TimerQueue :=
  match expired with
  | [] => mret q
  | it :: expired => q ← Start it.2 q; start_all expired q
  end.

Fixpoint erase_active (expired : list entry) (q : TimerQueue) : res TimerQueue :=
  match expired with
  | [] => mret q
  | it :: expired =>
      t ← deref it.2 q;
      erase_active expired (set_timers (timers_ q) (delete (sequence_ t) (active_timers_ q)) q)
  end.

Definition GetExpired (now : Z) (q : TimerQueue) : res (list entry * TimerQueue) :=
  let sentry := (now, UINTPTR_MAX) in
  let '(expired, rest) := split_upper sentry (timers_ q) in
  q ← erase_active expired (set_timers rest (active_timers_ q) q);
  _ ← assert_sizes q;
  mret (expired, q).

Fixpoint reset_all (expired : list entry) (now : Z) (q : TimerQueue) : res TimerQueue :=
  match expired with
  | [] => mret q
  | it :: expired =>
      t ← deref it.2 q;
      q ← (if repeat_ t && bool_decide (cancelingTimers_ q !! sequence_ t = None) then
             t' ← ReStart now t;
             '(_, q) ← insert_timer it.2 (set_heap (<[it.2 := t']> (heap q)) q);
             mret q
           else free it.2 q);
      reset_all expired now q
  end.

Definition Reset (expired : list entry) (now : Z) (q : TimerQueue) : res TimerQueue :=
  q ← reset_all expired now q;
  match timers_ q with
  | [] => mret q
  | it :: _ =>
      t ← deref it.2 q;
      if Valid (expiration_ t) then resetTimerfd (expiration_ t) q else mret q
  end.

Definition HandleRead (q : TimerQueue) : res TimerQueue :=
  let '(now, q) := NowTime q in
  let q := readTimerfd q in
  '(expired, q) ← GetExpired now q;
  q ← start_all expired (clear_canceling (set_calling true q));
  Reset expired now (set_calling false q).

(** The constructor: nothing initialises the flag [callingExpiredTimers_], its
    value is the argument. *)
Definition new_TimerQueue (flag : bool) (num_created : Z) : TimerQueue :=
  MkQueue ∅ [] ∅ ∅ flag num_created 0 [] [] 0.

(** The loop of the destructor. *)
Fixpoint delete_timers (l : list entry) (q : TimerQueue) : res TimerQueue :=
  match l with
  | [] => mret q
  | timer :: l => q ← free timer.2 q; delete_timers l q
  end.
Definition destroy_TimerQueue (q : TimerQueue) : res TimerQueue := delete_timers (timers_ q) q.
End Queue.
