(* ===== verification/TimerQueueInv.v ===== *)
(** * The timer queue: well-formedness, its preservation, what each operation
    does, and what [HandleRead] guarantees. *)
From S2P Require Import Prelude CInt Float64 TimerStamp TimerQueue.

(** ** The ordered set *)
Definition lex (a b : entry) : Prop := a.1 < b.1 ∨ (a.1 = b.1 ∧ a.2 < b.2).

Lemma entry_lt_spec a b : entry_lt a b = true ↔ lex a b.
Proof.
  unfold entry_lt, lex, stamp_lt.
  destruct (Z.ltb_spec a.1 b.1), (Z.ltb_spec b.1 a.1), (Z.ltb_spec a.2 b.2); simpl; split;
    (discriminate || lia).
Qed.

Lemma entry_lt_false a b : entry_lt a b = false ↔ ¬ lex a b.
Proof. rewrite <- entry_lt_spec. by destruct (entry_lt a b). Qed.

Lemma lex_eq a b : ¬ lex a b → ¬ lex b a → a = b.
Proof. destruct a, b. unfold lex. simpl. intros. f_equal; lia. Qed.

#[export] Instance lex_trans : Transitive lex.
Proof. intros a b c. unfold lex. lia. Qed.

Lemma set_emplace_perm e l : e ∉ l → set_emplace e l ≡ₚ e :: l.
Proof.
  induction l as [|x l IH]; intros He; [done|]. simpl.
  destruct (entry_lt e x) eqn:H1; [done|]. destruct (entry_lt x e) eqn:H2.
  - rewrite IH by set_solver. apply Permutation_swap.
  - apply entry_lt_false in H1, H2. rewrite (lex_eq e x) in He by done. set_solver.
Qed.

Lemma set_emplace_elem e l y : y ∈ set_emplace e l → y = e ∨ y ∈ l.
Proof.
  induction l as [|x l IH]; simpl; [set_solver|].
  destruct (entry_lt e x); [set_solver|]. destruct (entry_lt x e); set_solver.
Qed.

Lemma set_emplace_sorted e l : StronglySorted lex l → StronglySorted lex (set_emplace e l).
Proof.
  induction 1 as [|x l Hl IH Hx]; simpl; [by repeat constructor|].
  rewrite Forall_forall in Hx.
  destruct (entry_lt e x) eqn:H1; [|destruct (entry_lt x e) eqn:H2]; [| |constructor; [done|]].
  - apply entry_lt_spec in H1. constructor; [constructor; [done|]|constructor; [done|]];
      apply Forall_forall; [done|]. intros y Hy. transitivity x; auto.
  - apply entry_lt_spec in H2. constructor; [done|]. apply Forall_forall.
    intros y [-> | Hy]%set_emplace_elem; auto.
  - by apply Forall_forall.
Qed.

Lemma set_erase_perm e l : StronglySorted lex l → e ∈ l → l ≡ₚ e :: set_erase e l.
Proof.
  induction 1 as [|x l Hl IH Hx]; [by intros ?%not_elem_of_nil|]. simpl.
  rewrite elem_of_cons. intros He. rewrite Forall_forall in Hx.
  destruct (entry_lt e x) eqn:H1; [|destruct (entry_lt x e) eqn:H2].
  - apply entry_lt_spec in H1. destruct He as [->|He]; [unfold lex in *; lia|].
    specialize (Hx _ He). unfold lex in *. lia.
  - apply entry_lt_spec in H2. destruct He as [->|He]; [unfold lex in *; lia|].
    rewrite (IH He) at 1. apply Permutation_swap.
  - apply entry_lt_false in H1, H2. by rewrite (lex_eq e x).
Qed.

Lemma StronglySorted_sublist {A} (R : relation A) (l k : list A) :
  l `sublist_of` k → StronglySorted R k → StronglySorted R l.
Proof.
  induction 1 as [|x l k Hlk IH|x l k Hlk IH]; [done| |].
  - intros [? Hf]%StronglySorted_inv. constructor; [auto|].
    rewrite Forall_forall in Hf |- *. intros y Hy. apply Hf.
    eapply elem_of_submseteq; [done|]. by apply sublist_submseteq.
  - intros [? _]%StronglySorted_inv. auto.
Qed.

Lemma set_erase_sublist e l : set_erase e l `sublist_of` l.
Proof.
  induction l as [|x l IH]; simpl; [done|].
  destruct (entry_lt e x); [done|]. destruct (entry_lt x e); [by apply sublist_skip|by apply sublist_cons].
Qed.

Lemma split_upper_spec s l a b :
  StronglySorted lex l → split_upper s l = (a, b) →
  l = a ++ b ∧ Forall (λ x, ¬ lex s x) a ∧ Forall (lex s) b.
Proof.
  intros Hl. revert a b. induction Hl as [|x l Hl IH Hx]; simpl; intros a b.
  { intros [= <- <-]. by repeat constructor. }
  destruct (entry_lt s x) eqn:H1.
  - intros [= <- <-]. apply entry_lt_spec in H1. split; [done|]. split; [constructor|].
    constructor; [done|]. eapply Forall_impl; [done|]. intros y Hy. by etransitivity.
  - apply entry_lt_false in H1. destruct (split_upper s l) as [a' b'] eqn:Hs.
    intros [= <- <-]. destruct (IH a' b' eq_refl) as (-> & ? & ?).
    split; [done|]. split; [by constructor|done].
Qed.

(** ** Well-formed queues

    [out] are the timers taken out of the containers by [GetExpired] and not
    yet put back or freed by [Reset]. *)
Definition interval_ok (i : f64) : Prop :=
  ∃ d, f64_to_i64 (f64_mul i (f64_of_Z kMicroSecondsPerSecond)) = Ok d ∧ 0 ≤ d ≤ 2 ^ 61.
Definition stamp_ok (t : Z) : Prop := 0 < t ≤ 2 ^ 62.
Definition timer_ok (t : Timer) : Prop :=
  stamp_ok (expiration_ t) ∧ repeat_ t = f64_lt f64_zero (interval_ t) ∧
  (repeat_ t = true → interval_ok (interval_ t)).

Record wf (out : list Z) (q : TimerQueue) : Prop := Wf {
  wf_sorted : StronglySorted lex (timers_ q);
  wf_nodup : NoDup ((timers_ q).*2 ++ out);
  wf_dom : ∀ p, is_Some (heap q !! p) ↔ p ∈ (timers_ q).*2 ++ out;
  wf_entry : ∀ w p, (w, p) ∈ timers_ q →
    ∃ t, heap q !! p = Some t ∧ expiration_ t = w ∧ active_timers_ q !! sequence_ t = Some p;
  wf_active : ∀ id p, active_timers_ q !! id = Some p →
    p ∈ (timers_ q).*2 ∧ ∃ t, heap q !! p = Some t ∧ sequence_ t = id;
  wf_size : length (timers_ q) = size (active_timers_ q);
  wf_seq_inj : ∀ p1 p2 t1 t2, heap q !! p1 = Some t1 → heap q !! p2 = Some t2 →
    sequence_ t1 = sequence_ t2 → p1 = p2;
  wf_timer : ∀ p t, heap q !! p = Some t →
    timer_ok t ∧ 0 ≤ sequence_ t < num_created_ q ∧ 0 < p < UINTPTR_MAX;
  wf_created : 0 ≤ num_created_ q ≤ INT64_MAX;
}.

(** Only the containers, the heap and the counter matter. *)
Lemma wf_ext out q q' :
  heap q' = heap q → timers_ q' = timers_ q → active_timers_ q' = active_timers_ q →
  num_created_ q' = num_created_ q → wf out q → wf out q'.
Proof. intros Hh Ht Ha Hn []. constructor; by rewrite ?Hh, ?Ht, ?Ha, ?Hn. Qed.

Lemma wf_perm out out' q : out ≡ₚ out' → wf out q → wf out' q.
Proof.
  intros Hp []. constructor; try done; [by rewrite <- Hp|]. intros p. by rewrite <- Hp.
Qed.

Lemma wf_assert out q : wf out q → assert_sizes q = Ok tt.
Proof. intros []. unfold assert_sizes. by rewrite wf_size0, Nat.eqb_refl. Qed.

Lemma wf_deref out q p : wf out q → p ∈ (timers_ q).*2 ++ out → ∃ t, heap q !! p = Some t ∧ deref p q = Ok t.
Proof. intros [] Hp. apply wf_dom0 in Hp as [t Ht]. exists t. unfold deref. by rewrite Ht. Qed.

Lemma deref_some q p t : heap q !! p = Some t → deref p q = Ok t.
Proof. unfold deref. by intros ->. Qed.

(** A timer that is registered is in the ordered set, under its expiration. *)
Lemma wf_registered out q id p :
  wf out q → active_timers_ q !! id = Some p →
  ∃ t, heap q !! p = Some t ∧ sequence_ t = id ∧ (expiration_ t, p) ∈ timers_ q.
Proof.
  intros Hwf Ha. destruct (wf_active _ _ Hwf _ _ Ha) as (Hin & t & Ht & Hs). exists t. split_and!; [done..|].
  apply list_elem_of_fmap in Hin as ([w p'] & -> & Hin).
  destruct (wf_entry _ _ Hwf _ _ Hin) as (t' & Ht' & <- & _). simpl in *. by simplify_eq.
Qed.

(** A timer taken out of the containers. *)
Lemma wf_unlink out q w p t l :
  wf out q → StronglySorted lex l → timers_ q ≡ₚ (w, p) :: l → heap q !! p = Some t →
  wf (p :: out) (set_timers l (delete (sequence_ t) (active_timers_ q)) q).
Proof.
  intros Hwf Hl Hp Ht. pose proof Hwf as [].
  assert (Hp2 : (timers_ q).*2 ≡ₚ p :: l.*2) by (by rewrite Hp).
  assert (Hact : active_timers_ q !! sequence_ t = Some p).
  { destruct (wf_entry0 w p) as (t' & Ht' & _ & Ha); [rewrite Hp; set_solver|]. by simplify_eq. }
  constructor; simpl; try done.
  - rewrite Hp2 in wf_nodup0. by rewrite <- Permutation_middle.
  - intros p'. rewrite wf_dom0, Hp2. by rewrite <- Permutation_middle.
  - intros w' p' Hin. destruct (wf_entry0 w' p') as (t' & Ht' & He & Ha); [rewrite Hp; set_solver|].
    exists t'. split; [done|]. split; [done|]. rewrite lookup_delete_ne; [done|].
    intros Heq. rewrite Hp2, <- app_comm_cons, NoDup_cons in wf_nodup0.
    destruct wf_nodup0 as [Hn _]. apply Hn. rewrite (wf_seq_inj0 p p' t t') by done.
    apply elem_of_app. left. apply list_elem_of_fmap. by exists (w', p').
  - intros id p' [Hne Hid]%lookup_delete_Some. destruct (wf_active0 id p' Hid) as (Hin & t' & Ht' & Hs).
    split; [|by exists t']. rewrite Hp2 in Hin. apply elem_of_cons in Hin as [->|]; [|done].
    simplify_eq.
  - apply Permutation_length in Hp. rewrite wf_size0 in Hp. simpl in Hp.
    rewrite map_size_delete, Hact, Hp. simpl. lia.
Qed.

(** A timer put into the containers. *)
Lemma wf_link out q p t :
  wf (p :: out) q → heap q !! p = Some t →
  wf out (set_timers (set_emplace (expiration_ t, p) (timers_ q))
            (<[sequence_ t := p]> (active_timers_ q)) q) ∧
  active_timers_ q !! sequence_ t = None ∧ (expiration_ t, p) ∉ timers_ q.
Proof.
  intros Hwf Ht. pose proof Hwf as [].
  assert (Hnp : p ∉ (timers_ q).*2).
  { rewrite <- Permutation_middle, NoDup_cons in wf_nodup0. set_solver. }
  assert (Hnin : (expiration_ t, p) ∉ timers_ q).
  { intros Hin. apply Hnp, list_elem_of_fmap. by exists (expiration_ t, p). }
  assert (Hna : active_timers_ q !! sequence_ t = None).
  { destruct (active_timers_ q !! sequence_ t) as [p'|] eqn:Ha; [|done].
    destruct (wf_active0 _ _ Ha) as (Hin & t' & Ht' & Hs).
    by rewrite (wf_seq_inj0 p' p t' t) in Hin. }
  split; [|done]. pose proof (set_emplace_perm _ _ Hnin) as Hp.
  assert (Hp2 : (set_emplace (expiration_ t, p) (timers_ q)).*2 ≡ₚ p :: (timers_ q).*2) by (by rewrite Hp).
  constructor; simpl; try done.
  - by apply set_emplace_sorted.
  - rewrite Hp2. by rewrite <- Permutation_middle in wf_nodup0.
  - intros p'. rewrite wf_dom0, Hp2. by rewrite <- Permutation_middle.
  - intros w' p'. rewrite Hp, elem_of_cons. intros [[= -> ->]|Hin].
    + exists t. split_and!; [done..|]. apply lookup_insert_eq.
    + destruct (wf_entry0 w' p' Hin) as (t' & Ht' & He & Ha). exists t'. split_and!; [done..|].
      rewrite lookup_insert_ne; [done|]. congruence.
  - intros id p'. rewrite lookup_insert_Some, Hp2. intros [[<- <-]|[Hne Hid]].
    + split; [set_solver|by exists t].
    + destruct (wf_active0 id p' Hid) as (? & ?). split; [set_solver|done].
  - rewrite map_size_insert_None by done. rewrite Hp. simpl. by rewrite wf_size0.
Qed.

(** A timer on the heap and outside the containers changes, or dies. *)
Lemma wf_update out q p t t' :
  wf (p :: out) q → heap q !! p = Some t → sequence_ t' = sequence_ t → timer_ok t' →
  wf (p :: out) (set_heap (<[p := t']> (heap q)) q).
Proof.
  intros Hwf Ht Hs Hok. pose proof Hwf as [].
  assert (Hnp : p ∉ (timers_ q).*2).
  { rewrite <- Permutation_middle, NoDup_cons in wf_nodup0. set_solver. }
  assert (Hold : ∀ p1 t1, <[p := t']> (heap q) !! p1 = Some t1 →
            ∃ t0, heap q !! p1 = Some t0 ∧ sequence_ t0 = sequence_ t1 ∧ timer_ok t1).
  { intros p1 t1 [[<- <-]|[Hne H1]]%lookup_insert_Some; [by exists t|]. exists t1.
    split_and!; try done. by destruct (wf_timer0 p1 t1 H1). }
  constructor; simpl; try done.
  - intros p'. rewrite <- wf_dom0. destruct (decide (p = p')) as [<-|].
    + rewrite lookup_insert_eq, Ht. by split.
    + by rewrite lookup_insert_ne.
  - intros w' p' Hin. destruct (wf_entry0 w' p' Hin) as (t1 & ? & ? & ?). exists t1.
    rewrite lookup_insert_ne; [done|]. intros <-. apply Hnp, list_elem_of_fmap. by exists (w', p).
  - intros id p' Hid. destruct (wf_active0 id p' Hid) as (Hin & t1 & ? & ?). split; [done|].
    exists t1. rewrite lookup_insert_ne; [done|]. by intros <-.
  - intros p1 p2 t1 t2 H1 H2 He. destruct (Hold _ _ H1) as (? & ? & ? & ?).
    destruct (Hold _ _ H2) as (? & ? & ? & ?). eapply wf_seq_inj0; [done..|congruence].
  - intros p1 t1 H1. destruct (Hold _ _ H1) as (t0 & H0 & <- & Hok1).
    by destruct (wf_timer0 p1 t0 H0) as (_ & ? & ?).
Qed.

Lemma wf_free out q p :
  wf (p :: out) q → wf out (set_heap (delete p (heap q)) q).
Proof.
  intros Hwf. pose proof Hwf as [].
  rewrite <- Permutation_middle, NoDup_cons in wf_nodup0. destruct wf_nodup0 as [Hnp Hnd].
  constructor; simpl; try done.
  - intros p'. rewrite lookup_delete_is_Some, wf_dom0.
    rewrite <- Permutation_middle, elem_of_cons. split; [naive_solver|]. intros Hin.
    split; [by intros ->|by right].
  - intros w' p' Hin. destruct (wf_entry0 w' p' Hin) as (t1 & ? & ? & ?). exists t1.
    rewrite lookup_delete_ne; [done|]. intros <-. apply Hnp, elem_of_app. left.
    apply list_elem_of_fmap. by exists (w', p).
  - intros id p' Hid. destruct (wf_active0 id p' Hid) as (Hin & t1 & ? & ?). split; [done|].
    exists t1. rewrite lookup_delete_ne; [done|]. intros <-. set_solver.
  - intros p1 p2 t1 t2 [_ H1]%lookup_delete_Some [_ H2]%lookup_delete_Some. by apply wf_seq_inj0.
  - intros p1 t1 [_ H1]%lookup_delete_Some. by apply wf_timer0.
Qed.

(** A new timer, numbered by the counter. *)
Lemma wf_new out q p t :
  wf out q → heap q !! p = None → 0 < p < UINTPTR_MAX → timer_ok t →
  sequence_ t = num_created_ q → num_created_ q < INT64_MAX →
  wf (p :: out) (set_heap (<[p := t]> (heap q)) (count_created q)).
Proof.
  intros Hwf Hp Hrange Hok Hs Hmax. pose proof Hwf as [].
  assert (Hnp : p ∉ (timers_ q).*2 ++ out).
  { rewrite <- wf_dom0, Hp. by intros [? ?]. }
  assert (Hcount : to_i64 (num_created_ q + 1) = num_created_ q + 1) by (apply to_i64_id; int_lia).
  constructor; simpl; rewrite ?Hcount; try done.
  - rewrite <- Permutation_middle. by constructor.
  - intros p'. rewrite lookup_insert_is_Some, wf_dom0, <- Permutation_middle, elem_of_cons.
    destruct (decide (p = p')); naive_solver.
  - intros w' p' Hin. destruct (wf_entry0 w' p' Hin) as (t1 & ? & ? & ?). exists t1.
    rewrite lookup_insert_ne; [done|]. by intros <-; simplify_eq.
  - intros id p' Hid. destruct (wf_active0 id p' Hid) as (Hin & t1 & ? & ?). split; [done|].
    exists t1. rewrite lookup_insert_ne; [done|]. by intros <-; simplify_eq.
  - intros p1 p2 t1 t2 [[<- <-]|[? H1]]%lookup_insert_Some [[<- <-]|[? H2]]%lookup_insert_Some He;
      [done| | |by eapply wf_seq_inj0].
    + destruct (wf_timer0 _ _ H2). lia.
    + destruct (wf_timer0 _ _ H1). lia.
  - intros p1 t1 [[<- <-]|[? H1]]%lookup_insert_Some; [split_and!; (done || lia)|].
    destruct (wf_timer0 _ _ H1). split_and!; (done || lia).
  - int_lia.
Qed.

(** Sequence numbers are distinct and below the counter. *)
Lemma wf_heap_size out q : wf out q → Z.of_nat (size (heap q)) ≤ INT64_MAX.
Proof.
  intros Hwf. set (seqs := (λ x : Z * Timer, sequence_ x.2) <$> map_to_list (heap q)).
  assert (Hnd : NoDup seqs).
  { apply NoDup_fmap_2_strong; [|apply NoDup_map_to_list].
    intros [p1 t1] [p2 t2] H1%elem_of_map_to_list H2%elem_of_map_to_list He. simpl in He.
    assert (p1 = p2) as <- by (by eapply (wf_seq_inj _ _ Hwf)). congruence. }
  assert (Hsub : seqs ⊆+ seqZ 0 (num_created_ q)).
  { apply NoDup_submseteq; [done|]. intros x Hx.
    apply list_elem_of_fmap in Hx as ([p t] & -> & Hp%elem_of_map_to_list).
    apply elem_of_seqZ. destruct (wf_timer _ _ Hwf _ _ Hp). simpl. lia. }
  apply submseteq_length in Hsub. unfold seqs in Hsub.
  rewrite length_fmap, length_map_to_list, length_seqZ in Hsub. destruct (wf_created _ _ Hwf). lia.
Qed.

(** ** Operations *)

(** The [timespec] covers [w]: the descriptor fires no later than [w], or than
    100 microseconds after the clock reading when [w] is nearer than that. *)
Definition deadline (e : settime) : Z :=
  st_now e + tv_sec e * kMicroSecondsPerSecond + tv_nsec e `div` 1000.
Definition covers (e : settime) (w : Z) : Prop := deadline e ≤ Z.max w (st_now e + 100).

(** The kernel timer was last set for the earliest timer, or for earlier. *)
Definition armed_for_head (q : TimerQueue) : Prop :=
  match timers_ q with
  | [] => True
  | (w, _) :: _ => ∃ e es, armed q = e :: es ∧ covers e w
  end.

Definition clock_ok (clock : nat → Z) : Prop := ∀ n, 0 < clock n ≤ 2 ^ 61.
Definition alloc_ok (alloc : gmap Z Timer → Z) : Prop :=
  ∀ h, Z.of_nat (size h) ≤ INT64_MAX → h !! alloc h = None ∧ 0 < alloc h < UINTPTR_MAX.

(** A call that creates a timer gives it a stamp and an interval in range. *)
Definition call_ok (c : call) : Prop :=
  match c with
  | CallAtTime time _ => stamp_ok time
  | CallAfterTime d _ => interval_ok d
  | CallEveryTime i _ => interval_ok i
  | CallStop _ => True
  end.

Section Operations.
Context (clock : nat → Z) (alloc : gmap Z Timer → Z) (user : nat → Z → list call).
Context (Hclock : clock_ok clock) (Halloc : alloc_ok alloc).

Lemma resetTimerfd_spec w q :
  stamp_ok w →
  ∃ e, resetTimerfd clock w q = Ok (arm e (count_read q)) ∧
    deadline e = Z.max w (st_now e + 100) ∧ st_now e = clock (clock_reads q).
Proof.
  intros Hw. unfold resetTimerfd, howMuchTimeFronNow, NowTime, lsub.
  pose proof (Hclock (clock_reads q)) as Hc. unfold stamp_ok in Hw.
  set (now := clock (clock_reads q)) in *.
  assert (Hk : chk64 (w - now) = Ok (w - now)) by (apply wp_eq, wp_chk64; [int_lia|done]).
  rewrite Hk. simpl. set (us := if w - now <? 100 then 100 else w - now).
  assert (Hus : us = Z.max (w - now) 100) by (unfold us; destruct (Z.ltb_spec (w - now) 100); lia).
  eexists. split; [done|]. unfold deadline. simpl. split; [|done].
  rewrite Z.quot_div_nonneg, Z.rem_mod_nonneg, Z.div_mul by (unfold kMicroSecondsPerSecond; lia).
  pose proof (Z.div_mod us kMicroSecondsPerSecond ltac:(unfold kMicroSecondsPerSecond; lia)). lia.
Qed.

Lemma insert_timer_spec out q p t :
  wf (p :: out) q → heap q !! p = Some t →
  let q' := set_timers (set_emplace (expiration_ t, p) (timers_ q))
              (<[sequence_ t := p]> (active_timers_ q)) q in
  insert_timer p q = Ok (match timers_ q with [] => true | it :: _ => stamp_lt (expiration_ t) it.1 end, q')
  ∧ wf out q'.
Proof.
  intros Hwf Ht q'. destruct (wf_link _ _ _ _ Hwf Ht) as (Hwf' & Hna & _).
  unfold insert_timer. rewrite (wf_assert _ _ Hwf). simpl. rewrite (deref_some _ _ _ Ht). simpl.
  rewrite Hna. fold q'. fold q' in Hwf'. rewrite (wf_assert _ _ Hwf'). done.
Qed.

Lemma covers_weaken e w w' : covers e w → w ≤ w' → covers e w'.
Proof. unfold covers. lia. Qed.

Lemma AddTimerInLoop_spec out q p t :
  wf (p :: out) q → heap q !! p = Some t → stamp_ok (expiration_ t) →
  ∃ q', AddTimerInLoop clock p q = Ok q' ∧ wf out q' ∧
    timers_ q' = set_emplace (expiration_ t, p) (timers_ q) ∧
    active_timers_ q' = <[sequence_ t := p]> (active_timers_ q) ∧
    heap q' = heap q ∧ num_created_ q' = num_created_ q ∧ started q' = started q ∧
    callingExpiredTimers_ q' = callingExpiredTimers_ q ∧
    cancelingTimers_ q' = cancelingTimers_ q ∧
    (armed_for_head q → armed_for_head q').
Proof.
  intros Hwf Ht Hok. destruct (insert_timer_spec _ _ _ _ Hwf Ht) as [Hins Hwf'].
  destruct (wf_link _ _ _ _ Hwf Ht) as (_ & _ & Hnin).
  unfold AddTimerInLoop. rewrite Hins. simpl. set (q1 := set_timers _ _ q) in *.
  destruct (match timers_ q with [] => true | it :: _ => stamp_lt (expiration_ t) it.1 end) eqn:Hb.
  - rewrite (deref_some q1 p t Ht). simpl.
    destruct (resetTimerfd_spec (expiration_ t) q1 Hok) as (e & -> & Hd & _). simpl.
    eexists. split; [done|]. split; [by apply (wf_ext out q1)|]. split_and!; try done.
    intros _. unfold armed_for_head. simpl. destruct (timers_ q) as [|[w0 p0] l]; simpl.
    + exists e. eexists. split; [done|]. unfold covers. lia.
    + simpl in Hb. unfold stamp_lt in Hb. unfold entry_lt, stamp_lt. simpl. rewrite Hb. simpl.
      exists e. eexists. split; [done|]. unfold covers. lia.
  - eexists. split; [done|]. split; [done|]. split_and!; try done.
    unfold armed_for_head. simpl. destruct (timers_ q) as [|[w0 p0] l]; [done|].
    simpl in Hb |- *. unfold stamp_lt in Hb. unfold entry_lt at 1, stamp_lt. simpl. rewrite Hb. simpl.
    apply Z.ltb_ge in Hb. intros (e & es & He & Hc).
    destruct (negb (w0 <? expiration_ t) && (p <? p0)).
    + exists e, es. split; [done|]. by apply (covers_weaken e w0).
    + destruct (entry_lt (w0, p0) (expiration_ t, p)); by exists e, es.
Qed.

(** What an operation on the containers leaves alone: the timers in [out], the
    flags, the callbacks started; and the kernel timer stays early enough. *)
Record frame (out : list Z) (n : Z) (q q' : TimerQueue) : Prop := Frame {
  fr_out : ∀ p, p ∈ out → heap q' !! p = heap q !! p;
  fr_started : started q' = started q;
  fr_calling : callingExpiredTimers_ q' = callingExpiredTimers_ q;
  fr_canceling : cancelingTimers_ q' = cancelingTimers_ q;
  fr_armed : armed_for_head q → armed_for_head q';
  fr_created : num_created_ q ≤ num_created_ q' ≤ num_created_ q + n;
}.

Lemma frame_refl out n q : 0 ≤ n → frame out n q q.
Proof. constructor; try done. lia. Qed.

Lemma frame_trans out n m q1 q2 q3 :
  frame out n q1 q2 → frame out m q2 q3 → frame out (n + m) q1 q3.
Proof.
  intros [] []. constructor; try congruence; [|auto|lia].
  intros p Hp. by rewrite fr_out1, fr_out0.
Qed.

Lemma AddTimer_spec out q cb when interval :
  wf out q → stamp_ok when → (f64_lt f64_zero interval = true → interval_ok interval) →
  num_created_ q < INT64_MAX →
  ∃ q', AddTimer clock alloc cb when interval q = Ok (num_created_ q, q') ∧ wf out q' ∧
    heap q' = <[alloc (heap q) := new_Timer cb when interval (num_created_ q)]> (heap q) ∧
    timers_ q' = set_emplace (when, alloc (heap q)) (timers_ q) ∧
    active_timers_ q' = <[num_created_ q := alloc (heap q)]> (active_timers_ q) ∧
    frame out 1 q q'.
Proof.
  intros Hwf Hw Hi Hmax. unfold AddTimer.
  destruct (Halloc (heap q)) as [Hnone Hrange]; [by eapply wf_heap_size|]. set (p := alloc (heap q)) in *.
  set (t := new_Timer cb when interval (num_created_ q)).
  set (q1 := set_heap (<[p:=t]> (heap q)) (count_created q)).
  assert (Hwf1 : wf (p :: out) q1) by (apply wf_new; done).
  assert (Ht1 : heap q1 !! p = Some t) by apply lookup_insert_eq.
  destruct (AddTimerInLoop_spec _ _ _ _ Hwf1 Ht1 Hw)
    as (q' & -> & Hwf' & Htm & Hac & Hh & Hn & Hst & Hca & Hcc & Har). simpl.
  assert (Ht' : heap q' !! p = Some t) by (by rewrite Hh).
  rewrite (deref_some _ _ _ Ht'). simpl. exists q'. split; [done|]. split; [done|].
  split; [done|]. split; [done|]. split; [done|]. constructor; try done.
  - intros p' Hp'. rewrite Hh. simpl. rewrite lookup_insert_ne; [done|]. intros <-.
    assert (is_Some (heap q !! p)) as [? ?]; [|congruence].
    apply (wf_dom _ _ Hwf), elem_of_app. by right.
  - rewrite Hn. simpl. destruct (wf_created _ _ Hwf). rewrite to_i64_id by int_lia. lia.
Qed.

Lemma AddTime_ok now i :
  0 < now ≤ 2 ^ 61 → interval_ok i → ∃ w, AddTime now i = Ok w ∧ now ≤ w ∧ stamp_ok w.
Proof.
  intros Hn (d & Hd & Hr). unfold AddTime. rewrite Hd. simpl. unfold ladd.
  exists (now + d). split; [apply wp_eq, wp_chk64; [int_lia|done]|]. unfold stamp_ok. lia.
Qed.

Lemma set_erase_head e l w p l' :
  StronglySorted lex l → set_erase e l = (w, p) :: l' →
  ∃ w0 p0 l0, l = (w0, p0) :: l0 ∧ w0 ≤ w.
Proof.
  destruct l as [|[w0 p0] l]; [done|]. intros [_ Hf]%StronglySorted_inv He.
  exists w0, p0, l. split; [done|]. simpl in He.
  destruct (entry_lt e (w0, p0)); [by simplify_eq|].
  destruct (entry_lt (w0, p0) e); [by simplify_eq|]. subst l.
  apply Forall_cons in Hf as [[?|[? ?]] _]; simpl in *; lia.
Qed.

Lemma CancelInLoop_spec out q id p :
  wf out q → active_timers_ q !! id = Some p →
  ∃ q' t, CancelInLoop id q = Ok q' ∧ wf out q' ∧
    heap q !! p = Some t ∧ heap q' = delete p (heap q) ∧
    timers_ q' = set_erase (expiration_ t, p) (timers_ q) ∧
    active_timers_ q' = delete id (active_timers_ q) ∧ frame out 0 q q'.
Proof.
  intros Hwf Ha. destruct (wf_registered _ _ _ _ Hwf Ha) as (t & Ht & <- & Hmem).
  unfold CancelInLoop. rewrite Ha, (deref_some _ _ _ Ht). simpl.
  unfold free. rewrite (deref_some _ _ _ Ht). simpl.
  pose proof (wf_sorted _ _ Hwf) as Hs. pose proof (set_erase_perm _ _ Hs Hmem) as Hp.
  set (l := set_erase (expiration_ t, p) (timers_ q)) in *.
  assert (Hl : StronglySorted lex l) by (eapply StronglySorted_sublist; [apply set_erase_sublist|done]).
  pose proof (wf_free _ _ _ (wf_unlink _ _ _ _ _ _ Hwf Hl Hp Ht)) as Hwf'. simpl in Hwf'.
  match goal with |- context [assert_sizes ?x] => set (q' := x) end.
  assert (Hq' : wf out q') by exact Hwf'.
  rewrite (wf_assert _ _ Hq'). simpl. exists q', t. split_and!; try done.
  constructor; try done; simpl; [| |lia].
  - intros p' Hp'. rewrite lookup_delete_ne; [done|]. intros <-.
    pose proof (wf_nodup _ _ Hwf) as Hnd. apply NoDup_app in Hnd as (_ & Hd & _). apply (Hd p); [|done].
    apply list_elem_of_fmap. by exists (expiration_ t, p).
  - unfold armed_for_head. simpl. destruct l as [|[w1 p1] l1] eqn:Hl1; [done|].
    destruct (set_erase_head _ _ _ _ _ Hs Hl1) as (w0 & p0 & l0 & -> & Hle).
    intros (e & es & ? & ?). exists e, es. split; [done|]. by eapply covers_weaken.
Qed.

(** A stop of a timer that is not in the queue. *)
Lemma CancelInLoop_absent out q id :
  wf out q → active_timers_ q !! id = None →
  CancelInLoop id q = if callingExpiredTimers_ q then Err EndIterator else Ok q.
Proof.
  intros Hwf Ha. unfold CancelInLoop. rewrite Ha. destruct (callingExpiredTimers_ q); simpl; [done|].
  by rewrite (wf_assert _ _ Hwf).
Qed.

(** The only error a call can meet. *)
Definition stop_error (q : TimerQueue) (cs : list call) (e : ub) : Prop :=
  e = EndIterator ∧ callingExpiredTimers_ q = true ∧ ∃ id, CallStop id ∈ cs.

Lemma exec_call_spec out q c :
  wf out q → call_ok c → num_created_ q < INT64_MAX →
  wpe (exec_call clock alloc c q) (λ q', wf out q' ∧ frame out 1 q q') (stop_error q [c]).
Proof.
  intros Hwf Hc Hmax. destruct c as [time cb|d cb|i cb|id]; simpl in *.
  - destruct (AddTimer_spec out q cb time f64_zero) as (q' & Hq & ? & _ & _ & _ & ?); try done.
    unfold AddtimerAtTime. by rewrite Hq.
  - unfold AddtimerAfterTime, NowTime. destruct (AddTime_ok _ _ (Hclock (clock_reads q)) Hc) as (w & -> & _ & Hw).
    simpl. destruct (AddTimer_spec out (count_read q) cb w f64_zero) as (q' & Hq & ? & _ & _ & _ & Hf);
      try done; [by apply (wf_ext out q)|].
    unfold AddtimerAtTime. rewrite Hq. simpl. split; [done|]. by destruct Hf.
  - unfold AddtimerEveryTime, NowTime. destruct (AddTime_ok _ _ (Hclock (clock_reads q)) Hc) as (w & -> & _ & Hw).
    simpl. destruct (AddTimer_spec out (count_read q) cb w i) as (q' & Hq & ? & _ & _ & _ & Hf);
      try done; [by apply (wf_ext out q)|].
    rewrite Hq. simpl. split; [done|]. by destruct Hf.
  - unfold StopTimer. destruct (active_timers_ q !! id) as [p|] eqn:Ha.
    + destruct (CancelInLoop_spec _ _ _ _ Hwf Ha) as (q' & t & -> & ? & _ & _ & _ & _ & Hf).
      simpl. split; [done|]. destruct Hf. constructor; try done. lia.
    + rewrite (CancelInLoop_absent _ _ _ Hwf Ha). destruct (callingExpiredTimers_ q) eqn:Hcall; simpl.
      * split; [done|]. split; [done|]. exists id. set_solver.
      * split; [done|]. apply frame_refl. lia.
Qed.

Lemma exec_calls_spec out q cs :
  wf out q → Forall call_ok cs → num_created_ q + Z.of_nat (length cs) ≤ INT64_MAX →
  wpe (exec_calls clock alloc cs q)
    (λ q', wf out q' ∧ frame out (Z.of_nat (length cs)) q q') (stop_error q cs).
Proof.
  revert q. induction cs as [|c cs IH]; intros q Hwf Hok Hmax; simpl length in *.
  { split; [done|]. by apply frame_refl. }
  apply Forall_cons in Hok as [Hc Hcs]. simpl. rewrite Nat2Z.inj_succ in *.
  apply wpe_bind. pose proof (exec_call_spec out q c Hwf Hc ltac:(lia)) as H1.
  destruct (exec_call clock alloc c q) as [q1|e]; simpl in *.
  - destruct H1 as [Hwf1 Hf1]. pose proof (fr_created _ _ _ _ Hf1).
    specialize (IH q1 Hwf1 Hcs ltac:(lia)). destruct (exec_calls clock alloc cs q1); simpl in *.
    + destruct IH as [? Hf2]. split; [done|].
      replace (Z.succ (Z.of_nat (length cs))) with (1 + Z.of_nat (length cs)) by lia.
      by eapply frame_trans.
    + destruct IH as (? & Hca & id & ?). split; [done|].
      rewrite (fr_calling _ _ _ _ Hf1) in Hca. split; [done|]. exists id. set_solver.
  - destruct H1 as (? & ? & id & ?). split; [done|]. split; [done|]. exists id. set_solver.
Qed.
End Operations.
