(* ===== verification/TimerQueueRun.v ===== *)
(** * The timer queue when its descriptor fires: which timers expire, what runs,
    what [Reset] puts back and what it frees; and the properties of the queue. *)
From S2P Require Import Prelude CInt Float64 TimerStamp TimerQueue TimerQueueInv.

(** The callbacks of a list of entries, in order. *)
Fixpoint callbacks (h : gmap Z Timer) (l : list entry) : list Z :=
  match l with
  | [] => []
  | it :: l => match h !! it.2 with Some t => callback_ t :: callbacks h l | None => callbacks h l end
  end.

Lemma callbacks_ext h h' l :
  (∀ p, p ∈ l.*2 → h' !! p = h !! p) → callbacks h' l = callbacks h l.
Proof.
  induction l as [|[w p] l IH]; intros H; [done|]. simpl.
  by rewrite (H p), IH by set_solver.
Qed.

Lemma wf_elem_out out q p : wf out q → p ∈ out → ∃ t, heap q !! p = Some t.
Proof.
  intros Hwf Hp. assert (is_Some (heap q !! p)) as [t Ht]; [|by exists t].
  apply (wf_dom _ _ Hwf), elem_of_app. by right.
Qed.

Lemma wf_out_nin out q p : wf out q → p ∈ out → p ∉ (timers_ q).*2.
Proof. intros Hwf Hp Hin. apply wf_nodup, NoDup_app in Hwf as (_ & Hd & _). by apply (Hd p). Qed.

(** ** [GetExpired] *)
Lemma erase_active_spec a rest out q :
  wf out (set_timers (a ++ rest) (active_timers_ q) q) →
  ∃ act, erase_active a (set_timers rest (active_timers_ q) q) = Ok (set_timers rest act q) ∧
    wf (a.*2 ++ out) (set_timers rest act q).
Proof.
  revert out q. induction a as [|[w p] a IH]; intros out q Hwf; simpl.
  { eexists. split; [done|]. done. }
  destruct (wf_entry _ _ Hwf w p) as (t & Ht & _); [simpl; set_solver|].
  rewrite (deref_some _ p t) by done. simpl in Ht |- *.
  pose proof (wf_sorted _ _ Hwf) as Hs. simpl in Hs. apply StronglySorted_inv in Hs as [Hs _].
  pose proof (wf_unlink _ _ w p t (a ++ rest) Hwf Hs ltac:(done) Ht) as H1. simpl in H1.
  destruct (IH (p :: out) (set_timers (a ++ rest) (delete (sequence_ t) (active_timers_ q)) q))
    as (act & He & Hwf'); [done|].
  exists act. split; [exact He|]. eapply wf_perm; [|exact Hwf']. by rewrite <- Permutation_middle.
Qed.

Lemma GetExpired_spec now out q :
  wf out q →
  ∃ expired rest act, let q' := set_timers rest act q in
    GetExpired now q = Ok (expired, q') ∧ timers_ q = expired ++ rest ∧
    Forall (λ e, e.1 ≤ now) expired ∧ Forall (λ e, now < e.1) rest ∧ wf (expired.*2 ++ out) q'.
Proof.
  intros Hwf. unfold GetExpired. pose proof (wf_sorted _ _ Hwf) as Hs.
  destruct (split_upper (now, UINTPTR_MAX) (timers_ q)) as [a b] eqn:Hsp.
  destruct (split_upper_spec _ _ _ _ Hs Hsp) as (Hab & Ha & Hb).
  destruct (erase_active_spec a b out q) as (act & He & Hwf').
  { rewrite <- Hab. by apply (wf_ext out q). }
  exists a, b, act. rewrite He. simpl. set (q' := set_timers b act q) in *.
  rewrite (wf_assert _ _ Hwf'). simpl. split_and!; try done.
  - eapply Forall_impl; [done|]. intros [w p] Hn. unfold lex in Hn. simpl in *. lia.
  - rewrite Forall_forall in Hb |- *. intros [w p] Hin. specialize (Hb _ Hin).
    destruct (wf_entry _ _ Hwf w p) as (t & Ht & _); [rewrite Hab; set_solver|].
    destruct (wf_timer _ _ Hwf _ _ Ht) as (_ & _ & Hp). unfold lex in Hb. simpl in *. lia.
Qed.

(** The user's callbacks make calls in range, at most [K] per run. *)
Definition user_ok (user : nat → Z → list call) (K : nat) : Prop :=
  ∀ n cb, Forall call_ok (user n cb) ∧ (length (user n cb) ≤ K)%nat.

(** Some callback asks to stop a timer. *)
Definition may_stop (user : nat → Z → list call) : Prop := ∃ n cb id, CallStop id ∈ user n cb.

(** The kernel timer was last set for the earliest timer, with the last reading
    of the clock. *)
Definition armed_now (clock : nat → Z) (q : TimerQueue) : Prop :=
  match timers_ q with
  | [] => True
  | (w, _) :: _ => ∃ e es, armed q = e :: es ∧ deadline e = Z.max w (st_now e + 100) ∧
                     st_now e = clock (pred (clock_reads q))
  end.

Section Run.
Context (clock : nat → Z) (alloc : gmap Z Timer → Z) (user : nat → Z → list call) (K : nat).
Context (Hclock : clock_ok clock) (Halloc : alloc_ok alloc) (Huser : user_ok user K).

(** ** The callbacks run *)
Lemma start_all_spec expired out q :
  wf out q → (∀ p, p ∈ expired.*2 → p ∈ out) →
  num_created_ q + Z.of_nat (K * length expired) ≤ INT64_MAX →
  wpe (start_all clock alloc user expired q)
    (λ q', wf out q' ∧ (∀ p, p ∈ out → heap q' !! p = heap q !! p) ∧
       started q' = rev (callbacks (heap q) expired) ++ started q ∧
       callingExpiredTimers_ q' = callingExpiredTimers_ q ∧
       cancelingTimers_ q' = cancelingTimers_ q ∧
       num_created_ q ≤ num_created_ q' ≤ num_created_ q + Z.of_nat (K * length expired))
    (λ e, e = EndIterator ∧ may_stop user).
Proof.
  revert q. induction expired as [|[w p] expired IH]; intros q Hwf Hin Hmax.
  { simpl. split_and!; try done; lia. }
  simpl start_all. apply wpe_bind. unfold Start. simpl in Hin, Hmax.
  destruct (wf_elem_out _ _ p Hwf) as [t Ht]; [apply Hin; set_solver|].
  simpl snd. rewrite (deref_some _ _ _ Ht). simpl.
  destruct (Huser (length (started q)) (callback_ t)) as [Hok Hlen].
  set (cs := user _ _) in *. set (q1 := log_start (callback_ t) q).
  assert (Hwf1 : wf out q1) by (by apply (wf_ext out q)).
  pose proof (exec_calls_spec clock alloc Hclock Halloc out q1 cs Hwf1 Hok ltac:(simpl; nia)) as H1.
  destruct (exec_calls clock alloc cs q1) as [q2|e] eqn:Hcs; simpl in *.
  - destruct H1 as [Hwf2 [Hh Hst Hca Hcc _ Hn]]. simpl in *.
    specialize (IH q2 Hwf2 ltac:(set_solver) ltac:(nia)).
    destruct (start_all clock alloc user expired q2) as [q3|e]; simpl in *; [|done].
    destruct IH as (Hwf3 & Hh3 & Hst3 & Hca3 & Hcc3 & Hn3). split_and!; try done; try congruence; try nia.
    + intros p' Hp'. by rewrite Hh3, Hh.
    + rewrite Hst3, Hst, Ht. simpl. rewrite <- app_assoc. simpl. do 2 f_equal.
      apply callbacks_ext. intros p' Hp'. apply Hh. set_solver.
  - destruct H1 as (-> & _ & id & Hid). split; [done|]. by exists (length (started q)), (callback_ t), id.
Qed.

(** ** [Reset] *)

(** What becomes of a timer that ran: a repeating one is back in the set at
    [now] plus its interval, another one is gone. *)
Definition rescheduled (now : Z) (t : Timer) (p : Z) (q : TimerQueue) : Prop :=
  if repeat_ t
  then ∃ w, AddTime now (interval_ t) = Ok w ∧ now ≤ w ∧ (w, p) ∈ timers_ q ∧
         heap q !! p = Some (MkTimer (callback_ t) w (interval_ t) true (sequence_ t))
  else heap q !! p = None ∧ p ∉ (timers_ q).*2.

Lemma rescheduled_mono now t p q q' :
  rescheduled now t p q → (∀ e, e ∈ timers_ q → e ∈ timers_ q') →
  (p ∈ (timers_ q').*2 → p ∈ (timers_ q).*2) → heap q' !! p = heap q !! p →
  rescheduled now t p q'.
Proof.
  unfold rescheduled. intros Hre Hm Hi Hh. destruct (repeat_ t).
  - destruct Hre as (w & ? & ? & ? & ?). exists w. rewrite Hh. auto.
  - rewrite Hh. destruct Hre. auto.
Qed.

Lemma wf_head_one out q p t now :
  wf (p :: out) q → heap q !! p = Some t → 0 < now ≤ 2 ^ 61 → cancelingTimers_ q = ∅ →
  ∃ q', (if repeat_ t && bool_decide (cancelingTimers_ q !! sequence_ t = None) then
             t' ← ReStart now t;
             '(_, q) ← insert_timer p (set_heap (<[p := t']> (heap q)) q);
             mret q
           else free p q) = Ok q' ∧ wf out q' ∧ rescheduled now t p q' ∧
    (∀ e, e ∈ timers_ q → e ∈ timers_ q') ∧ (∀ e, e ∈ timers_ q' → e.2 = p ∨ e ∈ timers_ q) ∧
    (∀ p', p' ≠ p → heap q' !! p' = heap q !! p') ∧
    started q' = started q ∧ callingExpiredTimers_ q' = callingExpiredTimers_ q ∧
    cancelingTimers_ q' = ∅ ∧ num_created_ q' = num_created_ q.
Proof.
  intros Hwf Ht Hnow Hc. unfold rescheduled. rewrite Hc, lookup_empty.
  destruct (wf_timer _ _ Hwf _ _ Ht) as ((_ & Hrep & Hi) & _).
  rewrite bool_decide_true, andb_true_r by done. destruct (repeat_ t) eqn:Hr.
  - destruct (AddTime_ok now (interval_ t) Hnow (Hi eq_refl)) as (w & Hw & Hle & Hok).
    unfold ReStart. rewrite Hr, Hw. simpl. set (t' := MkTimer _ _ _ _ _).
    assert (Hwf1 : wf (p :: out) (set_heap (<[p := t']> (heap q)) q)) by (by eapply wf_update).
    assert (Ht1 : heap (set_heap (<[p := t']> (heap q)) q) !! p = Some t') by apply lookup_insert_eq.
    destruct (wf_link _ _ _ _ Hwf1 Ht1) as (_ & _ & Hnin). simpl in Hnin.
    destruct (insert_timer_spec out _ p t' Hwf1 Ht1) as [-> Hwf2]. simpl in *.
    pose proof (set_emplace_perm _ _ Hnin) as Hp.
    eexists. split; [done|]. split; [done|]. simpl. split_and!; try done.
    + exists w. rewrite lookup_insert_eq, Hp. split_and!; try done. set_solver.
    + intros e. rewrite Hp. set_solver.
    + intros e. rewrite Hp, elem_of_cons. intros [->|]; [by left|by right].
    + intros p' Hne. by apply lookup_insert_ne.
  - unfold free. rewrite (deref_some _ _ _ Ht). simpl. eexists. split; [done|].
    split; [by apply wf_free|]. simpl. split_and!; try done; [apply lookup_delete_eq| |by auto|].
    + apply (wf_out_nin _ _ p Hwf). set_solver.
    + intros p' Hne. by rewrite lookup_delete_ne.
Qed.

Lemma reset_all_spec expired now q :
  wf expired.*2 q → 0 < now ≤ 2 ^ 61 → cancelingTimers_ q = ∅ →
  ∃ q', reset_all expired now q = Ok q' ∧ wf [] q' ∧
    (∀ p t, p ∈ expired.*2 → heap q !! p = Some t → rescheduled now t p q') ∧
    (∀ p, p ∉ expired.*2 → heap q' !! p = heap q !! p) ∧
    (∀ e, e ∈ timers_ q → e ∈ timers_ q') ∧
    (∀ e, e ∈ timers_ q' → e.2 ∈ expired.*2 ∨ e ∈ timers_ q) ∧
    started q' = started q ∧ callingExpiredTimers_ q' = callingExpiredTimers_ q ∧
    num_created_ q' = num_created_ q.
Proof.
  revert q. induction expired as [|[w0 p] expired IH]; intros q Hwf Hnow Hc.
  { exists q. split_and!; try done; [set_solver|by right]. }
  simpl in Hwf. destruct (wf_elem_out _ _ p Hwf) as [t Ht]; [set_solver|].
  destruct (wf_head_one _ _ _ _ _ Hwf Ht Hnow Hc)
    as (q1 & Hq1 & Hwf1 & Hre & Hmono & Hinv & Hh & Hst & Hca & Hc1 & Hn).
  destruct (IH q1 Hwf1 Hnow Hc1) as (q' & Hq' & Hwf' & Hre' & Hh' & Hmono' & Hinv' & Hst' & Hca' & Hn').
  exists q'. simpl. rewrite (deref_some _ _ _ Ht). simpl. rewrite Hq1. simpl.
  pose proof (wf_nodup _ _ Hwf) as Hnd. apply NoDup_app in Hnd as (_ & _ & Hnd).
  apply NoDup_cons in Hnd as [Hpn _].
  split_and!; try done; try congruence; [| |by auto|].
  - intros p' t' Hp' Ht'. destruct (decide (p' = p)) as [->|Hne].
    + simplify_eq. apply (rescheduled_mono _ _ _ q1); [done|auto| |by rewrite Hh'].
      intros Hin. apply list_elem_of_fmap in Hin as (e & -> & [?|?]%Hinv'); [done|].
      apply list_elem_of_fmap. by exists e.
    + apply elem_of_cons in Hp' as [?|Hp']; [done|]. apply Hre'; [done|]. by rewrite Hh.
  - intros p' [Hne Hnin]%not_elem_of_cons. by rewrite Hh', Hh.
  - intros e [?|He]%Hinv'; [set_solver|]. destruct (Hinv e He) as [->|?]; set_solver.
Qed.

Lemma Reset_spec expired now q :
  wf expired.*2 q → 0 < now ≤ 2 ^ 61 → cancelingTimers_ q = ∅ →
  ∃ q' q1, reset_all expired now q = Ok q1 ∧ Reset clock expired now q = Ok q' ∧ wf [] q' ∧
    timers_ q' = timers_ q1 ∧ heap q' = heap q1 ∧ started q' = started q1 ∧
    callingExpiredTimers_ q' = callingExpiredTimers_ q1 ∧ armed_now clock q'.
Proof.
  intros Hwf Hnow Hc. destruct (reset_all_spec _ _ _ Hwf Hnow Hc) as (q1 & Hq1 & Hwf1 & _).
  unfold Reset, armed_now. rewrite Hq1. simpl. destruct (timers_ q1) as [|[w p] l] eqn:Hl.
  { exists q1, q1. simpl. by rewrite Hl. }
  destruct (wf_entry _ _ Hwf1 w p) as (t & Ht & <- & _); [rewrite Hl; set_solver|]. simpl snd.
  rewrite (deref_some _ _ _ Ht). simpl. destruct (wf_timer _ _ Hwf1 _ _ Ht) as ((Hok & _) & _).
  unfold Valid. rewrite (proj2 (Z.ltb_lt _ _)) by apply Hok.
  destruct (resetTimerfd_spec clock Hclock _ q1 Hok) as (e & -> & Hd & Hnow').
  eexists _, q1. split; [done|]. split; [done|]. simpl. rewrite Hl.
  split; [by apply (wf_ext [] q1)|]. split_and!; try done. by exists e, (armed q1).
Qed.

Lemma expired_filter now (a b : list entry) :
  Forall (λ e, e.1 ≤ now) a → Forall (λ e, now < e.1) b →
  filter (λ e : entry, e.1 ≤ now) (a ++ b) = a.
Proof.
  rewrite !Forall_forall. intros Ha Hb. rewrite filter_app, filter_all, filter_none, app_nil_r; [done| |done].
  intros e He. specialize (Hb e He). lia.
Qed.

(** Everything [HandleRead] does, in one statement the properties project. *)
Lemma HandleRead_spec q :
  wf [] q → num_created_ q + Z.of_nat (K * length (timers_ q)) ≤ INT64_MAX →
  let now := clock (clock_reads q) in
  let expired := filter (λ e : entry, e.1 ≤ now) (timers_ q) in
  wpe (HandleRead clock alloc user q)
    (λ q', wf [] q' ∧ callingExpiredTimers_ q' = false ∧ armed_now clock q' ∧
       started q' = rev (callbacks (heap q) expired) ++ started q ∧
       ∀ w p t, (w, p) ∈ expired → heap q !! p = Some t → rescheduled now t p q')
    (λ e, e = EndIterator ∧ may_stop user).
Proof.
  intros Hwf Hmax now expired. unfold HandleRead, NowTime. fold now.
  assert (Hwf0 : wf [] (readTimerfd (count_read q))) by (by apply (wf_ext [] q)).
  destruct (GetExpired_spec now [] _ Hwf0) as (a & b & act & -> & Hab & Ha & Hb & Hwf1). simpl in *.
  assert (He : expired = a) by (unfold expired; rewrite Hab; by apply expired_filter).
  rewrite He in *. clear expired He. rewrite app_nil_r in Hwf1.
  match goal with |- context [start_all _ _ _ _ ?x] => set (q2 := x) end.
  assert (Hwf2 : wf a.*2 q2) by (by eapply wf_ext; [..|exact Hwf1]).
  pose proof (start_all_spec a _ q2 Hwf2 ltac:(done)) as Hs. simpl in Hs.
  rewrite Hab, length_app in Hmax. specialize (Hs ltac:(nia)).
  apply wpe_bind. destruct (start_all clock alloc user a q2) as [q3|e]; simpl in *; [|done].
  destruct Hs as (Hwf3 & Hh3 & Hst3 & Hca3 & Hcc3 & _).
  assert (Hwf4 : wf a.*2 (set_calling false q3)) by (by apply (wf_ext _ q3)).
  assert (Hnow : 0 < now ≤ 2 ^ 61) by apply Hclock.
  destruct (Reset_spec a now _ Hwf4 Hnow Hcc3) as (q5 & q4 & Hr4 & -> & Hwf5 & Ht5 & Hh5 & Hst5 & Hca5 & Har).
  destruct (reset_all_spec a now _ Hwf4 Hnow Hcc3) as (q4' & Hr4' & _ & Hre & _ & _ & _ & Hst4 & Hca4 & _).
  rewrite Hr4 in Hr4'. simplify_eq. simpl in *. split_and!; try done; try congruence.
  intros w p t Hin Ht. apply (rescheduled_mono _ _ _ q4'); [|by rewrite Ht5..|by rewrite Hh5].
  apply Hre; [apply list_elem_of_fmap; by exists (w, p)|]. rewrite Hh3; [done|].
  apply list_elem_of_fmap. by exists (w, p).
Qed.

(** ** A callback that stops a timer that is running

    The timer is in neither container: its number is not found, and the flag makes
    [CancelInLoop] dereference the end iterator. *)
Lemma running_not_active out q p t : wf out q → p ∈ out → heap q !! p = Some t → active_timers_ q !! sequence_ t = None.
Proof.
  intros Hwf Hp Ht. destruct (active_timers_ q !! sequence_ t) as [p'|] eqn:Ha; [|done].
  destruct (wf_active _ _ Hwf _ _ Ha) as (Hin & t' & Ht' & Hid).
  rewrite (wf_seq_inj _ _ Hwf _ _ _ _ Ht' Ht Hid) in Hin. by destruct (wf_out_nin _ _ _ Hwf Hp).
Qed.

Lemma stop_running out q p t cs :
  wf out q → p ∈ out → heap q !! p = Some t → callingExpiredTimers_ q = true →
  Forall call_ok cs → num_created_ q + Z.of_nat (length cs) ≤ INT64_MAX → CallStop (sequence_ t) ∈ cs →
  exec_calls clock alloc cs q = Err EndIterator.
Proof.
  revert q. induction cs as [|c cs IH]; intros q Hwf Hp Ht Hcall Hok Hmax Hin; [by apply not_elem_of_nil in Hin|].
  apply Forall_cons in Hok as [Hc Hcs]. simpl in Hmax. simpl.
  apply elem_of_cons in Hin as [<-|Hin].
  - simpl. unfold StopTimer. rewrite (CancelInLoop_absent out) by (done || by eapply running_not_active). by rewrite Hcall.
  - pose proof (exec_call_spec clock alloc Hclock Halloc out q c Hwf Hc ltac:(lia)) as H1.
    destruct (exec_call clock alloc c q) as [q1|e]; simpl in *; [|by destruct H1 as (-> & _)].
    destruct H1 as [Hwf1 [Hh _ Hca _ _ Hn]]. apply IH; try done; [by rewrite Hh|by rewrite Hca|lia].
Qed.

Lemma stop_in_callback expired out q p t :
  wf out q → (∀ p, p ∈ expired.*2 → p ∈ out) → callingExpiredTimers_ q = true →
  num_created_ q + Z.of_nat (K * length expired) ≤ INT64_MAX →
  p ∈ expired.*2 → heap q !! p = Some t → (∀ n, CallStop (sequence_ t) ∈ user n (callback_ t)) →
  start_all clock alloc user expired q = Err EndIterator.
Proof.
  intros Hwf Hout Hcall Hmax Hp Ht Hstop. revert q Hwf Hcall Hmax Ht.
  induction expired as [|[w p'] expired IH]; intros q Hwf Hcall Hmax Ht; [by apply not_elem_of_nil in Hp|].
  simpl in Hout, Hmax, Hp. assert (Hin' : p' ∈ out) by (apply Hout; set_solver).
  destruct (wf_elem_out _ _ _ Hwf Hin') as [t' Ht']. simpl start_all. unfold Start. simpl.
  rewrite (deref_some _ _ _ Ht'). simpl. destruct (Huser (length (started q)) (callback_ t')) as [Hok Hlen].
  set (q1 := log_start (callback_ t') q). assert (Hwf1 : wf out q1) by (by apply (wf_ext out q)).
  destruct (decide (p' = p)) as [->|Hne].
  - simplify_eq. rewrite (stop_running out q1 p t); [done|done|done|done|done|done|simpl; nia|apply Hstop].
  - pose proof (exec_calls_spec clock alloc Hclock Halloc out q1 _ Hwf1 Hok ltac:(simpl; nia)) as H1.
    destruct (exec_calls clock alloc _ q1) as [q2|e]; simpl in *; [|by destruct H1 as (-> & _)].
    destruct H1 as [Hwf2 [Hh _ Hca _ _ Hn]]. simpl in *. apply IH; try done; [set_solver|by apply elem_of_cons in Hp as [?|]|by rewrite Hca|nia|].
    rewrite Hh; [done|]. apply Hout. by apply elem_of_cons in Hp as [?|?]; [|right].
Qed.

Lemma HandleRead_stops q id p t :
  wf [] q → num_created_ q + Z.of_nat (K * length (timers_ q)) ≤ INT64_MAX →
  active_timers_ q !! id = Some p → heap q !! p = Some t → expiration_ t ≤ clock (clock_reads q) →
  (∀ n, CallStop id ∈ user n (callback_ t)) → HandleRead clock alloc user q = Err EndIterator.
Proof.
  intros Hwf Hmax Hact Ht Hdue Hstop. unfold HandleRead, NowTime. set (now := clock (clock_reads q)) in *.
  assert (Hwf0 : wf [] (readTimerfd (count_read q))) by (by apply (wf_ext [] q)).
  destruct (GetExpired_spec now [] _ Hwf0) as (a & b & act & -> & Hab & Ha & Hb & Hwf1). simpl in *.
  rewrite app_nil_r in Hwf1. destruct (wf_registered _ _ _ _ Hwf Hact) as (t' & Ht' & <- & Hin). simplify_eq.
  rewrite Hab, length_app in Hmax.
  erewrite stop_in_callback; [done|by eapply wf_ext; [..|exact Hwf1]|done|done|simpl; nia| |exact Ht|exact Hstop].
  apply list_elem_of_fmap. exists (expiration_ t, p). split; [done|]. rewrite Hab in Hin.
  apply elem_of_app in Hin as [?|Hin]; [done|]. rewrite Forall_forall in Hb. specialize (Hb _ Hin). simpl in Hb. lia.
Qed.

(** ** Callbacks that stop no timer *)
Definition extends (q q' : TimerQueue) : Prop :=
  (∀ e, e ∈ timers_ q → e ∈ timers_ q') ∧ heap q ⊆ heap q'.

Lemma extends_trans q1 q2 q3 : extends q1 q2 → extends q2 q3 → extends q1 q3.
Proof. intros [H1 H2] [H3 H4]. split; [auto|by etransitivity]. Qed.

Lemma AddTimer_extends out q cb when interval :
  wf out q → stamp_ok when → (f64_lt f64_zero interval = true → interval_ok interval) →
  num_created_ q < INT64_MAX →
  wp (AddTimer clock alloc cb when interval q) (λ r, extends q r.2).
Proof.
  intros Hwf Hw Hi Hmax.
  destruct (AddTimer_spec clock alloc Hclock Halloc out q cb when interval Hwf Hw Hi Hmax)
    as (q' & -> & _ & Hh & Ht & _). simpl. destruct (Halloc (heap q)) as [Hn _]; [by eapply wf_heap_size|].
  split; [|rewrite Hh; by apply insert_subseteq].
  intros e He. rewrite Ht, set_emplace_perm; [set_solver|].
  intros Hin. destruct (wf_entry _ _ Hwf _ _ Hin) as (t & Hp & _). congruence.
Qed.

Lemma exec_call_extends out q c :
  wf out q → call_ok c → (∀ id, c ≠ CallStop id) → num_created_ q < INT64_MAX →
  wp (exec_call clock alloc c q) (extends q).
Proof.
  intros Hwf Hc Hns Hmax.
  assert (Hwf' : wf out (count_read q)) by (by apply (wf_ext out q)).
  destruct c as [time cb|d cb|i cb|id]; simpl in *; [| | |by destruct (Hns id)].
  - apply wp_bind. eapply wp_mono; [by eapply (AddTimer_extends out)|]. by intros [].
  - unfold AddtimerAfterTime, NowTime.
    destruct (AddTime_ok _ _ (Hclock (clock_reads q)) Hc) as (w & -> & _ & Hw). simpl.
    apply wp_bind. eapply wp_mono; [by eapply (AddTimer_extends out)|]. by intros [].
  - unfold AddtimerEveryTime, NowTime.
    destruct (AddTime_ok _ _ (Hclock (clock_reads q)) Hc) as (w & -> & _ & Hw). simpl.
    apply wp_bind. eapply wp_mono; [by eapply (AddTimer_extends out)|]. by intros [].
Qed.

Lemma exec_calls_extends out q cs :
  wf out q → Forall call_ok cs → (∀ id, CallStop id ∉ cs) →
  num_created_ q + Z.of_nat (length cs) ≤ INT64_MAX →
  wp (exec_calls clock alloc cs q) (extends q).
Proof.
  revert q. induction cs as [|c cs IH]; intros q Hwf Hok Hns Hmax; simpl in *; [done|].
  apply Forall_cons in Hok as [Hc Hcs].
  assert (Hx : ∀ id, c ≠ CallStop id) by (intros id ->; apply (Hns id); set_solver).
  pose proof (exec_call_spec clock alloc Hclock Halloc out q c Hwf Hc ltac:(lia)) as H1.
  pose proof (exec_call_extends out q c Hwf Hc Hx ltac:(lia)) as H2.
  apply wp_bind. destruct (exec_call clock alloc c q) as [q1|]; simpl in *; [|done].
  destruct H1 as [Hwf1 Hf]. destruct (fr_created _ _ _ _ Hf).
  eapply wp_mono; [apply IH; [done|done|set_solver|lia]|]. intros q2. by apply extends_trans.
Qed.

Lemma start_all_extends expired out q :
  ¬ may_stop user → wf out q → (∀ p, p ∈ expired.*2 → p ∈ out) →
  num_created_ q + Z.of_nat (K * length expired) ≤ INT64_MAX →
  wp (start_all clock alloc user expired q) (extends q).
Proof.
  intros Hns. revert q. induction expired as [|[w p] expired IH]; intros q Hwf Hin Hmax; [done|].
  simpl start_all. unfold Start. simpl in Hin, Hmax.
  destruct (wf_elem_out _ _ p Hwf) as [t Ht]; [apply Hin; set_solver|].
  simpl snd. rewrite (deref_some _ _ _ Ht). simpl.
  destruct (Huser (length (started q)) (callback_ t)) as [Hok Hlen].
  assert (Hx : ∀ id, CallStop id ∉ user (length (started q)) (callback_ t)).
  { intros id Hid. apply Hns. by exists (length (started q)), (callback_ t), id. }
  set (cs := user _ _) in *. set (q1 := log_start (callback_ t) q).
  assert (Hwf1 : wf out q1) by (by apply (wf_ext out q)).
  pose proof (exec_calls_spec clock alloc Hclock Halloc out q1 cs Hwf1 Hok ltac:(simpl; nia)) as H1.
  pose proof (exec_calls_extends out q1 cs Hwf1 Hok Hx ltac:(simpl; nia)) as H2.
  apply wp_bind. destruct (exec_calls clock alloc cs q1) as [q2|]; simpl in *; [|done].
  destruct H1 as [Hwf2 Hf]. destruct (fr_created _ _ _ _ Hf). simpl in *.
  eapply wp_mono; [apply IH; [done|set_solver|nia]|]. intros q3. by apply extends_trans.
Qed.

Lemma HandleRead_keeps q :
  ¬ may_stop user → wf [] q →
  num_created_ q + Z.of_nat (K * length (timers_ q)) ≤ INT64_MAX →
  wp (HandleRead clock alloc user q)
    (λ q', ∀ w p t, (w, p) ∈ timers_ q → clock (clock_reads q) < w → heap q !! p = Some t →
       (w, p) ∈ timers_ q' ∧ heap q' !! p = Some t).
Proof.
  intros Hns Hwf Hmax. unfold HandleRead, NowTime. set (now := clock (clock_reads q)).
  assert (Hwf0 : wf [] (readTimerfd (count_read q))) by (by apply (wf_ext [] q)).
  destruct (GetExpired_spec now [] _ Hwf0) as (a & b & act & -> & Hab & Ha & Hb & Hwf1). simpl in *.
  rewrite app_nil_r in Hwf1.
  match goal with |- context [start_all _ _ _ _ ?x] => set (q2 := x) end.
  assert (Hwf2 : wf a.*2 q2) by (by eapply wf_ext; [..|exact Hwf1]).
  rewrite Hab, length_app in Hmax.
  pose proof (start_all_spec a _ q2 Hwf2 ltac:(done) ltac:(simpl; nia)) as Hs.
  pose proof (start_all_extends a _ q2 Hns Hwf2 ltac:(done) ltac:(simpl; nia)) as Hx. simpl in Hx.
  apply wp_bind. destruct (start_all clock alloc user a q2) as [q3|]; simpl in *; [|done].
  destruct Hs as (Hwf3 & _ & _ & _ & Hcc3 & _). destruct Hx as [Hxt Hxh].
  assert (Hwf4 : wf a.*2 (set_calling false q3)) by (by apply (wf_ext _ q3)).
  assert (Hnow : 0 < now ≤ 2 ^ 61) by apply Hclock.
  destruct (Reset_spec a now _ Hwf4 Hnow Hcc3) as (q5 & q4 & Hr4 & -> & _ & Ht5 & Hh5 & _).
  destruct (reset_all_spec a now _ Hwf4 Hnow Hcc3) as (q4' & Hr4' & _ & _ & Hh & Hm & _).
  rewrite Hr4 in Hr4'. simplify_eq. simpl in *. intros w p t Hin Hw Ht.
  assert (Hb' : (w, p) ∈ b).
  { rewrite Hab in Hin. apply elem_of_app in Hin as [Hin|]; [|done].
    rewrite Forall_forall in Ha. specialize (Ha _ Hin). simpl in Ha. lia. }
  rewrite Ht5, Hh5, Hh; [split; [by apply Hm, Hxt|by apply (lookup_weaken (heap q))]|].
  intros Hp. apply (wf_out_nin _ _ p Hwf2 Hp). apply list_elem_of_fmap. by exists (w, p).
Qed.
End Run.
