(* ===== verification/TimerQueueSpec.v ===== *)
(** * The timer queue: its properties, with a concrete clock, allocator and
    user code as witnesses. *)
From S2P Require Import Prelude CInt Float64 TimerStamp TimerQueue TimerQueueInv TimerQueueRun.

(** ** Histories of a queue

    Between two rounds of the event loop the program calls the manager; a round
    runs [HandleRead].  The counters stay below [INT64_MAX]. *)
Inductive queue_step (clock : nat → Z) (alloc : gmap Z Timer → Z) (user : nat → Z → list call)
    (K : nat) : TimerQueue → TimerQueue → Prop :=
  | step_call c q q' :
      call_ok c → num_created_ q < INT64_MAX → exec_call clock alloc c q = Ok q' →
      queue_step clock alloc user K q q'
  | step_read q q' :
      num_created_ q + Z.of_nat (K * length (timers_ q)) ≤ INT64_MAX →
      HandleRead clock alloc user q = Ok q' →
      queue_step clock alloc user K q q'.

Lemma wf_new_queue flag n : 0 ≤ n ≤ INT64_MAX → wf [] (new_TimerQueue flag n).
Proof.
  intros Hn. constructor; simpl; try done; try (by constructor).
  - intros p. rewrite lookup_empty. split; [by intros []|by intros ?%not_elem_of_nil].
  - by intros w p ?%not_elem_of_nil.
Qed.

Lemma armed_now_head clock q : armed_now clock q → armed_for_head q.
Proof.
  unfold armed_now, armed_for_head. destruct (timers_ q) as [|[w p] l]; [done|].
  intros (e & es & He & Hd & _). exists e, es. split; [done|]. unfold covers. lia.
Qed.

Lemma delete_timers_spec l q :
  NoDup l.*2 → (∀ p, p ∈ l.*2 → is_Some (heap q !! p)) →
  ∃ q', delete_timers l q = Ok q' ∧ ∀ p, heap q' !! p = if decide (p ∈ l.*2) then None else heap q !! p.
Proof.
  revert q. induction l as [|[w p] l IH]; intros q Hnd Hin.
  { by exists q. }
  simpl in *. apply NoDup_cons in Hnd as [Hp Hnd]. destruct (Hin p) as [t Ht]; [set_solver|].
  unfold free. rewrite (deref_some _ _ _ Ht). simpl.
  destruct (IH (set_heap (delete p (heap q)) q) Hnd) as (q' & -> & Hq').
  { intros p' Hp'. simpl. rewrite lookup_delete_ne; [apply Hin; set_solver|]. by intros ->. }
  exists q'. split; [done|]. intros p'. rewrite Hq'. simpl.
  destruct (decide (p' = p)) as [->|Hne].
  - rewrite lookup_delete_eq, decide_False, decide_True by set_solver. done.
  - rewrite lookup_delete_ne by done. apply decide_ext. set_solver.
Qed.

(** ** A concrete environment *)
Fixpoint first_free (fuel : nat) (n : Z) (h : gmap Z Timer) : Z :=
  match fuel with
  | O => n
  | S fuel => if decide (h !! n = None) then n else first_free fuel (n + 1) h
  end.
Definition demo_alloc (h : gmap Z Timer) : Z := first_free (S (size h)) 1 h.
Definition demo_clock (_ : nat) : Z := 1000000.
Definition idle_user (_ : nat) (_ : Z) : list call := [].

Lemma first_free_ext fuel n h h' :
  (∀ m, n ≤ m → h' !! m = h !! m) → first_free fuel n h' = first_free fuel n h.
Proof.
  revert n. induction fuel as [|fuel IH]; intros n H; [done|]. simpl. rewrite H by lia.
  destruct (decide _); [done|]. apply IH. intros. apply H. lia.
Qed.

Lemma first_free_spec fuel n h :
  (size h < fuel)%nat →
  let r := first_free fuel n h in h !! r = None ∧ n ≤ r ≤ n + Z.of_nat (size h).
Proof.
  revert n h. induction fuel as [|fuel IH]; intros n h Hs; [lia|]. simpl.
  destruct (decide (h !! n = None)) as [|Hn]; [split; [done|lia]|].
  assert (Hsz : size h = S (size (delete n h))).
  { rewrite map_size_delete. destruct (h !! n) eqn:Hl; [|done]. simpl.
    assert (size h ≠ 0%nat); [|lia]. intros ->%map_size_empty_inv. by rewrite lookup_empty in Hl. }
  destruct (IH (n + 1) (delete n h)) as [H1 H2]; [lia|].
  rewrite (first_free_ext _ _ h (delete n h)) in H1, H2 by (intros; rewrite lookup_delete_ne; [done|lia]).
  rewrite lookup_delete_ne in H1 by lia. split; [done|lia].
Qed.

Lemma demo_alloc_ok : alloc_ok demo_alloc.
Proof.
  intros h Hs. destruct (first_free_spec (S (size h)) 1 h) as [? ?]; [lia|].
  unfold demo_alloc, UINTPTR_MAX, INT64_MAX in *. split; [done|lia].
Qed.

Lemma demo_clock_ok : clock_ok demo_clock.
Proof. intros n. unfold demo_clock. lia. Qed.

Lemma idle_user_ok : user_ok idle_user 0.
Proof. intros n cb. split; [constructor|done]. Qed.

Lemma idle_user_no_stop : ¬ may_stop idle_user.
Proof. intros (n & cb & id & H). by apply elem_of_nil in H. Qed.

(** A queue with a one-shot timer (id 0, at 500000) and one every second
    (id 1), the first of which has expired. *)
Definition demo_calls : list call := [CallAtTime 500000 7; CallEveryTime (f64_of_Z 1) 8].
Definition demo_queue : TimerQueue :=
  match exec_calls demo_clock demo_alloc demo_calls (new_TimerQueue false 0) with
  | Ok q => q | Err _ => new_TimerQueue false 0 end.

Lemma interval_one_ok : interval_ok (f64_of_Z 1).
Proof. exists 1000000. split; [by vm_compute|lia]. Qed.

Lemma demo_queue_wf : wf [] demo_queue.
Proof.
  pose proof (exec_calls_spec demo_clock demo_alloc demo_clock_ok demo_alloc_ok [] (new_TimerQueue false 0)
    demo_calls (wf_new_queue false 0 ltac:(int_lia))) as H. unfold demo_queue.
  destruct (exec_calls _ _ _ _) as [q|e] eqn:He; [|by vm_compute in He].
  apply H; [|simpl; int_lia]. repeat constructor; try (unfold stamp_ok; simpl; lia).
  apply interval_one_ok.
Qed.

(** The demonstration's run: two calls and a round. *)
Lemma demo_run q : HandleRead demo_clock demo_alloc idle_user demo_queue = Ok q →
  rtc (queue_step demo_clock demo_alloc idle_user 0) (new_TimerQueue false 0) q.
Proof.
  intros Hq. assert (Hc : ∀ c q1 q2, call_ok c → (num_created_ q1 <? INT64_MAX) = true →
    exec_call demo_clock demo_alloc c q1 = Ok q2 → queue_step demo_clock demo_alloc idle_user 0 q1 q2).
  { intros c q1 q2 H1 H2%Z.ltb_lt H3. by apply (step_call _ _ _ _ c). }
  eapply rtc_l; [apply (Hc (CallAtTime 500000 7)); [unfold call_ok, stamp_ok; lia|done|by vm_compute]|].
  eapply rtc_l; [apply (Hc (CallEveryTime (f64_of_Z 1) 8)); [apply interval_one_ok|by vm_compute|by vm_compute]|].
  eapply rtc_l; [|apply rtc_refl]. apply step_read; [by vm_compute|]. rewrite <- Hq. by vm_compute.
Qed.

(** ** Properties *)

(** C1: From the constructor on, whatever the clients and the callbacks call and
    however often the descriptor fires, the two containers hold the same timers,
    every pointer in them is live, the set is strictly ordered by expiration and
    address, and the kernel timer is set for the earliest timer or for earlier:
    no timer is forgotten. *)
Theorem queue_reachable_safe clock alloc user K flag q :
  clock_ok clock → alloc_ok alloc → user_ok user K →
  rtc (queue_step clock alloc user K) (new_TimerQueue flag 0) q →
  wf [] q ∧ armed_for_head q.
Proof.
  intros Hc Ha Hu Hr. assert (H0 : wf [] (new_TimerQueue flag 0) ∧ armed_for_head (new_TimerQueue flag 0)).
  { split; [apply wf_new_queue; int_lia|done]. }
  revert H0. induction Hr as [|q1 q2 q3 Hs _ IH]; [done|]. intros [Hwf Har]. apply IH.
  destruct Hs as [c q1 q2 Hok Hn Hq|q1 q2 Hn Hq].
  - pose proof (exec_call_spec clock alloc Hc Ha [] q1 c Hwf Hok Hn) as H. rewrite Hq in H.
    destruct H as [? []]. auto.
  - pose proof (HandleRead_spec clock alloc user K Hc Ha Hu q1 Hwf Hn) as H. rewrite Hq in H.
    destruct H as (? & _ & Hnow & _). split; [done|]. by eapply armed_now_head.
Qed.

Lemma queue_reachable_safe_witness :
  ∃ q, HandleRead demo_clock demo_alloc idle_user demo_queue = Ok q ∧ wf [] q ∧ armed_for_head q.
Proof.
  destruct (HandleRead demo_clock demo_alloc idle_user demo_queue) as [q|e] eqn:Hq;
    [|by vm_compute in Hq].
  exists q. split; [done|].
  apply (queue_reachable_safe demo_clock demo_alloc idle_user 0 false);
    [apply demo_clock_ok|apply demo_alloc_ok|apply idle_user_ok|by apply demo_run].
Defined.

(** C10: When the descriptor fires, [HandleRead] runs the callbacks of exactly
    the timers whose expiration is not after the clock reading, earliest first;
    afterwards each of them is back in the set at the reading plus its interval
    if it repeats and freed if it does not, the flag is down, the containers are
    well-formed and the kernel timer is set for the earliest timer.  The only
    way to fail is a callback that stops a timer. *)
Theorem handle_read_correct clock alloc user K q :
  clock_ok clock → alloc_ok alloc → user_ok user K → wf [] q →
  num_created_ q + Z.of_nat (K * length (timers_ q)) ≤ INT64_MAX →
  let now := clock (clock_reads q) in
  let expired := filter (λ e : entry, e.1 ≤ now) (timers_ q) in
  wpe (HandleRead clock alloc user q)
    (λ q', wf [] q' ∧ callingExpiredTimers_ q' = false ∧ armed_now clock q' ∧
       started q' = rev (callbacks (heap q) expired) ++ started q ∧
       ∀ w p t, (w, p) ∈ expired → heap q !! p = Some t → rescheduled now t p q')
    (λ e, e = EndIterator ∧ may_stop user).
Proof. intros Hc Ha Hu. by apply HandleRead_spec. Qed.

Lemma handle_read_correct_witness :
  wp (HandleRead demo_clock demo_alloc idle_user demo_queue)
    (λ q', armed_now demo_clock q' ∧ started q' = [7]).
Proof.
  assert (Hn : num_created_ demo_queue + Z.of_nat (0 * length (timers_ demo_queue)) ≤ INT64_MAX)
    by (by vm_compute).
  pose proof (handle_read_correct demo_clock demo_alloc idle_user 0 demo_queue demo_clock_ok
    demo_alloc_ok idle_user_ok demo_queue_wf Hn) as H. simpl in H.
  destruct (HandleRead demo_clock demo_alloc idle_user demo_queue) as [q|e]; simpl in *.
  - destruct H as (_ & _ & Har & Hs & _). split; [exact Har|]. rewrite Hs. by vm_compute.
  - destruct H as [_ H]. by apply idle_user_no_stop in H.
Defined.

(** If no callback stops a timer, [HandleRead] succeeds, and every timer
    that has not expired is still there, unchanged. *)
Theorem handle_read_keeps_unexpired clock alloc user K q :
  clock_ok clock → alloc_ok alloc → user_ok user K → ¬ may_stop user → wf [] q →
  num_created_ q + Z.of_nat (K * length (timers_ q)) ≤ INT64_MAX →
  wp (HandleRead clock alloc user q)
    (λ q', ∀ w p t, (w, p) ∈ timers_ q → clock (clock_reads q) < w → heap q !! p = Some t →
       (w, p) ∈ timers_ q' ∧ heap q' !! p = Some t).
Proof. intros Hc Ha Hu. by apply (HandleRead_keeps clock alloc user K). Qed.

Lemma handle_read_keeps_unexpired_witness :
  wp (HandleRead demo_clock demo_alloc idle_user demo_queue) (λ q', (2000000, 2) ∈ timers_ q').
Proof.
  assert (Hn : num_created_ demo_queue + Z.of_nat (0 * length (timers_ demo_queue)) ≤ INT64_MAX)
    by (by vm_compute).
  eapply wp_mono; [apply (handle_read_keeps_unexpired demo_clock demo_alloc idle_user 0 demo_queue
    demo_clock_ok demo_alloc_ok idle_user_ok idle_user_no_stop demo_queue_wf Hn)|].
  intros q' H. apply (H 2000000 2 (new_Timer 8 2000000 (f64_of_Z 1) 1)); [|by vm_compute..].
  assert (Ht : timers_ demo_queue = [(500000, 1); (2000000, 2)]) by (by vm_compute).
  rewrite Ht. right. left.
Defined.

(** C13: [AddTimer] returns the number of the new timer, which goes into the set
    at its expiration and under its number into the map; the queue stays
    well-formed and the kernel timer set early enough, also while a round of
    expired timers ([out]) is being run. *)
Theorem add_timer_correct clock alloc out cb when interval q :
  clock_ok clock → alloc_ok alloc → wf out q → stamp_ok when →
  (f64_lt f64_zero interval = true → interval_ok interval) → num_created_ q < INT64_MAX →
  ∃ q' p, AddTimer clock alloc cb when interval q = Ok (num_created_ q, q') ∧ wf out q' ∧
    heap q !! p = None ∧
    heap q' = <[p := new_Timer cb when interval (num_created_ q)]> (heap q) ∧
    timers_ q' ≡ₚ (when, p) :: timers_ q ∧
    active_timers_ q' = <[num_created_ q := p]> (active_timers_ q) ∧
    (armed_for_head q → armed_for_head q').
Proof.
  intros Hc Ha Hwf Hw Hi Hn.
  destruct (AddTimer_spec clock alloc Hc Ha out q cb when interval Hwf Hw Hi Hn)
    as (q' & -> & Hwf' & Hh & Ht & Hac & []).
  destruct (Ha (heap q)) as [Hnone _]; [by eapply wf_heap_size|].
  exists q', (alloc (heap q)). split_and!; try done.
  rewrite Ht. apply set_emplace_perm. intros Hin.
  destruct (wf_entry _ _ Hwf _ _ Hin) as (t & Hp & _). congruence.
Qed.

Lemma add_timer_correct_witness :
  ∃ q', AddTimer demo_clock demo_alloc 9 100 f64_zero demo_queue = Ok (2, q').
Proof.
  destruct (add_timer_correct demo_clock demo_alloc [] 9 100 f64_zero demo_queue demo_clock_ok
    demo_alloc_ok demo_queue_wf) as (q' & p & H & _);
    [unfold stamp_ok; lia|intros Hf; by vm_compute in Hf|by vm_compute|].
  exists q'. rewrite H. done.
Defined.

(** [StopTimer] of a timer in the queue removes it from both containers and
    frees it, and leaves everything else, the timers being run included. *)
Theorem stop_timer_removes out q id p :
  wf out q → active_timers_ q !! id = Some p →
  ∃ q' t, StopTimer id q = Ok q' ∧ wf out q' ∧ heap q !! p = Some t ∧
    heap q' = delete p (heap q) ∧ timers_ q ≡ₚ (expiration_ t, p) :: timers_ q' ∧
    active_timers_ q' = delete id (active_timers_ q) ∧ started q' = started q ∧
    (armed_for_head q → armed_for_head q').
Proof.
  intros Hwf Ha. destruct (CancelInLoop_spec _ _ _ _ Hwf Ha) as (q' & t & Hq & ? & Ht & ? & Hti & ? & []).
  exists q', t. split_and!; try done. rewrite Hti. apply set_erase_perm; [apply Hwf|].
  destruct (wf_active _ _ Hwf _ _ Ha) as (Hin & _).
  apply list_elem_of_fmap in Hin as ([w p'] & -> & Hin). simpl in *.
  destruct (wf_entry _ _ Hwf _ _ Hin) as (t' & Ht' & <- & _). by simplify_eq.
Qed.

Lemma stop_timer_removes_witness : ∃ q', StopTimer 1 demo_queue = Ok q' ∧ heap q' !! 2 = None.
Proof.
  destruct (stop_timer_removes [] demo_queue 1 2 demo_queue_wf) as (q' & t & Hq & _ & _ & Hh & _);
    [by vm_compute|].
  exists q'. split; [exact Hq|]. rewrite Hh. apply lookup_delete_eq.
Defined.

(** Stopping an unknown (fired, stopped or never issued) timer does nothing
    outside a round; during a round, where the branch meant for a timer that
    stops itself is taken, it dereferences the end iterator of the map. *)
Theorem stop_timer_absent out q id :
  wf out q → active_timers_ q !! id = None →
  StopTimer id q = if callingExpiredTimers_ q then Err EndIterator else Ok q.
Proof. apply CancelInLoop_absent. Qed.

Lemma stop_timer_absent_witness : StopTimer 5 demo_queue = Ok demo_queue.
Proof. rewrite (stop_timer_absent [] demo_queue 5 demo_queue_wf); by vm_compute. Defined.

(** C11: A timer whose callback stops that very timer, the case
    [cancelingTimers_] exists for, is undefined behaviour when it fires: whatever
    else is in the queue, whatever the other callbacks do and whenever the round
    comes, the round in which it is due dereferences the end iterator. *)
Theorem self_stop_fails clock alloc user K q id p t :
  clock_ok clock → alloc_ok alloc → user_ok user K → wf [] q →
  num_created_ q + Z.of_nat (K * length (timers_ q)) ≤ INT64_MAX →
  active_timers_ q !! id = Some p → heap q !! p = Some t → expiration_ t ≤ clock (clock_reads q) →
  (∀ n, CallStop id ∈ user n (callback_ t)) →
  HandleRead clock alloc user q = Err EndIterator.
Proof. intros Hc Ha Hu Hwf Hmax Hact Ht Hdue Hs. by apply (HandleRead_stops clock alloc user K Hc Ha Hu q id p t). Qed.

(** The repeating timer 1 of the demonstration, whose callback 8 stops it, at a
    time when both timers are due. *)
Definition stop_itself (n : nat) (cb : Z) : list call := if cb =? 8 then [CallStop 1] else [].

Lemma self_stop_fails_witness : HandleRead (λ _, 3000000) demo_alloc stop_itself demo_queue = Err EndIterator.
Proof.
  refine (self_stop_fails (λ _, 3000000) demo_alloc stop_itself 1 demo_queue 1 2 (MkTimer 8 2000000 (f64_of_Z 1) true 1) _ _ _ _ _ _ _ _ _);
    [intros n; lia|apply demo_alloc_ok| |apply demo_queue_wf|by vm_compute|by vm_compute|by vm_compute|simpl; lia|by left].
  intros n cb. unfold stop_itself. destruct (cb =? 8); (split; [repeat constructor|simpl; lia]).
Defined.

(** [GetExpired] takes out of both containers exactly the timers whose
    expiration is not after [now], in order of expiration, and none of the
    others; no timer is freed. *)
Theorem get_expired_exact now out q :
  wf out q →
  ∃ expired q', GetExpired now q = Ok (expired, q') ∧ wf (expired.*2 ++ out) q' ∧
    timers_ q = expired ++ timers_ q' ∧ heap q' = heap q ∧
    Forall (λ e, e.1 ≤ now) expired ∧ Forall (λ e, now < e.1) (timers_ q').
Proof.
  intros Hwf. destruct (GetExpired_spec now out q Hwf) as (a & b & act & H1 & H2 & H3 & H4 & H5).
  exists a, (set_timers b act q). by split_and!.
Qed.

Lemma get_expired_exact_witness :
  ∃ expired q', GetExpired 600000 demo_queue = Ok (expired, q') ∧ heap q' = heap demo_queue.
Proof.
  destruct (get_expired_exact 600000 [] demo_queue demo_queue_wf) as (a & q' & H & _ & _ & Hh & _).
  exact (ex_intro _ a (ex_intro _ q' (conj H Hh))).
Defined.

(** The destructor frees every timer once, and none remains. *)
Theorem destroy_frees_all q :
  wf [] q → ∃ q', destroy_TimerQueue q = Ok q' ∧ heap q' = ∅.
Proof.
  intros Hwf. destruct (delete_timers_spec (timers_ q) q) as (q' & Hq & Hh).
  - pose proof (wf_nodup _ _ Hwf) as H. by rewrite app_nil_r in H.
  - intros p Hp. apply (wf_dom _ _ Hwf). by rewrite app_nil_r.
  - exists q'. split; [done|]. apply map_empty. intros p. rewrite Hh.
    destruct (decide _) as [|Hn]; [done|]. apply eq_None_not_Some. intros Hs.
    apply Hn. apply (wf_dom _ _ Hwf) in Hs. by rewrite app_nil_r in Hs.
Qed.

Lemma destroy_frees_all_witness : ∃ q', destroy_TimerQueue demo_queue = Ok q' ∧ heap q' = ∅.
Proof. apply (destroy_frees_all demo_queue demo_queue_wf). Defined.
