(* ===== verification/TimerRefine.v ===== *)
(** * The timer queue refines an abstract scheduler.

    The specification knows no heap, no containers and no kernel timer: it keeps
    the jobs that wait and the jobs that run, by number.  [abs] gives the
    scheduler's state of a queue, and each call of the queue is the same call of
    the scheduler, each round one round. *)
From S2P Require Import Prelude CInt Float64 TimerStamp TimerQueue TimerQueueInv TimerQueueRun TimerQueueSpec.

(** ** The specification *)
Record sched : Type := Sched {
  waiting : gmap Z Timer;
  running : gmap Z Timer;
  next_id : Z;
  reads : nat;
  ran : list Z;
}.

Definition sched_init : sched := Sched ∅ ∅ 0 0 [].

(** A new job, the clock having been read [n] times by the end. *)
Definition schedule (cb when : Z) (interval : f64) (n : nat) (s : sched) : sched :=
  Sched (<[next_id s := new_Timer cb when interval (next_id s)]> (waiting s)) (running s)
    (next_id s + 1) n (ran s).
(** A cancelled job neither waits any more nor is started again. *)
Definition cancel (id : Z) (s : sched) : sched :=
  Sched (delete id (waiting s)) (delete id (running s)) (next_id s) (reads s) (ran s).
Definition log_run (cb : Z) (s : sched) : sched :=
  Sched (waiting s) (running s) (next_id s) (reads s) (cb :: ran s).

Definition is_due (now : Z) (j : Z * Timer) : Prop := expiration_ j.2 ≤ now.
#[global] Instance is_due_dec now j : Decision (is_due now j).
Proof. unfold is_due. apply _. Defined.
Definition take_due (now : Z) (n : nat) (s : sched) : sched :=
  Sched (filter (λ j, ¬ is_due now j) (waiting s)) (filter (is_due now) (waiting s)) (next_id s) n (ran s).

(** A repeating job waits for [now] plus its interval. *)
Definition restart (now : Z) (t : Timer) : option Timer :=
  if repeat_ t then
    match AddTime now (interval_ t) with
    | Ok w => Some (MkTimer (callback_ t) w (interval_ t) true (sequence_ t))
    | Err _ => None
    end
  else None.
Definition put_back (now : Z) (n : nat) (s : sched) : sched :=
  Sched (omap (restart now) (running s) ∪ waiting s) ∅ (next_id s) n (ran s).

Section Spec.
Context (clock : nat → Z) (user : nat → Z → list call).

Inductive sched_call : call → sched → sched → Prop :=
  | sched_at time cb n s :
      (reads s ≤ n)%nat → sched_call (CallAtTime time cb) s (schedule cb time f64_zero n s)
  | sched_after d cb w m n s :
      (reads s ≤ m < n)%nat → AddTime (clock m) d = Ok w →
      sched_call (CallAfterTime d cb) s (schedule cb w f64_zero n s)
  | sched_every i cb w m n s :
      (reads s ≤ m < n)%nat → AddTime (clock m) i = Ok w →
      sched_call (CallEveryTime i cb) s (schedule cb w i n s)
  | sched_stop id s : sched_call (CallStop id) s (cancel id s).

Inductive sched_calls : list call → sched → sched → Prop :=
  | sched_calls_nil s : sched_calls [] s s
  | sched_calls_cons c cs s1 s2 s3 :
      sched_call c s1 s2 → sched_calls cs s2 s3 → sched_calls (c :: cs) s1 s3.

(** The jobs run one after another, each with the calls of its callback. *)
Inductive run_jobs : list Timer → sched → sched → Prop :=
  | run_jobs_nil s : run_jobs [] s s
  | run_jobs_cons t ts s1 s2 s3 :
      sched_calls (user (length (ran s1)) (callback_ t)) (log_run (callback_ t) s1) s2 →
      run_jobs ts s2 s3 → run_jobs (t :: ts) s1 s3.

Definition earlier (a b : Timer) : Prop := expiration_ a ≤ expiration_ b.

(** A run of the queue, and of the scheduler, is a sequence of these. *)
Inductive queue_event : Type := Called (c : call) | Round.

Inductive sched_step : list queue_event → sched → sched → Prop :=
  | sched_client c s s' : sched_call c s s' → sched_step [Called c] s s'
  | sched_round m now jobs s s1 n :
      (reads s ≤ m)%nat → now = clock m →
      jobs ≡ₚ (map_to_list (running (take_due now (S m) s))).*2 → StronglySorted earlier jobs →
      run_jobs jobs (take_due now (S m) s) s1 → (reads s1 ≤ n)%nat →
      sched_step [Round] s (put_back now n s1).
End Spec.

(** The steps of [queue_step], with what they are. *)
Inductive queue_shows (clock : nat → Z) (alloc : gmap Z Timer → Z) (user : nat → Z → list call) (K : nat) :
    list queue_event → TimerQueue → TimerQueue → Prop :=
  | shows_call c q q' : call_ok c → num_created_ q < INT64_MAX → exec_call clock alloc c q = Ok q' →
      queue_shows clock alloc user K [Called c] q q'
  | shows_round q q' : num_created_ q + Z.of_nat (K * length (timers_ q)) ≤ INT64_MAX →
      HandleRead clock alloc user q = Ok q' → queue_shows clock alloc user K [Round] q q'.

Lemma queue_step_shows clock alloc user K q q' :
  queue_step clock alloc user K q q' ↔ ∃ es, queue_shows clock alloc user K es q q'.
Proof.
  split; [intros [c|]; eexists; by constructor|]. intros [es Hs].
  destruct Hs as [c q q' ? ? ?|q q' ? ?]; [by eapply step_call|by eapply step_read].
Qed.

(** ** The abstraction *)

(** The timers at the addresses [ps], by number. *)
Definition jobs_at (h : gmap Z Timer) (ps : list Z) : gmap Z Timer :=
  list_to_map (omap (λ p, t ← h !! p; Some (sequence_ t, t)) ps).
Definition abs (out : list Z) (q : TimerQueue) : sched :=
  Sched (jobs_at (heap q) (timers_ q).*2) (jobs_at (heap q) out) (num_created_ q) (clock_reads q) (started q).

(** ** Lemmas *)
Definition seq_inj (h : gmap Z Timer) : Prop :=
  ∀ p1 p2 t1 t2, h !! p1 = Some t1 → h !! p2 = Some t2 → sequence_ t1 = sequence_ t2 → p1 = p2.

Lemma jobs_at_cons h p ps :
  jobs_at h (p :: ps) = match h !! p with Some t => <[sequence_ t := t]> (jobs_at h ps) | None => jobs_at h ps end.
Proof. unfold jobs_at. cbn. by destruct (h !! p). Qed.

Lemma jobs_at_spec h ps id t :
  seq_inj h → jobs_at h ps !! id = Some t ↔ ∃ p, p ∈ ps ∧ h !! p = Some t ∧ sequence_ t = id.
Proof.
  intros Hinj. induction ps as [|p ps IH].
  { split; [done|]. by intros (p & ?%not_elem_of_nil & _). }
  rewrite jobs_at_cons. destruct (h !! p) as [t0|] eqn:Hp.
  - rewrite lookup_insert_Some, IH. split.
    + intros [[<- <-]|(_ & p' & ? & ? & ?)]; [exists p|exists p']; set_solver.
    + intros (p' & [->|Hin]%elem_of_cons & Ht & <-); [left; by simplify_eq|].
      destruct (decide (sequence_ t0 = sequence_ t)) as [He|]; [|right; split; [done|by exists p']].
      left. rewrite (Hinj _ _ _ _ Hp Ht He) in Hp. by simplify_eq.
  - rewrite IH. split; intros (p' & Hin & Ht & <-); exists p'; [set_solver|].
    apply elem_of_cons in Hin as [->|]; [congruence|done].
Qed.

Lemma jobs_ext (m1 m2 : gmap Z Timer) : (∀ id t, m1 !! id = Some t ↔ m2 !! id = Some t) → m1 = m2.
Proof. intros H. apply map_eq. intros id. apply option_eq, H. Qed.

Lemma wf_jobs out q id t : wf out q →
  (waiting (abs out q) !! id = Some t ↔ ∃ p, p ∈ (timers_ q).*2 ∧ heap q !! p = Some t ∧ sequence_ t = id) ∧
  (running (abs out q) !! id = Some t ↔ ∃ p, p ∈ out ∧ heap q !! p = Some t ∧ sequence_ t = id).
Proof. intros Hwf. split; apply jobs_at_spec; exact (wf_seq_inj _ _ Hwf). Qed.

(** Equal abstract states, from what their jobs are. *)
Lemma sched_eq (s1 s2 : sched) :
  (∀ id t, waiting s1 !! id = Some t ↔ waiting s2 !! id = Some t) →
  (∀ id t, running s1 !! id = Some t ↔ running s2 !! id = Some t) →
  next_id s1 = next_id s2 → reads s1 = reads s2 → ran s1 = ran s2 → s1 = s2.
Proof. intros H1%jobs_ext H2%jobs_ext. destruct s1, s2. simpl in *. congruence. Qed.

(** The readings of the clock only grow. *)
Lemma resetTimerfd_reads clock w q q' : resetTimerfd clock w q = Ok q' → clock_reads q' = S (clock_reads q).
Proof. unfold resetTimerfd, howMuchTimeFronNow. simpl. destruct (lsub _ _); [|done]. simpl. by intros [= <-]. Qed.

Lemma insert_timer_reads p q r : insert_timer p q = Ok r → clock_reads r.2 = clock_reads q.
Proof.
  unfold insert_timer. destruct (assert_sizes q); [|done]. destruct (deref p q); [|done]. simpl.
  destruct (assert_sizes _); [|done]. by intros [= <-].
Qed.

Lemma AddTimer_reads clock alloc cb when interval q r :
  AddTimer clock alloc cb when interval q = Ok r → (clock_reads q ≤ clock_reads r.2)%nat.
Proof.
  unfold AddTimer, AddTimerInLoop. set (q0 := set_heap _ _). destruct (insert_timer _ q0) as [[b q1]|] eqn:Hi; [|done].
  apply insert_timer_reads in Hi. simpl in Hi |- *. destruct b.
  - destruct (deref _ q1); [|done]. simpl. destruct (resetTimerfd _ _ _) as [q2|] eqn:Hr; [|done].
    apply resetTimerfd_reads in Hr. simpl. destruct (deref _ q2); [|done]. intros [= <-]. simpl. lia.
  - simpl. destruct (deref _ q1); [|done]. intros [= <-]. simpl. lia.
Qed.

Lemma CancelInLoop_reads id q q' : CancelInLoop id q = Ok q' → clock_reads q' = clock_reads q.
Proof.
  unfold CancelInLoop, free. destruct (active_timers_ q !! id) as [p|].
  - destruct (deref p q); [|done]. simpl. destruct (assert_sizes _); [|done]. by intros [= <-].
  - destruct (callingExpiredTimers_ q); [done|]. simpl. destruct (assert_sizes _); [|done]. by intros [= <-].
Qed.

Lemma GetExpired_reads now q r : GetExpired now q = Ok r → clock_reads r.2 = clock_reads q.
Proof.
  assert (He : ∀ l q q', erase_active l q = Ok q' → clock_reads q' = clock_reads q).
  { induction l as [|[w p] l IH]; intros q1 q2; simpl; [by intros [= <-]|].
    destruct (deref p q1); [|done]. simpl. intros ->%IH. done. }
  unfold GetExpired. destruct (split_upper _ _) as [a b]. destruct (erase_active _ _) as [q1|] eqn:H1; [|done].
  apply He in H1. simpl. destruct (assert_sizes _); [|done]. by intros [= <-].
Qed.

Lemma Reset_reads clock expired now q q' : Reset clock expired now q = Ok q' → (clock_reads q ≤ clock_reads q')%nat.
Proof.
  assert (Hr : ∀ l q q', reset_all l now q = Ok q' → clock_reads q' = clock_reads q).
  { induction l as [|[w p] l IH]; intros q1 q2; simpl; [by intros [= <-]|]. destruct (deref p q1) as [t|]; [|done]. simpl.
    destruct (repeat_ t && _).
    - destruct (ReStart now t) as [t'|]; [|done]. simpl. destruct (insert_timer _ _) as [[b q3]|] eqn:Hi; [|done].
      apply insert_timer_reads in Hi. simpl in Hi |- *. intros ->%IH. done.
    - unfold free. destruct (deref p q1); [|done]. simpl. intros ->%IH. done. }
  unfold Reset. destruct (reset_all expired now q) as [q1|] eqn:H1; [|done]. apply Hr in H1. simpl.
  destruct (timers_ q1) as [|it l1]; [by intros [= <-]; lia|]. destruct (deref _ _) as [t|]; [|done]. simpl.
  destruct (Valid _); [|intros [= <-]; lia]. intros ->%resetTimerfd_reads. lia.
Qed.

(** Timers are out of the containers in a round only. *)
Definition in_round (out : list Z) (q : TimerQueue) : Prop := out = [] ∨ callingExpiredTimers_ q = true.

Section Refine.
Context (clock : nat → Z) (alloc : gmap Z Timer → Z).
Context (Hclock : clock_ok clock) (Halloc : alloc_ok alloc).

Lemma abs_AddTimer out q cb when interval :
  wf out q → stamp_ok when → (f64_lt f64_zero interval = true → interval_ok interval) →
  num_created_ q < INT64_MAX →
  ∃ q', AddTimer clock alloc cb when interval q = Ok (num_created_ q, q') ∧ wf out q' ∧
    (clock_reads q ≤ clock_reads q')%nat ∧ abs out q' = schedule cb when interval (clock_reads q') (abs out q).
Proof using Hclock Halloc.
  intros Hwf Hw Hi Hmax.
  destruct (AddTimer_spec clock alloc Hclock Halloc out q cb when interval Hwf Hw Hi Hmax)
    as (q' & Hq & Hwf' & Hh & Ht & _ & [Hout Hst _ _ _ Hn]).
  exists q'. split; [done|]. split; [done|]. pose proof (AddTimer_reads _ _ _ _ _ _ _ Hq) as Hr.
  split; [exact Hr|]. destruct (Halloc (heap q)) as [Hnone _]; [by eapply wf_heap_size|].
  set (p := alloc (heap q)) in *. set (t := new_Timer cb when interval (num_created_ q)) in *.
  assert (Hp : timers_ q' ≡ₚ (when, p) :: timers_ q).
  { rewrite Ht. apply set_emplace_perm. intros Hin. destruct (wf_entry _ _ Hwf _ _ Hin) as (t' & ? & _). congruence. }
  assert (Hps : ∀ p', p' ∈ (timers_ q').*2 ↔ p' = p ∨ p' ∈ (timers_ q).*2).
  { intros p'. rewrite Hp. cbn. by rewrite elem_of_cons. }
  assert (Hold : ∀ p' t', heap q !! p' = Some t' → sequence_ t' ≠ num_created_ q).
  { intros p' t' Ht'. apply (wf_timer _ _ Hwf) in Ht' as (_ & ? & _). lia. }
  assert (Hnp : ∀ p', p' ∈ (timers_ q).*2 ++ out → p' ≠ p).
  { intros p' Hin ->. apply (wf_dom _ _ Hwf) in Hin as [? ?]. congruence. }
  apply sched_eq; simpl; [| | |done|done].
  - intros id t'. rewrite lookup_insert_Some. setoid_rewrite (proj1 (wf_jobs out q' id t' Hwf')).
    setoid_rewrite (proj1 (wf_jobs out q id t' Hwf)). setoid_rewrite Hps. rewrite Hh. split.
    + intros (p' & [->|Hin] & Hl & <-); [left; rewrite lookup_insert_eq in Hl; by simplify_eq|].
      assert (p' ≠ p) by (apply Hnp; set_solver). rewrite lookup_insert_ne in Hl by done.
      right. split; [apply not_eq_sym; by eapply Hold|]. by exists p'.
    + intros [[<- <-]|(Hne & p' & Hin & Hl & <-)].
      * exists p. rewrite lookup_insert_eq. split; [by left|done].
      * exists p'. split; [by right|]. split; [|done]. rewrite lookup_insert_ne; [done|].
        intros <-. by apply (Hnp p); [set_solver|].
  - intros id t'. setoid_rewrite (proj2 (wf_jobs out q' id t' Hwf')). setoid_rewrite (proj2 (wf_jobs out q id t' Hwf)).
    split; intros (p' & Hin & Hl & <-); exists p'; (split; [done|]; split; [|done]); by rewrite Hout in * || by rewrite <- (Hout p').
  - assert (heap q' !! p = Some t) as Htp by (rewrite Hh; apply lookup_insert_eq).
    apply (wf_timer _ _ Hwf') in Htp as (_ & Htp & _). simpl in Htp. lia.
Qed.

Lemma abs_cancel out q id q' :
  wf out q → in_round out q → CancelInLoop id q = Ok q' → wf out q' ∧ abs out q' = cancel id (abs out q).
Proof.
  intros Hwf Hround Hq. pose proof (CancelInLoop_reads _ _ _ Hq) as Hr.
  destruct (active_timers_ q !! id) as [p|] eqn:Ha.
  - destruct (CancelInLoop_spec _ _ _ _ Hwf Ha) as (q1 & t & Hq1 & Hwf' & Ht & Hh & Hti & _ & [Hout Hst _ _ _ Hn]).
    rewrite Hq in Hq1. injection Hq1 as <-. split; [done|].
    destruct (wf_active _ _ Hwf _ _ Ha) as (Hin & t' & Ht' & Hid). simplify_eq.
    assert (Hp : timers_ q ≡ₚ (expiration_ t, p) :: timers_ q').
    { rewrite Hti. apply set_erase_perm; [apply Hwf|]. apply list_elem_of_fmap in Hin as ([w p'] & -> & Hin).
      destruct (wf_entry _ _ Hwf _ _ Hin) as (t' & Ht' & <- & _). simpl in *. by simplify_eq. }
    assert (Hps : ∀ p', p' ∈ (timers_ q).*2 ↔ p' = p ∨ p' ∈ (timers_ q').*2).
    { intros p'. rewrite Hp. cbn. by rewrite elem_of_cons. }
    assert (Hnp : ∀ p', p' ∈ (timers_ q').*2 ++ out → p' ≠ p).
    { intros p' Hp' ->. apply (wf_dom _ _ Hwf') in Hp' as [? Hx]. by rewrite Hh, lookup_delete_eq in Hx. }
    assert (Hlo : ∀ p', p' ≠ p → heap q' !! p' = heap q !! p') by (intros p' Hne; by rewrite Hh, lookup_delete_ne).
    assert (Hseq : ∀ p' t', heap q !! p' = Some t' → sequence_ t' = sequence_ t → p' = p).
    { intros p' t' ? ?. by eapply (wf_seq_inj _ _ Hwf). }
    apply sched_eq; simpl; [| |lia|done|done].
    + intros id' t'. rewrite lookup_delete_Some. setoid_rewrite (proj1 (wf_jobs out q' id' t' Hwf')).
      setoid_rewrite (proj1 (wf_jobs out q id' t' Hwf)). setoid_rewrite Hps. split.
      * intros (p' & Hin' & Hl & <-). assert (p' ≠ p) as Hne by (apply Hnp; set_solver). rewrite Hlo in Hl by done.
        split; [|by exists p'; auto]. intros He. by apply Hne, (Hseq _ t').
      * intros (Hne & p' & [->|Hin'] & Hl & <-); [simplify_eq|].
        exists p'. split; [done|]. rewrite Hlo; [done|]. apply Hnp. set_solver.
    + intros id' t'. rewrite lookup_delete_Some. setoid_rewrite (proj2 (wf_jobs out q' id' t' Hwf')).
      setoid_rewrite (proj2 (wf_jobs out q id' t' Hwf)). split.
      * intros (p' & Hin' & Hl & <-). assert (p' ≠ p) as Hne by (apply Hnp; set_solver). rewrite Hlo in Hl by done.
        split; [|by exists p']. intros He. by apply Hne, (Hseq _ t').
      * intros (Hne & p' & Hin' & Hl & <-). exists p'. split; [done|]. rewrite Hlo; [done|]. apply Hnp. set_solver.
  - rewrite (CancelInLoop_absent _ _ _ Hwf Ha) in Hq. destruct (callingExpiredTimers_ q) eqn:Hc; [done|].
    injection Hq as <-. split; [done|].
    destruct Hround as [->|?]; [|congruence]. apply sched_eq; simpl; [|done..].
    intros id' t'. rewrite lookup_delete_Some. setoid_rewrite (proj1 (wf_jobs [] q id' t' Hwf)). split; [|by intros []].
    intros (p & Hin & Hl & <-). split; [|by exists p]. intros ->. apply list_elem_of_fmap in Hin as ([w p'] & -> & Hin).
    destruct (wf_entry _ _ Hwf _ _ Hin) as (t & Ht & _ & Hact). simpl in *. simplify_eq.
Qed.

(** One call, and the calls of a callback. *)
Lemma abs_call out q c q' :
  wf out q → in_round out q → call_ok c → num_created_ q < INT64_MAX → exec_call clock alloc c q = Ok q' →
  sched_call clock c (abs out q) (abs out q').
Proof using Hclock Halloc.
  intros Hwf Hround Hc Hmax. destruct c as [time cb|d cb|i cb|id]; simpl in *.
  - destruct (abs_AddTimer out q cb time f64_zero) as (q1 & Hq & _ & Hr & Ha); [done..|].
    unfold AddtimerAtTime. rewrite Hq. intros [= <-]. rewrite Ha. by constructor.
  - unfold AddtimerAfterTime, NowTime. destruct (AddTime_ok _ _ (Hclock (clock_reads q)) Hc) as (w & Hw & _ & Hok).
    rewrite Hw. simpl.
    destruct (abs_AddTimer out (count_read q) cb w f64_zero) as (q1 & Hq & _ & Hr & Ha);
      [by apply (wf_ext out q)|done..|].
    unfold AddtimerAtTime. rewrite Hq. intros [= <-]. rewrite Ha.
    change (schedule cb w f64_zero (clock_reads q1) (abs out (count_read q))) with (schedule cb w f64_zero (clock_reads q1) (abs out q)).
    apply (sched_after _ _ _ _ (clock_reads q)); simpl in *; [lia|done].
  - unfold AddtimerEveryTime, NowTime. destruct (AddTime_ok _ _ (Hclock (clock_reads q)) Hc) as (w & Hw & _ & Hok).
    rewrite Hw. simpl.
    destruct (abs_AddTimer out (count_read q) cb w i) as (q1 & Hq & _ & Hr & Ha);
      [by apply (wf_ext out q)|done..|].
    rewrite Hq. intros [= <-]. rewrite Ha.
    change (schedule cb w i (clock_reads q1) (abs out (count_read q))) with (schedule cb w i (clock_reads q1) (abs out q)).
    apply (sched_every _ _ _ _ (clock_reads q)); simpl in *; [lia|done].
  - intros Hq. destruct (abs_cancel _ _ _ _ Hwf Hround Hq) as [_ ->]. constructor.
Qed.

Lemma abs_calls out cs q q' :
  wf out q → in_round out q → Forall call_ok cs → num_created_ q + Z.of_nat (length cs) ≤ INT64_MAX →
  exec_calls clock alloc cs q = Ok q' → sched_calls clock cs (abs out q) (abs out q').
Proof using Hclock Halloc.
  revert q. induction cs as [|c cs IH]; intros q Hwf Hround Hok Hmax; simpl; [intros [= <-]; constructor|].
  apply Forall_cons in Hok as [Hc Hcs]. simpl length in Hmax.
  pose proof (exec_call_spec clock alloc Hclock Halloc out q c Hwf Hc ltac:(lia)) as H1.
  destruct (exec_call clock alloc c q) as [q1|] eqn:Hq; simpl in *; [|done]. destruct H1 as [Hwf1 Hf].
  intros H2. econstructor; [eapply abs_call; try done; lia|]. pose proof (fr_created _ _ _ _ Hf). apply IH; try done; [|lia].
  unfold in_round. by rewrite (fr_calling _ _ _ _ Hf).
Qed.

Context (user : nat → Z → list call) (K : nat) (Huser : user_ok user K).

Lemma omap_lookup_ext (h h' : gmap Z Timer) (ps : list Z) :
  (∀ p, p ∈ ps → h !! p = h' !! p) → omap (λ p, h !! p) ps = omap (λ p, h' !! p) ps.
Proof.
  induction ps as [|p ps IH]; intros H; [done|]. simpl. rewrite (H p) by (by left).
  assert (omap (λ p, h !! p) ps = omap (λ p, h' !! p) ps) as He by (apply IH; intros; apply H; by right).
  destruct (h' !! p); [f_equal|]; exact He.
Qed.

Lemma abs_start_all expired out q q' :
  wf out q → callingExpiredTimers_ q = true → (∀ p, p ∈ expired.*2 → p ∈ out) →
  num_created_ q + Z.of_nat (K * length expired) ≤ INT64_MAX →
  start_all clock alloc user expired q = Ok q' →
  run_jobs clock user (omap (λ p, heap q !! p) expired.*2) (abs out q) (abs out q').
Proof using Hclock Halloc Huser.
  revert q. induction expired as [|[w p] expired IH]; intros q Hwf Hcall Hin Hmax; simpl; [intros [= <-]; constructor|].
  simpl in Hin, Hmax. destruct (wf_elem_out _ _ p Hwf) as [t Ht]; [apply Hin; set_solver|].
  unfold Start. rewrite (deref_some _ _ _ Ht), Ht. simpl.
  destruct (Huser (length (started q)) (callback_ t)) as [Hok Hlen]. set (cs := user _ _) in *.
  set (q1 := log_start (callback_ t) q). assert (Hwf1 : wf out q1) by (by apply (wf_ext out q)).
  pose proof (exec_calls_spec clock alloc Hclock Halloc out q1 cs Hwf1 Hok ltac:(simpl; nia)) as H1.
  destruct (exec_calls clock alloc cs q1) as [q2|] eqn:Hcs; simpl in *; [|done]. destruct H1 as [Hwf2 Hf]. intros H2.
  econstructor.
  - apply (abs_calls out cs q1 q2); [done|by right|done|simpl; nia|done].
  - destruct Hf as [Hh _ Hca _ _ Hn]. simpl in Hn. rewrite (omap_lookup_ext _ (heap q2)) by (intros p' Hp'; symmetry; apply Hh, Hin; by right).
    apply IH; [done|by rewrite Hca|set_solver|nia|done].
Qed.

(** [GetExpired] moves the due jobs from one map to the other. *)
Lemma abs_take_due q a b act now :
  let q1 := set_timers b act q in
  wf [] q → timers_ q = a ++ b → Forall (λ e, e.1 ≤ now) a → Forall (λ e, now < e.1) b → wf a.*2 q1 →
  abs a.*2 q1 = take_due now (clock_reads q) (abs [] q).
Proof.
  intros q1 Hwf Hab Ha Hb Hwf1. rewrite Forall_forall in Ha, Hb.
  assert (Hexp : ∀ p, p ∈ (timers_ q).*2 → ∀ t, heap q !! p = Some t → (p ∈ a.*2 ∧ expiration_ t ≤ now) ∨ (p ∈ b.*2 ∧ now < expiration_ t)).
  { intros p Hp t Ht. apply list_elem_of_fmap in Hp as ([w p'] & -> & Hin).
    destruct (wf_entry _ _ Hwf _ _ Hin) as (t' & Ht' & Hw & _). simpl in Ht. simplify_eq.
    rewrite Hab in Hin. apply elem_of_app in Hin as [Hin|Hin]; [left|right]; (split; [apply list_elem_of_fmap; by eexists|]).
    - by apply (Ha _ Hin).
    - by apply (Hb _ Hin). }
  assert (Hps : ∀ p, p ∈ (timers_ q).*2 ↔ p ∈ a.*2 ∨ p ∈ b.*2) by (intros p; by rewrite Hab, fmap_app, elem_of_app).
  apply sched_eq; simpl; [| |done..].
  - intros id t. rewrite map_lookup_filter_Some. pose proof (proj1 (wf_jobs _ q1 id t Hwf1)) as Hj. simpl in Hj. rewrite Hj. clear Hj.
    setoid_rewrite (proj1 (wf_jobs _ q id t Hwf)). unfold is_due. simpl. split.
    + intros (p & Hin & Ht & <-). assert (Hpt : p ∈ (timers_ q).*2) by (apply Hps; by right).
      split; [by exists p|]. destruct (Hexp p Hpt t Ht) as [[Hpa _]|[_ ?]]; [|lia].
      exfalso. by apply (wf_out_nin _ _ p Hwf1).
    + intros [(p & Hin & Ht & <-) Hd]. exists p. split; [|done]. destruct (Hexp p Hin t Ht) as [[_ ?]|[? _]]; [lia|done].
  - intros id t. rewrite map_lookup_filter_Some. pose proof (proj2 (wf_jobs _ q1 id t Hwf1)) as Hj. simpl in Hj. rewrite Hj. clear Hj.
    setoid_rewrite (proj1 (wf_jobs _ q id t Hwf)). unfold is_due. simpl. split.
    + intros (p & Hin & Ht & <-). assert (Hpt : p ∈ (timers_ q).*2) by (apply Hps; by left).
      split; [by exists p|]. destruct (Hexp p Hpt t Ht) as [[_ ?]|[Hpb _]]; [lia|].
      exfalso. by apply (wf_out_nin _ _ p Hwf1).
    + intros [(p & Hin & Ht & <-) Hd]. exists p. split; [|done]. destruct (Hexp p Hin t Ht) as [[? _]|[_ ?]]; [done|lia].
Qed.

Lemma jobs_at_list h ps : seq_inj h → NoDup ps → (map_to_list (jobs_at h ps)).*2 ≡ₚ omap (λ p, h !! p) ps.
Proof.
  intros Hinj Hnd. unfold jobs_at. rewrite map_to_list_to_map.
  - clear Hnd. induction ps as [|p ps IH]; [done|]. simpl. destruct (h !! p); simpl; by rewrite IH.
  - induction Hnd as [|p ps Hp Hnd IH]; [constructor|]. simpl. destruct (h !! p) as [t|] eqn:Ht; simpl; [|done].
    constructor; [|done]. intros ([id t'] & He & Hin)%list_elem_of_fmap. simpl in He. subst id.
    apply list_elem_of_omap in Hin as (p' & Hin & He). destruct (h !! p') as [t''|] eqn:Ht'; [|done]. simpl in He. simplify_eq.
    assert (p = p') as <- by (by eapply Hinj). done.
Qed.

Lemma jobs_sorted q l : StronglySorted lex l →
  (∀ w p, (w, p) ∈ l → ∃ t, heap q !! p = Some t ∧ expiration_ t = w) →
  StronglySorted earlier (omap (λ p, heap q !! p) l.*2).
Proof.
  induction 1 as [|[w p] l Hl IH Hf]; intros Hin; [constructor|]. simpl.
  destruct (Hin w p ltac:(by left)) as (t & Ht & <-). rewrite Ht. constructor; [apply IH; intros; apply Hin; by right|].
  rewrite Forall_forall in Hf. apply Forall_forall. intros t' (p' & Hp' & Ht')%list_elem_of_omap.
  apply list_elem_of_fmap in Hp' as ([w' p''] & -> & Hin'). destruct (Hin w' p'' ltac:(by right)) as (t2 & Ht2 & Hw).
  simpl in Ht'. specialize (Hf _ Hin'). unfold lex in Hf. unfold earlier. simpl in Hf. simplify_eq. lia.
Qed.

(** [Reset] puts the repeating ones back. *)
Lemma abs_Reset expired now q q' :
  wf expired.*2 q → 0 < now ≤ 2 ^ 61 → cancelingTimers_ q = ∅ → Reset clock expired now q = Ok q' →
  wf [] q' ∧ (clock_reads q ≤ clock_reads q')%nat ∧
    abs [] q' = put_back now (clock_reads q') (abs expired.*2 q).
Proof using Hclock Halloc Huser.
  intros Hwf Hnow Hc Hq. pose proof (Reset_reads _ _ _ _ _ Hq) as Hr.
  destruct (Reset_spec clock alloc user K Hclock Halloc Huser expired now q Hwf Hnow Hc) as (q2 & q1 & Hr1 & Hq2 & Hwf2 & Ht2 & Hh2 & Hs2 & _).
  destruct (reset_all_spec clock alloc user K Hclock Halloc Huser expired now q Hwf Hnow Hc) as (q1' & Hr1' & Hwf1 & Hre & Hother & Hkeep & Hfrom & Hs1 & _ & Hn).
  rewrite Hq in Hq2. rewrite Hr1 in Hr1'. injection Hq2 as <-. injection Hr1' as <-.
  split; [done|]. split; [done|].
  assert (Hn2 : num_created_ q' = num_created_ q1).
  { unfold Reset in Hq. rewrite Hr1 in Hq. simpl in Hq. destruct (timers_ q1) as [|it l]; [by injection Hq as <-|].
    destruct (deref _ _) as [t|]; [|done]. simpl in Hq. destruct (Valid _); [|by injection Hq as <-].
    unfold resetTimerfd, howMuchTimeFronNow in Hq. simpl in Hq. destruct (lsub _ _); [|done]. simpl in Hq. by injection Hq as <-. }
  apply sched_eq; simpl; [| |by rewrite Hn2|done|by rewrite Hs2].
  2: { intros id t. unfold jobs_at. simpl. by rewrite !lookup_empty. }
  intros id t. pose proof (proj1 (wf_jobs [] q' id t Hwf2)) as Hj. simpl in Hj. rewrite Hj. clear Hj. rewrite Ht2, Hh2.
  rewrite lookup_union_Some_raw, lookup_omap, bind_Some, bind_None. split.
  - intros (p & Hin & Ht & <-). apply list_elem_of_fmap in Hin as ([w p'] & -> & Hin). simpl in Ht. destruct (Hfrom _ Hin) as [Hp|Hold].
    + simpl in Hp. destruct (wf_elem_out _ _ _ Hwf Hp) as [t0 Ht0]. specialize (Hre _ _ Hp Ht0). unfold rescheduled in Hre.
      left. destruct (repeat_ t0) eqn:Hrep.
      * destruct Hre as (w' & Hw & _ & _ & Ht'). simplify_eq. exists t0.
        split; [apply (wf_jobs _ _ _ _ Hwf); by exists p'|]. unfold restart. by rewrite Hrep, Hw.
      * destruct Hre as [Hnone _]. congruence.
    + assert (Hp : p' ∈ (timers_ q).*2) by (apply list_elem_of_fmap; by exists (w, p')).
      assert (Hpn : p' ∉ expired.*2) by (intros Hp'; exact (wf_out_nin _ _ p' Hwf Hp' Hp)).
      rewrite Hother in Ht by done. right. split; [|apply (wf_jobs _ _ _ _ Hwf); by exists p'].
      left. apply eq_None_not_Some. intros [t1 (p1 & Hp1 & Ht1 & He)%(wf_jobs _ _ _ _ Hwf)].
      rewrite (wf_seq_inj _ _ Hwf _ _ _ _ Ht1 Ht He) in Hp1. done.
  - intros [(t0 & (p & Hp & Ht0 & <-)%(wf_jobs _ _ _ _ Hwf) & Hre0)|[_ (p & Hp & Ht & <-)%(wf_jobs _ _ _ _ Hwf)]].
    + specialize (Hre _ _ Hp Ht0). unfold restart in Hre0. unfold rescheduled in Hre.
      destruct (repeat_ t0) eqn:Hrep; [|done]. destruct Hre as (w & Hw & _ & Hin & Ht'). rewrite Hw in Hre0. simplify_eq.
      exists p. split; [apply list_elem_of_fmap; by exists (w, p)|done].
    + exists p. apply list_elem_of_fmap in Hp as ([w p'] & -> & Hin). split; [apply list_elem_of_fmap; exists (w, p'); auto|].
      split; [|done]. simpl. rewrite Hother; [done|]. intros Hp'. apply (wf_out_nin _ _ p' Hwf Hp').
      apply list_elem_of_fmap. by exists (w, p').
Qed.

Lemma abs_HandleRead q q' :
  wf [] q → num_created_ q + Z.of_nat (K * length (timers_ q)) ≤ INT64_MAX →
  HandleRead clock alloc user q = Ok q' → sched_step clock user [Round] (abs [] q) (abs [] q').
Proof using Hclock Halloc Huser.
  intros Hwf Hmax. unfold HandleRead, NowTime. set (now := clock (clock_reads q)).
  assert (Hwf0 : wf [] (readTimerfd (count_read q))) by (by apply (wf_ext [] q)).
  destruct (GetExpired_spec now [] _ Hwf0) as (a & b & act & -> & Hab & Ha & Hb & Hwf1). simpl in *.
  rewrite app_nil_r in Hwf1. pose proof (abs_take_due _ a b act now Hwf0 Hab Ha Hb Hwf1) as Hdue.
  match goal with |- context [start_all _ _ _ _ ?x] => set (q2 := x) end.
  assert (Hwf2 : wf a.*2 q2) by (by eapply wf_ext; [..|exact Hwf1]).
  assert (Hdue2 : abs a.*2 q2 = take_due now (S (clock_reads q)) (abs [] q)) by exact Hdue.
  rewrite Hab, length_app in Hmax.
  pose proof (start_all_spec clock alloc user K Hclock Halloc Huser a _ q2 Hwf2 ltac:(done) ltac:(simpl; nia)) as Hs.
  pose proof (λ r, abs_start_all a a.*2 q2 r Hwf2 eq_refl (λ p H, H)) as Hrun.
  destruct (start_all clock alloc user a q2) as [q3|] eqn:Hq3; simpl in *; [|done].
  destruct Hs as (Hwf3 & _ & _ & _ & Hcc3 & _).
  assert (Hwf4 : wf a.*2 (set_calling false q3)) by (by apply (wf_ext _ q3)).
  intros Hq. destruct (abs_Reset a now _ q' Hwf4 (Hclock _) Hcc3 Hq) as (_ & Hr & ->).
  specialize (Hrun q3 ltac:(simpl; nia) eq_refl). rewrite Hdue2 in Hrun.
  eapply (sched_round _ _ (clock_reads q) now _ _ (abs a.*2 q3)); [done|done| | |exact Hrun|exact Hr].
  - rewrite <- Hdue2. symmetry. apply (jobs_at_list (heap q2)).
    + exact (wf_seq_inj _ _ Hwf2).
    + pose proof (wf_nodup _ _ Hwf2) as Hnd. by apply NoDup_app in Hnd as (_ & _ & ?).
  - apply (jobs_sorted q).
    + eapply StronglySorted_sublist; [|exact (wf_sorted _ _ Hwf)]. rewrite Hab. by apply sublist_inserts_r.
    + intros w p Hin. destruct (wf_entry _ _ Hwf w p) as (t & ? & ? & _); [rewrite Hab; set_solver|]. by exists t.
Qed.
End Refine.

(** ** Property *)

(** C2: The timer queue implements the abstract scheduler: whatever calls and
    rounds of the event loop follow one another, the scheduler can make the same
    calls and the same rounds in the same order, and is then in the state that
    [abs] gives of the queue, the log of the callbacks run included.  So a timer runs
    only when it is due, in order of expiration among the due ones, a cancelled one
    neither runs later nor is restarted, a repeating one waits again from the time
    of the round, and numbers are given out in order. *)
Theorem queue_refines_scheduler clock alloc user K flag es q :
  clock_ok clock → alloc_ok alloc → user_ok user K →
  lrun (queue_shows clock alloc user K) es (new_TimerQueue flag 0) q →
  lrun (sched_step clock user) es sched_init (abs [] q).
Proof.
  intros Hc Ha Hu. change sched_init with (abs [] (new_TimerQueue flag 0)).
  apply (lrun_simulation _ _ (wf [])); [|apply wf_new_queue; int_lia].
  intros es' q1 q2 Hwf Hs. split.
  - destruct Hs as [c q1 q2 Hok Hn Hq|q1 q2 Hn Hq].
    + pose proof (exec_call_spec clock alloc Hc Ha [] q1 c Hwf Hok Hn) as H. rewrite Hq in H. apply H.
    + pose proof (HandleRead_spec clock alloc user K Hc Ha Hu q1 Hwf Hn) as H. rewrite Hq in H. apply H.
  - left. destruct Hs as [c q1 q2 Hok Hn Hq|q1 q2 Hn Hq].
    + apply sched_client. by apply (abs_call clock alloc Hc Ha []); [|left|..].
    + by apply (abs_HandleRead clock alloc Hc Ha user K Hu).
Qed.

Definition demo_events : list queue_event :=
  [Called (CallAtTime 500000 7); Called (CallEveryTime (f64_of_Z 1) 8); Round].

Lemma demo_shows q : HandleRead demo_clock demo_alloc idle_user demo_queue = Ok q →
  lrun (queue_shows demo_clock demo_alloc idle_user 0) demo_events (new_TimerQueue false 0) q.
Proof.
  intros Hq. assert (Hc : ∀ c q1 q2, call_ok c → (num_created_ q1 <? INT64_MAX) = true →
    exec_call demo_clock demo_alloc c q1 = Ok q2 → queue_shows demo_clock demo_alloc idle_user 0 [Called c] q1 q2).
  { intros c q1 q2 H1 H2%Z.ltb_lt H3. by constructor. }
  eapply (lrun_step _ [_]); [apply (Hc (CallAtTime 500000 7)); [unfold call_ok, stamp_ok; lia|done|by vm_compute]|].
  eapply (lrun_step _ [_]); [apply (Hc (CallEveryTime (f64_of_Z 1) 8)); [apply interval_one_ok|by vm_compute|by vm_compute]|].
  eapply (lrun_step _ [_] []); [|constructor]. apply shows_round; [by vm_compute|]. rewrite <- Hq. by vm_compute.
Qed.

Lemma queue_refines_scheduler_witness :
  ∃ q, HandleRead demo_clock demo_alloc idle_user demo_queue = Ok q ∧
    lrun (sched_step demo_clock idle_user) demo_events sched_init (abs [] q) ∧
    ran (abs [] q) = [7] ∧ dom (waiting (abs [] q)) = {[1]}.
Proof.
  destruct (HandleRead demo_clock demo_alloc idle_user demo_queue) as [q|e] eqn:Hq;
    [|by vm_compute in Hq].
  exists q. split; [done|]. split; [|vm_compute in Hq; injection Hq as <-; by vm_compute].
  apply (queue_refines_scheduler demo_clock demo_alloc idle_user 0 false);
    [apply demo_clock_ok|apply demo_alloc_ok|apply idle_user_ok|by apply demo_shows].
Defined.
