(* ===== verification/TimerRace.v ===== *)
(** * The timer library called from a second thread.

    The event loop runs in a thread of its own while [AddTimer] is called from the
    program's, on the same queue and without a lock.  [add_step] is [AddTimer] one
    access at a time; a round of the loop ([HandleRead]) may come between any two.
    A round is taken whole and each access is atomic here: what goes wrong does so
    in every finer interleaving too. *)
From S2P Require Import Prelude CInt Float64 TimerStamp TimerQueue TimerQueueInv TimerQueueRun TimerQueueSpec.

(** Where the caller is in [AddTimer], [AddTimerInLoop] and [insert], and its
    local variables. *)
Inductive add_pc : Type :=
  | AtNew
  | AtAssert (timer : Z)
  | AtBegin (timer : Z)
  | AtEmplace (timer when : Z) (earliestChanged : bool)
  | AtActive (timer : Z) (earliestChanged : bool)
  | AtAssert2 (timer : Z) (earliestChanged : bool)
  | AtArm (timer : Z) (earliestChanged : bool)
  | AtReturn (timer : Z)
  | AtDone (id : Z).

Section Race.
Context (clock : nat → Z) (alloc : gmap Z Timer → Z) (user : nat → Z → list call).
Context (cb when : Z) (interval : f64).
Implicit Types (q : TimerQueue) (pc : add_pc).

Definition add_step pc q : res (add_pc * TimerQueue) :=
  match pc with
  | AtNew =>
      let timer := alloc (heap q) in
      let t := new_Timer cb when interval (num_created_ q) in
      mret (AtAssert timer, set_heap (<[timer := t]> (heap q)) (count_created q))
  | AtAssert timer => _ ← assert_sizes q; mret (AtBegin timer, q)
  | AtBegin timer =>
      t ← deref timer q;
      let when := expiration_ t in
      let earliestChanged := match timers_ q with [] => true | it :: _ => stamp_lt when it.1 end in
      mret (AtEmplace timer when earliestChanged, q)
  | AtEmplace timer when earliestChanged =>
      mret (AtActive timer earliestChanged, set_timers (set_emplace (when, timer) (timers_ q)) (active_timers_ q) q)
  | AtActive timer earliestChanged =>
      t ← deref timer q;
      let active := match active_timers_ q !! sequence_ t with
                    | Some _ => active_timers_ q
                    | None => <[sequence_ t := timer]> (active_timers_ q)
                    end in
      mret (AtAssert2 timer earliestChanged, set_timers (timers_ q) active q)
  | AtAssert2 timer earliestChanged => _ ← assert_sizes q; mret (AtArm timer earliestChanged, q)
  | AtArm timer earliestChanged =>
      q ← (if earliestChanged then t ← deref timer q; resetTimerfd clock (expiration_ t) q else mret q);
      mret (AtReturn timer, q)
  | AtReturn timer => t ← deref timer q; mret (AtDone (sequence_ t), q)
  | AtDone id => mret (AtDone id, q)
  end.

(** The caller alone. *)
Fixpoint add_steps (n : nat) pc q : res (add_pc * TimerQueue) :=
  match n with
  | O => mret (pc, q)
  | S n => '(pc, q) ← add_step pc q; add_steps n pc q
  end.

(** The caller and the event loop. *)
Inductive race_step (s : add_pc * TimerQueue) : res (add_pc * TimerQueue) → Prop :=
  | race_caller : race_step s (add_step s.1 s.2)
  | race_round : race_step s (q ← HandleRead clock alloc user s.2; mret (s.1, q)).

Definition race_run : add_pc * TimerQueue → add_pc * TimerQueue → Prop := rtc (λ s s', race_step s (Ok s')).

(** ** Lemmas *)
Lemma add_steps_race n pc q s : add_steps n pc q = Ok s → race_run (pc, q) s.
Proof.
  revert pc q. induction n as [|n IH]; intros pc q; simpl; [intros [= <-]; constructor|].
  destruct (add_step pc q) as [[pc1 q1]|] eqn:Hq; [|done]. simpl. intros Hs.
  econstructor; [rewrite <- Hq; exact (race_caller (pc, q))|by apply IH].
Qed.

Lemma add_steps_app n m pc q pc1 q1 : add_steps n pc q = Ok (pc1, q1) → add_steps (n + m) pc q = add_steps m pc1 q1.
Proof.
  revert pc q. induction n as [|n IH]; intros pc q; simpl; [by intros [= <- <-]|].
  destruct (add_step pc q) as [[pc2 q2]|]; [|done]. simpl. apply IH.
Qed.

(** The round after [timers_.emplace] and before [active_timers_.emplace]: the
    sizes differ unless the new timer is taken out at once. *)
Lemma erase_active_delete l r act act' s q :
  erase_active l (set_timers r act q) = Ok (set_timers r act' q) →
  erase_active l (set_timers r (delete s act) q) = Ok (set_timers r (delete s act') q).
Proof.
  revert act. induction l as [|[w p] l IH]; intros act; simpl.
  { intros H. injection H as ->. done. }
  change (deref p (set_timers r (delete s act) q)) with (deref p q).
  change (deref p (set_timers r act q)) with (deref p q).
  destruct (deref p q) as [t|]; [|done]. simpl. intros H. rewrite delete_delete. by apply IH.
Qed.

Lemma GetExpired_unlinked now q p t :
  wf [] q → heap q !! p = Some t → (expiration_ t, p) ∈ timers_ q →
  GetExpired now (set_timers (timers_ q) (delete (sequence_ t) (active_timers_ q)) q) =
    if now <? expiration_ t then Err AssertFailed else GetExpired now q.
Proof.
  intros Hwf Ht Hin. unfold GetExpired. simpl.
  destruct (split_upper (now, UINTPTR_MAX) (timers_ q)) as [a b] eqn:Hsp.
  destruct (split_upper_spec _ _ _ _ (wf_sorted _ _ Hwf) Hsp) as (Hab & Ha & Hb).
  destruct (erase_active_spec a b [] q) as (act & He & Hwf').
  { rewrite <- Hab. by apply (wf_ext [] q). }
  change (set_timers b (delete (sequence_ t) (active_timers_ q)) (set_timers (timers_ q) (delete (sequence_ t) (active_timers_ q)) q))
    with (set_timers b (delete (sequence_ t) (active_timers_ q)) q).
  rewrite He, (erase_active_delete _ _ _ _ (sequence_ t) _ He). simpl. rewrite (wf_assert _ _ Hwf').
  pose proof (wf_size _ _ Hwf') as Hsz. simpl in Hsz. unfold assert_sizes. simpl. rewrite Hsz.
  rewrite Hab in Hin. destruct (Z.ltb_spec now (expiration_ t)) as [Hlt|Hle].
  - assert (Hb' : (expiration_ t, p) ∈ b).
    { apply elem_of_app in Hin as [Hin|Hin]; [|done]. rewrite Forall_forall in Ha. destruct (Ha _ Hin).
      unfold lex. simpl. lia. }
    destruct (wf_entry _ _ Hwf' _ _ Hb') as (t' & Ht' & _ & Hact). simpl in Ht', Hact. simplify_eq.
    rewrite map_size_delete_Some by (by exists p).
    assert (size act ≠ 0%nat) by (intros H0%map_size_empty_inv; by rewrite H0, lookup_empty in Hact).
    by rewrite (proj2 (Nat.eqb_neq _ _)) by lia.
  - assert (Ha' : p ∈ a.*2).
    { apply elem_of_app in Hin as [Hin|Hin]; [apply list_elem_of_fmap; by exists (expiration_ t, p)|].
      rewrite Forall_forall in Hb. specialize (Hb _ Hin). unfold lex in Hb. simpl in Hb.
      destruct (wf_timer _ _ Hwf _ _ Ht) as (_ & _ & ?). lia. }
    assert (Hnone : act !! sequence_ t = None).
    { destruct (act !! sequence_ t) as [p'|] eqn:Hact; [|done].
      destruct (wf_active _ _ Hwf' _ _ Hact) as (Hp' & t' & Ht' & Hs). simpl in Hp', Ht'.
      assert (p' = p) as -> by (by eapply (wf_seq_inj _ _ Hwf)).
      exfalso. eapply (wf_out_nin _ _ p Hwf'); [|exact Hp']. apply elem_of_app. by left. }
    by rewrite delete_id, Nat.eqb_refl by done.
Qed.

Context (K : nat) (Hclock : clock_ok clock) (Halloc : alloc_ok alloc) (Huser : user_ok user K) (Hns : ¬ may_stop user).

(** A round frees a one-shot timer that is due. *)
Lemma round_frees q p t : wf [] q → num_created_ q + Z.of_nat (K * length (timers_ q)) ≤ INT64_MAX →
  heap q !! p = Some t → repeat_ t = false → (expiration_ t, p) ∈ timers_ q →
  expiration_ t ≤ clock (clock_reads q) →
  wp (HandleRead clock alloc user q) (λ q', heap q' !! p = None).
Proof using Hclock Halloc Huser Hns.
  intros Hwf Hmax Ht Hrep Hin Hdue. pose proof (HandleRead_spec clock alloc user K Hclock Halloc Huser q Hwf Hmax) as H.
  destruct (HandleRead clock alloc user q) as [q'|e]; simpl in *; [|by destruct H].
  destruct H as (_ & _ & _ & _ & H). assert (Hf : (expiration_ t, p) ∈ filter (λ e : entry, e.1 ≤ clock (clock_reads q)) (timers_ q)).
  { by apply list_elem_of_filter. }
  specialize (H _ _ _ Hf Ht). unfold rescheduled in H. rewrite Hrep in H. apply H.
Qed.

Lemma HandleRead_unlinked q p t :
  wf [] q → heap q !! p = Some t → (expiration_ t, p) ∈ timers_ q →
  HandleRead clock alloc user (set_timers (timers_ q) (delete (sequence_ t) (active_timers_ q)) q) =
    if clock (clock_reads q) <? expiration_ t then Err AssertFailed else HandleRead clock alloc user q.
Proof.
  intros Hwf Ht Hin. unfold HandleRead, NowTime. cbn [clock_reads set_timers].
  set (q0 := readTimerfd (count_read q)). assert (Hwf0 : wf [] q0) by (by apply (wf_ext [] q)).
  change (readTimerfd (count_read (set_timers (timers_ q) (delete (sequence_ t) (active_timers_ q)) q)))
    with (set_timers (timers_ q0) (delete (sequence_ t) (active_timers_ q0)) q0).
  rewrite (GetExpired_unlinked _ q0 p t Hwf0 Ht Hin). by destruct (_ <? _).
Qed.

(** The new timer in [timers_] only, and then in both. *)
Lemma add_begins q : wf [] q → stamp_ok when → f64_lt f64_zero interval = false → num_created_ q < INT64_MAX →
  let p := alloc (heap q) in
  let t := new_Timer cb when interval (num_created_ q) in
  ∃ q4 changed, wf [] q4 ∧ heap q4 !! p = Some t ∧ (when, p) ∈ timers_ q4 ∧
    clock_reads q4 = clock_reads q ∧ num_created_ q4 = num_created_ q + 1 ∧ length (timers_ q4) = S (length (timers_ q)) ∧
    add_steps 4 AtNew q = Ok (AtActive p changed, set_timers (timers_ q4) (delete (sequence_ t) (active_timers_ q4)) q4) ∧
    add_steps 6 AtNew q = Ok (AtArm p changed, q4).
Proof using Hclock Halloc.
  intros Hwf Hw Hi Hmax p t. destruct (Halloc (heap q)) as [Hnone Hrange]; [by eapply wf_heap_size|]. fold p in Hnone, Hrange.
  set (q1 := set_heap (<[p:=t]> (heap q)) (count_created q)).
  assert (Htok : timer_ok t) by (unfold t, timer_ok; simpl; rewrite Hi; by split_and!).
  assert (Hwf1 : wf (p :: []) q1) by (apply wf_new; done).
  assert (Ht1 : heap q1 !! p = Some t) by apply lookup_insert_eq.
  destruct (wf_link _ _ _ _ Hwf1 Ht1) as (Hwf4 & Hna & Hnin).
  set (changed := match timers_ q1 with [] => true | it :: _ => stamp_lt (expiration_ t) it.1 end).
  exists (set_timers (set_emplace (expiration_ t, p) (timers_ q1)) (<[sequence_ t := p]> (active_timers_ q1)) q1), changed.
  pose proof (wf_created _ _ Hwf) as Hcr. split; [done|]. split; [done|]. split.
  { simpl. change (when, p) with (expiration_ t, p). rewrite set_emplace_perm by done. by left. }
  split; [done|]. split; [simpl; apply to_i64_id; int_lia|]. split.
  { exact (Permutation_length (set_emplace_perm _ _ Hnin)). }
  assert (Hpre : add_steps 3 AtNew q = Ok (AtEmplace p (expiration_ t) changed, q1)).
  { cbn [add_steps add_step mret res_ret mbind res_bind]. fold p t q1. rewrite (wf_assert _ _ Hwf1).
    cbn [add_step mret res_ret mbind res_bind]. rewrite (deref_some _ _ _ Ht1). done. }
  set (q3 := set_timers (set_emplace (expiration_ t, p) (timers_ q1)) (active_timers_ q1) q1).
  assert (H4 : add_steps 4 AtNew q = Ok (AtActive p changed, q3)).
  { exact (add_steps_app 3 1 _ _ _ _ Hpre). }
  split.
  - rewrite H4. unfold q3. simpl. by rewrite delete_insert_id.
  - change 6%nat with (4 + 2)%nat. rewrite (add_steps_app 4 2 _ _ _ _ H4). cbn [add_steps add_step mret res_ret mbind res_bind].
    rewrite (deref_some q3 p t Ht1). cbn [mret res_ret mbind res_bind].
    change (active_timers_ q3) with (active_timers_ q1). rewrite Hna.
    change (set_timers (timers_ q3) (<[sequence_ t := p]> (active_timers_ q1)) q3)
      with (set_timers (set_emplace (expiration_ t, p) (timers_ q1)) (<[sequence_ t := p]> (active_timers_ q1)) q1).
    cbn [add_step mret res_ret mbind res_bind]. by rewrite (wf_assert _ _ Hwf4).
Qed.

Lemma freed_step q p pc : heap q !! p = None → pc = AtReturn p ∨ (∃ b, pc = AtActive p b) → add_step pc q = Err UseAfterFree.
Proof. intros Hp [->|[b ->]]; simpl; unfold deref; by rewrite Hp. Qed.

(** A round, and then the caller's next access. *)
Lemma round_then_step pc q : wp (HandleRead clock alloc user q) (λ q', add_step pc q' = Err UseAfterFree) →
  ∃ s, race_run (pc, q) s ∧ race_step s (Err UseAfterFree).
Proof.
  intros H. pose proof (race_round (pc, q)) as Hr. simpl in Hr. destruct (HandleRead clock alloc user q) as [q'|]; [|done].
  simpl in *. exists (pc, q'). split; [by apply rtc_once|]. rewrite <- H. exact (race_caller (pc, q')).
Qed.

(** ** Properties *)

(** With no other call in between, the accesses of [add_step] are [AddTimer]:
    same result, same queue, same error. *)
Theorem add_steps_AddTimer q :
  add_steps 8 AtNew q = ('(id, q) ← AddTimer clock alloc cb when interval q; mret (AtDone id, q)).
Proof.
  unfold AddTimer, AddTimerInLoop, insert_timer. simpl.
  set (p := alloc (heap q)). set (q1 := set_heap _ _). destruct (assert_sizes q1); simpl; [|done].
  destruct (deref p q1) as [t|] eqn:Ht; simpl; [|done].
  change (deref p (set_timers (set_emplace (expiration_ t, p) (timers_ q)) (active_timers_ q) q1)) with (deref p q1).
  rewrite Ht. simpl. set (changed := match timers_ q with [] => true | it :: _ => stamp_lt (expiration_ t) it.1 end).
  set (active := match active_timers_ q !! sequence_ t with Some _ => _ | None => _ end).
  change (set_timers (set_emplace (expiration_ t, p) (timers_ q)) active
    (set_timers (set_emplace (expiration_ t, p) (timers_ q)) (active_timers_ q) q1))
    with (set_timers (set_emplace (expiration_ t, p) (timers_ q)) active q1).
  set (q2 := set_timers (set_emplace _ _) active q1). destruct (assert_sizes q2); simpl; [|done].
  destruct changed; simpl.
  - destruct (deref p q2); simpl; [|done]. destruct (resetTimerfd _ _ q2) as [q3|]; simpl; [|done]. by destruct (deref p q3).
  - by destruct (deref p q2).
Qed.

(** C33: A one-shot timer added while the loop runs, whatever the queue holds: a
    round that comes between the two insertions makes the sizes differ and the
    assertion fails, or, when the new timer is already due, runs and frees it, and
    the caller reads it; and even where the insertion is made in one piece, a round
    that comes before [AddTimer] returns frees a timer that is due by then, and
    [timer->SequenceTime()] reads it. *)
Theorem add_timer_races q : wf [] q → stamp_ok when → f64_lt f64_zero interval = false →
  num_created_ q + 1 + Z.of_nat (K * S (length (timers_ q))) ≤ INT64_MAX →
  (∃ s, race_run (AtNew, q) s ∧
    race_step s (Err (if clock (clock_reads q) <? when then AssertFailed else UseAfterFree))) ∧
  ∃ s, add_steps 7 AtNew q = Ok s ∧
    (when ≤ clock (clock_reads s.2) → ∃ s', race_run s s' ∧ race_step s' (Err UseAfterFree)).
Proof using Hclock Halloc Huser Hns.
  intros Hwf Hw Hi Hmax. destruct (add_begins q Hwf Hw Hi ltac:(lia)) as (q4 & changed & Hwf4 & Ht & Hin & Hcr & Hn & Hlen & H4 & H6).
  set (p := alloc (heap q)) in *. set (t := new_Timer cb when interval (num_created_ q)) in *.
  assert (Hfree : ∀ q5, wf [] q5 → num_created_ q5 = num_created_ q4 → timers_ q5 = timers_ q4 → heap q5 = heap q4 →
    when ≤ clock (clock_reads q5) → ∀ pc, pc = AtReturn p ∨ (∃ b, pc = AtActive p b) →
    wp (HandleRead clock alloc user q5) (λ q', add_step pc q' = Err UseAfterFree)).
  { intros q5 Hwf5 Hn5 Ht5 Hh5 Hdue pc Hpc. eapply wp_mono.
    - apply (round_frees q5 p t); [done| |by rewrite Hh5|exact Hi|by rewrite Ht5|done].
      rewrite Hn5, Hn, Ht5, Hlen. lia.
    - intros q' Hp. by apply (freed_step q' p). }
  split.
  - pose proof (HandleRead_unlinked q4 p t Hwf4 Ht Hin) as Hr. change (expiration_ t) with when in Hr. rewrite Hcr in Hr.
    apply add_steps_race in H4. set (q3 := set_timers _ (delete _ _) q4) in *.
    destruct (Z.ltb_spec (clock (clock_reads q)) when) as [Hlt|Hle].
    + exists (AtActive p changed, q3). split; [done|]. pose proof (race_round (AtActive p changed, q3)) as H.
      cbn [snd] in H. rewrite Hr in H. exact H.
    + destruct (round_then_step (AtActive p changed) q3) as (s & Hs & He).
      { rewrite Hr. apply Hfree; try done; [by rewrite Hcr|by right; exists changed]. }
      exists s. split; [by etrans|done].
  - assert (H7 : ∃ q5, add_steps 7 AtNew q = Ok (AtReturn p, q5) ∧ wf [] q5 ∧ num_created_ q5 = num_created_ q4 ∧
      timers_ q5 = timers_ q4 ∧ heap q5 = heap q4).
    { change 7%nat with (6 + 1)%nat. setoid_rewrite (add_steps_app 6 1 _ _ _ _ H6). simpl. destruct changed.
      - rewrite (deref_some _ _ _ Ht). simpl. destruct (resetTimerfd_spec clock Hclock when q4 Hw) as (e & -> & _). simpl.
        eexists. split; [done|]. split; [by apply (wf_ext [] q4)|done].
      - by exists q4. }
    destruct H7 as (q5 & H7 & Hwf5 & ? & ? & ?). exists (AtReturn p, q5). split; [done|]. simpl. intros Hdue.
    apply round_then_step. by apply Hfree; [..|left].
Qed.
End Race.

(** ** Examples

    A one-shot timer for the time the clock shows, added to the demonstration's
    queue; and one for later. *)
Lemma add_timer_races_witness :
  (∃ s, race_run demo_clock demo_alloc idle_user 7 2000000 f64_zero (AtNew, demo_queue) s ∧
    race_step demo_clock demo_alloc idle_user 7 2000000 f64_zero s (Err AssertFailed)) ∧
  ∃ s, race_run demo_clock demo_alloc idle_user 7 1000000 f64_zero (AtNew, demo_queue) s ∧
    race_step demo_clock demo_alloc idle_user 7 1000000 f64_zero s (Err UseAfterFree).
Proof.
  assert (Hm : (num_created_ demo_queue + 1 + Z.of_nat (0 * S (length (timers_ demo_queue))) <=? INT64_MAX) = true) by by vm_compute.
  apply Z.leb_le in Hm. split.
  - exact (proj1 (add_timer_races demo_clock demo_alloc idle_user 7 2000000 f64_zero 0 demo_clock_ok demo_alloc_ok idle_user_ok
      idle_user_no_stop demo_queue demo_queue_wf ltac:(unfold stamp_ok; lia) ltac:(by vm_compute) Hm)).
  - exact (proj1 (add_timer_races demo_clock demo_alloc idle_user 7 1000000 f64_zero 0 demo_clock_ok demo_alloc_ok idle_user_ok
      idle_user_no_stop demo_queue demo_queue_wf ltac:(unfold stamp_ok; lia) ltac:(by vm_compute) Hm)).
Defined.
