(* ===== verification/TimerStopRace.v ===== *)
(** * Stopping a timer from a second thread.

    [stop_step] is [StopTimer] one access at a time and [loop_step] a round of the
    event loop in its two parts, up to the callbacks and from them on.  As in
    TimerRace each access is atomic. *)
From S2P Require Import Prelude CInt Float64 TimerStamp TimerQueue TimerQueueInv TimerQueueRun TimerQueueSpec TimerRace.

(** Where the caller is in [CancelInLoop].  The iterator [it] is a key: it can be
    dereferenced while the map has a node with that key. *)
Inductive stop_pc : Type :=
  | StFind
  | StErase
  | StDelete
  | StEraseIt
  | StElse
  | StAssert
  | StDone.

(** Where the loop's thread is in [HandleRead]. *)
Inductive loop_pc : Type :=
  | LpTop
  | LpCallbacks (expired : list entry) (now : Z).

Section Stop.
Context (clock : nat → Z) (alloc : gmap Z Timer → Z) (user : nat → Z → list call).
Context (timerId : Z).
Implicit Types q : TimerQueue.

(** [it->second] *)
Definition it_second q : res Z :=
  match active_timers_ q !! timerId with Some p => Ok p | None => Err UseAfterFree end.

Definition stop_step (pc : stop_pc) q : res (stop_pc * TimerQueue) :=
  match pc with
  | StFind => mret (match active_timers_ q !! timerId with Some _ => StErase | None => StElse end, q)
  | StErase =>
      p ← it_second q;
      t ← deref p q;
      mret (StDelete, set_timers (set_erase (expiration_ t, p) (timers_ q)) (active_timers_ q) q)
  | StDelete => p ← it_second q; q ← free p q; mret (StEraseIt, q)
  | StEraseIt => _ ← it_second q; mret (StAssert, set_timers (timers_ q) (delete timerId (active_timers_ q)) q)
  | StElse => if callingExpiredTimers_ q then Err EndIterator else mret (StAssert, q)
  | StAssert => _ ← assert_sizes q; mret (StDone, q)
  | StDone => mret (StDone, q)
  end.

Fixpoint stop_steps (n : nat) (pc : stop_pc) q : res (stop_pc * TimerQueue) :=
  match n with
  | O => mret (pc, q)
  | S n => '(pc, q) ← stop_step pc q; stop_steps n pc q
  end.

Definition loop_step (pc : loop_pc) q : res (loop_pc * TimerQueue) :=
  match pc with
  | LpTop =>
      let '(now, q) := NowTime clock q in
      let q := readTimerfd q in
      '(expired, q) ← GetExpired now q;
      mret (LpCallbacks expired now, clear_canceling (set_calling true q))
  | LpCallbacks expired now =>
      q ← start_all clock alloc user expired q;
      q ← Reset clock expired now (set_calling false q);
      mret (LpTop, q)
  end.

Record stop_state : Type := StopState { caller : stop_pc; looper : loop_pc; shared : TimerQueue }.

Inductive stop_race (s : stop_state) : res stop_state → Prop :=
  | stop_caller : stop_race s ('(pc, q) ← stop_step (caller s) (shared s); mret (StopState pc (looper s) q))
  | stop_looper : stop_race s ('(pc, q) ← loop_step (looper s) (shared s); mret (StopState (caller s) pc q)).

Definition stop_run : stop_state → stop_state → Prop := rtc (λ s s', stop_race s (Ok s')).

(** ** Lemmas *)
Lemma stop_run_caller s pc q : stop_step (caller s) (shared s) = Ok (pc, q) → stop_race s (Ok (StopState pc (looper s) q)).
Proof. intros Hs. pose proof (stop_caller s) as Hr. by rewrite Hs in Hr. Qed.

Lemma stop_run_looper s pc q : loop_step (looper s) (shared s) = Ok (pc, q) → stop_race s (Ok (StopState (caller s) pc q)).
Proof. intros Hs. pose proof (stop_looper s) as Hr. by rewrite Hs in Hr. Qed.

Lemma stop_caller_err s e : stop_step (caller s) (shared s) = Err e → stop_race s (Err e).
Proof. intros Hs. pose proof (stop_caller s) as Hr. by rewrite Hs in Hr. Qed.

Lemma stop_looper_err s e : loop_step (looper s) (shared s) = Err e → stop_race s (Err e).
Proof. intros Hs. pose proof (stop_looper s) as Hr. by rewrite Hs in Hr. Qed.

(** What is erased from the map does not depend on what is in it. *)
Lemma erase_active_any l r act act' q act2 :
  erase_active l (set_timers r act q) = Ok (set_timers r act' q) →
  ∃ act2', erase_active l (set_timers r act2 q) = Ok (set_timers r act2' q) ∧
    ∀ s, (∀ e t, e ∈ l → heap q !! e.2 = Some t → sequence_ t ≠ s) → act2' !! s = act2 !! s.
Proof.
  revert act act2. induction l as [|[w p] l IH]; intros act act2; simpl; [intros _; by exists act2|].
  change (deref p (set_timers r act q)) with (deref p q). change (deref p (set_timers r act2 q)) with (deref p q).
  destruct (deref p q) as [t|] eqn:Ht; [|done]. simpl. intros He.
  destruct (IH _ (delete (sequence_ t) act2) He) as (act2' & He2 & Hs). exists act2'. split; [exact He2|].
  intros s Hne. rewrite Hs by (intros e t' Hin; apply Hne; by right). apply lookup_delete_ne.
  apply (Hne (w, p) t); [by left|]. unfold deref in Ht. simpl. destruct (heap q !! p); by simplify_eq.
Qed.

(** A round between [timers_.erase] and [active_timers_.erase]. *)
Lemma GetExpired_erased now q id p t :
  wf [] q → active_timers_ q !! id = Some p → heap q !! p = Some t →
  GetExpired now (set_timers (set_erase (expiration_ t, p) (timers_ q)) (active_timers_ q) q) = Err AssertFailed.
Proof.
  intros Hwf Ha Ht. destruct (wf_registered _ _ _ _ Hwf Ha) as (t' & Ht' & Hid & Hmem). simplify_eq.
  pose proof (wf_sorted _ _ Hwf) as Hs. set (l := set_erase (expiration_ t, p) (timers_ q)) in *.
  assert (Hl : StronglySorted lex l) by (eapply StronglySorted_sublist; [apply set_erase_sublist|done]).
  pose proof (wf_unlink _ _ _ _ _ l Hwf Hl (set_erase_perm _ _ Hs Hmem) Ht) as Hwf1.
  unfold GetExpired. simpl. destruct (split_upper (now, UINTPTR_MAX) l) as [a b] eqn:Hsp.
  destruct (split_upper_spec _ _ _ _ Hl Hsp) as (Hab & _ & _). rewrite Hab in Hwf1.
  destruct (erase_active_spec a b [p] (set_timers l (delete (sequence_ t) (active_timers_ q)) q)) as (act & He & Hwf').
  { exact Hwf1. }
  set (q1 := set_timers l (delete (sequence_ t) (active_timers_ q)) q) in *.
  destruct (erase_active_any _ _ _ _ _ (active_timers_ q) He) as (act1 & He1 & Hkeep).
  change (set_timers b (active_timers_ q) (set_timers l (active_timers_ q) q)) with (set_timers b (active_timers_ q) q1).
  rewrite He1. simpl. pose proof (erase_active_delete _ _ _ _ (sequence_ t) _ He1) as He2.
  change (active_timers_ q1) with (delete (sequence_ t) (active_timers_ q)) in He. rewrite He2 in He.
  assert (Hact : delete (sequence_ t) act1 = act) by (by injection He).
  assert (H1 : act1 !! sequence_ t = Some p).
  { rewrite Hkeep; [done|]. intros e t' Hin Ht2 Heq. assert (e.2 = p) as Hep by (by eapply (wf_seq_inj _ _ Hwf)).
    pose proof (wf_nodup _ _ Hwf') as Hnd. apply NoDup_app in Hnd as (_ & _ & Hnd).
    apply NoDup_app in Hnd as (_ & Hnd & _). apply (Hnd p); [|by left]. rewrite <- Hep. by apply list_elem_of_fmap_2. }
  pose proof (wf_size _ _ Hwf') as Hsz. simpl in Hsz. rewrite <- Hact, map_size_delete, H1 in Hsz. simpl in Hsz.
  assert (size act1 ≠ 0%nat) by (intros H0%map_size_empty_inv; by rewrite H0, lookup_empty in H1).
  unfold assert_sizes. simpl. by rewrite (proj2 (Nat.eqb_neq _ _)) by lia.
Qed.

(** The first part of a round takes out the timers that are due. *)
Definition not_waiting q : Prop :=
  ∀ p t, active_timers_ q !! timerId = Some p → heap q !! p = Some t → expiration_ t ≤ clock (clock_reads q).

Lemma loop_begins q : wf [] q →
  ∃ expired q', loop_step LpTop q = Ok (LpCallbacks expired (clock (clock_reads q)), q') ∧
    callingExpiredTimers_ q' = true ∧ (not_waiting q → active_timers_ q' !! timerId = None).
Proof.
  intros Hwf. unfold loop_step, NowTime. set (now := clock (clock_reads q)).
  assert (Hwf0 : wf [] (readTimerfd (count_read q))) by (by apply (wf_ext [] q)).
  destruct (GetExpired_spec now [] _ Hwf0) as (a & b & act & -> & Hab & _ & Hb & Hwf1). simpl in *.
  eexists _, _. split; [done|]. split; [done|]. intros Hdue. simpl.
  destruct (act !! timerId) as [p|] eqn:Hact; [|done].
  destruct (wf_registered _ _ _ _ Hwf1 Hact) as (t & Ht & Hid & Hmem). simpl in Ht, Hmem.
  rewrite Forall_forall in Hb. specialize (Hb _ Hmem). simpl in Hb.
  destruct (wf_entry _ _ Hwf (expiration_ t) p) as (t' & Ht' & _ & Ha); [rewrite Hab; set_solver|].
  assert (t' = t) as -> by congruence. rewrite Hid in Ha. specialize (Hdue p t Ha Ht). unfold now in Hb. lia.
Qed.

(** ** Properties *)

(** With no round in between, the accesses of [stop_step] are [StopTimer]: same
    queue, same error. *)
Theorem stop_steps_StopTimer q : stop_steps 5 StFind q = (q ← StopTimer timerId q; mret (StDone, q)).
Proof.
  unfold StopTimer, CancelInLoop. simpl. destruct (active_timers_ q !! timerId) as [p|] eqn:Ha; simpl.
  - unfold it_second. rewrite Ha. simpl. unfold free. destruct (deref p q) as [t|] eqn:Ht; simpl; [|done].
    unfold it_second. simpl. rewrite Ha. simpl. unfold free.
    change (deref p (set_timers (set_erase (expiration_ t, p) (timers_ q)) (active_timers_ q) q)) with (deref p q).
    rewrite Ht. simpl. unfold it_second. simpl. rewrite Ha. simpl.
    match goal with |- (assert_sizes ?x ≫= _) ≫= _ = (assert_sizes ?y ≫= _) ≫= _ => change x with y; by destruct (assert_sizes y) end.
  - destruct (callingExpiredTimers_ q); simpl; [done|]. by destruct (assert_sizes q).
Qed.

(** C12: [StopTimer] while the loop's thread makes a round, whatever the queue holds
    and the callbacks do.  A timer that is registered: a round that comes between
    the two erasures finds the sizes different and aborts.  A timer that is not, or
    is taken out as due by the round: while the callbacks run, [it->second] reads
    [end()].  One that is due: a round that comes after [find] erases the node that
    the iterator points to, and [it->second] reads it. *)
Theorem stop_timer_races q : wf [] q →
  let s0 := StopState StFind LpTop q in
  (∀ p, active_timers_ q !! timerId = Some p → ∃ s, stop_run s0 s ∧ stop_race s (Err AssertFailed)) ∧
  (not_waiting q → ∃ s, stop_run s0 s ∧ stop_race s (Err EndIterator)) ∧
  (not_waiting q → ∀ p, active_timers_ q !! timerId = Some p → ∃ s, stop_run s0 s ∧ stop_race s (Err UseAfterFree)).
Proof.
  intros Hwf s0. destruct (loop_begins q Hwf) as (expired & q' & Hq' & Hcall & Hnone). split_and!.
  - intros p Ha. destruct (wf_registered _ _ _ _ Hwf Ha) as (t & Ht & _ & _).
    exists (StopState StDelete LpTop (set_timers (set_erase (expiration_ t, p) (timers_ q)) (active_timers_ q) q)). split.
    + eapply rtc_l; [apply (stop_run_caller s0 StErase q); simpl; by rewrite Ha|]. apply rtc_once.
      apply (stop_run_caller (StopState StErase LpTop q)). simpl. unfold it_second. rewrite Ha. simpl. by rewrite (deref_some _ _ _ Ht).
    + apply stop_looper_err. unfold loop_step, NowTime. cbn [looper shared].
      change (readTimerfd (count_read (set_timers (set_erase (expiration_ t, p) (timers_ q)) (active_timers_ q) q)))
        with (set_timers (set_erase (expiration_ t, p) (timers_ (readTimerfd (count_read q))))
          (active_timers_ (readTimerfd (count_read q))) (readTimerfd (count_read q))).
      rewrite (GetExpired_erased _ (readTimerfd (count_read q)) timerId p t); [done|by apply (wf_ext [] q)|done..].
  - intros Hdue. exists (StopState StElse (LpCallbacks expired (clock (clock_reads q))) q'). split.
    + eapply rtc_l; [exact (stop_run_looper s0 _ _ Hq')|]. apply rtc_once.
      apply (stop_run_caller (StopState StFind _ q')). simpl. by rewrite (Hnone Hdue).
    + apply stop_caller_err. simpl. by rewrite Hcall.
  - intros Hdue p Ha. exists (StopState StErase (LpCallbacks expired (clock (clock_reads q))) q'). split.
    + eapply rtc_l; [apply (stop_run_caller s0 StErase q); simpl; by rewrite Ha|]. apply rtc_once.
      exact (stop_run_looper (StopState StErase LpTop q) _ _ Hq').
    + apply stop_caller_err. simpl. unfold it_second. by rewrite (Hnone Hdue).
Qed.
End Stop.

(** A round in its two parts is [HandleRead]. *)
Lemma loop_steps_HandleRead clock alloc user q :
  ('(pc, q) ← loop_step clock alloc user LpTop q; loop_step clock alloc user pc q) =
    (q ← HandleRead clock alloc user q; mret (LpTop, q)).
Proof.
  unfold loop_step, HandleRead, NowTime. destruct (GetExpired _ _) as [[expired q1]|]; simpl; [|done].
  destruct (start_all _ _ _ _ _) as [q2|]; simpl; [|done]. done.
Qed.

(** The demonstration's queue: timer 0 is due, timer 1 repeats and is not. *)
Lemma demo_not_waiting : not_waiting demo_clock 0 demo_queue.
Proof. intros p t Ha Ht. vm_compute in Ha. simplify_eq. vm_compute in Ht. simplify_eq. simpl. unfold demo_clock. lia. Qed.

Lemma stop_timer_races_witness :
  (∃ s, stop_run demo_clock demo_alloc idle_user 1 (StopState StFind LpTop demo_queue) s ∧
    stop_race demo_clock demo_alloc idle_user 1 s (Err AssertFailed)) ∧
  ∃ s, stop_run demo_clock demo_alloc idle_user 0 (StopState StFind LpTop demo_queue) s ∧
    stop_race demo_clock demo_alloc idle_user 0 s (Err UseAfterFree).
Proof.
  split.
  - apply (proj1 (stop_timer_races demo_clock demo_alloc idle_user 1 demo_queue demo_queue_wf) 2). by vm_compute.
  - apply (proj2 (proj2 (stop_timer_races demo_clock demo_alloc idle_user 0 demo_queue demo_queue_wf)) demo_not_waiting 1). by vm_compute.
Defined.
