(* ===== verification/TimerDemo.v ===== *)
(** * timerfd/test_main.cpp: the demonstration of the timers.

    [main] creates seven timers, whose callbacks print a message and the time;
    the loop's thread runs them.  Here on an ideal clock: [main]'s calls are made
    at one instant, and each wake-up happens when the first timer is due. *)
From Stdlib Require Import SpecFloat.
From S2P Require Import Prelude CInt CArray CStdio Float64 TimerStamp TimerFormat TimerQueue TimerQueueInv TimerQueueSpec.

(** The messages of the lambdas of [main], by the name of the callback. *)
Definition msg_of (cb : Z) : list Z :=
  match cb with
  | 1 => bytes "once1" | 2 => bytes "once1.5" | 3 => bytes "once2.5" | 4 => bytes "once4.8"
  | 5 => bytes "every2" | 6 => bytes "every5" | _ => bytes "every7"
  end.

Definition myprintTest (msg : list Z) (now : Z) : list Z :=
  [32] ++ msg ++ bytes "  NowTime:" ++ ToFormattedString true now ++ [10].

(** A decimal literal: [n / d], rounded. *)
Definition f64_ratio (n d : Z) : f64 := f64_div (f64_of_Z n) (f64_of_Z d).

Definition test_main : list call :=
  [CallAfterTime (f64_of_Z 1) 1; CallAfterTime (f64_ratio 15 10) 2; CallAfterTime (f64_ratio 25 10) 3;
   CallAfterTime (f64_ratio 48 10) 4; CallEveryTime (f64_of_Z 2) 5; CallEveryTime (f64_of_Z 5) 6;
   CallEveryTime (f64_of_Z 7) 7].

(** [n] wake-ups, each at the time the first timer is due: what they print. *)
Fixpoint wake_ups (n : nat) (q : TimerQueue) (out : list (list Z)) : res (list (list Z)) :=
  match n, timers_ q with
  | O, _ | _, [] => mret out
  | S n, (when, _) :: _ =>
      q' ← HandleRead (λ _, when) demo_alloc idle_user q;
      let cbs := rev (take (length (started q') - length (started q)) (started q')) in
      wake_ups n q' (out ++ ((λ cb, myprintTest (msg_of cb) when) <$> cbs))
  end.

Definition demo_output (start : Z) (n : nat) : res (list (list Z)) :=
  q ← exec_calls (λ _, start) demo_alloc test_main (new_TimerQueue false 0);
  wake_ups n q [].

(** Started at 2023-11-14 22:13:20, the program prints the seven timers'
    messages in the order of their times, each to the microsecond. *)
Lemma demo_prints :
  demo_output 1700000000000000 9 = Ok ((λ s, (bytes s ++ [10])%list) <$>
    [" once1  NowTime:20231114 22:13:21.000000"; " once1.5  NowTime:20231114 22:13:21.500000";
     " every2  NowTime:20231114 22:13:22.000000"; " once2.5  NowTime:20231114 22:13:22.500000";
     " every2  NowTime:20231114 22:13:24.000000"; " once4.8  NowTime:20231114 22:13:24.800000";
     " every5  NowTime:20231114 22:13:25.000000"; " every2  NowTime:20231114 22:13:26.000000";
     " every7  NowTime:20231114 22:13:27.000000"])%string.
Proof. vm_compute. reflexivity. Qed.
