(* ===== verification/TimerChannel.v ===== *)
(** * timerfd/timer_channel.{h,cpp} and timer_epoll.{h,cpp}: channels, their
    registration in epoll and the dispatch of their events.

    An operation returns the channel it leaves and the [epoll_ctl] calls it
    makes, in order; their results are only logged by the code.  Callbacks are
    names; what running one does is a parameter. *)
From S2P Require Import Prelude CInt CArray.

(** <sys/epoll.h> *)
Definition EPOLLIN : Z := 1.
Definition EPOLLPRI : Z := 2.
Definition EPOLLOUT : Z := 4.
Definition EPOLLERR : Z := 8.
Definition EPOLLHUP : Z := 16.
Definition EPOLLRDHUP : Z := 8192.

Record ChannelTimer : Type := MkChannel {
  fd_ : Z;
  events_ : Z;
  revents_ : Z;
  isInEpoll_ : bool;
  readCallback_ : option Z;
  writeCallback_ : option Z;
  closeCallback_ : option Z;
  errorCallback_ : option Z;
}.

(** The constructor of [ChannelTimer]. *)
Definition new_ChannelTimer (fd : Z) : ChannelTimer :=
  MkChannel fd 0 0 false None None None None.

Definition SetEvents (events : Z) (ch : ChannelTimer) : ChannelTimer :=
  MkChannel (fd_ ch) events (revents_ ch) (isInEpoll_ ch) (readCallback_ ch) (writeCallback_ ch)
    (closeCallback_ ch) (errorCallback_ ch).
Definition SetRevents (events : Z) (ch : ChannelTimer) : ChannelTimer :=
  MkChannel (fd_ ch) (events_ ch) events (isInEpoll_ ch) (readCallback_ ch) (writeCallback_ ch)
    (closeCallback_ ch) (errorCallback_ ch).
Definition SetInEpoll (b : bool) (ch : ChannelTimer) : ChannelTimer :=
  MkChannel (fd_ ch) (events_ ch) (revents_ ch) b (readCallback_ ch) (writeCallback_ ch)
    (closeCallback_ ch) (errorCallback_ ch).
Definition SetReadCallback (cb : Z) (ch : ChannelTimer) : ChannelTimer :=
  MkChannel (fd_ ch) (events_ ch) (revents_ ch) (isInEpoll_ ch) (Some cb) (writeCallback_ ch)
    (closeCallback_ ch) (errorCallback_ ch).
Definition setWriteCallback (cb : Z) (ch : ChannelTimer) : ChannelTimer :=
  MkChannel (fd_ ch) (events_ ch) (revents_ ch) (isInEpoll_ ch) (readCallback_ ch) (Some cb)
    (closeCallback_ ch) (errorCallback_ ch).
Definition setCloseCallback (cb : Z) (ch : ChannelTimer) : ChannelTimer :=
  MkChannel (fd_ ch) (events_ ch) (revents_ ch) (isInEpoll_ ch) (readCallback_ ch) (writeCallback_ ch)
    (Some cb) (errorCallback_ ch).
Definition setErrorCallback (cb : Z) (ch : ChannelTimer) : ChannelTimer :=
  MkChannel (fd_ ch) (events_ ch) (revents_ ch) (isInEpoll_ ch) (readCallback_ ch) (writeCallback_ ch)
    (closeCallback_ ch) (Some cb).

Definition IsInEpoll (ch : ChannelTimer) : bool := isInEpoll_ ch.
Definition IsNoneEvent (ch : ChannelTimer) : bool := events_ ch =? 0.
Definition IsWrite (ch : ChannelTimer) : bool := negb (Z.land (events_ ch) EPOLLOUT =? 0).
Definition IsRead (ch : ChannelTimer) : bool :=
  negb (Z.land (events_ ch) (Z.lor EPOLLIN EPOLLPRI) =? 0).

(** ** The epoll object *)

(** [sizeof(struct epoll_event)], which is packed on the target, and [kSize]. *)
Definition sizeof_epoll_event : nat := 12.
Definition kSize : nat := 1024.

(** [events_] is an array of [kSize] events, here its bytes. *)
Record EpollTimer : Type := MkEpollTimer {
  epoll_fd_ : Z;
  event_bytes : list (option Z);
}.

(** [new epoll_event[kSize]] leaves the array indeterminate; [memset] is given
    the size of the product's type, a [size_t]. [epfd] is what [epoll_create]
    returns, -1 being only logged. *)
Definition memset {A} (buf : list (option A)) (c : A) (size : nat) : res (list (option A)) :=
  if Nat.leb size (length buf) then mret (replicate size (Some c) ++ drop size buf) else Err OutOfBounds.
Definition sizeof_size_t : nat := 8.
Definition new_EpollTimer (epfd : Z) : res EpollTimer :=
  events ← memset (replicate (kSize * sizeof_epoll_event) None) 0 sizeof_size_t;
  mret (MkEpollTimer epfd events).
(** The destructor; the descriptors it closes, which are none. *)
Definition destroy_EpollTimer (ep : EpollTimer) : EpollTimer * list Z :=
  let ep := if epoll_fd_ ep =? -1 then ep else MkEpollTimer (-1) (event_bytes ep) in
  (MkEpollTimer (epoll_fd_ ep) [], []).

(** ** Registration *)

(** The [epoll_ctl] calls: descriptor and [epoll_event.events] ([uint32_t]). *)
Inductive ctl : Type :=
  | CtlAdd (fd events : Z)
  | CtlMod (fd events : Z)
  | CtlDel (fd : Z).

Definition DelChannel (ch : ChannelTimer) : ChannelTimer * list ctl :=
  if IsInEpoll ch then (SetInEpoll false ch, [CtlDel (fd_ ch)]) else (ch, []).

Definition UpdateChannel (ch : ChannelTimer) : ChannelTimer * list ctl :=
  let fd := fd_ ch in
  let events := to_u32 (events_ ch) in
  if IsInEpoll ch then
    if IsNoneEvent ch then DelChannel ch else (ch, [CtlMod fd events])
  else (SetInEpoll true ch, [CtlAdd fd events]).

Definition Remove (ch : ChannelTimer) := DelChannel ch.
Definition Update (ch : ChannelTimer) := UpdateChannel ch.

Definition EnableReading ch := Update (SetEvents (Z.lor (events_ ch) (Z.lor EPOLLIN EPOLLPRI)) ch).
Definition DisableReading ch :=
  Update (SetEvents (Z.land (events_ ch) (Z.lnot (Z.lor EPOLLIN EPOLLPRI))) ch).
Definition EnableWriting ch := Update (SetEvents (Z.lor (events_ ch) EPOLLOUT) ch).
Definition DisableWriting ch := Update (SetEvents (Z.land (events_ ch) (Z.lnot EPOLLOUT)) ch).
Definition DisableAll ch := Update (SetEvents 0 ch).

(** ** Dispatch

    [W] is the program's state, [get] the channel in it, [run] what running a
    callback does to it. *)
Section Dispatch.
Context {W : Type} (get : W → ChannelTimer) (run : Z → W → res W).

Definition has (w : W) (mask : Z) : bool := negb (Z.land (revents_ (get w)) mask =? 0).
Definition invoke (cb : option Z) (w : W) : res W :=
  match cb with Some cb => run cb w | None => mret w end.

Definition HandleEventWithGuard (w : W) : res W :=
  w ← (if has w EPOLLHUP && negb (has w EPOLLIN) then invoke (closeCallback_ (get w)) w else mret w);
  w ← (if has w EPOLLERR then invoke (errorCallback_ (get w)) w else mret w);
  w ← (if has w (Z.lor EPOLLIN (Z.lor EPOLLPRI EPOLLRDHUP)) then invoke (readCallback_ (get w)) w else mret w);
  if has w EPOLLOUT then invoke (writeCallback_ (get w)) w else mret w.

Definition HandleEvent (w : W) : res W := HandleEventWithGuard w.
End Dispatch.

(** ** Specifications *)

(** The operations a user of a channel calls. *)
Inductive chan_op : Type :=
  | OpEnableReading | OpDisableReading | OpEnableWriting | OpDisableWriting
  | OpDisableAll | OpRemove.

Definition exec_op (op : chan_op) : ChannelTimer → ChannelTimer * list ctl :=
  match op with
  | OpEnableReading => EnableReading
  | OpDisableReading => DisableReading
  | OpEnableWriting => EnableWriting
  | OpDisableWriting => DisableWriting
  | OpDisableAll => DisableAll
  | OpRemove => Remove
  end.

Fixpoint run_ops (ops : list chan_op) (ch : ChannelTimer) : ChannelTimer * list ctl :=
  match ops with
  | [] => (ch, [])
  | op :: ops => let '(ch, l) := exec_op op ch in
                 let '(ch, l') := run_ops ops ch in (ch, l ++ l')
  end.

(** What a channel promises to epoll: with [r] the mask the descriptor is
    registered with, if it is, every call is one epoll accepts; the result is
    the registration the calls leave. *)
Fixpoint replay (fd : Z) (r : option Z) (l : list ctl) : option (option Z) :=
  match l with
  | [] => Some r
  | CtlAdd fd' ev :: l => if (fd' =? fd) && bool_decide (r = None) then replay fd (Some ev) l else None
  | CtlMod fd' ev :: l => if (fd' =? fd) && bool_decide (r ≠ None) then replay fd (Some ev) l else None
  | CtlDel fd' :: l => if (fd' =? fd) && bool_decide (r ≠ None) then replay fd None l else None
  end.

(** What the operations mean: whether reading and writing are wanted. *)
Definition want (op : chan_op) (rw : bool * bool) : bool * bool :=
  match op with
  | OpEnableReading => (true, rw.2)
  | OpDisableReading => (false, rw.2)
  | OpEnableWriting => (rw.1, true)
  | OpDisableWriting => (rw.1, false)
  | OpDisableAll => (false, false)
  | OpRemove => rw
  end.
Definition mask_of (rw : bool * bool) : Z :=
  (if rw.1 then Z.lor EPOLLIN EPOLLPRI else 0) + (if rw.2 then EPOLLOUT else 0).

Definition registration (ch : ChannelTimer) : option Z :=
  if isInEpoll_ ch then Some (to_u32 (events_ ch)) else None.

(** The callbacks due for the events of a channel, in the order they run. *)
Definition due (ch : ChannelTimer) : list Z :=
  let bit m := negb (Z.land (revents_ ch) m =? 0) in
  let cb (c : bool) o := match o with Some x => if c then [x] else [] | None => [] end in
  cb (bit EPOLLHUP && negb (bit EPOLLIN)) (closeCallback_ ch) ++
  cb (bit EPOLLERR) (errorCallback_ ch) ++
  cb (bit EPOLLIN || bit EPOLLPRI || bit EPOLLRDHUP) (readCallback_ ch) ++
  cb (bit EPOLLOUT) (writeCallback_ ch).

(** ** Lemmas *)
Lemma replay_app fd r l1 l2 :
  replay fd r (l1 ++ l2) = r' ← replay fd r l1; replay fd r' l2.
Proof.
  revert r. induction l1 as [|[fd' ev|fd' ev|fd'] l1 IH]; intros r; simpl; [done|..];
    destruct (_ && _); simpl; auto.
Qed.

Lemma exec_op_fd op ch : fd_ (exec_op op ch).1 = fd_ ch.
Proof.
  destruct op; simpl; unfold EnableReading, DisableReading, EnableWriting, DisableWriting, DisableAll,
    Remove, Update, UpdateChannel, DelChannel, IsInEpoll, IsNoneEvent; simpl;
    by repeat case_match.
Qed.

Lemma update_replay ch r :
  registration ch = r ∨ (isInEpoll_ ch = true ∧ r ≠ None) →
  replay (fd_ ch) r (UpdateChannel ch).2 = Some (registration (UpdateChannel ch).1).
Proof.
  unfold UpdateChannel, DelChannel, IsInEpoll, registration. destruct (isInEpoll_ ch) eqn:Hi; simpl.
  - intros Hr. assert (r ≠ None) as Hn by (destruct Hr as [<-|[_ ?]]; done).
    destruct (IsNoneEvent ch); simpl; rewrite ?Hi; simpl; rewrite Z.eqb_refl, bool_decide_true by done;
      simpl; by rewrite ?Hi.
  - intros [<-|[? _]]; [|done]. by rewrite Z.eqb_refl.
Qed.

Lemma exec_op_replay op ch :
  replay (fd_ ch) (registration ch) (exec_op op ch).2 = Some (registration (exec_op op ch).1).
Proof.
  assert (H : ∀ ev, replay (fd_ ch) (registration ch) (UpdateChannel (SetEvents ev ch)).2 =
                    Some (registration (UpdateChannel (SetEvents ev ch)).1)).
  { intros ev. apply (update_replay (SetEvents ev ch)). unfold registration. simpl.
    destruct (isInEpoll_ ch); [by right|by left]. }
  destruct op; try apply H. simpl. unfold Remove, DelChannel, IsInEpoll, registration.
  destruct (isInEpoll_ ch) eqn:Hi; simpl; [|by rewrite Hi]. by rewrite Z.eqb_refl.
Qed.

Lemma update_events ch : events_ (UpdateChannel ch).1 = events_ ch.
Proof. unfold UpdateChannel, DelChannel. by repeat case_match. Qed.

Lemma exec_op_events op ch rw :
  events_ ch = mask_of rw → events_ (exec_op op ch).1 = mask_of (want op rw).
Proof.
  intros H. destruct op; simpl;
    unfold EnableReading, DisableReading, EnableWriting, DisableWriting, DisableAll, Remove, Update;
    rewrite ?update_events; simpl; rewrite ?H; try by destruct rw as [[] []].
  unfold DelChannel. by case_match.
Qed.

(** Running a list of callbacks. *)
Section Runs.
Context {W : Type} (get : W → ChannelTimer) (run : Z → W → res W).
Context (Hget : ∀ cb w w', run cb w = Ok w' → get w' = get w).

Definition run_list (l : list Z) (w : W) : res W := foldl (λ r cb, r ≫= run cb) (Ok w) l.

Lemma run_list_app l1 l2 w : run_list (l1 ++ l2) w = w' ← run_list l1 w; run_list l2 w'.
Proof.
  unfold run_list. rewrite foldl_app. destruct (foldl _ (Ok w) l1) as [w'|e]; simpl; [done|].
  by induction l2.
Qed.

Lemma run_list_get l w w' : run_list l w = Ok w' → get w' = get w.
Proof.
  revert w w'. induction l as [|cb l IH] using rev_ind; intros w w'; [by intros [= ->]|].
  rewrite run_list_app. destruct (run_list l w) as [w1|e] eqn:Hl; simpl; [|done].
  intros H. unfold run_list in H. simpl in H. rewrite (Hget _ _ _ H). by apply IH.
Qed.

Lemma run_list_invoke (c : bool) o w :
  (if c then invoke run o w else mret w) =
  run_list (match o with Some x => if c then [x] else [] | None => [] end) w.
Proof. unfold invoke, run_list. by destruct c, o. Qed.
End Runs.

Lemma land_lor_read r :
  negb (Z.land r (Z.lor EPOLLIN (Z.lor EPOLLPRI EPOLLRDHUP)) =? 0) =
  negb (Z.land r EPOLLIN =? 0) || negb (Z.land r EPOLLPRI =? 0) || negb (Z.land r EPOLLRDHUP =? 0).
Proof.
  rewrite !Z.land_lor_distr_r. apply eq_true_iff_eq.
  rewrite !orb_true_iff, !negb_true_iff, !Z.eqb_neq, Z.lor_eq_0_iff, Z.lor_eq_0_iff. lia.
Qed.

(** The dispatch runs the due callbacks. *)
Lemma HandleEvent_due {W} (get : W → ChannelTimer) (run : Z → W → res W) (w : W) :
  (∀ cb w w', run cb w = Ok w' → get w' = get w) →
  HandleEvent get run w = run_list run (due (get w)) w.
Proof.
  intros Hget. unfold HandleEvent, HandleEventWithGuard, due.
  rewrite <- land_lor_read, run_list_app, run_list_invoke. unfold has.
  destruct (run_list run _ w) as [w1|] eqn:H1; simpl; [|done].
  apply (run_list_get get run Hget) in H1.
  rewrite run_list_app, run_list_invoke, H1.
  destruct (run_list run _ w1) as [w2|] eqn:H2; simpl; [|done].
  apply (run_list_get get run Hget) in H2. rewrite H1 in H2.
  rewrite run_list_app, run_list_invoke, H2.
  destruct (run_list run _ w2) as [w3|] eqn:H3; simpl; [|done].
  apply (run_list_get get run Hget) in H3. rewrite H2 in H3.
  by rewrite run_list_invoke, H3.
Qed.

(** ** Properties *)

(** C34: Whatever sequence of operations is applied to a channel, every
    [epoll_ctl] call it makes is valid where it is made (never an ADD of a
    registered descriptor, never a MOD or DEL of an unregistered one), and the
    registration left is the one the channel believes it has, with its current
    events. *)
Theorem channel_ctl_protocol fd ops :
  let '(ch, l) := run_ops ops (new_ChannelTimer fd) in
  replay fd None l = Some (if isInEpoll_ ch then Some (to_u32 (events_ ch)) else None).
Proof.
  enough (H : ∀ ch, let '(ch', l) := run_ops ops ch in
                    replay (fd_ ch) (registration ch) l = Some (registration ch')).
  { specialize (H (new_ChannelTimer fd)). by destruct (run_ops _ _). }
  induction ops as [|op ops IH]; intros ch; simpl; [done|].
  pose proof (exec_op_replay op ch) as H1. pose proof (exec_op_fd op ch) as H2.
  destruct (exec_op op ch) as [ch1 l1]. specialize (IH ch1).
  destruct (run_ops ops ch1) as [ch2 l2]. simpl in *.
  rewrite replay_app, H1. simpl. by rewrite <- H2.
Qed.

(** The event mask is exactly what was asked for: EPOLLIN and EPOLLPRI while
    reading is wanted, EPOLLOUT while writing is, whatever the order of the
    calls. *)
Theorem channel_mask_exact fd ops :
  let ch := (run_ops ops (new_ChannelTimer fd)).1 in
  let rw := fold_left (λ rw op, want op rw) ops (false, false) in
  events_ ch = mask_of rw ∧ IsRead ch = rw.1 ∧ IsWrite ch = rw.2 ∧
  IsNoneEvent ch = negb (rw.1 || rw.2).
Proof.
  enough (H : ∀ ch rw, events_ ch = mask_of rw →
            events_ (run_ops ops ch).1 = mask_of (fold_left (λ rw op, want op rw) ops rw)).
  { intros ch rw. unfold IsRead, IsWrite, IsNoneEvent. subst ch.
    rewrite (H _ (false, false)) by done. subst rw.
    by destruct (fold_left _ _ _) as [[] []]. }
  induction ops as [|op ops IH]; intros ch rw H; simpl; [done|].
  pose proof (exec_op_events op ch rw H) as H1. destruct (exec_op op ch) as [ch1 l1].
  specialize (IH ch1 _ H1). by destruct (run_ops ops ch1).
Qed.

(** An event runs the due callbacks, each once, in the order close, error,
    read, write (the first of them to fail ends the dispatch), when running a
    callback leaves the channel alone. *)
Theorem handle_event_due {W} (get : W → ChannelTimer) (run : Z → W → res W) (w : W) :
  (∀ cb w w', run cb w = Ok w' → get w' = get w) →
  HandleEvent get run w = run_list run (due (get w)) w.
Proof. apply HandleEvent_due. Qed.

Lemma handle_event_due_witness :
  let ch := SetRevents 17 (SetReadCallback 5 (setErrorCallback 6 (setCloseCallback 7 (new_ChannelTimer 3)))) in
  HandleEvent fst (λ cb w, Ok (w.1, w.2 ++ [cb])) (ch, []) = Ok (ch, [5]).
Proof.
  intros ch. rewrite (handle_event_due fst (λ cb w, Ok (w.1, w.2 ++ [cb])) (ch, [])); [by vm_compute|].
  intros cb w w' H. by inversion H.
Defined.

(** An operation that asks for no event still registers a channel that is
    not registered: it is added to epoll with an empty mask. *)
Theorem disable_registers fd op :
  op = OpDisableReading ∨ op = OpDisableWriting ∨ op = OpDisableAll →
  exec_op op (new_ChannelTimer fd) =
    (SetInEpoll true (new_ChannelTimer fd), [CtlAdd fd 0]).
Proof. intros [H|[H|H]]; by rewrite H. Qed.

Lemma disable_registers_witness : exec_op OpDisableAll (new_ChannelTimer 4) =
  (SetInEpoll true (new_ChannelTimer 4), [CtlAdd 4 0]).
Proof. apply (disable_registers 4 OpDisableAll). auto. Defined.

(** Only the first of the events is cleared, and not all of it. *)
Lemma new_EpollTimer_clears epfd : wp (new_EpollTimer epfd) (λ ep, epoll_fd_ ep = epfd ∧
  length (filter (λ c, c ≠ None) (event_bytes ep)) = 8%nat ∧ len (event_bytes ep) = 12288).
Proof. vm_compute. done. Qed.

(** The descriptor is forgotten, not closed. *)
Lemma destroy_EpollTimer_leaks ep :
  epoll_fd_ (destroy_EpollTimer ep).1 = -1 ∧ (destroy_EpollTimer ep).2 = [].
Proof. unfold destroy_EpollTimer. cbn. destruct (Z.eqb_spec (epoll_fd_ ep) (-1)); done. Qed.
