(* ===== verification/TimerLoop.v ===== *)
(** * timerfd/timer_loop_mgr.{h,cpp}: the manager, its two channels and the
    event loop, over [TimerQueue] and [ChannelTimer].

    The descriptors, what [epoll_wait] reports and when another thread sets
    [quit_] are parameters. *)
From S2P Require Import Prelude CInt Float64 TimerStamp TimerQueue TimerQueueInv TimerQueueRun TimerQueueSpec.
From S2P Require Import TimerChannel.

(** The channels [epoll_event.data.ptr] can point to. *)
Inductive chan_id : Type := WakeupChannel | TimerfdChannel.
#[global] Instance chan_id_eq_dec : EqDecision chan_id.
Proof. solve_decision. Defined.

(** The lambdas given to [SetReadCallback]. *)
Definition cb_timer_queue : Z := 1.
Definition cb_wakeup : Z := 2.

Record TimerEventMgr : Type := MkMgr {
  quit_ : bool;
  activeChannels_ : list chan_id;
  wakeupChannel_ : ChannelTimer;
  timerfd_channel_ : ChannelTimer;
  timer_queue_ : TimerQueue;
  ctls : list ctl;
  wakeup_reads : nat;
  closed : list Z;
}.

Definition set_quit b m := MkMgr b (activeChannels_ m) (wakeupChannel_ m) (timerfd_channel_ m)
  (timer_queue_ m) (ctls m) (wakeup_reads m) (closed m).
Definition set_active l m := MkMgr (quit_ m) l (wakeupChannel_ m) (timerfd_channel_ m)
  (timer_queue_ m) (ctls m) (wakeup_reads m) (closed m).
Definition set_queue q m := MkMgr (quit_ m) (activeChannels_ m) (wakeupChannel_ m) (timerfd_channel_ m)
  q (ctls m) (wakeup_reads m) (closed m).
Definition get_chan (id : chan_id) (m : TimerEventMgr) : ChannelTimer :=
  match id with WakeupChannel => wakeupChannel_ m | TimerfdChannel => timerfd_channel_ m end.
Definition set_chan (id : chan_id) (ch : ChannelTimer) (m : TimerEventMgr) : TimerEventMgr :=
  match id with
  | WakeupChannel => MkMgr (quit_ m) (activeChannels_ m) ch (timerfd_channel_ m)
      (timer_queue_ m) (ctls m) (wakeup_reads m) (closed m)
  | TimerfdChannel => MkMgr (quit_ m) (activeChannels_ m) (wakeupChannel_ m) ch
      (timer_queue_ m) (ctls m) (wakeup_reads m) (closed m)
  end.
Definition log_ctls l m := MkMgr (quit_ m) (activeChannels_ m) (wakeupChannel_ m) (timerfd_channel_ m)
  (timer_queue_ m) (ctls m ++ l) (wakeup_reads m) (closed m).

(** [TimerEventMgr::HandleRead]: the wake-up counter is read; a short read is
    only logged. *)
Definition mgr_HandleRead m := MkMgr (quit_ m) (activeChannels_ m) (wakeupChannel_ m)
  (timerfd_channel_ m) (timer_queue_ m) (ctls m) (S (wakeup_reads m)) (closed m).
Definition close_fd fd m := MkMgr (quit_ m) (activeChannels_ m) (wakeupChannel_ m)
  (timerfd_channel_ m) (timer_queue_ m) (ctls m) (wakeup_reads m) (fd :: closed m).

(** A channel operation of the manager: the channel changes, its [epoll_ctl]
    calls are made. *)
Definition on_chan (id : chan_id) (op : chan_op) (m : TimerEventMgr) : TimerEventMgr :=
  let '(ch, l) := exec_op op (get_chan id m) in log_ctls l (set_chan id ch m).

(** The constructors of [TimerQueue] (its channel) and of [TimerEventMgr]. *)
Definition queue_ctor (timerfd : Z) (flag : bool) (num_created : Z) (m : TimerEventMgr) : TimerEventMgr :=
  let m := set_queue (new_TimerQueue flag num_created) m in
  let m := set_chan TimerfdChannel (new_ChannelTimer timerfd) m in
  let m := set_chan TimerfdChannel (SetReadCallback cb_timer_queue (timerfd_channel_ m)) m in
  on_chan TimerfdChannel OpEnableReading m.

Definition new_TimerEventMgr (wakeupfd timerfd : Z) (flag : bool) : TimerEventMgr :=
  let m := MkMgr false [] (new_ChannelTimer wakeupfd) (new_ChannelTimer timerfd)
             (new_TimerQueue flag 0) [] 0 [] in
  let m := queue_ctor timerfd flag 0 m in
  let m := set_chan WakeupChannel (SetReadCallback cb_wakeup (wakeupChannel_ m)) m in
  on_chan WakeupChannel OpEnableReading m.

Definition QuitLoop (m : TimerEventMgr) : TimerEventMgr := set_quit true m.

Definition Destory (m : TimerEventMgr) : TimerEventMgr :=
  let m := on_chan WakeupChannel OpDisableAll m in
  let m := on_chan WakeupChannel OpRemove m in
  close_fd (fd_ (wakeupChannel_ m)) m.

(** [~TimerQueue] on the channel and the descriptor; its timers are
    [destroy_TimerQueue]'s. *)
Definition queue_dtor (m : TimerEventMgr) : res TimerEventMgr :=
  let m := on_chan TimerfdChannel OpDisableAll m in
  let m := on_chan TimerfdChannel OpRemove m in
  let m := close_fd (fd_ (timerfd_channel_ m)) m in
  q ← destroy_TimerQueue (timer_queue_ m);
  mret (set_queue q m).

Section Loop.
Context (clock : nat → Z) (alloc : gmap Z Timer → Z) (user : nat → Z → list call).

Definition run_callback (cb : Z) (m : TimerEventMgr) : res TimerEventMgr :=
  if cb =? cb_timer_queue then
    q ← HandleRead clock alloc user (timer_queue_ m);
    mret (set_queue q m)
  else mret (mgr_HandleRead m).

(** [EpollWaitActive] on the events [epoll_wait] reports (none on an error). *)
Fixpoint EpollWaitActive (ready : list (chan_id * Z)) (m : TimerEventMgr) : TimerEventMgr :=
  match ready with
  | [] => m
  | (id, ev) :: ready =>
      let m := set_chan id (SetRevents ev (get_chan id m)) m in
      EpollWaitActive ready (set_active (activeChannels_ m ++ [id]) m)
  end.

Definition GetActiveChannel (ready : list (chan_id * Z)) (m : TimerEventMgr) : TimerEventMgr :=
  EpollWaitActive ready (set_active [] m).

Fixpoint handle_active (l : list chan_id) (m : TimerEventMgr) : res TimerEventMgr :=
  match l with
  | [] => mret m
  | id :: l => m ← HandleEvent (get_chan id) run_callback m; handle_active l m
  end.

(** One turn of the loop. *)
Definition round (ready : list (chan_id * Z)) (m : TimerEventMgr) : res TimerEventMgr :=
  let m := GetActiveChannel ready m in
  handle_active (activeChannels_ m) m.

(** The first turns of [TimerLoop]: [quit] is what [quit_] reads before each. *)
Fixpoint turns (rounds : list (bool * list (chan_id * Z))) (m : TimerEventMgr) : res TimerEventMgr :=
  match rounds with
  | [] => mret m
  | (quit, ready) :: rounds =>
      if quit || quit_ m then mret m else m ← round ready m; turns rounds m
  end.
Definition TimerLoop (rounds : list (bool * list (chan_id * Z))) (m : TimerEventMgr) : res TimerEventMgr :=
  turns rounds (set_quit false m).
End Loop.

(** ** Lemmas *)

(** The channels as the constructor leaves them, up to the last events. *)
Definition mgr_ok (m : TimerEventMgr) : Prop :=
  readCallback_ (wakeupChannel_ m) = Some cb_wakeup ∧
  readCallback_ (timerfd_channel_ m) = Some cb_timer_queue ∧
  (∀ id, writeCallback_ (get_chan id m) = None ∧ closeCallback_ (get_chan id m) = None ∧
         errorCallback_ (get_chan id m) = None).

Definition readable (ev : Z) : bool :=
  negb (Z.land ev EPOLLIN =? 0) || negb (Z.land ev EPOLLPRI =? 0) || negb (Z.land ev EPOLLRDHUP =? 0).

Lemma due_mgr m id :
  mgr_ok m →
  due (get_chan id m) =
    if readable (revents_ (get_chan id m))
    then [match id with WakeupChannel => cb_wakeup | TimerfdChannel => cb_timer_queue end] else [].
Proof.
  intros (Hw & Ht & Hn). destruct (Hn id) as (H1 & H2 & H3). unfold due, readable.
  rewrite H1, H2, H3. simpl. rewrite app_nil_r.
  destruct id; simpl in *; [rewrite Hw|rewrite Ht]; done.
Qed.

Section LoopLemmas.
Context (clock : nat → Z) (alloc : gmap Z Timer → Z) (user : nat → Z → list call).

Lemma run_callback_chan cb m m' id :
  run_callback clock alloc user cb m = Ok m' → get_chan id m' = get_chan id m.
Proof.
  unfold run_callback. destruct (cb =? cb_timer_queue); [|by intros [= <-]].
  destruct (HandleRead _ _ _ _); simpl; [|done]. intros [= <-]. by destruct id.
Qed.

Lemma handle_event_mgr m id :
  mgr_ok m →
  HandleEvent (get_chan id) (run_callback clock alloc user) m =
    if readable (revents_ (get_chan id m)) then
      match id with
      | WakeupChannel => Ok (mgr_HandleRead m)
      | TimerfdChannel => q ← HandleRead clock alloc user (timer_queue_ m); mret (set_queue q m)
      end
    else Ok m.
Proof.
  intros Hm. unfold HandleEvent. rewrite (HandleEvent_due (get_chan id)).
  - rewrite due_mgr by done. by destruct (readable _), id.
  - intros cb w w'. apply run_callback_chan.
Qed.

Definition fires (m : TimerEventMgr) (l : list chan_id) (id : chan_id) : bool :=
  bool_decide (id ∈ l) && readable (revents_ (get_chan id m)).

(** What one turn did to the queue and the wake-up counter. *)
Definition turn_result (f : chan_id → bool) (m m' : TimerEventMgr) : Prop :=
  mgr_ok m' ∧ quit_ m' = quit_ m ∧ ctls m' = ctls m ∧ closed m' = closed m ∧
  wakeup_reads m' = ((if f WakeupChannel then 1 else 0) + wakeup_reads m)%nat ∧
  (if f TimerfdChannel
   then HandleRead clock alloc user (timer_queue_ m) = Ok (timer_queue_ m')
   else timer_queue_ m' = timer_queue_ m).

Lemma fires_cons_ne m id id' l : id ≠ id' → fires m (id' :: l) id = fires m l id.
Proof.
  intros Hne. unfold fires. f_equal. apply bool_decide_ext. rewrite elem_of_cons. naive_solver.
Qed.
Lemma fires_notin m id l : id ∉ l → fires m l id = false.
Proof. intros Hn. unfold fires. by rewrite bool_decide_false. Qed.
Lemma fires_head m id l : fires m (id :: l) id = readable (revents_ (get_chan id m)).
Proof. unfold fires. rewrite bool_decide_true; [done|left]. Qed.

Lemma handle_active_spec l m :
  mgr_ok m → NoDup l →
  wpe (handle_active clock alloc user l m) (turn_result (fires m l) m)
    (λ e, fires m l TimerfdChannel = true ∧ HandleRead clock alloc user (timer_queue_ m) = Err e).
Proof.
  revert m. induction l as [|id l IH]; intros m Hm Hnd; [done|].
  apply NoDup_cons in Hnd as [Hid Hnd]. simpl handle_active. rewrite handle_event_mgr by done.
  destruct id; simpl get_chan.
  - assert (Hf : fires m (WakeupChannel :: l) TimerfdChannel = fires m l TimerfdChannel)
      by (by apply fires_cons_ne).
    pose proof (fires_head m WakeupChannel l) as Hh. simpl in Hh.
    pose proof (fires_notin m WakeupChannel l Hid) as Hn. unfold turn_result.
    rewrite Hh, Hf. destruct (readable _).
    + specialize (IH (mgr_HandleRead m) Hm Hnd). unfold turn_result in IH. simpl.
      destruct (handle_active _ _ _ l (mgr_HandleRead m)); simpl in *; [|done].
      change (fires (mgr_HandleRead m) l) with (fires m l) in IH. rewrite Hn in IH.
      destruct IH as (? & ? & ? & ? & ? & ?). by split_and!.
    + specialize (IH m Hm Hnd). simpl. unfold turn_result in IH. rewrite Hn in IH. exact IH.
  - assert (Hf : fires m (TimerfdChannel :: l) WakeupChannel = fires m l WakeupChannel)
      by (by apply fires_cons_ne).
    pose proof (fires_head m TimerfdChannel l) as Hh. simpl in Hh.
    pose proof (fires_notin m TimerfdChannel l Hid) as Hn. unfold turn_result.
    rewrite Hh, Hf. destruct (readable _).
    + destruct (HandleRead clock alloc user (timer_queue_ m)) as [q|e]; simpl; [|done].
      specialize (IH (set_queue q m) Hm Hnd). unfold turn_result in IH.
      change (fires (set_queue q m) l) with (fires m l) in IH. rewrite Hn in IH.
      destruct (handle_active _ _ _ l (set_queue q m)); simpl in *; [|by destruct IH].
      destruct IH as (? & ? & ? & ? & ? & ->). by split_and!.
    + specialize (IH m Hm Hnd). simpl. unfold turn_result in IH. rewrite Hn in IH. exact IH.
Qed.

(** What [epoll_wait] reported for a channel. *)
Definition reported (ready : list (chan_id * Z)) (id : chan_id) : bool :=
  existsb (λ x, bool_decide (x.1 = id) && readable x.2) ready.

Lemma set_chan_ok id ev m : mgr_ok m → mgr_ok (set_chan id (SetRevents ev (get_chan id m)) m).
Proof.
  intros (H1 & H2 & H3). pose proof (H3 WakeupChannel). pose proof (H3 TimerfdChannel).
  split_and!; [by destruct id..|]. intros []; by destruct id.
Qed.

Lemma EpollWaitActive_spec ready m :
  mgr_ok m → NoDup ready.*1 →
  let m' := EpollWaitActive ready m in
  mgr_ok m' ∧ activeChannels_ m' = activeChannels_ m ++ ready.*1 ∧
  timer_queue_ m' = timer_queue_ m ∧ wakeup_reads m' = wakeup_reads m ∧ quit_ m' = quit_ m ∧
  ctls m' = ctls m ∧ closed m' = closed m ∧
  ∀ id, if bool_decide (id ∈ ready.*1)
        then readable (revents_ (get_chan id m')) = reported ready id
        else get_chan id m' = get_chan id m.
Proof.
  revert m. induction ready as [|[id ev] ready IH]; intros m Hm Hnd.
  { split_and!; try done. simpl. by rewrite app_nil_r. }
  simpl in Hnd |- *. apply NoDup_cons in Hnd as [Hid Hnd].
  set (m1 := set_active _ _). assert (Hm1 : mgr_ok m1) by (by apply set_chan_ok).
  destruct (IH m1 Hm1 Hnd) as (? & Hact & Hq & Hw & Hquit & Hctl & Hcl & Hrev).
  assert (Hch : ∀ id', get_chan id' m1 = if decide (id' = id) then SetRevents ev (get_chan id m) else get_chan id' m).
  { intros id'. subst m1. by destruct id, id'. }
  split_and!; try done.
  - rewrite Hact. subst m1. destruct id; simpl; by rewrite <- app_assoc.
  - rewrite Hq. subst m1. by destruct id.
  - rewrite Hw. subst m1. by destruct id.
  - rewrite Hquit. subst m1. by destruct id.
  - rewrite Hctl. subst m1. by destruct id.
  - rewrite Hcl. subst m1. by destruct id.
  - intros id'. specialize (Hrev id'). rewrite Hch in Hrev. unfold reported. simpl.
    destruct (decide (id' = id)) as [->|Hne].
    + rewrite (bool_decide_false _ Hid) in Hrev.
      rewrite Hrev, bool_decide_true, bool_decide_true by (done || left). simpl.
      assert (Hex : existsb (λ x : chan_id * Z, bool_decide (x.1 = id) && readable x.2) ready = false).
      { apply not_true_is_false. rewrite existsb_exists. intros ([id2 ev2] & Hin & Hb).
        apply andb_true_iff in Hb as [Hb _]. apply bool_decide_eq_true in Hb. simpl in Hb. subst id2.
        apply Hid, list_elem_of_fmap. exists (id, ev2). split; [done|]. by apply list_elem_of_In. }
      rewrite Hex. by rewrite orb_false_r.
    + rewrite (bool_decide_false (id = id')) by (by intros ->). simpl.
      case_bool_decide as H1; case_bool_decide as H2; rewrite elem_of_cons in *; naive_solver.
Qed.
End LoopLemmas.

(** ** Properties *)

(** One turn of the event loop runs the timer queue's handler exactly once
    if [epoll_wait] reported the timer descriptor readable and not at all
    otherwise, reads the wake-up counter likewise, makes no [epoll_ctl] call, and
    fails only if the handler does. *)
Theorem round_correct clock alloc user ready m :
  mgr_ok m → NoDup ready.*1 →
  wpe (round clock alloc user ready m) (turn_result clock alloc user (reported ready) m)
    (λ e, reported ready TimerfdChannel = true ∧ HandleRead clock alloc user (timer_queue_ m) = Err e).
Proof.
  intros Hm Hnd. unfold round, GetActiveChannel.
  destruct (EpollWaitActive_spec ready (set_active [] m) Hm Hnd)
    as (Hm1 & Hact & Hq & Hw & Hquit & Hctl & Hcl & Hrev). simpl in Hact.
  set (m1 := EpollWaitActive ready (set_active [] m)) in *. rewrite Hact.
  assert (Hf : ∀ id, fires m1 ready.*1 id = reported ready id).
  { intros id. specialize (Hrev id). unfold fires. case_bool_decide as Hid; simpl; [done|].
    symmetry. apply not_true_is_false. unfold reported. rewrite existsb_exists.
    intros ([id2 ev2] & Hin & Hb). apply andb_true_iff in Hb as [Hb _].
    apply bool_decide_eq_true in Hb. simpl in Hb. subst id2. apply Hid, list_elem_of_fmap.
    exists (id, ev2). split; [done|]. by apply list_elem_of_In. }
  pose proof (handle_active_spec clock alloc user ready.*1 m1 Hm1 Hnd) as H.
  unfold turn_result in *. rewrite !Hf, Hq, Hw, Hquit, Hctl, Hcl in H. exact H.
Qed.

(** The manager as constructed, with one timer of the client. *)
Definition demo_mgr : TimerEventMgr := set_queue demo_queue (new_TimerEventMgr 5 6 false).

Lemma new_mgr_ok wakeupfd timerfd flag : mgr_ok (new_TimerEventMgr wakeupfd timerfd flag).
Proof. split_and!; [done..|]. by intros []. Qed.

Lemma demo_nodup : NoDup [(TimerfdChannel, 1)].*1.
Proof. apply NoDup_singleton. Qed.

Lemma round_correct_witness :
  wp (round demo_clock demo_alloc idle_user [(TimerfdChannel, 1)] demo_mgr)
    (λ m', HandleRead demo_clock demo_alloc idle_user demo_queue = Ok (timer_queue_ m')).
Proof.
  pose proof (round_correct demo_clock demo_alloc idle_user [(TimerfdChannel, 1)] demo_mgr
    (new_mgr_ok 5 6 false) demo_nodup) as H.
  destruct (round demo_clock demo_alloc idle_user [(TimerfdChannel, 1)] demo_mgr) as [m|e]; simpl in *.
  - apply H.
  - destruct H as [_ H]. by vm_compute in H.
Defined.

(** C32: With callbacks that only do work of their own, the event loop never
    fails, whatever [epoll_wait] reports and whenever it is told to quit, and
    after any number of turns the queue is well-formed and the kernel timer set
    for its earliest timer. *)
Theorem timer_loop_safe clock alloc rounds m :
  clock_ok clock → alloc_ok alloc → mgr_ok m →
  wf [] (timer_queue_ m) → armed_for_head (timer_queue_ m) →
  Forall (λ r : bool * list (chan_id * Z), NoDup r.2.*1) rounds →
  wp (TimerLoop clock alloc idle_user rounds m)
    (λ m', mgr_ok m' ∧ wf [] (timer_queue_ m') ∧ armed_for_head (timer_queue_ m')).
Proof.
  intros Hc Ha Hm Hwf Har Hr. unfold TimerLoop.
  assert (Hm0 : mgr_ok (set_quit false m)) by exact Hm.
  assert (Hwf0 : wf [] (timer_queue_ (set_quit false m))) by exact Hwf.
  assert (Har0 : armed_for_head (timer_queue_ (set_quit false m))) by exact Har.
  clear Hm Hwf Har. revert Hm0 Hwf0 Har0. generalize (set_quit false m). clear m.
  induction Hr as [|[quit ready] rounds Hnd Hr IH]; intros m Hm Hwf Har; simpl; [done|].
  destruct (quit || quit_ m); [done|]. apply wp_bind.
  pose proof (round_correct clock alloc idle_user ready m Hm Hnd) as H.
  pose proof (HandleRead_spec clock alloc idle_user 0 Hc Ha idle_user_ok _ Hwf) as Hh.
  specialize (Hh ltac:(pose proof (wf_created _ _ Hwf); simpl; lia)). simpl in Hh.
  destruct (round clock alloc idle_user ready m) as [m1|e]; simpl in *.
  - destruct H as (Hm1 & _ & _ & _ & _ & Hq). apply IH; [done|..]; destruct (reported ready TimerfdChannel).
    + rewrite Hq in Hh. apply Hh.
    + by rewrite Hq.
    + rewrite Hq in Hh. simpl in Hh. eapply armed_now_head. apply Hh.
    + by rewrite Hq.
  - destruct H as [_ H]. rewrite H in Hh. simpl in Hh. destruct Hh as [_ Hh].
    by apply idle_user_no_stop in Hh.
Qed.

Lemma timer_loop_safe_witness :
  wp (TimerLoop demo_clock demo_alloc idle_user [(false, [(TimerfdChannel, 1)]); (true, [])]
        (new_TimerEventMgr 5 6 false)) (λ m', wf [] (timer_queue_ m')).
Proof.
  eapply wp_mono; [apply (timer_loop_safe demo_clock demo_alloc _ (new_TimerEventMgr 5 6 false)
    demo_clock_ok demo_alloc_ok (new_mgr_ok 5 6 false))|].
  - apply wf_new_queue. int_lia.
  - exact I.
  - repeat constructor. apply not_elem_of_nil.
  - intros m' H. apply H.
Defined.

(** The manager registers its two descriptors for reading; [Destory] and the
    queue's destructor remove both registrations before they close the
    descriptors, each once, and the event loop is not told to quit. *)
Theorem mgr_lifecycle wakeupfd timerfd flag :
  let m := new_TimerEventMgr wakeupfd timerfd flag in
  mgr_ok m ∧ ctls m = [CtlAdd timerfd 3; CtlAdd wakeupfd 3] ∧
  wp (queue_dtor (Destory m))
    (λ m', ctls m' = ctls m ++ [CtlDel wakeupfd; CtlDel timerfd] ∧
           closed m' = [timerfd; wakeupfd] ∧ quit_ m' = false).
Proof. split; [apply new_mgr_ok|]. by vm_compute. Qed.
