(* ===== verification/TaskQueue.v ===== *)
(** * The task containers of the two thread pools.

    include/threadpool.h keeps a plain [list<Task>]; the pool of socket/epoll
    and tools/sync_file keeps a [list<pair<int, Task>>] and, by descriptor, the
    iterators into it.  A list node (so its iterator, and the task in it) is a
    number, new for each node.  What the pool's threads need of a container is
    the class [TaskQueue]; both containers are instances. *)
From S2P Require Import Prelude.

(** ** The interface

    [contents] are the queued tasks, oldest first.  [q_close] is the operation
    on a closed descriptor, where the pool has it. *)
Class TaskQueue (Q : Type) : Type := {
  q_empty : Q;
  q_push : Z → nat → Q → res Q;
  q_pop : Q → res (nat * Q);
  q_close : option (Z → Q → res Q);
  contents : Q → list nat;
  q_wf : Q → Prop;
}.

Class TaskQueueLaws (Q : Type) `{TaskQueue Q} : Prop := {
  wf_empty : q_wf q_empty ∧ contents q_empty = [];
  push_law : ∀ fd n q, q_wf q → n ∉ contents q →
    ∃ q', q_push fd n q = Ok q' ∧ q_wf q' ∧ contents q' = contents q ++ [n];
  pop_law : ∀ n l q, q_wf q → contents q = n :: l →
    ∃ q', q_pop q = Ok (n, q') ∧ q_wf q' ∧ contents q' = l;
  close_law : ∀ f fd q, q_close = Some f → q_wf q →
    ∃ q', f fd q = Ok q' ∧ q_wf q' ∧ contents q' `sublist_of` contents q;
}.

(** ** include/threadpool.h *)
Record PlainTasks : Type := MkPlain { tasks_ : list nat }.

(** [tasks_.emplace_back], and [front] with [pop_front]. *)
Definition plain_push (n : nat) (q : PlainTasks) : PlainTasks := MkPlain (tasks_ q ++ [n]).
Definition plain_pop (q : PlainTasks) : res (nat * PlainTasks) :=
  match tasks_ q with
  | [] => Err UseAfterFree
  | n :: l => mret (n, MkPlain l)
  end.

#[export] Instance plain_queue : TaskQueue PlainTasks := {
  q_empty := MkPlain [];
  q_push _ n q := Ok (plain_push n q);
  q_pop := plain_pop;
  q_close := None;
  contents := tasks_;
  q_wf _ := True;
}.

#[export] Instance plain_queue_laws : TaskQueueLaws PlainTasks.
Proof.
  constructor; simpl; [done| |by intros n l [?] _ [= ->]; eauto|done].
  intros fd n [l] _ _. by eexists.
Qed.

(** ** The pool with descriptors *)
Record FdTasks : Type := MkFd {
  _tasks : list (nat * Z);
  fd_task_map : gmap Z (list nat);
}.

(** [fd_task_map[fd]]: a missing entry is an empty list. *)
Definition map_at (fd : Z) (m : gmap Z (list nat)) : list nat := default [] (m !! fd).

Definition fd_push (fd : Z) (n : nat) (q : FdTasks) : FdTasks :=
  let tasks := _tasks q ++ [(n, fd)] in
  MkFd tasks (<[fd := map_at fd (fd_task_map q) ++ [n]]> (fd_task_map q)).

(** [front()] or [pop_front()] of an empty list is undefined. *)
Definition fd_pop (q : FdTasks) : res (nat * FdTasks) :=
  match _tasks q with
  | [] => Err UseAfterFree
  | (n, fd) :: tasks =>
      match map_at fd (fd_task_map q) with
      | [] => Err UseAfterFree
      | _ :: ids => mret (n, MkFd tasks (<[fd := ids]> (fd_task_map q)))
      end
  end.

(** [_tasks.erase(item)]: the iterator must point into the list. *)
Fixpoint erase_node (item : nat) (l : list (nat * Z)) : res (list (nat * Z)) :=
  match l with
  | [] => Err UseAfterFree
  | x :: l => if Nat.eqb x.1 item then mret l else l ← erase_node item l; mret (x :: l)
  end.
Fixpoint erase_nodes (items : list nat) (l : list (nat * Z)) : res (list (nat * Z)) :=
  match items with
  | [] => mret l
  | item :: items => l ← erase_node item l; erase_nodes items l
  end.

Definition delCloseFD (fd : Z) (q : FdTasks) : res FdTasks :=
  match fd_task_map q !! fd with
  | None => mret q
  | Some items => tasks ← erase_nodes items (_tasks q); mret (MkFd tasks (delete fd (fd_task_map q)))
  end.

Definition of_fd (fd : Z) (l : list (nat * Z)) : list nat := (filter (λ x, x.2 = fd) l).*1.

(** Nodes are distinct and the map holds, for each descriptor, the iterators of
    its tasks in queue order. *)
Record fd_wf (q : FdTasks) : Prop := FdWf {
  fd_nodup : NoDup (_tasks q).*1;
  fd_map : ∀ fd, map_at fd (fd_task_map q) = of_fd fd (_tasks q);
}.

#[export] Instance fd_queue : TaskQueue FdTasks := {
  q_empty := MkFd [] ∅;
  q_push fd n q := Ok (fd_push fd n q);
  q_pop := fd_pop;
  q_close := Some delCloseFD;
  contents q := (_tasks q).*1;
  q_wf := fd_wf;
}.

(** ** Lemmas *)
Lemma map_at_insert fd fd' l m :
  map_at fd (<[fd' := l]> m) = if decide (fd = fd') then l else map_at fd m.
Proof.
  unfold map_at. destruct (decide (fd = fd')) as [->|]; [by rewrite lookup_insert_eq|].
  by rewrite lookup_insert_ne.
Qed.

Lemma of_fd_app fd l1 l2 : of_fd fd (l1 ++ l2) = of_fd fd l1 ++ of_fd fd l2.
Proof. unfold of_fd. by rewrite filter_app, fmap_app. Qed.

Lemma of_fd_cons fd x l : of_fd fd (x :: l) = if decide (x.2 = fd) then x.1 :: of_fd fd l else of_fd fd l.
Proof. unfold of_fd. rewrite filter_cons. by destruct (decide _). Qed.

Lemma fd_push_wf fd n q : fd_wf q → n ∉ (_tasks q).*1 → fd_wf (fd_push fd n q).
Proof.
  intros [Hnd Hm] Hn. constructor; simpl.
  - rewrite fmap_app. apply NoDup_app. split; [done|]. split; [|apply NoDup_singleton].
    simpl. set_solver.
  - intros fd'. rewrite map_at_insert, of_fd_app, of_fd_cons, <- Hm. simpl.
    destruct (decide (fd' = fd)) as [->|]; [by rewrite decide_True|].
    rewrite decide_False by done. by rewrite app_nil_r.
Qed.

Lemma fd_pop_wf n fd l m :
  fd_wf (MkFd ((n, fd) :: l) m) → ∃ q', fd_pop (MkFd ((n, fd) :: l) m) = Ok (n, q') ∧ fd_wf q' ∧ _tasks q' = l.
Proof.
  intros [Hnd Hm]. unfold fd_pop. simpl in *. pose proof (Hm fd) as Hfd.
  rewrite of_fd_cons, decide_True in Hfd by done. rewrite Hfd. eexists. split; [done|].
  split; [|done]. apply NoDup_cons in Hnd as [_ Hnd]. constructor; [done|]. simpl.
  intros fd'. rewrite map_at_insert. destruct (decide (fd' = fd)) as [->|Hne]; [done|].
  rewrite Hm, of_fd_cons, decide_False by (simpl; congruence). done.
Qed.

Lemma erase_node_ok n l :
  NoDup l.*1 → n ∈ l.*1 → erase_node n l = Ok (filter (λ x, x.1 ≠ n) l).
Proof.
  induction l as [|x l IH]; [by intros _ ?%not_elem_of_nil|]. simpl.
  intros [Hx Hnd]%NoDup_cons Hn. rewrite filter_cons. destruct (Nat.eqb_spec x.1 n) as [<-|Hne].
  - rewrite decide_False by auto. rewrite filter_all; [done|].
    intros y Hy Heq. apply Hx, list_elem_of_fmap. by exists y.
  - rewrite decide_True by done. rewrite IH by set_solver. done.
Qed.

Lemma fst_filter_elem P `{∀ x, Decision (P x)} n (l : list (nat * Z)) :
  n ∈ (filter P l).*1 ↔ ∃ fd, P (n, fd) ∧ (n, fd) ∈ l.
Proof.
  rewrite list_elem_of_fmap. split.
  - intros ([n' fd] & -> & H1). apply list_elem_of_filter in H1. eauto.
  - intros (fd & ?). exists (n, fd). split; [done|]. by apply list_elem_of_filter.
Qed.

Lemma filter_fst_NoDup P `{∀ x, Decision (P x)} (l : list (nat * Z)) :
  NoDup l.*1 → NoDup (filter P l).*1.
Proof. intros Hnd. eapply sublist_NoDup; [done|]. apply fmap_sublist, sublist_filter. Qed.

Lemma erase_nodes_ok items l :
  NoDup l.*1 → NoDup items → (∀ n, n ∈ items → n ∈ l.*1) →
  erase_nodes items l = Ok (filter (λ x, x.1 ∉ items) l).
Proof.
  revert l. induction items as [|n items IH]; intros l Hnd Hni Hin; simpl.
  { rewrite filter_all; [done|]. set_solver. }
  apply NoDup_cons in Hni as [Hn Hni]. rewrite erase_node_ok by set_solver. simpl. rewrite IH.
  - rewrite list_filter_filter. f_equal. apply list_filter_iff. set_solver.
  - by apply filter_fst_NoDup.
  - done.
  - intros n' Hn'. assert (Hl : n' ∈ l.*1) by set_solver.
    apply list_elem_of_fmap in Hl as ([n2 fd] & -> & Hl). apply fst_filter_elem. exists fd.
    split; [|done]. simpl in *. by intros ->.
Qed.

Lemma of_fd_elem fd n l : n ∈ of_fd fd l ↔ (n, fd) ∈ l.
Proof. unfold of_fd. rewrite fst_filter_elem. naive_solver. Qed.

Lemma delCloseFD_ok fd q :
  fd_wf q → ∃ q', delCloseFD fd q = Ok q' ∧ fd_wf q' ∧ _tasks q' = filter (λ x, x.2 ≠ fd) (_tasks q).
Proof.
  intros Hwf. pose proof Hwf as [Hnd Hm]. unfold delCloseFD.
  assert (Hitems : map_at fd (fd_task_map q) = of_fd fd (_tasks q)) by apply Hm.
  unfold map_at in Hitems. destruct (fd_task_map q !! fd) as [items|] eqn:Hfd; simpl in Hitems.
  - subst items. rewrite erase_nodes_ok; [|done|by apply filter_fst_NoDup|].
    2:{ intros n Hn%of_fd_elem. apply list_elem_of_fmap. by exists (n, fd). }
    simpl. eexists. split; [done|].
    assert (Heq : filter (λ x, x.1 ∉ of_fd fd (_tasks q)) (_tasks q) = filter (λ x, x.2 ≠ fd) (_tasks q)).
    { apply filter_ext_on. intros [n fd'] Hin. rewrite of_fd_elem. simpl. split; [by intros H ->|].
      intros Hne Hin'. assert (fd' = fd); [|done]. eapply NoDup_fst_inj; eauto. }
    rewrite Heq. split; [|done]. constructor; simpl; [by apply filter_fst_NoDup|].
    intros fd'. unfold map_at. destruct (decide (fd' = fd)) as [->|Hne].
    + rewrite lookup_delete_eq. simpl. unfold of_fd. rewrite list_filter_filter.
      rewrite filter_none; [done|]. naive_solver.
    + rewrite lookup_delete_ne by done. pose proof (Hm fd') as H. unfold map_at in H. rewrite H.
      unfold of_fd. rewrite list_filter_filter. f_equal. apply list_filter_iff. naive_solver.
  - exists q. split; [done|]. split; [done|]. symmetry. apply filter_all.
    intros [n fd'] Hin Heq. simpl in Heq. subst fd'.
    apply of_fd_elem in Hin. rewrite <- Hitems in Hin. by apply not_elem_of_nil in Hin.
Qed.

Lemma fd_wf_empty : fd_wf (MkFd [] ∅).
Proof. constructor; simpl; [by constructor|]. intros fd. unfold map_at. by rewrite lookup_empty. Qed.

#[export] Instance fd_queue_laws : TaskQueueLaws FdTasks.
Proof.
  constructor; simpl.
  - split; [apply fd_wf_empty|done].
  - intros fd n q Hwf Hn. eexists. split; [done|]. split; [by apply fd_push_wf|].
    simpl. by rewrite fmap_app.
  - intros n l [[|[n' fd] tasks] m] Hwf; simpl; [done|]. intros [= -> <-].
    destruct (fd_pop_wf n fd tasks m Hwf) as (q' & ? & ? & <-). by exists q'.
  - intros f fd q [= <-] Hwf. destruct (delCloseFD_ok fd q Hwf) as (q' & ? & ? & Hq').
    exists q'. split; [done|]. split; [done|]. rewrite Hq'. apply fmap_sublist, sublist_filter.
Qed.

(** ** Properties *)

(** C21: Closing a descriptor removes its queued tasks and only those, keeps the
    others in order, touches no iterator that is not in the list, and leaves the
    map exact for what remains. *)
Theorem close_fd_exact fd q :
  fd_wf q →
  ∃ q', delCloseFD fd q = Ok q' ∧ fd_wf q' ∧ _tasks q' = filter (λ x, x.2 ≠ fd) (_tasks q) ∧
    fd_task_map q' !! fd = None.
Proof.
  intros Hwf. destruct (delCloseFD_ok fd q Hwf) as (q' & Hq & ? & ?). exists q'. split_and!; try done.
  unfold delCloseFD in Hq. destruct (fd_task_map q !! fd) eqn:Hfd; [|by injection Hq as <-].
  destruct (erase_nodes _ _); [|done]. injection Hq as <-. apply lookup_delete_eq.
Qed.

Definition demo_fd_queue : FdTasks := fd_push 4 2 (fd_push 5 1 (fd_push 4 0 (MkFd [] ∅))).

Lemma demo_fd_queue_wf : fd_wf demo_fd_queue.
Proof.
  repeat (apply fd_push_wf; [|simpl; set_solver]). apply fd_wf_empty.
Qed.

Lemma close_fd_exact_witness : ∃ q', delCloseFD 4 demo_fd_queue = Ok q' ∧ _tasks q' = [(1%nat, 5)].
Proof.
  destruct (close_fd_exact 4 demo_fd_queue demo_fd_queue_wf) as (q' & ? & _ & Hq & _).
  exists q'. split; [done|]. rewrite Hq. by vm_compute.
Defined.
