(* ===== verification/ThreadPool.v ===== *)
(** * The thread pools: include/threadpool.h, and the copy of socket/epoll and
    tools/sync_file, over the interface [TaskQueue].

    Threads interleave freely, so the pool is a step relation.  A step is one
    access to shared state: a read or write of an atomic, or a lock-protected
    region, which is split where the code can be seen in between ([wait] tests
    its predicate with the lock held, then gives the lock up and sleeps).  An
    access to the list while another thread is about to access it in a way that
    conflicts is a data race, which is an error of the model: it is the lock, and
    nothing in the definitions, that keeps the threads apart. *)
From S2P Require Import Prelude TaskQueue.

Definition THREADPOOL_MAX_NUM : Z := 16.

(** Where a worker is: at [while (run_)]; about to lock; in [wait] before the
    predicate; after [wait] returned; in [wait] about to sleep; asleep; holding
    a task, before [idlThrNum_--]; running it; gone. *)
Inductive wstate : Type :=
  | Top | Acquire | Checking | Ready | Blocking | Waiting
  | Taken (task : nat) | Running (task : nat) | Exited.
#[global] Instance wstate_eq_dec : EqDecision wstate.
Proof. solve_decision. Defined.

(** How far [Destory] (or the destructor) got: not called, [run_] cleared, all
    notified, all joined. *)
Inductive stop_phase : Type := Open | Cleared | Joining | Joined.

(** [adders] are the calls of [AddTask] that saw [run_] set and have not yet
    queued, [notifies] those that queued and have not yet notified;
    [to_spawn] is [size] of the running [InitThreadSize], [uncounted] whether
    it spawned a thread it has not counted.  [lock] is whether a worker holds
    [lock_]; [taken] and [finished] log the tasks, newest first. *)
Record ThreadPool (Q : Type) : Type := MkPool {
  run_ : bool;
  queue : Q;
  lock : bool;
  pool_ : list wstate;
  idlThrNum_ : Z;
  phase : stop_phase;
  adders : nat;
  notifies : nat;
  to_spawn : Z;
  uncounted : bool;
  next_task : nat;
  taken : list nat;
  finished : list nat;
}.
Arguments MkPool {Q}.
Arguments run_ {Q}. Arguments queue {Q}. Arguments lock {Q}. Arguments pool_ {Q}.
Arguments idlThrNum_ {Q}. Arguments phase {Q}. Arguments adders {Q}. Arguments notifies {Q}.
Arguments to_spawn {Q}. Arguments uncounted {Q}. Arguments next_task {Q}.
Arguments taken {Q}. Arguments finished {Q}.

Section Pool.
Context {Q : Type} `{TaskQueue Q}.
Implicit Types p : ThreadPool Q.

Definition new_pool : ThreadPool Q := MkPool true q_empty false [] 0 Open 0 0 0 false 0 [] [].

(** Field updates. *)
Definition set_worker (i : nat) (s : wstate) p := MkPool (run_ p) (queue p) (lock p) (<[i := s]> (pool_ p))
  (idlThrNum_ p) (phase p) (adders p) (notifies p) (to_spawn p) (uncounted p) (next_task p) (taken p) (finished p).
Definition set_lock b p := MkPool (run_ p) (queue p) b (pool_ p)
  (idlThrNum_ p) (phase p) (adders p) (notifies p) (to_spawn p) (uncounted p) (next_task p) (taken p) (finished p).
Definition add_idle d p := MkPool (run_ p) (queue p) (lock p) (pool_ p)
  (idlThrNum_ p + d) (phase p) (adders p) (notifies p) (to_spawn p) (uncounted p) (next_task p) (taken p) (finished p).
Definition set_taken t (q : Q) p := MkPool (run_ p) q (lock p) (pool_ p)
  (idlThrNum_ p) (phase p) (adders p) (notifies p) (to_spawn p) (uncounted p) (next_task p) (t :: taken p) (finished p).
Definition set_finished t p := MkPool (run_ p) (queue p) (lock p) (pool_ p)
  (idlThrNum_ p) (phase p) (adders p) (notifies p) (to_spawn p) (uncounted p) (next_task p) (taken p) (t :: finished p).
Definition set_queue (q : Q) p := MkPool (run_ p) q (lock p) (pool_ p)
  (idlThrNum_ p) (phase p) (adders p) (notifies p) (to_spawn p) (uncounted p) (next_task p) (taken p) (finished p).
Definition set_clients a n t p := MkPool (run_ p) (queue p) (lock p) (pool_ p)
  (idlThrNum_ p) (phase p) a n (to_spawn p) (uncounted p) t (taken p) (finished p).
Definition set_spawn n u p := MkPool (run_ p) (queue p) (lock p) (pool_ p)
  (idlThrNum_ p) (phase p) (adders p) (notifies p) n u (next_task p) (taken p) (finished p).
Definition set_pool ws p := MkPool (run_ p) (queue p) (lock p) ws
  (idlThrNum_ p) (phase p) (adders p) (notifies p) (to_spawn p) (uncounted p) (next_task p) (taken p) (finished p).
Definition set_phase b ph p := MkPool b (queue p) (lock p) (pool_ p)
  (idlThrNum_ p) ph (adders p) (notifies p) (to_spawn p) (uncounted p) (next_task p) (taken p) (finished p).

Definition IdlCount p : Z := idlThrNum_ p.
Definition ThrCount p : Z := Z.of_nat (length (pool_ p)).
Definition TaskCount p : Z := Z.of_nat (length (contents (queue p))).
Definition tasks_empty p : bool := bool_decide (contents (queue p) = []).

(** The workers whose next access is to the list, and those that will change it. *)
Definition touches (s : wstate) : bool := match s with Checking | Ready => true | _ => false end.
Definition pops p (s : wstate) : bool :=
  match s with Ready => negb (negb (run_ p) && tasks_empty p) | _ => false end.

(** A write of the list by a thread, and a read, beside the other workers. *)
Definition writing (others : list wstate) (r : res (ThreadPool Q)) : res (ThreadPool Q) :=
  if existsb touches others then Err DataRace else r.
Definition reading p (others : list wstate) (r : res (ThreadPool Q)) : res (ThreadPool Q) :=
  if existsb (pops p) others then Err DataRace else r.

(** The test at the start of [AddTask]. *)
Definition AddTask_check p : res unit := if run_ p then mret tt else Err Thrown.

(** [tasks_.front()] with [pop_front()], the lock given back. *)
Definition take_task (i : nat) p : res (ThreadPool Q) :=
  '(t, q) ← q_pop (queue p);
  mret (set_lock false (set_worker i (Taken t) (set_taken t q p))).

(** The body of a worker, one access at a time. *)
Inductive worker_step (i : nat) p : res (ThreadPool Q) → Prop :=
  | w_top : pool_ p !! i = Some Top →
      worker_step i p (Ok (set_worker i (if run_ p then Acquire else Exited) p))
  | w_lock : pool_ p !! i = Some Acquire → lock p = false →
      worker_step i p (Ok (set_lock true (set_worker i Checking p)))
  | w_check : pool_ p !! i = Some Checking →
      worker_step i p (reading p (delete i (pool_ p)) (Ok (set_worker i
        (if negb (run_ p) || negb (tasks_empty p) then Ready else Blocking) p)))
  | w_return : pool_ p !! i = Some Ready → negb (run_ p) && tasks_empty p = true →
      worker_step i p (reading p (delete i (pool_ p)) (Ok (set_lock false (set_worker i Exited p))))
  | w_take : pool_ p !! i = Some Ready → negb (run_ p) && tasks_empty p = false →
      worker_step i p (writing (delete i (pool_ p)) (take_task i p))
  | w_sleep : pool_ p !! i = Some Blocking →
      worker_step i p (Ok (set_lock false (set_worker i Waiting p)))
  | w_start t : pool_ p !! i = Some (Taken t) →
      worker_step i p (Ok (add_idle (-1) (set_worker i (Running t) p)))
  | w_finish t : pool_ p !! i = Some (Running t) →
      worker_step i p (Ok (set_finished t (add_idle 1 (set_worker i Top p)))).

(** The rest of the calls already begun: the notification of an [AddTask], the
    [notify_all] and the [join]s of [Destory]. *)
Inductive pending_step p : res (ThreadPool Q) → Prop :=
  | p_push fd q' : (0 < adders p)%nat → lock p = false → q_push fd (next_task p) (queue p) = q' →
      pending_step p (writing (pool_ p)
        (q ← q'; mret (set_clients (pred (adders p)) (S (notifies p)) (S (next_task p)) (set_queue q p))))
  | p_notify_one i : (0 < notifies p)%nat → pool_ p !! i = Some Waiting →
      pending_step p (Ok (set_clients (adders p) (pred (notifies p)) (next_task p) (set_worker i Acquire p)))
  | p_notify_none : (0 < notifies p)%nat → Waiting ∉ pool_ p →
      pending_step p (Ok (set_clients (adders p) (pred (notifies p)) (next_task p) p))
  | p_notify_all : phase p = Cleared →
      pending_step p (Ok (set_phase (run_ p) Joining
        (set_pool ((λ s, if decide (s = Waiting) then Acquire else s) <$> pool_ p) p)))
  | p_join : phase p = Joining → Forall (λ s, s = Exited) (pool_ p) →
      pending_step p (Ok (set_phase (run_ p) Joined p))
  | p_spawn : uncounted p = false → Z.of_nat (length (pool_ p)) < THREADPOOL_MAX_NUM → 0 < to_spawn p →
      pending_step p (Ok (set_spawn (to_spawn p) true (set_pool (pool_ p ++ [Top]) p)))
  | p_count : uncounted p = true →
      pending_step p (Ok (set_spawn (to_spawn p - 1) false (add_idle 1 p))).

(** [InitThreadSize] is not running: its loop has ended. *)
Definition init_done p : Prop :=
  uncounted p = false ∧ (to_spawn p ≤ 0 ∨ THREADPOOL_MAX_NUM ≤ Z.of_nat (length (pool_ p))).

(** New calls: [AddTask], [delCloseFD]; [InitThreadSize] and [Destory], which
    the owner of the pool calls one after the other. *)
Inductive client_step p : res (ThreadPool Q) → Prop :=
  | c_add : AddTask_check p = Ok tt →
      client_step p (Ok (set_clients (S (adders p)) (notifies p) (next_task p) p))
  | c_close f fd : q_close = Some f → lock p = false →
      client_step p (writing (pool_ p) (q ← f fd (queue p); mret (set_queue q p)))
  | c_init size : phase p = Open → init_done p → 0 ≤ size < 2 ^ 16 →
      client_step p (Ok (set_spawn size false p))
  | c_stop : phase p = Open → init_done p →
      client_step p (Ok (set_phase false Cleared p)).

(** [InitThreadSize] is about to add a thread to the vector. *)
Definition spawns p : bool := negb (uncounted p) && (0 <? to_spawn p) && (ThrCount p <? THREADPOOL_MAX_NUM).

(** The queries, from any thread: [TaskCount] and [ThrCount] read the list and
    the vector without the lock, so nothing orders them with an [AddTask] that has
    not queued its task yet, with a worker that takes one, or with
    [InitThreadSize]; [idlThrNum_] is atomic. *)
Inductive query_step p : res (ThreadPool Q) → Prop :=
  | k_tasks : query_step p (if negb (Nat.eqb (adders p) 0) then Err DataRace else reading p (pool_ p) (Ok p))
  | k_threads : query_step p (if spawns p then Err DataRace else Ok p)
  | k_idle : query_step p (Ok p).

(** A sleeping thread may wake up without a notification. *)
Inductive spurious_step p : res (ThreadPool Q) → Prop :=
  | s_wake i : pool_ p !! i = Some Waiting → spurious_step p (Ok (set_worker i Acquire p)).

Inductive step p : res (ThreadPool Q) → Prop :=
  | step_worker i r : worker_step i p r → step p r
  | step_pending r : pending_step p r → step p r
  | step_client r : client_step p r → step p r
  | step_spurious r : spurious_step p r → step p r
  | step_query r : query_step p r → step p r.

Definition reachable p : Prop := rtc (λ p p', step p (Ok p')) new_pool p.

(** A step that did not race did what it does alone. *)
Lemma writing_ok ws r p : writing ws r = Ok p → r = Ok p.
Proof. unfold writing. by destruct (existsb _ _). Qed.
Lemma reading_ok p ws r p' : reading p ws r = Ok p' → r = Ok p'.
Proof. unfold reading. by destruct (existsb _ _). Qed.
Lemma query_same p p' : query_step p (Ok p') → p' = p.
Proof.
  intros Hk. inversion Hk as [He|He|He]; [|by destruct (spawns p); [|injection He as <-]|done].
  destruct (negb _); [done|]. apply reading_ok in He. by injection He as <-.
Qed.
End Pool.

Ltac alone :=
  repeat match goal with
  | H : writing _ _ = Ok _ |- _ => apply writing_ok in H
  | H : reading _ _ (Ok _) = Ok _ |- _ => apply reading_ok in H; injection H as <-
  end.

(** The pool of socket/epoll (its destructor is the [Destory] of the other), and
    its copy in tools/sync_file. *)
Definition epoll_pool_step : ThreadPool FdTasks → res (ThreadPool FdTasks) → Prop := step.
Definition sync_pool_step : ThreadPool FdTasks → res (ThreadPool FdTasks) → Prop := step.
