(* ===== verification/ThreadPoolInv.v ===== *)
(** * The thread pool: invariants of every reachable state, and properties. *)
From S2P Require Import Prelude TaskQueue ThreadPool.

(** The states of a worker that holds [lock_], that sleeps or is gone, and the
    task it holds. *)
Definition critical (s : wstate) : bool :=
  match s with Checking | Ready | Blocking => true | _ => false end.
Definition awake (s : wstate) : bool := match s with Waiting | Exited => false | _ => true end.
Definition holds (s : wstate) : list nat := match s with Taken t | Running t => [t] | _ => [] end.
Definition is_running (s : wstate) : bool := match s with Running _ => true | _ => false end.

Definition held (ws : list wstate) : list nat := concat (holds <$> ws).
Definition running (ws : list wstate) : Z := Z.of_nat (length (filter (λ s, is_running s = true) ws)).

Lemma worker_split (ws : list wstate) i s s' :
  ws !! i = Some s → ∃ l1 l2, ws = l1 ++ s :: l2 ∧ <[i := s']> ws = l1 ++ s' :: l2.
Proof.
  intros H. exists (take i ws), (drop (S i) ws). split.
  - symmetry. by apply take_drop_middle.
  - apply insert_take_drop. by eapply lookup_lt_Some.
Qed.

Lemma held_insert ws i s s' :
  ws !! i = Some s → held (<[i := s']> ws) ++ holds s ≡ₚ held ws ++ holds s'.
Proof.
  intros H. destruct (worker_split ws i s s' H) as (l1 & l2 & -> & ->). unfold held.
  rewrite !fmap_app, !fmap_cons, !concat_app. simpl. solve_Permutation.
Qed.

Lemma running_insert ws i s s' :
  ws !! i = Some s →
  running (<[i := s']> ws) = running ws - (if is_running s then 1 else 0) + (if is_running s' then 1 else 0).
Proof.
  intros H. destruct (worker_split ws i s s' H) as (l1 & l2 & -> & ->). unfold running.
  rewrite !filter_app, !filter_cons, !length_app.
  destruct (is_running s), (is_running s'); simpl; lia.
Qed.

Section Invariant.
Context {Q : Type} `{Hlaws : TaskQueueLaws Q}.
Implicit Types p : ThreadPool Q.

(** ** The core: the lock, and who may find the queue empty *)
Record core p : Prop := Core {
  c_wf : q_wf (queue p);
  c_bound : Forall (λ n, (n < next_task p)%nat) (contents (queue p));
  c_excl : ∀ i j s t, pool_ p !! i = Some s → pool_ p !! j = Some t →
    critical s = true → critical t = true → i = j;
  c_lock : ∀ i s, pool_ p !! i = Some s → critical s = true → lock p = true;
  c_holder : lock p = true → ∃ i s, pool_ p !! i = Some s ∧ critical s = true;
  c_ready : ∀ i, pool_ p !! i = Some Ready → run_ p = false ∨ contents (queue p) ≠ [];
  c_block : ∀ i, pool_ p !! i = Some Blocking → contents (queue p) = [];
  c_exited : run_ p = true → ∀ i, pool_ p !! i ≠ Some Exited;
}.

(** A worker moves between states that do not hold the lock. *)
Lemma core_move p i s s' :
  core p → pool_ p !! i = Some s → critical s = false → critical s' = false →
  (s' = Exited → run_ p = false) → core (set_worker i s' p).
Proof.
  intros [] Hi Hs Hs' Hex. constructor; simpl; try done.
  - intros j k t u [(<- & <- & _)|[? Hj]]%list_lookup_insert_Some
      [(<- & <- & _)|[? Hk]]%list_lookup_insert_Some ? ?; simplify_eq; eauto.
  - intros j t [(<- & <- & _)|[? Hj]]%list_lookup_insert_Some ?; simplify_eq; eauto.
  - intros Hl. destruct (c_holder0 Hl) as (j & t & Hj & Ht). exists j, t. split; [|done].
    rewrite list_lookup_insert_ne; [done|]. intros <-. congruence.
  - intros j [(<- & -> & _)|[? Hj]]%list_lookup_insert_Some; simplify_eq; eauto.
  - intros j [(<- & -> & _)|[? Hj]]%list_lookup_insert_Some; simplify_eq; eauto.
  - intros Hr j [(<- & -> & _)|[? Hj]]%list_lookup_insert_Some; [by rewrite Hex in Hr|].
    by apply (c_exited0 Hr j).
Qed.

(** The worker that holds the lock moves on, and keeps it or gives it back. *)
Lemma core_hold p i s s' :
  core p → pool_ p !! i = Some s → critical s = true → critical s' = true →
  (s' = Ready → run_ p = false ∨ contents (queue p) ≠ []) →
  (s' = Blocking → contents (queue p) = []) → core (set_worker i s' p).
Proof.
  intros [] Hi Hs Hs' Hr Hb.
  assert (Hl : lock p = true) by eauto.
  assert (Hx : ∀ j t, pool_ p !! j = Some t → critical t = true → j = i) by eauto.
  constructor; simpl; try done.
  - intros j k t u [(<- & <- & _)|[? Hj]]%list_lookup_insert_Some
      [(<- & <- & _)|[? Hk]]%list_lookup_insert_Some ? ?; simplify_eq; eauto; symmetry; eauto.
  - intros _. exists i, s'. split; [|done]. apply list_lookup_insert_eq. by eapply lookup_lt_Some.
  - intros j [(<- & -> & _)|[? Hj]]%list_lookup_insert_Some; eauto.
  - intros j [(<- & -> & _)|[? Hj]]%list_lookup_insert_Some; eauto.
  - intros Hr' j [(<- & -> & _)|[? Hj]]%list_lookup_insert_Some; [done|]. by apply (c_exited0 Hr' j).
Qed.

Lemma core_acquire p i s :
  core p → pool_ p !! i = Some s → critical s = false → lock p = false →
  core (set_lock true (set_worker i Checking p)).
Proof.
  intros [] Hi Hs Hl.
  assert (Hx : ∀ j t, pool_ p !! j = Some t → critical t = true → False).
  { intros j t Hj Ht. specialize (c_lock0 j t Hj Ht). congruence. }
  constructor; simpl; try done.
  - intros j k t u [(<- & <- & _)|[? Hj]]%list_lookup_insert_Some
      [(<- & <- & _)|[? Hk]]%list_lookup_insert_Some ? ?; try done; exfalso; eauto.
  - intros _. exists i, Checking. split; [|done]. apply list_lookup_insert_eq. by eapply lookup_lt_Some.
  - intros j [(<- & ? & _)|[? Hj]]%list_lookup_insert_Some; [done|eauto].
  - intros j [(<- & ? & _)|[? Hj]]%list_lookup_insert_Some; [done|eauto].
  - intros Hr j [(<- & ? & _)|[? Hj]]%list_lookup_insert_Some; [done|]. by apply (c_exited0 Hr j).
Qed.

(** The holder leaves the critical region with the queue it leaves behind. *)
Lemma core_release p i s s' q :
  core p → pool_ p !! i = Some s → critical s = true → critical s' = false →
  (s' = Exited → run_ p = false) → q_wf q →
  Forall (λ n, (n < next_task p)%nat) (contents q) →
  core (set_lock false (set_worker i s' (set_queue q p))).
Proof.
  intros [] Hi Hs Hs' Hex Hq Hb.
  assert (Hx : ∀ j t, pool_ p !! j = Some t → j ≠ i → critical t = true → False) by eauto.
  constructor; simpl; try done.
  - intros j k t u [(<- & <- & _)|[? Hj]]%list_lookup_insert_Some
      [(<- & <- & _)|[? Hk]]%list_lookup_insert_Some ? ?; try congruence; exfalso; eauto.
  - intros j t [(<- & <- & _)|[? Hj]]%list_lookup_insert_Some ?; [congruence|exfalso; eauto].
  - intros j [(<- & -> & _)|[? Hj]]%list_lookup_insert_Some; [done|exfalso; eauto].
  - intros j [(<- & -> & _)|[? Hj]]%list_lookup_insert_Some; [done|exfalso; eauto].
  - intros Hr j [(<- & -> & _)|[? Hj]]%list_lookup_insert_Some; [by rewrite Hex in Hr|].
    by apply (c_exited0 Hr j).
Qed.

(** With the lock free nobody looks at the queue. *)
Lemma core_queue p q n a m :
  core p → lock p = false → q_wf q → (next_task p ≤ n)%nat →
  Forall (λ t, (t < n)%nat) (contents q) → core (set_clients a m n (set_queue q p)).
Proof.
  intros [] Hl Hq Hn Hb.
  assert (Hx : ∀ j t, pool_ p !! j = Some t → critical t = true → False).
  { intros j t Hj Ht. specialize (c_lock0 j t Hj Ht). congruence. }
  constructor; simpl; try done; intros j Hj; exfalso; eauto.
Qed.

Lemma core_stop p ph : core p → core (set_phase false ph p).
Proof. intros []. constructor; simpl; try done. auto. Qed.

Lemma tasks_empty_spec p : tasks_empty p = true ↔ contents (queue p) = [].
Proof. unfold tasks_empty. by rewrite bool_decide_eq_true. Qed.
Lemma tasks_empty_false p : tasks_empty p = false ↔ contents (queue p) ≠ [].
Proof. unfold tasks_empty. by rewrite bool_decide_eq_false. Qed.

Lemma core_ext p p' :
  core p → run_ p' = run_ p → queue p' = queue p → lock p' = lock p → pool_ p' = pool_ p →
  next_task p' = next_task p → core p'.
Proof. intros [] Hr Hq Hl Hp Hn. constructor; by rewrite ?Hr, ?Hq, ?Hl, ?Hp, ?Hn. Qed.

(** Who holds the lock is alone with the list; with the lock free nobody is near it. *)
Lemma core_alone p i s : core p → pool_ p !! i = Some s → critical s = true → existsb touches (delete i (pool_ p)) = false.
Proof.
  intros Hc Hi Hs. apply not_true_is_false. intros (t & Ht & Htt)%existsb_exists.
  apply list_elem_of_In, list_elem_of_lookup in Ht as [j Hj].
  assert (Hk : ∃ k, pool_ p !! k = Some t ∧ k ≠ i).
  { destruct (decide (j < i)%nat) as [Hlt|Hge].
    - rewrite list_lookup_delete_lt in Hj by done. exists j. split; [done|lia].
    - rewrite list_lookup_delete_ge in Hj by lia. exists (S j). split; [done|lia]. }
  destruct Hk as (k & Hk & Hne). apply Hne. symmetry. apply (c_excl _ Hc i k s t); try done. by destruct t.
Qed.

Lemma core_free p : core p → lock p = false → existsb touches (pool_ p) = false.
Proof.
  intros Hc Hl. apply not_true_is_false. intros (t & Ht & Htt)%existsb_exists.
  apply list_elem_of_In, list_elem_of_lookup in Ht as [j Hj].
  assert (lock p = true) by (apply (c_lock _ Hc j t Hj); by destruct t). congruence.
Qed.

Lemma writing_alone p i s (r : res (ThreadPool Q)) : core p → pool_ p !! i = Some s → critical s = true → writing (delete i (pool_ p)) r = r.
Proof. intros. unfold writing. by rewrite (core_alone p i s). Qed.
Lemma writing_free p (r : res (ThreadPool Q)) : core p → lock p = false → writing (pool_ p) r = r.
Proof. intros. unfold writing. by rewrite core_free. Qed.
Lemma reading_alone p i s (r : res (ThreadPool Q)) : core p → pool_ p !! i = Some s → critical s = true → reading p (delete i (pool_ p)) r = r.
Proof.
  intros Hc Hi Hs. unfold reading. destruct (existsb (pops p) _) eqn:He; [|done].
  apply existsb_exists in He as (t & Ht & Htt). pose proof (core_alone p i s Hc Hi Hs) as Ha.
  assert (existsb touches (delete i (pool_ p)) = true); [|congruence]. apply existsb_exists. exists t. by destruct t.
Qed.

(** [front] and [pop_front] find a task: the oldest. *)
Lemma take_task_ok p i :
  core p → pool_ p !! i = Some Ready → negb (run_ p) && tasks_empty p = false →
  ∃ t l q, contents (queue p) = t :: l ∧ contents q = l ∧ q_wf q ∧ q_pop (queue p) = Ok (t, q) ∧
    take_task i p = Ok (set_lock false (set_worker i (Taken t) (set_taken t q p))).
Proof.
  intros Hc Hi Hb. assert (Hne : contents (queue p) ≠ []).
  { destruct (run_ p) eqn:Hr; simpl in Hb; [|by apply tasks_empty_false].
    destruct (c_ready _ Hc _ Hi); [congruence|done]. }
  destruct (contents (queue p)) as [|t l] eqn:Hq; [done|].
  destruct (pop_law t l (queue p) (c_wf _ Hc) Hq) as (q & Hpop & Hwf & Hl).
  exists t, l, q. split_and!; try done. unfold take_task. by rewrite Hpop.
Qed.

Lemma core_worker p i r : core p → worker_step i p r → ∃ p', r = Ok p' ∧ core p'.
Proof.
  intros Hc [Hi|Hi Hl|Hi|Hi He|Hi He|Hi|t Hi|t Hi].
  - eexists. split; [done|]. eapply core_move; try done; [by destruct (run_ p)|].
    by destruct (run_ p).
  - eexists. split; [done|]. by eapply core_acquire.
  - rewrite (reading_alone p i Checking) by done. eexists. split; [done|].
    eapply core_hold; try done; [by case_match|..]; case_match eqn:Hb; try done.
    + intros _. apply orb_true_iff in Hb as [Hb|Hb]; [left; by destruct (run_ p)|right].
      apply tasks_empty_false. by destruct (tasks_empty p).
    + intros _. apply orb_false_iff in Hb as [_ Hb]. apply tasks_empty_spec. by destruct (tasks_empty p).
  - rewrite (reading_alone p i Ready) by done. eexists. split; [done|].
    eapply (core_ext (set_lock false (set_worker i Exited (set_queue (queue p) p)))); try done.
    eapply core_release; try done; [|apply Hc..].
    intros _. by destruct (run_ p).
  - rewrite (writing_alone p i Ready) by done.
    destruct (take_task_ok p i Hc Hi He) as (t & l & q & Hq & Hl & Hwf & _ & ->).
    eexists. split; [done|].
    eapply (core_ext (set_lock false (set_worker i (Taken t) (set_queue q p)))); try done.
    eapply core_release; try done. rewrite Hl. pose proof (c_bound _ Hc) as Hb. rewrite Hq in Hb.
    by apply Forall_cons in Hb as [_ Hb].
  - eexists. split; [done|].
    eapply (core_ext (set_lock false (set_worker i Waiting (set_queue (queue p) p)))); try done.
    eapply core_release; try done; apply Hc.
  - eexists. split; [done|]. eapply (core_ext (set_worker i (Running t) p)); try done.
    by eapply core_move.
  - eexists. split; [done|]. eapply (core_ext (set_worker i Top p)); try done. by eapply core_move.
Qed.

(** [AddTask] queues a task that is not in the queue: the newest. *)
Lemma push_core p fd : core p →
  ∃ q, q_push fd (next_task p) (queue p) = Ok q ∧ q_wf q ∧ contents q = contents (queue p) ++ [next_task p].
Proof.
  intros Hc. apply (push_law fd (next_task p) (queue p) (c_wf _ Hc)). intros Hin.
  pose proof (c_bound _ Hc) as Hb. rewrite Forall_forall in Hb. specialize (Hb _ Hin). simpl in Hb. lia.
Qed.

Lemma core_pending p r : core p → pending_step p r → ∃ p', r = Ok p' ∧ core p'.
Proof.
  intros Hc [fd q' Ha Hl Hq|i Hn Hi|Hn Hw|Hph|Hph Hf|Hu Hlen Hs|Hu].
  - destruct (push_core p fd Hc) as (q & Hp & Hwf & Hcq).
    rewrite writing_free by done. subst q'. rewrite Hp. eexists. split; [done|]. apply core_queue; try done; [lia|].
    rewrite Hcq. apply Forall_app. split; [|constructor; [lia|constructor]].
    eapply Forall_impl; [apply (c_bound _ Hc)|]. simpl. lia.
  - eexists. split; [done|]. eapply (core_ext (set_worker i Acquire p)); try done. by eapply core_move.
  - eexists. split; [done|]. by eapply (core_ext p).
  - eexists. split; [done|].
    assert (Hlk : ∀ j t, (λ s, if decide (s = Waiting) then Acquire else s) <$> pool_ p !! j = Some t →
              t = Acquire ∨ pool_ p !! j = Some t).
    { intros j t. destruct (pool_ p !! j) as [s|]; simpl; [|done]. intros [= <-].
      destruct (decide (s = Waiting)); auto. }
    assert (Hcr : ∀ j t, (λ s, if decide (s = Waiting) then Acquire else s) <$> pool_ p !! j = Some t →
              t ≠ Acquire → pool_ p !! j = Some t) by (intros j t Hj; destruct (Hlk j t Hj); done).
    destruct Hc. constructor; simpl; try done.
    + intros i j s t. rewrite !list_lookup_fmap. intros Hi Hj Hs Ht.
      apply (c_excl0 i j s t); try done; apply Hcr; (done || by intros ->).
    + intros i s. rewrite list_lookup_fmap. intros Hi Hs. apply (c_lock0 i s); [|done].
      apply Hcr; [done|by intros ->].
    + intros Hl. destruct (c_holder0 Hl) as (j & t & Hj & Ht). exists j, t. split; [|done].
      rewrite list_lookup_fmap, Hj. simpl. rewrite decide_False; [done|by intros ->].
    + intros i. rewrite list_lookup_fmap. intros Hi. apply (c_ready0 i). by apply Hcr.
    + intros i. rewrite list_lookup_fmap. intros Hi. apply (c_block0 i). by apply Hcr.
    + intros Hr i. rewrite list_lookup_fmap. intros Hi. apply (c_exited0 Hr i). by apply Hcr.
  - eexists. split; [done|]. by eapply (core_ext p).
  - eexists. split; [done|].
    assert (Hlk : ∀ j t, (pool_ p ++ [Top]) !! j = Some t → t ≠ Top → pool_ p !! j = Some t).
    { intros j t. rewrite lookup_app_Some, list_lookup_singleton_Some. intros [?|(_ & _ & ->)]; done. }
    destruct Hc. constructor; simpl; try done.
    + intros i j s t Hi Hj Hs2 Ht. apply (c_excl0 i j s t); try done; apply Hlk; (done || by intros ->).
    + intros i s Hi Hs2. apply (c_lock0 i s); [|done]. apply Hlk; [done|by intros ->].
    + intros Hl. destruct (c_holder0 Hl) as (j & t & Hj & Ht). exists j, t. split; [|done].
      by apply lookup_app_l_Some.
    + intros i Hi. apply (c_ready0 i). by apply Hlk.
    + intros i Hi. apply (c_block0 i). by apply Hlk.
    + intros Hr i Hi. apply (c_exited0 Hr i). by apply Hlk.
  - eexists. split; [done|]. by eapply (core_ext p).
Qed.

Lemma core_client p r : core p → client_step p r → ∃ p', r = Ok p' ∧ core p'.
Proof.
  intros Hc [Ha|f fd Hf Hl|size Hph Hi Hs|Hph Hi].
  - eexists. split; [done|]. by eapply (core_ext p).
  - rewrite writing_free by done. destruct (close_law f fd (queue p) Hf (c_wf _ Hc)) as (q & -> & Hwf & Hs).
    eexists. split; [done|].
    eapply (core_ext (set_clients (adders p) (notifies p) (next_task p) (set_queue q p))); try done.
    apply core_queue; try done. pose proof (c_bound _ Hc) as Hb. rewrite Forall_forall in Hb |- *.
    intros n Hn. apply Hb. eapply sublist_submseteq in Hs. by eapply elem_of_submseteq.
  - eexists. split; [done|]. by eapply (core_ext p).
  - eexists. split; [done|]. by apply core_stop.
Qed.

Lemma core_query p r : core p → query_step p r → (∃ p', r = Ok p' ∧ core p') ∨ r = Err DataRace.
Proof.
  intros Hc [| |]; [unfold reading; case_match; [by right|]; case_match|case_match|];
    (by right) || (left; by eexists).
Qed.

Lemma core_step p r : core p → step p r → (∃ p', r = Ok p' ∧ core p') ∨ query_step p r ∧ r = Err DataRace.
Proof.
  intros Hc [i r' Hs|r' Hs|r' Hs|r' Hs|r' Hs].
  - left. by eapply core_worker.
  - left. by eapply core_pending.
  - left. by eapply core_client.
  - left. destruct Hs as [i Hi]. eexists. split; [done|]. by eapply core_move.
  - destruct (core_query p r' Hc Hs); [by left|by right].
Qed.

Lemma core_new : core new_pool.
Proof.
  destruct wf_empty as [Hwf He]. constructor; simpl; try done. by rewrite He.
Qed.

Lemma core_reachable p : reachable p → core p.
Proof.
  unfold reachable. assert (H0 : core new_pool) by apply core_new. revert H0.
  generalize (new_pool (Q := Q)). intros p0 H0 Hr. induction Hr as [|p1 p2 p3 Hs _ IH]; [done|].
  apply IH. by destruct (core_step p1 (Ok p2) H0 Hs) as [(p' & [= <-] & Hc)|[_ ?]].
Qed.

(** ** The history: the tasks taken, oldest first, then those queued *)
Definition history p : list nat := rev (taken p) ++ contents (queue p).

Inductive history_step p p' : Prop :=
  | h_same : history p' = history p → next_task p' = next_task p → history_step p p'
  | h_push : history p' = history p ++ [next_task p] → next_task p' = S (next_task p) → history_step p p'
  | h_drop : history p' `sublist_of` history p → next_task p' = next_task p → history_step p p'.

Lemma step_history p p' : core p → step p (Ok p') → history_step p p'.
Proof.
  intros Hc Hs. inversion Hs as [i r Hw|r Hw|r Hw|r Hw|r Hw]; subst.
  - inversion Hw as [Hi|Hi Hl|Hi Hr|Hi He Hr|Hi He Hr|Hi|t Hi|t Hi]; subst; alone; try by apply h_same.
    destruct (take_task_ok p i Hc Hi He) as (t & l & q & Hq & Hl & _ & _ & Ht).
    rewrite Ht in Hr. injection Hr as <-. apply h_same; [|done].
    unfold history. simpl. rewrite Hq, Hl, <- app_assoc. done.
  - inversion Hw as [fd q' Ha Hl Hq Hr|i Hn Hi|Hn Hn2|Hph|Hph Hf|Hu Hlen H1|Hu]; subst; alone; try by apply h_same.
    destruct (push_core p fd Hc) as (q & Hp & _ & Hcq).
    rewrite Hp in Hr. injection Hr as <-. apply h_push; [|done].
    unfold history. simpl. by rewrite Hcq, app_assoc.
  - inversion Hw as [Ha|f fd Hf Hl Hr|size Hph Hi H1|Hph Hi]; subst; alone; try by apply h_same.
    destruct (close_law f fd (queue p) Hf (c_wf _ Hc)) as (q & Hq & _ & Hsub).
    rewrite Hq in Hr. injection Hr as <-. apply h_drop; [|done].
    unfold history. simpl. by apply sublist_app.
  - inversion Hw; subst. by apply h_same.
  - apply query_same in Hw as ->. by apply h_same.
Qed.

Definition ordered p : Prop :=
  StronglySorted lt (history p) ∧ Forall (λ n, (n < next_task p)%nat) (history p).

Lemma StronglySorted_lt_sublist (l k : list nat) :
  l `sublist_of` k → StronglySorted lt k → StronglySorted lt l.
Proof.
  induction 1 as [|x l k Hlk IH|x l k Hlk IH]; [done| |].
  - intros [? Hf]%StronglySorted_inv. constructor; [auto|].
    rewrite Forall_forall in Hf |- *. intros y Hy. apply Hf.
    eapply elem_of_submseteq; [done|]. by apply sublist_submseteq.
  - intros [? _]%StronglySorted_inv. auto.
Qed.

Lemma ordered_step p p' : core p → step p (Ok p') → ordered p → ordered p'.
Proof.
  intros Hc Hs [Ho Hb]. unfold ordered. destruct (step_history p p' Hc Hs) as [H1 H2|H1 H2|Hsub H2]; rewrite H2; rewrite ?H1.
  - done.
  - split; [by apply StronglySorted_snoc|]. apply Forall_app. split; [|constructor; [lia|constructor]].
    eapply Forall_impl; [done|]. simpl. lia.
  - split; [by eapply StronglySorted_lt_sublist|]. rewrite Forall_forall in Hb |- *.
    intros n Hn. apply Hb. apply sublist_submseteq in Hsub. by eapply elem_of_submseteq.
Qed.

(** ** Accounts: every task taken is being run or finished, every worker is
    idle, running a task or not yet counted *)
Definition b2z (b : bool) : Z := if b then 1 else 0.
Record accounts p : Prop := Accounts {
  a_held : taken p ≡ₚ finished p ++ held (pool_ p);
  a_idle : idlThrNum_ p + running (pool_ p) + b2z (uncounted p) = Z.of_nat (length (pool_ p));
  a_max : Z.of_nat (length (pool_ p)) ≤ THREADPOOL_MAX_NUM;
}.

(** A worker that changes its state without starting or ending a task. *)
Lemma accounts_move p i s s' :
  accounts p → pool_ p !! i = Some s → holds s = [] → holds s' = [] →
  accounts (set_worker i s' p).
Proof.
  intros [] Hi Hs Hs'. pose proof (held_insert _ _ _ s' Hi) as Hh. rewrite Hs, Hs', !app_nil_r in Hh.
  pose proof (running_insert _ _ _ s' Hi) as Hr.
  constructor; simpl; [by rewrite Hh| |by rewrite length_insert].
  rewrite length_insert, Hr. destruct s, s'; simpl in *; lia || done.
Qed.

Lemma accounts_ext p p' :
  accounts p → taken p' = taken p → finished p' = finished p → pool_ p' = pool_ p →
  idlThrNum_ p' = idlThrNum_ p → uncounted p' = uncounted p → accounts p'.
Proof. intros [] Ht Hf Hp Hi Hu. constructor; by rewrite ?Ht, ?Hf, ?Hp, ?Hi, ?Hu. Qed.

Lemma accounts_worker p i p' : core p → worker_step i p (Ok p') → accounts p → accounts p'.
Proof.
  intros Hc Hw Ha.
  inversion Hw as [Hi|Hi Hl|Hi Hr|Hi He Hr|Hi He Hr|Hi|t Hi|t Hi]; subst; alone;
    try (eapply (accounts_ext (set_worker i _ p)); [|reflexivity..];
         eapply (accounts_move _ _ _ _ Ha Hi); (done || by case_match)).
  - destruct (take_task_ok p i Hc Hi He) as (t & l & q & _ & _ & _ & _ & Ht).
    rewrite Ht in Hr. injection Hr as <-. destruct Ha.
    pose proof (held_insert _ _ _ (Taken t) Hi) as Hh. simpl in Hh. rewrite app_nil_r in Hh.
    pose proof (running_insert _ _ _ (Taken t) Hi) as Hrun. simpl in Hrun.
    constructor; simpl; [|rewrite length_insert, Hrun; lia|by rewrite length_insert].
    rewrite Hh, a_held0. solve_Permutation.
  - destruct Ha. pose proof (held_insert _ _ _ (Running t) Hi) as Hh. simpl in Hh.
    pose proof (running_insert _ _ _ (Running t) Hi) as Hrun. simpl in Hrun.
    constructor; simpl; [|rewrite length_insert, Hrun; lia|by rewrite length_insert].
    apply Permutation_app_inv_r in Hh. by rewrite Hh.
  - destruct Ha. pose proof (held_insert _ _ _ Top Hi) as Hh. simpl in Hh. rewrite app_nil_r in Hh.
    pose proof (running_insert _ _ _ Top Hi) as Hrun. simpl in Hrun.
    constructor; simpl; [|rewrite length_insert, Hrun; lia|by rewrite length_insert].
    rewrite a_held0, <- Hh. solve_Permutation.
Qed.

Lemma held_wake ws : held ((λ s, if decide (s = Waiting) then Acquire else s) <$> ws) = held ws.
Proof.
  unfold held. f_equal. rewrite <- list_fmap_compose. apply list_fmap_ext. by intros _ [] _.
Qed.
Lemma running_wake ws : running ((λ s, if decide (s = Waiting) then Acquire else s) <$> ws) = running ws.
Proof.
  unfold running. do 2 f_equal. induction ws as [|s ws IH]; [done|].
  rewrite fmap_cons, !filter_cons. destruct s; simpl; rewrite ?length_cons, ?IH; done.
Qed.

Lemma accounts_pending p p' : core p → pending_step p (Ok p') → accounts p → accounts p'.
Proof.
  intros Hc Hw Ha.
  inversion Hw as [fd q' Hn Hl Hq Hr|i Hn Hi|Hn Hn2|Hph|Hph Hf|Hu Hlen H1|Hu]; subst; alone;
    try (by apply (accounts_ext p)).
  - destruct (q_push _ _ _); simpl in Hr; [|done]. injection Hr as <-. by apply (accounts_ext p).
  - apply (accounts_ext (set_worker i Acquire p)); try done. by eapply accounts_move.
  - destruct Ha. constructor; simpl; by rewrite ?held_wake, ?running_wake, ?length_fmap.
  - destruct Ha. rewrite Hu in a_idle0. simpl in a_idle0.
    constructor; simpl; rewrite ?length_app; simpl; [|unfold running in *|lia].
    + unfold held in *. by rewrite fmap_app, concat_app, app_nil_r.
    + rewrite filter_app, length_app. simpl. lia.
  - destruct Ha. rewrite Hu in a_idle0. simpl in a_idle0. constructor; simpl; (done || lia).
Qed.

Lemma accounts_step p p' : core p → step p (Ok p') → accounts p → accounts p'.
Proof.
  intros Hc Hs Ha. inversion Hs as [i r Hw|r Hw|r Hw|r Hw|r Hw]; subst.
  - by eapply accounts_worker.
  - by eapply accounts_pending.
  - inversion Hw as [Hx|f fd Hf Hl Hr|size Hph [Hi _] H1|Hph Hi]; subst; alone; try (by apply (accounts_ext p)).
    + destruct (f fd (queue p)); simpl in Hr; [|done]. injection Hr as <-. by apply (accounts_ext p).
  - inversion Hw as [i Hi]; subst. by eapply accounts_move.
  - by apply query_same in Hw as ->.
Qed.

(** ** No lost wake-up while the pool runs *)
Definition attended p : Prop :=
  run_ p = true → contents (queue p) ≠ [] →
  pool_ p = [] ∨ (0 < notifies p)%nat ∨ ∃ i s, pool_ p !! i = Some s ∧ awake s = true.

Lemma attended_worker p p' i s s' :
  pool_ p !! i = Some s → awake s' = true → pool_ p' = <[i := s']> (pool_ p) → attended p'.
Proof.
  intros Hi Hs Hp _ _. right. right. exists i, s'. split; [|done].
  rewrite Hp. apply list_lookup_insert_eq. by eapply lookup_lt_Some.
Qed.

Lemma attended_stopped p : run_ p = false → attended p.
Proof. intros Hr Ht. congruence. Qed.

Lemma attended_ext p p' :
  attended p → run_ p' = run_ p → pool_ p' = pool_ p → notifies p' = notifies p →
  (contents (queue p') ≠ [] → contents (queue p) ≠ []) → attended p'.
Proof. unfold attended. intros Ha -> -> -> Hq Hr Hn. auto. Qed.

Lemma attended_step p p' : core p → step p (Ok p') → attended p → attended p'.
Proof.
  intros Hc Hs Ha. inversion Hs as [i r Hw|r Hw|r Hw|r Hw|r Hw]; subst.
  - inversion Hw as [Hi|Hi Hl|Hi Hr|Hi He Hr|Hi He Hr|Hi|t Hi|t Hi]; subst; alone;
      try (eapply (attended_worker _ _ i _ _ Hi); [|reflexivity]; reflexivity).
    + destruct (run_ p) eqn:Hrun; [by eapply (attended_worker _ _ i _ Acquire Hi)|].
      by apply attended_stopped.
    + case_match eqn:Hb; [by eapply (attended_worker _ _ i _ Ready Hi)|].
      apply orb_false_iff in Hb as [_ Hb]. intros _ Hn. exfalso. apply Hn. simpl.
      apply tasks_empty_spec. by destruct (tasks_empty p).
    + apply attended_stopped. simpl. by destruct (run_ p).
    + destruct (take_task_ok p i Hc Hi He) as (t & l & q & _ & _ & _ & _ & Ht).
      rewrite Ht in Hr. injection Hr as <-. by eapply (attended_worker _ _ i _ (Taken t) Hi).
    + intros _ Hn. exfalso. apply Hn. simpl. by apply (c_block _ Hc i).
  - inversion Hw as [fd q' Hn Hl Hq Hr|i Hn Hi|Hn Hn2|Hph|Hph Hf|Hu Hlen H1|Hu]; subst; alone;
      try (by apply (attended_ext p)).
    + destruct (q_push _ _ _); simpl in Hr; [|done]. injection Hr as <-.
      intros _ _. right. left. simpl. lia.
    + by eapply (attended_worker p _ i _ Acquire Hi).
    + intros Hr _. destruct (pool_ p) as [|s ws] eqn:Hp; [by left|]. right. right. exists 0%nat, s.
      simpl. rewrite Hp. split; [done|]. destruct s; try done; [set_solver|].
      destruct (c_exited _ Hc Hr 0%nat). by rewrite Hp.
    + intros Hr Hne. destruct (Ha Hr Hne) as [Hp|[Hn|(i & s & Hi & Hsa)]]; simpl.
      * left. by rewrite Hp.
      * by right; left.
      * right. right. exists i, s. rewrite list_lookup_fmap, Hi. simpl. split; [|done].
        rewrite decide_False; [done|by intros ->].
    + intros _ _. right. right. exists (length (pool_ p)), Top. simpl. split; [|done].
      rewrite lookup_app_r, Nat.sub_diag by lia. done.
  - inversion Hw as [Hx|f fd Hf Hl Hr|size Hph Hi H1|Hph Hi]; subst; alone; try (by apply (attended_ext p)).
    + destruct (close_law f fd (queue p) Hf (c_wf _ Hc)) as (q & Hq & _ & Hsub).
      rewrite Hq in Hr. injection Hr as <-. apply (attended_ext p); try done. simpl.
      intros Hne Hnil. rewrite Hnil in Hsub. apply Hne. by apply sublist_nil_r in Hsub.
    + by apply attended_stopped.
  - inversion Hw as [i Hi]; subst. by eapply (attended_worker p _ i _ Acquire Hi).
  - by apply query_same in Hw as ->.
Qed.

(** ** The phases of a stop *)
Record phases p : Prop := Phases {
  ph_run : run_ p = true ↔ phase p = Open;
  ph_init : phase p ≠ Open → init_done p;
  ph_joined : phase p = Joined → Forall (λ s, s = Exited) (pool_ p);
}.

Lemma phases_ext p p' :
  phases p → run_ p' = run_ p → phase p' = phase p → uncounted p' = uncounted p →
  to_spawn p' = to_spawn p → length (pool_ p') = length (pool_ p) →
  (Forall (λ s, s = Exited) (pool_ p) → pool_ p' = pool_ p) → phases p'.
Proof.
  intros [] Hr Hp Hu Ht Hl Hw. constructor; unfold init_done in *.
  - by rewrite Hr, Hp.
  - by rewrite Hp, Hu, Ht, Hl.
  - rewrite Hp. intros Hj. rewrite Hw; auto.
Qed.

Lemma exited_at ws i s : Forall (λ s, s = Exited) ws → ws !! i = Some s → s = Exited.
Proof. rewrite Forall_lookup. eauto. Qed.

Lemma phases_step p p' : core p → step p (Ok p') → phases p → phases p'.
Proof.
  intros Hc Hs Hp. inversion Hs as [i r Hw|r Hw|r Hw|r Hw|r Hw]; subst.
  - inversion Hw as [Hi|Hi Hl|Hi Hr|Hi He Hr|Hi He Hr|Hi|t Hi|t Hi]; subst; alone;
      try (apply (phases_ext p); try done; [apply length_insert|];
           intros Hf; by pose proof (exited_at _ _ _ Hf Hi)).
    destruct (take_task_ok p i Hc Hi He) as (t & l & q & _ & _ & _ & _ & Ht).
    rewrite Ht in Hr. injection Hr as <-. apply (phases_ext p); try done; [apply length_insert|].
    intros Hf. by pose proof (exited_at _ _ _ Hf Hi).
  - inversion Hw as [fd q' Hn Hl Hq Hr|i Hn Hi|Hn Hn2|Hph|Hph Hf|Hu Hlen H1|Hu]; subst; alone;
      try (by apply (phases_ext p)).
    + destruct (q_push _ _ _); simpl in Hr; [|done]. injection Hr as <-. by apply (phases_ext p).
    + apply (phases_ext p); try done; [apply length_insert|].
      intros Hf. by pose proof (exited_at _ _ _ Hf Hi).
    + destruct Hp. constructor; simpl; [|intros _|done].
      * rewrite ph_run0, Hph. by split.
      * destruct (ph_init0 ltac:(by rewrite Hph)) as [? ?]. split; simpl; [done|by rewrite length_fmap].
    + destruct Hp. constructor; simpl; [|intros _|done].
      * rewrite ph_run0, Hph. by split.
      * apply ph_init0. by rewrite Hph.
    + destruct Hp. assert (Ho : phase p = Open).
      { destruct (phase p) eqn:Hph; [done|..]; destruct (ph_init0 ltac:(done)) as [_ [?|?]]; lia. }
      constructor; simpl; [done|by rewrite Ho|by rewrite Ho].
    + destruct Hp. assert (Ho : phase p = Open).
      { destruct (phase p) eqn:Hph; [done|..]; destruct (ph_init0 ltac:(done)) as [? _]; congruence. }
      constructor; simpl; [done|by rewrite Ho|by rewrite Ho].
  - inversion Hw as [Hx|f fd Hf Hl Hr|size Hph Hi H1|Hph Hi]; subst; alone; try (by apply (phases_ext p)).
    + destruct (f fd (queue p)); simpl in Hr; [|done]. injection Hr as <-. by apply (phases_ext p).
    + destruct Hp. constructor; simpl; [done|by rewrite Hph|by rewrite Hph].
    + constructor; simpl; [done|intros _; exact Hi|done].
  - inversion Hw as [i Hi]; subst. apply (phases_ext p); try done; [apply length_insert|].
    intros Hf. by pose proof (exited_at _ _ _ Hf Hi).
  - by apply query_same in Hw as ->.
Qed.

(** ** All of it, in every reachable state *)
Record pool_inv p : Prop := PoolInv {
  i_core : core p;
  i_ordered : ordered p;
  i_accounts : accounts p;
  i_attended : attended p;
  i_phases : phases p;
}.

Lemma reachable_inv p : reachable p → pool_inv p.
Proof.
  unfold reachable. assert (H0 : pool_inv new_pool).
  { destruct wf_empty as [Hwf He]. constructor; [apply core_new| | | |].
    - split; unfold history; simpl; rewrite He; constructor.
    - by constructor.
    - by left.
    - by constructor. }
  revert H0. generalize (new_pool (Q := Q)). intros p0 H0 Hr.
  induction Hr as [|p1 p2 p3 Hs _ IH]; [done|]. apply IH. destruct H0 as [Hc].
  constructor; [by destruct (core_step p1 (Ok p2) Hc Hs) as [(p' & [= <-] & ?)|[_ ?]]|..].
  - by eapply ordered_step.
  - by eapply accounts_step.
  - by eapply attended_step.
  - by eapply phases_step.
Qed.
End Invariant.
