(* ===== verification/ThreadPoolSpec.v ===== *)
(** * The thread pools: properties, for any container that keeps the promises of
    [TaskQueueLaws], with the two pools of the code as witnesses. *)
From S2P Require Import Prelude TaskQueue ThreadPool ThreadPoolInv.

Lemma worker_can_move {Q} `{TaskQueueLaws Q} (p : ThreadPool Q) i s :
  core p → pool_ p !! i = Some s → awake s = true → ∃ j p', worker_step j p (Ok p').
Proof.
  intros Hc Hi Hs.
  assert (Hcrit : ∀ j t, pool_ p !! j = Some t → critical t = true → ∃ p', worker_step j p (Ok p')).
  { intros j t Hj Ht. destruct t; try done.
    - eexists. pose proof (w_check j p Hj) as Hw. by rewrite (reading_alone p j Checking) in Hw.
    - destruct (negb (run_ p) && tasks_empty p) eqn:Hb.
      { eexists. pose proof (w_return j p Hj Hb) as Hw. by rewrite (reading_alone p j Ready) in Hw. }
      destruct (take_task_ok p j Hc Hj Hb) as (t & l & q & _ & _ & _ & _ & Ht2).
      eexists. rewrite <- Ht2. pose proof (w_take j p Hj Hb) as Hw. by rewrite (writing_alone p j Ready) in Hw.
    - eexists. by apply w_sleep. }
  destruct s; try done.
  - exists i. eexists. by apply w_top.
  - destruct (lock p) eqn:Hl.
    + destruct (c_holder _ Hc Hl) as (j & t & Hj & Ht). exists j. by eapply Hcrit.
    + exists i. eexists. by apply w_lock.
  - exists i. by eapply Hcrit.
  - exists i. by eapply Hcrit.
  - exists i. by eapply Hcrit.
  - exists i. eexists. by apply w_start.
  - exists i. eexists. by apply w_finish.
Qed.

(** Steps of concrete pools. *)
Definition steps {Q} `{TaskQueue Q} : relation (ThreadPool Q) := rtc (λ p p', step p (Ok p')).

Lemma push_ok {Q} `{TaskQueue Q} (p : ThreadPool Q) fd q :
  (0 < adders p)%nat → lock p = false → existsb touches (pool_ p) = false → q_push fd (next_task p) (queue p) = Ok q →
  pending_step p (Ok (set_clients (pred (adders p)) (S (notifies p)) (S (next_task p)) (set_queue q p))).
Proof. intros Ha Hl He Hq. pose proof (p_push p fd (Ok q) Ha Hl Hq) as Hp. unfold writing in Hp. by rewrite He in Hp. Qed.

Lemma check_ok {Q} `{TaskQueue Q} (p : ThreadPool Q) i :
  pool_ p !! i = Some Checking → existsb (pops p) (delete i (pool_ p)) = false →
  worker_step i p (Ok (set_worker i (if negb (run_ p) || negb (tasks_empty p) then Ready else Blocking) p)).
Proof. intros Hi He. pose proof (w_check i p Hi) as Hw. unfold reading in Hw. by rewrite He in Hw. Qed.

Lemma take_ok {Q} `{TaskQueue Q} (p : ThreadPool Q) i t q :
  pool_ p !! i = Some Ready → negb (run_ p) && tasks_empty p = false → existsb touches (delete i (pool_ p)) = false →
  q_pop (queue p) = Ok (t, q) → worker_step i p (Ok (set_lock false (set_worker i (Taken t) (set_taken t q p)))).
Proof.
  intros Hi Hb He Hq. pose proof (w_take i p Hi Hb) as Hw. unfold writing in Hw. rewrite He in Hw.
  unfold take_task in Hw. by rewrite Hq in Hw.
Qed.

(** A pool with one worker. *)
Definition one_worker {Q} `{TaskQueue Q} : ThreadPool Q :=
  MkPool true q_empty false [Top] 1 Open 0 0 0 false 0 [] [].

Lemma one_worker_reachable {Q} `{TaskQueue Q} : reachable (one_worker (Q := Q)).
Proof.
  unfold reachable.
  eapply rtc_l; [eapply step_client, (c_init _ 1); [done|split; [done|by left]|lia]|].
  eapply rtc_l; [eapply step_pending, p_spawn; [done|simpl; unfold THREADPOOL_MAX_NUM; lia|simpl; lia]|].
  eapply rtc_l; [by eapply step_pending, p_count|]. apply rtc_refl.
Qed.

(** A task queued, its notification pending. *)
Definition one_task : ThreadPool FdTasks :=
  MkPool true (fd_push 4 0 q_empty) false [Top] 1 Open 0 1 0 false 1 [] [].

Lemma one_task_reachable : reachable one_task.
Proof.
  unfold reachable. etransitivity; [apply one_worker_reachable|].
  eapply rtc_l; [by eapply step_client, c_add|].
  eapply rtc_l; [eapply step_pending, (push_ok _ 4); [simpl; lia|done..]|].
  apply rtc_refl.
Qed.

(** ** Properties *)

(** C4: Whatever the workers and the callers do, in whatever order, the lock keeps
    their accesses to the list apart and no step of theirs is undefined: [front]
    and [pop_front] find a task, the map of descriptors has the iterator that is
    popped, and closing a descriptor erases only live iterators.  The one exception
    are the queries that take no lock: [TaskCount] races with a worker that is
    about to pop a task and with an [AddTask] that is about to queue one. *)
Theorem pool_no_ub {Q} `{TaskQueueLaws Q} (p : ThreadPool Q) : reachable p →
  (∀ r, (∃ i, worker_step i p r) ∨ pending_step p r ∨ client_step p r ∨ spurious_step p r → ∃ p', r = Ok p') ∧
  (∀ r, query_step p r → r = Ok p ∨ r = Err DataRace) ∧
  ((0 < adders p)%nat ∨ (∃ i, pool_ p !! i = Some Ready ∧ contents (queue p) ≠ []) → query_step p (Err DataRace)).
Proof.
  intros Hr. pose proof (i_core _ (reachable_inv p Hr)) as Hc. split_and!.
  - intros r [[i Hs]|[Hs|[Hs|[i Hi]]]]; [| | |by eexists].
    + destruct (core_worker p i r Hc Hs) as (p' & ? & _). by exists p'.
    + destruct (core_pending p r Hc Hs) as (p' & ? & _). by exists p'.
    + destruct (core_client p r Hc Hs) as (p' & ? & _). by exists p'.
  - intros r Hq. destruct (core_query p r Hc Hq) as [(p' & -> & _)|]; [left|by right]. f_equal. by apply query_same.
  - intros Hq. pose proof (k_tasks p) as Hk. destruct (Nat.eqb_spec (adders p) 0) as [Ha|Ha]; simpl in Hk; [|done].
    destruct Hq as [?|(i & Hi & Hne)]; [lia|]. unfold reading in Hk. replace (existsb (pops p) (pool_ p)) with true in Hk; [done|].
    symmetry. apply existsb_exists. exists Ready. split; [by apply list_elem_of_In, list_elem_of_lookup; exists i|].
    simpl. apply tasks_empty_false in Hne. by rewrite Hne, andb_false_r.
Qed.

(** A worker has taken the lock and an [AddTask] is on its way: it must wait. *)
Definition one_busy : ThreadPool FdTasks :=
  MkPool true (fd_push 4 0 q_empty) true [Checking] 1 Open 1 1 0 false 1 [] [].

Lemma one_busy_reachable : reachable one_busy.
Proof.
  unfold reachable. etransitivity; [apply one_task_reachable|].
  eapply rtc_l; [by eapply step_client, c_add|].
  eapply rtc_l; [by eapply (step_worker _ 0), w_top|].
  eapply rtc_l; [by eapply (step_worker _ 0), w_lock|]. apply rtc_refl.
Qed.

Lemma pool_no_ub_witness :
  (∃ p', writing (pool_ one_task) (q ← delCloseFD 4 (queue one_task); mret (set_queue q one_task)) = Ok p') ∧
  (∀ r, pending_step one_busy r → ∃ p', r = Ok p') ∧ query_step one_busy (Err DataRace).
Proof.
  split.
  - apply (proj1 (pool_no_ub one_task one_task_reachable)). right. right. left. by apply (c_close _ delCloseFD 4).
  - destruct (pool_no_ub one_busy one_busy_reachable) as (H1 & _ & H3). split.
    + intros r Hs. apply H1. right. by left.
    + apply H3. left. simpl. lia.
Defined.

(** Tasks are taken in the order they were queued, each at most once, and
    none of them is in the queue any more. *)
Theorem pool_fifo {Q} `{TaskQueueLaws Q} (p : ThreadPool Q) :
  reachable p →
  StronglySorted lt (rev (taken p) ++ contents (queue p)) ∧
  ∀ n, n ∈ rev (taken p) ++ contents (queue p) → (n < next_task p)%nat.
Proof.
  intros Hr. destruct (i_ordered _ (reachable_inv p Hr)) as [Ho Hb]. split; [done|].
  by rewrite Forall_forall in Hb.
Qed.

Lemma pool_fifo_witness : StronglySorted lt (rev (taken one_task) ++ contents (queue one_task)).
Proof. apply (pool_fifo one_task one_task_reachable). Defined.

(** C14: Every task taken is held by exactly one worker or finished exactly once;
    [idlThrNum_] is the number of workers counted and not running a task; there
    are at most [THREADPOOL_MAX_NUM] workers. *)
Theorem pool_accounts {Q} `{TaskQueueLaws Q} (p : ThreadPool Q) :
  reachable p →
  NoDup (finished p ++ held (pool_ p)) ∧ taken p ≡ₚ finished p ++ held (pool_ p) ∧
  IdlCount p = ThrCount p - running (pool_ p) - b2z (uncounted p) ∧
  ThrCount p ≤ THREADPOOL_MAX_NUM.
Proof.
  intros Hr. pose proof (reachable_inv p Hr) as Hi. destruct (i_accounts _ Hi) as [Hh Hidle Hm].
  unfold IdlCount, ThrCount. split_and!; [|done|lia|done]. rewrite <- Hh.
  destruct (i_ordered _ Hi) as [Ho _]. unfold history in Ho.
  apply StronglySorted_lt_NoDup in Ho as Hnd.
  apply NoDup_app in Hnd as [Hnd _]. by rewrite <- Permutation_rev in Hnd.
Qed.

Lemma pool_accounts_witness : IdlCount one_task = 1.
Proof. destruct (pool_accounts one_task one_task_reachable) as (_ & _ & -> & _). by vm_compute. Defined.

(** While the pool runs, queued tasks are not forgotten: if it has workers
    and a task is queued, some worker or a pending notification can take a step
    towards it (no wake-up is lost before [Destory]). *)
Theorem pool_progress {Q} `{TaskQueueLaws Q} (p : ThreadPool Q) :
  reachable p → run_ p = true → contents (queue p) ≠ [] → pool_ p ≠ [] →
  (∃ j p', worker_step j p (Ok p')) ∨ (∃ p', (0 < notifies p)%nat ∧ pending_step p (Ok p')).
Proof.
  intros Hr Hrun Hq Hp. pose proof (reachable_inv p Hr) as Hi.
  destruct (i_attended _ Hi Hrun Hq) as [|[Hn|(i & s & Hs & Ha)]]; [done| |].
  - right. destruct (decide (Waiting ∈ pool_ p)) as [Hw|Hw].
    + apply list_elem_of_lookup in Hw as [i Hw]. eexists. split; [done|]. by eapply p_notify_one.
    + eexists. split; [done|]. by apply p_notify_none.
  - left. eapply worker_can_move; [apply Hi|done..].
Qed.

Lemma pool_progress_witness :
  (∃ j p', worker_step j one_task (Ok p')) ∨ (∃ p', (0 < notifies one_task)%nat ∧ pending_step one_task (Ok p')).
Proof. apply (pool_progress one_task one_task_reachable); done. Defined.

(** C15: When [Destory] returns, every worker has left and every task that was
    taken has finished. *)
Theorem pool_join_complete {Q} `{TaskQueueLaws Q} (p : ThreadPool Q) :
  reachable p → phase p = Joined →
  run_ p = false ∧ Forall (λ s, s = Exited) (pool_ p) ∧ taken p ≡ₚ finished p.
Proof.
  intros Hr Hph. pose proof (reachable_inv p Hr) as Hi. destruct (i_phases _ Hi) as [Hrun _ Hj].
  specialize (Hj Hph). split_and!; [|done|].
  - apply not_true_is_false. rewrite Hrun, Hph. done.
  - rewrite (a_held _ (i_accounts _ Hi)). unfold held.
    assert (Hn : concat (holds <$> pool_ p) = []).
    { clear -Hj. induction Hj as [|s ws -> Hws IH]; [done|]. by rewrite fmap_cons. }
    by rewrite Hn, app_nil_r.
Qed.

(** A pool stopped with a task in its queue: the worker was between two tasks,
    and [while (run_)] ends. *)
Definition dropped : ThreadPool PlainTasks :=
  MkPool false (MkPlain [0%nat]) false [Exited] 1 Joined 0 0 0 false 1 [] [].

Lemma dropped_reachable : reachable dropped.
Proof.
  unfold reachable. etransitivity; [apply one_worker_reachable|].
  eapply rtc_l; [by eapply step_client, c_add|].
  eapply rtc_l; [eapply step_pending, (push_ok _ 4); [simpl; lia|done..]|].
  eapply rtc_l; [eapply step_pending, p_notify_none; [simpl; lia|simpl; set_solver]|].
  eapply rtc_l; [eapply step_client, c_stop; [done|split; [done|left; simpl; lia]]|].
  eapply rtc_l; [by eapply (step_worker _ 0), w_top|].
  eapply rtc_l; [by eapply step_pending, p_notify_all|].
  eapply rtc_l; [eapply step_pending, p_join; [done|simpl; by repeat constructor]|].
  apply rtc_refl.
Qed.

Lemma pool_join_complete_witness : taken dropped ≡ₚ finished dropped.
Proof. apply (pool_join_complete dropped dropped_reachable). done. Defined.

(** [Destory] drops tasks: it can return with tasks that were accepted and
    queued, of which none was run, nor ever will be. *)
Theorem pool_stop_drops_tasks :
  ∃ p : ThreadPool PlainTasks, reachable p ∧ phase p = Joined ∧ TaskCount p = 1 ∧ finished p = [].
Proof. exists dropped. split; [apply dropped_reachable|done]. Qed.

