(* ===== verification/ThreadPoolRefine.v ===== *)
(** * The thread pools refine an abstract executor.

    The specification has no threads, no lock and no condition variable: tasks are
    accepted, queued, started and finished.  Every step of a pool, whatever its
    container, is a step of the executor that shows the same events, or shows none
    and leaves the executor as it is; so the two have the same runs. *)
From S2P Require Import Prelude TaskQueue ThreadPool ThreadPoolInv ThreadPoolSpec.

(** ** The specification *)
Record executor : Type := Exec {
  accepting : bool;
  accepted : nat;
  queued : list nat;
  active : gset nat;
  completed : list nat;
  fresh_task : nat;
}.
Definition exec_init : executor := Exec true 0 [] ∅ [] 0.

(** What a caller of the pool can see. *)
Inductive event : Type :=
  | Accepted                    (** [AddTask] did not throw *)
  | Queued (task : nat)
  | Started (task : nat)
  | Finished (task : nat)
  | Dropped (left : list nat)   (** tasks of a closed descriptor; what is left *)
  | Stopped.

(** [closes]: queued tasks can be dropped, when their descriptor is closed. *)
Inductive exec_step (closes : bool) : list event → executor → executor → Prop :=
  | x_accept x : accepting x = true →
      exec_step closes [Accepted] x
        (Exec true (S (accepted x)) (queued x) (active x) (completed x) (fresh_task x))
  | x_queue x n : accepted x = S n →
      exec_step closes [Queued (fresh_task x)] x
        (Exec (accepting x) n (queued x ++ [fresh_task x]) (active x) (completed x) (S (fresh_task x)))
  | x_start x t l : queued x = t :: l → t ∉ active x → t ∉ completed x → Z.of_nat (size (active x)) < THREADPOOL_MAX_NUM →
      exec_step closes [Started t] x
        (Exec (accepting x) (accepted x) l ({[t]} ∪ active x) (completed x) (fresh_task x))
  | x_finish x t : t ∈ active x →
      exec_step closes [Finished t] x
        (Exec (accepting x) (accepted x) (queued x) (active x ∖ {[t]}) (t :: completed x) (fresh_task x))
  | x_drop x l : closes = true → l `sublist_of` queued x →
      exec_step closes [Dropped l] x
        (Exec (accepting x) (accepted x) l (active x) (completed x) (fresh_task x))
  | x_stop x : accepting x = true →
      exec_step closes [Stopped] x
        (Exec false (accepted x) (queued x) (active x) (completed x) (fresh_task x)).

(** ** The abstraction *)
Section Refine.
Context {Q : Type} `{Hlaws : TaskQueueLaws Q}.
Implicit Types p : ThreadPool Q.

(** Whether the pool has [delCloseFD]. *)
Definition has_close : bool := match q_close (Q := Q) with Some _ => true | None => false end.

Definition abs_pool p : executor :=
  Exec (run_ p) (adders p) (contents (queue p)) (list_to_set (held (pool_ p))) (finished p) (next_task p).

(** What a step of the pool shows. *)
Definition newest (l l' : list nat) : list nat := if (length l <? length l')%nat then take 1 l' else [].
Definition observe p p' : list event :=
  (if run_ p && negb (run_ p') then [Stopped] else []) ++
  (if (adders p <? adders p')%nat then [Accepted] else []) ++
  (if (next_task p <? next_task p')%nat then [Queued (next_task p)] else []) ++
  (Started <$> newest (taken p) (taken p')) ++
  (Finished <$> newest (finished p) (finished p')) ++
  (if bool_decide (next_task p' = next_task p ∧ taken p' = taken p ∧ contents (queue p') ≠ contents (queue p))
   then [Dropped (contents (queue p'))] else []).
Definition pool_shows (es : list event) p p' : Prop := step p (Ok p') ∧ es = observe p p'.

Lemma newest_same l : newest l l = [].
Proof. unfold newest. by rewrite Nat.ltb_irrefl. Qed.
Lemma newest_cons t l : newest l (t :: l) = [t].
Proof. unfold newest. by rewrite (proj2 (Nat.ltb_lt _ _)) by (simpl; lia). Qed.

Lemma observe_same p p' :
  run_ p' = run_ p → (adders p' ≤ adders p)%nat → contents (queue p') = contents (queue p) → next_task p' = next_task p →
  taken p' = taken p → finished p' = finished p → observe p p' = [].
Proof.
  intros Hr Ha Hq Hn Ht Hf. unfold observe. rewrite Hr, Hn, Ht, Hf, !newest_same, (proj2 (Nat.ltb_ge (adders p) _)), Nat.ltb_irrefl by done.
  rewrite bool_decide_false by tauto. by destruct (run_ p).
Qed.

(** A step that changes neither tasks nor workers' tasks. *)
Lemma abs_same p p' :
  run_ p' = run_ p → adders p' = adders p → contents (queue p') = contents (queue p) →
  held (pool_ p') ≡ₚ held (pool_ p) → finished p' = finished p → next_task p' = next_task p →
  abs_pool p' = abs_pool p.
Proof.
  intros H1 H2 H3 H4 H5 H6. unfold abs_pool. rewrite H1, H2, H3, H5, H6. f_equal.
  apply set_eq. intros t. by rewrite !elem_of_list_to_set, H4.
Qed.

Lemma held_move p i s s' : pool_ p !! i = Some s → holds s = holds s' → held (<[i := s']> (pool_ p)) ≡ₚ held (pool_ p).
Proof. intros Hi Hs. pose proof (held_insert _ _ _ s' Hi) as Hh. rewrite Hs in Hh. by apply Permutation_app_inv_r in Hh. Qed.

Lemma held_length ws i s : ws !! i = Some s → holds s = [] → (length (held ws) < length ws)%nat.
Proof.
  intros Hi Hs. destruct (worker_split ws i s s Hi) as (l1 & l2 & -> & _).
  assert (Hle : ∀ l, (length (held l) ≤ length l)%nat).
  { induction l as [|s' l IH]; [done|]. unfold held in *. rewrite fmap_cons. simpl. rewrite length_app.
    destruct s'; simpl; lia. }
  pose proof (Hle l1). pose proof (Hle l2). unfold held in *. rewrite fmap_app, fmap_cons, concat_app. simpl.
  rewrite Hs, !length_app. simpl. lia.
Qed.

Lemma nodup_tasks p : pool_inv p → NoDup (finished p ++ held (pool_ p)) ∧
  ∀ t, t ∈ contents (queue p) → t ∉ finished p ++ held (pool_ p).
Proof.
  intros Hi. rewrite <- (a_held _ (i_accounts _ Hi)). destruct (i_ordered _ Hi) as [Ho _]. unfold history in Ho.
  apply StronglySorted_lt_NoDup in Ho as Hnd.
  apply NoDup_app in Hnd as (Hnd & Hd & _). rewrite <- Permutation_rev in Hnd. split; [done|].
  intros t Ht. rewrite <- (a_held _ (i_accounts _ Hi)). intros Hin. apply (Hd t); [|done]. by rewrite <- Permutation_rev.
Qed.

(** What the simulation asks of a step. *)
Definition simulated p p' : Prop :=
  exec_step has_close (observe p p') (abs_pool p) (abs_pool p') ∨ observe p p' = [] ∧ abs_pool p' = abs_pool p.

Lemma simulated_same p p' :
  run_ p' = run_ p → adders p' = adders p → contents (queue p') = contents (queue p) →
  held (pool_ p') ≡ₚ held (pool_ p) → taken p' = taken p → finished p' = finished p → next_task p' = next_task p →
  simulated p p'.
Proof. intros Hr Ha **. right. split; [apply observe_same; (done || by rewrite Ha)|by apply abs_same]. Qed.

Lemma abs_worker p i p' : pool_inv p → worker_step i p (Ok p') → simulated p p'.
Proof.
  intros Hinv Hw. pose proof (i_core _ Hinv) as Hc.
  inversion Hw as [Hi|Hi Hl|Hi Hr|Hi He Hr|Hi He Hr|Hi|t Hi|t Hi]; subst; alone;
    try (apply simulated_same; try done; simpl; eapply held_move; [exact Hi|]; by (done || case_match)).
  - destruct (take_task_ok p i Hc Hi He) as (t & l & q & Hq & Hl & _ & _ & Ht).
    rewrite Ht in Hr. injection Hr as <-. left.
    pose proof (held_insert _ _ _ (Taken t) Hi) as Hh. simpl in Hh. rewrite app_nil_r in Hh.
    destruct (nodup_tasks p Hinv) as [Hnd Hd]. specialize (Hd t ltac:(rewrite Hq; by left)).
    rewrite not_elem_of_app in Hd. destruct Hd as [Hd1 Hd2].
    assert (He' : abs_pool (set_lock false (set_worker i (Taken t) (set_taken t q p))) =
      Exec (run_ p) (adders p) l ({[t]} ∪ list_to_set (held (pool_ p))) (finished p) (next_task p)).
    { unfold abs_pool. simpl. rewrite Hl. f_equal. apply set_eq. intros t'.
      rewrite elem_of_list_to_set, Hh. set_solver. }
    assert (Ho : observe p (set_lock false (set_worker i (Taken t) (set_taken t q p))) = [Started t]).
    { unfold observe. simpl. rewrite newest_cons, newest_same, !Nat.ltb_irrefl.
      rewrite bool_decide_false by (intros (_ & Hx & _); by apply (f_equal length) in Hx; simpl in Hx; lia).
      by destruct (run_ p). }
    rewrite He', Ho. apply (x_start _ (abs_pool p)); simpl; [done|set_solver|done|].
    assert (Hlt := held_length _ _ _ Hi eq_refl). pose proof (a_max _ (i_accounts _ Hinv)) as Hm.
    apply NoDup_app in Hnd as (_ & _ & Hnd). rewrite size_list_to_set by done. lia.
  - left. pose proof (held_insert _ _ _ Top Hi) as Hh. simpl in Hh. rewrite app_nil_r in Hh.
    destruct (nodup_tasks p Hinv) as [Hnd _]. apply NoDup_app in Hnd as (_ & _ & Hnd). rewrite <- Hh in Hnd.
    apply NoDup_app in Hnd as (_ & Hd & _).
    assert (He' : abs_pool (set_finished t (add_idle 1 (set_worker i Top p))) =
      Exec (run_ p) (adders p) (contents (queue p)) (list_to_set (held (pool_ p)) ∖ {[t]}) (t :: finished p) (next_task p)).
    { unfold abs_pool. simpl. f_equal. apply set_eq. intros t'. rewrite elem_of_difference, !elem_of_list_to_set, <- Hh.
      specialize (Hd t'). set_solver. }
    assert (Ho : observe p (set_finished t (add_idle 1 (set_worker i Top p))) = [Finished t]).
    { unfold observe. simpl. rewrite newest_cons, newest_same, !Nat.ltb_irrefl, bool_decide_false by tauto. by destruct (run_ p). }
    rewrite He', Ho. apply (x_finish _ (abs_pool p)). simpl. rewrite elem_of_list_to_set, <- Hh. set_solver.
Qed.

Lemma abs_pending p p' : pool_inv p → pending_step p (Ok p') → simulated p p'.
Proof.
  intros Hinv Hw. pose proof (i_core _ Hinv) as Hc.
  inversion Hw as [fd q' Hn Hl Hq Hr|i Hn Hi|Hn Hn2|Hph|Hph Hf|Hu Hlen H1|Hu]; subst; alone;
    [|apply simulated_same; try done; simpl..].
  - destruct (push_core p fd Hc) as (q & Hp & _ & Hcq).
    rewrite Hp in Hr. simpl in Hr. injection Hr as <-. left.
    assert (Ho : observe p (set_clients (pred (adders p)) (S (notifies p)) (S (next_task p)) (set_queue q p)) = [Queued (next_task p)]).
    { unfold observe. simpl. rewrite !newest_same, (proj2 (Nat.ltb_ge (adders p) _)), (proj2 (Nat.ltb_lt (next_task p) _)) by lia.
      rewrite bool_decide_false by lia. by destruct (run_ p). }
    rewrite Ho. unfold abs_pool. simpl. rewrite Hcq. apply (x_queue _ (abs_pool p) (pred (adders p))). simpl. lia.
  - eapply held_move; [exact Hi|done].
  - by rewrite held_wake.
  - unfold held. by rewrite fmap_app, concat_app, app_nil_r.
Qed.

Lemma abs_client p p' : pool_inv p → client_step p (Ok p') → simulated p p'.
Proof.
  intros Hinv Hw. pose proof (i_core _ Hinv) as Hc.
  inversion Hw as [Ha|f fd Hf Hl Hr|size Hph [Hi _] H1|Hph Hi]; subst; alone; [left| |by apply simulated_same|left].
  - assert (Hrun : run_ p = true) by (unfold AddTask_check in Ha; by destruct (run_ p)).
    assert (Ho : observe p (set_clients (S (adders p)) (notifies p) (next_task p) p) = [Accepted]).
    { unfold observe. simpl. rewrite Hrun, !newest_same, Nat.ltb_irrefl, (proj2 (Nat.ltb_lt (adders p) _)) by lia.
      by rewrite bool_decide_false by tauto. }
    rewrite Ho. unfold abs_pool. simpl. rewrite Hrun.
    by apply (x_accept _ (Exec true (adders p) (contents (queue p)) (list_to_set (held (pool_ p))) (finished p) (next_task p))).
  - destruct (close_law f fd (queue p) Hf (c_wf _ Hc)) as (q & Hfq & _ & Hsub). rewrite Hfq in Hr. simpl in Hr.
    injection Hr as <-. destruct (decide (contents q = contents (queue p))) as [He|Hne]; [by apply simulated_same|].
    assert (Ho : observe p (set_queue q p) = [Dropped (contents q)]).
    { unfold observe. simpl. rewrite !newest_same, !Nat.ltb_irrefl, bool_decide_true by done. by destruct (run_ p). }
    left. rewrite Ho. apply (x_drop _ (abs_pool p)); [|done]. unfold has_close. by rewrite Hf.
  - assert (Hrun : run_ p = true) by (by apply (ph_run _ (i_phases _ Hinv))).
    assert (Ho : observe p (set_phase false Cleared p) = [Stopped]).
    { unfold observe. simpl. rewrite Hrun, !newest_same, !Nat.ltb_irrefl. by rewrite bool_decide_false by tauto. }
    rewrite Ho. by apply (x_stop _ (abs_pool p)).
Qed.

Lemma abs_step p p' : pool_inv p → step p (Ok p') → simulated p p'.
Proof.
  intros Hinv Hs. inversion Hs as [i r Hw|r Hw|r Hw|r Hw|r Hw]; subst.
  - by eapply abs_worker.
  - by apply abs_pending.
  - by apply abs_client.
  - inversion Hw as [i Hi]; subst. apply simulated_same; try done. simpl. eapply held_move; [exact Hi|done].
  - apply query_same in Hw as ->. by apply simulated_same.
Qed.
End Refine.

(** ** Property *)

(** C5: The pools, with either container, implement the executor: what any run
    of workers and callers shows, event by event, is shown by a run of the
    executor, which ends in the pool's abstract state.  So [AddTask] accepts a task
    only before the pool is stopped, each task accepted is queued once, the one
    started is the oldest in the queue and was not started before, at most
    [THREADPOOL_MAX_NUM] are active, only active tasks finish, and a task leaves the
    queue unstarted only where descriptors are closed. *)
Theorem pool_refines_executor {Q} `{TaskQueueLaws Q} es (p : ThreadPool Q) :
  lrun pool_shows es new_pool p → lrun (exec_step (has_close (Q := Q))) es exec_init (abs_pool p).
Proof.
  assert (Hnew : abs_pool (new_pool (Q := Q)) = exec_init).
  { destruct wf_empty as [_ He]. unfold abs_pool. simpl. by rewrite He. }
  rewrite <- Hnew. apply (lrun_simulation _ _ reachable); [|constructor].
  intros es' p1 p2 Hr [Hs ->]. split; [by eapply rtc_r|]. exact (abs_step p1 p2 (reachable_inv p1 Hr) Hs).
Qed.

(** A pool with a worker that accepts a task, queues it, starts and finishes it
    after it was stopped. *)
Definition after_stop : ThreadPool FdTasks :=
  MkPool false (MkFd [] {[4 := []]}) false [Top] 1 Cleared 0 1 0 false 1 [0%nat] [0%nat].

Lemma pool_refines_executor_witness :
  lrun (exec_step true) [Accepted; Queued 0; Stopped; Started 0; Finished 0] exec_init (abs_pool after_stop).
Proof.
  change true with (has_close (Q := FdTasks)). apply (pool_refines_executor [Accepted; Queued 0; Stopped; Started 0; Finished 0] after_stop).
  eapply (lrun_step _ []); [split; [eapply step_client, (c_init _ 1); [done|split; [done|by left]|lia]|reflexivity]|].
  eapply (lrun_step _ []); [split; [eapply step_pending, p_spawn; [done|simpl; unfold THREADPOOL_MAX_NUM; lia|simpl; lia]|reflexivity]|].
  eapply (lrun_step _ []); [split; [by eapply step_pending, p_count|reflexivity]|].
  eapply (lrun_step _ [Accepted]); [split; [by eapply step_client, c_add|reflexivity]|].
  eapply (lrun_step _ []); [split; [by eapply (step_worker _ 0), w_top|reflexivity]|].
  eapply (lrun_step _ [Queued 0]); [split; [eapply step_pending, (push_ok _ 4); [simpl; lia|done..]|reflexivity]|].
  eapply (lrun_step _ []); [split; [by eapply (step_worker _ 0), w_lock|reflexivity]|].
  eapply (lrun_step _ [Stopped]); [split; [eapply step_client, c_stop; [done|split; [done|left; simpl; lia]]|reflexivity]|].
  eapply (lrun_step _ []); [split; [by eapply (step_worker _ 0), check_ok|reflexivity]|].
  eapply (lrun_step _ [Started 0]); [split; [eapply (step_worker _ 0), take_ok; done|reflexivity]|].
  eapply (lrun_step _ []); [split; [by eapply (step_worker _ 0), w_start|reflexivity]|].
  eapply (lrun_step _ [Finished 0] []); [split; [by eapply (step_worker _ 0), w_finish|reflexivity]|].
  constructor.
Defined.
