(* ===== verification/ThreadPoolLive.v ===== *)
(** * The thread pools come to rest, with every task done.

    [internal] steps are those of the calls already begun and of the workers: no
    new call, no spurious wake-up.  A measure of the work left bounds them, so
    every run of them ends; where it ends, nothing that was accepted is left. *)
From S2P Require Import Prelude TaskQueue ThreadPool ThreadPoolInv ThreadPoolSpec.

Section Live.
Context {Q : Type} `{Hlaws : TaskQueueLaws Q}.
Implicit Types p : ThreadPool Q.

Definition internal p p' : Prop := (∃ i, worker_step i p (Ok p')) ∨ pending_step p (Ok p').

(** ** The work left *)

(** The steps a worker makes at most before it sleeps, takes a task or is gone;
    with a task, those after it too. *)
Definition weight (s : wstate) : nat :=
  match s with
  | Waiting | Exited => 0
  | Ready | Blocking => 1
  | Checking => 2
  | Acquire => 3
  | Top => 4
  | Running _ => 5
  | Taken _ => 6
  end.
Definition weights (ws : list wstate) : nat := sum_list_with weight ws.

Definition spawn_weight p : nat :=
  let n := (6 * Z.to_nat (to_spawn p))%nat in if uncounted p then n - 5 else n.
Definition stop_weight (ph : stop_phase) : nat :=
  match ph with Open | Joined => 0 | Cleared => 60 | Joining => 1 end.
Definition work p : nat :=
  weights (pool_ p) + 6 * length (contents (queue p)) + 4 * notifies p + 11 * adders p +
  spawn_weight p + stop_weight (phase p).

(** ** Lemmas *)
Lemma weights_insert ws i s s' : ws !! i = Some s → (weights (<[i := s']> ws) + weight s = weights ws + weight s')%nat.
Proof.
  intros Hws. destruct (worker_split ws i s s' Hws) as (l1 & l2 & -> & ->). unfold weights.
  rewrite !sum_list_with_app. simpl. lia.
Qed.

Lemma weights_wake ws :
  (weights ((λ s, if decide (s = Waiting) then Acquire else s) <$> ws) ≤ weights ws + 3 * length ws)%nat.
Proof. induction ws as [|s ws IH]; [done|]. unfold weights in *. rewrite fmap_cons. simpl. destruct s; simpl; lia. Qed.

(** [InitThreadSize] counts the thread it has spawned. *)
Definition spawning p : Prop := uncounted p = true → 0 < to_spawn p.

Lemma spawning_step p p' : step p (Ok p') → spawning p → spawning p'.
Proof.
  unfold spawning. intros Hs Hp. inversion Hs as [i r Hw|r Hw|r Hw|r Hw|r Hw]; subst.
  - inversion Hw as [Hi|Hi Hl|Hi Hr|Hi He Hr|Hi He Hr|Hi|t Hi|t Hi]; subst; alone; try exact Hp.
    unfold take_task in Hr. destruct (q_pop _) as [[t q]|]; simpl in Hr; [|done]. by injection Hr as <-.
  - inversion Hw as [fd q' Hn Hl Hq Hr|i Hn Hi|Hn Hn2|Hph|Hph Hf|Hu Hlen H1|Hu]; subst; alone; try exact Hp; try done.
    destruct (q_push _ _ _); simpl in Hr; [|done]. by injection Hr as <-.
  - inversion Hw as [Ha|f fd Hf Hl Hr|size Hph [Hi _] H1|Hph Hi]; subst; alone; try exact Hp; try done.
    destruct (f fd _); simpl in Hr; [|done]. by injection Hr as <-.
  - inversion Hw; subst. exact Hp.
  - by apply query_same in Hw as ->.
Qed.

Lemma reachable_spawning p : reachable p → spawning p.
Proof.
  unfold reachable. intros Hr. refine (rtc_ind_r (λ p, spawning p) new_pool _ _ p Hr); [done|].
  intros p1 p2 _ Hs. by apply spawning_step.
Qed.

Lemma internal_step p p' : internal p p' → step p (Ok p').
Proof. intros [[i Hw]|Hw]; [by eapply step_worker|by apply step_pending]. Qed.

Lemma internal_reachable p p' : reachable p → rtc internal p p' → reachable p'.
Proof.
  unfold reachable. intros Hr Hi. etrans; [exact Hr|]. eapply rtc_subrel; [|exact Hi]. apply internal_step.
Qed.

(** Every step uses up some work. *)
Lemma internal_work p p' : pool_inv p → spawning p → internal p p' → (work p' < work p)%nat.
Proof.
  intros Hinv Hsp Hs. pose proof (i_core _ Hinv) as Hc. destruct Hs as [[i Hw]|Hw].
  - assert (Hmove : ∀ s s', pool_ p !! i = Some s → (weight s' < weight s)%nat → (weights (<[i := s']> (pool_ p)) < weights (pool_ p))%nat).
    { intros s s' Hi Hlt. pose proof (weights_insert _ _ _ s' Hi). lia. }
    inversion Hw as [Hi|Hi Hl|Hi Hr|Hi He Hr|Hi He Hr|Hi|t Hi|t Hi]; subst; alone.
    5:{ destruct (take_task_ok p i Hc Hi He) as (t & l & q & Hq & Hl & _ & _ & Ht). rewrite Ht in Hr. injection Hr as <-.
        pose proof (weights_insert _ _ _ (Taken t) Hi). unfold work, spawn_weight. simpl in *. rewrite Hq, Hl. simpl. lia. }
    all: match goal with Hw : worker_step ?j ?x _, Hm : context [weights (<[?j := _]> _)], Hi : pool_ ?x !! ?j = Some _ |- context [set_worker ?j ?s' ?x] => assert (Hlt := Hm _ s' Hi) end;
      unfold work, spawn_weight; simpl in *; try case_match; simpl in *; lia.
  - inversion Hw as [fd q' Hn Hl Hq Hr|i Hn Hi|Hn Hn2|Hph|Hph Hf|Hu Hlen H1|Hu]; subst; alone; unfold work, spawn_weight; simpl.
    + destruct (push_core p fd Hc) as (q & Hp & _ & Hcq).
      rewrite Hp in Hr. injection Hr as <-. simpl. rewrite Hcq, length_app. simpl. lia.
    + pose proof (weights_insert _ _ _ Acquire Hi). simpl in *. lia.
    + lia.
    + pose proof (weights_wake (pool_ p)). pose proof (a_max _ (i_accounts _ Hinv)) as Hm.
      unfold THREADPOOL_MAX_NUM in Hm. rewrite Hph. simpl. lia.
    + rewrite Hph. simpl. lia.
    + rewrite Hu. unfold weights. rewrite sum_list_with_app. simpl. lia.
    + specialize (Hsp Hu). rewrite Hu. lia.
Qed.

(** What the calls begun and the workers leave as it is. *)
Lemma internal_frame p p' : pool_inv p → internal p p' →
  run_ p' = run_ p ∧ (length (pool_ p) ≤ length (pool_ p'))%nat ∧ history p `prefix_of` history p'.
Proof.
  intros Hinv Hs. pose proof (i_core _ Hinv) as Hc. destruct Hs as [[i Hw]|Hw].
  - inversion Hw as [Hi|Hi Hl|Hi Hr|Hi He Hr|Hi He Hr|Hi|t Hi|t Hi]; subst; alone;
      try (simpl; rewrite length_insert; split_and!; [done|lia|by exists []; rewrite app_nil_r]).
    destruct (take_task_ok p i Hc Hi He) as (t & l & q & Hq & Hl & _ & _ & Ht). rewrite Ht in Hr. injection Hr as <-.
    simpl. rewrite length_insert. split_and!; [done|lia|]. unfold history. simpl. rewrite Hq, Hl, <- app_assoc. done.
  - inversion Hw as [fd q' Hn Hl Hq Hr|i Hn Hi|Hn Hn2|Hph|Hph Hf|Hu Hlen H1|Hu]; subst; alone; simpl;
      rewrite ?length_insert, ?length_fmap, ?length_app; try (split_and!; [done|lia|by exists []; rewrite app_nil_r]).
    destruct (push_core p fd Hc) as (q & Hp & _ & Hcq).
    rewrite Hp in Hr. injection Hr as <-. split_and!; [done|done|]. unfold history. simpl. rewrite Hcq, app_assoc. by eexists.
Qed.

Lemma internal_sn p : reachable p → sn internal p.
Proof.
  intros Hr. remember (work p) as n eqn:Hn. revert p Hr Hn. induction (lt_wf n) as [n _ IH]. intros p Hr ->.
  constructor. intros p' Hs. unfold flip in Hs.
  apply (IH (work p')); [|by eapply internal_reachable; [exact Hr|apply rtc_once]|done].
  apply internal_work; [by apply reachable_inv|by apply reachable_spawning|done].
Qed.

Lemma internal_frames p p' : reachable p → rtc internal p p' →
  run_ p' = run_ p ∧ (length (pool_ p) ≤ length (pool_ p'))%nat ∧ history p `prefix_of` history p'.
Proof.
  intros Hr Hs. induction Hs as [p|p p1 p' H1 _ IH]; [by split_and!|].
  destruct (internal_frame p p1 (reachable_inv p Hr) H1) as (Hrun & Hl & Hh).
  destruct IH as (-> & Hl' & Hh'); [by eapply internal_reachable; [|apply rtc_once]|].
  split_and!; [done|lia|by etrans].
Qed.

(** The workers at rest. *)
Lemma nf_asleep p i s : pool_inv p → nf internal p → run_ p = true → pool_ p !! i = Some s → s = Waiting.
Proof.
  intros Hinv Hnf Hrun Hi. destruct (awake s) eqn:Ha.
  - destruct (worker_can_move p i s (i_core _ Hinv) Hi Ha) as (j & p' & Hw). destruct Hnf. exists p'. left. by exists j.
  - destruct s; try done. by destruct (c_exited _ (i_core _ Hinv) Hrun i).
Qed.

Lemma asleep_holds ws : Forall (λ s, s = Waiting) ws → held ws = [].
Proof. induction 1 as [|s ws -> _ IH]; [done|]. unfold held in *. by rewrite fmap_cons. Qed.

Lemma nf_no_adder p : pool_inv p → nf internal p → adders p = 0%nat.
Proof.
  intros Hinv Hnf. destruct (decide (adders p = 0%nat)) as [|Ha]; [done|]. destruct Hnf.
  destruct (lock p) eqn:Hl.
  - destruct (c_holder _ (i_core _ Hinv) Hl) as (i & s & Hi & Hs).
    destruct (worker_can_move p i s (i_core _ Hinv) Hi) as (j & p' & Hw); [by destruct s|]. exists p'. left. by exists j.
  - destruct (push_core p 0 (i_core _ Hinv)) as (q & Hq & _). eexists. right. apply (push_ok p 0 q); [lia|done|apply core_free; [apply Hinv|done]|done].
Qed.

Lemma nf_no_task p : pool_inv p → nf internal p → run_ p = true → pool_ p ≠ [] → contents (queue p) = [].
Proof.
  intros Hinv Hnf Hrun Hp. destruct (decide (contents (queue p) = [])) as [|Hq]; [done|].
  destruct (i_attended _ Hinv Hrun Hq) as [|[Hn|(i & s & Hi & Hs)]]; [done| |].
  - destruct Hnf. destruct (decide (Waiting ∈ pool_ p)) as [Hw|Hw].
    + apply list_elem_of_lookup in Hw as [i Hw]. eexists. right. by eapply p_notify_one.
    + eexists. right. by apply p_notify_none.
  - by rewrite (nf_asleep p i s Hinv Hnf Hrun Hi) in Hs.
Qed.
End Live.

(** ** Property *)

(** C6: Without new calls and spurious wake-ups the pools come to rest: from every
    state, stopped or not, every run of the workers and of the calls already begun
    ends; and where it ends, while the pool runs and has workers, every call of
    [AddTask] has returned, the queue is empty, the workers sleep, and every task
    that had been queued has finished.  So no task is lost or left waiting. *)
Theorem pool_quiesces {Q} `{TaskQueueLaws Q} (p : ThreadPool Q) : reachable p →
  sn internal p ∧
  ∀ p', rtc internal p p' → nf internal p' → run_ p = true → pool_ p ≠ [] →
    adders p' = 0%nat ∧ contents (queue p') = [] ∧ Forall (λ s, s = Waiting) (pool_ p') ∧
    taken p' ≡ₚ finished p' ∧ ∀ t, t ∈ taken p ++ contents (queue p) → t ∈ finished p'.
Proof.
  intros Hr. split; [by apply internal_sn|]. intros p' Hs Hnf Hrun Hp.
  pose proof (reachable_inv p' (internal_reachable p p' Hr Hs)) as Hinv.
  destruct (internal_frames p p' Hr Hs) as (Hrun' & Hlen & Hh). rewrite Hrun in Hrun'.
  assert (Hp' : pool_ p' ≠ []) by (intros He; rewrite He in Hlen; destruct (pool_ p); [done|simpl in Hlen; lia]).
  assert (Hw : Forall (λ s, s = Waiting) (pool_ p')).
  { apply Forall_lookup. intros i s. by apply nf_asleep. }
  pose proof (nf_no_task p' Hinv Hnf Hrun' Hp') as Hq.
  assert (Ht : taken p' ≡ₚ finished p').
  { rewrite (a_held _ (i_accounts _ Hinv)), asleep_holds, app_nil_r by done. done. }
  split_and!; [by apply nf_no_adder|done..|]. intros t Hin. rewrite <- Ht.
  assert (Hin' : t ∈ history p').
  { eapply elem_of_prefix; [|exact Hh]. unfold history. by rewrite <- Permutation_rev. }
  unfold history in Hin'. by rewrite Hq, app_nil_r, <- Permutation_rev in Hin'.
Qed.

(** The pool with a queued task: where it rests, the task has finished. *)
Lemma pool_quiesces_witness : sn internal one_task ∧ ∀ p', rtc internal one_task p' → nf internal p' → 0%nat ∈ finished p'.
Proof.
  destruct (pool_quiesces one_task one_task_reachable) as [H1 H2]. split; [exact H1|]. intros p' Hs Hn.
  destruct (H2 p' Hs Hn eq_refl) as (_ & _ & _ & _ & H3); [done|]. apply H3. by left.
Defined.
