(* ===== verification/EpollSocket.v ===== *)
(** * tools/sync_file/epoll_socket/epoll_socket.{h,cpp}: blocking transfers of a
    given length, and the framing "length, then data".

    A connected socket is any type with the operations and laws of [Socket] and
    [SocketLaws]: [recv] and [send] as POSIX documents them.  The code's [while]
    loops run on fuel; the theorems say how much is enough. *)
From S2P Require Import Prelude CInt CArray.

(** ** The interface of a connected stream socket

    [incoming] are the bytes the peer will have sent when it closes, and that
    were not received yet; [outgoing] the bytes sent so far; [patience] bounds
    how often [EAGAIN] can still be met. *)
Inductive recv_result : Type := RBytes (bs : list Z) | RAgain | RError.
Inductive send_result : Type := SBytes (k : Z) | SAgain | SError.

Class Socket (S : Type) : Type := {
  recv : Z → S → recv_result * S;
  send : list Z → S → send_result * S;
  incoming : S → list Z;
  outgoing : S → list Z;
  patience : S → nat;
}.

Definition recv_spec {S} `{Socket S} (n : Z) (s : S) : Prop :=
  match recv n s with
  | (RBytes bs, s') =>
      incoming s = bs ++ incoming s' ∧ len bs ≤ n ∧ (bs = [] → 0 < n → incoming s = []) ∧
      outgoing s' = outgoing s ∧ (patience s' ≤ patience s)%nat
  | (RAgain, s') =>
      incoming s' = incoming s ∧ outgoing s' = outgoing s ∧ (patience s' < patience s)%nat
  | (RError, s') => incoming s' = incoming s ∧ outgoing s' = outgoing s
  end.

Definition send_spec {S} `{Socket S} (bs : list Z) (s : S) : Prop :=
  match send bs s with
  | (SBytes k, s') =>
      0 ≤ k ≤ len bs ∧ (bs ≠ [] → 0 < k) ∧ outgoing s' = outgoing s ++ take (Z.to_nat k) bs ∧
      incoming s' = incoming s ∧ (patience s' ≤ patience s)%nat
  | (SAgain, s') =>
      incoming s' = incoming s ∧ outgoing s' = outgoing s ∧ (patience s' < patience s)%nat
  | (SError, s') => incoming s' = incoming s ∧ outgoing s' = outgoing s
  end.

Class SocketLaws (S : Type) `{Socket S} : Prop := {
  recv_law : ∀ n (s : S), 0 ≤ n → recv_spec n s;
  send_law : ∀ bs (s : S), send_spec bs s;
}.

(** A connection that does not break. *)
Class Reliable (S : Type) `{Socket S} : Prop := {
  recv_reliable : ∀ n (s : S), (recv n s).1 ≠ RError;
  send_reliable : ∀ bs (s : S), (send bs s).1 ≠ SError;
}.

(** ** Memory *)
Definition mread (off n : Z) (buf : list Z) : res (list Z) :=
  if (0 <=? off) && (0 <=? n) && (off + n <=? len buf)
  then Ok (take (Z.to_nat n) (drop (Z.to_nat off) buf)) else Err OutOfBounds.
Definition mwrite (off : Z) (bs buf : list Z) : res (list Z) :=
  if (0 <=? off) && (off + len bs <=? len buf)
  then Ok (take (Z.to_nat off) buf ++ bs ++ drop (Z.to_nat (off + len bs)) buf) else Err OutOfBounds.

(** The object representation of an [int64_t] (little-endian), and back. *)
Fixpoint le_bytes (n : nat) (z : Z) : list Z :=
  match n with O => [] | Datatypes.S n => z mod 256 :: le_bytes n (z / 256) end.
Fixpoint le_value (bs : list Z) : Z :=
  match bs with [] => 0 | b :: bs => b + 256 * le_value bs end.
Definition bytes_of_i64 (z : Z) : list Z := le_bytes 8 (to_u64 z).
Definition i64_of_bytes (bs : list Z) : Z := to_i64 (le_value (take 8 bs)).

(** ** The code *)
Section Code.
Context {S : Type} `{Socket S}.

Definition recv_body (st : Z * Z * list Z * S) : res (Z * Z * list Z * S + Z * list Z * S) :=
  let '(recvNums, recvRenainNums, buf, s) := st in
  let '(r, s) := recv (to_u64 recvRenainNums) s in
  buf ← (match r with RBytes bs => mwrite recvNums bs buf | _ => mret buf end);
  let bytesRead := match r with RBytes bs => len bs | _ => -1 end in
  let again := match r with RAgain => true | _ => false end in
  if bytesRead =? recvRenainNums then mret (inr (0, buf, s))
  else if 0 <? bytesRead then
    recvNums ← ladd recvNums bytesRead;
    recvRenainNums ← lsub recvRenainNums bytesRead;
    mret (inl (recvNums, recvRenainNums, buf, s))
  else if (bytesRead <? 0) && again then mret (inl (recvNums, recvRenainNums, buf, s))
  else mret (inr (-1, buf, s)).

(** [RecvSocket]: the return value and [buf] as it leaves it. *)
Definition RecvSocket (fuel : nat) (buf : list Z) (dataSize : Z) (s : S) : res (Z * list Z * S) :=
  loop fuel recv_body (0, dataSize, buf, s).

Definition send_body (buf : list Z) (st : Z * Z * S) : res (Z * Z * S + Z * S) :=
  let '(sendNums, sendRemainNums, s) := st in
  data ← mread sendNums sendRemainNums buf;
  let '(r, s) := send data s in
  let bytesSend := match r with SBytes k => k | _ => -1 end in
  let again := match r with SAgain => true | _ => false end in
  if bytesSend =? sendRemainNums then mret (inr (0, s))
  else if 0 <? bytesSend then
    sendNums ← ladd sendNums bytesSend;
    sendRemainNums ← lsub sendRemainNums bytesSend;
    mret (inl (sendNums, sendRemainNums, s))
  else if (bytesSend <? 0) && again then mret (inl (sendNums, sendRemainNums, s))
  else mret (inr (-1, s)).

Definition SendSocket (fuel : nat) (buf : list Z) (dataSize : Z) (s : S) : res (Z * S) :=
  loop fuel (send_body buf) (0, dataSize, s).

Definition RecvBuff (fuel : nat) (buff : list Z) (s : S) : res (Z * list Z * S) :=
  '(ret_len, recv_len, s) ← RecvSocket fuel (bytes_of_i64 0) 8 s;
  let recv_len := i64_of_bytes recv_len in
  '(ret_buff, buff, s) ← RecvSocket fuel buff recv_len s;
  mret (recv_len, buff, s).

Definition SendBuff (fuel : nat) (buff : list Z) (l : Z) (s : S) : res (bool * S) :=
  let send_len := l in
  '(ret_len, s) ← SendSocket fuel (bytes_of_i64 send_len) 8 s;
  '(ret_buff, s) ← SendSocket fuel buff send_len s;
  mret ((0 <=? ret_buff) && (0 <=? ret_len), s).
End Code.

(** ** The format *)
Definition frame (data : list Z) : list Z := bytes_of_i64 (len data) ++ data.

(** ** Lemmas *)
Lemma mread_ok off n buf :
  0 ≤ off → 0 ≤ n → off + n ≤ len buf → mread off n buf = Ok (take (Z.to_nat n) (drop (Z.to_nat off) buf)).
Proof. intros. unfold mread. by rewrite !(proj2 (Z.leb_le _ _)) by lia. Qed.

Lemma mwrite_ok off bs buf :
  0 ≤ off → off + len bs ≤ len buf →
  mwrite off bs buf = Ok (take (Z.to_nat off) buf ++ bs ++ drop (Z.to_nat (off + len bs)) buf).
Proof. intros. unfold mwrite. by rewrite !(proj2 (Z.leb_le _ _)) by lia. Qed.

Lemma length_le_bytes n z : length (le_bytes n z) = n.
Proof. revert z. induction n as [|n IH]; intros z; simpl; [done|]. by rewrite IH. Qed.

Lemma le_value_bytes n z : 0 ≤ z < 256 ^ Z.of_nat n → le_value (le_bytes n z) = z.
Proof.
  revert z. induction n as [|n IH]; intros z Hz; [simpl in *; lia|].
  simpl le_bytes. simpl le_value. rewrite Nat2Z.inj_succ, Z.pow_succ_r in Hz by lia.
  rewrite IH; [pose proof (Z.div_mod z 256); lia|].
  split; [apply Z.div_pos; lia|apply Z.div_lt_upper_bound; lia].
Qed.

Lemma len_bytes_of_i64 z : len (bytes_of_i64 z) = 8.
Proof. unfold len, bytes_of_i64. by rewrite length_le_bytes. Qed.

Lemma i64_bytes_round z l : INT64_MIN ≤ z ≤ INT64_MAX → i64_of_bytes (bytes_of_i64 z ++ l) = z.
Proof.
  intros Hz. unfold i64_of_bytes. rewrite take_app_length' by (unfold bytes_of_i64; by rewrite length_le_bytes).
  unfold bytes_of_i64. rewrite le_value_bytes.
  - unfold to_i64, to_u64. rewrite Zplus_mod_idemp_l. rewrite Z.mod_small by int_lia. lia.
  - unfold to_u64. apply Z.mod_pos_bound. lia.
Qed.

(** [take off inc] is in the buffer; the next bytes go after it. *)
Lemma fill_step (inc buf bs rest : list Z) (off : Z) :
  0 ≤ off ≤ len inc → drop (Z.to_nat off) inc = bs ++ rest → off + len bs ≤ len buf →
  mwrite off bs (take (Z.to_nat off) inc ++ drop (Z.to_nat off) buf) =
    Ok (take (Z.to_nat (off + len bs)) inc ++ drop (Z.to_nat (off + len bs)) buf).
Proof.
  intros Ho Hd Hb. unfold len in *.
  assert (Hl : length (take (Z.to_nat off) inc) = Z.to_nat off) by (rewrite length_take; lia).
  rewrite mwrite_ok; unfold len; [|lia|rewrite length_app, Hl, length_drop; lia].
  rewrite take_app_length' by done.
  replace (Z.to_nat (off + Z.of_nat (length bs))) with (Z.to_nat off + length bs)%nat by lia.
  rewrite drop_app_ge, Hl, drop_drop by lia.
  replace (Z.to_nat off + (Z.to_nat off + length bs - Z.to_nat off))%nat
    with (Z.to_nat off + length bs)%nat by lia.
  rewrite <- (take_take_drop inc (Z.to_nat off) (length bs)), Hd, take_app_length, <- app_assoc. done.
Qed.

Lemma mwrite_err off bs buf : 0 ≤ off → len buf < off + len bs → mwrite off bs buf = Err OutOfBounds.
Proof. intros. unfold mwrite. by rewrite (proj2 (Z.leb_gt (off + len bs) _)), andb_false_r by lia. Qed.

Section Transfer.
Context {S : Type} `{SocketLaws S} `{!Reliable S}.

(** What a transfer of [n] bytes into [buf] leaves. *)
Definition received (buf : list Z) (n : Z) (s : S) (r : Z * list Z * S) : Prop :=
  let '(ret, buf', s') := r in
  let got := take (Z.to_nat n) (incoming s) in
  ret = (if n <=? len (incoming s) then 0 else -1) ∧ len got ≤ len buf ∧
  buf' = got ++ drop (length got) buf ∧ incoming s' = drop (Z.to_nat n) (incoming s) ∧
  outgoing s' = outgoing s ∧ (patience s' ≤ patience s)%nat.

Lemma RecvSocket_spec fuel buf n s :
  0 ≤ n ≤ INT64_MAX → (Z.to_nat n + patience s < fuel)%nat →
  wpe (RecvSocket fuel buf n s) (received buf n s)
    (λ e, e = OutOfBounds ∧ len buf < Z.min n (len (incoming s))).
Proof.
  intros Hn Hf. unfold RecvSocket.
  apply (wpe_loop (λ '(off, rem, b, s'), off + rem = n ∧ 0 ≤ off ≤ len buf ∧ 0 ≤ rem ∧
      off ≤ len (incoming s) ∧ b = take (Z.to_nat off) (incoming s) ++ drop (Z.to_nat off) buf ∧
      incoming s' = drop (Z.to_nat off) (incoming s) ∧ outgoing s' = outgoing s ∧
      (patience s' ≤ patience s)%nat)
    (λ '(off, rem, b, s'), (Z.to_nat rem + patience s')%nat)).
  2: { split_and!; try done; try lia; unfold len; lia. }
  2: lia.
  intros [[[off rem] b] s1] (Hsum & Ho & Hr & Hoi & -> & Hin & Hout & Hp).
  unfold recv_body. rewrite to_u64_id by int_lia.
  pose proof (recv_law rem s1 Hr) as Hl. pose proof (recv_reliable rem s1) as Hrel. unfold recv_spec in Hl.
  destruct (recv rem s1) as [[bs| |] s2]; simpl in Hrel; [| |done].
  - destruct Hl as (Hi & Hlen & Heof & Hout2 & Hp2). rewrite Hin in Hi.
    assert (Hli : off + len bs ≤ len (incoming s)).
    { apply (f_equal length) in Hi. rewrite length_app, length_drop in Hi. unfold len in *. lia. }
    destruct (Z.le_gt_cases (off + len bs) (len buf)) as [Hfit|Hfit].
    2: { rewrite mwrite_err; [simpl; split; [done|lia]|lia|]. unfold len in *.
         rewrite length_app, length_take, length_drop. lia. }
    rewrite (fill_step (incoming s) buf bs (incoming s2) off) by (done || lia). simpl.
    assert (Hd : drop (Z.to_nat (off + len bs)) (incoming s) = incoming s2).
    { replace (Z.to_nat (off + len bs)) with (Z.to_nat off + length bs)%nat by (unfold len in *; lia).
      rewrite <- drop_drop, Hi. by rewrite drop_app_length. }
    assert (Hgot : off + len bs = n ∨ off + len bs = len (incoming s) →
      take (Z.to_nat n) (incoming s) = take (Z.to_nat (off + len bs)) (incoming s) ∧
      length (take (Z.to_nat n) (incoming s)) = Z.to_nat (off + len bs)).
    { intros [He|He]; [rewrite He; split; [done|]; rewrite length_take; unfold len in *; lia|].
      rewrite He. rewrite !take_ge by (unfold len in *; lia). unfold len. split; [done|lia]. }
    destruct (Z.eqb_spec (len bs) rem) as [He|He].
    + simpl. destruct (Hgot ltac:(lia)) as [Hg1 Hg2].
      rewrite (proj2 (Z.leb_le _ _)) by lia. rewrite Hg2, Hg1.
      replace n with (off + len bs) by lia.
      split_and!; try done; try congruence; [|lia]. rewrite <- Hg1. unfold len in *. rewrite Hg2. lia.
    + destruct (Z.ltb_spec 0 (len bs)) as [Hpos|Hz].
      * rewrite ladd_ok, lsub_ok by int_lia. simpl.
        split; [|unfold len in *; lia]. split_and!; try done; try lia; congruence.
      * assert (Hz' : len bs = 0) by (unfold len in *; lia). rewrite Hz' in *. simpl.
        assert (Hnil : bs = []) by (destruct bs; [done|unfold len in Hz'; simpl in Hz'; lia]).
        specialize (Heof Hnil ltac:(lia)). rewrite Hin in Heof.
        apply (f_equal length) in Heof. rewrite length_drop in Heof. simpl in Heof.
        destruct (Hgot ltac:(unfold len in *; lia)) as [Hg1 Hg2].
        rewrite (proj2 (Z.leb_gt _ _)) by (unfold len in *; lia). rewrite Hg2, Hg1.
        split_and!; try done; try congruence; [| |lia].
        -- rewrite <- Hg1. unfold len in *. rewrite Hg2. lia.
        -- rewrite <- Hd, !drop_ge by (unfold len in *; lia). done.
  - destruct Hl as (Hi & Hout2 & Hp2). simpl.
    destruct rem as [|q|q]; [| |lia]; simpl; (split; [|lia]);
      split_and!; try done; try lia; congruence.
Qed.

(** What a transfer of the first [n] bytes of [buf] leaves. *)
Definition sent (data : list Z) (s s' : S) : Prop :=
  outgoing s' = outgoing s ++ data ∧ incoming s' = incoming s ∧ (patience s' ≤ patience s)%nat.

Lemma SendSocket_spec fuel buf n s :
  0 ≤ n ≤ len buf → n ≤ INT64_MAX → (Z.to_nat n + patience s < fuel)%nat →
  wp (SendSocket fuel buf n s) (λ '(ret, s'), ret = 0 ∧ sent (take (Z.to_nat n) buf) s s').
Proof.
  intros Hn Hmax Hf. unfold SendSocket.
  apply (wp_loop (λ '(off, rem, s'), off + rem = n ∧ 0 ≤ off ∧ 0 ≤ rem ∧ sent (take (Z.to_nat off) buf) s s')
    (λ '(off, rem, s'), (Z.to_nat rem + patience s')%nat)).
  2: { split; [lia|]. split; [lia|]. split; [lia|]. unfold sent. simpl. by rewrite app_nil_r. }
  2: lia.
  intros [[off rem] s1] (Hsum & Ho & Hr & Hout & Hin & Hp).
  unfold send_body. rewrite mread_ok by lia. simpl. unfold sent in *.
  set (data := take (Z.to_nat rem) (drop (Z.to_nat off) buf)).
  assert (Hld : len data = rem).
  { unfold data, len in *. rewrite length_take, length_drop. lia. }
  assert (Htake : ∀ k, 0 ≤ k ≤ rem → take (Z.to_nat off) buf ++ take (Z.to_nat k) data =
            take (Z.to_nat (off + k)) buf).
  { intros k Hk. unfold data. rewrite take_take, Nat.min_l by lia.
    replace (Z.to_nat (off + k)) with (Z.to_nat off + Z.to_nat k)%nat by lia.
    by rewrite take_take_drop. }
  pose proof (send_law data s1) as Hl. pose proof (send_reliable data s1) as Hrel. unfold send_spec in Hl.
  destruct (send data s1) as [[k| |] s2]; simpl in Hrel; [| |done].
  - destruct Hl as (Hk & Hpos & Hout2 & Hin2 & Hp2). rewrite Hld in Hk.
    rewrite Hout, <- app_assoc, Htake in Hout2 by lia.
    destruct (Z.eqb_spec k rem) as [->|Hne].
    + simpl. rewrite <- Hsum. split_and!; try done; try congruence. lia.
    + assert (Hk0 : 0 < k).
      { apply Hpos. intros Hnil. rewrite Hnil in Hld. unfold len in Hld. simpl in Hld. lia. }
      rewrite (proj2 (Z.ltb_lt _ _)) by lia. rewrite ladd_ok, lsub_ok by int_lia. simpl.
      split; [|lia]. split_and!; try done; try lia. congruence.
  - destruct Hl as (Hin2 & Hout2 & Hp2). simpl.
    destruct rem as [|q|q]; [| |lia]; simpl; (split; [|lia]);
      split_and!; try done; try lia; congruence.
Qed.

Lemma SendBuff_spec fuel buff n s :
  0 ≤ n ≤ len buff → n ≤ INT64_MAX → (8 + Z.to_nat n + patience s < fuel)%nat →
  wp (SendBuff fuel buff n s)
    (λ '(ok, s'), ok = true ∧ sent (frame (take (Z.to_nat n) buff)) s s').
Proof.
  intros Hn Hmax Hf. unfold SendBuff.
  apply wp_bind. eapply wp_mono; [apply SendSocket_spec; [rewrite len_bytes_of_i64; lia|int_lia|lia]|].
  intros [r1 s1] (-> & Ho1 & Hi1 & Hp1). simpl.
  apply wp_bind. eapply wp_mono; [apply (SendSocket_spec fuel buff n s1); lia|].
  intros [r2 s2] (-> & Ho2 & Hi2 & Hp2). simpl. split; [done|]. unfold sent, frame.
  rewrite len_take by lia. rewrite take_ge in Ho1 by (unfold bytes_of_i64; by rewrite length_le_bytes).
  split_and!; [|congruence|lia]. by rewrite Ho2, Ho1, <- app_assoc.
Qed.

(** Receiving a frame into a buffer that can hold it. *)
Lemma RecvBuff_frame fuel buff data rest s :
  incoming s = frame data ++ rest → len data ≤ len buff → len data ≤ INT64_MAX →
  (8 + length data + patience s < fuel)%nat →
  wp (RecvBuff fuel buff s)
    (λ '(l, buff', s'), l = len data ∧ buff' = data ++ drop (length data) buff ∧
       incoming s' = rest ∧ outgoing s' = outgoing s ∧ (patience s' ≤ patience s)%nat).
Proof.
  intros Hi Hb Hmax Hf. unfold RecvBuff.
  assert (Hlen8 : length (bytes_of_i64 (len data)) = 8%nat) by (unfold bytes_of_i64; by rewrite length_le_bytes).
  pose proof (RecvSocket_spec fuel (bytes_of_i64 0) 8 s ltac:(int_lia) ltac:(lia)) as H1.
  destruct (RecvSocket fuel (bytes_of_i64 0) 8 s) as [[[r1 b1] s1]|e]; simpl in H1 |- *.
  2: { destruct H1 as [_ H1]. rewrite len_bytes_of_i64 in H1. lia. }
  destruct H1 as (_ & _ & Hb1 & Hi1 & Ho1 & Hp1). unfold frame in Hi. rewrite <- app_assoc in Hi.
  assert (Ht8 : take (Z.to_nat 8) (incoming s) = bytes_of_i64 (len data)).
  { rewrite Hi. by rewrite take_app_length'. }
  assert (Hd8 : drop (Z.to_nat 8) (incoming s) = data ++ rest).
  { rewrite Hi. by rewrite drop_app_length'. }
  change (Pos.to_nat 8) with (Z.to_nat 8) in *. rewrite Ht8 in Hb1. rewrite Hd8 in Hi1.
  rewrite Hb1, i64_bytes_round by (pose proof (len_nonneg data); int_lia).
  pose proof (RecvSocket_spec fuel buff (len data) s1 ltac:(pose proof (len_nonneg data); lia)
    ltac:(unfold len; lia)) as H2.
  destruct (RecvSocket fuel buff (len data) s1) as [[[r2 b2] s2]|e]; simpl in H2 |- *; [|lia].
  destruct H2 as (_ & _ & Hb2 & Hi2 & Ho2 & Hp2). rewrite Hi1 in Hb2, Hi2.
  replace (Z.to_nat (len data)) with (length data) in * by (unfold len; lia).
  rewrite take_app_length in Hb2. rewrite drop_app_length in Hi2.
  split_and!; try done; [congruence|lia].
Qed.
End Transfer.

(** ** A concrete connection

    [t_sched] is how much each call transfers at most, [0] being [EAGAIN]; when
    it is used up a call transfers all it can. *)
Record Tcp : Type := MkTcp { t_in : list Z; t_out : list Z; t_sched : list nat }.

Definition tcp_recv (n : Z) (s : Tcp) : recv_result * Tcp :=
  let give k sched :=
    let k := Nat.min k (Z.to_nat n) in
    (RBytes (take k (t_in s)), MkTcp (drop k (t_in s)) (t_out s) sched) in
  match t_sched s with
  | [] => give (Z.to_nat n) []
  | O :: sched => (RAgain, MkTcp (t_in s) (t_out s) sched)
  | k :: sched => give k sched
  end.
Definition tcp_send (bs : list Z) (s : Tcp) : send_result * Tcp :=
  let take_ k sched :=
    let k := Nat.min k (length bs) in
    (SBytes (Z.of_nat k), MkTcp (t_in s) (t_out s ++ take k bs) sched) in
  match t_sched s with
  | [] => take_ (length bs) []
  | O :: sched => (SAgain, MkTcp (t_in s) (t_out s) sched)
  | k :: sched => take_ k sched
  end.

#[export] Instance tcp_socket : Socket Tcp := {
  recv := tcp_recv;
  send := tcp_send;
  incoming := t_in;
  outgoing := t_out;
  patience s := length (t_sched s);
}.

#[local] Arguments Nat.min : simpl never.

#[export] Instance tcp_laws : SocketLaws Tcp.
Proof.
  assert (Hnil : ∀ k (l : list Z), take k l = [] → (0 < k)%nat → l = []) by (intros [|k] [|x l]; done || lia).
  assert (Hrecv : ∀ n k (i : list Z), 0 ≤ n → (0 < k)%nat ∨ n = 0 →
    let k' := Nat.min k (Z.to_nat n) in
    i = take k' i ++ drop k' i ∧ len (take k' i) ≤ n ∧ (take k' i = [] → 0 < n → i = [])).
  { intros n k i Hn Hk k'. split_and!.
    - by rewrite take_drop.
    - unfold len. rewrite length_take. lia.
    - intros Ht Hpos. eapply Hnil; [done|]. lia. }
  assert (Hsend : ∀ k (bs : list Z), (0 < k)%nat ∨ bs = [] →
    let k' := Nat.min k (length bs) in 0 ≤ Z.of_nat k' ≤ len bs ∧ (bs ≠ [] → 0 < Z.of_nat k') ∧
    Z.to_nat (Z.of_nat k') = k').
  { intros k bs Hk k'. unfold len. split_and!; try lia. destruct bs; simpl in *; [done|].
    destruct Hk; [lia|done]. }
  constructor.
  - intros n [i o [|[|k] sched]] Hn; unfold recv_spec; simpl.
    + destruct (Hrecv n (Z.to_nat n) i Hn ltac:(lia)) as (? & ? & ?). split_and!; done || lia.
    + split_and!; done || lia.
    + destruct (Hrecv n (S k) i Hn ltac:(lia)) as (? & ? & ?). split_and!; done || lia.
  - intros bs [i o [|[|k] sched]]; unfold send_spec; simpl.
    + destruct (Hsend (length bs) bs) as (? & ? & ->); [destruct bs; simpl; [by right|left; lia]|].
      split_and!; done || lia.
    + split_and!; done || lia.
    + destruct (Hsend (S k) bs) as (? & ? & He); [left; lia|]. simpl in He. rewrite He.
      split_and!; done || lia.
Qed.

#[export] Instance tcp_reliable : Reliable Tcp.
Proof. constructor; intros ? [i o [|[|k] sched]]; done. Qed.

(** ** Properties *)

(** C26: [RecvSocket] on a connection that does not break terminates; it stores
    the next [n] bytes, or all there are before the end of the stream, in order
    at the start of the buffer and nothing else; it returns 0 when it got all
    [n] and -1 when the stream ended first (never 1), and it writes outside the
    buffer exactly when more arrives than fits. *)
Theorem recv_socket_correct {S} `{SocketLaws S} `{!Reliable S} fuel buf n (s : S) :
  0 ≤ n ≤ INT64_MAX → (Z.to_nat n + patience s < fuel)%nat →
  if Z.min n (len (incoming s)) <=? len buf
  then wp (RecvSocket fuel buf n s) (received buf n s)
  else RecvSocket fuel buf n s = Err OutOfBounds.
Proof.
  intros Hn Hf. pose proof (RecvSocket_spec fuel buf n s Hn Hf) as Hs.
  destruct (Z.leb_spec (Z.min n (len (incoming s))) (len buf)).
  - destruct (RecvSocket fuel buf n s); simpl in *; [done|lia].
  - destruct (RecvSocket fuel buf n s) as [[[ret b] s']|e]; simpl in *; [|by destruct Hs as [-> _]].
    destruct Hs as (_ & Hg & _). unfold len in *. rewrite length_take in Hg. lia.
Qed.

Lemma recv_socket_correct_witness :
  wp (RecvSocket 20 [0; 0; 0; 0] 3 (MkTcp [7; 8; 9; 10] [] [1; 0; 1]%nat))
    (λ '(ret, b, s), ret = 0 ∧ b = [7; 8; 9; 0]).
Proof.
  assert (Hn : 0 ≤ 3 ≤ INT64_MAX) by int_lia.
  assert (Hf : (Z.to_nat 3%Z + patience (MkTcp [7; 8; 9; 10]%Z [] [1; 0; 1]) < 20)%nat) by (simpl; lia).
  refine (wp_mono _ (received [0; 0; 0; 0] 3 (MkTcp [7; 8; 9; 10] [] [1; 0; 1]%nat)) _
    (recv_socket_correct 20 [0; 0; 0; 0] 3 (MkTcp [7; 8; 9; 10] [] [1; 0; 1]%nat) Hn Hf) _).
  intros [[ret b] s] (-> & _ & -> & _). done.
Defined.

(** C22: What one end sends with [SendBuff] is what the other receives with
    [RecvBuff], whatever the sizes of the pieces [send] and [recv] transfer: the
    length, and the data at the start of the buffer; what follows in the stream
    is left for the next call. *)
Theorem send_recv_round_trip {S} `{SocketLaws S} `{!Reliable S} fuel buff n buff2 rest (a b : S) :
  0 ≤ n ≤ len buff → n ≤ INT64_MAX → n ≤ len buff2 →
  (8 + Z.to_nat n + patience a < fuel)%nat → (8 + Z.to_nat n + patience b < fuel)%nat →
  wp (SendBuff fuel buff n a) (λ '(ok, a'), ok = true ∧
    (outgoing a ++ incoming b = outgoing a' ++ rest →
     wp (RecvBuff fuel buff2 b) (λ '(l, buff2', b'),
       l = n ∧ take (Z.to_nat n) buff2' = take (Z.to_nat n) buff ∧ incoming b' = rest))).
Proof.
  intros Hn Hmax Hb Hfa Hfb.
  eapply wp_mono; [by apply SendBuff_spec|]. intros [ok a'] (-> & Ho & _ & _). split; [done|].
  rewrite Ho, <- app_assoc. intros Hi%app_inv_head.
  assert (Hl : len (take (Z.to_nat n) buff) = n) by (by apply len_take).
  assert (Hln : length (take (Z.to_nat n) buff) = Z.to_nat n) by (unfold len in Hl; lia).
  eapply wp_mono; [apply (RecvBuff_frame fuel buff2 _ rest b Hi); rewrite ?Hl, ?Hln; lia|].
  intros [[l b2] b'] (-> & -> & Hr & _). split_and!; [done| |done].
  by rewrite take_app_length' by (by rewrite Hln).
Qed.

(** Three bytes, sent in pieces of 2, 3 and the rest, arrive in pieces of 1, 4 and
    the rest, with a byte of what was sent next behind them. *)
Definition demo_sender : Tcp := MkTcp [] [] [2; 0; 3]%nat.
Definition demo_receiver : Tcp := MkTcp (frame [5; 6; 7] ++ [9]) [] [1; 0; 4]%nat.

Lemma send_recv_round_trip_witness :
  wp (SendBuff 40 [5; 6; 7] 3 demo_sender) (λ '(ok, a'), ok = true ∧ t_out a' = frame [5; 6; 7] ∧
    wp (RecvBuff 40 [0; 0; 0; 0] demo_receiver) (λ '(l, buff', b'), l = 3 ∧ take 3 buff' = [5; 6; 7] ∧ t_in b' = [9])).
Proof.
  assert (Hs : SendBuff 40 [5; 6; 7] 3 demo_sender = Ok (true, MkTcp [] (frame [5; 6; 7]) [])) by (vm_compute; reflexivity).
  assert (H : wp (SendBuff 40 [5; 6; 7] 3 demo_sender) (λ '(ok, a'), ok = true ∧
    (outgoing demo_sender ++ incoming demo_receiver = outgoing a' ++ [9] →
     wp (RecvBuff 40 [0; 0; 0; 0] demo_receiver) (λ '(l, buff2', b'),
       l = 3 ∧ take (Z.to_nat 3) buff2' = take (Z.to_nat 3) [5; 6; 7] ∧ incoming b' = [9])))).
  { apply (send_recv_round_trip 40 [5; 6; 7] 3 [0; 0; 0; 0] [9] demo_sender demo_receiver); unfold len; simpl; int_lia. }
  rewrite Hs in H |- *. destruct H as [_ H]. split; [done|]. split; [done|]. exact (H eq_refl).
Defined.

(** C24: [RecvBuff] trusts the length it receives: a peer that announces more
    than the buffer holds, and sends it, makes it write past the end. *)
Theorem recv_buff_overflow {S} `{SocketLaws S} `{!Reliable S} fuel buff n data (s : S) :
  incoming s = bytes_of_i64 n ++ data → n ≤ INT64_MAX → len buff < n → len buff < len data →
  (8 + Z.to_nat n + patience s < fuel)%nat →
  RecvBuff fuel buff s = Err OutOfBounds.
Proof.
  intros Hi Hn Hb Hd Hf. unfold RecvBuff. pose proof (len_nonneg buff) as Hnn.
  assert (Hlen8 : length (bytes_of_i64 n) = 8%nat) by (unfold bytes_of_i64; by rewrite length_le_bytes).
  pose proof (RecvSocket_spec fuel (bytes_of_i64 0) 8 s ltac:(int_lia) ltac:(lia)) as H1.
  destruct (RecvSocket fuel (bytes_of_i64 0) 8 s) as [[[r1 b1] s1]|e]; simpl in H1 |- *.
  2: { destruct H1 as [_ H1]. rewrite len_bytes_of_i64 in H1. lia. }
  destruct H1 as (_ & _ & Hb1 & Hi1 & _ & Hp1). change (Pos.to_nat 8) with 8%nat in *.
  rewrite Hi, take_app_length' in Hb1 by done. rewrite Hi, drop_app_length' in Hi1 by done.
  rewrite Hb1, i64_bytes_round by int_lia.
  pose proof (RecvSocket_spec fuel buff n s1 ltac:(lia) ltac:(lia)) as H2.
  destruct (RecvSocket fuel buff n s1) as [[[r2 b2] s2]|e]; simpl in H2 |- *; [|by destruct H2 as [-> _]].
  destruct H2 as (_ & Hg & _). rewrite Hi1 in Hg. unfold len in *. rewrite length_take in Hg. lia.
Qed.

(** The server's [cmd[256]] and a request of 300 bytes. *)
Lemma recv_buff_overflow_witness :
  RecvBuff 400 (replicate 256 0) (MkTcp (bytes_of_i64 300 ++ replicate 300 65) [] []) = Err OutOfBounds.
Proof.
  apply (recv_buff_overflow 400 (replicate 256 0) 300 (replicate 300 65));
    [done|int_lia|unfold len; simpl; lia|unfold len; simpl; lia|simpl; lia].
Defined.

(** [RecvBuff] ignores the results of its transfers: when the stream ends
    before the data is complete it still returns the announced length, although
    the rest of the buffer was not written. *)
Theorem recv_buff_truncated {S} `{SocketLaws S} `{!Reliable S} fuel buff n data (s : S) :
  incoming s = bytes_of_i64 n ++ data → len data < n ≤ INT64_MAX → len data ≤ len buff →
  (8 + Z.to_nat n + patience s < fuel)%nat →
  wp (RecvBuff fuel buff s) (λ '(l, buff', s'), l = n ∧ buff' = data ++ drop (length data) buff).
Proof.
  intros Hi Hn Hb Hf. unfold RecvBuff. pose proof (len_nonneg data) as Hnn.
  assert (Hlen8 : length (bytes_of_i64 n) = 8%nat) by (unfold bytes_of_i64; by rewrite length_le_bytes).
  pose proof (RecvSocket_spec fuel (bytes_of_i64 0) 8 s ltac:(int_lia) ltac:(lia)) as H1.
  destruct (RecvSocket fuel (bytes_of_i64 0) 8 s) as [[[r1 b1] s1]|e]; simpl in H1 |- *.
  2: { destruct H1 as [_ H1]. rewrite len_bytes_of_i64 in H1. lia. }
  destruct H1 as (_ & _ & Hb1 & Hi1 & _ & Hp1). change (Pos.to_nat 8) with 8%nat in *.
  rewrite Hi, take_app_length' in Hb1 by done. rewrite Hi, drop_app_length' in Hi1 by done.
  rewrite Hb1, i64_bytes_round by int_lia.
  pose proof (RecvSocket_spec fuel buff n s1 ltac:(lia) ltac:(lia)) as H2.
  destruct (RecvSocket fuel buff n s1) as [[[r2 b2] s2]|e]; simpl in H2 |- *; [|rewrite Hi1 in H2; lia].
  destruct H2 as (_ & _ & Hb2 & _). rewrite Hi1, take_ge in Hb2 by (unfold len in *; lia). done.
Qed.

Lemma recv_buff_truncated_witness :
  wp (RecvBuff 40 [0; 0; 0; 0] (MkTcp (bytes_of_i64 4 ++ [1; 2]) [] []))
    (λ '(l, buff', s'), l = 4 ∧ buff' = [1; 2; 0; 0]).
Proof.
  apply (recv_buff_truncated 40 [0; 0; 0; 0] 4 [1; 2]);
    [done|unfold len; simpl; int_lia|unfold len; simpl; lia|simpl; lia].
Defined.
