(* ===== verification/SyncFile.v ===== *)
(** * tools/sync_file/file_operation/sync_file.{h,cpp}: a file sent in pieces and
    written at the other end.

    The file system is a map from names to contents; which names can be created
    is a parameter.  A [std::fstream] is the file it is open on, its position and
    its [failbit].  Names and texts are bytes; a C string is an array read up to
    its first zero. *)
From S2P Require Import Prelude CInt CArray Float64 EpollSocket.

Abbreviation fsys := (gmap (list Z) (list Z)).

Record stream : Type := MkStream { s_name : list Z; s_pos : Z; s_fail : bool }.
Record SyncFileTool : Type := MkTool { file_name_ : list Z; file_os_ : option stream }.

(** [SyncFileTool::SyncFileTool()] leaves the name array as it is; nothing reads
    it before [InitRead] or [InitWrite] clears it. *)
Definition new_tool : SyncFileTool := MkTool (replicate 256 0) None.

(** The C string at the start of an array. *)
Fixpoint cstring (buf : list Z) : res (list Z) :=
  match buf with
  | [] => Err OutOfBounds
  | b :: buf => if b =? 0 then mret [] else s ← cstring buf; mret (b :: s)
  end.

(** ".copy" *)
Definition copy_suffix : list Z := [46; 99; 111; 112; 121].

(** The loops count [file_arr] down to 0; the state carries the index and the
    sum of the log line. *)
Record loop_state (A : Type) : Type := MkLoop {
  file_arr : Z; buff_len : Z; index : Z; sum_index : Z; buff : list Z; inner : A }.
Arguments MkLoop {A}. Arguments file_arr {A}. Arguments buff_len {A}. Arguments index {A}.
Arguments sum_index {A}. Arguments buff {A}. Arguments inner {A}.

Definition more {A} (st : loop_state A) : res bool := mret (negb (file_arr st =? 0)).

Section Code.
Context (writable : list Z → bool).
Context {S : Type} `{Socket S}.

(** [memset] and [memcpy] into [file_name_], and the name [open] sees. *)
Definition set_name (file_name : list Z) (l : Z) : res (list Z * list Z) :=
  bytes ← mread 0 l file_name;
  file_name_ ← mwrite 0 bytes (replicate 256 0);
  name ← cstring file_name_;
  mret (file_name_, name).

Definition InitRead (file_name : list Z) (l : Z) (fs : fsys) (t : SyncFileTool) : res (bool * SyncFileTool) :=
  '(file_name_, name) ← set_name file_name l;
  let os := match file_os_ t with
            | Some st => Some (MkStream (s_name st) (s_pos st) true)
            | None => match fs !! name with Some _ => Some (MkStream name 0 false) | None => None end
            end in
  mret (bool_decide (is_Some os), MkTool file_name_ os).

Definition InitWrite (file_name : list Z) (l : Z) (fs : fsys) (t : SyncFileTool) :
    res (bool * fsys * SyncFileTool) :=
  '(file_name_, name) ← set_name file_name l;
  match file_os_ t with
  | Some st => mret (true, fs, MkTool file_name_ (Some (MkStream (s_name st) (s_pos st) true)))
  | None =>
      if writable name
      then mret (true, <[name := []]> fs, MkTool file_name_ (Some (MkStream name 0 false)))
      else mret (false, fs, MkTool file_name_ None)
  end.

Definition content (fs : fsys) (st : stream) : list Z := default [] (fs !! s_name st).

(** [tellg] after [seekg] to the end, and back to the beginning. *)
Definition GetFileSize (fs : fsys) (t : SyncFileTool) : Z * SyncFileTool :=
  match file_os_ t with
  | Some st =>
      if s_fail st then (-1, t)
      else (len (content fs st), MkTool (file_name_ t) (Some (MkStream (s_name st) 0 false)))
  | None => (0, t)
  end.

(** [read] stops at the end of the file and then sets [failbit]; a failed stream
    reads nothing.  The new value of [*len] is returned with the buffer. *)
Definition ReadFile (buff : list Z) (l : Z) (fs : fsys) (t : SyncFileTool) :
    res (bool * list Z * Z * SyncFileTool) :=
  match file_os_ t with
  | Some st =>
      if s_fail st then mret (false, buff, 0, t)
      else
        let bytes := take (Z.to_nat l) (drop (Z.to_nat (s_pos st)) (content fs st)) in
        buff ← mwrite 0 bytes buff;
        let gcount := len bytes in
        mret (negb (gcount =? 0), buff, gcount,
              MkTool (file_name_ t) (Some (MkStream (s_name st) (s_pos st + gcount) (gcount <? l))))
  | None => mret (false, buff, 0, t)
  end.

Definition WriteFile (buff : list Z) (l : Z) (fs : fsys) (t : SyncFileTool) : res (bool * fsys * SyncFileTool) :=
  match file_os_ t with
  | Some st =>
      if s_fail st then mret (true, fs, t)
      else
        bytes ← mread 0 l buff;
        let data := take (Z.to_nat (s_pos st)) (content fs st) ++ bytes in
        mret (true, <[s_name st := data]> fs,
              MkTool (file_name_ t) (Some (MkStream (s_name st) (s_pos st + l) false)))
  | None => mret (true, fs, t)
  end.

(** [std::ceil((double)file_len / file_split_len)] as an [int]. *)
Definition file_pieces (file_len file_split_len : Z) : res Z :=
  f64_to_i32 (f64_ceil (f64_div (f64_of_Z file_len) (f64_of_Z file_split_len))).

Definition send_piece (fuel : nat) (split : Z) (fs : fsys) (st : loop_state (SyncFileTool * S)) :
    res (loop_state (SyncFileTool * S)) :=
  let '(t, s) := inner st in
  file_arr ← isub (file_arr st) 1;
  index ← ladd (index st) 1;
  '(_, buff, buff_len, t) ← ReadFile (buff st) (buff_len st) fs t;
  '(_, s) ← SendBuff fuel buff buff_len s;
  sum_index ← ladd (sum_index st) buff_len;
  mret (MkLoop file_arr split index sum_index (replicate (Z.to_nat split) 0) (t, s)).

Definition SyncSendFile (fuel : nat) (filename : list Z) (l : Z) (fs : fsys) (t : SyncFileTool) (s : S) :
    res (bool * SyncFileTool * S) :=
  '(_, t) ← InitRead filename l fs t;
  let file_split_len := 2048 in
  let '(file_len, t) := GetFileSize fs t in
  let file_infos := bytes_of_i64 file_len ++ bytes_of_i64 file_split_len in
  '(_, s) ← SendBuff fuel file_infos 16 s;
  file_arr ← file_pieces file_len file_split_len;
  let buff := replicate (Z.to_nat file_split_len) 0 in
  st ← while fuel more (send_piece fuel file_split_len fs)
         (MkLoop file_arr file_split_len 0 0 buff (t, s));
  mret (true, (inner st).1, (inner st).2).

Definition recv_piece (fuel : nat) (split : Z) (st : loop_state (fsys * SyncFileTool * S)) :
    res (loop_state (fsys * SyncFileTool * S)) :=
  let '(fs, t, s) := inner st in
  file_arr ← isub (file_arr st) 1;
  index ← ladd (index st) 1;
  '(buff_len, buff, s) ← RecvBuff fuel (buff st) s;
  sum_index ← ladd (sum_index st) buff_len;
  '(_, fs, t) ← WriteFile buff buff_len fs t;
  mret (MkLoop file_arr split index sum_index (replicate (Z.to_nat split) 0) (fs, t, s)).

Definition SyncRecvFile (fuel : nat) (filename : list Z) (l : Z) (fs : fsys) (t : SyncFileTool) (s : S) :
    res (bool * fsys * SyncFileTool * S) :=
  name ← cstring filename;
  file_buff ← mwrite 0 (name ++ copy_suffix ++ [0]) (replicate 256 0);
  copy ← cstring file_buff;
  '(_, fs, t) ← InitWrite file_buff (len copy) fs t;
  '(_, s) ← SendBuff fuel filename l s;
  '(_, file_infos, s) ← RecvBuff fuel (bytes_of_i64 0 ++ bytes_of_i64 0) s;
  let file_len := i64_of_bytes file_infos in
  let file_split_len := i64_of_bytes (drop 8 file_infos) in
  file_arr ← file_pieces file_len file_split_len;
  buff ← (if file_split_len <? 1 then Err OutOfBounds else mret (replicate (Z.to_nat file_split_len) 0));
  st ← while fuel more (recv_piece fuel file_split_len)
         (MkLoop file_arr file_split_len 0 0 buff (fs, t, s));
  mret (true, (inner st).1.1, (inner st).1.2, (inner st).2).
End Code.

(** ** The protocol *)

(** The [k]-th piece of [P] bytes of a file, the first [n] pieces framed, and
    the whole answer to a request. *)
Definition upto (P : Z) (k : nat) : nat := Z.to_nat (P * Z.of_nat k).
Definition piece (P : Z) (c : list Z) (k : nat) : list Z := take (Z.to_nat P) (drop (upto P k) c).
Definition pieces (P : Z) (c : list Z) (n : nat) : list Z := concat ((λ k, frame (piece P c k)) <$> seq 0 n).
Definition piece_count (P : Z) (c : list Z) : nat := Z.to_nat (cdiv (len c) P).
Definition reply (c : list Z) : list Z :=
  frame (bytes_of_i64 (len c) ++ bytes_of_i64 2048) ++ pieces 2048 c (piece_count 2048 c).

(** ** Lemmas *)
#[local] Arguments replicate : simpl never.
#[local] Arguments Z.to_nat : simpl never.
#[local] Arguments Z.mul : simpl never.

Lemma file_pieces_ok n : 0 ≤ n ≤ 2048 * INT_MAX → file_pieces n 2048 = Ok (cdiv n 2048).
Proof.
  intros Hn. unfold file_pieces, f64_to_i32.
  assert (Ht : f64_trunc (f64_ceil (f64_div (f64_of_Z n) (f64_of_Z 2048))) = Some (cdiv n 2048)).
  { destruct (decide (n = 0)) as [->|]; [done|].
    apply (f64_ceil_div_pow2 n 11); int_lia. }
  rewrite Ht. unfold in_int. pose proof (cdiv_spec n 2048 ltac:(lia)).
  by rewrite !(proj2 (Z.leb_le _ _)) by int_lia.
Qed.

Section Pieces.
Context (P : Z) (HP : 0 < P).

Lemma upto_S k : upto P (S k) = (upto P k + Z.to_nat P)%nat.
Proof. unfold upto. lia. Qed.

(** Before the last piece there is something left; after it nothing is. *)
Lemma upto_lt c k : (k < piece_count P c)%nat → (upto P k < length c)%nat.
Proof.
  unfold upto, piece_count. intros Hk. pose proof (cdiv_spec (len c) P HP) as [H1 _]. unfold len in *.
  assert (P * Z.of_nat k ≤ P * (cdiv (Z.of_nat (length c)) P - 1)) by (apply Z.mul_le_mono_nonneg_l; lia).
  lia.
Qed.
Lemma upto_all c : (length c ≤ upto P (piece_count P c))%nat.
Proof.
  unfold upto, piece_count. pose proof (cdiv_spec (len c) P HP) as [_ H2]. unfold len in *.
  assert (0 ≤ cdiv (Z.of_nat (length c)) P) by nia. lia.
Qed.
Lemma piece_count_cdiv c : Z.of_nat (piece_count P c) = cdiv (len c) P.
Proof.
  unfold piece_count. pose proof (cdiv_spec (len c) P HP) as [_ H2]. pose proof (len_nonneg c).
  assert (0 ≤ cdiv (len c) P) by nia. lia.
Qed.

Lemma piece_take c k : take (upto P (S k)) c = take (upto P k) c ++ piece P c k.
Proof. unfold piece. by rewrite take_take_drop, upto_S. Qed.

Lemma pieces_S c n : pieces P c (S n) = pieces P c n ++ frame (piece P c n).
Proof. unfold pieces. rewrite seq_S, fmap_app, concat_app. simpl. by rewrite app_nil_r. Qed.

Lemma piece_len c k : (k < piece_count P c)%nat → 0 < len (piece P c k) ≤ P.
Proof. intros Hk%upto_lt. unfold piece, len. rewrite length_take, length_drop. lia. Qed.

(** A piece that is not the last is full. *)
Lemma piece_full c k : (S k < piece_count P c)%nat → len (piece P c k) = P.
Proof.
  intros Hk%upto_lt. rewrite upto_S in Hk. unfold piece, len. rewrite length_take, length_drop. lia.
Qed.

Lemma len_take_S c k : len (take (upto P (S k)) c) = len (take (upto P k) c) + len (piece P c k).
Proof. by rewrite piece_take, len_app. Qed.

Lemma len_take_le (c : list Z) k : 0 ≤ len (take k c) ≤ len c.
Proof. unfold len. rewrite length_take. lia. Qed.

(** The index of the piece a loop is at. *)
Lemma piece_index c a :
  0 ≤ a ≤ Z.of_nat (piece_count P c) → a ≠ 0 →
  let k := (piece_count P c - Z.to_nat a)%nat in
  (k < piece_count P c)%nat ∧ (piece_count P c - Z.to_nat (a - 1))%nat = S k.
Proof. intros Ha Hne k. lia. Qed.

Lemma piece_count_max c : len c ≤ P * INT_MAX → Z.of_nat (piece_count P c) ≤ INT_MAX.
Proof.
  intros Hc. rewrite piece_count_cdiv. pose proof (cdiv_spec (len c) P HP) as [H1 _].
  assert (P * (cdiv (len c) P - 1) < P * INT_MAX) by lia.
  apply Z.mul_lt_mono_pos_l in H; lia.
Qed.
End Pieces.

Lemma cstring_app name rest :
  Forall (λ b, b ≠ 0) name → cstring (name ++ 0 :: rest) = Ok name.
Proof.
  induction 1 as [|b name Hb _ IH]; simpl; [done|]. rewrite (proj2 (Z.eqb_neq _ _)) by done.
  by rewrite IH.
Qed.

Lemma mwrite_zeros bs n :
  (length bs ≤ n)%nat → mwrite 0 bs (replicate n 0) = Ok (bs ++ replicate (n - length bs) 0).
Proof.
  intros Hn. rewrite mwrite_ok; [|lia|unfold len; rewrite length_replicate; lia].
  replace (Z.to_nat (0 + len bs)) with (length bs) by (unfold len; lia). simpl. by rewrite drop_replicate.
Qed.

(** A name a request can carry: no zero byte, and short enough for the arrays
    of 256 bytes, also with ".copy" after it. *)
Definition name_ok (name : list Z) : Prop :=
  Forall (λ b, b ≠ 0) name ∧ (length name < 251)%nat.

Lemma set_name_ok name rest :
  Forall (λ b, b ≠ 0) name → (length name < 256)%nat →
  set_name (name ++ rest) (len name) = Ok (name ++ replicate (256 - length name) 0, name).
Proof.
  intros Hz Hl. unfold set_name. pose proof (len_nonneg name). pose proof (len_nonneg rest).
  rewrite mread_ok by (rewrite ?len_app; lia).
  replace (Z.to_nat (len name)) with (length name) by (unfold len; lia).
  change (drop (Z.to_nat 0) (name ++ rest)) with (name ++ rest). rewrite take_app_length.
  cbn [mbind res_bind]. rewrite mwrite_zeros by lia. cbn [mbind res_bind].
  replace (256 - length name)%nat with (S (255 - length name)) by lia.
  change (replicate (S (255 - length name)) 0) with (0 :: replicate (255 - length name) 0).
  by rewrite cstring_app.
Qed.

Section Proofs.
Context (writable : list Z → bool) {S : Type} `{SocketLaws S} `{!Reliable S}.

Context (P : Z) (HP : 0 < P ≤ 2 ^ 20).

Lemma sent_trans d1 d2 (s1 s2 s3 : S) : sent d1 s1 s2 → sent d2 s2 s3 → sent (d1 ++ d2) s1 s3.
Proof.
  intros (Ho & Hi & Hp) (Ho2 & Hi2 & Hp2). unfold sent. rewrite Ho2, Ho, app_assoc.
  split_and!; [done|congruence|lia].
Qed.

Lemma sent_nil (s : S) : sent [] s s.
Proof. unfold sent. rewrite app_nil_r. split_and!; done || lia. Qed.

(** ** The sender *)
Abbreviation zeros := (replicate (Z.to_nat P) 0).

Lemma ReadFile_piece fs fn name c k :
  fs !! name = Some c → (k < piece_count P c)%nat →
  ReadFile zeros P fs (MkTool fn (Some (MkStream name (P * Z.of_nat k) false))) =
    Ok (true, piece P c k ++ replicate (Z.to_nat P - length (piece P c k)) 0, len (piece P c k),
        MkTool fn (Some (MkStream name (P * Z.of_nat k + len (piece P c k)) (len (piece P c k) <? P)))).
Proof.
  intros Hc Hk. pose proof (piece_len P ltac:(lia) c k Hk) as Hl. unfold ReadFile, content.
  cbn [file_os_ s_fail s_name s_pos]. rewrite Hc. cbn [default].
  change (take _ _) with (piece P c k).
  rewrite mwrite_zeros by (unfold len in Hl; lia). cbn [mbind res_bind].
  by rewrite (proj2 (Z.eqb_neq (len _) 0)) by lia.
Qed.

Definition send_inv (c : list Z) (name fn : list Z) (s0 : S) (st : loop_state (SyncFileTool * S)) : Prop :=
  let i := (piece_count P c - Z.to_nat (file_arr st))%nat in
  0 ≤ file_arr st ≤ Z.of_nat (piece_count P c) ∧ buff_len st = P ∧ buff st = zeros ∧
  index st = Z.of_nat i ∧ sum_index st = len (take (upto P i) c) ∧
  (file_arr st = 0 ∨ (inner st).1 = MkTool fn (Some (MkStream name (P * Z.of_nat i) false))) ∧
  sent (pieces P c i) s0 (inner st).2.

Lemma send_piece_step fuel c fs name fn s0 st :
  fs !! name = Some c → len c ≤ P * INT_MAX → (8 + Z.to_nat P + patience s0 < fuel)%nat →
  send_inv c name fn s0 st → file_arr st ≠ 0 →
  wp (send_piece fuel P fs st) (λ st', send_inv c name fn s0 st' ∧ file_arr st' = file_arr st - 1).
Proof.
  intros Hc Hmax Hf (Ha & Hbl & Hb & Hix & Hsum & Ht & Hsent) Hne.
  destruct st as [a bl ix sm bf [t s]]. simpl in *. subst bl bf ix sm.
  destruct Ht as [?| ->]; [done|]. destruct (piece_index P c a Ha Hne) as [Hk HS].
  set (k := (piece_count P c - Z.to_nat a)%nat) in *.
  pose proof (piece_len P ltac:(lia) c k Hk) as Hl.
  pose proof (piece_count_max P ltac:(lia) c Hmax) as HN.
  unfold send_piece. simpl. unfold isub. rewrite chk32_ok by int_lia. simpl.
  rewrite ladd_ok by int_lia. cbn [mbind res_bind]. rewrite (ReadFile_piece fs fn name c k) by done.
  cbn [mbind res_bind]. apply wp_bind. eapply wp_mono.
  { apply SendBuff_spec; [rewrite len_app; match goal with |- context [len (replicate ?n ?z)] =>
      pose proof (len_nonneg (replicate n z)) end; lia|int_lia|].
    destruct Hsent as (_ & _ & Hp). unfold len in Hl |- *. lia. }
  intros [ok s'] [-> Hs']. rewrite take_app_length' in Hs' by (unfold len; lia).
  pose proof (len_take_le c (upto P k)) as Htl.
  assert (Hmax2 : P * INT_MAX ≤ 2 ^ 20 * INT_MAX) by (apply Z.mul_le_mono_nonneg_r; int_lia).
  rewrite ladd_ok by int_lia. cbn [mbind res_bind]. split; [|done].
  unfold send_inv. simpl. rewrite HS. split_and!; try done; try lia.
  - by rewrite len_take_S by lia.
  - destruct (Z.eq_dec (a - 1) 0) as [He|He]; [by left|right].
    rewrite (piece_full P) by lia. rewrite Z.ltb_irrefl. do 3 f_equal. lia.
  - rewrite pieces_S. by eapply sent_trans.
Qed.

Lemma send_loop_ok fuel c fs name fn s0 st :
  fs !! name = Some c → len c ≤ P * INT_MAX → (8 + Z.to_nat P + patience s0 < fuel)%nat →
  (piece_count P c < fuel)%nat → send_inv c name fn s0 st →
  wp (while fuel more (send_piece fuel P fs) st) (λ st', sent (pieces P c (piece_count P c)) s0 (inner st').2).
Proof.
  intros Hc Hmax Hf Hf2 Hinv.
  apply (wp_while (send_inv c name fn s0) (λ st, Z.to_nat (file_arr st))); [|done|destruct Hinv; lia].
  intros st1 Hi. unfold more. simpl. destruct (Z.eqb_spec (file_arr st1) 0) as [He|He]; simpl.
  - destruct Hi as (_ & _ & _ & _ & _ & _ & Hs). rewrite He, Nat.sub_0_r in Hs. exact Hs.
  - eapply wp_mono; [by apply (send_piece_step fuel c fs name fn s0)|].
    intros st2 [Hi2 He2]. split; [done|]. destruct Hi as [? _]. lia.
Qed.

(** ** The receiver *)

(** The frames from piece [k] on. *)
Definition tail_from (c : list Z) (k : nat) : list Z :=
  concat ((λ k, frame (piece P c k)) <$> seq k (piece_count P c - k)).

Lemma tail_from_S c k :
  (k < piece_count P c)%nat → tail_from c k = frame (piece P c k) ++ tail_from c (Datatypes.S k).
Proof.
  intros Hk. unfold tail_from. destruct (piece_count P c - k)%nat as [|n] eqn:Hn; [lia|].
  replace (piece_count P c - Datatypes.S k)%nat with n by lia. done.
Qed.

Definition recv_inv (c more : list Z) (fs0 : fsys) (name fn : list Z) (s0 : S)
    (st : loop_state (fsys * SyncFileTool * S)) : Prop :=
  let i := (piece_count P c - Z.to_nat (file_arr st))%nat in
  0 ≤ file_arr st ≤ Z.of_nat (piece_count P c) ∧ buff_len st = P ∧ buff st = zeros ∧
  index st = Z.of_nat i ∧ sum_index st = len (take (upto P i) c) ∧
  (inner st).1 = (<[name := take (upto P i) c]> fs0,
                  MkTool fn (Some (MkStream name (len (take (upto P i) c)) false))) ∧
  incoming (inner st).2 = tail_from c i ++ more ∧
  outgoing (inner st).2 = outgoing s0 ∧ (patience (inner st).2 ≤ patience s0)%nat.

Lemma WriteFile_piece fs0 fn name old data rest :
  WriteFile (data ++ rest) (len data) (<[name := old]> fs0) (MkTool fn (Some (MkStream name (len old) false))) =
    Ok (true, <[name := old ++ data]> fs0, MkTool fn (Some (MkStream name (len old + len data) false))).
Proof.
  unfold WriteFile, content. cbn [file_os_ s_fail s_name s_pos]. rewrite lookup_insert_eq.
  cbn [default from_option id]. pose proof (len_nonneg data). pose proof (len_nonneg rest).
  rewrite mread_ok by (rewrite ?len_app; lia). cbn [mbind res_bind].
  change (drop (Z.to_nat 0) (data ++ rest)) with (data ++ rest).
  rewrite take_app_length' by (unfold len; lia). rewrite take_ge by (unfold len; lia).
  by rewrite insert_insert_eq.
Qed.

Lemma recv_piece_step fuel c more fs0 name fn s0 st :
  len c ≤ P * INT_MAX → (8 + Z.to_nat P + patience s0 < fuel)%nat →
  recv_inv c more fs0 name fn s0 st → file_arr st ≠ 0 →
  wp (recv_piece fuel P st) (λ st', recv_inv c more fs0 name fn s0 st' ∧ file_arr st' = file_arr st - 1).
Proof.
  intros Hmax Hf (Ha & Hbl & Hb & Hix & Hsum & Ht & Hin & Hout & Hp) Hne.
  destruct st as [a bl ix sm bf [[fs t] s]]. simpl in *. subst bl bf ix sm.
  injection Ht as -> ->. destruct (piece_index P c a Ha Hne) as [Hk HS].
  set (k := (piece_count P c - Z.to_nat a)%nat) in *.
  pose proof (piece_len P ltac:(lia) c k Hk) as Hl.
  pose proof (piece_count_max P ltac:(lia) c Hmax) as HN.
  unfold recv_piece. simpl. unfold isub. rewrite chk32_ok by int_lia. simpl.
  rewrite ladd_ok by int_lia. cbn [mbind res_bind]. rewrite tail_from_S, <- app_assoc in Hin by done.
  apply wp_bind. eapply wp_mono.
  { apply (RecvBuff_frame fuel zeros _ _ s Hin); unfold len in *; rewrite ?length_replicate; int_lia. }
  intros [[l bf'] s'] (-> & -> & Hin' & Hout' & Hp').
  pose proof (len_take_le c (upto P k)) as Htl.
  assert (Hmax2 : P * INT_MAX ≤ 2 ^ 20 * INT_MAX) by (apply Z.mul_le_mono_nonneg_r; int_lia).
  rewrite ladd_ok by int_lia. cbn [mbind res_bind]. rewrite WriteFile_piece. cbn [mbind res_bind].
  split; [|done]. unfold recv_inv. simpl. rewrite HS, piece_take, !len_app by lia.
  split_and!; done || lia || congruence.
Qed.

Lemma recv_loop_ok fuel c more_ fs0 name fn s0 st :
  len c ≤ P * INT_MAX → (8 + Z.to_nat P + patience s0 < fuel)%nat →
  (piece_count P c < fuel)%nat → recv_inv c more_ fs0 name fn s0 st →
  wp (while fuel more (recv_piece fuel P) st)
    (λ st', (inner st').1.1 = <[name := c]> fs0 ∧ incoming (inner st').2 = more_ ∧
            outgoing (inner st').2 = outgoing s0 ∧ (patience (inner st').2 ≤ patience s0)%nat).
Proof.
  intros Hmax Hf Hf2 Hinv.
  apply (wp_while (recv_inv c more_ fs0 name fn s0) (λ st, Z.to_nat (file_arr st))); [|done|destruct Hinv; lia].
  intros st1 Hi. unfold more. simpl. destruct (Z.eqb_spec (file_arr st1) 0) as [He|He]; simpl.
  - destruct Hi as (_ & _ & _ & _ & _ & Ht & Hin & Hout & Hpat). rewrite He, Nat.sub_0_r in *.
    rewrite Ht. rewrite Hin. unfold tail_from. rewrite Nat.sub_diag. simpl.
    rewrite take_ge by (by apply upto_all; lia). done.
  - eapply wp_mono; [by apply (recv_piece_step fuel c more_ fs0 name fn s0)|].
    intros st2 [Hi2 He2]. split; [done|]. destruct Hi as [? _]. lia.
Qed.
End Proofs.

Section Transfer.
Context (writable : list Z → bool) {S : Type} `{SocketLaws S} `{!Reliable S}.

Lemma while_done {A} fuel (body : loop_state A → res (loop_state A)) st :
  file_arr st = 0 → (0 < fuel)%nat → while fuel more body st = Ok st.
Proof. intros Ha Hf. destruct fuel; [lia|]. unfold while, more. simpl. by rewrite Ha. Qed.

Lemma send_infos fuel n (s : S) :
  (24 + patience s < fuel)%nat →
  wp (SendBuff fuel (bytes_of_i64 n ++ bytes_of_i64 2048) 16 s)
    (λ '(ok, s'), sent (frame (bytes_of_i64 n ++ bytes_of_i64 2048)) s s').
Proof.
  intros Hf. assert (Hinfo : len (bytes_of_i64 n ++ bytes_of_i64 2048) = 16) by (by rewrite len_app, !len_bytes_of_i64).
  eapply wp_mono; [apply SendBuff_spec; [lia|int_lia|lia]|].
  intros [ok s'] [_ Hs]. rewrite take_ge in Hs by (unfold len in Hinfo; lia). exact Hs.
Qed.

(** [SyncSendFile] sends the answer to a request for [name]; a file that does
    not exist (or cannot be opened) is answered as an empty one. *)
Lemma SyncSendFile_spec fuel name rest fs (s : S) :
  name_ok name → let c := default [] (fs !! name) in
  len c ≤ 2048 * INT_MAX → (2056 + patience s < fuel)%nat → (piece_count 2048 c < fuel)%nat →
  wp (SyncSendFile fuel (name ++ rest) (len name) fs new_tool s) (λ '(ok, t, s'), ok = true ∧ sent (reply c) s s').
Proof.
  intros [Hz Hnl] c Hmax Hf Hf2. unfold SyncSendFile, InitRead.
  rewrite set_name_ok by (done || lia). cbn [mbind res_bind]. set (fn := name ++ replicate _ 0).
  unfold GetFileSize. subst c. destruct (fs !! name) as [c|] eqn:Hc; cbn [default from_option id file_os_ new_tool s_fail s_name] in *.
  - unfold content. cbn [mbind res_bind mret res_ret file_os_ s_fail s_name]. rewrite Hc.
    change (default [] (Some c)) with c in *. apply wp_bind.
    eapply wp_mono; [apply send_infos; lia|].
    intros [ok s1] Hs1. pose proof (len_nonneg c). rewrite file_pieces_ok by lia. cbn [mbind res_bind].
    apply wp_bind. pose proof (piece_count_cdiv 2048 ltac:(lia) c) as Hpc. eapply wp_mono.
    { apply (send_loop_ok 2048 ltac:(lia) fuel c fs name fn s1); try done; [destruct Hs1 as (_ & _ & ?); lia|].
      unfold send_inv. cbn [file_arr buff_len buff index sum_index inner fst snd].
      replace (piece_count 2048 c - Z.to_nat (cdiv (len c) 2048))%nat with 0%nat by lia.
      split_and!; try done; try lia; [by right|apply sent_nil]. }
    intros st Hst. split; [done|]. by eapply sent_trans.
  - cbn [mbind res_bind mret res_ret file_os_]. apply wp_bind.
    eapply wp_mono; [apply send_infos; lia|]. intros [ok s1] Hs1.
    change (file_pieces 0 2048) with (Ok 0). cbn [mbind res_bind].
    rewrite while_done by (done || lia). split; [done|].
    unfold reply. change (pieces 2048 [] (piece_count 2048 [])) with (@nil Z). by rewrite app_nil_r.
Qed.

Definition copy_name (name : list Z) : list Z := name ++ copy_suffix.

(** [SyncRecvFile] after its request. *)
Definition recv_answer {S} `{Socket S} (fuel : nat) (fs : fsys) (t : SyncFileTool) (s : S) :
    res (bool * fsys * SyncFileTool * S) :=
  '(_, file_infos, s) ← RecvBuff fuel (bytes_of_i64 0 ++ bytes_of_i64 0) s;
  let file_len := i64_of_bytes file_infos in
  let file_split_len := i64_of_bytes (drop 8 file_infos) in
  file_arr ← file_pieces file_len file_split_len;
  buff ← (if file_split_len <? 1 then Err OutOfBounds else mret (replicate (Z.to_nat file_split_len) 0));
  st ← while fuel more (recv_piece fuel file_split_len)
         (MkLoop file_arr file_split_len 0 0 buff (fs, t, s));
  mret (true, (inner st).1.1, (inner st).1.2, (inner st).2).

(** The request: the copy is created, the name sent. *)
Lemma SyncRecvFile_request fuel name rest fs (s : S) :
  name_ok name → writable (copy_name name) = true → (2056 + patience s < fuel)%nat →
  ∃ fn s1, SyncRecvFile writable fuel (name ++ 0 :: rest) (len name) fs new_tool s =
      recv_answer fuel (<[copy_name name := []]> fs) (MkTool fn (Some (MkStream (copy_name name) 0 false))) s1 ∧
    sent (frame name) s s1.
Proof.
  intros [Hz Hnl] Hw Hf. unfold SyncRecvFile.
  rewrite cstring_app by done. cbn [mbind res_bind].
  assert (Hcz : Forall (λ b, b ≠ 0) (copy_name name)).
  { apply Forall_app. split; [done|]. unfold copy_suffix. repeat constructor; lia. }
  assert (Hcl : length (copy_name name) = (length name + 5)%nat).
  { unfold copy_name. by rewrite length_app. }
  assert (Hbuf : mwrite 0 (name ++ copy_suffix ++ [0]) (replicate 256 0) =
    Ok (copy_name name ++ 0 :: replicate (256 - length (name ++ copy_suffix ++ [0])) 0)).
  { rewrite mwrite_zeros by (rewrite !length_app; simpl; lia).
    unfold copy_name. by rewrite <- !app_assoc. }
  rewrite Hbuf. cbn [mbind res_bind]. rewrite cstring_app by done. cbn [mbind res_bind].
  unfold InitWrite. rewrite set_name_ok by (done || lia). cbn [mbind res_bind file_os_ new_tool].
  rewrite Hw. cbn [mbind res_bind mret res_ret]. set (fn := copy_name name ++ replicate _ 0).
  exists fn. pose proof (SendBuff_spec fuel (name ++ 0 :: rest) (len name) s) as Hs.
  destruct (SendBuff fuel _ _ s) as [[ok s1]|].
  - exists s1. split; [done|]. destruct Hs as [_ Hs]; [unfold len; rewrite length_app; lia|unfold len; int_lia|unfold len; lia|].
    rewrite take_app_length' in Hs by (unfold len; lia). exact Hs.
  - exfalso. apply Hs; unfold len; rewrite ?length_app; int_lia.
Qed.

Lemma SyncRecvFile_spec fuel name rest c more_ fs (s : S) :
  name_ok name → writable (copy_name name) = true → len c ≤ 2048 * INT_MAX →
  incoming s = reply c ++ more_ → (2056 + patience s < fuel)%nat → (piece_count 2048 c < fuel)%nat →
  wp (SyncRecvFile writable fuel (name ++ 0 :: rest) (len name) fs new_tool s)
    (λ '(ok, fs', t, s'), ok = true ∧ fs' = <[copy_name name := c]> fs ∧
       incoming s' = more_ ∧ outgoing s' = outgoing s ++ frame name ∧ (patience s' ≤ patience s)%nat).
Proof.
  intros Hn Hw Hmax Hin Hf Hf2. destruct (SyncRecvFile_request fuel name rest fs s Hn Hw Hf) as (fn & s1 & -> & Ho1 & Hi1 & Hp1).
  rewrite Hin in Hi1. unfold reply in Hi1. unfold recv_answer.
  rewrite <- app_assoc in Hi1. apply wp_bind. eapply wp_mono.
  { apply (RecvBuff_frame fuel (bytes_of_i64 0 ++ bytes_of_i64 0) _ _ s1 Hi1);
      rewrite ?len_app, ?length_app, ?len_bytes_of_i64; try int_lia.
    unfold bytes_of_i64. rewrite !length_le_bytes. lia. }
  intros [[l infos] s2] (_ & -> & Hi2 & Ho2 & Hp2). pose proof (len_nonneg c) as Hc.
  assert (Hlen8 : ∀ n, length (bytes_of_i64 n) = 8%nat) by (intros; unfold bytes_of_i64; by rewrite length_le_bytes).
  rewrite <- app_assoc, i64_bytes_round by int_lia.
  rewrite drop_app_length' by done. rewrite i64_bytes_round by int_lia.
  rewrite file_pieces_ok by lia. cbn [mbind res_bind].
  rewrite (proj2 (Z.ltb_ge 2048 1)) by lia. cbn [mbind res_bind mret res_ret].
  apply wp_bind. pose proof (piece_count_cdiv 2048 ltac:(lia) c) as Hpc. eapply wp_mono.
  { apply (recv_loop_ok 2048 ltac:(lia) fuel c more_ fs (copy_name name) fn s2); try done; [lia|].
    unfold recv_inv. cbn [file_arr buff_len buff index sum_index inner fst snd].
    replace (piece_count 2048 c - Z.to_nat (cdiv (len c) 2048))%nat with 0%nat by lia.
    split_and!; try done; try lia. rewrite Hi2. unfold tail_from, pieces. by rewrite Nat.sub_0_r. }
  intros [a bl ix sm bf [[fs' t] s3]] (Hfs & Hi3 & Ho3 & Hp3). cbn [inner fst snd] in *.
  split_and!; try done; [by rewrite Ho3, Ho2, Ho1|lia].
Qed.
End Transfer.

(** ** Properties *)
Section Properties.
Context {S : Type} `{SocketLaws S} `{!Reliable S}.

(** A file the server does not have is not reported as missing: the server
    answers with an empty file, and the client reports success and creates an
    empty copy. *)
Theorem sync_missing_file writable fuel name rest fs_srv fs_cli (srv cli : S) :
  name_ok name → fs_srv !! name = None → writable (copy_name name) = true →
  outgoing srv = [] → (2056 + patience srv < fuel)%nat → (2056 + patience cli < fuel)%nat →
  wp (SyncSendFile fuel (name ++ rest) (len name) fs_srv new_tool srv) (λ '(ok, t, srv'),
    ok = true ∧
    (incoming cli = outgoing srv' →
     wp (SyncRecvFile writable fuel (name ++ 0 :: rest) (len name) fs_cli new_tool cli)
       (λ '(ok, fs', t, cli'), ok = true ∧ fs' = <[copy_name name := []]> fs_cli))).
Proof.
  intros Hn Hnone Hw Ho Hf1 Hf2.
  assert (Hc0 : piece_count 2048 [] = 0%nat) by done.
  eapply wp_mono; [apply (SyncSendFile_spec fuel name rest fs_srv srv Hn); rewrite ?Hnone; try done|].
  - unfold len. simpl. int_lia.
  - intros [[ok t] srv'] (-> & Ho' & _ & _). rewrite Hnone, Ho in Ho'. cbn [default from_option id] in Ho'.
    split; [done|]. intros Hi. rewrite Ho' in Hi.
    assert (Hlen0 : len (@nil Z) ≤ 2048 * INT_MAX) by (unfold len; simpl; int_lia).
    assert (Hi' : incoming cli = reply [] ++ []) by (by rewrite app_nil_r).
    assert (Hp : (piece_count 2048 [] < fuel)%nat) by (rewrite Hc0; lia).
    eapply wp_mono; [exact (SyncRecvFile_spec writable fuel name rest [] [] fs_cli cli Hn Hw Hlen0 Hi' Hf2 Hp)|].
    by intros [[[ok2 fs'] t2] cli'] (-> & -> & _).
Qed.

(** The client builds the name of the copy in 256 bytes: a name of more than
    250 bytes overruns the array before anything is sent. *)
Theorem sync_name_overflow writable fuel name rest l fs (s : S) :
  Forall (λ b, b ≠ 0) name → (250 < length name)%nat →
  SyncRecvFile writable fuel (name ++ 0 :: rest) l fs new_tool s = Err OutOfBounds.
Proof.
  intros Hz Hl. unfold SyncRecvFile. rewrite cstring_app by done. cbn [mbind res_bind].
  assert (Herr : mwrite 0 (name ++ copy_suffix ++ [0]) (replicate 256 0) = Err OutOfBounds).
  { unfold mwrite. rewrite (proj2 (Z.leb_gt (0 + _) _)); [by rewrite andb_false_r|].
    unfold len. rewrite !length_app, length_replicate. simpl. lia. }
  by rewrite Herr.
Qed.
End Properties.

Lemma sync_missing_file_witness :
  wp (SyncSendFile 3000 ([98] ++ [0]) (len [98]) ∅ new_tool (MkTcp [] [] [1]%nat)) (λ '(ok, t, s), ok = true).
Proof.
  eapply wp_mono.
  { apply (sync_missing_file (λ _, true) 3000 [98] [0] ∅ ∅ (MkTcp [] [] [1]%nat) (MkTcp [] [] [])); try done.
    - split; [repeat constructor; lia|simpl; lia].
    - change (patience (MkTcp [] [] [1]%nat)) with 1%nat. lia.
    - change (patience (MkTcp [] [] [])) with 0%nat. lia. }
  intros [[ok t] s] [H _]. exact H.
Defined.

Lemma sync_name_overflow_witness :
  SyncRecvFile (λ _, true) 10 (replicate 251 97 ++ [0]) 251 ∅ new_tool (MkTcp [] [] []) = Err OutOfBounds.
Proof.
  apply (sync_name_overflow (λ _, true) 10 (replicate 251 97) []); [|rewrite length_replicate; lia].
  apply Forall_replicate. lia.
Defined.
