(* ===== verification/SyncServer.v ===== *)
(** * tools/sync_file/epoll_socket/server.{h,cpp}: the file server's event loop.

    A task queued for a client captures [cmd] and [len], variables of the block
    that handles the event, by reference: the model keeps these blocks (frames)
    and what a captured reference points to when the task runs.  Descriptors,
    what [epoll_wait] reports and what [accept] returns are parameters. *)
From S2P Require Import Prelude CInt CArray CStdio CNet Float64 EpollSocket SyncFile TaskQueue TimerChannel.

Definition EPOLLET : Z := 2 ^ 31.

(** What [epoll_wait] reports: a connection request on the listening socket,
    which [accept] answers with a descriptor and a connection, or events on a
    client's descriptor. *)
Inductive server_event (S : Type) : Type :=
  | OnListen (clnt_sock : Z) (conn : S)
  | OnClient (fd events : Z).
Arguments OnListen {S}. Arguments OnClient {S}.

(** [frames]: the live blocks, each with its [cmd] and [len]; [closures]: for a
    task of the pool, the descriptor and the block it captured. *)
Record ServerImpl (S : Type) : Type := MkServer {
  conns : gmap Z S;
  disk : fsys;
  pool : FdTasks;
  closures : gmap nat (Z * nat);
  next_task : nat;
  frames : gmap nat (list Z * Z);
  next_frame : nat;
  ctls : list ctl;
  closed : list Z;
  threads : Z;
  net : Listener;
}.
Arguments MkServer {S}. Arguments conns {S}. Arguments disk {S}. Arguments pool {S}.
Arguments closures {S}. Arguments next_task {S}. Arguments frames {S}. Arguments next_frame {S}.
Arguments ctls {S}. Arguments closed {S}. Arguments threads {S}. Arguments net {S}.

Section Server.
Context {S : Type} `{Socket S}.
Implicit Types v : ServerImpl S.

Definition new_server (fs : fsys) : ServerImpl S :=
  MkServer ∅ fs (MkFd [] ∅) ∅ 0 ∅ 0 [] [] 0 (new_listener SERVER_PORT SERVER_IP).

Definition set_conns (c : gmap Z S) v := MkServer c (disk v) (pool v) (closures v) (next_task v) (frames v)
  (next_frame v) (ctls v) (closed v) (threads v) (net v).
Definition set_frames f n v := MkServer (conns v) (disk v) (pool v) (closures v) (next_task v) f
  n (ctls v) (closed v) (threads v) (net v).
Definition set_tasks q c n v := MkServer (conns v) (disk v) q c n (frames v)
  (next_frame v) (ctls v) (closed v) (threads v) (net v).
Definition do_ctl c v := MkServer (conns v) (disk v) (pool v) (closures v) (next_task v) (frames v)
  (next_frame v) (ctls v ++ [c]) (closed v) (threads v) (net v).
Definition do_close fd v := MkServer (delete fd (conns v)) (disk v) (pool v) (closures v) (next_task v)
  (frames v) (next_frame v) (ctls v) (closed v ++ [fd]) (threads v) (net v).
Definition set_threads n v := MkServer (conns v) (disk v) (pool v) (closures v) (next_task v)
  (frames v) (next_frame v) (ctls v) (closed v) n (net v).
Definition set_net l v := MkServer (conns v) (disk v) (pool v) (closures v) (next_task v)
  (frames v) (next_frame v) (ctls v) (closed v) (threads v) l.

(** [pool.AddTask(socket_fd, [&, socket_fd]() {...})] in the block [frame]. *)
Definition add_task (fd : Z) (frame : nat) v : ServerImpl S :=
  set_tasks (fd_push fd (next_task v) (pool v)) (<[next_task v := (fd, frame)]> (closures v))
    (Datatypes.S (next_task v)) v.

(** The task, run by a worker: the reference must point to a live block.  (A
    number that no task has is no run of the code: [BadPrecond].) *)
Definition run_task (fuel : nat) (id : nat) v : res (ServerImpl S) :=
  match closures v !! id with
  | None => Err BadPrecond
  | Some (socket_fd, frame) =>
      match frames v !! frame, conns v !! socket_fd with
      | Some (cmd, l), Some conn =>
          '(_, _, conn) ← SyncSendFile fuel cmd l (disk v) new_tool conn;
          mret (set_conns (<[socket_fd := conn]> (conns v)) v)
      | None, _ => Err UseAfterFree
      | _, None => mret v
      end
  end.

(** A readable client: the block up to its end, which [end_block] is. *)
Definition on_readable (fuel : nat) (socket_fd : Z) v : res (ServerImpl S) :=
  match conns v !! socket_fd with
  | None => mret v
  | Some conn =>
      let frame := next_frame v in
      '(l, cmd, conn) ← RecvBuff fuel (replicate 256 0) conn;
      let v := set_conns (<[socket_fd := conn]> (conns v)) v in
      let v := set_frames (<[frame := (cmd, l)]> (frames v)) (Datatypes.S frame) v in
      if 0 <? l then mret (add_task socket_fd frame v)
      else
        let v := do_close socket_fd (do_ctl (CtlDel socket_fd) v) in
        q ← delCloseFD socket_fd (pool v);
        mret (set_tasks q (closures v) (next_task v) v)
  end.

Definition end_block (frame : nat) v : ServerImpl S := set_frames (delete frame (frames v)) (next_frame v) v.

(** One event of the loop, no worker running meanwhile. *)
Definition handle_event (fuel : nat) (e : server_event S) v : res (ServerImpl S) :=
  match e with
  | OnListen clnt_sock conn =>
      let v := set_conns (<[clnt_sock := conn]> (conns v)) v in
      mret (do_ctl (CtlAdd clnt_sock (Z.lor EPOLLIN EPOLLET)) v)
  | OnClient fd events =>
      if negb (Z.land events EPOLLIN =? 0) then
        let frame := next_frame v in
        v ← on_readable fuel fd v;
        mret (end_block frame v)
      else mret v
  end.

Fixpoint handle_events (fuel : nat) (es : list (server_event S)) v : res (ServerImpl S) :=
  match es with
  | [] => mret v
  | e :: es => v ← handle_event fuel e v; handle_events fuel es v
  end.

(** [ExecEpoll] on what the calls of [epoll_wait] report; [None] is its error,
    which ends the loop. *)
Fixpoint ExecEpoll (fuel : nat) (waits : list (option (list (server_event S)))) v : res (ServerImpl S) :=
  match waits with
  | [] | None :: _ => mret v
  | Some es :: waits => v ← handle_events fuel es v; ExecEpoll fuel waits v
  end.

(** [InitServer], given what [socket] and [epoll_create] return and whether
    [bind] and [listen] succeed. *)
Definition InitServer (fuel : nat) (pool_size : Z) (sock ep : Z) (bind_ok listen_ok : bool)
    (waits : list (option (list (server_event S)))) v : res (bool * ServerImpl S) :=
  let v := set_threads (addThread pool_size (threads v)) v in
  let v := set_net (open_socket sock (net v)) v in
  if negb bind_ok then mret (false, v)
  else if negb listen_ok then mret (false, v)
  else
    let v := set_net (open_epoll ep (net v)) v in
    let v := do_ctl (CtlAdd sock EPOLLIN) v in
    v ← ExecEpoll fuel waits v;
    mret (true, v).

(** server/main.cpp: the exit status and the descriptors the destructor closes. *)
Definition server_main (fuel : nat) (fs : fsys) (sock ep : Z) (bind_ok listen_ok : bool)
    (waits : list (option (list (server_event S)))) : res (Z * list Z) :=
  '(_, v) ← InitServer fuel 4 sock ep bind_ok listen_ok waits (new_server fs);
  closed ← close_listener (net v);
  mret (0, closed).
End Server.

(** ** Properties *)

Section Requests.
Context {S : Type} `{SocketLaws S} `{!Reliable S}.
Implicit Types v : ServerImpl S.

(** A request in the block of its event: [cmd] holds the name, and a task is
    queued that refers to the block. *)
Definition asked_in_block (fd : Z) (name : list Z) (conn : S) v : ServerImpl S :=
  add_task fd (next_frame v)
    (set_frames (<[next_frame v := (name ++ drop (length name) (replicate 256 0), len name)]> (frames v))
      (Datatypes.S (next_frame v)) (set_conns (<[fd := conn]> (conns v)) v)).

Lemma on_readable_request fuel fd v name rest (conn : S) :
  conns v !! fd = Some conn → incoming conn = frame name ++ rest → 0 < len name ≤ 256 → (264 + patience conn < fuel)%nat →
  wp (on_readable fuel fd v) (λ v', ∃ conn', v' = asked_in_block fd name conn' v ∧
    incoming conn' = rest ∧ outgoing conn' = outgoing conn ∧ (patience conn' ≤ patience conn)%nat).
Proof.
  intros Hconn Hin Hl Hf. unfold on_readable. rewrite Hconn. apply wp_bind. eapply wp_mono.
  { apply (RecvBuff_frame fuel (replicate 256 0) name rest conn Hin); unfold len in *; rewrite ?length_replicate; int_lia. }
  intros [[l cmd] conn'] (-> & -> & Hi & Ho & Hp). rewrite (proj2 (Z.ltb_lt _ _)) by lia.
  cbn [wp mret res_ret]. by exists conn'.
Qed.
End Requests.

(** A server with one client that asks for the file "a". *)
Definition demo_srv : Tcp := MkTcp (frame [97]) [] [3; 0; 2]%nat.
Definition demo_server : ServerImpl Tcp :=
  set_conns {[ 5 := demo_srv ]} (new_server {[ [97] := [1; 2; 3] ]}).

Section ServerProofs.
Context {S : Type} `{SocketLaws S} `{!Reliable S}.
Implicit Types v : ServerImpl S.

(** Each queued task has what it captured. *)
Definition tasks_known v : Prop :=
  fd_wf (pool v) ∧ ∀ id, id ∈ contents (pool v) → (id < next_task v)%nat ∧ is_Some (closures v !! id).

Lemma add_task_known fd block v : tasks_known v → tasks_known (add_task fd block v) ∧
  contents (pool (add_task fd block v)) = contents (pool v) ++ [next_task v].
Proof.
  intros [Hwf Hk]. assert (Hc : contents (pool (add_task fd block v)) = contents (pool v) ++ [next_task v]) by (cbn; by rewrite fmap_app).
  split; [|done]. split.
  - apply fd_push_wf; [done|]. intros Hin. apply Hk in Hin as [? _]. lia.
  - intros id. rewrite Hc. intros [Hin|Hin]%elem_of_app; cbn.
    + destruct (Hk id Hin) as [Hlt Hs]. split; [lia|]. rewrite lookup_insert_ne by lia. done.
    + apply list_elem_of_singleton in Hin as ->. split; [lia|]. by rewrite lookup_insert_eq.
Qed.

Lemma handle_event_known fuel e v : frames v = ∅ → tasks_known v →
  wpe (handle_event fuel e v) (λ v', frames v' = ∅ ∧ tasks_known v') (λ _, True).
Proof.
  intros Hf Hk. destruct e as [fd conn|fd ev]; simpl; [done|]. destruct (negb _); [|done]. unfold on_readable.
  destruct (conns v !! fd) as [conn|]; simpl; [|by rewrite Hf, delete_empty].
  destruct (RecvBuff fuel _ conn) as [[[l cmd] conn']|]; simpl; [|done].
  destruct (0 <? l); simpl; [|destruct (delCloseFD_ok fd (pool v) (proj1 Hk)) as (q & -> & Hwf & Hq)]; simpl;
    rewrite Hf, insert_empty, delete_singleton_eq; (split; [done|]).
  - match goal with |- tasks_known (end_block _ (add_task _ _ ?w)) => exact (proj1 (add_task_known fd (next_frame v) w Hk)) end.
  - split; [done|]. intros id Hin. apply (proj2 Hk). cbn in Hin |- *. rewrite Hq in Hin.
    apply fst_filter_elem in Hin as (g & _ & Hin). apply list_elem_of_fmap. by exists (id, g).
Qed.

Lemma task_dangles fuel v id : frames v = ∅ → tasks_known v → id ∈ contents (pool v) → run_task fuel id v = Err UseAfterFree.
Proof.
  intros Hf [_ Hk] Hin. destruct (Hk id Hin) as [_ [[fd block] Hc]]. unfold run_task. by rewrite Hc, Hf, lookup_empty.
Qed.

(** C25: A task captures [cmd] and [len] of the block of its event by reference.
    A request queues a task; once its event has been handled (the block has ended)
    the task refers to dead variables, and so does every task that is in the queue
    after any further events. *)
Theorem server_tasks_dangle fuel fd events name rest (conn : S) v :
  frames v = ∅ → tasks_known v → conns v !! fd = Some conn → Z.land events EPOLLIN ≠ 0 →
  incoming conn = frame name ++ rest → 0 < len name ≤ 256 → (264 + patience conn < fuel)%nat →
  wp (handle_event fuel (OnClient fd events) v) (λ v1,
    contents (pool v1) = contents (pool v) ++ [next_task v] ∧ run_task fuel (next_task v) v1 = Err UseAfterFree ∧
    ∀ es, wpe (handle_events fuel es v1)
      (λ v', ∀ id, id ∈ contents (pool v') → run_task fuel id v' = Err UseAfterFree) (λ _, True)).
Proof.
  intros Hf Hk Hconn Hev Hin Hl Hfuel. pose proof (handle_event_known fuel (OnClient fd events) v Hf Hk) as H1.
  unfold handle_event in *. rewrite (proj2 (Z.eqb_neq _ _) Hev) in *. simpl negb in *. cbv iota in *.
  apply wp_bind. pose proof (on_readable_request fuel fd v name rest conn Hconn Hin Hl Hfuel) as H2.
  destruct (on_readable fuel fd v) as [v0|]; [|done]. destruct H2 as (conn' & -> & _). cbn [mbind res_bind mret res_ret wp wpe] in H1 |- *.
  set (v1 := end_block _ _) in *. destruct H1 as [Hf1 Hk1].
  assert (Hc : contents (pool v1) = contents (pool v) ++ [next_task v]) by (cbn; by rewrite fmap_app).
  split; [done|]. split; [apply task_dangles; [done|done|rewrite Hc; set_solver]|].
  intros es. clearbody v1. clear Hc. revert v1 Hf1 Hk1. induction es as [|e es IH]; intros v1 Hf1 Hk1; simpl.
  - intros id Hid. exact (task_dangles fuel v1 id Hf1 Hk1 Hid).
  - apply wpe_bind. eapply wpe_mono; [by apply handle_event_known|]. intros v2 [Hf2 Hk2]. by apply IH.
Qed.

(** At the end of the stream [RecvBuff] returns 0. *)
Lemma RecvBuff_eof fuel buff (conn : S) :
  incoming conn = [] → (8 + patience conn < fuel)%nat →
  wp (RecvBuff fuel buff conn) (λ '(l, b, s), l = 0).
Proof.
  intros Hin Hf. unfold RecvBuff.
  assert (Hmax : 0 ≤ 8 ≤ INT64_MAX) by int_lia. assert (Hmax0 : 0 ≤ 0 ≤ INT64_MAX) by int_lia.
  pose proof (RecvSocket_spec fuel (bytes_of_i64 0) 8 conn Hmax ltac:(lia)) as H1.
  destruct (RecvSocket fuel (bytes_of_i64 0) 8 conn) as [[[r1 b1] s1]|e]; simpl in H1 |- *.
  2: { destruct H1 as [_ H1]. rewrite Hin, len_bytes_of_i64 in H1. unfold len in H1. simpl in H1. lia. }
  destruct H1 as (_ & _ & -> & Hi1 & _ & Hp1). rewrite Hin. simpl. change (i64_of_bytes _) with 0.
  pose proof (RecvSocket_spec fuel buff 0 s1 Hmax0 ltac:(lia)) as H2.
  destruct (RecvSocket fuel buff 0 s1) as [[[r2 b2] s2]|e]; simpl in H2 |- *; [done|].
  pose proof (len_nonneg (incoming s1)). pose proof (len_nonneg buff). lia.
Qed.

(** A client that has closed its end is removed: one EPOLL_CTL_DEL, one
    [close], and none of its tasks is left in the pool, the others untouched. *)
Theorem server_closes_client fuel fd (v : ServerImpl S) (conn : S) :
  fd_wf (pool v) → conns v !! fd = Some conn → incoming conn = [] → (8 + patience conn < fuel)%nat →
  wp (handle_event fuel (OnClient fd EPOLLIN) v)
    (λ v', ctls v' = ctls v ++ [CtlDel fd] ∧ closed v' = closed v ++ [fd] ∧ conns v' !! fd = None ∧
       fd_wf (pool v') ∧ _tasks (pool v') = filter (λ x, x.2 ≠ fd) (_tasks (pool v))).
Proof.
  intros Hwf Hc Hin Hf. unfold handle_event.
  change (negb (Z.land EPOLLIN EPOLLIN =? 0)) with true. cbv iota. unfold on_readable. rewrite Hc.
  apply wp_bind, wp_bind. eapply wp_mono; [by apply RecvBuff_eof|].
  intros [[l cmd] conn'] ->. simpl.
  destruct (delCloseFD_ok fd (pool v) Hwf) as (q & -> & Hwf' & Hq). simpl.
  split_and!; try done. apply lookup_delete_eq.
Qed.
End ServerProofs.

Lemma server_tasks_dangle_witness :
  wp (handle_event 3000 (OnClient 5 EPOLLIN) demo_server)
    (λ v1, contents (pool v1) = [0%nat] ∧ run_task 3000 0 v1 = Err UseAfterFree).
Proof.
  eapply wp_mono.
  { apply (server_tasks_dangle 3000 5 EPOLLIN [97] [] demo_srv demo_server);
      [done|split; [apply fd_wf_empty|by intros id ?%not_elem_of_nil]|done|done|by rewrite app_nil_r|unfold len; simpl; lia|].
    change (patience demo_srv) with 3%nat. lia. }
  intros v1 (H1 & H2 & _). exact (conj H1 H2).
Defined.

Lemma server_closes_client_witness :
  wp (handle_event 3000 (OnClient 5 EPOLLIN) (set_conns {[ 5 := MkTcp [] [] [] ]} (new_server ∅)))
    (λ v', closed v' = [5]).
Proof.
  eapply wp_mono.
  { apply (server_closes_client 3000 5 (set_conns {[ 5 := MkTcp [] [] [] ]} (new_server ∅)) (MkTcp [] [] []));
      try done; [apply fd_wf_empty|simpl; lia]. }
  intros v' (_ & H & _). exact H.
Defined.

(** When [bind] or [listen] fails, [main]'s server is destroyed with [epfd] not
    set: the destructor closes an indeterminate descriptor. *)
Lemma server_bind_failure {S} `{Socket S} fuel fs sock ep bind_ok listen_ok (waits : list (option (list (server_event S)))) :
  bind_ok && listen_ok = false → server_main fuel fs sock ep bind_ok listen_ok waits = Err Uninit.
Proof. by destruct bind_ok, listen_ok. Qed.
