(* ===== verification/WireFormat.v ===== *)
(** * The protocol buffer runtime, as the messages of socket/epoll/echo.pb.{h,cc}
    use it.

    The runtime is not part of the repository, so it is an interface here: the
    base class of messages ([Message], the virtual functions that the generated
    classes override), the runtime's operations ([Wire]) and what its
    documentation says of them ([WireLaws]).  What every message class shares,
    the [while] loop of [_InternalParse], is a definition with its lemmas: it
    ends on every input, and an input that is two messages, one after the other,
    is read as the first and then the second.

    A byte is a number below 256.  A position in the input ([ptr]) is the list of
    the bytes from it to the limit of the [ParseContext]; [nullptr] is [None].  A
    position in the output ([target]) is the list of the bytes written. *)
From S2P Require Import Prelude CInt CArray.

(** ** The interface of a message *)

(** How a parse that did not fail stopped: at the limit ([Done]), or at a tag
    kept by [SetLastTag], with the input left. *)
Inductive parse_end : Type :=
  | AtEnd
  | LastTag (tag : Z) (rest : list Z).

Class Message (M : Type) : Type := {
  New : M;
  Clear : M → M;
  MergeFrom : M → M → M;
  _InternalParse : M → list Z → res (M * option parse_end);
  ByteSizeLong : M → Z * M;
  _InternalSerialize : M → list Z → list Z;
  GetCachedSize : M → Z;
}.

(** What the runtime needs of a message class.  [msg_ok] are the messages that
    the format can hold; their size is computed before they are written. *)
Definition sized {M} `{Message M} (m : M) : M := (ByteSizeLong m).2.
Definition wire {M} `{Message M} (m : M) : list Z := _InternalSerialize (sized m) [].

Class MessageLaws (M : Type) `{Message M} : Type := {
  msg_ok : M → Prop;
  serialize_target : ∀ (m : M) target, _InternalSerialize m target = target ++ _InternalSerialize m [];
  parse_total : ∀ (m : M) s, wp (_InternalParse m s) (λ _, True);
  size_law : ∀ m : M, msg_ok m → (ByteSizeLong m).1 = len (wire m) ∧ GetCachedSize (sized m) = len (wire m);
  round_law : ∀ m m0 : M, msg_ok m → _InternalParse m0 (wire m) = Ok (MergeFrom m0 m, Some AtEnd);
}.

(** ** The runtime *)
Class Wire : Type := {
  UnknownFieldSet : Type;
  no_unknown_fields : UnknownFieldSet;
  have_unknown_fields : UnknownFieldSet → bool;
  MergeUnknown : UnknownFieldSet → UnknownFieldSet → UnknownFieldSet;
  (** reading *)
  ReadTag : list Z → option (Z * list Z);
  ReadVarint64 : list Z → Z * option (list Z);
  InlineGreedyStringParser : list Z → list Z → list Z * option (list Z);
  VerifyUTF8 : list Z → bool;
  UnknownFieldParse : Z → UnknownFieldSet → list Z → UnknownFieldSet * option (list Z);
  ParseMessage : ∀ {M} `{Message M}, M → list Z → res (M * option (list Z));
  (** writing *)
  WriteInt32ToArray : Z → Z → list Z → list Z;
  WriteBoolToArray : Z → bool → list Z → list Z;
  WriteBytesMaybeAliased : Z → list Z → list Z → list Z;
  InternalWriteMessage : ∀ {M} `{Message M}, Z → M → list Z → list Z;
  InternalSerializeUnknownFieldsToArray : UnknownFieldSet → list Z → list Z;
  (** sizes *)
  Int32Size : Z → Z;
  BytesSize : list Z → Z;
  MessageSize : ∀ {M} `{Message M}, M → Z * M;
  ComputeUnknownFieldsSize : UnknownFieldSet → Z → Z;
  ToCachedSize : Z → Z;
  (** whole messages *)
  ParseFromArray : ∀ {M} `{Message M}, M → list Z → res (M * bool);
  SerializeAsString : ∀ {M} `{Message M}, M → list Z * M;
}.

(** A string or a message of this length has a length prefix. *)
Definition fits (n : Z) : Prop := n ≤ INT_MAX.

Class WireLaws `{Wire} : Prop := {
  no_unknown_law : have_unknown_fields no_unknown_fields = false;
  merge_none_l : ∀ u, MergeUnknown no_unknown_fields u = u;
  merge_none_r : ∀ u v, have_unknown_fields v = false → MergeUnknown u v = u;
  merge_have : ∀ u v,
    have_unknown_fields (MergeUnknown u v) = have_unknown_fields u || have_unknown_fields v;
  (** a reader stays in its input, and reads the same when more follows *)
  read_tag_shorter : ∀ s t s', ReadTag s = Some (t, s') → (length s' < length s)%nat;
  read_tag_app : ∀ s t s' r, ReadTag s = Some (t, s') → ReadTag (s ++ r) = Some (t, s' ++ r);
  varint_shorter : ∀ s v s', ReadVarint64 s = (v, Some s') → (length s' ≤ length s)%nat;
  varint_app : ∀ s v s' r, ReadVarint64 s = (v, Some s') → ReadVarint64 (s ++ r) = (v, Some (s' ++ r));
  string_shorter : ∀ o s v s',
    InlineGreedyStringParser o s = (v, Some s') → (length s' ≤ length s)%nat;
  string_app : ∀ o s v s' r, InlineGreedyStringParser o s = (v, Some s') →
    InlineGreedyStringParser o (s ++ r) = (v, Some (s' ++ r));
  unknown_shorter : ∀ t u s v s', UnknownFieldParse t u s = (v, Some s') → (length s' ≤ length s)%nat;
  unknown_app : ∀ t u s v s' r, UnknownFieldParse t u s = (v, Some s') →
    UnknownFieldParse t u (s ++ r) = (v, Some (s' ++ r));
  message_total : ∀ M `{MessageLaws M} (m : M) s,
    wp (ParseMessage m s) (λ '(_, o), ∀ s', o = Some s' → (length s' ≤ length s)%nat);
  message_app : ∀ M `{Message M} (m m' : M) s s' r, ParseMessage m s = Ok (m', Some s') →
    ParseMessage m (s ++ r) = Ok (m', Some (s' ++ r));
  (** a message read inside another one is what its [_InternalParse] read *)
  message_inside : ∀ M `{Message M} (m m' : M) s s', ParseMessage m s = Ok (m', Some s') →
    ∃ d, _InternalParse m d = Ok (m', Some AtEnd);
  utf8_empty : VerifyUTF8 [] = true;
  (** a writer appends *)
  write_int32_target : ∀ n v t, WriteInt32ToArray n v t = t ++ WriteInt32ToArray n v [];
  write_bool_target : ∀ n v t, WriteBoolToArray n v t = t ++ WriteBoolToArray n v [];
  write_bytes_target : ∀ n v t, WriteBytesMaybeAliased n v t = t ++ WriteBytesMaybeAliased n v [];
  write_message_target : ∀ M `{MessageLaws M} n (m : M) t,
    InternalWriteMessage n m t = t ++ InternalWriteMessage n m [];
  write_unknown_target : ∀ u t, InternalSerializeUnknownFieldsToArray u t =
    t ++ InternalSerializeUnknownFieldsToArray u [];
  (** what is written is read back, for the field numbers of one byte *)
  int32_round : ∀ n v, 1 ≤ n ≤ 15 → INT_MIN ≤ v ≤ INT_MAX →
    ∃ s, ReadTag (WriteInt32ToArray n v []) = Some (8 * n, s) ∧ ReadVarint64 s = (to_u64 v, Some []);
  bool_round : ∀ n v, 1 ≤ n ≤ 15 →
    ∃ s, ReadTag (WriteBoolToArray n v []) = Some (8 * n, s) ∧ ReadVarint64 s = (Z.b2z v, Some []);
  bytes_round : ∀ n v o, 1 ≤ n ≤ 15 → fits (len v) →
    ∃ s, ReadTag (WriteBytesMaybeAliased n v []) = Some (8 * n + 2, s) ∧
      InlineGreedyStringParser o s = (v, Some []);
  message_round : ∀ M `{MessageLaws M} n (m m0 m1 : M), 1 ≤ n ≤ 15 →
    let body := _InternalSerialize m [] in
    fits (len body) → GetCachedSize m = len body →
    _InternalParse m0 body = Ok (m1, Some AtEnd) →
    ∃ s, ReadTag (InternalWriteMessage n m []) = Some (8 * n + 2, s) ∧
      ParseMessage m0 s = Ok (m1, Some []);
  (** sizes *)
  int32_size : ∀ n v, 1 ≤ n ≤ 15 → INT_MIN ≤ v ≤ INT_MAX →
    len (WriteInt32ToArray n v []) = 1 + Int32Size v ∧ 0 ≤ Int32Size v ≤ 10;
  bool_size : ∀ n v, 1 ≤ n ≤ 15 → len (WriteBoolToArray n v []) = 2;
  bytes_size : ∀ n v, 1 ≤ n ≤ 15 → fits (len v) →
    len (WriteBytesMaybeAliased n v []) = 1 + BytesSize v ∧ len v ≤ BytesSize v ≤ len v + 5;
  message_size : ∀ M `{MessageLaws M} n (m : M), 1 ≤ n ≤ 15 → msg_ok m → fits (len (wire m)) →
    (MessageSize m).2 = sized m ∧
    len (InternalWriteMessage n (sized m) []) = 1 + (MessageSize m).1 ∧
    len (wire m) ≤ (MessageSize m).1 ≤ len (wire m) + 5;
  cached_size : ∀ n, 0 ≤ n ≤ INT_MAX → ToCachedSize n = n;
  (** [ParseFromArray] clears the message, and succeeds when [_InternalParse]
      reads the whole array; [SerializeAsString] computes the size first *)
  parse_array_law : ∀ M `{Message M} (m m' : M) s,
    _InternalParse (Clear m) s = Ok (m', Some AtEnd) → ParseFromArray m s = Ok (m', true);
  parse_array_total : ∀ M `{MessageLaws M} (m : M) s, wp (ParseFromArray m s) (λ _, True);
  serialize_law : ∀ M `{Message M} (m : M), SerializeAsString m = (wire m, sized m);
}.

(** ** The parse loop

    [switch] is the message's [switch (tag >> 3)]: a field with the message and
    [ptr] after it, or a jump to [handle_unusual]. *)
Inductive field_result (M : Type) : Type :=
  | Field (m : M) (ptr : option (list Z))
  | Unusual.
Arguments Field {M} m ptr.
Arguments Unusual {M}.

Section Parse.
Context `{Wire} {M : Type}.
Variable switch : Z → M → list Z → res (field_result M).
Variable unknown : M → UnknownFieldSet.
Variable set_unknown : UnknownFieldSet → M → M.

Definition parse_body (st : M * list Z) : res (M * list Z + M * option parse_end) :=
  let '(this, ptr) := st in
  if bool_decide (ptr = []) then mret (inr (this, Some AtEnd)) else
  match ReadTag ptr with
  | None => mret (inr (this, None))
  | Some (tag, ptr) =>
      r ← switch tag this ptr;
      match r with
      | Field this (Some ptr) => mret (inl (this, ptr))
      | Field this None => mret (inr (this, None))
      | Unusual =>
          if (Z.land tag 7 =? 4) || (tag =? 0) then mret (inr (this, Some (LastTag tag ptr)))
          else
            let '(u, ptr) := UnknownFieldParse tag (unknown this) ptr in
            let this := set_unknown u this in
            match ptr with
            | Some ptr => mret (inl (this, ptr))
            | None => mret (inr (this, None))
            end
      end
  end.

(** The loop reads at least a byte each time. *)
Definition parse_loop (this : M) (ptr : list Z) : res (M * option parse_end) :=
  loop (S (length ptr)) parse_body (this, ptr).

(** What the loop needs of a message's fields. *)
Record switch_laws : Prop := SwitchLaws {
  switch_total : ∀ t m s, wp (switch t m s) (λ r,
    ∀ m' s', r = Field m' (Some s') → (length s' ≤ length s)%nat);
  switch_app : ∀ t m m' s s' r, switch t m s = Ok (Field m' (Some s')) →
    switch t m (s ++ r) = Ok (Field m' (Some (s' ++ r)));
  switch_unusual : ∀ t m s r, switch t m s = Ok Unusual → switch t m (s ++ r) = Ok Unusual;
}.

Context `{Hlaws : !WireLaws} (Hsw : switch_laws).

Lemma parse_body_total st :
  wp (parse_body st) (λ x, match x with inl st' => (length st'.2 < length st.2)%nat | inr _ => True end).
Proof using Hsw Hlaws.
  destruct st as [m s]. unfold parse_body. case_bool_decide; [done|].
  destruct (ReadTag s) as [[t s1]|] eqn:Ht; [|done]. apply read_tag_shorter in Ht.
  apply wp_bind. eapply wp_mono; [apply switch_total, Hsw|].
  intros [m' [s2|]|] Hs; [|done|].
  - specialize (Hs m' s2 eq_refl). simpl. lia.
  - case_match; [done|]. destruct (UnknownFieldParse t (unknown m) s1) as [u [s2|]] eqn:Hu; [|done].
    apply unknown_shorter in Hu. simpl. lia.
Qed.

Lemma parse_loop_total m s : wp (parse_loop m s) (λ _, True).
Proof using Hsw Hlaws.
  apply (wp_loop (λ _, True) (λ st, length st.2)); [|done|simpl; lia].
  intros st _. eapply wp_mono; [apply parse_body_total|]. intros [st'|r]; [tauto|done].
Qed.

(** More fuel than the length makes no difference. *)
Lemma parse_fuel f g m s :
  (length s < f)%nat → (length s < g)%nat → loop f parse_body (m, s) = loop g parse_body (m, s).
Proof using Hsw Hlaws.
  revert g m s. induction f as [|f IH]; intros [|g] m s Hf Hg; try lia. rewrite !loop_S.
  pose proof (parse_body_total (m, s)) as Hb.
  destruct (parse_body (m, s)) as [[[m' s']|r]|e]; simpl in *; [apply IH; lia|reflexivity|done].
Qed.

(** What the fields keep, a successful parse keeps. *)
Lemma parse_loop_inv (P : M → Prop) m s m' e :
  (∀ t m1 s1 m2 s2, P m1 → switch t m1 s1 = Ok (Field m2 (Some s2)) → P m2) →
  (∀ u m1, P m1 → P (set_unknown u m1)) → P m →
  parse_loop m s = Ok (m', Some e) → P m'.
Proof using Hsw Hlaws.
  intros Hs Hu Hm Hp.
  assert (Hw : wp (parse_loop m s) (λ '(m', e), e ≠ None → P m')); [|rewrite Hp in Hw; by apply Hw].
  apply (wp_loop (λ st, P st.1) (λ st, length st.2)); [|done|simpl; lia].
  intros [m1 s1] Hm1. pose proof (parse_body_total (m1, s1)) as Ht. unfold parse_body in *.
  destruct (decide (s1 = [])) as [->|Hne]; [by intros _|]. rewrite bool_decide_eq_false_2 in Ht |- * by done.
  destruct (ReadTag s1) as [[t s2]|]; [|by intros []].
  destruct (switch t m1 s2) as [[m2 [s3|]|]|] eqn:Hw; simpl in *; [|by intros []| |done].
  - split; [by eapply Hs|done].
  - case_match; [by intros _|]. destruct (UnknownFieldParse t (unknown m1) s2) as [u [s3|]]; simpl in *; [|by intros []].
    split; [by apply Hu|done].
Qed.

Lemma parse_loop_nil m : parse_loop m [] = Ok (m, Some AtEnd).
Proof. reflexivity. Qed.

(** One step of the loop. *)
Lemma parse_loop_step m s m' s' :
  parse_body (m, s) = Ok (inl (m', s')) → parse_loop m s = parse_loop m' s'.
Proof using Hsw Hlaws.
  intros Hb. pose proof (parse_body_total (m, s)) as Ht. rewrite Hb in Ht. simpl in Ht.
  unfold parse_loop at 1. rewrite loop_S, Hb. simpl. apply parse_fuel; lia.
Qed.

Lemma parse_body_app m s m' s' r :
  parse_body (m, s) = Ok (inl (m', s')) → parse_body (m, s ++ r) = Ok (inl (m', s' ++ r)).
Proof using Hsw Hlaws.
  unfold parse_body. case_bool_decide as Hs; [done|].
  rewrite bool_decide_eq_false_2 by (by intros [-> _]%app_eq_nil).
  destruct (ReadTag s) as [[t s1]|] eqn:Ht; [|done]. rewrite (read_tag_app _ _ _ r Ht).
  destruct (switch t m s1) as [[m2 [s2|]|]|] eqn:Hw; simpl; [| | |done].
  - rewrite (switch_app Hsw _ _ _ _ _ r Hw). simpl. by intros [= -> ->].
  - done.
  - rewrite (switch_unusual Hsw _ _ _ r Hw). simpl. case_match; [done|].
    destruct (UnknownFieldParse t (unknown m) s1) as [u [s2|]] eqn:Hu; [|done].
    rewrite (unknown_app _ _ _ _ _ r Hu). by intros [= -> ->].
Qed.

(** The loop ends at the limit only. *)
Lemma parse_body_end m s m1 : parse_body (m, s) = Ok (inr (m1, Some AtEnd)) → s = [].
Proof.
  unfold parse_body. case_bool_decide; [done|]. destruct (ReadTag s) as [[t s1]|]; [|done].
  destruct (switch t m s1) as [[m2 [s2|]|]|]; simpl; [done|done| |done].
  case_match; [done|]. by destruct (UnknownFieldParse t (unknown m) s1) as [u [s2|]].
Qed.

(** Reading two encodings one after the other. *)
Lemma parse_loop_app m s m1 r :
  parse_loop m s = Ok (m1, Some AtEnd) → parse_loop m (s ++ r) = parse_loop m1 r.
Proof using Hsw Hlaws.
  remember (length s) as n eqn:Hn. revert m s Hn.
  induction n as [n IH] using lt_wf_ind. intros m s -> Hp.
  destruct (decide (s = [])) as [->|Hs]; [rewrite parse_loop_nil in Hp; by simplify_eq|].
  pose proof (parse_body_total (m, s)) as Ht.
  destruct (parse_body (m, s)) as [[[m' s']|[m' e]]|e] eqn:Hb; [| |done].
  - rewrite (parse_loop_step _ _ _ _ Hb) in Hp.
    rewrite (parse_loop_step _ _ _ _ (parse_body_app _ _ _ _ r Hb)). by eapply IH.
  - unfold parse_loop in Hp. rewrite loop_S, Hb in Hp. injection Hp as -> ->.
    by apply parse_body_end in Hb.
Qed.

Lemma parse_two m s m1 s' m2 :
  parse_loop m s = Ok (m1, Some AtEnd) → parse_loop m1 s' = Ok (m2, Some AtEnd) →
  parse_loop m (s ++ s') = Ok (m2, Some AtEnd).
Proof using Hsw Hlaws. intros Hs Hs'. by rewrite (parse_loop_app _ _ _ _ Hs). Qed.

(** Reading a field. *)
Lemma parse_loop_field m s t s1 m' s' :
  s ≠ [] → ReadTag s = Some (t, s1) → switch t m s1 = Ok (Field m' (Some s')) →
  parse_loop m s = parse_loop m' s'.
Proof using Hsw Hlaws.
  intros Hs Ht Hw. apply parse_loop_step. unfold parse_body.
  rewrite bool_decide_eq_false_2 by done. rewrite Ht, Hw. done.
Qed.
End Parse.
