(* ===== verification/EchoProto.v ===== *)
(** * socket/epoll/echo.pb.{h,cc}: what the message classes share.

    The classes of echo.proto have the same shape, so what their functions repeat
    (a field that is read, written if it is not zero or empty, and counted) is
    written once, here, over the runtime's interface, with its lemmas.  The
    classes are in EchoMessages. *)
From S2P Require Import Prelude CInt CArray WireFormat.

(** ** The parts of the generated functions *)
Section Fields.
Context `{Wire}.

(** [x_ = ReadVarint64(&ptr)] for an [int32], and for a [bool]. *)
Definition read_int32 {M} (set : Z → M) (ptr : list Z) : res (field_result M) :=
  let '(v, ptr) := ReadVarint64 ptr in mret (Field (set (to_i32 v)) ptr).
Definition read_bool {M} (set : bool → M) (ptr : list Z) : res (field_result M) :=
  let '(v, ptr) := ReadVarint64 ptr in mret (Field (set (negb (v =? 0))) ptr).
Definition read_bytes {M} (old : list Z) (set : list Z → M) (ptr : list Z) : res (field_result M) :=
  let '(str, ptr) := InlineGreedyStringParser old ptr in mret (Field (set str) ptr).
Definition read_string {M} (old : list Z) (set : list Z → M) (ptr : list Z) : res (field_result M) :=
  let '(str, ptr) := InlineGreedyStringParser old ptr in
  mret (Field (set str) (if VerifyUTF8 str then ptr else None)).

(** The bodies of [_InternalSerialize]: a field is written when it is set. *)
Definition put_int32 (n v : Z) (target : list Z) : list Z :=
  if v =? 0 then target else WriteInt32ToArray n v target.
Definition put_bool (n : Z) (v : bool) (target : list Z) : list Z :=
  if v then WriteBoolToArray n v target else target.
Definition put_bytes (n : Z) (v : list Z) (target : list Z) : list Z :=
  if 0 <? len v then WriteBytesMaybeAliased n v target else target.
Definition put_unknown (u : UnknownFieldSet) (target : list Z) : list Z :=
  if have_unknown_fields u then InternalSerializeUnknownFieldsToArray u target else target.

(** The bodies of [ByteSizeLong]: [total_size] is a [size_t]. *)
Definition add_int32 (v total_size : Z) : Z :=
  if v =? 0 then total_size else to_u64 (total_size + (1 + Int32Size v)).
Definition add_bool (v : bool) (total_size : Z) : Z :=
  if v then to_u64 (total_size + (1 + 1)) else total_size.
Definition add_bytes (v : list Z) (total_size : Z) : Z :=
  if 0 <? len v then to_u64 (total_size + (1 + BytesSize v)) else total_size.
Definition add_unknown (u : UnknownFieldSet) (total_size : Z) : Z :=
  if have_unknown_fields u then ComputeUnknownFieldsSize u total_size else total_size.

(** The bodies of [MergeFrom]. *)
Definition merge_int32 (this from : Z) : Z := if from =? 0 then this else from.
Definition merge_bool (this from : bool) : bool := if from then from else this.
Definition merge_bytes (this from : list Z) : list Z := if 0 <? len from then from else this.

(** *** Lemmas *)
Context `{Hlaws : !WireLaws}.

Lemma put_int32_target n v t : put_int32 n v t = t ++ put_int32 n v [].
Proof. unfold put_int32. case_match; [by rewrite app_nil_r|apply write_int32_target]. Qed.
Lemma put_bool_target n v t : put_bool n v t = t ++ put_bool n v [].
Proof. unfold put_bool. case_match; [apply write_bool_target|by rewrite app_nil_r]. Qed.
Lemma put_bytes_target n v t : put_bytes n v t = t ++ put_bytes n v [].
Proof. unfold put_bytes. case_match; [apply write_bytes_target|by rewrite app_nil_r]. Qed.
Lemma put_unknown_target u t : put_unknown u t = t ++ put_unknown u [].
Proof. unfold put_unknown. case_match; [apply write_unknown_target|by rewrite app_nil_r]. Qed.
Lemma put_unknown_none u t : have_unknown_fields u = false → put_unknown u t = t.
Proof. unfold put_unknown. by intros ->. Qed.
Lemma add_unknown_none u n : have_unknown_fields u = false → add_unknown u n = n.
Proof. unfold add_unknown. by intros ->. Qed.

(** A counted field has the size of the written one. *)
Lemma add_int32_len n v total :
  1 ≤ n ≤ 15 → INT_MIN ≤ v ≤ INT_MAX → 0 ≤ total ≤ INT_MAX →
  add_int32 v total = total + len (put_int32 n v []) ∧ 0 ≤ len (put_int32 n v []) ≤ 11.
Proof.
  intros Hn Hv Ht. unfold add_int32, put_int32. destruct (Z.eqb_spec v 0); [unfold len; simpl; lia|].
  destruct (int32_size n v Hn Hv) as [-> Hs]. rewrite to_u64_id by int_lia. lia.
Qed.

Lemma add_bool_len n v total :
  1 ≤ n ≤ 15 → 0 ≤ total ≤ INT_MAX →
  add_bool v total = total + len (put_bool n v []) ∧ 0 ≤ len (put_bool n v []) ≤ 2.
Proof.
  intros Hn Ht. unfold add_bool, put_bool. destruct v; [|unfold len; simpl; lia].
  rewrite bool_size by done. rewrite to_u64_id by int_lia. lia.
Qed.

Lemma add_bytes_len n v total :
  1 ≤ n ≤ 15 → fits (len v) → 0 ≤ total ≤ INT_MAX →
  add_bytes v total = total + len (put_bytes n v []) ∧ 0 ≤ len (put_bytes n v []) ≤ len v + 6.
Proof.
  intros Hn Hv Ht. unfold add_bytes, put_bytes. destruct (Z.ltb_spec 0 (len v)); [|unfold len in *; simpl; lia].
  destruct (bytes_size n v Hn Hv) as [-> Hs]. unfold fits in Hv. rewrite to_u64_id by int_lia. lia.
Qed.

(** A written field is read back. *)
Section Read.
Context {M : Type} (switch : Z → M → list Z → res (field_result M)).
Context (unknown : M → UnknownFieldSet) (set_unknown : UnknownFieldSet → M → M).
Context (Hsw : switch_laws switch).
Abbreviation parse := (parse_loop switch unknown set_unknown).

Lemma read_written m s t s1 m' :
  ReadTag s = Some (t, s1) → switch t m s1 = Ok (Field m' (Some [])) → parse m s = Ok (m', Some AtEnd).
Proof using Hsw Hlaws.
  intros Ht Hw. rewrite (parse_loop_field _ _ _ Hsw m s t s1 m' []); [apply parse_loop_nil| |done|done].
  intros ->. by apply read_tag_shorter in Ht as ?%Nat.nlt_0_r.
Qed.

Lemma read_put_int32 n m v (set : Z → M → M) :
  1 ≤ n ≤ 15 → INT_MIN ≤ v ≤ INT_MAX → (∀ s, switch (8 * n) m s = read_int32 (λ v, set v m) s) →
  parse m (put_int32 n v []) = Ok (if v =? 0 then m else set v m, Some AtEnd).
Proof using Hsw Hlaws.
  intros Hn Hv Hs. unfold put_int32. case_match; [apply parse_loop_nil|].
  destruct (int32_round n v Hn Hv) as (s & Ht & Hr). eapply read_written; [done|].
  rewrite Hs. unfold read_int32. rewrite Hr. do 3 f_equal.
  unfold to_i32, to_u64. rewrite <- Z.add_mod_idemp_l, Z.mod_mod_divide by (done || by exists (2 ^ 32)).
  rewrite Z.add_mod_idemp_l by done. apply to_i32_id. int_lia.
Qed.

Lemma read_put_bool n m v (set : bool → M → M) :
  1 ≤ n ≤ 15 → (∀ s, switch (8 * n) m s = read_bool (λ v, set v m) s) →
  parse m (put_bool n v []) = Ok (if v then set v m else m, Some AtEnd).
Proof using Hsw Hlaws.
  intros Hn Hs. unfold put_bool. destruct v; [|apply parse_loop_nil].
  destruct (bool_round n true Hn) as (s & Ht & Hr). eapply read_written; [done|].
  rewrite Hs. unfold read_bool. by rewrite Hr.
Qed.

Lemma read_put_bytes n m v (get : M → list Z) (set : list Z → M → M) :
  1 ≤ n ≤ 15 → fits (len v) → (∀ s, switch (8 * n + 2) m s = read_bytes (get m) (λ v, set v m) s) →
  parse m (put_bytes n v []) = Ok (if 0 <? len v then set v m else m, Some AtEnd).
Proof using Hsw Hlaws.
  intros Hn Hv Hs. unfold put_bytes. case_match; [|apply parse_loop_nil].
  destruct (bytes_round n v (get m) Hn Hv) as (s & Ht & Hr). eapply read_written; [done|].
  rewrite Hs. unfold read_bytes. by rewrite Hr.
Qed.

Lemma read_put_string n m v (get : M → list Z) (set : list Z → M → M) :
  1 ≤ n ≤ 15 → fits (len v) → VerifyUTF8 v = true →
  (∀ s, switch (8 * n + 2) m s = read_string (get m) (λ v, set v m) s) →
  parse m (put_bytes n v []) = Ok (if 0 <? len v then set v m else m, Some AtEnd).
Proof using Hsw Hlaws.
  intros Hn Hv Hu Hs. unfold put_bytes. case_match; [|apply parse_loop_nil].
  destruct (bytes_round n v (get m) Hn Hv) as (s & Ht & Hr). eapply read_written; [done|].
  rewrite Hs. unfold read_string. by rewrite Hr, Hu.
Qed.
End Read.

(** The readers keep to their input. *)
Definition field_local {M} (f : list Z → res (field_result M)) : Prop :=
  ∀ s, match f s with
       | Ok (Field m (Some s')) => (length s' ≤ length s)%nat ∧ ∀ r, f (s ++ r) = Ok (Field m (Some (s' ++ r)))
       | Ok (Field m None) => True
       | Ok Unusual => ∀ r, f (s ++ r) = Ok Unusual
       | Err _ => False
       end.

Lemma unusual_local {M} : field_local (λ _, Ok (@Unusual M)).
Proof. done. Qed.
Lemma read_int32_local {M} (set : Z → M) : field_local (read_int32 set).
Proof.
  intros s. unfold read_int32. destruct (ReadVarint64 s) as [v [s'|]] eqn:Hr; [|done]. simpl.
  split; [by eapply varint_shorter|]. intros r. by rewrite (varint_app _ _ _ r Hr).
Qed.
Lemma read_bool_local {M} (set : bool → M) : field_local (read_bool set).
Proof.
  intros s. unfold read_bool. destruct (ReadVarint64 s) as [v [s'|]] eqn:Hr; [|done]. simpl.
  split; [by eapply varint_shorter|]. intros r. by rewrite (varint_app _ _ _ r Hr).
Qed.
Lemma read_bytes_local {M} old (set : list Z → M) : field_local (read_bytes old set).
Proof.
  intros s. unfold read_bytes. destruct (InlineGreedyStringParser old s) as [v [s'|]] eqn:Hr; [|done]. simpl.
  split; [by eapply string_shorter|]. intros r. by rewrite (string_app _ _ _ _ r Hr).
Qed.
Lemma read_string_local {M} old (set : list Z → M) : field_local (read_string old set).
Proof.
  intros s. unfold read_string. destruct (InlineGreedyStringParser old s) as [v [s'|]] eqn:Hr; simpl.
  2: by destruct (VerifyUTF8 v).
  destruct (VerifyUTF8 v) eqn:Hu; [|done]. split; [by eapply string_shorter|].
  intros r. rewrite (string_app _ _ _ _ r Hr). simpl. by rewrite Hu.
Qed.

Lemma local_switch_laws {M} (switch : Z → M → list Z → res (field_result M)) :
  (∀ t m, field_local (switch t m)) → switch_laws switch.
Proof.
  intros Hl. split; [intros t m s|intros t m m' s s' r Hs|intros t m s r Hs]; pose proof (Hl t m s) as Hl'.
  - destruct (switch t m s) as [[m1 [s1|]|]|]; simpl in *; try done. intros m' s' [= -> ->]. apply Hl'.
  - rewrite Hs in Hl'. apply Hl'.
  - rewrite Hs in Hl'. apply Hl'.
Qed.
End Fields.

Create HintDb fields discriminated.
#[export] Hint Resolve unusual_local read_int32_local read_bool_local read_bytes_local read_string_local : fields.
