(* ===== verification/EchoMessages.v ===== *)
(** * socket/epoll/echo.pb.{h,cc}: the five message classes.

    A Section per class: the record of its members, its operations, each with the
    fields in the order of the code, the interpretation of a tag by
    [_InternalParse], and the instances of [Message] and [MessageLaws].

    A message is not on an arena and is not the default instance of its class (the
    programs create neither).  The [int] cached by [ByteSizeLong] is a member,
    because the serialization of an enclosing message reads it. *)
From S2P Require Import Prelude CInt CArray WireFormat EchoProto.

Section Messages.
Context `{Wire}.

(** The length of the strings a message can hold: its size is an [int]. *)
Definition max_text : Z := INT_MAX - 64.

(** ** Client *)
Record Client : Type := MkClient {
  Client_client_id_ : list Z;
  Client_data_ : Z;
  Client_metadata : UnknownFieldSet;
  Client_cached_size_ : Z;
}.

Definition Client_set_client_id (value : list Z) (this : Client) : Client :=
  MkClient value (Client_data_ this) (Client_metadata this) (Client_cached_size_ this).
Definition Client_set_data (value : Z) (this : Client) : Client :=
  MkClient (Client_client_id_ this) value (Client_metadata this) (Client_cached_size_ this).
Definition Client_set_metadata (u : UnknownFieldSet) (this : Client) : Client :=
  MkClient (Client_client_id_ this) (Client_data_ this) u (Client_cached_size_ this).
Definition Client_SetCachedSize (size : Z) (this : Client) : Client :=
  MkClient (Client_client_id_ this) (Client_data_ this) (Client_metadata this) size.

(** The constructor: [SharedCtor]. *)
Definition Client_SharedCtor : Client := MkClient [] 0 no_unknown_fields 0.
Definition Client_copy_ctor (from : Client) : Client :=
  let m := Client_set_metadata (MergeUnknown (Client_metadata Client_SharedCtor) (Client_metadata from)) Client_SharedCtor in
  let m := if 0 <? len (Client_client_id_ from) then Client_set_client_id (Client_client_id_ from) m else m in
  let m := Client_set_data (Client_data_ from) m in
  m.
Definition Client_Clear (this : Client) : Client := MkClient [] 0 no_unknown_fields (Client_cached_size_ this).

(** [switch (tag >> 3)] of [_InternalParse]. *)
Definition Client_switch (tag : Z) (this : Client) (ptr : list Z) : res (field_result Client) :=
  if Z.shiftr tag 3 =? 1 then
    if tag mod 256 =? 10 then read_string (Client_client_id_ this) (λ v, Client_set_client_id v this) ptr else mret Unusual
  else
  if Z.shiftr tag 3 =? 2 then
    if tag mod 256 =? 16 then read_int32 (λ v, Client_set_data v this) ptr else mret Unusual
  else mret Unusual.
Definition Client_InternalParse (this : Client) (ptr : list Z) : res (Client * option parse_end) :=
  parse_loop Client_switch Client_metadata Client_set_metadata this ptr.

Definition Client_InternalSerialize (this : Client) (target : list Z) : list Z :=
  let target := put_bytes 1 (Client_client_id_ this) target in
  let target := put_int32 2 (Client_data_ this) target in
  put_unknown (Client_metadata this) target.
Definition Client_ByteSizeLong (this : Client) : Z * Client :=
  let total_size := 0 in
  let total_size := add_bytes (Client_client_id_ this) total_size in
  let total_size := add_int32 (Client_data_ this) total_size in
  let total_size := add_unknown (Client_metadata this) total_size in
  (total_size, Client_SetCachedSize (ToCachedSize total_size) this).

Definition Client_MergeFrom (this from : Client) : Client :=
  let this := Client_set_metadata (MergeUnknown (Client_metadata this) (Client_metadata from)) this in
  let this := Client_set_client_id (merge_bytes (Client_client_id_ this) (Client_client_id_ from)) this in
  let this := Client_set_data (merge_int32 (Client_data_ this) (Client_data_ from)) this in
  this.
(** [same]: [&from == this]. *)
Definition Client_CopyFrom (same : bool) (this from : Client) : Client :=
  if same then this else Client_MergeFrom (Client_Clear this) from.
Definition Client_InternalSwap (this other : Client) : Client * Client :=
  (MkClient (Client_client_id_ other) (Client_data_ other) (Client_metadata other) (Client_cached_size_ this),
   MkClient (Client_client_id_ this) (Client_data_ this) (Client_metadata this) (Client_cached_size_ other)).
Definition Client_Swap (same : bool) (this other : Client) : Client * Client :=
  if same then (this, other) else Client_InternalSwap this other.

#[export] Instance Client_message : Message Client := {
  New := Client_SharedCtor;
  Clear := Client_Clear;
  MergeFrom := Client_MergeFrom;
  _InternalParse := Client_InternalParse;
  ByteSizeLong := Client_ByteSizeLong;
  _InternalSerialize := Client_InternalSerialize;
  GetCachedSize := Client_cached_size_;
}.

(** ** Server *)
Record Server : Type := MkServer {
  Server_server_id_ : Z;
  Server_data_ : Z;
  Server_metadata : UnknownFieldSet;
  Server_cached_size_ : Z;
}.

Definition Server_set_server_id (value : Z) (this : Server) : Server :=
  MkServer value (Server_data_ this) (Server_metadata this) (Server_cached_size_ this).
Definition Server_set_data (value : Z) (this : Server) : Server :=
  MkServer (Server_server_id_ this) value (Server_metadata this) (Server_cached_size_ this).
Definition Server_set_metadata (u : UnknownFieldSet) (this : Server) : Server :=
  MkServer (Server_server_id_ this) (Server_data_ this) u (Server_cached_size_ this).
Definition Server_SetCachedSize (size : Z) (this : Server) : Server :=
  MkServer (Server_server_id_ this) (Server_data_ this) (Server_metadata this) size.

(** The constructor: [SharedCtor]. *)
Definition Server_SharedCtor : Server := MkServer 0 0 no_unknown_fields 0.
Definition Server_copy_ctor (from : Server) : Server :=
  let m := Server_set_metadata (MergeUnknown (Server_metadata Server_SharedCtor) (Server_metadata from)) Server_SharedCtor in
  let m := Server_set_server_id (Server_server_id_ from) m in
  let m := Server_set_data (Server_data_ from) m in
  m.
Definition Server_Clear (this : Server) : Server := MkServer 0 0 no_unknown_fields (Server_cached_size_ this).

(** [switch (tag >> 3)] of [_InternalParse]. *)
Definition Server_switch (tag : Z) (this : Server) (ptr : list Z) : res (field_result Server) :=
  if Z.shiftr tag 3 =? 1 then
    if tag mod 256 =? 8 then read_int32 (λ v, Server_set_server_id v this) ptr else mret Unusual
  else
  if Z.shiftr tag 3 =? 2 then
    if tag mod 256 =? 16 then read_int32 (λ v, Server_set_data v this) ptr else mret Unusual
  else mret Unusual.
Definition Server_InternalParse (this : Server) (ptr : list Z) : res (Server * option parse_end) :=
  parse_loop Server_switch Server_metadata Server_set_metadata this ptr.

Definition Server_InternalSerialize (this : Server) (target : list Z) : list Z :=
  let target := put_int32 1 (Server_server_id_ this) target in
  let target := put_int32 2 (Server_data_ this) target in
  put_unknown (Server_metadata this) target.
Definition Server_ByteSizeLong (this : Server) : Z * Server :=
  let total_size := 0 in
  let total_size := add_int32 (Server_server_id_ this) total_size in
  let total_size := add_int32 (Server_data_ this) total_size in
  let total_size := add_unknown (Server_metadata this) total_size in
  (total_size, Server_SetCachedSize (ToCachedSize total_size) this).

Definition Server_MergeFrom (this from : Server) : Server :=
  let this := Server_set_metadata (MergeUnknown (Server_metadata this) (Server_metadata from)) this in
  let this := Server_set_server_id (merge_int32 (Server_server_id_ this) (Server_server_id_ from)) this in
  let this := Server_set_data (merge_int32 (Server_data_ this) (Server_data_ from)) this in
  this.
(** [same]: [&from == this]. *)
Definition Server_CopyFrom (same : bool) (this from : Server) : Server :=
  if same then this else Server_MergeFrom (Server_Clear this) from.
Definition Server_InternalSwap (this other : Server) : Server * Server :=
  (MkServer (Server_server_id_ other) (Server_data_ other) (Server_metadata other) (Server_cached_size_ this),
   MkServer (Server_server_id_ this) (Server_data_ this) (Server_metadata this) (Server_cached_size_ other)).
Definition Server_Swap (same : bool) (this other : Server) : Server * Server :=
  if same then (this, other) else Server_InternalSwap this other.

#[export] Instance Server_message : Message Server := {
  New := Server_SharedCtor;
  Clear := Server_Clear;
  MergeFrom := Server_MergeFrom;
  _InternalParse := Server_InternalParse;
  ByteSizeLong := Server_ByteSizeLong;
  _InternalSerialize := Server_InternalSerialize;
  GetCachedSize := Server_cached_size_;
}.

(** ** ResultCode *)
Record ResultCode : Type := MkResultCode {
  ResultCode_errmsg_ : list Z;
  ResultCode_errcode_ : Z;
  ResultCode_metadata : UnknownFieldSet;
  ResultCode_cached_size_ : Z;
}.

Definition ResultCode_set_errmsg (value : list Z) (this : ResultCode) : ResultCode :=
  MkResultCode value (ResultCode_errcode_ this) (ResultCode_metadata this) (ResultCode_cached_size_ this).
Definition ResultCode_set_errcode (value : Z) (this : ResultCode) : ResultCode :=
  MkResultCode (ResultCode_errmsg_ this) value (ResultCode_metadata this) (ResultCode_cached_size_ this).
Definition ResultCode_set_metadata (u : UnknownFieldSet) (this : ResultCode) : ResultCode :=
  MkResultCode (ResultCode_errmsg_ this) (ResultCode_errcode_ this) u (ResultCode_cached_size_ this).
Definition ResultCode_SetCachedSize (size : Z) (this : ResultCode) : ResultCode :=
  MkResultCode (ResultCode_errmsg_ this) (ResultCode_errcode_ this) (ResultCode_metadata this) size.

(** The constructor: [SharedCtor]. *)
Definition ResultCode_SharedCtor : ResultCode := MkResultCode [] 0 no_unknown_fields 0.
Definition ResultCode_copy_ctor (from : ResultCode) : ResultCode :=
  let m := ResultCode_set_metadata (MergeUnknown (ResultCode_metadata ResultCode_SharedCtor) (ResultCode_metadata from)) ResultCode_SharedCtor in
  let m := if 0 <? len (ResultCode_errmsg_ from) then ResultCode_set_errmsg (ResultCode_errmsg_ from) m else m in
  let m := ResultCode_set_errcode (ResultCode_errcode_ from) m in
  m.
Definition ResultCode_Clear (this : ResultCode) : ResultCode := MkResultCode [] 0 no_unknown_fields (ResultCode_cached_size_ this).

(** [switch (tag >> 3)] of [_InternalParse]. *)
Definition ResultCode_switch (tag : Z) (this : ResultCode) (ptr : list Z) : res (field_result ResultCode) :=
  if Z.shiftr tag 3 =? 1 then
    if tag mod 256 =? 8 then read_int32 (λ v, ResultCode_set_errcode v this) ptr else mret Unusual
  else
  if Z.shiftr tag 3 =? 2 then
    if tag mod 256 =? 18 then read_bytes (ResultCode_errmsg_ this) (λ v, ResultCode_set_errmsg v this) ptr else mret Unusual
  else mret Unusual.
Definition ResultCode_InternalParse (this : ResultCode) (ptr : list Z) : res (ResultCode * option parse_end) :=
  parse_loop ResultCode_switch ResultCode_metadata ResultCode_set_metadata this ptr.

Definition ResultCode_InternalSerialize (this : ResultCode) (target : list Z) : list Z :=
  let target := put_int32 1 (ResultCode_errcode_ this) target in
  let target := put_bytes 2 (ResultCode_errmsg_ this) target in
  put_unknown (ResultCode_metadata this) target.
Definition ResultCode_ByteSizeLong (this : ResultCode) : Z * ResultCode :=
  let total_size := 0 in
  let total_size := add_bytes (ResultCode_errmsg_ this) total_size in
  let total_size := add_int32 (ResultCode_errcode_ this) total_size in
  let total_size := add_unknown (ResultCode_metadata this) total_size in
  (total_size, ResultCode_SetCachedSize (ToCachedSize total_size) this).

Definition ResultCode_MergeFrom (this from : ResultCode) : ResultCode :=
  let this := ResultCode_set_metadata (MergeUnknown (ResultCode_metadata this) (ResultCode_metadata from)) this in
  let this := ResultCode_set_errmsg (merge_bytes (ResultCode_errmsg_ this) (ResultCode_errmsg_ from)) this in
  let this := ResultCode_set_errcode (merge_int32 (ResultCode_errcode_ this) (ResultCode_errcode_ from)) this in
  this.
(** [same]: [&from == this]. *)
Definition ResultCode_CopyFrom (same : bool) (this from : ResultCode) : ResultCode :=
  if same then this else ResultCode_MergeFrom (ResultCode_Clear this) from.
Definition ResultCode_InternalSwap (this other : ResultCode) : ResultCode * ResultCode :=
  (MkResultCode (ResultCode_errmsg_ other) (ResultCode_errcode_ other) (ResultCode_metadata other) (ResultCode_cached_size_ this),
   MkResultCode (ResultCode_errmsg_ this) (ResultCode_errcode_ this) (ResultCode_metadata this) (ResultCode_cached_size_ other)).
Definition ResultCode_Swap (same : bool) (this other : ResultCode) : ResultCode * ResultCode :=
  if same then (this, other) else ResultCode_InternalSwap this other.

#[export] Instance ResultCode_message : Message ResultCode := {
  New := ResultCode_SharedCtor;
  Clear := ResultCode_Clear;
  MergeFrom := ResultCode_MergeFrom;
  _InternalParse := ResultCode_InternalParse;
  ByteSizeLong := ResultCode_ByteSizeLong;
  _InternalSerialize := ResultCode_InternalSerialize;
  GetCachedSize := ResultCode_cached_size_;
}.

(** ** LoginRequest *)
Record LoginRequest : Type := MkLoginRequest {
  LoginRequest_name_ : list Z;
  LoginRequest_pwd_ : list Z;
  LoginRequest_metadata : UnknownFieldSet;
  LoginRequest_cached_size_ : Z;
}.

Definition LoginRequest_set_name (value : list Z) (this : LoginRequest) : LoginRequest :=
  MkLoginRequest value (LoginRequest_pwd_ this) (LoginRequest_metadata this) (LoginRequest_cached_size_ this).
Definition LoginRequest_set_pwd (value : list Z) (this : LoginRequest) : LoginRequest :=
  MkLoginRequest (LoginRequest_name_ this) value (LoginRequest_metadata this) (LoginRequest_cached_size_ this).
Definition LoginRequest_set_metadata (u : UnknownFieldSet) (this : LoginRequest) : LoginRequest :=
  MkLoginRequest (LoginRequest_name_ this) (LoginRequest_pwd_ this) u (LoginRequest_cached_size_ this).
Definition LoginRequest_SetCachedSize (size : Z) (this : LoginRequest) : LoginRequest :=
  MkLoginRequest (LoginRequest_name_ this) (LoginRequest_pwd_ this) (LoginRequest_metadata this) size.

(** The constructor: [SharedCtor]. *)
Definition LoginRequest_SharedCtor : LoginRequest := MkLoginRequest [] [] no_unknown_fields 0.
Definition LoginRequest_copy_ctor (from : LoginRequest) : LoginRequest :=
  let m := LoginRequest_set_metadata (MergeUnknown (LoginRequest_metadata LoginRequest_SharedCtor) (LoginRequest_metadata from)) LoginRequest_SharedCtor in
  let m := if 0 <? len (LoginRequest_name_ from) then LoginRequest_set_name (LoginRequest_name_ from) m else m in
  let m := if 0 <? len (LoginRequest_pwd_ from) then LoginRequest_set_pwd (LoginRequest_pwd_ from) m else m in
  m.
Definition LoginRequest_Clear (this : LoginRequest) : LoginRequest := MkLoginRequest [] [] no_unknown_fields (LoginRequest_cached_size_ this).

(** [switch (tag >> 3)] of [_InternalParse]. *)
Definition LoginRequest_switch (tag : Z) (this : LoginRequest) (ptr : list Z) : res (field_result LoginRequest) :=
  if Z.shiftr tag 3 =? 1 then
    if tag mod 256 =? 10 then read_bytes (LoginRequest_name_ this) (λ v, LoginRequest_set_name v this) ptr else mret Unusual
  else
  if Z.shiftr tag 3 =? 2 then
    if tag mod 256 =? 18 then read_bytes (LoginRequest_pwd_ this) (λ v, LoginRequest_set_pwd v this) ptr else mret Unusual
  else mret Unusual.
Definition LoginRequest_InternalParse (this : LoginRequest) (ptr : list Z) : res (LoginRequest * option parse_end) :=
  parse_loop LoginRequest_switch LoginRequest_metadata LoginRequest_set_metadata this ptr.

Definition LoginRequest_InternalSerialize (this : LoginRequest) (target : list Z) : list Z :=
  let target := put_bytes 1 (LoginRequest_name_ this) target in
  let target := put_bytes 2 (LoginRequest_pwd_ this) target in
  put_unknown (LoginRequest_metadata this) target.
Definition LoginRequest_ByteSizeLong (this : LoginRequest) : Z * LoginRequest :=
  let total_size := 0 in
  let total_size := add_bytes (LoginRequest_name_ this) total_size in
  let total_size := add_bytes (LoginRequest_pwd_ this) total_size in
  let total_size := add_unknown (LoginRequest_metadata this) total_size in
  (total_size, LoginRequest_SetCachedSize (ToCachedSize total_size) this).

Definition LoginRequest_MergeFrom (this from : LoginRequest) : LoginRequest :=
  let this := LoginRequest_set_metadata (MergeUnknown (LoginRequest_metadata this) (LoginRequest_metadata from)) this in
  let this := LoginRequest_set_name (merge_bytes (LoginRequest_name_ this) (LoginRequest_name_ from)) this in
  let this := LoginRequest_set_pwd (merge_bytes (LoginRequest_pwd_ this) (LoginRequest_pwd_ from)) this in
  this.
(** [same]: [&from == this]. *)
Definition LoginRequest_CopyFrom (same : bool) (this from : LoginRequest) : LoginRequest :=
  if same then this else LoginRequest_MergeFrom (LoginRequest_Clear this) from.
Definition LoginRequest_InternalSwap (this other : LoginRequest) : LoginRequest * LoginRequest :=
  (MkLoginRequest (LoginRequest_name_ other) (LoginRequest_pwd_ other) (LoginRequest_metadata other) (LoginRequest_cached_size_ this),
   MkLoginRequest (LoginRequest_name_ this) (LoginRequest_pwd_ this) (LoginRequest_metadata this) (LoginRequest_cached_size_ other)).
Definition LoginRequest_Swap (same : bool) (this other : LoginRequest) : LoginRequest * LoginRequest :=
  if same then (this, other) else LoginRequest_InternalSwap this other.

#[export] Instance LoginRequest_message : Message LoginRequest := {
  New := LoginRequest_SharedCtor;
  Clear := LoginRequest_Clear;
  MergeFrom := LoginRequest_MergeFrom;
  _InternalParse := LoginRequest_InternalParse;
  ByteSizeLong := LoginRequest_ByteSizeLong;
  _InternalSerialize := LoginRequest_InternalSerialize;
  GetCachedSize := LoginRequest_cached_size_;
}.

(** ** LoginResponse *)
Record LoginResponse : Type := MkLoginResponse {
  LoginResponse_result_ : option ResultCode;
  LoginResponse_sucess_ : bool;
  LoginResponse_metadata : UnknownFieldSet;
  LoginResponse_cached_size_ : Z;
}.

Definition LoginResponse_set_result (value : option ResultCode) (this : LoginResponse) : LoginResponse :=
  MkLoginResponse value (LoginResponse_sucess_ this) (LoginResponse_metadata this) (LoginResponse_cached_size_ this).
Definition LoginResponse_set_sucess (value : bool) (this : LoginResponse) : LoginResponse :=
  MkLoginResponse (LoginResponse_result_ this) value (LoginResponse_metadata this) (LoginResponse_cached_size_ this).
Definition LoginResponse_set_metadata (u : UnknownFieldSet) (this : LoginResponse) : LoginResponse :=
  MkLoginResponse (LoginResponse_result_ this) (LoginResponse_sucess_ this) u (LoginResponse_cached_size_ this).
Definition LoginResponse_SetCachedSize (size : Z) (this : LoginResponse) : LoginResponse :=
  MkLoginResponse (LoginResponse_result_ this) (LoginResponse_sucess_ this) (LoginResponse_metadata this) size.

Definition has_result (this : LoginResponse) : bool := bool_decide (is_Some (LoginResponse_result_ this)).
(** [_internal_result]: the default instance where there is no message. *)
Definition result (this : LoginResponse) : ResultCode :=
  default ResultCode_SharedCtor (LoginResponse_result_ this).
(** [_internal_mutable_result]: the message, created where there is none. *)
Definition mutable_result (this : LoginResponse) : ResultCode * LoginResponse :=
  match LoginResponse_result_ this with
  | Some p => (p, this)
  | None => (ResultCode_SharedCtor, LoginResponse_set_result (Some ResultCode_SharedCtor) this)
  end.
Definition clear_result (this : LoginResponse) : LoginResponse := LoginResponse_set_result None this.
(** The caller owns what [release_result] returns, the message what
    [set_allocated_result] is given. *)
Definition release_result (this : LoginResponse) : option ResultCode * LoginResponse :=
  (LoginResponse_result_ this, LoginResponse_set_result None this).
Definition set_allocated_result (value : option ResultCode) (this : LoginResponse) : LoginResponse :=
  LoginResponse_set_result value this.

Definition LoginResponse_SharedCtor : LoginResponse := MkLoginResponse None false no_unknown_fields 0.
Definition LoginResponse_copy_ctor (from : LoginResponse) : LoginResponse :=
  let m := LoginResponse_set_metadata
    (MergeUnknown (LoginResponse_metadata LoginResponse_SharedCtor) (LoginResponse_metadata from)) LoginResponse_SharedCtor in
  let m := if has_result from then LoginResponse_set_result (Some (ResultCode_copy_ctor (result from))) m
           else LoginResponse_set_result None m in
  LoginResponse_set_sucess (LoginResponse_sucess_ from) m.
Definition LoginResponse_Clear (this : LoginResponse) : LoginResponse :=
  MkLoginResponse None false no_unknown_fields (LoginResponse_cached_size_ this).

(** [switch (tag >> 3)] of [_InternalParse]. *)
Definition LoginResponse_switch (tag : Z) (this : LoginResponse) (ptr : list Z) : res (field_result LoginResponse) :=
  if Z.shiftr tag 3 =? 1 then
    if tag mod 256 =? 10 then
      let '(r, this) := mutable_result this in
      '(r, ptr) ← ParseMessage r ptr;
      mret (Field (LoginResponse_set_result (Some r) this) ptr)
    else mret Unusual
  else
  if Z.shiftr tag 3 =? 2 then
    if tag mod 256 =? 16 then read_bool (λ v, LoginResponse_set_sucess v this) ptr else mret Unusual
  else mret Unusual.
Definition LoginResponse_InternalParse (this : LoginResponse) (ptr : list Z) : res (LoginResponse * option parse_end) :=
  parse_loop LoginResponse_switch LoginResponse_metadata LoginResponse_set_metadata this ptr.

Definition LoginResponse_InternalSerialize (this : LoginResponse) (target : list Z) : list Z :=
  let target := if has_result this then InternalWriteMessage 1 (result this) target else target in
  let target := put_bool 2 (LoginResponse_sucess_ this) target in
  put_unknown (LoginResponse_metadata this) target.
(** [MessageSize] computes, and caches, the size of the message inside. *)
Definition LoginResponse_ByteSizeLong (this : LoginResponse) : Z * LoginResponse :=
  let total_size := 0 in
  let '(total_size, this) :=
    match LoginResponse_result_ this with
    | Some r => let '(n, r) := MessageSize r in
                (to_u64 (total_size + (1 + n)), LoginResponse_set_result (Some r) this)
    | None => (total_size, this)
    end in
  let total_size := add_bool (LoginResponse_sucess_ this) total_size in
  let total_size := add_unknown (LoginResponse_metadata this) total_size in
  (total_size, LoginResponse_SetCachedSize (ToCachedSize total_size) this).

Definition LoginResponse_MergeFrom (this from : LoginResponse) : LoginResponse :=
  let this := LoginResponse_set_metadata
    (MergeUnknown (LoginResponse_metadata this) (LoginResponse_metadata from)) this in
  let this :=
    if has_result from then
      let '(r, this) := mutable_result this in
      LoginResponse_set_result (Some (ResultCode_MergeFrom r (result from))) this
    else this in
  LoginResponse_set_sucess (merge_bool (LoginResponse_sucess_ this) (LoginResponse_sucess_ from)) this.
Definition LoginResponse_CopyFrom (same : bool) (this from : LoginResponse) : LoginResponse :=
  if same then this else LoginResponse_MergeFrom (LoginResponse_Clear this) from.
Definition LoginResponse_InternalSwap (this other : LoginResponse) : LoginResponse * LoginResponse :=
  (MkLoginResponse (LoginResponse_result_ other) (LoginResponse_sucess_ other)
     (LoginResponse_metadata other) (LoginResponse_cached_size_ this),
   MkLoginResponse (LoginResponse_result_ this) (LoginResponse_sucess_ this)
     (LoginResponse_metadata this) (LoginResponse_cached_size_ other)).
Definition LoginResponse_Swap (same : bool) (this other : LoginResponse) : LoginResponse * LoginResponse :=
  if same then (this, other) else LoginResponse_InternalSwap this other.

#[export] Instance LoginResponse_message : Message LoginResponse := {
  New := LoginResponse_SharedCtor;
  Clear := LoginResponse_Clear;
  MergeFrom := LoginResponse_MergeFrom;
  _InternalParse := LoginResponse_InternalParse;
  ByteSizeLong := LoginResponse_ByteSizeLong;
  _InternalSerialize := LoginResponse_InternalSerialize;
  GetCachedSize := LoginResponse_cached_size_;
}.

(** * Lemmas *)
Context `{Hlaws : !WireLaws}.

(** Splits a tag's cases and closes the goals about fields. *)
Ltac switch_cases := intros t m; repeat case_match; auto with fields.

Lemma Client_switch_laws : switch_laws Client_switch.
Proof using Hlaws. apply local_switch_laws. unfold Client_switch. switch_cases. Qed.
Lemma Server_switch_laws : switch_laws Server_switch.
Proof using Hlaws. apply local_switch_laws. unfold Server_switch. switch_cases. Qed.
Lemma ResultCode_switch_laws : switch_laws ResultCode_switch.
Proof using Hlaws. apply local_switch_laws. unfold ResultCode_switch. switch_cases. Qed.
Lemma LoginRequest_switch_laws : switch_laws LoginRequest_switch.
Proof using Hlaws. apply local_switch_laws. unfold LoginRequest_switch. switch_cases. Qed.

(** Writes each field apart: [target] is what was written before it. *)
Ltac targets :=
  repeat match goal with
  | |- context [put_int32 ?n ?v ?t] => lazymatch t with [] => fail | _ => rewrite (put_int32_target n v t) end
  | |- context [put_bool ?n ?v ?t] => lazymatch t with [] => fail | _ => rewrite (put_bool_target n v t) end
  | |- context [put_bytes ?n ?v ?t] => lazymatch t with [] => fail | _ => rewrite (put_bytes_target n v t) end
  | |- context [put_unknown ?u ?t] => lazymatch t with [] => fail | _ => rewrite (put_unknown_target u t) end
  end.

Lemma Client_target m t : Client_InternalSerialize m t = t ++ Client_InternalSerialize m [].
Proof using Hlaws. unfold Client_InternalSerialize. targets. by rewrite <- !app_assoc. Qed.
Lemma Server_target m t : Server_InternalSerialize m t = t ++ Server_InternalSerialize m [].
Proof using Hlaws. unfold Server_InternalSerialize. targets. by rewrite <- !app_assoc. Qed.
Lemma ResultCode_target m t : ResultCode_InternalSerialize m t = t ++ ResultCode_InternalSerialize m [].
Proof using Hlaws. unfold ResultCode_InternalSerialize. targets. by rewrite <- !app_assoc. Qed.
Lemma LoginRequest_target m t : LoginRequest_InternalSerialize m t = t ++ LoginRequest_InternalSerialize m [].
Proof using Hlaws. unfold LoginRequest_InternalSerialize. targets. by rewrite <- !app_assoc. Qed.

(** The messages the format holds: [int32]s in range, no fields of a later
    version, strings that leave the size an [int], and UTF-8 in a [string]. *)
Definition Client_ok (m : Client) : Prop :=
  INT_MIN ≤ Client_data_ m ≤ INT_MAX ∧ len (Client_client_id_ m) ≤ max_text ∧
  VerifyUTF8 (Client_client_id_ m) = true ∧ have_unknown_fields (Client_metadata m) = false.
Definition Server_ok (m : Server) : Prop :=
  INT_MIN ≤ Server_server_id_ m ≤ INT_MAX ∧ INT_MIN ≤ Server_data_ m ≤ INT_MAX ∧
  have_unknown_fields (Server_metadata m) = false.
Definition ResultCode_ok (m : ResultCode) : Prop :=
  INT_MIN ≤ ResultCode_errcode_ m ≤ INT_MAX ∧ len (ResultCode_errmsg_ m) ≤ max_text ∧
  have_unknown_fields (ResultCode_metadata m) = false.
Definition LoginRequest_ok (m : LoginRequest) : Prop :=
  len (LoginRequest_name_ m) + len (LoginRequest_pwd_ m) ≤ max_text ∧
  have_unknown_fields (LoginRequest_metadata m) = false.

(** A message without unknown fields is its fields, one after the other. *)
Lemma Client_wire m : have_unknown_fields (Client_metadata m) = false →
  wire m = put_bytes 1 (Client_client_id_ m) [] ++ put_int32 2 (Client_data_ m) [].
Proof using Hlaws. intros Hu. unfold wire. simpl. unfold Client_InternalSerialize. simpl. rewrite put_unknown_none by done. by targets. Qed.
Lemma Server_wire m : have_unknown_fields (Server_metadata m) = false →
  wire m = put_int32 1 (Server_server_id_ m) [] ++ put_int32 2 (Server_data_ m) [].
Proof using Hlaws. intros Hu. unfold wire. simpl. unfold Server_InternalSerialize. simpl. rewrite put_unknown_none by done. by targets. Qed.
Lemma ResultCode_wire m : have_unknown_fields (ResultCode_metadata m) = false →
  wire m = put_int32 1 (ResultCode_errcode_ m) [] ++ put_bytes 2 (ResultCode_errmsg_ m) [].
Proof using Hlaws. intros Hu. unfold wire. simpl. unfold ResultCode_InternalSerialize. simpl. rewrite put_unknown_none by done. by targets. Qed.
Lemma LoginRequest_wire m : have_unknown_fields (LoginRequest_metadata m) = false →
  wire m = put_bytes 1 (LoginRequest_name_ m) [] ++ put_bytes 2 (LoginRequest_pwd_ m) [].
Proof using Hlaws. intros Hu. unfold wire. simpl. unfold LoginRequest_InternalSerialize. simpl. rewrite put_unknown_none by done. by targets. Qed.

#[export] Instance Client_laws : MessageLaws Client.
Proof using Hlaws.
  refine {| msg_ok := Client_ok |}.
  - apply Client_target.
  - intros m s. exact (parse_loop_total _ _ _ Client_switch_laws m s).
  - intros m (Hd & Hi & Hv & Hu). rewrite Client_wire, len_app by done. simpl. rewrite add_unknown_none by done.
    pose proof (len_nonneg (Client_client_id_ m)). unfold max_text in Hi.
    destruct (add_bytes_len 1 (Client_client_id_ m) 0) as [-> ?]; [lia|unfold fits; int_lia|int_lia|].
    edestruct (add_int32_len 2 (Client_data_ m)) as [-> ?]; [lia|done|int_lia|].
    rewrite cached_size by int_lia. lia.
  - intros m m0 (Hd & Hi & Hv & Hu). rewrite Client_wire by done. unfold max_text in Hi.
    etransitivity; [eapply (parse_two _ _ _ Client_switch_laws)|].
    + apply (read_put_string _ _ _ Client_switch_laws _ _ _ Client_client_id_ Client_set_client_id);
        [lia|unfold fits; int_lia|done|reflexivity].
    + apply (read_put_int32 _ _ _ Client_switch_laws _ _ _ Client_set_data); [lia|done|reflexivity].
    + simpl. unfold Client_MergeFrom, merge_bytes, merge_int32. rewrite merge_none_r by done.
      destruct m0. by repeat case_match.
Defined.

#[export] Instance Server_laws : MessageLaws Server.
Proof using Hlaws.
  refine {| msg_ok := Server_ok |}.
  - apply Server_target.
  - intros m s. exact (parse_loop_total _ _ _ Server_switch_laws m s).
  - intros m (Hi & Hd & Hu). rewrite Server_wire, len_app by done. simpl. rewrite add_unknown_none by done.
    destruct (add_int32_len 1 (Server_server_id_ m) 0) as [-> ?]; [lia|done|int_lia|].
    edestruct (add_int32_len 2 (Server_data_ m)) as [-> ?]; [lia|done|int_lia|].
    rewrite cached_size by int_lia. lia.
  - intros m m0 (Hi & Hd & Hu). rewrite Server_wire by done.
    etransitivity; [eapply (parse_two _ _ _ Server_switch_laws)|].
    + apply (read_put_int32 _ _ _ Server_switch_laws _ _ _ Server_set_server_id); [lia|done|reflexivity].
    + apply (read_put_int32 _ _ _ Server_switch_laws _ _ _ Server_set_data); [lia|done|reflexivity].
    + simpl. unfold Server_MergeFrom, merge_int32. rewrite merge_none_r by done.
      destruct m0. by repeat case_match.
Defined.

#[export] Instance ResultCode_laws : MessageLaws ResultCode.
Proof using Hlaws.
  refine {| msg_ok := ResultCode_ok |}.
  - apply ResultCode_target.
  - intros m s. exact (parse_loop_total _ _ _ ResultCode_switch_laws m s).
  - intros m (Hd & Hi & Hu). rewrite ResultCode_wire, len_app by done. simpl. rewrite add_unknown_none by done.
    pose proof (len_nonneg (ResultCode_errmsg_ m)). unfold max_text in Hi.
    destruct (add_bytes_len 2 (ResultCode_errmsg_ m) 0) as [-> ?]; [lia|unfold fits; int_lia|int_lia|].
    edestruct (add_int32_len 1 (ResultCode_errcode_ m)) as [-> ?]; [lia|done|int_lia|].
    rewrite cached_size by int_lia. lia.
  - intros m m0 (Hd & Hi & Hu). rewrite ResultCode_wire by done. unfold max_text in Hi.
    etransitivity; [eapply (parse_two _ _ _ ResultCode_switch_laws)|].
    + apply (read_put_int32 _ _ _ ResultCode_switch_laws _ _ _ ResultCode_set_errcode); [lia|done|reflexivity].
    + apply (read_put_bytes _ _ _ ResultCode_switch_laws _ _ _ ResultCode_errmsg_ ResultCode_set_errmsg);
        [lia|unfold fits; int_lia|reflexivity].
    + simpl. unfold ResultCode_MergeFrom, merge_bytes, merge_int32. rewrite merge_none_r by done.
      destruct m0. by repeat case_match.
Defined.

#[export] Instance LoginRequest_laws : MessageLaws LoginRequest.
Proof using Hlaws.
  refine {| msg_ok := LoginRequest_ok |}.
  - apply LoginRequest_target.
  - intros m s. exact (parse_loop_total _ _ _ LoginRequest_switch_laws m s).
  - intros m (Hi & Hu). rewrite LoginRequest_wire, len_app by done. simpl. rewrite add_unknown_none by done.
    pose proof (len_nonneg (LoginRequest_name_ m)). pose proof (len_nonneg (LoginRequest_pwd_ m)).
    unfold max_text in Hi.
    destruct (add_bytes_len 1 (LoginRequest_name_ m) 0) as [-> ?]; [lia|unfold fits; int_lia|int_lia|].
    edestruct (add_bytes_len 2 (LoginRequest_pwd_ m)) as [-> ?]; [lia|unfold fits; int_lia|int_lia|].
    rewrite cached_size by int_lia. lia.
  - intros m m0 (Hi & Hu). rewrite LoginRequest_wire by done. unfold max_text in Hi.
    pose proof (len_nonneg (LoginRequest_name_ m)). pose proof (len_nonneg (LoginRequest_pwd_ m)).
    etransitivity; [eapply (parse_two _ _ _ LoginRequest_switch_laws)|].
    + apply (read_put_bytes _ _ _ LoginRequest_switch_laws _ _ _ LoginRequest_name_ LoginRequest_set_name);
        [lia|unfold fits; int_lia|reflexivity].
    + apply (read_put_bytes _ _ _ LoginRequest_switch_laws _ _ _ LoginRequest_pwd_ LoginRequest_set_pwd);
        [lia|unfold fits; int_lia|reflexivity].
    + simpl. unfold LoginRequest_MergeFrom, merge_bytes. rewrite merge_none_r by done.
      destruct m0. by repeat case_match.
Defined.

(** *** LoginResponse: a message inside a message *)
Lemma ResultCode_wire_bound r : ResultCode_ok r → len (wire r) ≤ INT_MAX - 47.
Proof using Hlaws.
  intros (Hd & Hi & Hu). rewrite ResultCode_wire, len_app by done.
  pose proof (len_nonneg (ResultCode_errmsg_ r)). unfold max_text in Hi.
  destruct (add_bytes_len 2 (ResultCode_errmsg_ r) 0) as [_ ?]; [lia|unfold fits; int_lia|int_lia|].
  destruct (add_int32_len 1 (ResultCode_errcode_ r) 0) as [_ ?]; [lia|done|int_lia|]. lia.
Qed.

Lemma read_message_local (r : ResultCode) (set : ResultCode → LoginResponse) :
  field_local (λ ptr, '(r, ptr) ← ParseMessage r ptr; mret (Field (set r) ptr)).
Proof using Hlaws.
  intros s. pose proof (message_total ResultCode r s) as Ht.
  destruct (ParseMessage r s) as [[r' [s'|]]|e] eqn:Hp; simpl in *; [|done|done].
  split; [by apply Ht|]. intros s2. by rewrite (message_app _ _ _ _ _ s2 Hp).
Qed.

Lemma LoginResponse_switch_laws : switch_laws LoginResponse_switch.
Proof using Hlaws.
  apply local_switch_laws. unfold LoginResponse_switch. intros t m. destruct (mutable_result m) as [r m'].
  pose proof (read_message_local r (λ r, LoginResponse_set_result (Some r) m')).
  repeat case_match; auto with fields.
Qed.

Lemma LoginResponse_target m t : LoginResponse_InternalSerialize m t = t ++ LoginResponse_InternalSerialize m [].
Proof using Hlaws.
  unfold LoginResponse_InternalSerialize. targets.
  case_match; [rewrite (write_message_target _ _ _ t)|]; simpl; by rewrite <- ?app_assoc.
Qed.

Definition LoginResponse_ok (m : LoginResponse) : Prop :=
  match LoginResponse_result_ m with Some r => ResultCode_ok r | None => True end ∧
  have_unknown_fields (LoginResponse_metadata m) = false.

(** The size of the message inside was cached when it is written. *)
Lemma LoginResponse_sized m : LoginResponse_ok m →
  LoginResponse_result_ (sized m) = sized <$> LoginResponse_result_ m ∧
  LoginResponse_sucess_ (sized m) = LoginResponse_sucess_ m ∧
  LoginResponse_metadata (sized m) = LoginResponse_metadata m.
Proof using Hlaws.
  intros [Hr Hu]. unfold sized at 1 3 4. simpl. unfold LoginResponse_ByteSizeLong.
  destruct (LoginResponse_result_ m) as [r|] eqn:Hm; [|by simpl; rewrite Hm].
  destruct (message_size ResultCode 1 r) as [Hs _]; [lia|done| |].
  { unfold fits. pose proof (ResultCode_wire_bound r Hr). int_lia. }
  destruct (MessageSize r) as [n r']. simpl in *. by subst.
Qed.

Lemma LoginResponse_wire m : LoginResponse_ok m →
  wire m = match LoginResponse_result_ m with Some r => InternalWriteMessage 1 (sized r) [] | None => [] end ++
    put_bool 2 (LoginResponse_sucess_ m) [].
Proof using Hlaws.
  intros Hm. destruct (LoginResponse_sized m Hm) as (Hr & Hs & Hu). unfold wire. simpl.
  unfold LoginResponse_InternalSerialize. rewrite Hs, Hu, put_unknown_none by apply Hm.
  unfold has_result, result. rewrite Hr. destruct (LoginResponse_result_ m); simpl; by targets.
Qed.

Lemma LoginResponse_size m : LoginResponse_ok m →
  (ByteSizeLong m).1 = len (wire m) ∧ GetCachedSize (sized m) = len (wire m).
Proof using Hlaws.
  intros Hm. rewrite LoginResponse_wire, len_app by done. unfold sized at 2. simpl.
  unfold LoginResponse_ByteSizeLong. destruct Hm as [Hr Hu].
  destruct (LoginResponse_result_ m) as [r|]; simpl.
  - pose proof (ResultCode_wire_bound r Hr) as Hb. pose proof (len_nonneg (wire r)).
    destruct (message_size ResultCode 1 r) as (_ & Hl & Hs); [lia|done|unfold fits; int_lia|].
    destruct (MessageSize r) as [n r']. simpl in *. rewrite add_unknown_none by done.
    rewrite to_u64_id by int_lia.
    match goal with |- context [add_bool _ ?t] => destruct (add_bool_len 2 (LoginResponse_sucess_ m) t) as [-> ?]; [lia|int_lia|] end.
    rewrite cached_size by int_lia. lia.
  - rewrite add_unknown_none by done.
    destruct (add_bool_len 2 (LoginResponse_sucess_ m) 0) as [-> ?]; [lia|int_lia|].
    rewrite cached_size by int_lia. done.
Qed.

Lemma LoginResponse_read_result m0 r : ResultCode_ok r →
  parse_loop LoginResponse_switch LoginResponse_metadata LoginResponse_set_metadata m0
    (InternalWriteMessage 1 (sized r) []) =
  Ok (LoginResponse_set_result (Some (ResultCode_MergeFrom (mutable_result m0).1 r)) m0, Some AtEnd).
Proof using Hlaws.
  intros Hr. pose proof (ResultCode_wire_bound r Hr) as Hb. pose proof (len_nonneg (wire r)).
  destruct (message_round ResultCode 1 (sized r) (mutable_result m0).1 (ResultCode_MergeFrom (mutable_result m0).1 r))
    as (s & Ht & Hp); [lia|unfold fits, wire in *; int_lia|by apply size_law|exact (round_law r (mutable_result m0).1 Hr)|].
  apply (read_written _ _ _ LoginResponse_switch_laws _ _ _ _ _ Ht). unfold LoginResponse_switch.
  unfold mutable_result in *. destruct m0 as [[r0|] b u c]; simpl in *; by rewrite Hp.
Qed.

#[export] Instance LoginResponse_laws : MessageLaws LoginResponse.
Proof using Hlaws.
  refine {| msg_ok := LoginResponse_ok |}.
  - apply LoginResponse_target.
  - intros m s. exact (parse_loop_total _ _ _ LoginResponse_switch_laws m s).
  - apply LoginResponse_size.
  - intros m m0 Hm. rewrite LoginResponse_wire by done. destruct Hm as [Hr Hu].
    etransitivity; [eapply (parse_two _ _ _ LoginResponse_switch_laws _ _
      (match LoginResponse_result_ m with
       | Some r => LoginResponse_set_result (Some (ResultCode_MergeFrom (mutable_result m0).1 r)) m0
       | None => m0 end))|].
    + destruct (LoginResponse_result_ m) as [r|]; [by apply LoginResponse_read_result|done].
    + apply (read_put_bool _ _ _ LoginResponse_switch_laws _ _ _ LoginResponse_set_sucess); [lia|reflexivity].
    + simpl. unfold LoginResponse_MergeFrom, merge_bool, has_result, result. rewrite merge_none_r by done.
      unfold mutable_result. destruct m0 as [[r0|] b u c], (LoginResponse_result_ m); simpl; by destruct (LoginResponse_sucess_ m).
Defined.
End Messages.
