(* ===== verification/WireVarint.v ===== *)
(** * A concrete runtime: the wire format of the protocol buffer documentation.

    Varints of seven bits a byte, low bits first; a tag is [8 * field + type];
    strings and messages follow their length.  Groups are refused, and a string
    passes the UTF-8 check when its bytes are ASCII.  It shows that the laws of
    [WireLaws] can hold, and runs the examples of the theorems. *)
From S2P Require Import Prelude CInt CArray WireFormat.

(** ** Varints *)
Fixpoint enc (fuel : nat) (z : Z) : list Z :=
  match fuel with
  | O => []
  | S fuel => if z <? 128 then [z] else (z mod 128 + 128) :: enc fuel (z / 128)
  end.
Fixpoint dec (fuel : nat) (s : list Z) : option (Z * list Z) :=
  match fuel, s with
  | S fuel, b :: s =>
      if b <? 128 then Some (b, s) else
      match dec fuel s with Some (v, s) => Some (b - 128 + 128 * v, s) | None => None end
  | _, _ => None
  end.

Lemma dec_enc fuel z r : (0 < fuel)%nat → 0 ≤ z < 128 ^ Z.of_nat fuel → dec fuel (enc fuel z ++ r) = Some (z, r).
Proof.
  revert z. induction fuel as [|fuel IH]; intros z Hf Hz; [lia|]. rewrite Nat2Z.inj_succ, Z.pow_succ_r in Hz by lia.
  simpl. destruct (Z.ltb_spec z 128); simpl; [by rewrite (proj2 (Z.ltb_lt _ _))|].
  pose proof (Z.mod_pos_bound z 128). rewrite (proj2 (Z.ltb_ge _ _)) by lia.
  destruct (decide (fuel = 0%nat)) as [->|Hne]; [simpl in *; lia|].
  rewrite IH; [|lia|split; [apply Z.div_pos; lia|apply Z.div_lt_upper_bound; lia]].
  pose proof (Z.div_mod z 128). do 2 f_equal. lia.
Qed.

Lemma dec_app fuel s v s' r : dec fuel s = Some (v, s') → dec fuel (s ++ r) = Some (v, s' ++ r).
Proof.
  revert s v. induction fuel as [|fuel IH]; intros [|b s] v; simpl; try done.
  case_match; [by intros [= -> ->]|]. destruct (dec fuel s) as [[v' s1]|] eqn:Hd; [|done].
  intros [= <- ->]. by rewrite (IH _ _ Hd).
Qed.

Lemma dec_shorter fuel s v s' : dec fuel s = Some (v, s') → (length s' < length s)%nat.
Proof.
  revert s v. induction fuel as [|fuel IH]; intros [|b s] v; simpl; try done.
  case_match; [intros [= -> ->]; lia|]. destruct (dec fuel s) as [[v' s1]|] eqn:Hd; [|done].
  intros [= <- ->]. apply IH in Hd. lia.
Qed.

Lemma length_enc fuel z : (length (enc fuel z) ≤ fuel)%nat.
Proof.
  revert z. induction fuel as [|fuel IH]; intros z; simpl; [done|]. case_match; simpl; [lia|].
  specialize (IH (z / 128)). lia.
Qed.

Lemma len_enc fuel z : 0 ≤ len (enc fuel z) ≤ Z.of_nat fuel.
Proof. pose proof (length_enc fuel z). unfold len. lia. Qed.

Lemma len_cons (x : Z) s : len (x :: s) = 1 + len s.
Proof. unfold len. simpl. lia. Qed.

#[local] Arguments enc : simpl never.
#[local] Arguments dec : simpl never.

(** ** Length-delimited data *)
Definition delimited (s : list Z) : option (list Z * list Z) :=
  match dec 5 s with
  | Some (n, s) =>
      if (n <=? INT_MAX) && (n <=? len s) then Some (take (Z.to_nat n) s, drop (Z.to_nat n) s) else None
  | None => None
  end.

Lemma delimited_shorter s d s' : delimited s = Some (d, s') → (length s' ≤ length s)%nat.
Proof.
  unfold delimited. destruct (dec 5 s) as [[n s1]|] eqn:Hd; [|done]. apply dec_shorter in Hd.
  case_match; [|done]. intros [= _ <-]. rewrite length_drop. lia.
Qed.

Lemma delimited_app s d s' r : delimited s = Some (d, s') → delimited (s ++ r) = Some (d, s' ++ r).
Proof.
  unfold delimited. destruct (dec 5 s) as [[n s1]|] eqn:Hd; [|done]. rewrite (dec_app _ _ _ _ r Hd).
  destruct ((n <=? INT_MAX) && (n <=? len s1)) eqn:Hc; [|done]. intros [= <- <-].
  apply andb_true_iff in Hc as [-> Hn%Z.leb_le]. rewrite len_app, (proj2 (Z.leb_le _ _)) by (pose proof (len_nonneg r); lia).
  simpl. unfold len in Hn. rewrite take_app_le, drop_app_le by lia. done.
Qed.

Lemma delimited_round d : fits (len d) → delimited (enc 5 (len d) ++ d) = Some (d, []).
Proof.
  intros Hf. unfold delimited, fits in *. pose proof (len_nonneg d).
  rewrite dec_enc by (simpl; int_lia). rewrite (proj2 (Z.leb_le (len d) INT_MAX)), Z.leb_refl by done.
  simpl. unfold len. by rewrite Nat2Z.id, take_ge, drop_ge by lia.
Qed.

(** ** The operations *)
Definition read_varint (s : list Z) : Z * option (list Z) :=
  match dec 10 s with Some (v, s) => (to_u64 v, Some s) | None => (0, None) end.
Definition read_text (old s : list Z) : list Z * option (list Z) :=
  match delimited s with Some (d, s) => (d, Some s) | None => (old, None) end.
(** An unknown field is kept as its tag and its bytes. *)
Definition skip (n : Z) (s : list Z) : option (list Z) :=
  if n <=? len s then Some (drop (Z.to_nat n) s) else None.
Definition skip_field (type : Z) (s : list Z) : option (list Z) :=
  if type =? 0 then snd <$> dec 10 s
  else if type =? 1 then skip 8 s
  else if type =? 2 then snd <$> delimited s
  else if type =? 5 then skip 4 s
  else None.
Definition parse_unknown (tag : Z) (u : list (Z * list Z)) (s : list Z) : list (Z * list Z) * option (list Z) :=
  match skip_field (tag mod 8) s with
  | Some s' => (u ++ [(tag, take (length s - length s') s)], Some s')
  | None => (u, None)
  end.
Definition write_unknown (u : list (Z * list Z)) (target : list Z) : list Z :=
  target ++ concat (map (λ '(tag, d), enc 5 tag ++ d) u).
Definition parse_message {M} `{Message M} (m : M) (s : list Z) : res (M * option (list Z)) :=
  match delimited s with
  | Some (d, s) =>
      '(m, e) ← _InternalParse m d;
      mret (m, match e with Some AtEnd => Some s | _ => None end)
  | None => mret (m, None)
  end.

#[export] Instance varint_wire : Wire := {
  UnknownFieldSet := list (Z * list Z);
  no_unknown_fields := [];
  have_unknown_fields u := bool_decide (u ≠ []);
  MergeUnknown u v := u ++ v;
  ReadTag s := match dec 5 s with Some (t, s) => Some (to_u32 t, s) | None => None end;
  ReadVarint64 := read_varint;
  InlineGreedyStringParser := read_text;
  VerifyUTF8 := forallb (λ b, b <? 128);
  UnknownFieldParse := parse_unknown;
  ParseMessage M _ := parse_message;
  WriteInt32ToArray n v t := t ++ (8 * n) :: enc 10 (to_u64 v);
  WriteBoolToArray n v t := t ++ [8 * n; Z.b2z v];
  WriteBytesMaybeAliased n v t := t ++ (8 * n + 2) :: enc 5 (len v) ++ v;
  InternalWriteMessage M _ n m t := _InternalSerialize m (t ++ (8 * n + 2) :: enc 5 (GetCachedSize m));
  InternalSerializeUnknownFieldsToArray := write_unknown;
  Int32Size v := len (enc 10 (to_u64 v));
  BytesSize v := len (enc 5 (len v)) + len v;
  MessageSize M _ m := (len (enc 5 (ByteSizeLong m).1) + (ByteSizeLong m).1, sized m);
  ComputeUnknownFieldsSize u n := n + len (write_unknown u []);
  ToCachedSize n := to_i32 n;
  ParseFromArray M _ m s :=
    '(m, e) ← _InternalParse (Clear m) s; mret (m, match e with Some AtEnd => true | _ => false end);
  SerializeAsString M _ m := (wire m, sized m);
}.

(** ** The laws *)
Lemma skip_spec n s s' r : skip n s = Some s' → (length s' ≤ length s)%nat ∧ (0 ≤ n → skip n (s ++ r) = Some (s' ++ r)).
Proof.
  unfold skip. destruct (Z.leb_spec n (len s)) as [Hn|]; [|done]. intros [= <-].
  split; [rewrite length_drop; lia|]. intros Hp. rewrite len_app, (proj2 (Z.leb_le _ _)) by (pose proof (len_nonneg r); lia).
  unfold len in Hn. by rewrite drop_app_le by lia.
Qed.

Lemma skip_field_shorter t s s' : skip_field t s = Some s' → (length s' ≤ length s)%nat.
Proof.
  unfold skip_field. repeat case_match; try done; intros Hs.
  - apply fmap_Some in Hs as ([v r] & Hs%dec_shorter & ->). simpl. lia.
  - by eapply (skip_spec 8 s s' []).
  - apply fmap_Some in Hs as ([v r] & Hs%delimited_shorter & ->). done.
  - by eapply (skip_spec 4 s s' []).
Qed.

Lemma skip_field_app t s s' r : skip_field t s = Some s' → skip_field t (s ++ r) = Some (s' ++ r).
Proof.
  unfold skip_field. repeat case_match; try done; intros Hs.
  - apply fmap_Some in Hs as ([v s1] & Hs & ->). by rewrite (dec_app _ _ _ _ r Hs).
  - by apply (skip_spec 8 s s' r).
  - apply fmap_Some in Hs as ([v s1] & Hs & ->). by rewrite (delimited_app _ _ _ r Hs).
  - by apply (skip_spec 4 s s' r).
Qed.

Lemma parse_unknown_shorter t u s v s' : parse_unknown t u s = (v, Some s') → (length s' ≤ length s)%nat.
Proof.
  unfold parse_unknown. destruct (skip_field (t mod 8) s) eqn:Hs; [|done]. intros [= _ ->].
  by eapply skip_field_shorter.
Qed.

Lemma parse_unknown_app t u s v s' r :
  parse_unknown t u s = (v, Some s') → parse_unknown t u (s ++ r) = (v, Some (s' ++ r)).
Proof.
  unfold parse_unknown. destruct (skip_field (t mod 8) s) as [s1|] eqn:Hs; [|done]. intros [= <- ->].
  rewrite (skip_field_app _ _ _ r Hs). pose proof (skip_field_shorter _ _ _ Hs).
  rewrite !length_app, take_app_le by lia.
  by replace (length s + length r - (length s' + length r))%nat with (length s - length s')%nat by lia.
Qed.

Lemma read_varint_spec s v s' : read_varint s = (v, Some s') →
  (length s' ≤ length s)%nat ∧ ∀ r, read_varint (s ++ r) = (v, Some (s' ++ r)).
Proof.
  unfold read_varint. destruct (dec 10 s) as [[w s1]|] eqn:Hd; [|done]. intros [= <- ->].
  split; [apply dec_shorter in Hd; lia|]. intros r. by rewrite (dec_app _ _ _ _ r Hd).
Qed.

Lemma read_text_spec o s v s' : read_text o s = (v, Some s') →
  (length s' ≤ length s)%nat ∧ ∀ r, read_text o (s ++ r) = (v, Some (s' ++ r)).
Proof.
  unfold read_text. destruct (delimited s) as [[d s1]|] eqn:Hd; [|done]. intros [= <- ->].
  split; [by eapply delimited_shorter|]. intros r. by rewrite (delimited_app _ _ _ r Hd).
Qed.

Lemma read_tag_small t s : 0 ≤ t < 128 → ReadTag (t :: s) = Some (t, s).
Proof.
  intros Ht. unfold ReadTag; simpl; unfold dec. rewrite (proj2 (Z.ltb_lt _ _)) by lia. by rewrite to_u32_id by int_lia.
Qed.

Lemma parse_message_total {M} `{MessageLaws M} (m : M) s :
  wp (parse_message m s) (λ '(_, o), ∀ s', o = Some s' → (length s' ≤ length s)%nat).
Proof.
  unfold parse_message. destruct (delimited s) as [[d s1]|] eqn:Hd; [|done].
  apply wp_bind. eapply wp_mono; [apply parse_total|]. intros [m' [[|]|]] _; simpl; try done.
  intros s' [= <-]. by eapply delimited_shorter.
Qed.

Lemma parse_message_app {M} `{Message M} (m m' : M) s s' r :
  parse_message m s = Ok (m', Some s') → parse_message m (s ++ r) = Ok (m', Some (s' ++ r)).
Proof.
  unfold parse_message. destruct (delimited s) as [[d s1]|] eqn:Hd; [|done].
  rewrite (delimited_app _ _ _ r Hd). destruct (_InternalParse m d) as [[m1 [[|]|]]|]; simpl; try done.
  by intros [= -> ->].
Qed.

Lemma parse_message_inside {M} `{Message M} (m m' : M) s s' :
  parse_message m s = Ok (m', Some s') → ∃ d, _InternalParse m d = Ok (m', Some AtEnd).
Proof.
  unfold parse_message. destruct (delimited s) as [[d s1]|]; [|done]. intros Hp. exists d. revert Hp.
  destruct (_InternalParse m d) as [[m1 [[|]|]]|]; simpl; try done. by intros [= -> _].
Qed.

Lemma parse_message_round {M} `{Message M} (m0 m1 : M) body :
  fits (len body) → _InternalParse m0 body = Ok (m1, Some AtEnd) →
  parse_message m0 (enc 5 (len body) ++ body) = Ok (m1, Some []).
Proof. intros Hf Hp. unfold parse_message. rewrite delimited_round by done. by rewrite Hp. Qed.

#[export] Instance varint_laws : WireLaws.
Proof.
  constructor.
  - done.
  - done.
  - intros u v Hv%bool_decide_eq_false. simpl. destruct v; [apply app_nil_r|by destruct Hv].
  - intros [|x u] v; [done|]. simpl. done.
  - intros s t s'. simpl. destruct (dec 5 s) as [[v s1]|] eqn:Hd; [|done]. intros [= _ <-]. by eapply dec_shorter.
  - intros s t s' r. simpl. destruct (dec 5 s) as [[v s1]|] eqn:Hd; [|done]. rewrite (dec_app _ _ _ _ r Hd).
    by intros [= -> ->].
  - intros s v s' Hr. by eapply read_varint_spec.
  - intros s v s' r Hr. by eapply read_varint_spec in Hr as [_ ?].
  - intros o s v s' Hr. by eapply read_text_spec.
  - intros o s v s' r Hr. by eapply read_text_spec in Hr as [_ ?].
  - intros t u s v s'. apply parse_unknown_shorter.
  - intros t u s v s' r. apply parse_unknown_app.
  - intros M H1 H2 m s. apply parse_message_total.
  - intros M H1 m m' s s' r. apply parse_message_app.
  - intros M H1 m m' s s'. apply parse_message_inside.
  - done.
  - done.
  - done.
  - done.
  - intros M H1 H2 n m t. simpl. rewrite (serialize_target m (t ++ _)), (serialize_target m (_ :: _)).
    by rewrite <- app_assoc.
  - intros u t. simpl. unfold write_unknown. done.
  - intros n v Hn Hv. eexists. split; [by apply read_tag_small; lia|]. simpl.
    unfold read_varint. rewrite <- (app_nil_r (enc _ _)), dec_enc; [|lia|].
    + f_equal. unfold to_u64. by rewrite Z.mod_mod.
    + unfold to_u64. pose proof (Z.mod_pos_bound v (2 ^ 64)). simpl. lia.
  - intros n v Hn. eexists. split; [by apply read_tag_small; lia|]. by destruct v.
  - intros n v o Hn Hv. eexists. split; [by apply read_tag_small; lia|]. simpl.
    unfold read_text. by rewrite delimited_round.
  - intros M H1 H2 n m m0 m1 Hn body Hf Hc Hp. eexists.
    assert (InternalWriteMessage n m [] = (8 * n + 2) :: enc 5 (len body) ++ body) as ->.
    { simpl. by rewrite serialize_target, Hc. }
    rewrite read_tag_small by lia. split; [done|].
    by apply parse_message_round.
  - intros n v Hn Hv. simpl. rewrite len_cons. pose proof (len_enc 10 (to_u64 v)). split; lia.
  - intros n v Hn. done.
  - intros n v Hn Hv. simpl. rewrite len_cons, len_app. pose proof (len_enc 5 (len v)). split; lia.
  - intros M H1 H2 n m Hn Hok Hf. simpl. destruct (size_law m Hok) as [Hs Hc]. rewrite Hs, Hc.
    rewrite (serialize_target (sized m)), len_app, len_cons. fold (wire m).
    pose proof (len_enc 5 (len (wire m))). split; [done|]. split; lia.
  - intros n Hn. simpl. apply to_i32_id. int_lia.
  - intros M H1 m m' s Hp. simpl. by rewrite Hp.
  - intros M H1 H2 m s. simpl. apply wp_bind. eapply wp_mono; [apply parse_total|]. by intros [? ?].
  - done.
Qed.
