(* ===== verification/EchoTyping.v ===== *)
(** * socket/epoll/echo.pb.{h,cc}: what parsing makes of the members' types.

    The types of echo.proto: an [int32] is a 32-bit number, a [string] is UTF-8,
    [bytes] are any.  Whatever the input, a parse that succeeds gives a message
    that keeps them. *)
From S2P Require Import Prelude CInt CArray WireFormat EchoProto EchoMessages WireVarint.

Definition is_int32 (z : Z) : Prop := INT_MIN ≤ z ≤ INT_MAX.

(** The messages of a class whose members have their declared types. *)
Class Typed (M : Type) : Type := typed : M → Prop.

Section Typing.
Context `{Wire}.

Definition is_text (s : list Z) : Prop := VerifyUTF8 s = true.

#[export] Instance Client_typed : Typed Client := λ m, is_text (Client_client_id_ m) ∧ is_int32 (Client_data_ m).
#[export] Instance Server_typed : Typed Server := λ m, is_int32 (Server_server_id_ m) ∧ is_int32 (Server_data_ m).
#[export] Instance ResultCode_typed : Typed ResultCode := λ m, is_int32 (ResultCode_errcode_ m).
#[export] Instance LoginResponse_typed : Typed LoginResponse := λ m,
  match LoginResponse_result_ m with Some r => typed r | None => True end.

Definition parse_typed (M : Type) `{Message M, Typed M} : Prop :=
  ∀ (m m' : M) s e, typed m → _InternalParse m s = Ok (m', Some e) → typed m'.

(** ** Lemmas *)
Context `{Hlaws : !WireLaws}.

Lemma to_i32_typed z : is_int32 (to_i32 z).
Proof. unfold is_int32, to_i32. pose proof (Z.mod_pos_bound (z + 2 ^ 31) (2 ^ 32)). int_lia. Qed.

(** A field that was read satisfies what the setter gives for every well-typed
    value. *)
Lemma read_int32_typed {M} (P : M → Prop) set s m s' :
  (∀ v, is_int32 v → P (set v)) → read_int32 set s = Ok (Field m s') → P m.
Proof. intros Hs. unfold read_int32. destruct (ReadVarint64 s). intros [= <- _]. apply Hs, to_i32_typed. Qed.
Lemma read_bool_typed {M} (P : M → Prop) set s m s' :
  (∀ v, P (set v)) → read_bool set s = Ok (Field m s') → P m.
Proof. intros Hs. unfold read_bool. destruct (ReadVarint64 s). intros [= <- _]. apply Hs. Qed.
Lemma read_bytes_typed {M} (P : M → Prop) old set s m s' :
  (∀ v, P (set v)) → read_bytes old set s = Ok (Field m s') → P m.
Proof. intros Hs. unfold read_bytes. destruct (InlineGreedyStringParser old s). intros [= <- _]. apply Hs. Qed.
Lemma read_string_typed {M} (P : M → Prop) old set s m s' :
  (∀ v, is_text v → P (set v)) → read_string old set s = Ok (Field m (Some s')) → P m.
Proof.
  intros Hs. unfold read_string. destruct (InlineGreedyStringParser old s) as [v o].
  destruct (VerifyUTF8 v) eqn:Hv; [|done]. intros [= <- _]. by apply Hs.
Qed.

Lemma Client_parse_typed : parse_typed Client.
Proof using Hlaws.
  intros m m' s e Hm. apply (parse_loop_inv _ _ _ Client_switch_laws typed); [|done|done].
  intros t m1 s1 m2 s2 [Ht Hd]. unfold Client_switch. repeat case_match; try done; intros Hr.
  - eapply read_string_typed, Hr. by intros v Hv.
  - eapply read_int32_typed, Hr. by intros v Hv.
Qed.

Lemma Server_parse_typed : parse_typed Server.
Proof using Hlaws.
  intros m m' s e Hm. apply (parse_loop_inv _ _ _ Server_switch_laws typed); [|done|done].
  intros t m1 s1 m2 s2 [Ht Hd]. unfold Server_switch. repeat case_match; try done; intros Hr;
    (eapply read_int32_typed, Hr; by intros v Hv).
Qed.

Lemma ResultCode_parse_typed : parse_typed ResultCode.
Proof using Hlaws.
  intros m m' s e Hm. apply (parse_loop_inv _ _ _ ResultCode_switch_laws typed); [|done|done].
  intros t m1 s1 m2 s2 Ht. unfold ResultCode_switch. repeat case_match; try done; intros Hr.
  - eapply read_int32_typed, Hr. by intros v Hv.
  - eapply read_bytes_typed, Hr. by intros v.
Qed.

Lemma LoginResponse_parse_typed : parse_typed LoginResponse.
Proof using Hlaws.
  intros m m' s e Hm. apply (parse_loop_inv _ _ _ LoginResponse_switch_laws typed); [|done|done].
  intros t m1 s1 m2 s2 Ht. unfold LoginResponse_switch. repeat case_match; try done; intros Hr.
  - destruct (ParseMessage _ _) as [[r' [s'|]]|] eqn:Hp; simpl in Hr; [|done|done]. injection Hr as <- <-.
    apply message_inside in Hp as [d Hp]. change (typed r'). eapply ResultCode_parse_typed, Hp.
    match goal with Hr : mutable_result m1 = _ |- _ => unfold mutable_result in Hr end.
    unfold typed, LoginResponse_typed in Ht. destruct (LoginResponse_result_ m1); simplify_eq; [done|].
    unfold typed, ResultCode_typed, is_int32. simpl. int_lia.
  - eapply read_bool_typed, Hr. by intros v.
Qed.
End Typing.

(** C9: Whatever bytes arrive, parsing is type safe: when [_InternalParse]
    succeeds on a message whose members have their declared types, they have
    them afterwards, that is every [int32] is in range (the varint on the wire
    has 64 bits) and every [string] is valid UTF-8, in the message inside too. *)
Theorem parse_well_typed `{WireLaws} :
  parse_typed Client ∧ parse_typed Server ∧ parse_typed ResultCode ∧ parse_typed LoginResponse.
Proof.
  split_and!; [apply Client_parse_typed|apply Server_parse_typed|apply ResultCode_parse_typed|apply LoginResponse_parse_typed].
Qed.

(** An [int32] sent as the 64-bit varint of 2^32 + 5. *)
Lemma parse_well_typed_witness :
  _InternalParse Client_SharedCtor [16; 133; 128; 128; 128; 16] =
    Ok (Client_set_data 5 Client_SharedCtor, Some AtEnd) ∧ typed (Client_set_data 5 Client_SharedCtor).
Proof.
  assert (Hp : _InternalParse Client_SharedCtor [16; 133; 128; 128; 128; 16] =
    Ok (Client_set_data 5 Client_SharedCtor, Some AtEnd)) by reflexivity.
  split; [exact Hp|]. refine (proj1 parse_well_typed Client_SharedCtor _ _ _ _ Hp).
  split; [reflexivity|unfold is_int32; simpl; int_lia].
Defined.
