(* ===== verification/EchoServer.v ===== *)
(** * socket/epoll/server.cpp and client.cpp: the echo server and its client.

    A request is the length of a serialized [Client], as an [int], and its bytes;
    the reply is the object representation of a [Server], written as memory.
    The representation ([Layout]) depends on the compiler and is a parameter, as are the descriptors, what [epoll_wait] reports and what
    [accept] returns; a connection is a [Socket]. *)
From S2P Require Import Prelude CInt CArray CStdio CNet EpollSocket TaskQueue TimerChannel WireFormat EchoProto EchoMessages.

(** ** Memory *)
Definition bytes_of_i32 (z : Z) : list Z := le_bytes 4 (to_u32 z).
Definition i32_of_bytes (bs : list Z) : Z := to_i32 (le_value (take 4 bs)).

Class Layout `{Wire} : Type := {
  sizeof_Server : Z;
  image : Server → list Z;
}.
Class LayoutLaws `{Layout} : Prop := {
  image_len : ∀ m, len (image m) = sizeof_Server;
}.

(** What [epoll_wait] reports. *)
Inductive echo_event (S : Type) : Type :=
  | OnListen (clnt_sock : Z) (conn : S)
  | OnClient (fd events : Z).
Arguments OnListen {S}. Arguments OnClient {S}.

(** [closures]: for a task of the pool, the descriptor and the message that its
    lambda holds (by copy; [this] lives as long as the program). *)
Record ServerImpl (S : Type) `{Wire} : Type := MkServerImpl {
  conns : gmap Z S;
  pool : FdTasks;
  closures : gmap nat (Z * Client);
  next_task : nat;
  ctls : list ctl;
  closed : list Z;
  threads : Z;
  net : Listener;
}.
Arguments MkServerImpl {S _}. Arguments conns {S _}. Arguments pool {S _}. Arguments closures {S _}.
Arguments next_task {S _}. Arguments ctls {S _}. Arguments closed {S _}.
Arguments threads {S _}. Arguments net {S _}.

Section Echo.
Context {S : Type} `{Socket S} `{Layout}.
Implicit Types v : ServerImpl S.

(** [read] into an array: the return value and the array. *)
Definition read (buf : list Z) (n : Z) (s : S) : res (Z * list Z * S) :=
  match recv (to_u64 n) s with
  | (RBytes bs, s) => buf ← mwrite 0 bs buf; mret (len bs, buf, s)
  | (_, s) => mret (-1, buf, s)
  end.

Definition set_conn (fd : Z) (s : S) v : ServerImpl S :=
  MkServerImpl (<[fd := s]> (conns v)) (pool v) (closures v) (next_task v) (ctls v) (closed v) (threads v) (net v).
Definition set_threads (n : Z) v : ServerImpl S :=
  MkServerImpl (conns v) (pool v) (closures v) (next_task v) (ctls v) (closed v) n (net v).
Definition set_net (l : Listener) v : ServerImpl S :=
  MkServerImpl (conns v) (pool v) (closures v) (next_task v) (ctls v) (closed v) (threads v) l.
Definition set_pool (q : FdTasks) v : ServerImpl S :=
  MkServerImpl (conns v) q (closures v) (next_task v) (ctls v) (closed v) (threads v) (net v).
Definition do_ctl (c : ctl) v : ServerImpl S :=
  MkServerImpl (conns v) (pool v) (closures v) (next_task v) (ctls v ++ [c]) (closed v) (threads v) (net v).
Definition do_close (fd : Z) v : ServerImpl S :=
  MkServerImpl (delete fd (conns v)) (pool v) (closures v) (next_task v) (ctls v) (closed v ++ [fd]) (threads v) (net v).

Definition new_server : ServerImpl S :=
  MkServerImpl ∅ (MkFd [] ∅) ∅ 0 [] [] 0 (new_listener SERVER_PORT SERVER_IP).

(** [pool.AddTask(socket_fd, [&, client, socket_fd, str_len]() {...})] *)
Definition add_task (socket_fd : Z) (client : Client) v : ServerImpl S :=
  MkServerImpl (conns v) (fd_push socket_fd (next_task v) (pool v))
    (<[next_task v := (socket_fd, Client_copy_ctor client)]> (closures v))
    (Datatypes.S (next_task v)) (ctls v) (closed v) (threads v) (net v).

(** [server.cpp]'s [RecvBuff], on the connection [conn] of [socket_fd].  An array
    of a negative length, and parsing one, are undefined. *)
Definition RecvBuff (socket_fd : Z) (conn : S) v : res (bool * ServerImpl S) :=
  let client := Client_SharedCtor in
  '(_, data_len, conn) ← read (bytes_of_i32 0) 4 conn;
  let data_len := i32_of_bytes data_len in
  if data_len <? 0 then Err OutOfBounds else
  let buf := replicate (Z.to_nat data_len) 0 in
  '(str_len, buf, conn) ← read buf data_len conn;
  let v := set_conn socket_fd conn v in
  v ← (if str_len =? 0 then
         let v := do_close socket_fd (do_ctl (CtlDel socket_fd) v) in
         q ← delCloseFD socket_fd (pool v);
         mret (set_pool q v)
       else if str_len <? 0 then Err OutOfBounds
       else
         '(client, _) ← ParseFromArray client (take (Z.to_nat str_len) buf);
         mret (add_task socket_fd client v));
  mret (negb (str_len =? 0), v).

(** [SendBuff], in a task. *)
Definition SendBuff (socket_fd data : Z) (conn : S) : bool * S :=
  let server := Server_SharedCtor in
  let server := Server_set_server_id socket_fd server in
  let server := Server_set_data data server in
  (true, (send (image server) conn).2).

Definition run_task (id : nat) v : res (ServerImpl S) :=
  match closures v !! id with
  | None => Err UseAfterFree
  | Some (socket_fd, client) =>
      match conns v !! socket_fd with
      | Some conn => mret (set_conn socket_fd (SendBuff socket_fd (Client_data_ client) conn).2 v)
      | None => mret v
      end
  end.

Definition handle_event (e : echo_event S) v : res (ServerImpl S) :=
  match e with
  | OnListen clnt_sock conn => mret (do_ctl (CtlAdd clnt_sock EPOLLIN) (set_conn clnt_sock conn v))
  | OnClient socket_fd events =>
      if negb (Z.land events EPOLLIN =? 0) then
        match conns v !! socket_fd with
        | Some conn => '(_, v) ← RecvBuff socket_fd conn v; mret v
        | None => mret v
        end
      else mret v
  end.
Fixpoint handle_events (es : list (echo_event S)) v : res (ServerImpl S) :=
  match es with
  | [] => mret v
  | e :: es => v ← handle_event e v; handle_events es v
  end.
(** The loop, on what the calls of [epoll_wait] report; [None] is its error. *)
Fixpoint ExecEpoll (waits : list (option (list (echo_event S)))) v : res (ServerImpl S) :=
  match waits with
  | [] | None :: _ => mret v
  | Some es :: waits => v ← handle_events es v; ExecEpoll waits v
  end.
(** Whether [bind] and [listen] succeed is only logged. *)
Definition InitServer (pool_size sock ep : Z) (waits : list (option (list (echo_event S)))) v :
    res (bool * ServerImpl S) :=
  let v := set_net (open_epoll ep (open_socket sock (net v))) v in
  let v := do_ctl (CtlAdd sock EPOLLIN) v in
  let v := set_threads (addThread pool_size (threads v)) v in
  v ← ExecEpoll waits v;
  mret (true, v).
Definition destroy_server v : res (list Z) := close_listener (net v).
(** [main]: the exit status and the descriptors the destructor closes. *)
Definition server_main (sock ep : Z) (waits : list (option (list (echo_event S)))) : res (Z * list Z) :=
  '(_, v) ← InitServer 4 sock ep waits new_server;
  closed ← destroy_server v;
  mret (0, closed).

(** ** client.cpp *)

(** A C string: the characters before the first zero, which the array must hold. *)
Fixpoint c_string (array : list Z) : res (list Z) :=
  match array with
  | [] => Err OutOfBounds
  | c :: array => if c =? 0 then mret [] else s ← c_string array; mret (c :: s)
  end.
(** [char pb_buff[1] = {char('A' + client_id)}; string cli_name = pb_buff;] *)
Definition cli_name (client_id : Z) : res (list Z) := c_string [(65 + client_id + 128) mod 256 - 128].

(** [RecvBuff]: [read] over a [Server], whose fields are printed.  The class has
    virtual functions and its own copy constructor: bytes stored over the object
    (any that are read) make its use undefined. *)
Definition Client_RecvBuff (sock : S) : res (Server * S) :=
  let server := Server_SharedCtor in
  '(n, _, sock) ← read (image server) sizeof_Server sock;
  if 0 <? n then Err BadObject else mret (server, sock).

(** One turn of [SendBuff]'s loop. *)
Definition client_turn (st : Z * Client * S) : res (Z * Client * S * Server) :=
  let '(index, client, sock) := st in
  let client := Client_set_data index client in
  index ← iadd index 1;
  let '(data, client) := SerializeAsString client in
  let length := to_i32 (len data) in
  let '(_, sock) := send (bytes_of_i32 length) sock in
  let '(_, sock) := send data sock in
  '(server, sock) ← Client_RecvBuff sock;
  mret (index, client, sock, server).

(** [n] turns; the loop of the code does not end. *)
Fixpoint client_turns (n : nat) (st : Z * Client * S) : res (list Server * S) :=
  match n with
  | O => mret ([], st.2)
  | Datatypes.S n =>
      '(index, client, sock, server) ← client_turn st;
      '(servers, sock) ← client_turns n (index, client, sock);
      mret (server :: servers, sock)
  end.
Definition Client_SendBuff (n : nat) (client_id : Z) (sock : S) : res (list Server * S) :=
  name ← cli_name client_id;
  client_turns n (0, Client_set_client_id name Client_SharedCtor, sock).

(** [socket_] is what [socket] returns; [connect] gives the value of [errno] when
    it fails, which is only printed: the client goes on to [SendBuff]. *)
Record ClientImpl : Type := MkClientImpl {
  client_port : Z;
  client_ip : list Z;
  client_id : Z;
  sock_ : option Z;
  client_adr : option sockaddr_in;
}.
(** [id]: what [distr(eng)] gives, from 0 to 25. *)
Definition new_client (port : Z) (ip : list Z) (id : Z) : ClientImpl := MkClientImpl port ip id None None.

(** [InitClient] on [n] turns of [SendBuff]; the address does not come from the
    fields.  What is printed before [SendBuff], the replies, the connection. *)
Definition InitClient (inet_addr : list Z → Z) (strerror : Z → list Z) (socket_ : Z) (connect : Z → sockaddr_in → option Z) (n : nat)
    (c : ClientImpl) (sock : S) : res (list Z * list Server * S * ClientImpl) :=
  let adr := MkAddr AF_INET (htons SERVER_PORT) (inet_addr SERVER_IP) in
  let c := MkClientImpl (client_port c) (client_ip c) (client_id c) (Some socket_) (Some adr) in
  let out := if socket_ =? -1 then bytes "socket() error" ++ [10] else [] in
  let out := out ++
    match connect socket_ adr with
    | Some errno => bytes "connect() error: " ++ fmt_d false 0 errno ++ [32] ++ strerror errno ++ [10]
    | None => bytes "connected[" ++ [client_id c + 65] ++ bytes "]............" ++ [10]
    end in
  '(servers, sock) ← Client_SendBuff n (client_id c) sock;
  mret (out, servers, sock, c).
Definition destroy_client (c : ClientImpl) : res Z := init (sock_ c).

Definition client_main (inet_addr : list Z → Z) (strerror : Z → list Z) (socket_ : Z) (connect : Z → sockaddr_in → option Z) (n : nat)
    (id : Z) (sock : S) : res Z :=
  let client := new_client SERVER_PORT SERVER_IP id in
  '(_, _, _, client) ← InitClient inet_addr strerror socket_ connect n client sock;
  _ ← destroy_client client;
  mret 0.
End Echo.
