(* ===== verification/EchoSpec.v ===== *)
(** * The echo programs: what holds of the messages, the server and the client. *)
From S2P Require Import Prelude CInt CArray EpollSocket TaskQueue TimerChannel WireFormat EchoProto EchoMessages WireVarint EchoServer.

(** ** Messages *)
Section Messages.
Context `{Hlaws : WireLaws}.

Lemma parse_array_wire {M} `{MessageLaws M} (m m0 : M) :
  msg_ok m → ParseFromArray m0 (SerializeAsString m).1 = Ok (MergeFrom (Clear m0) m, true).
Proof using Hlaws. intros Hm. rewrite serialize_law. simpl. by apply parse_array_law, round_law. Qed.

(** C7: Round trip of every message: parsing the serialization of a message that
    the format can hold succeeds, and makes any message a copy of it (all fields,
    the message inside included; the cached size is not part of the copy). *)
Theorem messages_round_trip (c c0 : Client) (s s0 : Server) (r r0 : ResultCode)
    (q q0 : LoginRequest) (p p0 : LoginResponse) :
  Client_ok c → Server_ok s → ResultCode_ok r → LoginRequest_ok q → LoginResponse_ok p →
  ParseFromArray c0 (SerializeAsString c).1 = Ok (Client_CopyFrom false c0 c, true) ∧
  ParseFromArray s0 (SerializeAsString s).1 = Ok (Server_CopyFrom false s0 s, true) ∧
  ParseFromArray r0 (SerializeAsString r).1 = Ok (ResultCode_CopyFrom false r0 r, true) ∧
  ParseFromArray q0 (SerializeAsString q).1 = Ok (LoginRequest_CopyFrom false q0 q, true) ∧
  ParseFromArray p0 (SerializeAsString p).1 = Ok (LoginResponse_CopyFrom false p0 p, true).
Proof using Hlaws.
  intros Hc Hs Hr Hq Hp. split_and!; [exact (parse_array_wire c c0 Hc)|exact (parse_array_wire s s0 Hs)
    |exact (parse_array_wire r r0 Hr)|exact (parse_array_wire q q0 Hq)|exact (parse_array_wire p p0 Hp)].
Qed.

(** C30: The bytes of two messages of a class that the format can hold, one
    after the other, parse as the merge of the two into the message parsed to, for
    each of the five classes: a number, a string or a flag that is set in the
    second replaces that of the first, and the messages inside are merged in turn. *)
Theorem parse_merges (c1 c2 c0 : Client) (s1 s2 s0 : Server) (r1 r2 r0 : ResultCode)
    (q1 q2 q0 : LoginRequest) (p1 p2 p0 : LoginResponse) :
  (Client_ok c1 → Client_ok c2 → Client_InternalParse c0 (wire c1 ++ wire c2) =
    Ok (Client_MergeFrom (Client_MergeFrom c0 c1) c2, Some AtEnd)) ∧
  (Server_ok s1 → Server_ok s2 → Server_InternalParse s0 (wire s1 ++ wire s2) =
    Ok (Server_MergeFrom (Server_MergeFrom s0 s1) s2, Some AtEnd)) ∧
  (ResultCode_ok r1 → ResultCode_ok r2 → ResultCode_InternalParse r0 (wire r1 ++ wire r2) =
    Ok (ResultCode_MergeFrom (ResultCode_MergeFrom r0 r1) r2, Some AtEnd)) ∧
  (LoginRequest_ok q1 → LoginRequest_ok q2 → LoginRequest_InternalParse q0 (wire q1 ++ wire q2) =
    Ok (LoginRequest_MergeFrom (LoginRequest_MergeFrom q0 q1) q2, Some AtEnd)) ∧
  (LoginResponse_ok p1 → LoginResponse_ok p2 → LoginResponse_InternalParse p0 (wire p1 ++ wire p2) =
    Ok (LoginResponse_MergeFrom (LoginResponse_MergeFrom p0 p1) p2, Some AtEnd)).
Proof using Hlaws.
  split_and!; intros H1 H2.
  - eapply (parse_two _ _ _ Client_switch_laws); [exact (round_law c1 c0 H1)|exact (round_law c2 _ H2)].
  - eapply (parse_two _ _ _ Server_switch_laws); [exact (round_law s1 s0 H1)|exact (round_law s2 _ H2)].
  - eapply (parse_two _ _ _ ResultCode_switch_laws); [exact (round_law r1 r0 H1)|exact (round_law r2 _ H2)].
  - eapply (parse_two _ _ _ LoginRequest_switch_laws); [exact (round_law q1 q0 H1)|exact (round_law q2 _ H2)].
  - eapply (parse_two _ _ _ LoginResponse_switch_laws); [exact (round_law p1 p0 H1)|exact (round_law p2 _ H2)].
Qed.

(** [ByteSizeLong] is the number of bytes that [_InternalSerialize] then
    writes, for a message inside a message as well, whose cached size it has set;
    and the bytes are appended to [target]. *)
Theorem login_response_size (p : LoginResponse) target :
  LoginResponse_ok p →
  let '(total_size, p') := LoginResponse_ByteSizeLong p in
  len (LoginResponse_InternalSerialize p' target) = len target + total_size ∧
  LoginResponse_cached_size_ p' = total_size ∧
  LoginResponse_result_ p' = sized <$> LoginResponse_result_ p.
Proof using Hlaws.
  intros Hp. destruct (LoginResponse_size p Hp) as [H1 H2]. destruct (LoginResponse_sized p Hp) as [H3 _].
  unfold wire, sized in *. simpl in *. destruct (LoginResponse_ByteSizeLong p) as [n p']. simpl in *.
  rewrite LoginResponse_target, len_app. split_and!; [by rewrite H1|congruence|done].
Qed.

(** C31: No input makes a parse run forever: [_InternalParse] of each message
    returns on every list of bytes. *)
Theorem parse_terminates (c : Client) (s : Server) (r : ResultCode) (q : LoginRequest) (p : LoginResponse) bytes :
  (∃ x, Client_InternalParse c bytes = Ok x) ∧ (∃ x, Server_InternalParse s bytes = Ok x) ∧
  (∃ x, ResultCode_InternalParse r bytes = Ok x) ∧ (∃ x, LoginRequest_InternalParse q bytes = Ok x) ∧
  (∃ x, LoginResponse_InternalParse p bytes = Ok x).
Proof using Hlaws.
  assert (Hex : ∀ A (m : res A), wp m (λ _, True) → ∃ x, m = Ok x).
  { intros A m Hm. apply wp_elim in Hm as (x & Hx & _). by exists x. }
  split_and!; apply Hex; [exact (parse_total c bytes)|exact (parse_total s bytes)|exact (parse_total r bytes)
    |exact (parse_total q bytes)|exact (parse_total p bytes)].
Qed.

(** The copy constructors, which copy the numbers as they are, agree with
    [CopyFrom], which clears and merges: for each message the new object has all
    fields of [from].  Swapping twice changes nothing. *)
Theorem copies_agree (c c' : Client) (s s' : Server) (r r' : ResultCode)
    (q q' : LoginRequest) (p p' : LoginResponse) :
  (Client_copy_ctor c = Client_CopyFrom false Client_SharedCtor c ∧
   Client_Swap false (Client_Swap false c c').1 (Client_Swap false c c').2 = (c, c')) ∧
  (Server_copy_ctor s = Server_CopyFrom false Server_SharedCtor s ∧
   Server_Swap false (Server_Swap false s s').1 (Server_Swap false s s').2 = (s, s')) ∧
  (ResultCode_copy_ctor r = ResultCode_CopyFrom false ResultCode_SharedCtor r ∧
   ResultCode_Swap false (ResultCode_Swap false r r').1 (ResultCode_Swap false r r').2 = (r, r')) ∧
  (LoginRequest_copy_ctor q = LoginRequest_CopyFrom false LoginRequest_SharedCtor q ∧
   LoginRequest_Swap false (LoginRequest_Swap false q q').1 (LoginRequest_Swap false q q').2 = (q, q')) ∧
  (LoginResponse_copy_ctor p = LoginResponse_CopyFrom false LoginResponse_SharedCtor p ∧
   LoginResponse_Swap false (LoginResponse_Swap false p p').1 (LoginResponse_Swap false p p').2 = (p, p')).
Proof.
  assert (Hi : ∀ z, merge_int32 0 z = z) by (intros z; unfold merge_int32; by destruct (Z.eqb_spec z 0)).
  assert (Hb : ∀ b, merge_bool false b = b) by by intros [].
  assert (Hr : ∀ r : ResultCode, ResultCode_copy_ctor r = ResultCode_CopyFrom false ResultCode_SharedCtor r).
  { intros [l z u n]. unfold ResultCode_copy_ctor, ResultCode_CopyFrom, ResultCode_MergeFrom. simpl.
    rewrite Hi. unfold merge_bytes. by case_match. }
  split_and!; try (by apply Hr); try (by destruct c, c'); try (by destruct s, s'); try (by destruct r, r');
    try (by destruct q, q'); try (by destruct p, p').
  - destruct c. unfold Client_copy_ctor, Client_CopyFrom, Client_MergeFrom. simpl.
    rewrite Hi. unfold merge_bytes. by case_match.
  - destruct s. unfold Server_copy_ctor, Server_CopyFrom, Server_MergeFrom. simpl. by rewrite !Hi.
  - destruct q. unfold LoginRequest_copy_ctor, LoginRequest_CopyFrom, LoginRequest_MergeFrom. simpl.
    unfold merge_bytes. by repeat case_match.
  - destruct p as [[r0|] b u n]; unfold LoginResponse_copy_ctor, LoginResponse_CopyFrom, LoginResponse_MergeFrom;
      simpl; [|by rewrite Hb]. rewrite Hb, Hr. done.
Qed.
End Messages.

(** ** The server and its client

    The programs do not look at how much [read] and [write] transfer: a prompt
    connection is one whose calls transfer all they can. *)
Class Prompt {S} `{Socket S} (P : S → Prop) : Prop := {
  prompt_recv : ∀ n s, P s → 0 ≤ n → ∃ s', recv n s = (RBytes (take (Z.to_nat n) (incoming s)), s') ∧
    P s' ∧ incoming s' = drop (Z.to_nat n) (incoming s) ∧ outgoing s' = outgoing s;
  prompt_send : ∀ bs s, P s → ∃ s', send bs s = (SBytes (len bs), s') ∧
    P s' ∧ incoming s' = incoming s ∧ outgoing s' = outgoing s ++ bs;
}.

(** A request: the length, and the serialized message. *)
Definition request `{Wire} (c : Client) : list Z := bytes_of_i32 (len (wire c)) ++ wire c.

#[local] Arguments bytes_of_i32 : simpl never.
#[local] Arguments wire : simpl never.

Lemma length_bytes_of_i32 z : length (bytes_of_i32 z) = 4%nat.
Proof. apply length_le_bytes. Qed.

Lemma i32_bytes_round z l : INT_MIN ≤ z ≤ INT_MAX → i32_of_bytes (bytes_of_i32 z ++ l) = z.
Proof.
  intros Hz. unfold i32_of_bytes. rewrite take_app_length' by (by rewrite length_bytes_of_i32).
  unfold bytes_of_i32. rewrite le_value_bytes by (unfold to_u32; simpl; apply Z.mod_pos_bound; lia).
  unfold to_i32, to_u32. rewrite Zplus_mod_idemp_l, Z.mod_small by int_lia. lia.
Qed.

Section Programs.
Context {S : Type} `{Socket S} (P : S → Prop) `{Hprompt : !Prompt P}.
Context `{Layout} `{Hlayout : !LayoutLaws} `{Hlaws : !WireLaws}.

Lemma read_prompt buf n (s : S) :
  P s → 0 ≤ n ≤ INT_MAX → n ≤ len buf →
  wp (read buf n s) (λ '(r, buf', s'), let got := take (Z.to_nat n) (incoming s) in
    r = len got ∧ buf' = got ++ drop (length got) buf ∧ P s' ∧
    incoming s' = drop (Z.to_nat n) (incoming s) ∧ outgoing s' = outgoing s).
Proof using Hprompt.
  intros Hs Hn Hb. unfold read. rewrite to_u64_id by int_lia.
  destruct (prompt_recv n s Hs ltac:(lia)) as (s' & -> & HP & Hi & Ho).
  assert (Hl : len (take (Z.to_nat n) (incoming s)) ≤ n) by (unfold len; rewrite length_take; lia).
  rewrite mwrite_ok by lia. cbn [mbind res_bind mret res_ret wp]. rewrite Z.add_0_l.
  split_and!; try done. unfold len. by rewrite Nat2Z.id.
Qed.

(** Reading the length of the request at the start of the stream. *)
Lemma read_length n rest (s : S) :
  P s → INT_MIN ≤ n ≤ INT_MAX → incoming s = bytes_of_i32 n ++ rest →
  wp (read (bytes_of_i32 0) 4 s) (λ '(_, b, s'), i32_of_bytes b = n ∧ P s' ∧
    incoming s' = rest ∧ outgoing s' = outgoing s).
Proof using Hprompt.
  intros Hs Hn Hi. eapply wp_mono; [apply read_prompt; [done|int_lia|unfold len; rewrite length_bytes_of_i32; lia]|].
  intros [[r b] s'] (_ & -> & HP & Hi' & Ho). rewrite Hi in *. change (Z.to_nat 4) with 4%nat in *.
  rewrite take_app_length' by (by rewrite length_bytes_of_i32).
  rewrite drop_app_length' in Hi' by (by rewrite length_bytes_of_i32).
  by rewrite i32_bytes_round.
Qed.

(** A request that is not empty, on the server's side. *)
Lemma RecvBuff_request fd c rest conn (v : ServerImpl S) :
  P conn → Client_ok c → wire c ≠ [] → len (wire c) ≤ INT_MAX → incoming conn = request c ++ rest →
  wp (RecvBuff fd conn v) (λ '(ok, v'), ok = true ∧ ∃ conn' c', P conn' ∧
    v' = add_task fd c' (set_conn fd conn' v) ∧ incoming conn' = rest ∧ outgoing conn' = outgoing conn ∧
    Client_data_ c' = Client_data_ c).
Proof using Hprompt Hlaws.
  intros Hs Hc Hne Hmax Hi. pose proof (len_nonneg (wire c)) as Hnn.
  assert (Hpos : 0 < len (wire c)) by (destruct (wire c); [done|unfold len; simpl; lia]).
  unfold request in Hi. rewrite <- app_assoc in Hi.
  assert (Hint : INT_MIN ≤ len (wire c) ≤ INT_MAX) by int_lia.
  unfold RecvBuff. apply wp_bind. eapply wp_mono; [apply (read_length (len (wire c)) (wire c ++ rest) conn Hs Hint Hi)|].
  intros [[r b] s1] (-> & HP1 & Hi1 & Ho1). rewrite (proj2 (Z.ltb_ge _ _)) by lia.
  apply wp_bind. eapply wp_mono.
  { apply read_prompt; [done|lia|]. unfold len. rewrite length_replicate. unfold len in *. lia. }
  intros [[r2 b2] s2] (-> & -> & HP2 & Hi2 & Ho2). rewrite Hi1 in *. unfold len in *. rewrite Nat2Z.id in *.
  rewrite take_app_length, drop_app_length in *.
  rewrite (proj2 (Z.eqb_neq _ _)), (proj2 (Z.ltb_ge _ _)) by lia.
  rewrite Nat2Z.id, take_app_length.
  rewrite (parse_array_law Client Client_SharedCtor (Client_MergeFrom Client_SharedCtor c) (wire c)).
  - simpl. split; [done|]. exists s2, (Client_MergeFrom Client_SharedCtor c). split_and!; try done; [congruence|].
    unfold Client_MergeFrom, merge_int32. simpl. by destruct (Z.eqb_spec (Client_data_ c) 0).
  - exact (round_law c Client_SharedCtor Hc).
Qed.

(** The task that answers it. *)
Lemma run_task_reply fd c conn (v : ServerImpl S) :
  P conn →
  wp (run_task (next_task v) (add_task fd c (set_conn fd conn v)))
    (λ v', ∃ conn', conns v' !! fd = Some conn' ∧ incoming conn' = incoming conn ∧
       outgoing conn' = outgoing conn ++ image (MkServer fd (Client_data_ c) no_unknown_fields 0)).
Proof using Hprompt.
  intros HP. unfold run_task, add_task. cbn [closures conns set_conn].
  rewrite !lookup_insert_eq. unfold SendBuff.
  assert (Client_data_ (Client_copy_ctor c) = Client_data_ c) as -> by (unfold Client_copy_ctor; by case_match).
  destruct (prompt_send (image (Server_set_data (Client_data_ c) (Server_set_server_id fd Server_SharedCtor))) conn HP)
    as (s' & -> & HP' & Hi & Ho). simpl. exists s'. by rewrite lookup_insert_eq.
Qed.

Lemma Client_wire_bound c : Client_ok c →
  len (wire c) ≤ INT_MAX - 47 ∧ (Client_client_id_ c ≠ [] ∨ Client_data_ c ≠ 0 → wire c ≠ []) ∧
  (Client_client_id_ c = [] → Client_data_ c = 0 → wire c = []).
Proof using Hlaws.
  intros (Hd & Hi & Hv & Hu). rewrite Client_wire, len_app by done. unfold max_text in Hi.
  pose proof (len_nonneg (Client_client_id_ c)).
  destruct (add_bytes_len 1 (Client_client_id_ c) 0) as [_ Hb]; [lia|unfold fits; int_lia|int_lia|].
  destruct (add_int32_len 2 (Client_data_ c) 0) as [_ Hz]; [lia|done|int_lia|].
  split; [lia|split; [|by intros -> ->]].
  intros Hne [H1' H2']%app_eq_nil. unfold put_bytes, put_int32 in *.
  destruct (Z.ltb_spec 0 (len (Client_client_id_ c))) as [Hl|Hl].
  - destruct (bytes_size 1 (Client_client_id_ c)) as [Hs Hs']; [lia|unfold fits; int_lia|].
    rewrite H1' in Hs. unfold len in Hs at 1. simpl in Hs. lia.
  - destruct (Z.eqb_spec (Client_data_ c) 0).
    + destruct Hne as [Hne|]; [|done]. destruct (Client_client_id_ c); [done|]. unfold len in Hl. simpl in Hl. lia.
    + destruct (int32_size 2 (Client_data_ c)) as [Hs Hs']; [lia|done|].
      rewrite H2' in Hs. unfold len in Hs at 1. simpl in Hs. lia.
Qed.

(** The client is dropped: one EPOLL_CTL_DEL, one [close], its tasks unqueued. *)
Definition dropped (fd : Z) (v v' : ServerImpl S) : Prop :=
  ctls v' = ctls v ++ [CtlDel fd] ∧ closed v' = closed v ++ [fd] ∧ conns v' = delete fd (conns v) ∧
  fd_wf (pool v') ∧ _tasks (pool v') = filter (λ x, x.2 ≠ fd) (_tasks (pool v)) ∧
  closures v' = closures v ∧ next_task v' = next_task v.

Lemma RecvBuff_zero fd conn (v : ServerImpl S) :
  P conn → fd_wf (pool v) → (incoming conn = [] ∨ ∃ rest, incoming conn = bytes_of_i32 0 ++ rest) →
  wp (RecvBuff fd conn v) (λ '(ok, v'), ok = false ∧ dropped fd v v').
Proof using Hprompt.
  intros HP Hwf Hi. unfold RecvBuff. apply wp_bind.
  eapply (wp_mono _ (λ '(_, b, s'), i32_of_bytes b = 0 ∧ P s')).
  - destruct Hi as [Hi|[rest Hi]].
    + eapply wp_mono; [apply read_prompt; [done|int_lia|unfold len; rewrite length_bytes_of_i32; lia]|].
      intros [[r b] s'] (_ & -> & HP' & _). rewrite Hi. done.
    + assert (Hz : INT_MIN ≤ 0 ≤ INT_MAX) by int_lia.
      eapply wp_mono; [apply (read_length 0 rest conn HP Hz Hi)|]. by intros [[r b] s'] (-> & ? & _).
  - intros [[r b] s1] [-> HP1]. change (0 <? 0) with false. cbv iota.
    apply wp_bind. eapply wp_mono; [apply (read_prompt _ 0 s1 HP1); [int_lia|apply len_nonneg]|].
    intros [[r2 b2] s2] (-> & _ & HP2 & _). simpl.
    destruct (delCloseFD_ok fd (pool v) Hwf) as (q & -> & Hwf' & Hq). simpl. unfold dropped. simpl.
    split_and!; try done. by rewrite delete_insert_eq.
Qed.

(** A client that closed its end is dropped: one EPOLL_CTL_DEL, one [close],
    and none of its tasks is left in the pool, the others untouched.  The server
    sees the end in its second [read], of no bytes, because a length that could
    not be read stays 0. *)
Theorem echo_eof_drops fd conn (v : ServerImpl S) :
  P conn → fd_wf (pool v) → conns v !! fd = Some conn → incoming conn = [] →
  wp (handle_event (OnClient fd EPOLLIN) v) (dropped fd v).
Proof using Hprompt.
  intros HP Hwf Hc Hi. unfold handle_event. change (negb (Z.land EPOLLIN EPOLLIN =? 0)) with true. cbv iota.
  rewrite Hc. apply wp_bind. eapply wp_mono; [apply (RecvBuff_zero fd conn v HP Hwf); by left|].
  by intros [ok v'] [_ ?].
Qed.

(** A request whose fields have all their default values is serialized to no
    bytes: the server takes it for the end of the stream and drops the client,
    whatever it sent after it. *)
Theorem empty_request_drops fd conn c rest (v : ServerImpl S) :
  P conn → fd_wf (pool v) → Client_ok c → Client_client_id_ c = [] → Client_data_ c = 0 →
  incoming conn = request c ++ rest →
  wp (RecvBuff fd conn v) (λ '(ok, v'), ok = false ∧ dropped fd v v').
Proof using Hprompt Hlaws.
  intros HP Hwf Hc Hid Hd Hi. apply RecvBuff_zero; [done|done|]. right. exists rest.
  destruct (Client_wire_bound c Hc) as (_ & _ & Hw). rewrite Hi. unfold request. by rewrite Hw.
Qed.

(** The length is not checked: one that is negative makes the server's array
    have a negative size, which is undefined. *)
Theorem negative_length_undefined fd conn n rest (v : ServerImpl S) :
  P conn → INT_MIN ≤ n < 0 → incoming conn = bytes_of_i32 n ++ rest →
  RecvBuff fd conn v = Err OutOfBounds.
Proof using Hprompt.
  intros HP Hn Hi. assert (Hr : INT_MIN ≤ n ≤ INT_MAX) by int_lia.
  pose proof (read_length n rest conn HP Hr Hi) as Hl. unfold RecvBuff.
  destruct (read (bytes_of_i32 0) 4 conn) as [[[r b] s1]|e]; simpl in *; [|done].
  destruct Hl as (-> & _). by rewrite (proj2 (Z.ltb_lt n 0)) by lia.
Qed.

(** A [read] that returns a part of the request (and that is all TCP promises)
    is not completed: the part is parsed and its task queued, and the rest of the
    request stays in the stream, where the next event takes it for a length. *)
Theorem short_read_desyncs fd n bs conn s1 s2 (v : ServerImpl S) :
  0 < n ≤ INT_MAX → 0 < len bs < n →
  recv 4 conn = (RBytes (bytes_of_i32 n), s1) → recv n s1 = (RBytes bs, s2) →
  wp (RecvBuff fd conn v) (λ '(ok, v'), ok = true ∧ conns v' !! fd = Some s2 ∧
    contents (pool v') = contents (pool v) ++ [next_task v]).
Proof using Hlaws.
  intros Hn Hb H1' H2'. unfold RecvBuff, read. change (to_u64 4) with 4. rewrite H1'.
  pose proof (length_bytes_of_i32 n) as Hl4. pose proof (length_bytes_of_i32 0) as Hl0.
  assert (mwrite 0 (bytes_of_i32 n) (bytes_of_i32 0) = Ok (bytes_of_i32 n ++ [])) as ->.
  { rewrite mwrite_ok by (unfold len; lia). cbn [Z.to_nat take app]. by rewrite drop_ge by (unfold len; lia). }
  cbn [mbind res_bind mret res_ret]. rewrite i32_bytes_round by int_lia. rewrite (proj2 (Z.ltb_ge _ _)) by lia.
  rewrite to_u64_id by int_lia. rewrite H2'.
  rewrite mwrite_ok by (unfold len in *; rewrite ?length_replicate; lia).
  cbn [mbind res_bind mret res_ret Z.to_nat take app]. rewrite Z.add_0_l.
  rewrite (proj2 (Z.eqb_neq (len bs) 0)), (proj2 (Z.ltb_ge (len bs) 0)) by lia.
  pose proof (parse_array_total Client Client_SharedCtor
    (take (Z.to_nat (len bs)) (bs ++ drop (Z.to_nat (len bs)) (replicate (Z.to_nat n) 0)))) as Hp.
  destruct (ParseFromArray _ _) as [[c ok]|e]; [|done]. simpl. split; [done|].
  split; [apply lookup_insert_eq|by rewrite fmap_app].
Qed.
End Programs.

(** The client stores what it receives over a [Server], which is not an array of
    bytes: the first byte of a reply makes the turn undefined. *)
Theorem client_reply_undefined {S} `{SocketLaws S} `{Layout} `{!LayoutLaws} (sock s1 : S) b bs :
  recv (to_u64 sizeof_Server) sock = (RBytes (b :: bs), s1) → Client_RecvBuff sock = Err BadObject.
Proof.
  intros Hr. unfold Client_RecvBuff, read. rewrite Hr.
  pose proof (recv_law (to_u64 sizeof_Server) sock) as Hl. unfold recv_spec in Hl. rewrite Hr in Hl.
  assert (Hz : 0 ≤ sizeof_Server) by (rewrite <- (image_len Server_SharedCtor); apply len_nonneg).
  destruct Hl as (_ & Hl & _); [unfold to_u64; apply Z.mod_pos_bound; lia|].
  assert (to_u64 sizeof_Server ≤ sizeof_Server) by (unfold to_u64; apply Z.mod_le; lia).
  rewrite mwrite_ok by (rewrite ?image_len; lia). cbn [mbind res_bind mret res_ret].
  by rewrite (proj2 (Z.ltb_lt 0 (len (b :: bs)))) by (unfold len; simpl; lia).
Qed.

(** The client's name is read from an array of one character without a zero
    after it: for each of its 26 letters the constructor of [cli_name] reads past
    the end, before anything is sent. *)
Theorem client_name_overread {S} `{Socket S} `{Layout} n client_id inet_addr strerror socket_ connect (sock : S) :
  0 ≤ client_id ≤ 25 → Client_SendBuff n client_id sock = Err OutOfBounds ∧
    client_main inet_addr strerror socket_ connect n client_id sock = Err OutOfBounds.
Proof.
  intros Hc. assert (Hs : Client_SendBuff n client_id sock = Err OutOfBounds).
  { unfold Client_SendBuff, cli_name. rewrite Z.mod_small by lia. simpl.
    destruct (Z.eqb_spec (65 + client_id + 128 - 128) 0); [lia|done]. }
  split; [done|]. unfold client_main, InitClient. cbn [EchoServer.client_id new_client]. by rewrite Hs.
Qed.

(** ** Examples

    The layout of x86-64: the pointers to the virtual functions and to the
    metadata, three [int]s, padding.  A connection with nothing left to choose is
    prompt. *)
#[export] Instance x86_layout : Layout := {
  sizeof_Server := 32;
  image m := replicate 16 0 ++ bytes_of_i32 (Server_server_id_ m) ++ bytes_of_i32 (Server_data_ m) ++
    bytes_of_i32 (Server_cached_size_ m) ++ replicate 4 0;
}.

#[export] Instance x86_layout_laws : LayoutLaws.
Proof. by constructor. Qed.

Definition at_once (s : Tcp) : Prop := t_sched s = [].
#[export] Instance tcp_prompt : Prompt at_once.
Proof.
  constructor.
  - intros n [i o l] Hl Hn. unfold at_once in Hl. simpl in Hl. subst. simpl.
    unfold tcp_recv. simpl. rewrite Nat.min_id. eexists. by split; [reflexivity|].
  - intros bs [i o l] Hl. unfold at_once in Hl. simpl in Hl. subst. simpl.
    unfold tcp_send. simpl. rewrite Nat.min_id, firstn_all. eexists. by split; [reflexivity|].
Qed.

Definition demo_client : Client := MkClient [67] 0 no_unknown_fields 0.
Definition demo_response : LoginResponse :=
  MkLoginResponse (Some (MkResultCode [111; 107] (-1) no_unknown_fields 0)) true no_unknown_fields 0.
Definition demo_echo_server : ServerImpl Tcp := new_server.

Lemma demo_client_ok : Client_ok demo_client.
Proof. unfold Client_ok, max_text, len. simpl. int_lia. Qed.
Lemma demo_response_ok : LoginResponse_ok demo_response.
Proof. split; [|done]. split; [simpl; int_lia|]. split; [|done]. unfold max_text, len. simpl. int_lia. Qed.

Lemma messages_round_trip_witness :
  ParseFromArray LoginResponse_SharedCtor (SerializeAsString demo_response).1 = Ok (demo_response, true).
Proof.
  assert (Hs : Server_ok (MkServer 5 7 no_unknown_fields 0)) by (split; [simpl; int_lia|split; [simpl; int_lia|done]]).
  assert (Hr : ResultCode_ok (MkResultCode [] 3 no_unknown_fields 0)).
  { split; [simpl; int_lia|]. split; [unfold max_text, len; simpl; int_lia|done]. }
  assert (Hq : LoginRequest_ok (MkLoginRequest [97] [98] no_unknown_fields 0)).
  { split; [unfold max_text, len; simpl; int_lia|done]. }
  exact (proj2 (proj2 (proj2 (proj2 (messages_round_trip demo_client demo_client _ (MkServer 9 9 no_unknown_fields 0)
    _ (MkResultCode [] 0 no_unknown_fields 0) _ LoginRequest_SharedCtor demo_response LoginResponse_SharedCtor
    demo_client_ok Hs Hr Hq demo_response_ok))))).
Defined.

(** The second response fails with code 5, without a text of its own. *)
Definition demo_update : LoginResponse :=
  MkLoginResponse (Some (MkResultCode [] 5 no_unknown_fields 0)) false no_unknown_fields 0.
Definition demo_client2 : Client := MkClient [66; 66] 0 no_unknown_fields 0.

Lemma parse_merges_witness :
  LoginResponse_InternalParse LoginResponse_SharedCtor (wire demo_response ++ wire demo_update) =
    Ok (MkLoginResponse (Some (MkResultCode [111; 107] 5 no_unknown_fields 0)) true no_unknown_fields 0, Some AtEnd) ∧
  Client_InternalParse (Client_set_data 9 Client_SharedCtor) (wire demo_client ++ wire demo_client2) =
    Ok (MkClient [66; 66] 9 no_unknown_fields 0, Some AtEnd).
Proof.
  assert (Hp : LoginResponse_ok demo_update).
  { split; [|done]. split; [simpl; int_lia|]. split; [|done]. unfold max_text, len. simpl. int_lia. }
  assert (Hc : Client_ok demo_client2) by (unfold Client_ok, max_text, len; simpl; int_lia).
  destruct (parse_merges demo_client demo_client2 (Client_set_data 9 Client_SharedCtor) Server_SharedCtor Server_SharedCtor Server_SharedCtor
    ResultCode_SharedCtor ResultCode_SharedCtor ResultCode_SharedCtor LoginRequest_SharedCtor LoginRequest_SharedCtor LoginRequest_SharedCtor
    demo_response demo_update LoginResponse_SharedCtor) as (H1 & _ & _ & _ & H5).
  exact (conj (H5 demo_response_ok Hp) (H1 demo_client_ok Hc)).
Defined.

Lemma login_response_size_witness :
  let '(total_size, p') := LoginResponse_ByteSizeLong demo_response in
  len (LoginResponse_InternalSerialize p' [0]) = 1 + total_size ∧ LoginResponse_cached_size_ p' = total_size.
Proof.
  destruct (login_response_size demo_response [0] demo_response_ok) as (H1 & H2 & _). exact (conj H1 H2).
Defined.

Lemma parse_terminates_witness : ∃ x, Client_InternalParse demo_client [10; 200; 1] = Ok x.
Proof.
  exact (proj1 (parse_terminates demo_client Server_SharedCtor ResultCode_SharedCtor LoginRequest_SharedCtor
    demo_response [10; 200; 1])).
Defined.

Lemma echo_eof_drops_witness :
  wp (handle_event (OnClient 5 EPOLLIN) (set_conn 5 (MkTcp [] [] []) demo_echo_server)) (λ v', closed v' = [5]).
Proof.
  eapply wp_mono.
  { apply (echo_eof_drops at_once 5 (MkTcp [] [] []) (set_conn 5 (MkTcp [] [] []) demo_echo_server));
      try done. apply fd_wf_empty. }
  intros v' (_ & H & _). exact H.
Defined.

Lemma empty_request_drops_witness :
  wp (RecvBuff 5 (MkTcp (request Client_SharedCtor ++ [1; 2]) [] []) demo_echo_server) (λ '(ok, v'), closed v' = [5]).
Proof.
  eapply wp_mono.
  { apply (empty_request_drops at_once 5 _ Client_SharedCtor [1; 2] demo_echo_server); try done.
    apply fd_wf_empty. }
  intros [ok v'] [_ (_ & H & _)]. exact H.
Defined.

Lemma negative_length_undefined_witness :
  RecvBuff 5 (MkTcp [255; 255; 255; 255] [] []) demo_echo_server = Err OutOfBounds.
Proof. apply (negative_length_undefined at_once 5 _ (-1) []); [done|int_lia|done]. Defined.

(** A request of ten bytes of which four arrive first. *)
Lemma short_read_desyncs_witness :
  wp (RecvBuff 5 (MkTcp (bytes_of_i32 10 ++ [10; 1; 67; 16; 1; 1; 1; 1; 1; 1]) [] [4; 4]%nat) demo_echo_server)
    (λ '(ok, v'), ok = true).
Proof.
  eapply wp_mono.
  { apply (short_read_desyncs 5 10 [10; 1; 67; 16]
      (MkTcp (bytes_of_i32 10 ++ [10; 1; 67; 16; 1; 1; 1; 1; 1; 1]) [] [4; 4]%nat)
      (MkTcp [10; 1; 67; 16; 1; 1; 1; 1; 1; 1] [] [4]%nat) (MkTcp [1; 1; 1; 1; 1; 1] [] []));
      [int_lia|unfold len; simpl; lia|done|done]. }
  intros [ok v'] [H _]. exact H.
Defined.

Definition demo_reply : list Z := image (MkServer 5 26 no_unknown_fields 0).
Lemma client_reply_undefined_witness : Client_RecvBuff (MkTcp demo_reply [] []) = Err BadObject.
Proof. by eapply (client_reply_undefined (MkTcp demo_reply [] [])). Defined.

Lemma client_name_overread_witness : Client_SendBuff 1 2 (MkTcp demo_reply [] []) = Err OutOfBounds.
Proof. apply (client_name_overread 1 2 (λ _, 0) (λ _, []) 3 (λ _ _, None)). lia. Defined.
