(* ===== verification/EchoSystem.v ===== *)
(** * The echo server and its thread pool together.

    The event loop queues a task for each request and the workers of the pool run
    them, in any interleaving.  [sys_step] has the turns of the loop (new
    connections and events of the clients), the taking of the front of the queue by
    a worker (under the lock: ThreadPoolSpec) and the running of a task that was taken. *)
From S2P Require Import Prelude CInt CArray CNet EpollSocket TaskQueue TimerChannel WireFormat EchoProto EchoMessages WireVarint EchoServer EchoSpec.

Record system (S : Type) `{Wire} : Type := Sys {
  server : ServerImpl S;
  taken : list nat;
}.
Arguments Sys {S _}. Arguments server {S _}. Arguments taken {S _}.

Section System.
Context {S : Type} `{Socket S} (P : S → Prop) `{Hprompt : !Prompt P}.
Context `{Hsock : !SocketLaws S} `{Layout} `{Hlayout : !LayoutLaws} `{Hlaws : !WireLaws}.
Implicit Types (v : ServerImpl S) (x : system S).

(** The numbers that the tasks [ids] will answer on [fd]. *)
Definition answers (closures : gmap nat (Z * Client)) (fd : Z) (ids : list nat) : list Z :=
  omap (λ id, '(fd', c) ← closures !! id; if decide (fd' = fd) then Some (Client_data_ c) else None) ids.
Definition ids x : list nat := taken x ++ contents (pool (server x)).
Definition pending x (fd : Z) : list Z := answers (closures (server x)) fd (ids x).

(** The bytes that answer the number [d] on the connection [fd]. *)
Definition reply (fd d : Z) : list Z := image (MkServer fd d no_unknown_fields 0).

Definition request_ok (c : Client) : Prop :=
  Client_ok c ∧ (Client_client_id_ c ≠ [] ∨ Client_data_ c ≠ 0).

(** A connection on which a client sends the requests [reqs fd], well formed and
    not empty, when each [read] and [write] transfers all it can; its number is
    that of no task on its way. *)
Definition arriving (reqs : Z → list Client) x (fd : Z) (conn : S) : Prop :=
  P conn ∧ Forall request_ok (reqs fd) ∧ incoming conn = concat (request <$> reqs fd) ∧ outgoing conn = [] ∧
  pending x fd = [].

(** What the loop does not survive: the length at the start of the request (0
    when it cannot be read) is negative, or the second [read] fails. *)
Definition breaks (conn : S) : Prop := ∃ r b s1, read (bytes_of_i32 0) 4 conn = Ok (r, b, s1) ∧
  (i32_of_bytes b < 0 ∨ (recv (to_u64 (i32_of_bytes b)) s1).1 = RError ∨ (recv (to_u64 (i32_of_bytes b)) s1).1 = RAgain).

Lemma read_cases buf n s : 0 ≤ n ≤ INT_MAX → n ≤ len buf →
  ∃ r buf' s', read buf n s = Ok (r, buf', s') ∧
    ((recv (to_u64 n) s).1 = RError ∨ (recv (to_u64 n) s).1 = RAgain → r = -1) ∧
    ((recv (to_u64 n) s).1 ≠ RError → (recv (to_u64 n) s).1 ≠ RAgain → 0 ≤ r).
Proof using Hsock.
  intros Hn Hb. unfold read. pose proof (recv_law n s ltac:(lia)) as Hl. unfold recv_spec in Hl.
  rewrite to_u64_id by int_lia. destruct (recv n s) as [[bs| |] s']; cbn [fst].
  - rewrite mwrite_ok by lia. cbn [mbind res_bind mret res_ret]. eexists _, _, _. split; [done|].
    split; [by intros [?|?]|intros _ _; apply len_nonneg].
  - eexists _, _, _. split; [done|]. split; [done|by intros].
  - eexists _, _, _. split; [done|]. split; [done|by intros].
Qed.

Lemma RecvBuff_cases fd conn v : fd_wf (pool v) →
  RecvBuff fd conn v = Err OutOfBounds ∧ breaks conn ∨
  ¬ breaks conn ∧ ∃ ok v', RecvBuff fd conn v = Ok (ok, v') ∧
    ((∃ c conn', v' = add_task fd c (set_conn fd conn' v)) ∨ dropped fd v v').
Proof using Hsock Hlaws.
  intros Hwf. destruct (read_cases (bytes_of_i32 0) 4 conn) as (r & b & s1 & Hr & _); [int_lia|done|].
  assert (Hb : breaks conn ↔ i32_of_bytes b < 0 ∨ (recv (to_u64 (i32_of_bytes b)) s1).1 = RError ∨
                (recv (to_u64 (i32_of_bytes b)) s1).1 = RAgain).
  { split; [|by exists r, b, s1]. intros (r' & b' & s' & Hr' & Hc). rewrite Hr in Hr'. by injection Hr' as -> -> ->. }
  rewrite Hb. unfold RecvBuff. rewrite Hr. cbn [mbind res_bind mret res_ret].
  assert (Hn : INT_MIN ≤ i32_of_bytes b ≤ INT_MAX).
  { unfold i32_of_bytes, to_i32. pose proof (Z.mod_pos_bound (le_value (take 4 b) + 2 ^ 31) (2 ^ 32) ltac:(lia)). int_lia. } set (n := i32_of_bytes b) in *.
  destruct (Z.ltb_spec n 0) as [Hneg|Hpos]; [left; split; [done|by left]|].
  destruct (read_cases (replicate (Z.to_nat n) 0) n s1) as (r2 & b2 & s2 & Hr2 & Hbad & Hgood);
    [lia|unfold len; rewrite length_replicate; lia|].
  rewrite Hr2. cbn [mbind res_bind mret res_ret].
  assert (Hcase : (recv (to_u64 n) s1).1 = RError ∨ (recv (to_u64 n) s1).1 = RAgain ∨
                  (recv (to_u64 n) s1).1 ≠ RError ∧ (recv (to_u64 n) s1).1 ≠ RAgain) by (destruct (recv _ _).1; auto).
  destruct Hcase as [Hc|[Hc|[Hc1 Hc2]]]; [left; rewrite Hbad by tauto; simpl; tauto..|].
  right. split; [intros [?|[?|?]]; [lia|done|done]|]. specialize (Hgood Hc1 Hc2).
  destruct (Z.eqb_spec r2 0) as [->|Hne].
  - destruct (delCloseFD_ok fd (pool v) Hwf) as (q & Hq & Hwf' & Ht). cbn. rewrite Hq. cbn. eexists _, _. split; [done|]. right.
    split_and!; try done. cbn. by rewrite delete_insert_eq.
  - rewrite (proj2 (Z.ltb_ge r2 0)) by lia.
    pose proof (parse_array_total Client Client_SharedCtor (take (Z.to_nat r2) b2)) as Hp.
    destruct (ParseFromArray _ _) as [[c ok]|e]; [|done]. cbn. eexists _, _. split; [done|]. left. by exists c, s2.
Qed.

Section Steps.
(** How many workers there are, which clients wait for the reply to a request
    before they send the next (as client.cpp does; others send ahead), and which
    connections may come. *)
Context (workers : nat) (waits : Z → bool) (admits : system S → Z → S → Prop).

(** A worker runs one task at a time; a client that waits has sent no request
    while a reply is pending; [accept] gives a number that is not in use. *)
Inductive sys_step x : res (system S) → Prop :=
  | sys_event fd events : (waits fd = true → pending x fd = []) →
      sys_step x (v ← handle_event (OnClient fd events) (server x); mret (Sys v (taken x)))
  | sys_accept fd conn : conns (server x) !! fd = None → admits x fd conn →
      sys_step x (v ← handle_event (OnListen fd conn) (server x); mret (Sys v (taken x)))
  | sys_take : _tasks (pool (server x)) ≠ [] → (length (taken x) < workers)%nat →
      sys_step x ('(id, q) ← fd_pop (pool (server x));
                          mret (Sys (set_pool q (server x)) (taken x ++ [id])))
  | sys_run id rest : taken x ≡ₚ id :: rest →
      sys_step x (v ← run_task id (server x); mret (Sys v rest)).

Definition sys_run_to : system S → system S → Prop := rtc (λ x y, sys_step x (Ok y)).
Definition sys_reachable v x : Prop := sys_run_to (Sys v []) x.

(** ** The specification *)

(** The connection [conn] of [fd] when the first of the requests [reqs] have been
    [read], and the numbers [answered] sent: each request read is answered or a
    task is pending for it; with one worker, or when the client waits, the answers
    are in order. *)
Definition in_order (fd : Z) : Prop := (workers ≤ 1)%nat ∨ waits fd = true.
Definition served (reqs : list Client) x (fd : Z) (conn : S) : Prop :=
  ∃ done todo answered, reqs = done ++ todo ∧
    incoming conn = concat (request <$> todo) ∧ outgoing conn = concat (reply fd <$> answered) ∧
    answered ++ pending x fd ≡ₚ Client_data_ <$> done ∧
    (in_order fd → answered ++ pending x fd = Client_data_ <$> done).

(** A server with its connections, before the first event: on [fd] the client
    sends [reqs fd]. *)
Definition ready (reqs : Z → list Client) v : Prop :=
  fd_wf (pool v) ∧ contents (pool v) = [] ∧
  ∀ fd conn, conns v !! fd = Some conn →
    P conn ∧ Forall request_ok (reqs fd) ∧ incoming conn = concat (request <$> reqs fd) ∧ outgoing conn = [].

(** ** The invariant *)
Record serving (reqs : Z → list Client) x : Prop := Serving {
  sv_wf : fd_wf (pool (server x));
  sv_tasks : ∀ id fd, (id, fd) ∈ _tasks (pool (server x)) → ∃ c, closures (server x) !! id = Some (fd, c);
  sv_taken : ∀ id, id ∈ taken x → is_Some (closures (server x) !! id);
  sv_fresh : ∀ id, id ∈ ids x → (id < next_task (server x))%nat;
  sv_workers : (length (taken x) ≤ workers)%nat;
  sv_conn : ∀ fd conn, conns (server x) !! fd = Some conn →
    P conn ∧ Forall request_ok (reqs fd) ∧ served (reqs fd) x fd conn;
  sv_waits : ∀ fd, waits fd = true → (length (pending x fd) ≤ 1)%nat;
}.

Lemma answers_app cl fd l1 l2 : answers cl fd (l1 ++ l2) = answers cl fd l1 ++ answers cl fd l2.
Proof. apply omap_app. Qed.

Lemma answers_cons cl fd id l :
  answers cl fd (id :: l) = match cl !! id with
    | Some (fd', c) => if decide (fd' = fd) then [Client_data_ c] else []
    | None => [] end ++ answers cl fd l.
Proof. unfold answers. cbn. destruct (cl !! id) as [[fd' c]|]; cbn; [|done]. by destruct (decide _). Qed.

#[local] Arguments answers : simpl never.

Lemma answers_ext cl cl' fd l : (∀ id, id ∈ l → cl !! id = cl' !! id) → answers cl fd l = answers cl' fd l.
Proof.
  induction l as [|id l IH]; intros Hl; [done|]. rewrite !answers_cons, (Hl id) by (by left).
  rewrite IH; [done|]. intros id' Hid. apply Hl. by right.
Qed.

Lemma answers_perm cl fd l l' : l ≡ₚ l' → answers cl fd l ≡ₚ answers cl fd l'.
Proof. intros Hl. by apply omap_Permutation. Qed.

Lemma answers_sublist cl fd l l' : l `sublist_of` l' → (length (answers cl fd l) ≤ length (answers cl fd l'))%nat.
Proof. induction 1; rewrite ?answers_cons, ?length_app; lia. Qed.

(** The tasks of another descriptor answer nothing here. *)
Lemma answers_drop cl fd fd' (l : list (nat * Z)) :
  (∀ id g, (id, g) ∈ l → ∃ c, cl !! id = Some (g, c)) → fd' ≠ fd →
  answers cl fd' (filter (λ t, t.2 ≠ fd) l).*1 = answers cl fd' l.*1.
Proof.
  intros Hl Hne. induction l as [|[id g] l IH]; [done|].
  assert (IH' := IH (λ id g H, Hl id g (list_elem_of_further _ _ _ H))). clear IH.
  rewrite filter_cons. simpl. destruct (decide (g ≠ fd)) as [Hg|Hg]; simpl.
  - rewrite !answers_cons. exact (f_equal (app _) IH').
  - apply dec_stable in Hg as ->. destruct (Hl id fd) as [c Hc]; [by left|].
    rewrite answers_cons, Hc, decide_False by done. exact IH'.
Qed.

(** ** Safety, on any connections *)

(** What holds of the tasks on their way. *)
Record known x : Prop := Known {
  kn_wf : fd_wf (pool (server x));
  kn_nodup : NoDup (ids x);
  kn_fresh : ∀ id, id ∈ ids x → (id < next_task (server x))%nat;
  kn_queued : ∀ id fd, (id, fd) ∈ _tasks (pool (server x)) →
    is_Some (conns (server x) !! fd) ∧ ∃ c, closures (server x) !! id = Some (fd, c);
  kn_taken : ∀ id, id ∈ taken x → is_Some (closures (server x) !! id);
  kn_workers : (length (taken x) ≤ workers)%nat;
}.

(** From one state to a later one: no task that was done comes back. *)
Definition later x y : Prop := (next_task (server x) ≤ next_task (server y))%nat ∧
  ∀ id, id ∈ ids y → id ∈ ids x ∨ (next_task (server x) ≤ id)%nat.

Lemma known_drop x fd v' : known x → dropped fd (server x) v' → known (Sys v' (taken x)) ∧ later x (Sys v' (taken x)).
Proof using Type.
  intros [Hwf Hnd Hfr Hq Htk Hw] (_ & _ & Hc & Hwf' & Ht & Hcl & Hn).
  assert (Hsub : ids (Sys v' (taken x)) `sublist_of` ids x).
  { unfold ids. cbn. rewrite Ht. apply sublist_app; [done|]. apply fmap_sublist, sublist_filter. }
  assert (Hin : ∀ id, id ∈ ids (Sys v' (taken x)) → id ∈ ids x) by (intros id Hid; exact (elem_of_sublist _ _ _ Hid Hsub)).
  split; [|split; [cbn; lia|by intros id Hid; left; apply Hin]]. constructor; cbn; rewrite ?Hcl, ?Hn; try done.
  - by eapply sublist_NoDup.
  - intros id Hid. by apply Hfr, Hin.
  - rewrite Ht, Hc. intros id g [Hg Hid]%list_elem_of_filter. cbn in Hg. rewrite lookup_delete_ne by done. by apply Hq.
Qed.

Lemma known_add x fd c conn' : known x →
  known (Sys (add_task fd c (set_conn fd conn' (server x))) (taken x)) ∧
  later x (Sys (add_task fd c (set_conn fd conn' (server x))) (taken x)).
Proof using Type.
  intros [Hwf Hnd Hfr Hq Htk Hw]. set (y := Sys _ _).
  assert (Hids : ids y = ids x ++ [next_task (server x)]) by (unfold ids; cbn; by rewrite fmap_app, app_assoc).
  assert (Hnew : next_task (server x) ∉ ids x) by (intros Hin%Hfr; lia).
  assert (Hlook : ∀ id, id ∈ ids x → closures (server y) !! id = closures (server x) !! id).
  { intros id Hid. cbn. apply lookup_insert_ne. intros Heq. by rewrite Heq in Hnew. }
  split; [|split; [cbn; lia|rewrite Hids; intros id [?|Hid%list_elem_of_singleton]%elem_of_app; [by left|right; lia]]].
  constructor.
  - cbn. apply fd_push_wf; [done|]. intros Hin. apply Hnew. unfold ids. apply elem_of_app. by right.
  - rewrite Hids. apply NoDup_app. split; [done|]. split; [|apply NoDup_singleton]. intros id Hid ->%list_elem_of_singleton. by apply Hnew.
  - rewrite Hids. intros id [Hid|Hid%list_elem_of_singleton]%elem_of_app; cbn; [apply Hfr in Hid; lia|lia].
  - intros id g Hin. cbn in Hin. apply elem_of_app in Hin as [Hin|Hin].
    + rewrite Hlook by (unfold ids; apply elem_of_app; right; apply list_elem_of_fmap; by exists (id, g)).
      destruct (Hq id g Hin) as [Hc Hcl]. split; [|done]. cbn. destruct (decide (fd = g)) as [->|]; [by rewrite lookup_insert_eq|].
      by rewrite lookup_insert_ne.
    + apply list_elem_of_singleton in Hin as [= -> ->]. cbn. rewrite !lookup_insert_eq. split; [done|by eexists].
  - intros id Hid. rewrite Hlook by (unfold ids; apply elem_of_app; by left). by apply Htk.
  - done.
Qed.

Lemma run_task_ok id v : is_Some (closures v !! id) → ∃ v', run_task id v = Ok v' ∧ pool v' = pool v ∧
  closures v' = closures v ∧ next_task v' = next_task v ∧ ∀ fd, is_Some (conns v !! fd) → is_Some (conns v' !! fd).
Proof using Type.
  intros [[fd c] Hc]. unfold run_task. rewrite Hc. destruct (conns v !! fd) as [conn|] eqn:Hf; eexists; (split; [done|]); [|by split_and!].
  split_and!; try done. intros g Hg. cbn. destruct (decide (fd = g)) as [->|]; [by rewrite lookup_insert_eq|by rewrite lookup_insert_ne].
Qed.

Lemma known_step x r : known x → sys_step x r →
  wpe r (λ y, known y ∧ later x y) (λ e, e = OutOfBounds ∧ ∃ fd conn, conns (server x) !! fd = Some conn ∧ breaks conn).
Proof using Hsock Hlaws.
  intros Hx Hstep. assert (Hsame : known (Sys (server x) (taken x)) ∧ later x (Sys (server x) (taken x))).
  { split; [by destruct x|]. split; [done|by left]. }
  destruct Hstep as [fd events _|fd conn Hnew _|Hne Hlt|id rest Htk].
  - unfold handle_event. destruct (negb _); [|exact Hsame]. destruct (conns (server x) !! fd) as [conn|] eqn:Hfd; [|exact Hsame].
    destruct (RecvBuff_cases fd conn (server x) (kn_wf x Hx)) as [[-> Hb]|(_ & ok & v' & -> & Hv)]; [split; [done|by exists fd, conn]|].
    cbn. destruct Hv as [(c & conn' & ->)|Hd]; [by apply known_add|by apply (known_drop x fd)].
  - destruct Hx as [Hwf Hnd Hfr Hq Htk Hw]. split; [|split; [done|by left]]. constructor; try done. intros id g Hin.
    destruct (Hq id g Hin) as [Hc Hcl]. split; [|done]. cbn. destruct (decide (fd = g)) as [->|]; [by rewrite lookup_insert_eq|].
    by rewrite lookup_insert_ne.
  - destruct Hx as [Hwf Hnd Hfr Hq Htk Hw]. destruct (pool (server x)) as [[|[id fd] l] m] eqn:Hp; [done|].
    destruct (fd_pop_wf id fd l m Hwf) as (q & -> & Hwf' & Hl). cbn.
    assert (Hids : ids (Sys (set_pool q (server x)) (taken x ++ [id])) = ids x).
    { unfold ids. cbn. by rewrite Hl, Hp, <- app_assoc. }
    split; [|split; [done|rewrite Hids; by left]]. constructor; rewrite ?Hids; cbn; try done.
    + rewrite Hl. intros id' g Hin. apply Hq. by right.
    + intros id' [Hid|Hid%list_elem_of_singleton]%elem_of_app; [by apply Htk|]. subst id'.
      destruct (Hq id fd) as [_ [c ->]]; [by left|done].
    + rewrite length_app. cbn. lia.
  - destruct (run_task_ok id (server x)) as (v' & -> & Hp & Hcl & Hn & Hc); [apply (kn_taken x Hx); rewrite Htk; by left|].
    destruct Hx as [Hwf Hnd Hfr Hq Htak Hw]. cbn.
    assert (Hids : ids x ≡ₚ id :: ids (Sys v' rest)) by (unfold ids; cbn; by rewrite Hp, Htk).
    assert (Hin : ∀ i, i ∈ ids (Sys v' rest) → i ∈ ids x) by (intros i Hi; rewrite Hids; by right).
    split; [|split; [cbn; lia|intros i Hi; left; by apply Hin]]. constructor.
    + cbn. by rewrite Hp.
    + rewrite Hids in Hnd. by apply NoDup_cons in Hnd as [_ ?].
    + intros i Hi. cbn. rewrite Hn. by apply Hfr, Hin.
    + intros i g Hi. cbn in Hi |- *. rewrite Hp in Hi. rewrite Hcl. destruct (Hq i g Hi) as [? ?]. split; [by apply Hc|done].
    + intros i Hi. cbn in Hi |- *. rewrite Hcl. apply Htak. rewrite Htk. by right.
    + apply Permutation_length in Htk. simpl in Htk |- *. lia.
Qed.

Lemma known_run x y : known x → sys_run_to x y → known y ∧ later x y.
Proof using Hsock Hlaws.
  intros Hx Hr. induction Hr as [x|x y z Hstep _ IH]; [split; [done|split; [done|by left]]|].
  pose proof (known_step _ _ Hx Hstep) as [Hy [Hn1 Hl1]]. destruct (IH Hy) as [Hz [Hn2 Hl2]]. split; [done|]. split; [lia|].
  intros id [Hid|?]%Hl2; [by apply Hl1|right; lia].
Qed.

(** C27: The server and its workers together, on any connections, whatever the
    kernel reports, whatever connections come and however the workers interleave,
    from a server with an empty queue: a step is undefined only when the loop
    handles an event of a connection whose request begins with a negative length, or
    on which the second [read] fails; and such an event is.  No task is on its way twice, each has what its lambda
    captured, each that is queued has its client connected; at most one task per
    worker is taken; a task that was done or dropped does not come back. *)
Theorem echo_system_safe v x : fd_wf (pool v) → contents (pool v) = [] → sys_reachable v x →
  (∀ e, sys_step x (Err e) → e = OutOfBounds ∧ ∃ fd conn, conns (server x) !! fd = Some conn ∧ breaks conn) ∧
  (∀ fd conn events, conns (server x) !! fd = Some conn → Z.land events EPOLLIN ≠ 0 → breaks conn →
     handle_event (OnClient fd events) (server x) = Err OutOfBounds) ∧
  NoDup (ids x) ∧ (∀ id, id ∈ ids x → (id < next_task (server x))%nat ∧ is_Some (closures (server x) !! id)) ∧
  (∀ id fd, (id, fd) ∈ _tasks (pool (server x)) → is_Some (conns (server x) !! fd)) ∧
  (length (taken x) ≤ workers)%nat ∧
  (∀ y id, sys_run_to x y → (id < next_task (server x))%nat → id ∉ ids x → id ∉ ids y).
Proof using Hsock Hlaws.
  intros Hwf Hq Hr. assert (Hinit : known (Sys v [])).
  { assert (Ht : _tasks (pool v) = []) by (by apply fmap_nil_inv in Hq). constructor; unfold ids; cbn; rewrite ?Ht; try done; cbn.
    - apply NoDup_nil_2.
    - by intros id ?%not_elem_of_nil.
    - by intros id fd ?%not_elem_of_nil.
    - by intros id ?%not_elem_of_nil.
    - lia. }
  destruct (known_run _ _ Hinit Hr) as [Hx _]. split_and!.
  - intros e He. exact (known_step _ _ Hx He).
  - intros fd conn events Hfd Hev Hb. unfold handle_event. rewrite (proj2 (Z.eqb_neq _ _) Hev), Hfd. cbn [negb].
    destruct (RecvBuff_cases fd conn (server x) (kn_wf x Hx)) as [[-> _]|[? _]]; done.
  - apply Hx.
  - intros id Hid. split; [by apply (kn_fresh x Hx)|]. unfold ids in Hid. apply elem_of_app in Hid as [Hid|Hid].
    + by apply (kn_taken x Hx).
    + apply list_elem_of_fmap in Hid as ([i fd] & -> & Hid). destruct (kn_queued x Hx i fd Hid) as [_ [c Hc]]. by exists (fd, c).
  - intros id fd Hid. apply (kn_queued x Hx id fd Hid).
  - apply Hx.
  - intros y id Hy Hlt Hid Hin. destruct (known_run _ _ Hx Hy) as [_ [_ Hl]]. destruct (Hl id Hin) as [?|?]; [done|lia].
Qed.

Section Scenario.
Context (reqs : Z → list Client) (Hadm : ∀ x fd conn, admits x fd conn → arriving reqs x fd conn).

Lemma ready_serving v : ready reqs v → serving reqs (Sys v []).
Proof.
  intros (Hwf & Hq & Hc). constructor; unfold ids; simpl in *.
  - done.
  - intros id fd Hin. apply fmap_nil_inv in Hq. rewrite Hq in Hin. by apply not_elem_of_nil in Hin.
  - by intros id ?%not_elem_of_nil.
  - rewrite Hq. by intros id ?%not_elem_of_nil.
  - lia.
  - intros fd conn Hfd. destruct (Hc fd conn Hfd) as (HP & Hok & Hi & Ho). split_and!; [done|done|].
    exists [], (reqs fd), []. unfold pending, ids. simpl. rewrite Hq. by split_and!.
  - intros fd _. unfold pending, ids. simpl. rewrite Hq. simpl. lia.
Qed.

(** The task at the front is taken: the tasks on their way are the same. *)
Lemma take_serving x : serving reqs x →
  _tasks (pool (server x)) ≠ [] → (length (taken x) < workers)%nat →
  wp ('(id, q) ← fd_pop (pool (server x)); mret (Sys (set_pool q (server x)) (taken x ++ [id]))) (serving reqs).
Proof.
  intros [Hwf Htask Htak Hfr Hw Hc Hwt] Hne Hlt. destruct (pool (server x)) as [[|[id fd] l] m] eqn:Hp; [done|].
  destruct (fd_pop_wf id fd l m Hwf) as (q & -> & Hwf' & Hq). simpl.
  assert (Hids : ids (Sys (set_pool q (server x)) (taken x ++ [id])) = ids x).
  { unfold ids. simpl. rewrite Hq, Hp, <- app_assoc. done. }
  constructor; simpl; [done| | | | | |].
  - rewrite Hq. intros id' fd' Hin. apply Htask. simpl. by right.
  - intros id' [Hin| ->%list_elem_of_singleton]%elem_of_app; [by apply Htak|].
    destruct (Htask id fd) as [c ->]; [by left|]. done.
  - rewrite Hids. apply Hfr.
  - rewrite length_app. simpl. lia.
  - intros fd' conn Hfd. destruct (Hc fd' conn Hfd) as (HP & Hok & done & todo & ans & H1' & H2' & H3' & H4' & H5').
    split_and!; [assumption..|]. exists done, todo, ans. unfold pending. rewrite Hids. simpl. by split_and!.
  - intros fd' Hfd'. unfold pending. rewrite Hids. by apply Hwt.
Qed.

(** A task that leaves: what it answers on each descriptor. *)
Lemma answers_run cl fd id fd' c rest q (tk : list nat) :
  cl !! id = Some (fd', c) → tk ≡ₚ id :: rest →
  let head := if decide (fd' = fd) then [Client_data_ c] else [] in
  answers cl fd (tk ++ q) ≡ₚ head ++ answers cl fd (rest ++ q) ∧
  ((length tk ≤ 1)%nat ∨ (length (answers cl fd (tk ++ q)) ≤ 1)%nat →
    answers cl fd (tk ++ q) = head ++ answers cl fd (rest ++ q)).
Proof.
  intros Hid Htk head. assert (Hcons : answers cl fd ((id :: rest) ++ q) = head ++ answers cl fd (rest ++ q)).
  { change ((id :: rest) ++ q) with (id :: rest ++ q). by rewrite answers_cons, Hid. }
  assert (Hperm : answers cl fd (tk ++ q) ≡ₚ head ++ answers cl fd (rest ++ q)).
  { rewrite <- Hcons. apply answers_perm. by rewrite Htk. }
  split; [done|]. intros [Hl|Hl].
  - pose proof (Permutation_length Htk) as Hlen. simpl in Hlen. destruct rest; [|simpl in Hlen; lia].
    by rewrite <- Hcons, (proj1 (Permutation_singleton_r tk id) Htk).
  - destruct (answers cl fd (tk ++ q)) as [|d [|]]; [by apply Permutation_nil_l| |simpl in Hl; lia].
    by apply Permutation_singleton_l.
Qed.

Lemma run_serving x id rest : serving reqs x → taken x ≡ₚ id :: rest →
  wp (v ← run_task id (server x); mret (Sys v rest)) (serving reqs).
Proof using Hprompt.
  intros [Hwf Htask Htak Hfr Hw Hc Hwt] Htk. set (v := server x) in *.
  assert (Hsub : ∀ i, i ∈ rest → i ∈ taken x) by (intros i ?; rewrite Htk; by right).
  destruct (Htak id) as [[fd c] Hid]; [rewrite Htk; by left|]. pose proof (Permutation_length Htk) as Hlen. simpl in Hlen.
  assert (Hrest : ∀ v', pool v' = pool v → closures v' = closures v → next_task v' = next_task v →
    (∀ fd' conn', conns v' !! fd' = Some conn' → ∃ conn, conns v !! fd' = Some conn ∧ incoming conn' = incoming conn ∧
      (P conn → P conn') ∧ outgoing conn' = outgoing conn ++ (if decide (fd = fd') then reply fd' (Client_data_ c) else [])) →
    serving reqs (Sys v' rest)).
  { intros v' Hp Hcl Hn Hconn. constructor; unfold ids; simpl; rewrite ?Hp, ?Hcl, ?Hn.
    - done.
    - done.
    - intros i Hi. by apply Htak, Hsub.
    - intros i Hi. apply Hfr. unfold ids. apply elem_of_app in Hi as [?|?]; apply elem_of_app; auto.
    - lia.
    - intros fd' conn' Hfd'. destruct (Hconn _ _ Hfd') as (conn & Hfd & Hi & HP & Ho).
      destruct (Hc fd' conn Hfd) as (HP0 & Hok & done & todo & ans & H1' & H2' & H3' & H4' & H5').
      split; [by apply HP|]. split; [assumption|].
      destruct (answers_run (closures v) fd' id fd c rest (contents (pool v)) (taken x) Hid Htk) as [Hperm Heq].
      exists done, todo, (ans ++ if decide (fd = fd') then [Client_data_ c] else []).
      unfold pending, ids in *. simpl in *. fold v in H4', H5'. rewrite Hp, Hcl.
      split; [assumption|]. split; [congruence|]. split; [|split].
      + rewrite Ho, H3', fmap_app, concat_app. destruct (decide _); simpl; by rewrite ?app_nil_r.
      + rewrite <- app_assoc. rewrite <- H4'. apply Permutation_app_head. symmetry. apply Hperm.
      + intros Hw1. rewrite <- app_assoc. rewrite <- H5' by done. f_equal. symmetry. apply Heq.
        destruct Hw1 as [Hw1|Hw1]; [left; lia|right; by apply (Hwt fd')].
    - intros fd' Hfd'. specialize (Hwt fd' Hfd').
      destruct (answers_run (closures v) fd' id fd c rest (contents (pool v)) (taken x) Hid Htk) as [Hperm _].
      apply Permutation_length in Hperm. unfold pending, ids in *. simpl. rewrite Hp, Hcl. fold v in Hwt.
      rewrite length_app in Hperm. simpl in Hperm, Hwt. lia. }
  unfold run_task. fold v. rewrite Hid. destruct (conns v !! fd) as [conn|] eqn:Hfd; simpl.
  - unfold SendBuff. destruct (Hc fd conn Hfd) as (HP & _).
    destruct (prompt_send (image (Server_set_data (Client_data_ c) (Server_set_server_id fd Server_SharedCtor))) conn HP)
      as (s' & -> & HP' & Hi & Ho). simpl. apply Hrest; try done. intros fd' conn' Hl. simpl in Hl.
    destruct (decide (fd = fd')) as [<-|Hne].
    + rewrite lookup_insert_eq in Hl. injection Hl as <-. by exists conn.
    + rewrite lookup_insert_ne in Hl by done. exists conn'. by rewrite app_nil_r.
  - apply Hrest; try done. intros fd' conn' Hl. exists conn'. rewrite decide_False by congruence. by rewrite app_nil_r.
Qed.

(** A request that was read: its task is the last of those pending. *)
Lemma add_serving x fd c c' conn conn' done todo answered : serving reqs x →
  conns (server x) !! fd = Some conn → P conn' →
  reqs fd = done ++ c :: todo → incoming conn' = concat (request <$> todo) →
  outgoing conn' = concat (reply fd <$> answered) → answered ++ pending x fd ≡ₚ Client_data_ <$> done →
  (in_order fd → answered ++ pending x fd = Client_data_ <$> done) → (waits fd = true → pending x fd = []) → Client_data_ c' = Client_data_ c →
  serving reqs (Sys (add_task fd c' (set_conn fd conn' (server x))) (taken x)).
Proof.
  intros [Hwf Htask Htak Hfr Hw Hc Hwt] Hfd HP' Hreq Hi Ha1 Ha2 Ha3 Ha4 Hd.
  set (v := server x) in *. set (n := next_task v) in *.
  assert (Hn : n ∉ ids x) by (intros Hin; specialize (Hfr n Hin); subst n v; lia).
  assert (Hids : ids (Sys (add_task fd c' (set_conn fd conn' v)) (taken x)) = ids x ++ [n]).
  { unfold ids. simpl. fold v n. by rewrite fmap_app, app_assoc. }
  assert (Hpend : ∀ g, pending (Sys (add_task fd c' (set_conn fd conn' v)) (taken x)) g =
    pending x g ++ if decide (fd = g) then [Client_data_ c] else []).
  { intros g. unfold pending. rewrite Hids, answers_app. simpl. fold v n. f_equal.
    - apply answers_ext. intros id Hid. rewrite lookup_insert_ne; [done|]. by intros ->.
    - rewrite answers_cons, lookup_insert_eq, app_nil_r.
      assert (Client_data_ (Client_copy_ctor c') = Client_data_ c') as -> by (unfold Client_copy_ctor; by case_match).
      by rewrite Hd. }
  constructor; simpl; fold v n.
  - apply fd_push_wf; [done|]. intros Hin. apply Hn. unfold ids. apply elem_of_app. by right.
  - intros id g [Hin|Hin]%elem_of_app.
    + destruct (Htask id g Hin) as [c0 Hc0]. exists c0. rewrite lookup_insert_ne; [done|]. intros ->. apply Hn.
      unfold ids. apply elem_of_app. right. apply list_elem_of_fmap. by exists (id, g).
    + apply list_elem_of_singleton in Hin as [= -> ->]. rewrite lookup_insert_eq. by eexists.
  - intros id Hid. destruct (decide (n = id)) as [<-|]; [by rewrite lookup_insert_eq|].
    rewrite lookup_insert_ne by done. by apply Htak.
  - rewrite Hids. intros id [Hid| ->%list_elem_of_singleton]%elem_of_app; [|lia].
    specialize (Hfr id Hid). fold v n in Hfr. lia.
  - done.
  - intros g conn0 Hg. destruct (decide (fd = g)) as [<-|Hne].
    + rewrite lookup_insert_eq in Hg. injection Hg as <-. destruct (Hc fd conn Hfd) as (_ & Hok & _).
      split; [assumption|]. split; [assumption|]. exists (done ++ [c]), todo, answered.
      rewrite Hpend, decide_True, app_assoc by done. rewrite fmap_app.
      split; [by rewrite <- app_assoc|]. split; [assumption|]. split; [assumption|].
      split; [by rewrite Ha2|]. intros Hw1. by rewrite Ha3.
    + rewrite lookup_insert_ne in Hg by done. destruct (Hc g conn0 Hg) as (HP0 & Hok & d & t & a & H1' & H2' & H3' & H4' & H5').
      split; [assumption|]. split; [assumption|]. exists d, t, a. rewrite Hpend, decide_False, app_nil_r by done. by split_and!.
  - intros g Hg. rewrite Hpend. destruct (decide (fd = g)) as [<-|]; [rewrite Ha4 by done; simpl; lia|].
    rewrite app_nil_r. by apply Hwt.
Qed.

(** A connection that was dropped, with its queued tasks. *)
Lemma drop_serving x fd v' : serving reqs x → dropped fd (server x) v' →
  serving reqs (Sys v' (taken x)).
Proof.
  intros [Hwf Htask Htak Hfr Hw Hc Hwt] (_ & _ & Hcn & Hwf' & Hq & Hcl & Hn).
  assert (Hin : ∀ id, id ∈ ids (Sys v' (taken x)) → id ∈ ids x).
  { intros id. unfold ids. simpl. rewrite Hq. intros [?|Hid]%elem_of_app; apply elem_of_app; [by left|right].
    apply fst_filter_elem in Hid as (g & _ & Hid). apply list_elem_of_fmap. by exists (id, g). }
  constructor; simpl; rewrite ?Hcl, ?Hn.
  - done.
  - rewrite Hq. intros id g [_ Hid]%list_elem_of_filter. by apply Htask.
  - done.
  - intros id Hid. by apply Hfr, Hin.
  - done.
  - intros g conn. rewrite Hcn, lookup_delete_Some. intros [Hne Hg].
    destruct (Hc g conn Hg) as (HP & Hok & d & t & a & H1' & H2' & H3' & H4' & H5').
    assert (Hp : pending (Sys v' (taken x)) g = pending x g).
    { unfold pending, ids. simpl. rewrite Hq, Hcl, !answers_app. f_equal. apply (answers_drop _ fd g); [exact Htask|done]. }
    split; [assumption|]. split; [assumption|]. exists d, t, a. rewrite Hp. by split_and!.
  - intros g Hg. specialize (Hwt g Hg). etrans; [|exact Hwt]. unfold pending, ids. simpl. rewrite Hq, Hcl.
    apply answers_sublist, sublist_app; [done|]. apply fmap_sublist, sublist_filter.
Qed.

Lemma event_serving x fd events : serving reqs x → (waits fd = true → pending x fd = []) →
  wp (v ← handle_event (OnClient fd events) (server x); mret (Sys v (taken x))) (serving reqs).
Proof using Hprompt Hlaws.
  intros Hx Hwait. assert (Hsame : serving reqs (Sys (server x) (taken x))) by (by destruct x).
  unfold handle_event. destruct (negb _); [|done]. destruct (conns (server x) !! fd) as [conn|] eqn:Hfd; [|done].
  destruct (sv_conn _ _ Hx fd conn Hfd) as (HP & Hok & d & t & a & Hreq & Hi & Ho & Hperm & Heq).
  destruct t as [|c t].
  - pose proof (RecvBuff_zero P fd conn (server x) HP (sv_wf _ _ Hx) (or_introl Hi)) as Hr.
    destruct (RecvBuff fd conn (server x)) as [[ok v']|]; [|done]. simpl in *. destruct Hr as [_ Hr].
    by apply (drop_serving x fd).
  - rewrite Hreq in Hok. apply Forall_app in Hok as [_ Hok]. apply Forall_cons in Hok as [[Hc Hne] _].
    destruct (Client_wire_bound c Hc) as (Hb & Hw & _). rewrite fmap_cons in Hi. cbn [concat] in Hi.
    pose proof (RecvBuff_request P fd c _ conn (server x) HP Hc (Hw Hne) ltac:(lia) Hi) as Hr.
    destruct (RecvBuff fd conn (server x)) as [[ok v']|]; [|done]. simpl in *.
    destruct Hr as (_ & conn' & c' & HP' & -> & Hi' & Ho' & Hd).
    apply (add_serving x fd c c' conn conn' d t a); try done. by rewrite Ho'.
Qed.

(** A new connection. *)
Lemma accept_serving x fd conn : serving reqs x → conns (server x) !! fd = None → admits x fd conn →
  wp (v ← handle_event (OnListen fd conn) (server x); mret (Sys v (taken x))) (serving reqs).
Proof.
  intros [Hwf Htask Htak Hfr Hw Hc Hwt] Hnew Had. destruct (Hadm _ _ _ Had) as (HP & Hok & Hi & Ho & Hp).
  constructor; try assumption. intros g conn' Hg. cbn [server conns do_ctl set_conn] in Hg.
  destruct (decide (fd = g)) as [<-|Hne].
  - rewrite lookup_insert_eq in Hg. injection Hg as <-. split; [assumption|]. split; [assumption|].
    exists [], (reqs fd), []. split_and!; [done|assumption|done|change ([] ++ pending x fd ≡ₚ []); by rewrite Hp|..].
    intros _. exact Hp.
  - rewrite lookup_insert_ne in Hg by done. exact (Hc g conn' Hg).
Qed.

Lemma step_serving x r : serving reqs x → sys_step x r → wp r (serving reqs).
Proof using Hprompt Hlaws Hadm.
  intros Hx [fd events|fd conn Hnew Had|Hne Hlt|id rest Htk];
    [by apply event_serving|by apply accept_serving|by apply take_serving|by apply run_serving].
Qed.

Lemma run_serves x y : serving reqs x → sys_run_to x y →
  serving reqs y.
Proof using Hprompt Hlaws Hadm.
  intros Hx Hr. induction Hr as [|x y z Hstep _ IH]; [done|]. exact (IH (step_serving _ _ Hx Hstep)).
Qed.

(** ** Nothing is left over *)

(** The same clients, with the same bytes to read. *)
Definition same_input v v' : Prop :=
  ∀ fd conn, conns v !! fd = Some conn → ∃ conn', conns v' !! fd = Some conn' ∧ incoming conn' = incoming conn.

Lemma run_task_same x id : serving reqs x → id ∈ taken x →
  wp (run_task id (server x)) (λ v', same_input (server x) v' ∧ pool v' = pool (server x)).
Proof using Hprompt.
  intros Hx Hid. unfold run_task. destruct (sv_taken _ _ Hx id Hid) as [[fd c] ->].
  destruct (conns (server x) !! fd) as [conn|] eqn:Hfd; simpl; [|split; [|done]; intros g conn ?; by exists conn].
  split; [|done]. destruct (sv_conn _ _ Hx fd conn Hfd) as [HP _]. unfold SendBuff.
  destruct (prompt_send (image (Server_set_data (Client_data_ c) (Server_set_server_id fd Server_SharedCtor))) conn HP)
    as (s' & -> & HP' & Hi & Ho). intros g conn0 Hg. simpl. destruct (decide (fd = g)) as [<-|].
  - rewrite lookup_insert_eq. exists s'. split; [done|]. congruence.
  - rewrite lookup_insert_ne by done. by exists conn0.
Qed.

(** The workers can finish what is queued and taken. *)
Lemma drain n x : serving reqs x → (0 < workers)%nat →
  (2 * length (_tasks (pool (server x))) + length (taken x) ≤ n)%nat →
  ∃ y, sys_run_to x y ∧ ids y = [] ∧ same_input (server x) (server y).
Proof using Hprompt Hlaws Hadm.
  revert x. induction n as [|n IH]; intros x Hx Hw Hn.
  { exists x. split; [constructor|]. split; [|intros fd conn ?; by exists conn]. unfold ids. simpl.
    destruct (taken x), (_tasks (pool (server x))); done || (simpl in Hn; lia). }
  destruct (taken x) as [|id rest] eqn:Ht.
  - destruct (_tasks (pool (server x))) as [|t l] eqn:Hq.
    { apply IH; [done|done|]. rewrite Hq, Ht. simpl. lia. }
    assert (Hstep := sys_take x ltac:(by rewrite Hq) ltac:(rewrite Ht; simpl; lia)).
    pose proof (step_serving _ _ Hx Hstep) as Hy. pose proof (sv_wf _ _ Hx) as Hwf.
    destruct (pool (server x)) as [ts m] eqn:Hp. simpl in Hq. subst ts. destruct t as [id fd].
    destruct (fd_pop_wf id fd l m Hwf) as (q & Hpop & _ & Hl). rewrite Hpop in Hstep, Hy. simpl in Hstep, Hy.
    destruct (IH _ Hy Hw) as (y & Hr & Hy1 & Hy2); [simpl in *; rewrite Hl, Ht; simpl; lia|].
    exists y. split; [|split; [done|exact Hy2]]. econstructor; [exact Hstep|done].
  - assert (Hid : id ∈ taken x) by (rewrite Ht; by left).
    assert (Hstep := sys_run x id rest ltac:(by rewrite Ht)).
    pose proof (step_serving _ _ Hx Hstep) as Hy. pose proof (run_task_same _ _ Hx Hid) as Hs.
    destruct (run_task id (server x)) as [v'|]; [|done]. simpl in *. destruct Hs as [Hs Hp].
    destruct (IH _ Hy Hw) as (y & Hr & Hy1 & Hy2); [simpl in *; rewrite Hp; lia|].
    exists y. split; [econstructor; [exact Hstep|done]|]. split; [done|]. intros g conn Hg.
    destruct (Hs g conn Hg) as (conn1 & Hg1 & Hi1). destruct (Hy2 g conn1 Hg1) as (conn2 & ? & ?).
    exists conn2. split; [done|]. congruence.
Qed.

(** The loop can read what the client of [fd] sends. *)
Lemma read_one x fd conn : serving reqs x → conns (server x) !! fd = Some conn →
  incoming conn ≠ [] →
  wp (handle_event (OnClient fd EPOLLIN) (server x)) (λ v', ∃ conn', conns v' !! fd = Some conn' ∧
    (length (incoming conn') < length (incoming conn))%nat).
Proof using Hprompt Hlaws.
  intros Hx Hfd Hne. destruct (sv_conn _ _ Hx fd conn Hfd) as (HP & Hok & d & t & a & Hreq & Hi & _).
  destruct t as [|c t]; [done|]. rewrite Hreq in Hok. apply Forall_app in Hok as [_ [[Hc Hd] _]%Forall_cons].
  destruct (Client_wire_bound c Hc) as (Hb & Hw & _). rewrite fmap_cons in Hi. cbn [concat] in Hi.
  unfold handle_event. change (negb (Z.land EPOLLIN EPOLLIN =? 0)) with true. cbv iota. rewrite Hfd.
  apply wp_bind. eapply wp_mono; [apply (RecvBuff_request P fd c _ conn (server x) HP Hc (Hw Hd) ltac:(lia) Hi)|].
  intros [ok v'] (_ & conn' & c' & _ & -> & Hi' & _). simpl. exists conn'. rewrite lookup_insert_eq. split; [done|].
  rewrite Hi, Hi'. unfold request. rewrite !length_app, length_bytes_of_i32. lia.
Qed.

Lemma read_all fd n x conn : serving reqs x → (0 < workers)%nat → conns (server x) !! fd = Some conn →
  (length (incoming conn) ≤ n)%nat →
  ∃ y conn', sys_run_to x y ∧ conns (server y) !! fd = Some conn' ∧ incoming conn' = [].
Proof using Hprompt Hlaws Hadm.
  revert x conn. induction n as [|n IH]; intros x conn Hx Hw Hfd Hn;
    (destruct (decide (incoming conn = [])) as [He|Hne]; [by exists x, conn|]).
  { destruct (incoming conn); done || (simpl in Hn; lia). }
  destruct (drain _ x Hx Hw (le_n _)) as (z & Hr1 & Hids & Hsame). destruct (Hsame fd conn Hfd) as (conn1 & Hfd1 & Hi1).
  assert (Hz := run_serves _ _ Hx Hr1). rewrite <- Hi1 in Hne, Hn.
  assert (Hp : pending z fd = []) by (unfold pending; by rewrite Hids).
  assert (Hstep := sys_event z fd EPOLLIN (λ _, Hp)). pose proof (step_serving _ _ Hz Hstep) as Hy.
  pose proof (read_one _ _ _ Hz Hfd1 Hne) as H1'. destruct (handle_event _ _) as [v'|]; [|done]. simpl in *.
  destruct H1' as (conn' & Hfd' & Hlt). destruct (IH _ conn' Hy Hw Hfd') as (y & conn2 & Hr & ? & ?); [lia|].
  exists y, conn2. split; [|done]. etrans; [exact Hr1|]. econstructor; [exact Hstep|exact Hr].
Qed.

(** From any state where every connection is served, each can be answered in full. *)
Lemma serving_answered x fd conn : (0 < workers)%nat → serving reqs x → conns (server x) !! fd = Some conn →
  ∃ y conn' answered, sys_run_to x y ∧ conns (server y) !! fd = Some conn' ∧
    outgoing conn' = concat (reply fd <$> answered) ∧ answered ≡ₚ Client_data_ <$> reqs fd ∧
    (in_order fd → answered = Client_data_ <$> reqs fd).
Proof using Hprompt Hlaws Hadm.
  intros Hw Hx Hfd.
  destruct (read_all fd _ x conn Hx Hw Hfd (le_n _)) as (y & conn1 & Hr1 & Hfd1 & Hi1).
  assert (Hy := run_serves _ _ Hx Hr1). destruct (drain _ y Hy Hw (le_n _)) as (z & Hr2 & Hids & Hsame).
  assert (Hz := run_serves _ _ Hy Hr2). destruct (Hsame fd conn1 Hfd1) as (conn2 & Hfd2 & Hi2).
  destruct (sv_conn _ _ Hz fd conn2 Hfd2) as (_ & _ & d & t & a & Hreq & Hi & Ho & Hp & Hq).
  assert (t = []) as ->.
  { destruct t as [|c t]; [done|]. rewrite Hi2, Hi1 in Hi. apply (f_equal length) in Hi. rewrite fmap_cons in Hi. cbn [concat] in Hi.
    unfold request in Hi. rewrite !length_app, length_bytes_of_i32 in Hi. cbn [length] in Hi. lia. }
  unfold pending in Hp, Hq. rewrite Hids, app_nil_r in Hp, Hq. rewrite app_nil_r in Hreq. rewrite <- Hreq in Hp, Hq.
  exists z, conn2, a. split; [by etrans|]. split_and!; done.
Qed.

End Scenario.
End Steps.


(** C29: [delCloseFD] drops the queued tasks of a closed descriptor, but not one
    that a worker has taken: when the kernel gives the number to the next
    connection before the task runs, the reply to the old client is sent to the
    new one. *)
Theorem reply_to_new_client x fd id c conn conn2 : fd_wf (pool (server x)) →
  id ∈ taken x → closures (server x) !! id = Some (fd, c) →
  conns (server x) !! fd = Some conn → P conn → incoming conn = [] → P conn2 →
  wp (v ← handle_events [OnClient fd EPOLLIN; OnListen fd conn2] (server x); run_task id v)
    (λ v', ∃ conn', conns v' !! fd = Some conn' ∧ incoming conn' = incoming conn2 ∧
       outgoing conn' = outgoing conn2 ++ reply fd (Client_data_ c)).
Proof using Hprompt.
  intros Hwf Hid Hcl Hfd HP Hi HP2. apply wp_bind. cbn [handle_events]. apply wp_bind.
  eapply wp_mono; [apply (echo_eof_drops P fd conn (server x) HP Hwf Hfd Hi)|].
  intros v1 (_ & _ & _ & _ & _ & Hc1 & _). simpl. unfold run_task. simpl. rewrite Hc1, Hcl, lookup_insert_eq. simpl.
  unfold SendBuff. destruct (prompt_send (image (Server_set_data (Client_data_ c) (Server_set_server_id fd Server_SharedCtor))) conn2 HP2)
    as (s' & -> & _ & Hi' & Ho). simpl. exists s'. by rewrite lookup_insert_eq.
Qed.
End System.

(** ** Examples

    A client, another that connects later, two workers: the second request of
    client 5 is answered before the first, so with more than one worker the order
    of the replies is not that of the requests. *)
Definition ask (d : Z) : Client := Client_set_data d demo_client.
Definition demo_reqs (fd : Z) : list Client := if fd =? 5 then [ask 1; ask 2] else [ask 7].
Definition demo_client_conn (fd : Z) : Tcp := MkTcp (concat (request <$> demo_reqs fd)) [] [].
Definition demo_conns : ServerImpl Tcp := set_conn 5 (demo_client_conn 5) new_server.
Abbreviation demo_step := (sys_step 2 (λ _, false) (arriving at_once demo_reqs)).

Fixpoint without (id : nat) (l : list nat) : option (list nat) :=
  match l with
  | [] => None
  | i :: l => if Nat.eqb i id then Some l else rest ← without id l; Some (i :: rest)
  end.

Lemma without_perm id l rest : without id l = Some rest → l ≡ₚ id :: rest.
Proof.
  revert rest. induction l as [|i l IH]; intros rest; simpl; [done|]. destruct (Nat.eqb_spec i id) as [->|]; [by intros [= ->]|].
  destruct (without id l) as [r|]; [|done]. simpl. intros [= <-]. rewrite (IH r) by done. apply Permutation_swap.
Qed.

(** Events are descriptors (a new connection's, plus 1000), the taking of a task
    is [0], its run minus its number less one. *)
Definition demo_move (m : Z) (x : system Tcp) : res (system Tcp) :=
  if 1000 <? m then
    let fd := m - 1000 in
    if bool_decide (is_Some (conns (server x) !! fd)) || negb (bool_decide (pending x fd = [])) then Err Thrown
    else v ← handle_event (OnListen fd (demo_client_conn fd)) (server x); mret (Sys v (taken x))
  else if 0 <? m then v ← handle_event (OnClient m EPOLLIN) (server x); mret (Sys v (taken x))
  else if m =? 0 then
    if bool_decide (_tasks (pool (server x)) ≠ []) && (length (taken x) <? 2)%nat then
      '(id, q) ← fd_pop (pool (server x)); mret (Sys (set_pool q (server x)) (taken x ++ [id]))
    else Err Thrown
  else
    let id := Z.to_nat (-m - 1) in
    match without id (taken x) with
    | Some rest => v ← run_task id (server x); mret (Sys v rest)
    | None => Err Thrown
    end.
Fixpoint demo_moves (ms : list Z) (x : system Tcp) : res (system Tcp) :=
  match ms with [] => mret x | m :: ms => x ← demo_move m x; demo_moves ms x end.
Definition demo_end : res (system Tcp) := demo_moves [5; 5; 1006; 0; 0; -2; 6; -1; 0] (Sys demo_conns []).

Lemma demo_requests_ok fd : Forall request_ok (demo_reqs fd).
Proof.
  assert (Hok : ∀ d, INT_MIN ≤ d ≤ INT_MAX → request_ok (ask d)).
  { intros d Hd. split; [|by left]. destruct demo_client_ok as (_ & ? & ? & ?). split; [simpl; lia|done]. }
  unfold demo_reqs. destruct (fd =? 5); repeat (apply Forall_cons; split; [apply Hok; int_lia|]); by apply Forall_nil.
Qed.

Lemma demo_move_step m x y : demo_move m x = Ok y → demo_step x (Ok y).
Proof.
  unfold demo_move. destruct (1000 <? m).
  { destruct (bool_decide _ || _) eqn:Hg; [done|]. intros <-. apply orb_false_iff in Hg as [Hg1 Hg2].
    apply bool_decide_eq_false in Hg1. apply negb_false_iff, bool_decide_eq_true in Hg2.
    apply sys_accept; [by apply eq_None_not_Some|]. split_and!; [done|apply demo_requests_ok|done..]. }
  destruct (0 <? m).
  - intros <-. by apply sys_event.
  - destruct (m =? 0).
    + destruct (bool_decide _ && _) eqn:Hg; [|done]. intros <-. apply andb_true_iff in Hg as [Hg1 Hg2].
      apply sys_take; [by apply bool_decide_eq_true in Hg1|by apply Nat.ltb_lt in Hg2].
    + destruct (without _ _) as [rest|] eqn:Hg; [|done]. intros <-. apply sys_run. by apply without_perm.
Qed.

Lemma demo_moves_reachable ms x y : demo_moves ms x = Ok y → rtc (λ x y, demo_step x (Ok y)) x y.
Proof.
  revert x. induction ms as [|m ms IH]; intros x; simpl; [by intros [= ->]|].
  destruct (demo_move m x) as [x1|] eqn:Hm; [|done]. simpl. intros Hr.
  econstructor; [by eapply demo_move_step|by apply IH].
Qed.

Lemma demo_ready : ready at_once demo_reqs demo_conns.
Proof.
  pose proof demo_requests_ok as Hall. split; [apply fd_wf_empty|]. split; [done|]. intros fd conn Hc. unfold demo_conns in Hc. cbn [conns set_conn] in Hc.
  apply lookup_insert_Some in Hc as [[<- <-]|[_ Hc]]; [by split_and!|done].
Qed.

Definition reached (r : res (system Tcp)) : system Tcp := match r with Ok x => x | Err _ => Sys new_server [] end.
Definition at_end : system Tcp := reached demo_end.
Lemma demo_runs : ∃ x, demo_end = Ok x.
Proof.
  assert (Hok : match demo_end with Ok _ => true | Err _ => false end = true) by (vm_compute; reflexivity).
  destruct demo_end as [x|]; [by exists x|done].
Qed.
Lemma at_end_reachable : sys_reachable 2 (λ _, false) (arriving at_once demo_reqs) demo_conns at_end.
Proof.
  destruct demo_runs as [x Hx]. apply (demo_moves_reachable [5; 5; 1006; 0; 0; -2; 6; -1; 0]).
  change (demo_end = Ok at_end). unfold at_end. by rewrite Hx.
Qed.

Definition is_connected (fd : Z) (x : system Tcp) : bool := match conns (server x) !! fd with Some _ => true | None => false end.
Lemma at_end_connected fd : is_connected fd at_end = true → ∃ conn, conns (server at_end) !! fd = Some conn.
Proof. generalize at_end. unfold is_connected. intros x. destruct (conns (server x) !! fd) as [conn|]; [by exists conn|done]. Qed.

Example demo_replies :
  (x ← demo_end; mret ((t_out <$> conns (server x) !! 5), taken x)) = Ok (Some (reply 5 2 ++ reply 5 1), [2%nat]).
Proof. by vm_compute. Qed.

#[local] Opaque at_end.

(** A client that announces a negative length. *)
Definition demo_broken : ServerImpl Tcp := set_conn 5 (MkTcp [255; 255; 255; 255] [] []) new_server.

(** The second half: in the run above, task 1 does not come back. *)
Lemma echo_system_safe_witness :
  handle_event (OnClient 5 EPOLLIN) demo_broken = Err OutOfBounds ∧
  NoDup (ids at_end) ∧ ∀ y, rtc (λ x y, demo_step x (Ok y)) at_end y → 1%nat ∉ ids y.
Proof.
  destruct (echo_system_safe 2 (λ _, false) (arriving at_once demo_reqs) demo_broken (Sys demo_broken [])
    (fd_wf_empty) eq_refl (rtc_refl _ _)) as (_ & Hbad & _).
  destruct (echo_system_safe 2 (λ _, false) (arriving at_once demo_reqs) demo_conns at_end
    (fd_wf_empty) eq_refl at_end_reachable) as (_ & _ & Hnd & _ & _ & _ & Hback).
  split; [|split; [exact Hnd|]].
  - apply (Hbad 5 (MkTcp [255; 255; 255; 255] [] [])); [done|done|]. eexists _, _, _. split; [done|]. left. by vm_compute.
  - intros y Hy. apply (Hback y 1%nat Hy); [apply Nat.ltb_lt; by vm_compute|]. 
    assert (Hi : ids at_end = [2%nat]) by (vm_compute; reflexivity). rewrite Hi. by intros ?%list_elem_of_singleton.
Defined.


(** Client 5 sent the number 1 and closed, a worker has taken the task; the next
    client gets the number. *)
Definition left_early : system Tcp :=
  Sys (set_pool (MkFd [] ∅) (add_task 5 (ask 1) (set_conn 5 (MkTcp [] [] []) new_server))) [0%nat].

Lemma reply_to_new_client_witness :
  wp (v ← handle_events [OnClient 5 EPOLLIN; OnListen 5 (MkTcp [] [] [])] (server left_early); run_task 0 v)
    (λ v', ∃ conn', conns v' !! 5 = Some conn' ∧ t_in conn' = [] ∧ t_out conn' = reply 5 1).
Proof.
  eapply wp_mono.
  { apply (reply_to_new_client at_once left_early 5 0 (ask 1) (MkTcp [] [] []) (MkTcp [] [] []));
      [apply fd_wf_empty|by left|done..]. }
  intros v' H. exact H.
Defined.
