(* ===== verification/LRUCache.v ===== *)
(** * test/146.cc: the LRU cache, a doubly linked list and a map into it.

    The nodes live in a store of objects, so the list's pointers, the map's
    pointers and the ones the functions hold alias as they do in the code.  The
    specification is a list of keys and values, the most recently used first. *)
From S2P Require Import Prelude CInt CArray.

Record ListNode : Type := MkNode {
  head : option nat;
  key : Z;
  val : Z;
  tail : option nat;
}.

(** [nodes] are the live nodes; [next] is the next address [new] returns. *)
Record LRUCache : Type := MkLRU {
  capacity_ : Z;
  head_ : option nat;
  tail_ : option nat;
  cache_mp_ : gmap Z nat;
  nodes : gmap nat ListNode;
  next : nat;
}.

Definition new_LRUCache (capacity : Z) : LRUCache := MkLRU capacity None None ∅ ∅ 0.

Definition set_nodes (m : gmap nat ListNode) (c : LRUCache) : LRUCache :=
  MkLRU (capacity_ c) (head_ c) (tail_ c) (cache_mp_ c) m (next c).
Definition set_head (p : option nat) (c : LRUCache) : LRUCache :=
  MkLRU (capacity_ c) p (tail_ c) (cache_mp_ c) (nodes c) (next c).
Definition set_tail (p : option nat) (c : LRUCache) : LRUCache :=
  MkLRU (capacity_ c) (head_ c) p (cache_mp_ c) (nodes c) (next c).
Definition set_map (m : gmap Z nat) (c : LRUCache) : LRUCache :=
  MkLRU (capacity_ c) (head_ c) (tail_ c) m (nodes c) (next c).

Definition deref (p : option nat) (c : LRUCache) : res ListNode :=
  match p with
  | None => Err NullDeref
  | Some p => match nodes c !! p with Some n => mret n | None => Err UseAfterFree end
  end.
(** [p->head = ...] and the like: the node is read, and written changed. *)
Definition write (p : option nat) (f : ListNode → ListNode) (c : LRUCache) : res LRUCache :=
  n ← deref p c;
  match p with Some p => mret (set_nodes (<[p := f n]> (nodes c)) c) | None => Err NullDeref end.
Definition with_head (h : option nat) (n : ListNode) : ListNode := MkNode h (key n) (val n) (tail n).
Definition with_tail (t : option nat) (n : ListNode) : ListNode := MkNode (head n) (key n) (val n) t.
Definition with_data (k v : Z) (n : ListNode) : ListNode := MkNode (head n) k v (tail n).

Definition InsertHead (now : option nat) (c : LRUCache) : res LRUCache :=
  c ← write now (with_tail (head_ c)) c;
  c ← write now (with_head None) c;
  c ← (match head_ c with Some h => write (Some h) (with_head now) c | None => mret c end);
  let c := set_head now c in
  mret (match tail_ c with None => set_tail (head_ c) c | Some _ => c end).

Definition DeleteNode (node : option nat) (c : LRUCache) : res LRUCache :=
  n ← deref node c;
  c ← (match head n with
       | None => mret (set_head (tail n) c)
       | Some h => write (Some h) (with_tail (tail n)) c
       end);
  n ← deref node c;
  match tail n with
  | None => mret (set_tail (head n) c)
  | Some t => write (Some t) (with_head (head n)) c
  end.

Definition get (k : Z) (c : LRUCache) : res (Z * LRUCache) :=
  match cache_mp_ c !! k with
  | Some tmp =>
      c ← DeleteNode (Some tmp) c;
      c ← InsertHead (Some tmp) c;
      n ← deref (Some tmp) c;
      mret (val n, c)
  | None => mret (-1, c)
  end.

(** [new ListNode(key, value)] *)
Definition alloc (k v : Z) (c : LRUCache) : option nat * LRUCache :=
  (Some (next c), MkLRU (capacity_ c) (head_ c) (tail_ c) (cache_mp_ c)
     (<[next c := MkNode None k v None]> (nodes c)) (S (next c))).

(** [size() >= capacity_] compares as [size_t]. *)
Definition full (c : LRUCache) : bool := to_u64 (capacity_ c) <=? Z.of_nat (size (cache_mp_ c)).

Definition put (k v : Z) (c : LRUCache) : res LRUCache :=
  match cache_mp_ c !! k with
  | Some tmp =>
      c ← DeleteNode (Some tmp) c;
      InsertHead (Some tmp) c
  | None =>
      let tmp := tail_ c in
      '(tmp, c) ← (if full c then
          n ← deref (tail_ c) c;
          let c := set_map (delete (key n) (cache_mp_ c)) c in
          c ← DeleteNode (tail_ c) c;
          c ← write tmp (with_data k v) c;
          mret (tmp, c)
        else mret (alloc k v c));
      c ← InsertHead tmp c;
      match tmp with
      | Some p => mret (set_map (<[k := p]> (cache_mp_ c)) c)
      | None => Err NullDeref
      end
  end.

(** What [showLRU] prints. *)
Definition show_body (c : LRUCache) (st : option nat * list (Z * Z)) :
    res (option nat * list (Z * Z) + list (Z * Z)) :=
  let '(tmp, out) := st in
  match tmp with
  | None => mret (inr out)
  | Some _ => n ← deref tmp c; mret (inl (tail n, out ++ [(key n, val n)]))
  end.
Definition showLRU (fuel : nat) (c : LRUCache) : res (list (Z * Z)) := loop fuel (show_body c) (head_ c, []).

(** The destructor: [delete tmp], then [head_->tail], of the same node. *)
Definition destroy_body (c : LRUCache) : res (LRUCache + LRUCache) :=
  match head_ c with
  | None => mret (inr c)
  | Some tmp =>
      _ ← deref (Some tmp) c;
      let c := set_nodes (delete tmp (nodes c)) c in
      n ← deref (head_ c) c;
      mret (inl (set_head (tail n) c))
  end.
Definition destroy_LRUCache (fuel : nat) (c : LRUCache) : res LRUCache := loop fuel destroy_body c.

(** [main]: what it prints, the two first caches and the results of [get]. *)
Definition lru_main : res (list (list (Z * Z)) * list Z) :=
  let c := new_LRUCache 2 in
  c ← put 1 1 c; s1 ← showLRU 9 c;
  c ← put 2 2 c; s2 ← showLRU 9 c;
  '(g1, c) ← get 1 c;
  c ← put 3 3 c; s3 ← showLRU 9 c;
  '(g2, c) ← get 2 c;
  c ← put 4 4 c; s4 ← showLRU 9 c;
  '(g3, c) ← get 1 c;
  '(g4, c) ← get 3 c;
  '(g5, c) ← get 4 c;
  mret ([s1; s2; s3; s4], [g1; g2; g3; g4; g5]).

(** ** The specification

    A list of the entries, the one used last first.  [put] as the comment at the
    top of 146.cc has it: a key that is there gets the new value and moves to the
    front, another one comes to the front and the last entry of a full cache goes. *)
Abbreviation cache := (list (Z * Z)).
Fixpoint assoc (k : Z) (l : cache) : option Z :=
  match l with [] => None | (k', v) :: l => if k' =? k then Some v else assoc k l end.
Definition remove (k : Z) (l : cache) : cache := filter (λ x, x.1 ≠ k) l.
Definition get_spec (k : Z) (l : cache) : Z * cache :=
  match assoc k l with Some v => (v, (k, v) :: remove k l) | None => (-1, l) end.
Definition put_spec (capacity k v : Z) (l : cache) : cache :=
  match assoc k l with
  | Some _ => (k, v) :: remove k l
  | None => (k, v) :: (if capacity <=? len l then take (length l - 1) l else l)
  end.

Inductive lru_op : Type := Get (k : Z) | Put (k v : Z).
Definition spec_op (capacity : Z) (o : lru_op) (l : cache) : list Z * cache :=
  match o with
  | Get k => let '(v, l) := get_spec k l in ([v], l)
  | Put k v => ([], put_spec capacity k v l)
  end.
Fixpoint spec_ops (capacity : Z) (os : list lru_op) (l : cache) : list Z * cache :=
  match os with
  | [] => ([], l)
  | o :: os =>
      let '(r, l) := spec_op capacity o l in
      let '(rs, l) := spec_ops capacity os l in
      (r ++ rs, l)
  end.

(** Whether an operation gives a key that is there another value; and a run
    without such an operation. *)
Definition updates (o : lru_op) (l : cache) : bool :=
  match o with
  | Get _ => false
  | Put k v => match assoc k l with Some w => negb (w =? v) | None => false end
  end.
Fixpoint no_update (capacity : Z) (os : list lru_op) (l : cache) : bool :=
  match os with
  | [] => true
  | o :: os => negb (updates o l) && no_update capacity os (spec_op capacity o l).2
  end.

(** What the code does instead: a key that is there keeps its value. *)
Definition put_kept (capacity k v : Z) (l : cache) : cache :=
  match assoc k l with
  | Some w => (k, w) :: remove k l
  | None => (k, v) :: (if capacity <=? len l then take (length l - 1) l else l)
  end.

(** ** The doubly linked list

    [L] lists the nodes with their keys and values; [seg m prev L nxt]: they are
    linked in the store [m], the first one back to [prev], the last one on to
    [nxt]. *)
Abbreviation item := (nat * (Z * Z))%type.
Definition first (L : list item) (d : option nat) : option nat :=
  match L with [] => d | x :: _ => Some x.1 end.
Fixpoint final (L : list item) (d : option nat) : option nat :=
  match L with [] => d | x :: L => final L (Some x.1) end.
Fixpoint seg (m : gmap nat ListNode) (prev : option nat) (L : list item) (nxt : option nat) : Prop :=
  match L with
  | [] => True
  | (p, (k, v)) :: L => m !! p = Some (MkNode prev k v (first L nxt)) ∧ seg m (Some p) L nxt
  end.

Lemma seg_app m prev L1 L2 nxt :
  seg m prev (L1 ++ L2) nxt ↔ seg m prev L1 (first L2 nxt) ∧ seg m (final L1 prev) L2 nxt.
Proof.
  revert prev. induction L1 as [|[p [k v]] L1 IH]; intros prev; simpl; [tauto|].
  rewrite IH. assert (first (L1 ++ L2) nxt = first L1 (first L2 nxt)) as -> by (by destruct L1). tauto.
Qed.

Lemma seg_frame m p n prev L nxt : p ∉ L.*1 → seg (<[p := n]> m) prev L nxt ↔ seg m prev L nxt.
Proof.
  revert prev. induction L as [|[q [k v]] L IH]; intros prev Hp; simpl; [done|].
  simpl in Hp. rewrite not_elem_of_cons in Hp. rewrite lookup_insert_ne by naive_solver. rewrite IH by naive_solver. done.
Qed.

Lemma final_app L x d : final (L ++ [x]) d = Some x.1.
Proof. revert d. induction L as [|y L IH]; intros d; simpl; [done|apply IH]. Qed.

Lemma final_cat L1 L2 d : final (L1 ++ L2) d = final L2 (final L1 d).
Proof. revert d. induction L1 as [|y L1 IH]; intros d; simpl; [done|apply IH]. Qed.
Lemma final_middle L1 x L2 d : final (L1 ++ x :: L2) d = final L2 (Some x.1).
Proof. by rewrite final_cat. Qed.

(** Relinking the ends. *)
Lemma seg_relink_first m prev prev' h k v L nxt n :
  seg m prev ((h, (k, v)) :: L) nxt → h ∉ L.*1 → n = MkNode prev' k v (first L nxt) →
  seg (<[h := n]> m) prev' ((h, (k, v)) :: L) nxt.
Proof. intros [_ Hs] Hh ->. split; [by rewrite lookup_insert_eq|by apply seg_frame]. Qed.

Lemma seg_relink_last m prev L h k v nxt nxt' n :
  seg m prev (L ++ [(h, (k, v))]) nxt → h ∉ L.*1 → n = MkNode (final L prev) k v nxt' →
  seg (<[h := n]> m) prev (L ++ [(h, (k, v))]) nxt'.
Proof.
  rewrite !seg_app. intros [Hs _] Hh ->. simpl. split; [by apply seg_frame|].
  split; [by rewrite lookup_insert_eq|done].
Qed.

Record chain (c : LRUCache) (L : list item) : Prop := Chain {
  c_seg : seg (nodes c) None L None;
  c_head : head_ c = first L None;
  c_tail : tail_ c = final L None;
  c_nodup : NoDup L.*1;
}.

(** What the list operations leave alone. *)
Definition same_map (c c' : LRUCache) : Prop :=
  capacity_ c' = capacity_ c ∧ cache_mp_ c' = cache_mp_ c ∧ next c' = next c.

Lemma deref_ok c p n : nodes c !! p = Some n → deref (Some p) c = Ok n.
Proof. intros Hn. simpl. by rewrite Hn. Qed.
Lemma write_ok c p n f : nodes c !! p = Some n → write (Some p) f c = Ok (set_nodes (<[p := f n]> (nodes c)) c).
Proof. intros Hn. unfold write. by rewrite (deref_ok c p n Hn). Qed.

Lemma InsertHead_ok c L p n :
  chain c L → p ∉ L.*1 → nodes c !! p = Some n →
  ∃ c', InsertHead (Some p) c = Ok c' ∧ chain c' ((p, (key n, val n)) :: L) ∧ same_map c c'.
Proof.
  intros [Hs Hh Ht Hn] Hp Hnode. unfold InsertHead.
  rewrite (write_ok c p n) by done. cbn [mbind res_bind].
  rewrite (write_ok _ p (with_tail (head_ c) n)) by (simpl; by rewrite lookup_insert_eq). cbn [mbind res_bind].
  destruct c as [cap hd tl mp m nx]. simpl in *. subst hd tl. rewrite insert_insert_eq.
  destruct L as [|[h [k v]] L]; simpl.
  - eexists. split; [reflexivity|]. split; [|done]. split; simpl; [|done|done|by apply NoDup_singleton].
    by rewrite lookup_insert_eq.
  - simpl in Hp. rewrite not_elem_of_cons in Hp. destruct Hp as [Hph HpL].
    destruct Hs as [Hhn Hs]. erewrite write_ok by (simpl; rewrite lookup_insert_ne by done; exact Hhn). simpl.
    assert (Hf : is_Some (final L (Some h))).
    { clear. revert h. induction L as [|x L IH]; intros h; simpl; [done|apply IH]. }
    destruct Hf as [z Hz]. rewrite Hz. eexists. split; [reflexivity|]. split; [|done].
    simpl in Hn. apply NoDup_cons in Hn as [HhL HnL].
    split; simpl; [|done|by rewrite Hz|rewrite !NoDup_cons, not_elem_of_cons; done].
    rewrite lookup_insert_ne by done. rewrite lookup_insert_eq. split; [done|]. rewrite lookup_insert_eq.
    split; [done|]. by rewrite !seg_frame.
Qed.

(** The two halves of [DeleteNode]. *)
Lemma unlink_next c L1 p nxt0 nxt :
  seg (nodes c) None L1 (Some p) → NoDup L1.*1 → head_ c = first L1 nxt0 →
  ∃ c', (match final L1 None with
         | None => mret (set_head nxt c)
         | Some h => write (Some h) (with_tail nxt) c
         end) = Ok c' ∧
    seg (nodes c') None L1 nxt ∧ head_ c' = first L1 nxt ∧ tail_ c' = tail_ c ∧ same_map c c' ∧
    ∀ q, q ∉ L1.*1 → nodes c' !! q = nodes c !! q.
Proof.
  intros Hs Hn Hh. destruct L1 as [|[h [k v]] L1 _] using rev_ind; simpl; [by eexists|].
  rewrite final_app. simpl. pose proof Hs as Hs'. apply seg_app in Hs' as [_ [Hhn _]].
  rewrite fmap_app, NoDup_app in Hn. destruct Hn as (_ & Hd & _).
  erewrite write_ok by exact Hhn. eexists. split; [reflexivity|]. split_and!; try done.
  - apply (seg_relink_last _ _ _ _ _ _ (Some p)); [done| |done]. intros Hin. apply (Hd h Hin). by left.
  - simpl. rewrite Hh. by destruct L1.
  - intros q Hq. simpl. rewrite lookup_insert_ne; [done|]. intros ->. apply Hq. rewrite fmap_app. set_solver.
Qed.

Lemma unlink_prev c L2 p prev0 prev :
  seg (nodes c) (Some p) L2 None → NoDup L2.*1 → tail_ c = final L2 prev0 →
  ∃ c', (match first L2 None with
         | None => mret (set_tail prev c)
         | Some t => write (Some t) (with_head prev) c
         end) = Ok c' ∧
    seg (nodes c') prev L2 None ∧ tail_ c' = final L2 prev ∧ head_ c' = head_ c ∧ same_map c c' ∧
    ∀ q, q ∉ L2.*1 → nodes c' !! q = nodes c !! q.
Proof.
  intros Hs Hn Ht. destruct L2 as [|[t [k v]] L2]; simpl; [by eexists|].
  pose proof Hs as [Htn _]. apply NoDup_cons in Hn as [Htl _].
  erewrite write_ok by exact Htn. eexists. split; [reflexivity|].
  split; [by apply (seg_relink_first _ (Some p))|]. split_and!; try done.
  - intros q Hq. simpl. rewrite lookup_insert_ne; [done|]. intros ->. apply Hq. by left.
Qed.

Lemma seg_ext m m' prev L nxt : (∀ q, q ∈ L.*1 → m' !! q = m !! q) → seg m prev L nxt → seg m' prev L nxt.
Proof.
  revert prev. induction L as [|[p [k v]] L IH]; intros prev Hm; simpl; [done|].
  intros [Hp Hs]. split; [rewrite Hm; [done|by left]|]. apply IH; [|done]. intros q Hq. apply Hm. by right.
Qed.

Lemma DeleteNode_ok c L1 p k v L2 :
  chain c (L1 ++ (p, (k, v)) :: L2) →
  ∃ c', DeleteNode (Some p) c = Ok c' ∧ chain c' (L1 ++ L2) ∧
    (∃ h t, nodes c' !! p = Some (MkNode h k v t)) ∧ same_map c c'.
Proof.
  intros [Hs Hh Ht Hn]. apply seg_app in Hs as [Hs1 [Hp Hs2]].
  rewrite fmap_app in Hn. simpl in Hn. apply NoDup_app in Hn as (Hn1 & Hd & Hn2).
  apply NoDup_cons in Hn2 as [Hp2 Hn2].
  assert (Hp1 : p ∉ L1.*1) by (intros Hin; apply (Hd p Hin); by left).
  assert (Hd' : ∀ q, q ∈ L1.*1 → q ∉ L2.*1) by (intros q Hq Hq'; apply (Hd q Hq); by right).
  unfold DeleteNode. rewrite (deref_ok c p _ Hp). cbn [mbind res_bind head tail].
  destruct (unlink_next c L1 p (Some p) (first L2 None) Hs1 Hn1) as (c1 & Hc1 & Hs1' & Hh1 & Ht1 & Hm1 & Hq1).
  { rewrite Hh. by destruct L1. }
  rewrite Hc1. cbn [mbind res_bind]. rewrite (deref_ok c1 p _ (eq_trans (Hq1 p Hp1) Hp)). cbn [mbind res_bind head tail].
  destruct (unlink_prev c1 L2 p (Some p) (final L1 None)) as (c2 & Hc2 & Hs2' & Ht2 & Hh2 & Hm2 & Hq2).
  { apply (seg_ext (nodes c)); [|done]. intros q Hq. apply Hq1. intros Hq'. by apply (Hd' q). }
  { done. }
  { by rewrite Ht1, Ht, final_middle. }
  rewrite Hc2. exists c2. split; [done|]. split; [split|split].
  - apply seg_app. split; [|done]. apply (seg_ext (nodes c1)); [|done]. intros q Hq. by apply Hq2, Hd'.
  - rewrite Hh2, Hh1. by destruct L1.
  - by rewrite Ht2, final_cat.
  - rewrite fmap_app. apply NoDup_app. done.
  - exists (final L1 None), (first L2 None). rewrite Hq2, Hq1 by done. done.
  - destruct Hm1 as (? & ? & ?), Hm2 as (? & ? & ?). split_and!; congruence.
Qed.

(** ** The cache represents a list *)
Record repr (c : LRUCache) (L : list item) : Prop := Repr {
  r_chain : chain c L;
  r_keys : NoDup (L.*2).*1;
  r_map : ∀ k p, cache_mp_ c !! k = Some p ↔ ∃ v, (p, (k, v)) ∈ L;
  r_size : size (cache_mp_ c) = length L;
  r_next : ∀ p, p ∈ L.*1 → (p < next c)%nat;
}.

Lemma assoc_none k l : assoc k l = None ↔ k ∉ l.*1.
Proof.
  induction l as [|[k' v] l IH]; simpl; [by split; [intros _ ?%not_elem_of_nil|]|].
  rewrite not_elem_of_cons. destruct (Z.eqb_spec k' k); [naive_solver|]. rewrite IH. naive_solver.
Qed.

Lemma assoc_middle k v l1 l2 : k ∉ l1.*1 → assoc k (l1 ++ (k, v) :: l2) = Some v.
Proof.
  induction l1 as [|[k' w] l1 IH]; simpl; [by rewrite Z.eqb_refl|].
  rewrite not_elem_of_cons. intros [Hne Hk]. destruct (Z.eqb_spec k' k); [congruence|]. by apply IH.
Qed.

Lemma remove_middle k v l1 l2 :
  k ∉ l1.*1 → k ∉ l2.*1 → remove k (l1 ++ (k, v) :: l2) = l1 ++ l2.
Proof.
  assert (Hf : ∀ l : cache, k ∉ l.*1 → filter (λ x, x.1 ≠ k) l = l).
  { intros l Hk. apply filter_all. intros [k' w] Hin Heq. simpl in Heq. subst k'. apply Hk. apply list_elem_of_fmap. by exists (k, w). }
  intros H1 H2. unfold remove. rewrite filter_app, filter_cons_False by naive_solver.
  by rewrite !Hf.
Qed.

(** The keys around a node of the list. *)
Lemma keys_split (L1 L2 : list item) p k v :
  NoDup ((L1 ++ (p, (k, v)) :: L2).*2).*1 → (k ∉ (L1.*2).*1) ∧ (k ∉ (L2.*2).*1) ∧ NoDup ((L1 ++ L2).*2).*1.
Proof.
  rewrite !fmap_app. simpl. rewrite !NoDup_app, NoDup_cons. intros (H1 & Hd & Hk & H2).
  split; [intros Hin; apply (Hd k Hin); by left|]. split; [done|]. split; [done|]. split; [|done].
  intros x Hx Hx'. apply (Hd x Hx). by right.
Qed.

(** A key of the cache: its node moves to the front. *)
Lemma touch_ok c L k p :
  repr c L → cache_mp_ c !! k = Some p →
  ∃ v c' n L', (c ← DeleteNode (Some p) c; InsertHead (Some p) c) = Ok c' ∧ repr c' L' ∧
    nodes c' !! p = Some n ∧ val n = v ∧ assoc k (L.*2) = Some v ∧ L'.*2 = (k, v) :: remove k (L.*2) ∧
    capacity_ c' = capacity_ c.
Proof.
  intros [Hc Hk Hm Hs Hn] Hp. pose proof Hp as [v Hin]%Hm.
  apply list_elem_of_split in Hin as (L1 & L2 & ->). apply keys_split in Hk as (Hk1 & Hk2 & Hk12).
  pose proof (c_nodup _ _ Hc) as Hnd. rewrite fmap_app in Hnd. simpl in Hnd.
  destruct (DeleteNode_ok c L1 p k v L2 Hc) as (c1 & Hc1 & Hch1 & (h & t & Hp1) & Hm1 & Hm1' & Hm1'').
  assert (Hpn : p ∉ (L1 ++ L2).*1).
  { rewrite fmap_app. apply NoDup_app in Hnd as (_ & Hd & [Hp2 _]%NoDup_cons).
    rewrite elem_of_app. intros [Hin|Hin]; [apply (Hd p Hin); by left|done]. }
  destruct (InsertHead_ok c1 (L1 ++ L2) p _ Hch1 Hpn Hp1) as (c2 & Hc2 & Hch2 & Hm2 & Hm2' & Hm2''). simpl in *.
  assert (Hperm : (p, (k, v)) :: L1 ++ L2 ≡ₚ L1 ++ (p, (k, v)) :: L2) by apply Permutation_middle.
  pose proof (c_seg _ _ Hch2) as [Hp2 _].
  exists v, c2, (MkNode None k v (first (L1 ++ L2) None)), ((p, (k, v)) :: L1 ++ L2).
  rewrite Hc1. cbn [mbind res_bind]. split; [done|]. split; [split|].
  - done.
  - simpl. constructor; [rewrite !fmap_app, elem_of_app; tauto|done].
  - intros k' p'. rewrite Hm2', Hm1', Hm. by setoid_rewrite Hperm.
  - rewrite Hm2', Hm1', Hs. by rewrite Hperm.
  - intros q Hq. rewrite Hm2'', Hm1''. apply Hn. by rewrite <- Hperm.
  - rewrite !fmap_app. simpl. rewrite assoc_middle, remove_middle by done.
    split_and!; try done; [exact (f_equal (cons (k, v)) (fmap_app snd L1 L2))|congruence].
Qed.

Lemma get_ok c L k :
  repr c L → ∃ c' L', get k c = Ok ((get_spec k (L.*2)).1, c') ∧ repr c' L' ∧ L'.*2 = (get_spec k (L.*2)).2 ∧
    capacity_ c' = capacity_ c.
Proof.
  intros Hr. unfold get, get_spec. destruct (cache_mp_ c !! k) as [p|] eqn:Hp.
  - destruct (touch_ok c L k p Hr Hp) as (v & c' & n & L' & Ht & Hr' & Hn & Hv & -> & HL & Hcap).
    destruct (DeleteNode (Some p) c) as [c1|]; [|done]. cbn [mbind res_bind] in *. rewrite Ht.
    cbn [mbind res_bind]. rewrite (deref_ok c' p n Hn). simpl. rewrite Hv. by exists c', L'.
  - assert (assoc k (L.*2) = None) as ->; [|by exists c, L].
    apply assoc_none. intros ([k' v] & -> & ([p [k2 v2]] & [= -> ->] & Hin)%list_elem_of_fmap)%list_elem_of_fmap.
    simpl in *. assert (Hs : cache_mp_ c !! k2 = Some p) by (apply (r_map _ _ Hr); eauto). congruence.
Qed.

Lemma not_cached c L k : repr c L → cache_mp_ c !! k = None → k ∉ (L.*2).*1.
Proof.
  intros Hr Hk ([k' v] & -> & ([p [k2 v2]] & [= -> ->] & Hin)%list_elem_of_fmap)%list_elem_of_fmap. simpl in *.
  assert (Hs : cache_mp_ c !! k2 = Some p) by (apply (r_map _ _ Hr); eauto). congruence.
Qed.

Lemma full_spec c L : repr c L → 0 ≤ capacity_ c ≤ INT_MAX → full c = (capacity_ c <=? len (L.*2)).
Proof.
  intros Hr Hcap. unfold full. rewrite to_u64_id by int_lia. unfold len.
  by rewrite (r_size _ _ Hr), length_fmap.
Qed.

(** The front takes a node [p] that is not in the list, for a key that is not. *)
Lemma push_front_ok c L p n k v :
  chain c L → p ∉ L.*1 → nodes c !! p = Some n → key n = k → val n = v →
  (∀ k' p', cache_mp_ c !! k' = Some p' ↔ ∃ v', (p', (k', v')) ∈ L) →
  NoDup (L.*2).*1 → (k ∉ (L.*2).*1) → size (cache_mp_ c) = length L →
  (∀ q, q ∈ p :: L.*1 → (q < next c)%nat) →
  ∃ c', InsertHead (Some p) c = Ok c' ∧ capacity_ c' = capacity_ c ∧
    repr (set_map (<[k := p]> (cache_mp_ c')) c') ((p, (k, v)) :: L).
Proof.
  intros Hch Hp Hnode Hkn Hvn Hm Hnd Hk Hs Hnx.
  destruct (InsertHead_ok c L p n Hch Hp Hnode) as (c' & Hc' & Hch' & Hcap & Hmp & Hnext).
  assert (Hnone : cache_mp_ c !! k = None).
  { destruct (cache_mp_ c !! k) as [q|] eqn:Hq; [|done]. apply Hm in Hq as [w Hin]. exfalso. apply Hk.
    apply list_elem_of_fmap. exists (k, w). split; [done|]. apply list_elem_of_fmap. by exists (q, (k, w)). }
  rewrite Hkn, Hvn in *. exists c'. split; [done|]. split; [done|]. split.
  - destruct Hch'. by split.
  - simpl. by constructor.
  - intros k' p'. simpl. rewrite Hmp. destruct (decide (k' = k)) as [->|Hne].
    + rewrite lookup_insert_eq. setoid_rewrite elem_of_cons. split; [intros [= ->]; exists v; by left|].
      intros [w [[= -> ->]|Hin]]; [done|]. exfalso. assert (H1 : cache_mp_ c !! k = Some p') by (apply Hm; eauto). congruence.
    + rewrite lookup_insert_ne, Hm by done. setoid_rewrite elem_of_cons.
      split; [intros [w Hin]; eauto|intros [w [[= -> ->]|Hin]]; [done|eauto]].
  - simpl. rewrite Hmp, map_size_insert_None by done. by rewrite Hs.
  - simpl. intros q Hq. rewrite Hnext. by apply Hnx.
Qed.

(** A full cache gives up its last node. *)
Lemma evict_ok c L k v :
  repr c L → L ≠ [] → cache_mp_ c !! k = None →
  ∃ c1 c2 c3 q kq vq L0 h t, L = L0 ++ [(q, (kq, vq))] ∧ tail_ c = Some q ∧
    deref (tail_ c) c = Ok c3 ∧ key c3 = kq ∧
    DeleteNode (Some q) (set_map (delete kq (cache_mp_ c)) c) = Ok c1 ∧
    write (Some q) (with_data k v) c1 = Ok c2 ∧ chain c2 L0 ∧ nodes c2 !! q = Some (MkNode h k v t) ∧
    cache_mp_ c2 = delete kq (cache_mp_ c) ∧ capacity_ c2 = capacity_ c ∧ next c2 = next c.
Proof.
  intros [Hc Hk Hm Hs Hn] Hne Hnone. destruct L as [|[q [kq vq]] L0 _] using rev_ind; [done|].
  assert (Hc' : chain (set_map (delete kq (cache_mp_ c)) c) (L0 ++ [(q, (kq, vq))])) by (destruct Hc; by split).
  destruct (DeleteNode_ok _ L0 q kq vq [] Hc') as (c1 & Hc1 & Hch1 & (h & t & Hq) & Hm1 & Hm1' & Hm1'').
  rewrite app_nil_r in Hch1. pose proof (c_seg _ _ Hc) as [_ [Hqc _]]%seg_app.
  exists c1, (set_nodes (<[q := MkNode h k v t]> (nodes c1)) c1), (MkNode (final L0 None) kq vq None), q, kq, vq, L0, h, t.
  assert (Hql : q ∉ L0.*1).
  { pose proof (c_nodup _ _ Hc) as Hnd. rewrite fmap_app in Hnd. apply NoDup_app in Hnd as (_ & Hd & _).
    intros Hin. apply (Hd q Hin). by left. }
  split_and!; try done.
  - rewrite (c_tail _ _ Hc). by rewrite final_app.
  - rewrite (c_tail _ _ Hc), final_app. simpl. simpl in Hqc. by rewrite Hqc.
  - by erewrite write_ok by exact Hq.
  - destruct Hch1 as [H1 H2 H3 H4]. split; simpl; try done. by apply seg_frame.
  - simpl. by rewrite lookup_insert_eq.
Qed.

Lemma alloc_chain c L k v : chain c L → (∀ p, p ∈ L.*1 → (p < next c)%nat) → chain (alloc k v c).2 L.
Proof.
  intros [Hs Hh Ht Hn] Hb. split; simpl; try done. apply seg_frame; [|done].
  intros Hin. apply Hb in Hin. lia.
Qed.

Lemma remove_last (L0 : list item) x : take (length ((L0 ++ [x]).*2) - 1) ((L0 ++ [x]).*2) = L0.*2.
Proof.
  rewrite fmap_app, length_app, length_fmap. simpl.
  by replace (length L0 + 1 - 1)%nat with (length (L0.*2)) by (rewrite length_fmap; lia); rewrite take_app_length.
Qed.

(** The invariant of a cache of the class: it represents a list of at most
    [capacity_] entries. *)
Definition lru_inv (c : LRUCache) (l : cache) : Prop :=
  ∃ L, repr c L ∧ L.*2 = l ∧ len l ≤ capacity_ c ∧ 0 < capacity_ c ≤ INT_MAX.

Lemma put_full_ok c L k v :
  repr c L → 0 < capacity_ c ≤ INT_MAX → len (L.*2) = capacity_ c → cache_mp_ c !! k = None →
  ∃ c' L', put k v c = Ok c' ∧ repr c' L' ∧ L'.*2 = put_kept (capacity_ c) k v (L.*2) ∧ capacity_ c' = capacity_ c.
Proof.
  intros Hr Hcap Hlen Hk. pose proof (not_cached c L k Hr Hk) as Hkl.
  assert (HL : L ≠ []) by (intros ->; unfold len in Hlen; simpl in Hlen; lia).
  unfold put. rewrite Hk. cbv zeta. rewrite (full_spec c L Hr) by lia. rewrite (proj2 (Z.leb_le _ _)) by lia.
  destruct (evict_ok c L k v Hr HL Hk) as
    (c1 & c2 & n & q & kq & vq & L0 & h & t & -> & Ht & Hd & Hn & Hc1 & Hc2 & Hch & Hq & Hmp & Hc & Hnx).
  rewrite Hd. cbn [mbind res_bind]. rewrite Hn.
  change (tail_ (set_map (delete kq (cache_mp_ c)) c)) with (tail_ c). rewrite Ht, Hc1. cbn [mbind res_bind]. rewrite Hc2. cbn [mbind res_bind mret res_ret].
  destruct Hr as [Hch0 Hks Hm Hs Hnext]. pose proof (keys_split L0 [] q kq vq Hks) as (Hkq & _ & Hks0).
  rewrite app_nil_r in Hks0. pose proof (c_nodup _ _ Hch0) as Hnd. rewrite fmap_app in Hnd.
  apply NoDup_app in Hnd as (_ & Hdis & _). rewrite !fmap_app in Hkl. rewrite elem_of_app in Hkl.
  assert (Hmq : cache_mp_ c !! kq = Some q) by (apply Hm; exists vq; set_solver).
  destruct (push_front_ok c2 L0 q _ k v Hch ltac:(intros Hin; apply (Hdis q Hin); by left) Hq eq_refl eq_refl)
    as (c3 & Hc3 & Hcap3 & Hr3).
  - intros k' p'. rewrite Hmp, lookup_delete_Some, Hm. setoid_rewrite elem_of_app. split.
    + intros (Hne & w & [Hin|Hin]); [by exists w|]. apply list_elem_of_singleton in Hin. congruence.
    + intros [w Hin]. split; [|exists w; by left]. intros <-. apply Hkq.
      apply list_elem_of_fmap. exists (kq, w). split; [done|]. apply list_elem_of_fmap. by exists (p', (kq, w)).
  - done.
  - tauto.
  - rewrite Hmp, map_size_delete_Some by eauto. rewrite Hs, length_app. simpl. lia.
  - intros p Hp. rewrite Hnx. apply Hnext. rewrite fmap_app. set_solver.
  - rewrite Hc3. cbn [mbind res_bind]. eexists _, ((q, (k, v)) :: L0). split; [reflexivity|]. split; [done|].
    split; [|simpl; congruence]. unfold put_kept.
    rewrite (proj2 (assoc_none _ _)) by (rewrite !fmap_app, elem_of_app; tauto).
    rewrite (proj2 (Z.leb_le _ _)) by lia. by rewrite remove_last.
Qed.

Lemma put_ok c L k v :
  repr c L → 0 < capacity_ c ≤ INT_MAX → len (L.*2) ≤ capacity_ c →
  ∃ c' L', put k v c = Ok c' ∧ repr c' L' ∧ L'.*2 = put_kept (capacity_ c) k v (L.*2) ∧ capacity_ c' = capacity_ c.
Proof.
  intros Hr Hcap Hlen. destruct (cache_mp_ c !! k) as [p|] eqn:Hk.
  - unfold put, put_kept. rewrite Hk.
    destruct (touch_ok c L k p Hr Hk) as (w & c' & n & L' & Ht & Hr' & _ & _ & -> & HL & Hc). by exists c', L'.
  - destruct (Z.eq_dec (len (L.*2)) (capacity_ c)) as [He|Hne]; [by apply put_full_ok|].
    pose proof (not_cached c L k Hr Hk) as Hkl.
    unfold put. rewrite Hk. cbv zeta. rewrite (full_spec c L Hr) by lia. rewrite (proj2 (Z.leb_gt _ _)) by lia.
    cbn [mbind res_bind mret res_ret alloc].
    destruct (push_front_ok (alloc k v c).2 L (next c) (MkNode None k v None) k v) as (c3 & Hc3 & Hcap3 & Hr3);
      try apply Hr; try done.
    + apply alloc_chain; apply Hr.
    + intros Hin%(r_next _ _ Hr). lia.
    + simpl. by rewrite lookup_insert_eq.
    + simpl. intros q [->|Hq%(r_next _ _ Hr)]%elem_of_cons; lia.
    + simpl in Hc3. rewrite Hc3. eexists _, ((next c, (k, v)) :: L). split; [reflexivity|]. split; [done|].
      split; [|done]. unfold put_kept. rewrite (proj2 (assoc_none _ _) Hkl). by rewrite (proj2 (Z.leb_gt _ _)) by lia.
Qed.

(** ** Runs *)
Definition exec_op (o : lru_op) (c : LRUCache) : res (list Z * LRUCache) :=
  match o with
  | Get k => '(v, c) ← get k c; mret ([v], c)
  | Put k v => c ← put k v c; mret ([], c)
  end.
Fixpoint exec_ops (os : list lru_op) (c : LRUCache) : res (list Z * LRUCache) :=
  match os with
  | [] => mret ([], c)
  | o :: os => '(r, c) ← exec_op o c; '(rs, c) ← exec_ops os c; mret (r ++ rs, c)
  end.

(** The same run of the list that keeps values. *)
Definition kept_op (capacity : Z) (o : lru_op) (l : cache) : list Z * cache :=
  match o with
  | Get k => let '(v, l) := get_spec k l in ([v], l)
  | Put k v => ([], put_kept capacity k v l)
  end.
Fixpoint kept_ops (capacity : Z) (os : list lru_op) (l : cache) : list Z * cache :=
  match os with
  | [] => ([], l)
  | o :: os =>
      let '(r, l) := kept_op capacity o l in
      let '(rs, l) := kept_ops capacity os l in
      (r ++ rs, l)
  end.

Lemma len_remove k l v : assoc k l = Some v → len ((k, v) :: remove k l) ≤ len l.
Proof.
  intros Ha. unfold len. apply Nat2Z.inj_le. revert Ha. unfold remove. simpl.
  induction l as [|[k' w] l IH]; simpl; [done|]. destruct (Z.eqb_spec k' k) as [->|Hne]; intros H.
  - rewrite filter_cons_False by (simpl; lia). apply le_n_S, length_filter.
  - rewrite filter_cons_True by done. apply IH in H. simpl. lia.
Qed.

Lemma kept_op_len capacity o l : 0 < capacity → len l ≤ capacity → len (kept_op capacity o l).2 ≤ capacity.
Proof.
  intros Hc Hl. destruct o as [k|k v]; simpl; unfold get_spec, put_kept.
  - destruct (assoc k l) as [w|] eqn:Ha; simpl; [|done]. pose proof (len_remove k l w Ha). lia.
  - destruct (assoc k l) as [w|] eqn:Ha; [pose proof (len_remove k l w Ha); lia|].
    unfold len in *. destruct (Z.leb_spec capacity (Z.of_nat (length l))); simpl; [|lia].
    rewrite length_take. lia.
Qed.

Lemma kept_ops_app capacity os1 os2 l :
  kept_ops capacity (os1 ++ os2) l =
  let '(r1, l1) := kept_ops capacity os1 l in let '(r2, l2) := kept_ops capacity os2 l1 in (r1 ++ r2, l2).
Proof.
  revert l. induction os1 as [|o os1 IH]; intros l; simpl; [by destruct (kept_ops capacity os2 l)|].
  destruct (kept_op capacity o l) as [r l1]. rewrite IH. destruct (kept_ops capacity os1 l1) as [r1 l2].
  destruct (kept_ops capacity os2 l2) as [r2 l3]. by rewrite app_assoc.
Qed.

(** Without updates the two lists agree. *)
Lemma kept_spec capacity os l : no_update capacity os l = true → kept_ops capacity os l = spec_ops capacity os l.
Proof.
  revert l. induction os as [|o os IH]; intros l; simpl; [done|]. intros [Hu Hn]%andb_true_iff.
  assert (kept_op capacity o l = spec_op capacity o l) as ->.
  { destruct o as [k|k v]; simpl in *; [done|]. unfold put_kept, put_spec. destruct (assoc k l) as [w|]; [|done].
    destruct (w =? v) eqn:He; [|done]. apply Z.eqb_eq in He. by subst. }
  destruct (spec_op capacity o l) as [r l1]. simpl in Hn. by rewrite IH.
Qed.

(** Each operation simulates that list's. *)
Lemma exec_op_ok o c l :
  lru_inv c l → ∃ c', exec_op o c = Ok ((kept_op (capacity_ c) o l).1, c') ∧
    lru_inv c' (kept_op (capacity_ c) o l).2 ∧ capacity_ c' = capacity_ c.
Proof.
  intros (L & Hr & <- & Hl & Hcap). pose proof (kept_op_len (capacity_ c) o (L.*2) ltac:(lia) Hl) as Hlen.
  destruct o as [k|k v]; simpl in *.
  - destruct (get_ok c L k Hr) as (c' & L' & -> & Hr' & HL & Hc). exists c'. destruct (get_spec k (L.*2)) as [v l'].
    simpl in *. split; [done|]. split; [|done]. exists L'. rewrite HL, Hc. done.
  - destruct (put_ok c L k v Hr Hcap Hl) as (c' & L' & -> & Hr' & HL & Hc). exists c'.
    split; [done|]. split; [|done]. exists L'. rewrite HL, Hc. done.
Qed.

Lemma exec_ops_ok os c l :
  lru_inv c l → ∃ c', exec_ops os c = Ok ((kept_ops (capacity_ c) os l).1, c') ∧
    lru_inv c' (kept_ops (capacity_ c) os l).2 ∧ capacity_ c' = capacity_ c.
Proof.
  revert c l. induction os as [|o os IH]; intros c l Hi; simpl; [by exists c|].
  destruct (exec_op_ok o c l Hi) as (c1 & -> & Hi1 & Hc1). destruct (kept_op (capacity_ c) o l) as [r l1].
  simpl in *. destruct (IH c1 l1 Hi1) as (c2 & -> & Hi2 & Hc2). rewrite Hc1 in *.
  destruct (kept_ops (capacity_ c) os l1) as [rs l2]. simpl in *. by exists c2.
Qed.

Lemma new_inv capacity : 0 < capacity ≤ INT_MAX → lru_inv (new_LRUCache capacity) [].
Proof.
  intros Hc. exists []. split; [|split; [done|unfold len; simpl; lia]].
  split; simpl; [|constructor| |done|].
  - split; [done|done|done|constructor].
  - intros k p. rewrite lookup_empty. split; [done|]. by intros [v ?%not_elem_of_nil].
  - by intros p ?%not_elem_of_nil.
Qed.

Lemma show_seg c L out fuel prev : seg (nodes c) prev L None → (length L < fuel)%nat →
  loop fuel (show_body c) (first L None, out) = Ok (out ++ L.*2).
Proof.
  revert L out prev. induction fuel as [|fuel IH]; intros [|[p [k v]] L] out prev Hs Hf; simpl in *; try lia.
  - by rewrite app_nil_r.
  - destruct Hs as [-> Hs]. simpl. rewrite (IH L _ _ Hs) by lia. by rewrite <- app_assoc.
Qed.

Lemma showLRU_ok c l fuel : lru_inv c l → (length l < fuel)%nat → showLRU fuel c = Ok l.
Proof.
  intros (L & [[Hs Hh _ _] _ _ _ _] & <- & _) Hf. unfold showLRU. rewrite Hh.
  rewrite length_fmap in Hf. by rewrite (show_seg c L [] fuel None Hs Hf).
Qed.

(** ** Properties *)

(** C8: The cache, its linked list and its map, against the list of recently used
    entries of the specification.  Any sequence of [get] and [put] on a new cache
    runs without undefined behaviour.  As long as no [put] gives a key that is in
    the cache another value, the results are those of the list, [showLRU] then
    prints the list, and it never has more than [capacity] entries.  The first
    [put] that gives such a key another value is where the two part: the
    specification changes the value, the cache keeps the old one, and the next
    [get] of the key returns it. *)
Theorem lru_refines capacity os fuel :
  0 < capacity ≤ INT_MAX →
  let '(results, l) := spec_ops capacity os [] in
  (∃ x, exec_ops os (new_LRUCache capacity) = Ok x) ∧
  (no_update capacity os [] = true →
   len l ≤ capacity ∧
   ((length l < fuel)%nat →
    ∃ c, exec_ops os (new_LRUCache capacity) = Ok (results, c) ∧ showLRU fuel c = Ok l) ∧
   ∀ k v w, assoc k l = Some w →
     ∃ c, exec_ops (os ++ [Put k v; Get k]) (new_LRUCache capacity) = Ok (results ++ [w], c)).
Proof.
  intros Hc. destruct (exec_ops_ok os _ _ (new_inv capacity Hc)) as (c & He & Hi & Hcap). simpl in *.
  destruct (spec_ops capacity os []) as [results l] eqn:Hs. split; [by eexists|]. intros Hn.
  pose proof (kept_spec capacity os [] Hn) as Hk. rewrite Hs in Hk. rewrite Hk in He, Hi. simpl in He, Hi. split_and!.
  - destruct Hi as (L & _ & _ & Hl & _). lia.
  - intros Hf. exists c. split; [done|]. by apply showLRU_ok.
  - intros k v w Ha. destruct (exec_ops_ok (os ++ [Put k v; Get k]) _ _ (new_inv capacity Hc)) as (c' & He' & _).
    exists c'. rewrite He'. simpl. rewrite kept_ops_app, Hk. simpl. unfold put_kept, get_spec. rewrite Ha. simpl.
    by rewrite Z.eqb_refl.
Qed.

(** Key 1 is put again with its value, then with another one. *)
Lemma lru_refines_witness :
  (∃ c, exec_ops [Put 1 10; Put 2 20; Put 1 10; Get 1; Put 3 30; Get 2] (new_LRUCache 2) = Ok ([10; -1], c) ∧
    showLRU 3 c = Ok [(3, 30); (1, 10)]) ∧
  ∃ c, exec_ops [Put 1 10; Put 2 20; Put 1 10; Get 1; Put 3 30; Get 2; Put 1 99; Get 1] (new_LRUCache 2) = Ok ([10; -1; 10], c).
Proof.
  assert (Hc : 0 < 2 ≤ INT_MAX) by int_lia.
  destruct (lru_refines 2 [Put 1 10; Put 2 20; Put 1 10; Get 1; Put 3 30; Get 2] 3 Hc) as [_ H].
  destruct (H eq_refl) as (_ & H1 & H2). exact (conj (H1 ltac:(simpl; lia)) (H2 1 99 10 eq_refl)).
Defined.

(** A [put] of a key that is there only moves it to the front: a [get] that
    follows still returns the old value, whatever the new one was. *)
Theorem put_keeps_value c l k v w :
  lru_inv c l → assoc k l = Some w → exec_ops [Put k v; Get k] c ≫= (λ x, mret x.1) = Ok [w].
Proof.
  intros Hi Ha. destruct (exec_ops_ok [Put k v; Get k] c l Hi) as (c' & -> & _). simpl.
  unfold put_kept. rewrite Ha. unfold get_spec. simpl. rewrite Z.eqb_refl. done.
Qed.

Lemma put_keeps_value_witness :
  ∃ c, lru_inv c [(1, 10)] ∧ exec_ops [Put 1 99; Get 1] c ≫= (λ x, mret x.1) = Ok [10].
Proof.
  assert (Hc : 0 < 2 ≤ INT_MAX) by int_lia.
  destruct (exec_op_ok (Put 1 10) _ _ (new_inv 2 Hc)) as (c & _ & Hi & _).
  exists c. split; [exact Hi|]. exact (put_keeps_value c [(1, 10)] 1 99 10 Hi eq_refl).
Defined.

(** The destructor reads the first node after it freed it: undefined for every
    cache that is not empty. *)
Theorem lru_destructor_undefined c l fuel :
  lru_inv c l → l ≠ [] → (0 < fuel)%nat → destroy_LRUCache fuel c = Err UseAfterFree.
Proof.
  intros (L & [[Hs Hh _ _] _ _ _ _] & <- & _) Hl Hf. destruct fuel as [|fuel]; [lia|].
  destruct L as [|[p [k v]] L]; [done|]. destruct Hs as [Hp _]. simpl in Hh.
  unfold destroy_LRUCache. simpl. unfold destroy_body. rewrite Hh. rewrite (deref_ok c p _ Hp). simpl.
  rewrite Hh. simpl. by rewrite lookup_delete_eq.
Qed.

Lemma lru_destructor_undefined_witness :
  ∃ c, exec_op (Put 1 10) (new_LRUCache 2) = Ok ([], c) ∧ destroy_LRUCache 9 c = Err UseAfterFree.
Proof.
  assert (Hc : 0 < 2 ≤ INT_MAX) by int_lia.
  destruct (exec_op_ok (Put 1 10) _ _ (new_inv 2 Hc)) as (c & He & Hi & _).
  exists c. split; [exact He|]. apply (lru_destructor_undefined c _ 9 Hi); [discriminate|lia].
Defined.

(** A cache of capacity 0 is full when empty: [put] reads the key of no node. *)
Lemma lru_zero_capacity k v : put k v (new_LRUCache 0) = Err NullDeref.
Proof. reflexivity. Qed.

(** What [main] prints. *)
Lemma lru_main_output :
  lru_main = Ok ([[(1, 1)]; [(2, 2); (1, 1)]; [(3, 3); (1, 1)]; [(4, 4); (3, 3)]], [1; -1; -1; 3; 4]).
Proof. vm_compute. reflexivity. Qed.
