(* ===== verification/Jump.v ===== *)
(** * test/45.cc: the least number of jumps to the end of an array. *)
From S2P Require Import Prelude CInt CArray CStdio.

(** What [jump] prints first: the array. *)
Definition jump_print (nums : list Z) : list Z := concat ((λ item, fmt_d false 0 item ++ [44]) <$> nums) ++ [10].

(** [nums.size()-1] is a [size_t], to which [i] is converted. *)
Definition jump_body (nums : list Z) (st : Z * Z * Z * Z) : res (Z * Z * Z * Z + Z) :=
  let '(i, res, end_, maxpos) := st in
  if to_u64 i <? to_u64 (len nums - 1) then
    x ← aget nums i;
    s ← iadd i x;
    let maxpos := Z.max maxpos s in
    '(res, end_) ← (if i =? end_ then res ← iadd res 1; mret (res, maxpos) else mret (res, end_));
    i ← iadd i 1;
    mret (inl (i, res, end_, maxpos))
  else mret (inr res).
Definition jump (nums : list Z) : res Z := loop (S (length nums)) (jump_body nums) (0, 0, 0, 0).

(** [main]: the first four elements of its array. *)
Definition jump_main : res Z := jump (take 4 [1; 1; 1; 1; 4; 5; 6]).

(** ** Specification: the positions [k] jumps can reach *)
Inductive hops (nums : list Z) : nat → Z → Prop :=
  | hops_start : hops nums 0 0
  | hops_jump k i j : hops nums k i → i < len nums → i < j ≤ i + nums.[i] → hops nums (S k) j.

Lemma hops_nonneg nums k p : hops nums k p → 0 ≤ p.
Proof. induction 1; lia. Qed.

(** A position beyond [i] is reached by a jump over [i]. *)
Lemma hops_cross nums k q i : hops nums k q → 0 ≤ i < q → ∃ p, 0 ≤ p ≤ i ∧ i < p + nums.[p].
Proof.
  induction 1 as [|k p q Hp IH Hlt Hq]; intros Hi; [lia|].
  destruct (decide (p ≤ i)) as [Hle|]; [|apply IH; lia].
  exists p. pose proof (hops_nonneg _ _ _ Hp). lia.
Qed.

Section Greedy.
Context (nums : list Z) (Hne : 0 < len nums ≤ INT_MAX).
Context (Hpos : ∀ i, 0 ≤ i < len nums → 0 ≤ nums.[i] ∧ i + nums.[i] ≤ INT_MAX).
Context (Hlast : ∃ k, hops nums k (len nums - 1)).

(** [end_] is the furthest position of [r] jumps, and an earlier bound [e] below
    [i] is the furthest of fewer ones. *)
Record greedy (i : Z) (r : nat) (end_ maxpos : Z) : Prop := Greedy {
  g_i : 0 ≤ i ≤ len nums - 1;
  g_end : i ≤ end_ ≤ maxpos;
  g_max : maxpos ≤ INT_MAX;
  g_r : Z.of_nat r ≤ i;
  g_bound : ∀ k p, (k ≤ r)%nat → hops nums k p → p ≤ end_;
  g_reach : ∀ p, 0 ≤ p ≤ end_ → p < len nums → ∃ k, (k ≤ r)%nat ∧ hops nums k p;
  g_from : ∀ j, 0 ≤ j < i → j + nums.[j] ≤ maxpos;
  g_attained : maxpos = 0 ∧ i = 0 ∨ ∃ j, 0 ≤ j < i ∧ j + nums.[j] = maxpos;
  g_fewer : ∀ k p, (k < r)%nat → hops nums k p → p < i;
}.

Lemma greedy_start : greedy 0 0 0 0.
Proof.
  split; [lia|lia|int_lia|lia| | |intros; lia|by left|intros; lia].
  - intros k p Hk H. destruct H; [lia|]. lia.
  - intros p Hp _. exists 0%nat. split; [done|]. replace p with 0 by lia. constructor.
Qed.

(** One turn, [m] the new [maxpos]. *)
Lemma greedy_max i r end_ maxpos : greedy i r end_ maxpos → i < len nums - 1 →
  let m := Z.max maxpos (i + nums.[i]) in
  m ≤ INT_MAX ∧ (∀ j, 0 ≤ j < i + 1 → j + nums.[j] ≤ m) ∧ (∃ j, 0 ≤ j < i + 1 ∧ j + nums.[j] = m) ∧ i < m.
Proof using Hpos Hlast.
  intros G Hi m. pose proof (g_i _ _ _ _ G). pose proof (g_max _ _ _ _ G). destruct (Hpos i) as [Hx Hs]; [lia|].
  assert (Hfrom : ∀ j, 0 ≤ j < i + 1 → j + nums.[j] ≤ m).
  { intros j Hj. unfold m. destruct (decide (j = i)) as [->|]; [lia|]. pose proof (g_from _ _ _ _ G j). lia. }
  split; [unfold m; lia|]. split; [done|]. split.
  - unfold m. destruct (g_attained _ _ _ _ G) as [[-> ->]|(j & Hj & <-)].
    + exists 0. split; lia.
    + destruct (Z.max_spec (j + nums.[j]) (i + nums.[i])) as [[_ ->]|[_ ->]]; [exists i|exists j]; split; lia.
  - destruct Hlast as [k Hk]. destruct (hops_cross nums k (len nums - 1) i Hk) as (p & Hp & Hlt); [lia|].
    specialize (Hfrom p). lia.
Qed.

Lemma greedy_inner i r end_ maxpos : greedy i r end_ maxpos → i < len nums - 1 → i ≠ end_ →
  greedy (i + 1) r end_ (Z.max maxpos (i + nums.[i])).
Proof using Hpos Hlast.
  intros G Hi Hne'. destruct (greedy_max _ _ _ _ G Hi) as (Hm & Hf & Ha & _). destruct G.
  split; [lia|lia|done|lia|done|done|done|by right|]. intros k p Hk Hh. specialize (g_fewer0 k p Hk Hh). lia.
Qed.

Lemma greedy_jump i r maxpos : greedy i r i maxpos → i < len nums - 1 →
  greedy (i + 1) (S r) (Z.max maxpos (i + nums.[i])) (Z.max maxpos (i + nums.[i])).
Proof using Hpos Hlast.
  intros G Hi. destruct (greedy_max _ _ _ _ G Hi) as (Hm & Hf & Ha & Hlt). destruct G.
  split; [lia|lia|done|lia| | |done|by right|].
  - intros k q Hk Hh. destruct (decide (k ≤ r)%nat) as [Hle|]; [specialize (g_bound0 k q Hle Hh); lia|].
    destruct Hh as [|k p q Hp Hn Hq]; [lia|]. specialize (g_bound0 k p ltac:(lia) Hp).
    pose proof (hops_nonneg _ _ _ Hp). specialize (Hf p). lia.
  - intros p Hp Hn. destruct (decide (p ≤ i)) as [Hle|Hgt].
    + destruct (g_reach0 p) as (k & Hk & Hh); [lia|done|]. exists k. split; [lia|done].
    + destruct Ha as (j & Hj & Hm'). destruct (g_reach0 j) as (k & Hk & Hh); [lia|lia|].
      exists (S k). split; [lia|]. apply (hops_jump nums k j p Hh); lia.
  - intros k p Hk Hh. specialize (g_bound0 k p ltac:(lia) Hh). lia.
Qed.

Lemma jump_ok : wp (jump nums) (λ d, ∃ r, d = Z.of_nat r ∧ hops nums r (len nums - 1) ∧
  ∀ k, hops nums k (len nums - 1) → (r ≤ k)%nat).
Proof using Hne Hpos Hlast.
  apply (wp_loop (λ '(i, res, end_, maxpos), ∃ r, res = Z.of_nat r ∧ greedy i r end_ maxpos)
    (λ '(i, _, _, _), Z.to_nat (len nums - 1 - i))).
  2: { exists 0%nat. split; [done|apply greedy_start]. }
  2: { unfold len. lia. }
  intros [[[i res] end_] maxpos] (r & -> & G). pose proof (g_i _ _ _ _ G) as Hi. pose proof (g_r _ _ _ _ G) as Hr.
  unfold jump_body. rewrite !to_u64_id by int_lia. destruct (Z.ltb_spec i (len nums - 1)) as [Hlt|Hge].
  - apply wp_bind, wp_aget; [lia|]. destruct (Hpos i) as [Hx Hs]; [lia|].
    apply wp_bind, wp_chk32; [int_lia|]. apply wp_bind. destruct (Z.eqb_spec i end_) as [<-|Hni].
    + apply wp_bind, wp_chk32; [int_lia|]. cbn [wp mret res_ret]. apply wp_bind, wp_chk32; [int_lia|].
      cbn [wp mret res_ret]. split; [|lia]. exists (S r). split; [lia|]. by apply greedy_jump.
    + cbn [wp mret res_ret]. apply wp_bind, wp_chk32; [int_lia|].
      cbn [wp mret res_ret]. split; [|lia]. exists r. split; [done|]. by apply greedy_inner.
  - cbn [wp mret res_ret]. exists r. destruct G. replace i with (len nums - 1) in * by lia.
    assert (Hmin : ∀ k, hops nums k (len nums - 1) → (r ≤ k)%nat).
    { intros k Hk. destruct (decide (k < r)%nat) as [Hkr|]; [|lia]. specialize (g_fewer0 k _ Hkr Hk). lia. }
    split; [done|]. split; [|done]. destruct (g_reach0 (len nums - 1)) as (k & Hk & Hh); [lia|lia|].
    specialize (Hmin k Hh). by replace r with k by lia.
Qed.
End Greedy.

(** ** Properties *)

(** C38: The greedy loop is optimal: on an array of non-negative steps whose last
    position can be reached (and whose positions plus steps are [int]s), [jump]
    returns the least number of jumps that reach it. *)
Theorem jump_minimal nums :
  0 < len nums ≤ INT_MAX → (∀ i, 0 ≤ i < len nums → 0 ≤ nums.[i] ∧ i + nums.[i] ≤ INT_MAX) →
  (∃ k, hops nums k (len nums - 1)) →
  ∃ d, jump nums = Ok (Z.of_nat d) ∧ hops nums d (len nums - 1) ∧
    ∀ k, hops nums k (len nums - 1) → (d ≤ k)%nat.
Proof.
  intros Hne Hpos Hlast. pose proof (jump_ok nums Hne Hpos Hlast) as Hw.
  destruct (jump nums) as [d|]; [|done]. destruct Hw as (r & -> & Hr). by exists r.
Qed.

Definition jump_demo : list Z := [2; 3; 1; 1; 4].
Lemma jump_minimal_witness : jump jump_demo = Ok 2 ∧ hops jump_demo 2 4.
Proof.
  assert (Hh : hops jump_demo 2 4).
  { apply (hops_jump _ 1 1); [apply (hops_jump _ 0 0); [constructor|done|done]|done|done]. }
  destruct (jump_minimal jump_demo) as (d & Hd & Hdh & _).
  - done.
  - intros i Hi. change (len jump_demo) with 5 in Hi.
    assert (i = 0 ∨ i = 1 ∨ i = 2 ∨ i = 3 ∨ i = 4) as [->|[->|[->|[->| ->]]]] by lia; split; vm_compute; done.
  - by exists 2%nat.
  - split; [reflexivity|exact Hh].
Defined.

(** An array whose end cannot be reached, and the empty one. *)
Lemma jump_stuck : jump [0; 5] = Ok 1.
Proof. reflexivity. Qed.
Lemma jump_empty : jump [] = Err OutOfBounds.
Proof. reflexivity. Qed.
Lemma jump_main_output : jump_main = Ok 3.
Proof. reflexivity. Qed.
