(* ===== verification/Exercises.v ===== *)
(** * test/7.cc and test/17.cc: reversing a number, and the letters of a phone's
    keys. *)
From S2P Require Import Prelude CInt CArray CStdio.

(** ** 7.cc *)
Definition revert_body (st : Z * Z) : res (Z * Z + Z) :=
  let '(num, res) := st in
  if num =? 0 then mret (inr res)
  else
    r ← irem num 10;
    num ← idiv num 10;
    res ← imul res 10;
    res ← iadd res r;
    mret (inl (num, res)).
Definition revertnum (num : Z) : res Z := loop 11 revert_body (num, 0).
Definition revert_main : res Z := revertnum 345678909.

(** The digits of a number, none for 0. *)
Definition digits (k : nat) (n : Z) : list Z := if n =? 0 then [] else udec k n.

Lemma udec_mod k n : 0 < n → udec (S k) n = digits k (n / 10) ++ [48 + n mod 10].
Proof.
  intros Hn. cbn [udec]. f_equal. unfold digits. destruct (Z.ltb_spec n 10).
  - by rewrite Z.div_small by lia.
  - destruct (Z.eqb_spec (n / 10) 0) as [He|]; [|done]. apply Z.div_small_iff in He; lia.
Qed.

Lemma revert_loop k n acc : 0 ≤ n ≤ INT_MAX → n < 10 ^ Z.of_nat k → 0 ≤ acc ≤ INT_MAX →
  loop (S k) revert_body (n, acc) =
    chk32 (acc * 10 ^ len (digits k n) + dval (reverse (digits k n))).
Proof.
  revert n acc. induction k as [|k IH]; intros n acc Hn Hk Ha.
  - change (10 ^ Z.of_nat 0) with 1 in Hk. replace n with 0 by lia. cbn [loop revert_body]. change (digits 0 0) with (@nil Z).
    change (len []) with 0. change (dval (reverse [])) with 0. rewrite chk32_ok by int_lia. cbn. f_equal. lia.
  - destruct (decide (n = 0)) as [->|Hne].
    { cbn [loop revert_body]. change (digits (S k) 0) with (@nil Z).
      change (len []) with 0. change (dval (reverse [])) with 0. rewrite chk32_ok by int_lia. cbn. f_equal. lia. }
    pose proof (Z.mod_pos_bound n 10 ltac:(lia)). pose proof (Z.div_mod n 10 ltac:(lia)).
    assert (Hd : digits (S k) n = digits k (n / 10) ++ [48 + n mod 10]).
    { unfold digits at 1. rewrite (proj2 (Z.eqb_neq n 0)) by done. apply udec_mod. lia. }
    rewrite Hd, reverse_snoc, len_app. change (len [48 + n mod 10]) with 1.
    set (l := digits k (n / 10)) in *. change ((48 + n mod 10) :: reverse l) with ([48 + n mod 10] ++ reverse l).
    rewrite dval_app. change (dval [48 + n mod 10]) with (10 * 0 + (48 + n mod 10 - 48)).
    assert (Hlr : len (reverse l) = len l) by (unfold len; by rewrite length_reverse). rewrite Hlr.
    pose proof (len_nonneg l) as Hl. rewrite Z.pow_add_r by lia.
    assert (Hrd : Forall is_digit (reverse l)).
    { apply Forall_reverse. unfold l, digits. case_match; [constructor|]. apply udec_digits, Z.div_pos; lia. }
    pose proof (dval_bound _ Hrd) as Hb. rewrite Hlr in Hb. set (r := n mod 10) in *. set (q := n / 10) in *.
    set (P := 10 ^ len l) in *. assert (HP : 1 ≤ P) by (unfold P; pose proof (Z.pow_pos_nonneg 10 (len l)); lia).
    rewrite loop_S. unfold revert_body. rewrite (proj2 (Z.eqb_neq n 0)) by done.
    unfold irem, idiv. rewrite Z.quot_div_nonneg, Z.rem_mod_nonneg by lia. fold q r. cbn [Z.eqb].
    rewrite chk32_ok by int_lia. cbn [mbind res_bind mret res_ret]. unfold imul.
    destruct (decide (acc * 10 ≤ INT_MAX)) as [Hm|Hm].
    2: { rewrite (chk32_overflow (acc * 10)) by lia. cbn. symmetry. apply chk32_overflow. right.
         assert (acc * 10 * 1 ≤ acc * 10 * P) by (apply Z.mul_le_mono_nonneg_l; lia). nia. }
    rewrite (chk32_ok (acc * 10)) by int_lia. cbn [mbind res_bind mret res_ret]. unfold iadd.
    destruct (decide (acc * 10 + r ≤ INT_MAX)) as [Hm2|Hm2].
    2: { rewrite (chk32_overflow (acc * 10 + r)) by lia. cbn. symmetry. apply chk32_overflow. right.
         assert ((acc * 10 + r) * 1 ≤ (acc * 10 + r) * P) by (apply Z.mul_le_mono_nonneg_l; lia). nia. }
    rewrite (chk32_ok (acc * 10 + r)) by int_lia. cbn [mbind res_bind mret res_ret].
    rewrite IH; [|split; [apply Z.div_pos; lia|lia]| |lia].
    + fold l P. f_equal. lia.
    + rewrite Nat2Z.inj_succ, Z.pow_succ_r in Hk by lia. apply Z.div_lt_upper_bound; lia.
Qed.

(** The number with its digits in reverse, where that is an [int]; an overflow,
    which is undefined, otherwise. *)
Theorem revertnum_exact num : 0 ≤ num ≤ INT_MAX →
  revertnum num = chk32 (dval (reverse (digits 10 num))).
Proof.
  intros Hn. unfold revertnum. rewrite revert_loop by int_lia. f_equal.
Qed.

Lemma revert_main_output : revert_main = Ok 909876543.
Proof. unfold revert_main. rewrite revertnum_exact by int_lia. reflexivity. Qed.

Lemma revertnum_overflow : revertnum 1000000009 = Err SignedOverflow.
Proof. rewrite (revertnum_exact 1000000009) by int_lia. reflexivity. Qed.

(** ** 17.cc *)
Definition str : list (list Z) :=
  (λ s, bytes s) <$> [""; "abc"; "def"; "ghi"; "jkl"; "mno"; "pqrs"; "tuv"; "wxyz"]%string.

(** [s[m]] of a [std::string]: its character, or the zero after the last one. *)
Definition string_at (s : list Z) (m : nat) : res Z :=
  match s !! m with
  | Some c => mret c
  | None => if Nat.eqb m (length s) then mret 0 else Err OutOfBounds
  end.

Fixpoint for_each {A B} (l : list A) (f : A → B → res B) (b : B) : res B :=
  match l with
  | [] => mret b
  | x :: l => b ← f x b; for_each l f b
  end.

(** The inner loop goes to the size of [des[i]], not of [des[n]]; [j] is never
    read.  The depth is at most the number of strings. *)
Fixpoint core (fuel : nat) (des : list (list Z)) (i : nat) (s : list Z) (result : list (list Z)) :
    res (list (list Z)) :=
  match fuel with
  | O => Err NoFuel
  | S fuel =>
      result ← for_each (seq i (length des - i)) (λ n result,
        for_each (seq 0 (length (des !!! i))) (λ m result,
          c ← string_at (des !!! n) m;
          core fuel des (n + 1) (s ++ [c]) result) result) result;
      mret (if Nat.leb (length des) (length s) then result ++ [s] else result)
  end.

(** [str[digits[i]-'1']] *)
Definition key_letters (d : Z) : res (list Z) := aget str (d - 49).
Definition letterCombinations (digits : list Z) : res (list (list Z)) :=
  tmp ← mapM key_letters digits;
  core (S (length tmp)) tmp 0 [] [].

(** What is printed before the return. *)
Definition print_letters (res : list (list Z)) : list Z := concat ((λ item, item ++ [10]) <$> res) ++ [10].
Definition letters_main : res (list (list Z)) := letterCombinations (bytes "2").

(** Specification: a letter of each key, in all ways, in lexicographic order. *)
Fixpoint combinations (des : list (list Z)) : list (list Z) :=
  match des with
  | [] => [[]]
  | letters :: des => letters ≫= λ c, (λ t, c :: t) <$> combinations des
  end.

Section Core.
Context (des : list (list Z)).
(** Sizes differ by at most one: reading one past a string gives its zero. *)
Context (Hsizes : ∀ i n, (i < length des)%nat → (n < length des)%nat → (length (des !!! i) ≤ S (length (des !!! n)))%nat).

Lemma for_each_same {A B} (l : list A) (f : A → B → res B) b : (∀ x, x ∈ l → f x b = Ok b) → for_each l f b = Ok b.
Proof.
  induction l as [|x l IH]; intros Hf; [done|]. cbn [for_each]. rewrite Hf by (by left). cbn [mbind res_bind].
  apply IH. intros y Hy. apply Hf. by right.
Qed.

Lemma for_each_app {A B} (l1 l2 : list A) (f : A → B → res B) b :
  for_each (l1 ++ l2) f b = b ← for_each l1 f b; for_each l2 f b.
Proof. revert b. induction l1 as [|x l1 IH]; intros b; [done|]. cbn. destruct (f x b); [apply IH|done]. Qed.

Lemma string_at_ok i n m : (i < length des)%nat → (n < length des)%nat → (m < length (des !!! i))%nat →
  ∃ c, string_at (des !!! n) m = Ok c.
Proof using Hsizes.
  intros Hi Hn Hm. pose proof (Hsizes i n Hi Hn). unfold string_at. destruct (_ !! m) as [c|] eqn:Hc; [by exists c|].
  apply lookup_ge_None in Hc. rewrite (proj2 (Nat.eqb_eq _ _)) by lia. by exists 0.
Qed.

(** A string that skipped a key never has all its letters. *)
Lemma core_short fuel i s result : (length s < i ≤ length des)%nat → (length des - i < fuel)%nat →
  core fuel des i s result = Ok result.
Proof using Hsizes.
  revert i s result. induction fuel as [|fuel IH]; intros i s result Hs Hf; [lia|]. cbn [core].
  rewrite for_each_same; [|]. { cbn. by rewrite (proj2 (Nat.leb_gt _ _)) by lia. }
  intros n Hn. apply elem_of_seq in Hn. apply for_each_same. intros m Hm. apply elem_of_seq in Hm.
  destruct (string_at_ok i n m) as [c ->]; [lia..|]. cbn [mbind res_bind]. apply IH; [|lia].
  rewrite length_app. cbn [length]. lia.
Qed.

Lemma core_full fuel s result : (length s ≤ length des)%nat → (length des - length s < fuel)%nat →
  core fuel des (length s) s result = Ok (result ++ ((λ t, s ++ t) <$> combinations (drop (length s) des))).
Proof using Hsizes.
  revert s result. induction fuel as [|fuel IH]; intros s result Hs Hf; [lia|]. cbn [core].
  destruct (decide (length s = length des)) as [He|Hne].
  { rewrite He, Nat.sub_diag, Nat.leb_refl, drop_all. cbn. by rewrite app_nil_r. }
  destruct (lookup_lt_is_Some_2 des (length s)) as [letters Hl]; [lia|].
  rewrite (drop_S _ _ _ Hl). cbn [combinations]. rewrite (list_lookup_total_correct _ _ _ Hl).
  destruct (length des - length s)%nat as [|k] eqn:Hk; [lia|]. rewrite <- cons_seq. cbn [for_each].
  rewrite (list_lookup_total_correct _ _ _ Hl).
  assert (Hloop : ∀ p q, letters = p ++ q → for_each (seq (length p) (length q)) (λ m result,
      c ← string_at letters m; core fuel des (length s + 1) (s ++ [c]) result)
      (result ++ ((λ t, s ++ t) <$> (p ≫= λ c, (λ t, c :: t) <$> combinations (drop (S (length s)) des)))) =
    Ok (result ++ ((λ t, s ++ t) <$> (letters ≫= λ c, (λ t, c :: t) <$> combinations (drop (S (length s)) des))))).
  { intros p q. revert p. induction q as [|c q IHq]; intros p Hp; [by rewrite Hp, app_nil_r|].
    assert (Hc : string_at letters (length p) = Ok c).
    { unfold string_at. by rewrite Hp, lookup_app_r, Nat.sub_diag by lia. }
    cbn [length seq for_each]. rewrite Hc. cbn [mbind res_bind].
    replace (length s + 1)%nat with (length (s ++ [c])) by (rewrite length_app; done).
    rewrite IH by (rewrite length_app; cbn [length]; lia). cbn [mbind res_bind].
    specialize (IHq (p ++ [c])). rewrite length_app in IHq. cbn [length] in IHq.
    replace (length p + 1)%nat with (S (length p)) in IHq by lia. rewrite length_app. cbn [length].
    rewrite <- IHq by (by rewrite Hp, <- app_assoc).
    replace (length s + 1)%nat with (S (length s)) by lia. f_equal.
    rewrite bind_app, fmap_app, <- app_assoc. f_equal. cbn. rewrite app_nil_r, <- list_fmap_compose. f_equal.
    apply list_fmap_ext. intros _ t _. cbn. by rewrite <- app_assoc. }
  specialize (Hloop [] letters eq_refl). cbn [length mbind list_bind fmap list_fmap] in Hloop. rewrite app_nil_r in Hloop.
  rewrite Hloop. cbn [mbind res_bind]. rewrite for_each_same.
  { cbn. by rewrite (proj2 (Nat.leb_gt _ _)) by lia. }
  intros n Hn. apply elem_of_seq in Hn. apply for_each_same. intros m Hm. apply elem_of_seq in Hm.
  destruct (string_at_ok (length s) n m) as [c ->]; [lia|lia|by rewrite (list_lookup_total_correct _ _ _ Hl); lia|].
  cbn [mbind res_bind]. apply core_short; [rewrite length_app; cbn [length]; lia|lia].
Qed.
End Core.

Definition letters_of (d : Z) : list Z := str.[d - 49].

Lemma letters_size d : 50 ≤ d ≤ 57 → (3 ≤ length (letters_of d) ≤ 4)%nat.
Proof.
  intros Hd. assert (d = 50 ∨ d = 51 ∨ d = 52 ∨ d = 53 ∨ d = 54 ∨ d = 55 ∨ d = 56 ∨ d = 57) as Hc by lia.
  repeat destruct Hc as [->|Hc]; try (vm_compute; lia). subst. vm_compute. lia.
Qed.

Lemma key_letters_all ds : Forall (λ d, 50 ≤ d ≤ 57) ds → mapM key_letters ds = Ok (letters_of <$> ds).
Proof.
  induction 1 as [|d ds Hd _ IH]; [done|]. cbn [mapM]. rewrite IH.
  assert (key_letters d = Ok (letters_of d)) as ->; [|done].
  apply wp_eq, wp_aget; [change (len str) with 9; lia|done].
Qed.

(** For the keys 2 to 9, [letterCombinations] gives all the combinations, in
    lexicographic order, although the inner loop uses the size of another key's
    letters. *)
Theorem letters_all ds : Forall (λ d, 50 ≤ d ≤ 57) ds → letterCombinations ds = Ok (combinations (letters_of <$> ds)).
Proof.
  intros Hd. unfold letterCombinations. rewrite key_letters_all by done. cbn [mbind res_bind].
  set (des := letters_of <$> ds).
  assert (Hsz : ∀ i, (i < length des)%nat → (3 ≤ length (des !!! i) ≤ 4)%nat).
  { intros i Hi. destruct (lookup_lt_is_Some_2 _ _ Hi) as [l Hl]. rewrite (list_lookup_total_correct _ _ _ Hl).
    apply list_lookup_fmap_Some in Hl as (d & -> & Hl). rewrite Forall_lookup in Hd. by eapply letters_size, Hd. }
  rewrite (core_full des) with (s := []); cbn [length]; [|intros i n Hi Hn; pose proof (Hsz i Hi); pose proof (Hsz n Hn); lia|lia|lia].
  cbn [drop app]. f_equal. apply list_fmap_id.
Qed.

(** "23", and the key 1 after another: its empty string is read beyond its zero. *)
Lemma letters_demo : letterCombinations [50; 51] =
  Ok ((λ s, bytes s) <$> ["ad"; "ae"; "af"; "bd"; "be"; "bf"; "cd"; "ce"; "cf"]%string).
Proof. reflexivity. Qed.
Lemma letters_key_one : letterCombinations [50; 49] = Err OutOfBounds.
Proof. reflexivity. Qed.
Lemma letters_main_output : letters_main = Ok ((λ s, bytes s) <$> ["a"; "b"; "c"]%string).
Proof. reflexivity. Qed.
Lemma letters_main_prints : (r ← letters_main; mret (print_letters r)) =
  Ok (bytes "a" ++ [10] ++ bytes "b" ++ [10] ++ bytes "c" ++ [10; 10]).
Proof. reflexivity. Qed.
