(* ===== verification/KSmallest.v ===== *)
(** * test/373.cc: the k pairs of smallest sums of two sorted arrays.

    [std::priority_queue] is an interface: a collection whose [top] is some
    element no other one is ordered after by the comparison; which one among
    equals is not promised. *)
From S2P Require Import Prelude CInt CArray CStdio.

Abbreviation pair := (Z * Z)%type.

Section Code.
Context (nums1 nums2 : list Z).

(** A side of the comparison: [nums1[f.first] + nums2[f.second]]. *)
Definition pair_sum (f : pair) : res Z :=
  a ← aget nums1 f.1; b ← aget nums2 f.2; iadd a b.

(** [top] of a queue (not empty), given the comparison's sums. *)
Class TopOf : Type := top : list pair → pair.

(** A new element is compared when the queue has others.  Every element of a
    queue of two or more has been on a side of a comparison, so checking the sums
    of all of them fails exactly when the comparisons made so far do; those made
    by [pop] are of sums already computed. *)
Definition emplace (x : pair) (q : list pair) : res (list pair) :=
  match q with
  | [] => mret [x]
  | _ => _ ← mapM pair_sum (x :: q); mret (x :: q)
  end.
Fixpoint remove_one (x : pair) (q : list pair) : list pair :=
  match q with [] => [] | y :: q => if decide (x = y) then q else y :: remove_one x q end.

Context `{TopOf}.

Definition take_body (m : Z) (st : Z * list pair * list (list Z)) : res (Z * list pair * list (list Z) + list (list Z)) :=
  let '(k, p, res) := st in
  let more := 0 <? k in
  k ← isub k 1;
  if more && bool_decide (p ≠ []) then
    let item := top p in
    let p := remove_one item p in
    a ← aget nums1 item.1;
    b ← aget nums2 item.2;
    let res := res ++ [[a; b]] in
    j ← iadd item.2 1;
    p ← (if j <? m then emplace (item.1, j) p else mret p);
    mret (inl (k, p, res))
  else mret (inr res).

Definition KSmallestPairs (k : Z) : res (list (list Z)) :=
  let n := len nums1 in
  let m := len nums2 in
  p ← for_le 0 (Z.max 0 (Z.min k n) - 1) (λ i p, emplace (i, 0) p) [];
  loop (S (Z.to_nat k)) (take_body m) (k, p, []).

(** What is printed before the return: each pair on a line of its own. *)
Definition print_pairs (res : list (list Z)) : list Z :=
  concat ((λ item, [10] ++ concat ((λ t, fmt_d false 0 t ++ bytes ", ") <$> item)) <$> res) ++ [10].
End Code.

(** ** Lemmas *)
Lemma elem_of_remove_one x y q : NoDup q → y ∈ remove_one x q ↔ y ∈ q ∧ y ≠ x.
Proof.
  induction q as [|z q IH]; intros Hq; cbn [remove_one]; [set_solver|].
  apply NoDup_cons in Hq as [Hz Hq]. destruct (decide (x = z)) as [->|]; [set_solver|].
  rewrite !elem_of_cons, IH by done. set_solver.
Qed.

Lemma NoDup_remove_one x q : NoDup q → NoDup (remove_one x q).
Proof.
  induction q as [|z q IH]; intros Hq; cbn [remove_one]; [done|]. pose proof Hq as [Hz Hq']%NoDup_cons.
  destruct (decide (x = z)); [done|]. apply NoDup_cons. split; [|by apply IH].
  rewrite elem_of_remove_one by done. tauto.
Qed.

(** The first pairs of [r] rows, and one that is not first. *)
Lemma firsts_len r (out : list pair) : (∀ a, 0 ≤ a < r → (a, 0) ∈ out) →
  r ≤ len out ∧ ∀ x, x ∈ out → x.2 ≠ 0 → r + 1 ≤ len out.
Proof.
  intros Hall. set (firsts := (λ a, (a, 0)) <$> seqZ 0 r).
  assert (Hnd : NoDup firsts) by (apply NoDup_fmap; [by intros ? ? [=]|apply NoDup_seqZ]).
  assert (Hin : ∀ z, z ∈ firsts → z ∈ out).
  { intros z (a & -> & Ha)%list_elem_of_fmap. apply elem_of_seqZ in Ha. apply Hall. lia. }
  assert (Hlen : length firsts = Z.to_nat r) by (unfold firsts; by rewrite length_fmap, length_seqZ).
  split.
  - assert (length firsts ≤ length out)%nat by (by apply submseteq_length, NoDup_submseteq). unfold len. lia.
  - intros x Hx H0. assert (length (x :: firsts) ≤ length out)%nat; [|unfold len; cbn [length] in *; lia].
    apply submseteq_length, NoDup_submseteq.
    + apply NoDup_cons. split; [|done]. by intros (a & -> & _)%list_elem_of_fmap.
    + intros z. rewrite elem_of_cons. intros [->|Hz]; [done|by apply Hin].
Qed.

Section Proofs.
Context (nums1 nums2 : list Z) `{TopOf}.
Abbreviation n := (len nums1).
Abbreviation m := (len nums2).
Definition key (x : pair) : Z := nums1.[x.1] + nums2.[x.2].
Definition valid (x : pair) : Prop := 0 ≤ x.1 < n ∧ 0 ≤ x.2 < m.
Definition in_key_order : relation pair := λ x y, key x ≤ key y.

(** What the container promises of [top]. *)
Definition top_law : Prop := ∀ q, q ≠ [] → top q ∈ q ∧ ∀ y, y ∈ q → key (top q) ≤ key y.

Context (Hn : n ≤ INT_MAX) (Hm : 0 < m ≤ INT_MAX) (Htop : top_law).
Context (Hs1 : sorted_on nums1 0 (n - 1)) (Hs2 : sorted_on nums2 0 (m - 1)).
Context (Hsum : ∀ x, valid x → INT_MIN ≤ key x ≤ INT_MAX).

Lemma pair_sum_ok x : valid x → pair_sum nums1 nums2 x = Ok (key x).
Proof using Hsum.
  intros Hx. apply wp_eq. unfold pair_sum. apply wp_bind, wp_aget; [apply Hx|].
  apply wp_bind, wp_aget; [apply Hx|]. by apply wp_chk32; [apply Hsum|].
Qed.

Lemma emplace_ok x q : Forall valid (x :: q) → emplace nums1 nums2 x q = Ok (x :: q).
Proof using Hsum.
  intros Hq. unfold emplace. destruct q as [|y q]; [done|].
  replace (mapM (pair_sum nums1 nums2) (x :: y :: q)) with (Ok (key <$> x :: y :: q)); [done|].
  symmetry. induction Hq as [|z l Hz _ IH]; [done|]. cbn [mapM]. by rewrite pair_sum_ok, IH.
Qed.

Lemma key_row i j j' : 0 ≤ i < n → 0 ≤ j ≤ j' → j' < m → key (i, j) ≤ key (i, j').
Proof using Hs2. intros Hi Hj Hj'. unfold key. cbn [fst snd]. pose proof (Hs2 j j'). lia. Qed.
Lemma key_column i i' : 0 ≤ i ≤ i' → i' < n → key (i, 0) ≤ key (i', 0).
Proof using Hs1. intros Hi Hi'. unfold key. cbn [fst snd]. pose proof (Hs1 i i'). lia. Qed.

(** Of each of the first [r] rows the first [c i] pairs are out, the next one is
    in the queue. *)
Record frontier (r : Z) (c : Z → Z) (out p : list pair) : Prop := Frontier {
  f_c : ∀ i, 0 ≤ i < r → 0 ≤ c i ≤ m;
  f_out : ∀ i j, (i, j) ∈ out ↔ 0 ≤ i < r ∧ 0 ≤ j < c i;
  f_p : ∀ i j, (i, j) ∈ p ↔ 0 ≤ i < r ∧ j = c i ∧ j < m;
  f_nodup_out : NoDup out;
  f_nodup_p : NoDup p;
  f_sorted : StronglySorted in_key_order out;
  f_le : ∀ x y, x ∈ out → y ∈ p → key x ≤ key y;
}.

Lemma frontier_valid r c out p : r ≤ n → frontier r c out p → Forall valid out ∧ Forall valid p.
Proof using Hm.
  intros Hr F. split; apply Forall_forall; intros [i j] Hx.
  - apply (f_out _ _ _ _ F) in Hx as [Hi Hj]. pose proof (f_c _ _ _ _ F i Hi). unfold valid. cbn. lia.
  - apply (f_p _ _ _ _ F) in Hx as (Hi & -> & Hj). pose proof (f_c _ _ _ _ F i Hi). unfold valid. cbn. lia.
Qed.

Lemma frontier_init : ∀ r, 0 ≤ r ≤ n → wp (for_le 0 (r - 1) (λ i p, emplace nums1 nums2 (i, 0) p) [])
  (λ p, frontier r (λ _, 0) [] p).
Proof using Hn Hm Hsum.
  intros r Hr.
  apply (wp_for_le (λ i p, 0 ≤ i ∧ NoDup p ∧ ∀ x, x ∈ p ↔ 0 ≤ x.1 < i ∧ x.2 = 0)); [int_lia|int_lia|lia|..].
  - split; [lia|]. split; [constructor|]. intros x. split; [by intros ?%not_elem_of_nil|lia].
  - intros i p Hi (_ & Hnd & Hp). rewrite emplace_ok.
    + cbn. split; [lia|]. split.
      * apply NoDup_cons. split; [|done]. rewrite Hp. cbn. lia.
      * intros [a b]. rewrite elem_of_cons, Hp. cbn. split.
        -- intros [[= -> ->]|?]; lia.
        -- intros [? ->]. destruct (decide (a = i)) as [->|]; [by left|right; lia].
    + apply Forall_cons. split; [unfold valid; cbn; lia|]. apply Forall_forall. intros x Hx. apply Hp in Hx.
      unfold valid. lia.
  - intros p (_ & Hnd & Hp). split; try done.
    + intros. lia.
    + intros i j. split; [by intros ?%not_elem_of_nil|lia].
    + intros i j. rewrite Hp. cbn. split; [intros [? ->]|intros (? & -> & _)]; lia.
    + constructor.
    + constructor.
    + by intros x y ?%not_elem_of_nil.
Qed.

(** One turn of the loop. *)
Lemma frontier_step r c out p : r ≤ n → frontier r c out p → p ≠ [] →
  let t := top p in let q := remove_one t p in
  let c' := λ i, if i =? t.1 then c i + 1 else c i in
  valid t ∧ frontier r c' (out ++ [t]) (if t.2 + 1 <? m then (t.1, t.2 + 1) :: q else q).
Proof using Hm Htop Hs2.
  clear Hsum Hs1 Hn. intros Hr F Hp t q c'. destruct (Htop p Hp) as [Ht Hmin]. fold t in Ht, Hmin.
  destruct (frontier_valid r c out p Hr F) as [_ Hv]. rewrite Forall_forall in Hv. specialize (Hv t Ht) as Hvt.
  split; [done|]. destruct t as [a b] eqn:Heq. cbn [fst snd] in *. destruct F.
  pose proof (proj1 (f_p0 a b) Ht) as (Ha & Hb & Hbm). pose proof (f_c0 a Ha) as Hca.
  assert (Hq : ∀ y, y ∈ q ↔ y ∈ p ∧ y ≠ (a, b)) by (intros y; by apply elem_of_remove_one).
  assert (Hq2 : ∀ y, y ∈ (if b + 1 <? m then (a, b + 1) :: q else q) ↔
     (y = (a, b + 1) ∧ b + 1 < m) ∨ (y ∈ p ∧ y ≠ (a, b))).
  { intros y. destruct (Z.ltb_spec (b + 1) m); [rewrite elem_of_cons|]; rewrite Hq; naive_solver lia. }
  assert (Hab : (a, b) ∉ out) by (rewrite f_out0; lia). unfold c'. split.
  - intros i Hi. destruct (Z.eqb_spec i a) as [->|]; [lia|by apply f_c0].
  - intros i j. rewrite elem_of_app, list_elem_of_singleton, f_out0. destruct (Z.eqb_spec i a) as [->|Hne].
    + split; [intros [?|[= ->]]; lia|]. intros [? ?]. destruct (decide (j = b)) as [->|]; [by right|left; lia].
    + split; [intros [?|[= -> ->]]; [done|lia]|by left].
  - intros i j. rewrite Hq2, f_p0. destruct (Z.eqb_spec i a) as [->|Hne].
    + split; [intros [[[= ->] ?]|[(? & -> & ?) Hne]]; [lia|by rewrite <- Hb in Hne]|].
      intros (? & -> & ?). left. rewrite <- Hb in *. done.
    + split; [intros [[[= ->] ?]|[? _]]; done|]. intros Hi. right. split; [done|]. by intros [= -> _].
  - apply NoDup_app. split; [done|]. split; [|apply NoDup_singleton].
    intros x Hx ->%list_elem_of_singleton. done.
  - assert (NoDup q) by by apply NoDup_remove_one. case_match; [|done]. apply NoDup_cons. split; [|done].
    rewrite Hq, f_p0. lia.
  - apply StronglySorted_snoc; [done|]. apply Forall_forall. intros y Hy. by apply f_le0.
  - intros x y. rewrite elem_of_app, list_elem_of_singleton, Hq2. intros [Hx| ->] [[-> Hlt]|[Hy _]].
    + etrans; [by apply (f_le0 x (a, b))|]. apply key_row; lia.
    + by apply f_le0.
    + apply key_row; lia.
    + by apply Hmin.
Qed.

Definition values (x : pair) : list Z := [nums1.[x.1]; nums2.[x.2]].

(** The loop: [k] turns, or fewer when the queue is empty. *)
Lemma take_loop r k c out p : r ≤ n → 0 ≤ k ≤ INT_MAX → frontier r c out p →
  wp (loop (S (Z.to_nat k)) (take_body nums1 nums2 m) (k, p, values <$> out))
    (λ res, ∃ c' out' p', res = values <$> out' ∧ frontier r c' out' p' ∧ len out' ≤ len out + k ∧
       (len out' = len out + k ∨ p' = [])).
Proof using Hn Hm Htop Hs2 Hsum.
  intros Hr Hk F.
  apply (wp_loop (λ '(k', p', res), 0 ≤ k' ≤ k ∧ ∃ c' out', res = values <$> out' ∧ frontier r c' out' p' ∧
      len out' = len out + (k - k')) (λ '(k', _, _), Z.to_nat k')); [|split; [lia|]; exists c, out; split_and!; done || lia|lia].
  intros [[k' p'] res] (Hk' & c' & out' & -> & F' & Hl). unfold take_body.
  apply wp_bind, wp_chk32; [int_lia|].
  destruct (Z.ltb_spec 0 k') as [Hpos|Hz]; cbn [andb].
  2: { cbn. exists c', out', p'. split_and!; [done|done|lia|left; lia]. }
  destruct (bool_decide_reflect (p' ≠ [])) as [Hp|Hp].
  2: { cbn. exists c', out', p'. split_and!; [done|done|lia|]. right. by destruct p'; [|destruct Hp]. }
  destruct (frontier_step r c' out' p' Hr F' Hp) as [Hv Hstep]. destruct (frontier_valid r _ _ _ Hr Hstep) as [_ Hvq].
  pose proof Hv as [Hv1 Hv2]. apply wp_bind, wp_aget; [done|]. apply wp_bind, wp_aget; [done|].
  apply wp_bind, wp_chk32; [int_lia|]. apply wp_bind. set (t := top p') in *.
  assert (He : (if t.2 + 1 <? m then emplace nums1 nums2 (t.1, t.2 + 1) (remove_one t p') else mret (remove_one t p')) =
    Ok (if t.2 + 1 <? m then (t.1, t.2 + 1) :: remove_one t p' else remove_one t p')).
  { destruct (t.2 + 1 <? m); [by apply emplace_ok|done]. }
  rewrite He. cbn [wp mret res_ret]. split; [|lia]. split; [lia|].
  eexists _, (out' ++ [t]). split; [by rewrite fmap_app|]. split; [exact Hstep|].
  rewrite len_app. change (len [t]) with 1. lia.
Qed.

(** What is not out is not smaller: its row has a pair in the queue, or comes
    after [k] rows whose first pairs are all out, or in the queue. *)
Lemma frontier_smallest k c out p : 0 ≤ k → frontier (Z.max 0 (Z.min k n)) c out p → len out ≤ k →
  ∀ x y, x ∈ out → valid y → y ∉ out → key x ≤ key y.
Proof using Hm Hs1 Hs2.
  clear Hsum Htop. intros Hk F Hlen [i j] [i' j'] Hx [Hy1 Hy2] Hy. cbn [fst snd] in *. destruct F.
  set (r := Z.max 0 (Z.min k n)) in *. pose proof (proj1 (f_out0 i j) Hx) as [Hi Hj].
  assert (Hrow : ∀ a, 0 ≤ a < r → c a < m → key (i, j) ≤ key (a, c a)).
  { intros a Ha Hc. apply f_le0; [done|]. by apply f_p0. }
  destruct (decide (i' < r)) as [Hr|Hr].
  - rewrite f_out0 in Hy. pose proof (f_c0 i' ltac:(lia)). etrans; [apply (Hrow i'); lia|]. apply key_row; lia.
  - assert (r = k) as Hrk by lia. destruct (decide (Exists (λ a, c a = 0) (seqZ 0 r))) as [He|He].
    + apply Exists_exists in He as (a & Ha & Hca). apply elem_of_seqZ in Ha.
      etrans; [apply (Hrow a); lia|]. rewrite Hca. etrans; [apply (key_column a i'); lia|]. apply key_row; lia.
    + assert (Hall : ∀ a, 0 ≤ a < r → (a, 0) ∈ out).
      { intros a Ha. apply f_out0. split; [done|]. pose proof (f_c0 a Ha). split; [lia|].
        destruct (decide (c a = 0)) as [Hc|]; [|lia]. destruct He. apply Exists_exists. exists a.
        split; [apply elem_of_seqZ; lia|done]. }
      assert (j = 0) as ->.
      { destruct (decide (j = 0)) as [|Hj0]; [done|]. exfalso.
        destruct (firsts_len r out Hall) as [_ Hf]. specialize (Hf (i, j) Hx Hj0). lia. }
      etrans; [apply (key_column i i'); lia|]. apply key_row; lia.
Qed.
End Proofs.

(** ** Property *)

(** C37: For sorted arrays (the second one not empty, sums in range), and whatever
    element of smallest sum the queue's [top] picks, [KSmallestPairs] returns the
    pairs of values of distinct positions, in the order of their sums: at most
    [k], fewer only when these are all the positions there are, and no other
    position has a smaller sum than one of them. *)
Theorem k_smallest nums1 nums2 `{TopOf} k :
  len nums1 ≤ INT_MAX → 0 < len nums2 ≤ INT_MAX → 0 ≤ k ≤ INT_MAX → top_law nums1 nums2 →
  sorted_on nums1 0 (len nums1 - 1) → sorted_on nums2 0 (len nums2 - 1) →
  (∀ x, valid nums1 nums2 x → INT_MIN ≤ key nums1 nums2 x ≤ INT_MAX) →
  ∃ out, KSmallestPairs nums1 nums2 k = Ok (values nums1 nums2 <$> out) ∧
    NoDup out ∧ Forall (valid nums1 nums2) out ∧ StronglySorted (in_key_order nums1 nums2) out ∧
    len out ≤ k ∧ (len out = k ∨ ∀ x, valid nums1 nums2 x → x ∈ out) ∧
    ∀ x y, x ∈ out → valid nums1 nums2 y → y ∉ out → key nums1 nums2 x ≤ key nums1 nums2 y.
Proof.
  intros Hn Hm Hk Htop Hs1 Hs2 Hsum. set (r := Z.max 0 (Z.min k (len nums1))).
  pose proof (len_nonneg nums1) as Hn0.
  assert (Hw : wp (KSmallestPairs nums1 nums2 k) (λ res, ∃ c out p, res = values nums1 nums2 <$> out ∧
    frontier nums1 nums2 r c out p ∧ len out ≤ k ∧ (len out = k ∨ p = []))).
  { unfold KSmallestPairs. apply wp_bind. eapply wp_mono; [apply frontier_init; try done; lia|].
    intros p F. change (@nil (list Z)) with (values nums1 nums2 <$> ([] : list pair)).
    eapply wp_mono; [apply (take_loop nums1 nums2 Hn Hm Htop Hs2 Hsum r k (λ _, 0) [] p); [lia|done|done]|].
    intros res (c & out & p' & ? & ? & ? & ?). exists c, out, p'. change (len []) with 0 in *. split_and!; done. }
  destruct (KSmallestPairs nums1 nums2 k) as [res|]; [|done]. destruct Hw as (c & out & p & -> & F & Hl & Hall).
  exists out. split; [done|]. destruct (frontier_valid nums1 nums2 Hm r c out p ltac:(lia) F) as [Hv _].
  split; [apply F|]. split; [done|]. split; [apply F|]. split; [done|].
  assert (Hsm := frontier_smallest nums1 nums2 Hm Hs1 Hs2 k c out p ltac:(lia) F Hl). split; [|exact Hsm].
  destruct Hall as [?| ->]; [by left|]. destruct (decide (len out = k)) as [|Hlk]; [by left|]. right.
  intros [i j] [Hi Hj]. cbn [fst snd] in *. destruct F as [Hc Hout Hp _ _ _ _].
  assert (Hfull : ∀ a, 0 ≤ a < r → c a = len nums2).
  { intros a Ha. specialize (Hc a Ha). destruct (decide (c a = len nums2)) as [|Hne]; [done|].
    assert (Hq : (a, c a) ∈ []) by (apply Hp; lia). by apply not_elem_of_nil in Hq. }
  apply Hout. destruct (decide (i < r)) as [Hr|Hr]; [rewrite Hfull by lia; lia|]. exfalso.
  destruct (firsts_len r out) as [Hlen _]; [|lia]. intros a Ha. apply Hout. rewrite Hfull by done. lia.
Qed.

(** A queue that picks the first of the smallest. *)
Section Argmin.
Context (f : pair → Z).
Fixpoint argmin (x : pair) (q : list pair) : pair :=
  match q with [] => x | y :: q => argmin (if f y <? f x then y else x) q end.

Lemma argmin_spec x q : argmin x q ∈ x :: q ∧ ∀ y, y ∈ x :: q → f (argmin x q) ≤ f y.
Proof.
  revert x. induction q as [|z q IH]; intros x; cbn [argmin].
  - split; [by left|]. by intros y ->%list_elem_of_singleton.
  - destruct (Z.ltb_spec (f z) (f x)) as [Hz|Hz].
    + destruct (IH z) as [Hin Hle]. split; [by right|]. intros y [->|Hy]%elem_of_cons; [|by apply Hle].
      specialize (Hle z ltac:(by left)). lia.
    + destruct (IH x) as [Hin Hle]. split; [set_solver|]. intros y [->|[->|Hy]%elem_of_cons]%elem_of_cons.
      * apply Hle. by left.
      * specialize (Hle x ltac:(by left)). lia.
      * apply Hle. by right.
Qed.
End Argmin.

Definition top_first (nums1 nums2 : list Z) : TopOf := λ q,
  match q with [] => (0, 0) | x :: q => argmin (key nums1 nums2) x q end.
Lemma top_first_law nums1 nums2 : top_law nums1 nums2 (H := top_first nums1 nums2).
Proof. intros [|x q] Hq; [done|]. apply argmin_spec. Qed.

(** [main]: 1, 7, 11 and 2, 4, 6, ten pairs, of which there are nine. *)
Definition demo1 : list Z := [1; 7; 11].
Definition demo2 : list Z := [2; 4; 6].
Definition KSmallest_main `{TopOf} : res (list (list Z)) := KSmallestPairs demo1 demo2 10.

Lemma demo_pairs : KSmallest_main (H := top_first demo1 demo2) =
  Ok [[1; 2]; [1; 4]; [1; 6]; [7; 2]; [7; 4]; [7; 6]; [11; 2]; [11; 4]; [11; 6]].
Proof. reflexivity. Qed.

Lemma k_smallest_witness : ∃ out, KSmallestPairs demo1 demo2 10 (H := top_first demo1 demo2) = Ok (values demo1 demo2 <$> out) ∧
  len out = 9 ∧ NoDup out.
Proof.
  assert (Hc : ∀ x, 0 ≤ x < 3 → x = 0 ∨ x = 1 ∨ x = 2) by lia.
  assert (Hsort : sorted_on demo1 0 2 ∧ sorted_on demo2 0 2).
  { split; intros i j Hi Hij Hj.
    all: destruct (Hc i ltac:(lia)) as [->|[->| ->]], (Hc j ltac:(lia)) as [->|[->| ->]]; first [lia|by vm_compute]. }
  destruct (k_smallest demo1 demo2 10 (H := top_first demo1 demo2)) as (out & Hout & Hnd & _ & _ & _ & Hall & _).
  - by vm_compute.
  - by vm_compute.
  - by vm_compute.
  - apply top_first_law.
  - apply Hsort.
  - apply Hsort.
  - intros [i j] [Hi Hj]. cbn [fst snd] in *. change (len demo1) with 3 in Hi. change (len demo2) with 3 in Hj.
    destruct (Hc i Hi) as [->|[->| ->]], (Hc j Hj) as [->|[->| ->]]; by vm_compute.
  - exists out. split; [exact Hout|]. split; [|exact Hnd].
    pose proof demo_pairs as Hd. unfold KSmallest_main in Hd. rewrite Hd in Hout. injection Hout as Hout. apply (f_equal length) in Hout.
    rewrite length_fmap in Hout. unfold len. by rewrite <- Hout.
Defined.

(** The second array is read without being checked to have an element. *)
Lemma k_smallest_empty : KSmallestPairs [1] [] 1 (H := top_first [1] []) = Err OutOfBounds.
Proof. reflexivity. Qed.
Lemma k_smallest_none : KSmallestPairs [] [1] 1 (H := top_first [] [1]) = Ok [].
Proof. reflexivity. Qed.

(** The text starts with an empty line. *)
Lemma print_demo : print_pairs [[1; 2]; [7; 4]] = [10] ++ bytes "1, 2, " ++ [10] ++ bytes "7, 4, " ++ [10].
Proof. reflexivity. Qed.
