(* ===== verification/SyncClient.v ===== *)
(** * tools/sync_file: the client's class (epoll_socket/client.{h,cpp}), its
    program (client/main.cpp), and a whole session with the server.

    The program fetches the files its arguments name, one after another over one
    connection; the server's side of the session is the handling of each request
    by the definitions of [SyncServer].  [socket], [connect] and the random
    letter of the client are parameters. *)
From S2P Require Import Prelude CInt CArray CStdio CNet EpollSocket SyncFile TaskQueue SyncServer.

(** The fields [server_port], [server_ip], [client_id], [socket_fd] and
    [serv_adr]; the last two are indeterminate ([None]) until [InitClient]. *)
Record ClientImpl : Type := MkClient {
  client_port : Z;
  client_ip : list Z;
  client_id : Z;
  socket_fd : option Z;
  client_adr : option sockaddr_in;
}.

(** [id]: what [distr(eng)] gives, from 0 to 25. *)
Definition new_client (port : Z) (ip : list Z) (id : Z) : ClientImpl := MkClient port ip id None None.

Section Client.
Context (inet_addr : list Z → Z) (strerror : Z → list Z).
(** [socket]'s result, and [connect]'s: the value of [errno] when it fails. *)
Context (socket : Z) (connect : Z → sockaddr_in → option Z).
Context (writable : list Z → bool) {S : Type} `{Socket S}.

(** The result, and what is printed. *)
Definition InitClient (c : ClientImpl) : bool * list Z * ClientImpl :=
  let c := MkClient (client_port c) (client_ip c) (client_id c) (Some socket) (client_adr c) in
  if socket =? -1 then (false, bytes "socket() error" ++ [10], c)
  else
    let adr := MkAddr AF_INET (htons (client_port c)) (inet_addr (client_ip c)) in
    let c := MkClient (client_port c) (client_ip c) (client_id c) (socket_fd c) (Some adr) in
    match connect socket adr with
    | Some errno =>
        (false, bytes "connect() error: " ++ fmt_d false 0 errno ++ [32] ++ strerror errno ++ [10], c)
    | None => (true, bytes "connected  [" ++ [client_id c + 65] ++ bytes "]............" ++ [10], c)
    end.

Definition getSocketFD (c : ClientImpl) : res Z :=
  init (socket_fd c).

(** The destructor: the descriptor it closes. *)
Definition destroy_client (c : ClientImpl) : res Z :=
  init (socket_fd c).

(** *** main.cpp

    An argument is an array of characters with a zero at its end. *)
Definition get_file (fuel : nat) (c : ClientImpl) (arg : list Z) (st : fsys * S) : res (fsys * S) :=
  _ ← getSocketFD c;
  name ← cstring arg;
  '(_, fs, _, s) ← SyncRecvFile writable fuel arg (len name) st.1 new_tool st.2;
  mret (fs, s).

Fixpoint get_files (fuel : nat) (c : ClientImpl) (args : list (list Z)) (out : list Z) (st : fsys * S) :
    res (list Z * (fsys * S)) :=
  match args with
  | [] => mret (out, st)
  | arg :: args =>
      st ← get_file fuel c arg st;
      name ← cstring arg;
      get_files fuel c args (out ++ bytes "---> get file:" ++ name ++ [10]) st
  end.

(** [args] are [argv[1]] and the following ones.  The result: the exit status,
    what is printed, the descriptor closed at the end, the files, the connection. *)
Definition main (fuel : nat) (id : Z) (args : list (list Z)) (st : fsys * S) :
    res (Z * list Z * Z * (fsys * S)) :=
  let client := new_client SERVER_PORT SERVER_IP id in
  let '(ok, out, client) := InitClient client in
  if negb ok then fd ← destroy_client client; mret (-1, out, fd, st)
  else
    '(out, st) ← (match args with
                  | [] => st ← get_file fuel client (bytes "test" ++ [0]) st; mret (out, st)
                  | _ => get_files fuel client args out st
                  end);
    fd ← destroy_client client;
    mret (0, out, fd, st).
End Client.

(** ** The server's threads

    The loop is at its top or in the block of a client's event ([on_readable] up
    to the block's end); a worker takes the oldest task and runs it, whatever the
    loop does.  A step that is undefined leads to its error. *)
Inductive loop_at : Type := Idle | InBlock (frame : nat).
Record file_system (S : Type) : Type := MkFiles { at_ : loop_at; srv : ServerImpl S }.
Arguments MkFiles {S}. Arguments at_ {S}. Arguments srv {S}.

Section Threads.
Context {S : Type} `{Socket S} (fuel : nat).
Implicit Types v : ServerImpl S.

Inductive file_step : file_system S → res (file_system S) → Prop :=
  | f_accept v fd conn : conns v !! fd = None →
      file_step (MkFiles Idle v) (v' ← handle_event fuel (OnListen fd conn) v; mret (MkFiles Idle v'))
  | f_readable v fd :
      file_step (MkFiles Idle v) (v' ← on_readable fuel fd v; mret (MkFiles (InBlock (next_frame v)) v'))
  | f_leave v block :
      file_step (MkFiles (InBlock block) v) (mret (MkFiles Idle (end_block block v)))
  | f_task a v : contents (pool v) ≠ [] →
      file_step (MkFiles a v) ('(id, q) ← fd_pop (pool v);
        v' ← run_task fuel id (set_tasks q (closures v) (next_task v) v); mret (MkFiles a v')).

(** The schedules in which no task outlives its block (of the others, see
    [server_tasks_dangle]): the loop leaves a block only when the queue is empty. *)
Definition in_time (x y : file_system S) : Prop :=
  file_step x (Ok y) ∧ (at_ x ≠ Idle → at_ y = Idle → contents (pool (srv x)) = []).
End Threads.

(** ** Lemmas *)
Definition test_name : list Z := bytes "test".
Definition requests (names : list (list Z)) : list (list Z) :=
  match names with [] => [test_name] | _ => names end.
Definition argument (name : list Z) : list Z := name ++ [0].

(** The file a name stands for at the server (missing: empty), and what a client
    that asked for [names] has afterwards. *)
Definition file_of (fs : fsys) (name : list Z) : list Z := default [] (fs !! name).
Definition fetch (srv fs : fsys) (names : list (list Z)) : fsys :=
  foldl (λ fs name, <[copy_name name := file_of srv name]> fs) fs names.

Definition answers (srv : fsys) (names : list (list Z)) : list Z := concat ((λ n, reply (file_of srv n)) <$> names).
Definition asked (names : list (list Z)) : list Z := concat (frame <$> names).

(** What is asked of a name: see [name_ok]; and of the loops' fuel. *)
Record request_ok (writable : list Z → bool) (srv : fsys) (fuel : nat) (name : list Z) : Prop := RequestOk {
  req_name : name_ok name;
  req_nonempty : name ≠ [];
  req_writable : writable (copy_name name) = true;
  req_size : len (file_of srv name) ≤ 2048 * INT_MAX;
  req_fuel : (piece_count 2048 (file_of srv name) < fuel)%nat;
}.

Lemma fetch_other srv fs names f : (∀ n, n ∈ names → copy_name n ≠ f) → fetch srv fs names !! f = fs !! f.
Proof.
  revert fs. induction names as [|n names IH]; intros fs Hf; [done|].
  cbn [fetch foldl]. change (fetch srv (<[copy_name n := file_of srv n]> fs) names !! f = fs !! f).
  rewrite IH by (intros; apply Hf; by right). apply lookup_insert_ne, Hf. by left.
Qed.

Lemma fetch_lookup srv fs names n : n ∈ names → fetch srv fs names !! copy_name n = Some (file_of srv n).
Proof.
  intros Hn. induction names as [|m names IH] using rev_ind; [by apply not_elem_of_nil in Hn|].
  unfold fetch. rewrite foldl_snoc. fold (fetch srv fs names).
  destruct (decide (m = n)) as [->|Hne]; [by rewrite lookup_insert_eq|].
  rewrite lookup_insert_ne by (intros He; by apply (inj (.++ copy_suffix)) in He).
  apply IH. apply elem_of_app in Hn as [?|Hn]; [done|]. by apply list_elem_of_singleton in Hn as ->.
Qed.

Section Session.
Context (inet_addr : list Z → Z) (strerror : Z → list Z) (socket : Z) (connect : Z → sockaddr_in → option Z).
Context (writable : list Z → bool) {S : Type} `{SocketLaws S} `{!Reliable S}.

Lemma get_file_spec srv fuel c fd name more_ fs (s : S) :
  socket_fd c = Some fd → request_ok writable srv fuel name →
  incoming s = reply (file_of srv name) ++ more_ → (2056 + patience s < fuel)%nat →
  wp (get_file writable fuel c (argument name) (fs, s))
    (λ '(fs', s'), fs' = <[copy_name name := file_of srv name]> fs ∧ incoming s' = more_ ∧
       outgoing s' = outgoing s ++ frame name ∧ (patience s' ≤ patience s)%nat).
Proof.
  intros Hc [Hn _ Hw Hsz Hf2] Hin Hf. unfold get_file, getSocketFD. rewrite Hc. cbn [init]. cbn [mbind res_bind mret res_ret].
  unfold argument. rewrite cstring_app by apply Hn. cbn [mbind res_bind fst snd]. apply wp_bind.
  eapply wp_mono; [by apply (SyncRecvFile_spec writable fuel name [] (file_of srv name) more_ fs s)|].
  intros [[[ok fs'] t] s'] (_ & ? & ? & ? & ?). done.
Qed.

Lemma get_files_spec srv fuel c fd names more_ out fs (s : S) :
  socket_fd c = Some fd → Forall (request_ok writable srv fuel) names →
  incoming s = answers srv names ++ more_ → (2056 + patience s < fuel)%nat →
  wp (get_files writable fuel c (argument <$> names) out (fs, s))
    (λ '(out', (fs', s')), out' = out ++ concat ((λ n, bytes "---> get file:" ++ n ++ [10]) <$> names) ∧
       fs' = fetch srv fs names ∧ incoming s' = more_ ∧ outgoing s' = outgoing s ++ asked names).
Proof.
  intros Hc Hns. revert out fs s. induction Hns as [|name names Hn Hns IH]; intros out fs s Hin Hf.
  - cbn. by rewrite !app_nil_r.
  - unfold answers in Hin. rewrite fmap_cons in Hin. cbn [concat] in Hin. rewrite <- app_assoc in Hin.
    rewrite fmap_cons. cbn [get_files]. apply wp_bind. eapply wp_mono; [by eapply get_file_spec|].
    intros [fs1 s1] (-> & Hi1 & Ho1 & Hp1). change (argument name) with (name ++ 0 :: []).
    rewrite cstring_app by apply Hn. cbn [mbind res_bind].
    eapply wp_mono; [apply IH; [exact Hi1|lia]|].
    intros [out' [fs' s']] (-> & -> & Hi2 & Ho2). unfold asked in *. rewrite !fmap_cons. cbn [concat foldl].
    split_and!; [by rewrite <- !app_assoc|done|done|by rewrite Ho2, Ho1, <- app_assoc].
Qed.

Lemma main_spec srv fuel id names more_ fs (s : S) :
  socket ≠ -1 → (∀ adr, connect socket adr = None) → Forall (request_ok writable srv fuel) (requests names) →
  incoming s = answers srv (requests names) ++ more_ → (2056 + patience s < fuel)%nat →
  wp (main inet_addr strerror socket connect writable fuel id (argument <$> names) (fs, s))
    (λ '(code, _, closed, (fs', s')), code = 0 ∧ closed = socket ∧ fs' = fetch srv fs (requests names) ∧
       incoming s' = more_ ∧ outgoing s' = outgoing s ++ asked (requests names)).
Proof.
  intros Hs Hc Hns Hin Hf. unfold main, InitClient. rewrite (proj2 (Z.eqb_neq _ _) Hs), Hc. cbn [negb].
  apply wp_bind. destruct names as [|name names].
  - apply wp_bind. inversion Hns as [|? ? Hn _]; subst.
    change (answers srv (requests [])) with (reply (file_of srv test_name) ++ []) in Hin. rewrite app_nil_r in Hin.
    eapply wp_mono; [by apply (get_file_spec srv fuel _ socket test_name more_)|].
    intros [fs' s'] (-> & Hi & Ho & _). cbn [wp mret res_ret]. cbn [destroy_client socket_fd mbind res_bind mret res_ret wp].
    change (asked (requests [])) with (frame test_name ++ []). by rewrite app_nil_r.
  - eapply wp_mono; [by apply (get_files_spec srv fuel _ socket (name :: names) more_)|].
    intros [out [fs' s']] (_ & -> & Hi & Ho). cbn. done.
Qed.
End Session.

Section Server.
Context {S : Type} `{SocketLaws S} `{!Reliable S}.
Implicit Types v : ServerImpl S.

(** What the session keeps, whatever other clients do meanwhile: the requests
    done and those still to come (until [fd] is closed), and at most one task,
    of the block that the loop is in. *)
Context (fuel : nat) (fd : Z) (fs : fsys) (out : list Z) (names : list (list Z)) (pat : nat).

Definition served v (done todo : list (list Z)) : Prop :=
  ∃ c, conns v !! fd = Some c ∧ incoming c = asked todo ∧ outgoing c = out ++ answers fs done ∧ (patience c ≤ pat)%nat.
Definition serving v : Prop := fd ∈ closed v ∨ ∃ done todo, names = done ++ todo ∧ served v done todo.

Inductive tasks_of : file_system S → Prop :=
  | no_task a v : _tasks (pool v) = [] → serving v → tasks_of (MkFiles a v)
  | other_task b v id g : _tasks (pool v) = [(id, g)] → closures v !! id = Some (g, b) → serving v →
      (g = fd → fd ∈ closed v) → tasks_of (MkFiles (InBlock b) v)
  | my_task b v id done name todo : _tasks (pool v) = [(id, fd)] → closures v !! id = Some (fd, b) →
      frames v !! b = Some (name ++ drop (length name) (replicate 256 0), len name) →
      names = done ++ name :: todo → served v done todo → tasks_of (MkFiles (InBlock b) v).

Definition session_inv (x : file_system S) : Prop :=
  disk (srv x) = fs ∧ fd_wf (pool (srv x)) ∧ (at_ x = Idle → _tasks (pool (srv x)) = []) ∧ tasks_of x.

Lemma serving_same v v' : closed v' = closed v → (fd ∉ closed v → conns v' !! fd = conns v !! fd) → serving v → serving v'.
Proof.
  intros Hcl Hc [Hin|(don & todo & Hn & c & Hs & Hr)]; [left; by rewrite Hcl|].
  destruct (decide (fd ∈ closed v)) as [Hin|Hin]; [left; by rewrite Hcl|]. right. exists don, todo. split; [done|].
  exists c. by rewrite (Hc Hin).
Qed.

Lemma answers_snoc done name : answers fs (done ++ [name]) = answers fs done ++ reply (file_of fs name).
Proof. unfold answers. rewrite fmap_app, concat_app. cbn. by rewrite app_nil_r. Qed.

Context (writable : list Z → bool) (Hnames : Forall (request_ok writable fs fuel) names) (Hpat : (2056 + pat < fuel)%nat).

Lemma asked_cons name todo : asked (name :: todo) = frame name ++ asked todo.
Proof. done. Qed.

Lemma name_pos name : name_ok name → name ≠ [] → 0 < len name ≤ 256.
Proof. intros [_ Hl] Hne. destruct name; [done|]. unfold len. simpl in *. lia. Qed.

Lemma name_at done name todo : names = done ++ name :: todo → request_ok writable fs fuel name.
Proof. intros ->. apply Forall_app in Hnames as [_ Hr]. by apply Forall_cons in Hr as [? _]. Qed.

(** A request of the client, in its block. *)
Lemma ask_step v done name todo : names = done ++ name :: todo → served v done (name :: todo) →
  wp (on_readable fuel fd v) (λ v', ∃ c, v' = asked_in_block fd name c v ∧ served v' done todo).
Proof.
  intros Hn (c & Hc & Hi & Ho & Hp). destruct (name_at _ _ _ Hn) as [H1 H2 _ _ _]. rewrite asked_cons in Hi.
  eapply wp_mono; [apply (on_readable_request fuel fd v name _ c Hc Hi (name_pos _ H1 H2)); lia|].
  intros v' (c' & -> & Hi' & Ho' & Hp'). exists c'. split; [done|]. exists c'. cbn. rewrite lookup_insert_eq.
  split_and!; [done|done|by rewrite Ho'|lia].
Qed.

(** The client's task, while its block is live. *)
Lemma answer_step v q b id done name todo : closures v !! id = Some (fd, b) →
  frames v !! b = Some (name ++ drop (length name) (replicate 256 0), len name) → disk v = fs →
  names = done ++ name :: todo → served v done todo →
  wp (run_task fuel id (set_tasks q (closures v) (next_task v) v)) (λ v', ∃ c,
    v' = set_conns (<[fd := c]> (conns v)) (set_tasks q (closures v) (next_task v) v) ∧ served v' (done ++ [name]) todo).
Proof.
  intros Hcl Hfr Hd Hn (c & Hc & Hi & Ho & Hp). destruct (name_at _ _ _ Hn) as [H1 _ _ H4 H5].
  unfold run_task. cbn [closures set_tasks frames conns disk]. rewrite Hcl, Hfr, Hc, Hd. apply wp_bind.
  eapply wp_mono; [by apply (SyncSendFile_spec fuel name _ fs c); [..|lia|]|].
  intros [[ok t] c'] (_ & Ho' & Hi' & Hp'). exists c'. split; [done|]. exists c'. cbn. rewrite lookup_insert_eq.
  split_and!; [done|congruence|by rewrite Ho', Ho, answers_snoc, app_assoc|lia].
Qed.

(** A readable client, seen from the session. *)
Lemma readable_keeps v g : disk v = fs → fd_wf (pool v) → _tasks (pool v) = [] → serving v →
  wpe (on_readable fuel g v) (λ v', session_inv (MkFiles (InBlock (next_frame v)) v')) (λ _, True).
Proof.
  intros Hd Hwf Hq Hs.
  assert (Hpush : ∀ id, fd_wf (fd_push g id (pool v))) by (intros id; apply fd_push_wf; [done|rewrite Hq; by apply not_elem_of_nil]).
  assert (Hmine : g = fd ∧ (∃ done name todo, names = done ++ name :: todo ∧ served v done (name :: todo)) ∨
                  (g = fd → fd ∉ closed v → ∃ c, conns v !! fd = Some c ∧ incoming c = [] ∧ (patience c ≤ pat)%nat)).
  { destruct Hs as [Hin|(don & [|name todo] & Hn & Hsv)]; [by right| |].
    - right. intros _ _. destruct Hsv as (c & ? & ? & _ & ?). by exists c.
    - destruct (decide (g = fd)); [left; split; [done|by exists don, name, todo]|by right]. }
  destruct Hmine as [[-> (don & name & todo & Hn & Hsv)]|Hend].
  - apply wpe_of_wp. eapply wp_mono; [by eapply ask_step|]. intros v' (c & -> & Hsv').
    split; [done|]. split; [apply Hpush|]. split; [done|]. eapply my_task; [..|exact Hn|exact Hsv'].
    + cbn. by rewrite Hq.
    + cbn. apply lookup_insert_eq.
    + cbn. apply lookup_insert_eq.
  - unfold on_readable. destruct (conns v !! g) as [c|] eqn:Hc.
    2: { split_and!; [done|done|done|by apply no_task]. }
    destruct (RecvBuff fuel _ c) as [[[l cmd] c']|] eqn:Hr; [|done]. cbn [mbind res_bind].
    assert (Hother : g = fd → fd ∉ closed v → l = 0).
    { intros -> Hin. destruct (Hend eq_refl Hin) as (c0 & Hc0 & Hi0 & Hp0). rewrite Hc in Hc0. injection Hc0 as <-.
      assert (H1 := RecvBuff_eof fuel (replicate 256 0) c Hi0 ltac:(lia)). by rewrite Hr in H1. }
    destruct (Z.ltb_spec 0 l) as [Hl|Hl].
    + assert (Hg : g = fd → fd ∈ closed v).
      { intros ->. destruct (decide (fd ∈ closed v)) as [|Hin]; [done|]. specialize (Hother eq_refl Hin). lia. }
      split; [done|]. split; [apply Hpush|]. split; [done|]. apply (other_task _ _ (next_task v) g).
      * cbn. by rewrite Hq.
      * cbn. apply lookup_insert_eq.
      * revert Hs. apply serving_same; [done|]. intros Hin. cbn. apply lookup_insert_ne. intros ->. by apply Hin, Hg.
      * done.
    + destruct (delCloseFD_ok g (pool v) Hwf) as (q & Hdel & Hwf' & Hq'). cbn. rewrite Hdel. cbn.
      split; [done|]. split; [done|]. split; [done|]. apply no_task.
      * cbn. by rewrite Hq', Hq.
      * destruct (decide (g = fd)) as [->|Hne]; [left; cbn; set_solver|].
        destruct Hs as [Hin|(don & todo & Hn & c0 & Hc0 & Hs)]; [left; cbn; set_solver|]. right. exists don, todo. split; [done|].
        exists c0. split; [|done]. cbn. rewrite lookup_delete_ne by done. by rewrite lookup_insert_ne.
Qed.

Lemma session_kept x y : session_inv x → in_time fuel x y → session_inv y.
Proof.
  intros (Hd & Hwf & Hidle & Ht) [Hstep Hblock]. remember (Ok y) as r eqn:Hy.
  destruct Hstep as [v g c Hg|v g|v b|a v Hne]; cbn [at_ srv] in *.
  - injection Hy as <-. split_and!; [done|done|done|]. apply no_task; [by apply Hidle|].
    inversion Ht as [? ? _ Hs| |]; subst. revert Hs. apply serving_same; [done|]. intros Hin. cbn.
    destruct (decide (g = fd)) as [->|]; [|by apply lookup_insert_ne]. exfalso.
    inversion Ht as [? ? _ [?|(? & ? & _ & c0 & ? & _)]| |]; congruence.
  - assert (Hs : serving v) by (inversion Ht; subst; done).
    pose proof (readable_keeps v g Hd Hwf (Hidle eq_refl) Hs) as Hk. destruct (on_readable fuel g v); [|done]. by injection Hy as <-.
  - injection Hy as <-. specialize (Hblock ltac:(done) eq_refl). apply fmap_nil_inv in Hblock.
    split_and!; [done|done|done|]. apply no_task; [done|].
    inversion Ht as [? ? _ Hs| |]; subst; [exact Hs|congruence..].
  - cbn in Hne. destruct (pool v) as [ts m] eqn:Hp. destruct ts as [|[id g] ts]; [done|].
    destruct (fd_pop_wf id g ts m) as (q & Hpop & Hwf' & Hq); [done|]. rewrite Hpop in Hy. cbn [mbind res_bind] in Hy.
    inversion Ht as [a0 v0 Hq0 _|b v0 id0 g0 Hq0 Hcl Hs Hg|b v0 id0 don name todo Hq0 Hcl Hfr Hn Hsv]; subst; rewrite Hp in Hq0; try done.
    + injection Hq0 as <- <- Hts. unfold run_task in Hy. cbn [closures set_tasks frames conns disk] in Hy. rewrite Hcl in Hy.
      destruct (frames v !! b) as [[cmd l]|]; [|done]. destruct (conns v !! g) as [c|] eqn:Hc.
      * destruct (SyncSendFile _ _ _ _ _ _) as [[[ok t] c']|]; [|done]. injection Hy as <-. split_and!; [done|done|done|].
        apply no_task; [done|]. revert Hs. apply serving_same; [done|]. intros Hin. cbn. apply lookup_insert_ne.
        intros ->. by apply Hin, Hg.
      * injection Hy as <-. split_and!; [done|done|done|]. apply no_task; [done|]. revert Hs. by apply serving_same.
    + injection Hq0 as <- -> Hts. pose proof (answer_step v q b id don name todo Hcl Hfr Hd Hn Hsv) as Ha.
      destruct (run_task _ _ _) as [v'|]; [|done]. injection Hy as <-. destruct Ha as (c & -> & Hsv').
      split_and!; [done|done|done|]. apply no_task; [done|]. right. exists (don ++ [name]), todo. split; [by rewrite <- app_assoc|done].
Qed.

(** The session's end: all that was asked is read, and no task is left. *)
Definition all_done (x : file_system S) (c : S) : Prop :=
  conns (srv x) !! fd = Some c ∧ incoming c = [] ∧ contents (pool (srv x)) = [] ∧ fd ∉ closed (srv x).

(** The loop and a worker can answer what is still to come: one event, its task,
    the end of the block, and so on. *)
Lemma session_ends todo : ∀ v done, disk v = fs → fd_wf (pool v) → _tasks (pool v) = [] → fd ∉ closed v →
  names = done ++ todo → served v done todo → ∃ x c, rtc (in_time fuel) (MkFiles Idle v) x ∧ all_done x c.
Proof.
  induction todo as [|name todo IH]; intros v don Hd Hwf Hq Hcl Hn Hs.
  - destruct Hs as (c & Hc & Hi & _). exists (MkFiles Idle v), c. split; [apply rtc_refl|].
    split_and!; [done|done|cbn; by rewrite Hq|done].
  - pose proof (f_readable fuel v fd) as H1. destruct (wp_elim _ _ (ask_step v don name todo Hn Hs)) as (v1 & Heq & c & -> & Hs1).
    rewrite Heq in H1. cbn [mbind res_bind mret res_ret] in H1. set (v1 := asked_in_block fd name c v) in *.
    assert (Hq1 : _tasks (pool v1) = [(next_task v, fd)]) by (unfold v1; cbn; by rewrite Hq).
    assert (Hwf1 : fd_wf (fd_push fd (next_task v) (pool v))) by (apply fd_push_wf; [done|rewrite Hq; by apply not_elem_of_nil]).
    change (fd_push _ _ _) with (pool v1) in Hwf1.
    destruct (pool v1) as [ts m] eqn:Hp. cbn [_tasks] in Hq1. subst ts.
    destruct (fd_pop_wf _ _ _ _ Hwf1) as (q & Hpop & Hwf2 & Hq2).
    pose proof (f_task fuel (InBlock (next_frame v)) v1) as H2. rewrite Hp, Hpop in H2. specialize (H2 ltac:(done)).
    destruct (wp_elim _ _ (answer_step v1 q (next_frame v) (next_task v) don name todo
      ltac:(cbn; apply lookup_insert_eq) ltac:(cbn; apply lookup_insert_eq) Hd Hn Hs1)) as (v2 & Heq2 & c2 & -> & Hs2).
    cbn [mbind res_bind] in H2. rewrite Heq2 in H2. cbn [mbind res_bind mret res_ret] in H2.
    set (v2 := set_conns _ _) in *. pose proof (f_leave fuel v2 (next_frame v)) as H3.
    destruct (IH (end_block (next_frame v) v2) (don ++ [name])) as (x & c' & Hr & Ha);
      [done|done|done|done|by rewrite <- app_assoc|done|].
    exists x, c'. split; [|done].
    eapply rtc_l; [by split; [exact H1|]|]. eapply rtc_l; [by split; [exact H2|]|].
    eapply rtc_l; [split; [exact H3|intros _ _; cbn; by rewrite Hq2]|done].
Qed.

Lemma session_answered x c : session_inv x → all_done x c → outgoing c = out ++ answers fs names.
Proof.
  intros (_ & _ & _ & Ht) (Hc & Hi & Hq & Hcl). apply fmap_nil_inv in Hq.
  destruct Ht as [a v _ Hs|b v ? ? ? _ _ _|b v ? ? ? ? ?]; cbn in *; [|congruence..].
  destruct Hs as [?|(don & todo & Hn & c' & Hc' & Hi' & Ho & _)]; [done|].
  rewrite Hc in Hc'. injection Hc' as <-. destruct todo as [|name todo]; [|rewrite asked_cons in Hi'; by rewrite Hi in Hi'].
  by rewrite Hn, app_nil_r.
Qed.
End Server.

(** C3: A whole session: the client's program, run with a list of names ("test"
    without arguments; each of 1 to 250 bytes without a zero, its copy writable at
    the client, its file not above the size the protocol allows), and the server,
    in every schedule in which each task runs before the block of its event ends,
    whatever other clients connect, send and close meanwhile.  The connection fails in no
    call; the sizes of the pieces it transfers are arbitrary, and the fuel is above
    the calls it may take.  Some such run reads all the requests and leaves no task.  After every run that does (with the client's descriptor not closed),
    the server has sent the answers in the order of the names; and the client
    that receives them has sent exactly those requests, exits with status 0,
    closes its socket, and has for each name, in their order, a copy equal byte
    for byte to the server's file, or an empty one for a name the server does not have. *)
Theorem sync_session {S} `{SocketLaws S} `{!Reliable S} inet_addr strerror socket connect writable
    fuel id fd names fs_cli v (c0 cli : S) :
  socket ≠ -1 → (∀ adr, connect socket adr = None) →
  Forall (request_ok writable (disk v) fuel) (requests names) →
  conns v !! fd = Some c0 → incoming c0 = asked (requests names) → outgoing c0 = [] → outgoing cli = [] →
  fd_wf (pool v) → contents (pool v) = [] → fd ∉ closed v →
  (2056 + patience c0 < fuel)%nat → (2056 + patience cli < fuel)%nat →
  (∃ x c, rtc (in_time fuel) (MkFiles Idle v) x ∧ all_done fd x c) ∧
  ∀ x c, rtc (in_time fuel) (MkFiles Idle v) x → all_done fd x c →
    outgoing c = answers (disk v) (requests names) ∧
    (incoming cli = outgoing c →
     wp (main inet_addr strerror socket connect writable fuel id (argument <$> names) (fs_cli, cli))
       (λ '(code, _, closed, (fs', cli')), code = 0 ∧ closed = socket ∧ outgoing cli' = incoming c0 ∧
          fs' = fetch (disk v) fs_cli (requests names) ∧
          ∀ name, name ∈ requests names → fs' !! copy_name name = Some (file_of (disk v) name))).
Proof.
  intros Hs Hc Hns Hconn Hin Ho Ho' Hwf Hq Hcl Hf1 Hf2. apply fmap_nil_inv in Hq.
  assert (Hsv : served fd (disk v) [] (patience c0) v [] (requests names)) by (exists c0; by split_and!).
  split; [by apply (session_ends fuel fd (disk v) [] (requests names) (patience c0) writable Hns Hf1 (requests names) v [])|].
  intros x c Hr Ha. assert (Hx : session_inv fd (disk v) [] (requests names) (patience c0) x).
  { assert (Hinv : session_inv fd (disk v) [] (requests names) (patience c0) (MkFiles Idle v)).
    { split_and!; [done|done|done|]. apply no_task; [done|]. right. by exists [], (requests names). }
    revert Hinv. induction Hr as [|x1 x2 x3 H1 _ IH]; [done|]. intros Hinv. apply IH; [done|].
    by apply (session_kept fuel fd (disk v) [] (requests names) (patience c0) writable Hns Hf1 x1 x2). }
  rewrite (session_answered _ _ _ _ _ x c Hx Ha). split; [done|]. intros Hcli. eapply wp_mono.
  { apply (main_spec inet_addr strerror socket connect writable (disk v) fuel id names [] fs_cli cli);
      [done..|by rewrite Hcli, app_nil_r|done]. }
  intros [[[code o] closed] [fs' cli']] (-> & -> & -> & _ & Ho3). split_and!; [done|done|by rewrite Ho3, Ho', Hin|done|].
  intros name Hn. by apply fetch_lookup.
Qed.

Definition session_srv : Tcp := MkTcp (asked [[97]; [98]]) [] [3; 0; 2]%nat.
Definition session_server : ServerImpl Tcp :=
  set_conns {[ 5 := session_srv; 6 := MkTcp (frame [97]) [] [] ]} (new_server {[ [97] := [1; 2; 3] ]}).

Definition session_cli : Tcp := MkTcp (answers {[ [97] := [1; 2; 3] ]} [[97]; [98]]) [] [1; 0; 5]%nat.

(** The server has "a" and not "b", and another client besides. *)
Lemma sync_session_witness :
  ∃ x c, rtc (in_time 3000) (MkFiles Idle session_server) x ∧ all_done 5 x c ∧ incoming session_cli = outgoing c ∧
    wp (main (λ _, 0) (λ _, []) 3 (λ _ _, None) (λ _, true) 3000 4 [[97; 0]; [98; 0]] (∅, session_cli))
       (λ '(code, _, _, (fs', _)), code = 0 ∧ fs' !! copy_name [97] = Some [1; 2; 3] ∧ fs' !! copy_name [98] = Some []).
Proof.
  assert (Hok : Forall (request_ok (λ _, true) {[ [97] := [1; 2; 3] ]} 3000) (requests [[97]; [98]])).
  { constructor; [|constructor; [|constructor]];
      (split; [split; [repeat constructor; lia|simpl; lia]|done|done|by vm_compute|by apply Nat.ltb_lt]). }
  destruct (sync_session (λ _, 0) (λ _, []) 3 (λ _ _, None) (λ _, true) 3000 4 5 [[97]; [98]] ∅ session_server
             session_srv session_cli) as [(x & c & Hr & Ha) Hall];
    [done|done|exact Hok|done|done|done|done|apply fd_wf_empty|done|apply not_elem_of_nil|vm_compute; lia|vm_compute; lia|].
  destruct (Hall x c Hr Ha) as [Ho Hm]. exists x, c. split; [done|]. split; [done|].
  assert (Hi : incoming session_cli = outgoing c) by (by rewrite Ho). split; [done|].
  eapply wp_mono; [exact (Hm Hi)|]. intros [[[code o] closed] [fs' cli']] (-> & _ & _ & _ & Hl).
  split_and!; [done|exact (Hl [97] ltac:(by left))|exact (Hl [98] ltac:(by right; left))].
Defined.

(** Without a connection the client asks for nothing and changes no file: it
    prints the reason, closes the descriptor it has and exits with -1. *)
Theorem client_no_connection {S} `{Socket S} (inet_addr : list Z → Z) (strerror : Z → list Z) (socket : Z) (connect : Z → sockaddr_in → option Z)
    (writable : list Z → bool) (fuel : nat) (id : Z)
    (args : list (list Z)) (st : fsys * S) :
  main inet_addr strerror socket connect writable fuel id args st =
  if socket =? -1 then Ok (-1, bytes "socket() error" ++ [10], -1, st)
  else match connect socket (MkAddr AF_INET 58915 (inet_addr SERVER_IP)) with
       | Some errno => Ok (-1, bytes "connect() error: " ++ fmt_d false 0 errno ++ [32] ++ strerror errno ++ [10], socket, st)
       | None => main inet_addr strerror socket (λ _ _, None) writable fuel id args st
       end.
Proof.
  unfold main, InitClient. destruct (Z.eqb_spec socket (-1)) as [->|Hs]; [done|].
  change (client_port (new_client SERVER_PORT SERVER_IP id)) with SERVER_PORT.
  change (htons SERVER_PORT) with 58915. by destruct (connect _ _).
Qed.
