(* ===== verification/SyncCut.v ===== *)
(** * tools/sync_file: a connection that ends before the answer is complete.

    [RecvBuff] ignores the results of its transfers, so the client works on
    whatever it has: this file says what becomes of the copy, for every point at
    which the answer can be cut. *)
From Stdlib Require Import SpecFloat.
From S2P Require Import Prelude CInt CArray Float64 EpollSocket SyncFile.

#[local] Arguments replicate : simpl never.
#[local] Arguments Z.to_nat : simpl never.
#[local] Arguments Z.mul : simpl never.

(** ** Lengths cut in the middle *)
Lemma le_value_cut h n z : (h ≤ n)%nat → 0 ≤ z →
  le_value (take h (le_bytes n z) ++ drop h (le_bytes n 0)) = z mod 256 ^ Z.of_nat h.
Proof.
  revert n z. induction h as [|h IH]; intros n z Hn Hz.
  - change (256 ^ Z.of_nat 0) with 1. rewrite Z.mod_1_r. cbn [take drop app].
    apply (le_value_bytes n 0). split; [lia|]. apply Z.pow_pos_nonneg; lia.
  - destruct n as [|n]; [lia|]. cbn [le_bytes take drop app le_value]. change (0 / 256) with 0.
    rewrite IH by (try apply Z.div_pos; lia). rewrite Nat2Z.inj_succ, Z.pow_succ_r by lia.
    rewrite Z.rem_mul_r by (try apply Z.pow_pos_nonneg; lia). done.
Qed.

(** The number read from the first bytes [inc] of a frame. *)
Definition frame_len (inc : list Z) : Z :=
  i64_of_bytes (take 8 inc ++ drop (length (take 8 inc)) (bytes_of_i64 0)).

Lemma length_i64 z : length (bytes_of_i64 z) = 8%nat.
Proof. unfold bytes_of_i64. by rewrite length_le_bytes. Qed.

Lemma frame_len_full n rest : INT64_MIN ≤ n ≤ INT64_MAX → frame_len (bytes_of_i64 n ++ rest) = n.
Proof.
  intros Hn. unfold frame_len. rewrite take_app_length' by exact (length_i64 n). by rewrite i64_bytes_round.
Qed.

Lemma frame_len_cut n m : 0 ≤ n ≤ INT64_MAX → (m ≤ 8)%nat →
  frame_len (take m (bytes_of_i64 n)) = n mod 256 ^ Z.of_nat m.
Proof.
  intros Hn Hm. unfold frame_len, i64_of_bytes. rewrite take_take, Nat.min_r by lia.
  rewrite length_take, length_i64, Nat.min_l by lia.
  rewrite take_ge by (rewrite length_app, length_take, length_drop, !length_i64; lia).
  unfold bytes_of_i64. rewrite !to_u64_id by int_lia. rewrite le_value_cut by lia.
  apply to_i64_id. pose proof (Z.mod_le n (256 ^ Z.of_nat m)) as H1.
  pose proof (Z.mod_pos_bound n (256 ^ Z.of_nat m)) as H2.
  assert (0 < 256 ^ Z.of_nat m) by (apply Z.pow_pos_nonneg; lia). specialize (H1 ltac:(lia) ltac:(lia)). int_lia.
Qed.

Section Receive.
Context {S : Type} `{SocketLaws S} `{!Reliable S}.

(** [RecvBuff] whatever there is to receive. *)
Lemma RecvBuff_any fuel buff (s : S) :
  let n := frame_len (incoming s) in
  let data := take (Z.to_nat n) (drop 8 (incoming s)) in
  0 ≤ n ≤ INT64_MAX → len data ≤ len buff → (8 + Z.to_nat n + patience s < fuel)%nat →
  wp (RecvBuff fuel buff s) (λ '(l, buff', s'), l = n ∧ buff' = data ++ drop (length data) buff ∧
     incoming s' = drop (Z.to_nat n) (drop 8 (incoming s)) ∧ outgoing s' = outgoing s ∧ (patience s' ≤ patience s)%nat).
Proof.
  intros n data Hn Hb Hf. unfold RecvBuff.
  pose proof (RecvSocket_spec fuel (bytes_of_i64 0) 8 s ltac:(int_lia) ltac:(lia)) as H1.
  destruct (RecvSocket fuel (bytes_of_i64 0) 8 s) as [[[r1 b1] s1]|e]; simpl in H1 |- *.
  2: { destruct H1 as [_ H1]. rewrite len_bytes_of_i64 in H1. lia. }
  destruct H1 as (_ & _ & Hb1 & Hi1 & Ho1 & Hp1). change (Z.to_nat 8) with 8%nat in *.
  assert (Hn1 : i64_of_bytes b1 = n) by (rewrite Hb1; done). rewrite Hn1.
  pose proof (RecvSocket_spec fuel buff n s1 Hn ltac:(lia)) as H2.
  destruct (RecvSocket fuel buff n s1) as [[[r2 b2] s2]|e]; simpl in H2 |- *.
  - destruct H2 as (_ & _ & Hb2 & Hi2 & Ho2 & Hp2). rewrite Hi1 in Hb2, Hi2. split_and!; try done; [congruence|lia].
  - destruct H2 as [_ H2]. rewrite Hi1 in H2. unfold data, len in *. rewrite length_take in Hb. lia.
Qed.

(** At the end of the stream it returns 0 and leaves the buffer alone. *)
Lemma RecvBuff_end fuel buff (s : S) : incoming s = [] → (8 + patience s < fuel)%nat →
  wp (RecvBuff fuel buff s) (λ '(l, buff', s'), l = 0 ∧ buff' = buff ∧
     incoming s' = [] ∧ outgoing s' = outgoing s ∧ (patience s' ≤ patience s)%nat).
Proof.
  intros Hi Hf. pose proof (RecvBuff_any fuel buff s) as Ha. rewrite Hi in Ha.
  change (frame_len []) with 0 in Ha. cbn [drop] in Ha. rewrite take_nil, drop_nil in Ha. apply Ha; [int_lia| |lia].
  pose proof (len_nonneg buff). change (len []) with 0. lia.
Qed.
End Receive.

(** ** The loop over the pieces *)

(** What can be left of a file: its beginning, then zeros, no longer than it. *)
Definition damaged (c copy : list Z) : Prop :=
  ∃ j z, (j < length c)%nat ∧ (j + z ≤ length c)%nat ∧ copy = take j c ++ replicate z 0.

Section Loop.
Context {S : Type} `{SocketLaws S} `{!Reliable S}.
Context (P : Z) (HP : 0 < P ≤ 2 ^ 20) (c : list Z) (Hc : len c ≤ P * INT_MAX).
Abbreviation zeros := (replicate (Z.to_nat P) 0).

(** Either the stream goes on with a part of the frames from piece [i] on, or it
    has ended. *)
Definition cut_state (i : nat) (copy inc : list Z) : Prop :=
  (copy = take (upto P i) c ∧ ∃ m, inc = take m (tail_from P c i) ∧ (m < length (tail_from P c i))%nat) ∨
  (inc = [] ∧ damaged c copy).

(** One piece: [n] bytes are written, those of [data] received. *)
Lemma cut_state_step i copy inc :
  (i < piece_count P c)%nat → cut_state i copy inc →
  let n := frame_len inc in
  let data := take (Z.to_nat n) (drop 8 inc) in
  0 ≤ n ≤ P ∧ (length data ≤ Z.to_nat n)%nat ∧
  cut_state (Datatypes.S i) (copy ++ data ++ replicate (Z.to_nat n - length data) 0) (drop (Z.to_nat n) (drop 8 inc)).
Proof using HP.
  intros Hi [[-> (m & -> & Hm)]|[-> Hd]].
  2: { intros n data. unfold data, n. change (frame_len []) with 0. rewrite !drop_nil, take_nil. cbn [app length]. split; [lia|]. split; [lia|].
       right. split; [done|]. change (replicate (Z.to_nat 0 - 0) 0) with (@nil Z). by rewrite app_nil_r. }
  intros n data. pose proof (piece_len P ltac:(lia) c i Hi) as Hl. set (p := piece P c i) in *.
  assert (Hp : p = take (Z.to_nat P) (drop (upto P i) c)) by done.
  pose proof (upto_lt P ltac:(lia) c i Hi) as Hui.
  assert (Hlen : (upto P i + length p ≤ length c)%nat).
  { rewrite Hp, length_take, length_drop. lia. }
  assert (Htake : ∀ g, (g ≤ length p)%nat → take (upto P i) c ++ take g p = take (upto P i + g) c).
  { intros g Hg. rewrite Hp, take_take, Nat.min_l; [by rewrite take_take_drop|]. rewrite Hp, length_take in Hg. lia. }
  rewrite tail_from_S in Hm by done. fold p in Hm. unfold data, n. rewrite tail_from_S by done. fold p.
  unfold frame in *. rewrite <- app_assoc in *. set (T := tail_from P c (Datatypes.S i)) in *.
  rewrite !length_app, length_i64 in Hm. unfold len in Hl.
  destruct (decide (m < 8)%nat) as [Hm8|Hm8].
  - rewrite take_app_le by (rewrite length_i64; lia). rewrite frame_len_cut by (unfold len; int_lia || lia).
    assert (H256 : 0 < 256 ^ Z.of_nat m) by (apply Z.pow_pos_nonneg; lia).
    pose proof (Z.mod_pos_bound (len p) _ H256) as [Hlo _]. pose proof (Z.mod_le (len p) _ ltac:(unfold len; lia) H256) as Hhi.
    set (l := len p mod 256 ^ Z.of_nat m) in *. unfold len in Hhi.
    rewrite (drop_ge (take m _)) by (rewrite length_take, length_i64; lia). rewrite take_nil, drop_nil. cbn [length app].
    split; [lia|]. split; [lia|]. right. split; [done|]. exists (upto P i), (Z.to_nat l). split_and!; [done|lia|].
    by rewrite Nat.sub_0_r.
  - assert (Hinc : take m (bytes_of_i64 (len p) ++ p ++ T) = bytes_of_i64 (len p) ++ take (m - 8) (p ++ T)).
    { rewrite take_app, length_i64. rewrite take_ge; [done|]. rewrite length_i64. lia. }
    rewrite Hinc, frame_len_full by (unfold len; int_lia). rewrite drop_app_length' by apply (length_i64 (len p)).
    replace (Z.to_nat (len p)) with (length p) by (unfold len; lia).
    split; [unfold len; lia|]. split; [rewrite length_take; lia|]. destruct (decide (m - 8 < length p)%nat) as [Hmp|Hmp].
    + rewrite (take_app_le p) by lia. rewrite (take_ge (take _ p)), (drop_ge (take _ p)) by (rewrite length_take; lia).
      right. split; [done|]. exists (upto P i + (m - 8))%nat, (length p - (m - 8))%nat.
      split_and!; [lia|lia|]. rewrite app_assoc, Htake by lia. by rewrite length_take, Nat.min_l by lia.
    + rewrite take_app, (take_ge p) by lia. rewrite take_app_length, drop_app_length, Nat.sub_diag.
      change (replicate 0 0) with (@nil Z). rewrite app_nil_r. left. split; [by rewrite piece_take by lia|].
      exists (m - 8 - length p)%nat. split; [done|]. fold T. lia.
Qed.

Definition cut_inv (fs0 : fsys) (name fn : list Z) (s0 : S) (st : loop_state (fsys * SyncFileTool * S)) : Prop :=
  let i := (piece_count P c - Z.to_nat (file_arr st))%nat in
  0 ≤ file_arr st ≤ Z.of_nat (piece_count P c) ∧ buff_len st = P ∧ buff st = zeros ∧
  index st = Z.of_nat i ∧ 0 ≤ sum_index st ≤ P * Z.of_nat i ∧
  (∃ copy, (inner st).1 = (<[name := copy]> fs0, MkTool fn (Some (MkStream name (len copy) false))) ∧
     cut_state i copy (incoming (inner st).2)) ∧
  outgoing (inner st).2 = outgoing s0 ∧ (patience (inner st).2 ≤ patience s0)%nat.

Lemma cut_piece_step fuel fs0 name fn s0 st :
  (8 + Z.to_nat P + patience s0 < fuel)%nat → cut_inv fs0 name fn s0 st → file_arr st ≠ 0 →
  wp (recv_piece fuel P st) (λ st', cut_inv fs0 name fn s0 st' ∧ file_arr st' = file_arr st - 1).
Proof using All.
  intros Hf (Ha & Hbl & Hb & Hix & Hsum & (copy & Ht & Hcut) & Hout & Hp) Hne.
  destruct st as [a bl ix sm bf [[fs t] s]]. simpl in *. subst bl bf ix. injection Ht as -> ->.
  destruct (piece_index P c a Ha Hne) as [Hk HS]. set (k := (piece_count P c - Z.to_nat a)%nat) in *.
  pose proof (piece_count_max P ltac:(lia) c Hc) as HN.
  destruct (cut_state_step k copy _ Hk Hcut) as (Hn & Hd & Hcut'). set (n := frame_len _) in *. set (data := take _ _) in *.
  assert (Hlz : len zeros = P) by (unfold len; rewrite length_replicate; lia).
  unfold recv_piece. simpl. unfold isub. rewrite chk32_ok by int_lia. simpl.
  rewrite ladd_ok by int_lia. cbn [mbind res_bind]. apply wp_bind. eapply wp_mono.
  { apply (RecvBuff_any fuel zeros s); fold n; fold data; [int_lia| |lia]. rewrite Hlz. unfold len. lia. }
  fold n. fold data. intros [[l bf'] s'] (-> & -> & Hin' & Hout' & Hp').
  assert (Hmax2 : P * INT_MAX ≤ 2 ^ 20 * INT_MAX) by (apply Z.mul_le_mono_nonneg_r; int_lia).
  assert (HPk : P * Z.of_nat k + P ≤ P * INT_MAX).
  { replace (P * Z.of_nat k + P) with (P * (Z.of_nat k + 1)) by lia. apply Z.mul_le_mono_nonneg_l; lia. }
  rewrite ladd_ok by int_lia. cbn [mbind res_bind].
  set (w := data ++ replicate (Z.to_nat n - length data) 0) in *.
  assert (Hw : data ++ drop (length data) zeros = w ++ drop (Z.to_nat n) zeros ∧ len w = n).
  { unfold w. rewrite !drop_replicate, <- app_assoc, <- replicate_add. split; [do 2 f_equal; lia|].
    unfold len. rewrite length_app, length_replicate. lia. }
  destruct Hw as [-> Hlw]. pose proof (WriteFile_piece fs0 fn name copy w (drop (Z.to_nat n) zeros)) as HW.
  rewrite Hlw in HW. rewrite HW. cbn [mbind res_bind].
  split; [|done]. unfold cut_inv. simpl. rewrite HS. split_and!; done || lia || (try congruence).
  exists (copy ++ w). rewrite len_app, Hlw. split; [done|]. by rewrite Hin'.
Qed.

Lemma cut_loop fuel fs0 name fn s0 st :
  (8 + Z.to_nat P + patience s0 < fuel)%nat → (piece_count P c < fuel)%nat → cut_inv fs0 name fn s0 st →
  wp (while fuel more (recv_piece fuel P) st)
    (λ st', ∃ copy, damaged c copy ∧ (inner st').1.1 = <[name := copy]> fs0).
Proof using All.
  intros Hf Hf2 Hinv.
  apply (wp_while (cut_inv fs0 name fn s0) (λ st, Z.to_nat (file_arr st))); [|done|destruct Hinv; lia].
  intros st1 Hi. unfold more. simpl. destruct (Z.eqb_spec (file_arr st1) 0) as [He|He]; simpl.
  - destruct Hi as (_ & _ & _ & _ & _ & (copy & Ht & Hcut) & _). rewrite He, Nat.sub_0_r in Hcut. rewrite Ht.
    exists copy. split; [|done]. destruct Hcut as [[_ (m & _ & Hm)]|[_ ?]]; [|done].
    unfold tail_from in Hm. rewrite Nat.sub_diag in Hm. simpl in Hm. lia.
  - eapply wp_mono; [by apply (cut_piece_step fuel fs0 name fn s0)|].
    intros st2 [Hi2 He2]. split; [done|]. destruct Hi as [? _]. lia.
Qed.
End Loop.

(** ** The header of the answer *)

(** Dividing by zero gives no number. *)
Lemma file_pieces_zero n : file_pieces n 0 = Err BadCast.
Proof.
  unfold file_pieces, f64_to_i32. change (f64_of_Z 0) with f64_zero. unfold f64_zero, f64_div, SFdiv.
  by destruct (f64_of_Z n).
Qed.

(** The two numbers of the header when [g] bytes of it arrive. *)
Lemma infos_cut n g : 0 ≤ n ≤ INT64_MAX →
  let infos := bytes_of_i64 n ++ bytes_of_i64 2048 in
  let got := take g infos ++ drop (length (take g infos)) (bytes_of_i64 0 ++ bytes_of_i64 0) in
  i64_of_bytes (drop 8 got) = (if (g <? 10)%nat then 0 else 2048) ∧
  ((10 ≤ g)%nat → i64_of_bytes got = n).
Proof.
  intros Hn infos got. destruct (decide (g < 8)%nat) as [Hg|Hg].
  - rewrite (proj2 (Nat.ltb_lt _ _)) by lia. split; [|lia]. unfold got, infos.
    rewrite take_app_le by (rewrite length_i64; lia). rewrite length_take, length_i64, Nat.min_l by lia.
    rewrite (drop_app_le (bytes_of_i64 0)) by (rewrite length_i64; lia). rewrite app_assoc, drop_app_length'; [done|].
    rewrite length_app, length_take, length_drop, !length_i64. lia.
  - assert (Hgot : got = bytes_of_i64 n ++ take (g - 8) (bytes_of_i64 2048) ++
                     drop (length (take (g - 8) (bytes_of_i64 2048))) (bytes_of_i64 0)).
    { unfold got, infos. rewrite take_app, length_i64, take_ge by (rewrite length_i64; lia).
      rewrite length_app, length_i64, drop_app_ge by (rewrite length_i64; lia).
      rewrite length_i64, <- app_assoc. do 3 f_equal. lia. }
    rewrite Hgot. split; [|intros _; by rewrite i64_bytes_round by int_lia].
    rewrite drop_app_length' by apply (length_i64 n).
    assert (Hfl : ∀ m, i64_of_bytes (take m (bytes_of_i64 2048) ++ drop (length (take m (bytes_of_i64 2048))) (bytes_of_i64 0)) =
                       frame_len (take m (bytes_of_i64 2048))).
    { intros m. unfold frame_len. rewrite (take_ge (take m _) 8); [done|]. rewrite length_take, length_i64. lia. }
    rewrite Hfl. destruct (Nat.ltb_spec g 10) as [H10|H10].
    + assert (g - 8 = 0 ∨ g - 8 = 1)%nat as [-> | ->] by lia; done.
    + destruct (decide (g - 8 < 8)%nat) as [H8|H8].
      * rewrite frame_len_cut by int_lia || lia. apply Z.mod_small. split; [lia|].
        apply (Z.lt_le_trans _ (256 ^ 2)); [lia|]. apply Z.pow_le_mono_r; lia.
      * rewrite take_ge by (rewrite length_i64; lia). done.
Qed.

Section Cut.
Context (writable : list Z → bool) {S : Type} `{SocketLaws S} `{!Reliable S}.

Lemma recv_answer_cut fuel fs name fn c N (s : S) :
  c ≠ [] → len c ≤ 2048 * INT_MAX → (N < length (reply c))%nat → incoming s = take N (reply c) →
  (2056 + patience s < fuel)%nat → (piece_count 2048 c < fuel)%nat →
  let answer := recv_answer fuel (<[name := []]> fs) (MkTool fn (Some (MkStream name 0 false))) s in
  if (N <? 18)%nat then answer = Err BadCast
  else wp answer (λ '(ok, fs', t, s'), ok = true ∧ ∃ copy, damaged c copy ∧ fs' = <[name := copy]> fs).
Proof.
  intros Hne Hmax HN Hin Hf Hf2 answer. unfold answer, recv_answer.
  set (infos := bytes_of_i64 (len c) ++ bytes_of_i64 2048).
  pose proof (len_nonneg c) as Hc0.
  assert (Hli : len infos = 16) by (unfold infos; by rewrite len_app, !len_bytes_of_i64).
  assert (Hreply : reply c = bytes_of_i64 16 ++ infos ++ pieces 2048 c (piece_count 2048 c)).
  { unfold reply, frame. fold infos. by rewrite Hli, <- app_assoc. }
  assert (Hn : frame_len (incoming s) = (if (N <? 1)%nat then 0 else 16)).
  { rewrite Hin, Hreply. destruct (Nat.ltb_spec N 1) as [?|H1]; [by replace N with 0%nat by lia|].
    destruct (decide (N < 8)%nat).
    - rewrite take_app_le by (rewrite length_i64; lia). rewrite frame_len_cut by int_lia || lia.
      apply Z.mod_small. split; [lia|]. apply (Z.lt_le_trans _ (256 ^ 1)); [lia|]. apply Z.pow_le_mono_r; lia.
    - rewrite take_app, (take_ge (bytes_of_i64 16)) by (rewrite length_i64; lia). rewrite frame_len_full by int_lia. done. }
  assert (Hd8 : drop 8 (incoming s) = take (N - 8) (infos ++ pieces 2048 c (piece_count 2048 c))).
  { rewrite Hin, Hreply, skipn_firstn_comm. done. }
  assert (Hli' : length infos = 16%nat) by (unfold len in Hli; lia).
  assert (Hdata : take (Z.to_nat (frame_len (incoming s))) (drop 8 (incoming s)) = take (N - 8) infos).
  { rewrite Hn, Hd8. destruct (Nat.ltb_spec N 1) as [?|H1].
    - by replace (N - 8)%nat with 0%nat by lia.
    - change (Z.to_nat 16) with 16%nat. rewrite take_take, Nat.min_comm, <- take_take.
      rewrite take_app_length' by done. done. }
  pose proof (RecvBuff_any fuel (bytes_of_i64 0 ++ bytes_of_i64 0) s) as Hr. cbv zeta in Hr. rewrite Hdata in Hr.
  destruct (infos_cut (len c) (N - 8) ltac:(int_lia)) as [Hsplit Hlen]. fold infos in Hsplit, Hlen.
  assert (Hn16 : 0 ≤ frame_len (incoming s) ≤ 16) by (rewrite Hn; destruct (N <? 1)%nat; lia).
  destruct (RecvBuff fuel _ s) as [[[l got] s2]|].
  2: { exfalso. apply Hr.
       - clear -Hn16. int_lia.
       - rewrite len_app, !len_bytes_of_i64. unfold len. rewrite length_take. lia.
       - lia. }
  destruct Hr as (_ & -> & Hi2 & _ & Hp2).
  { clear -Hn16. int_lia. }
  { rewrite len_app, !len_bytes_of_i64. unfold len. rewrite length_take. lia. }
  { lia. }
  cbn [mbind res_bind]. rewrite Hsplit. destruct (Nat.ltb_spec N 18) as [H18|H18].
  - rewrite (proj2 (Nat.ltb_lt (N - 8) 10)) by lia. by rewrite file_pieces_zero.
  - rewrite (proj2 (Nat.ltb_ge (N - 8) 10)) by lia. rewrite Hlen by lia.
    rewrite file_pieces_ok by lia. cbn [mbind res_bind].
    rewrite (proj2 (Z.ltb_ge 2048 1)) by lia. cbn [mbind res_bind mret res_ret].
    apply wp_bind. pose proof (piece_count_cdiv 2048 ltac:(lia) c) as Hpc. eapply wp_mono.
    { apply (cut_loop 2048 ltac:(lia) c Hmax fuel fs name fn s2); [lia|done|].
      unfold cut_inv. cbn [file_arr buff_len buff index sum_index inner fst snd].
      replace (piece_count 2048 c - Z.to_nat (cdiv (len c) 2048))%nat with 0%nat by lia.
      split_and!; try done; try lia. exists []. split; [done|]. left. split; [done|].
      assert (Htail : tail_from 2048 c 0 = pieces 2048 c (piece_count 2048 c)).
      { unfold tail_from, pieces. by rewrite Nat.sub_0_r. }
      exists (N - 24)%nat. rewrite Htail. split.
      - rewrite Hi2, Hn, Hd8. rewrite (proj2 (Nat.ltb_ge N 1)) by lia. change (Z.to_nat 16) with 16%nat.
        rewrite skipn_firstn_comm, drop_app_length' by done. f_equal. lia.
      - rewrite Hreply, !length_app, length_i64, Hli' in HN. destruct (decide (N < 24)%nat) as [H24|]; [|lia].
        assert (Hpos : (0 < piece_count 2048 c)%nat).
        { assert (0 < len c) by (destruct c; [done|unfold len; cbn; lia]).
          pose proof (cdiv_spec (len c) 2048 ltac:(lia)). lia. }
        rewrite <- Htail, tail_from_S by done. unfold frame. rewrite !length_app, length_i64. lia. }
    intros [a bl ix sm bf [[fs' t] s3]] (copy & Hd & Hfs). cbn [inner fst snd] in *. split; [done|]. by exists copy.
Qed.
End Cut.

(** ** Property *)

(** C23: The answer of a server for a file [c] (not empty), cut after [N] bytes by
    the end of the stream, for every [N]: when less than the number of bytes of a
    piece arrives (18 bytes) the client divides by zero and converts the quotient,
    no number, to an [int]; otherwise [SyncRecvFile] reports success and leaves a
    copy that is a proper beginning of the file and zeros up to at most its
    length. *)
Theorem sync_cut {S} `{SocketLaws S} `{!Reliable S} writable fuel name rest fs c N (s : S) :
  name_ok name → writable (copy_name name) = true → c ≠ [] → len c ≤ 2048 * INT_MAX →
  (N < length (reply c))%nat → incoming s = take N (reply c) →
  (2056 + patience s < fuel)%nat → (piece_count 2048 c < fuel)%nat →
  let r := SyncRecvFile writable fuel (name ++ 0 :: rest) (len name) fs new_tool s in
  if (N <? 18)%nat then r = Err BadCast
  else wp r (λ '(ok, fs', t, s'), ok = true ∧ ∃ copy, damaged c copy ∧ fs' = <[copy_name name := copy]> fs).
Proof.
  intros Hn Hw Hne Hmax HN Hin Hf Hf2 r. unfold r.
  destruct (SyncRecvFile_request writable fuel name rest fs s Hn Hw Hf) as (fn & s1 & -> & _ & Hi1 & Hp1).
  rewrite Hin in Hi1. apply (recv_answer_cut fuel fs _ fn c N s1); done || lia.
Qed.

(** A file of five bytes of which two arrive. *)
Lemma sync_cut_witness :
  wp (SyncRecvFile (λ _, true) 3000 [98; 0] 1 ∅ new_tool (MkTcp (take 34 (reply [1; 2; 3; 4; 5])) [] [1; 0; 3]%nat))
    (λ '(ok, fs', t, s'), ok = true ∧ ∃ copy, damaged [1; 2; 3; 4; 5] copy ∧ fs' = {[ [98; 46; 99; 111; 112; 121] := copy ]}).
Proof.
  apply (sync_cut (λ _, true) 3000 [98] [] ∅ [1; 2; 3; 4; 5] 34 (MkTcp (take 34 (reply [1; 2; 3; 4; 5])) [] [1; 0; 3]%nat)).
  - split; [repeat constructor; lia|simpl; lia].
  - done.
  - done.
  - unfold len. simpl. int_lia.
  - apply Nat.ltb_lt; by vm_compute.
  - done.
  - change (patience _) with 3%nat. lia.
  - change (piece_count 2048 [1; 2; 3; 4; 5]) with 1%nat. lia.
Defined.
