(* ===== verification/SelectChat.v ===== *)
(** * socket/select/server.cc and client.cc: a chat between a server and the
    clients connected to it.

    The server's three threads (accept, receive, send) share the [std::list] of
    connections without a lock, so it is a step relation whose steps are the
    accesses to that list.  Buffers are lists of cells, [None] an indeterminate
    one.  What [accept], [select], [recv] and the keyboard give are parameters. *)
From S2P Require Import Prelude CInt CArray CStdio CNet.

(** ** C buffers *)
Definition BUFFER_SIZE : Z := 1024.
Definition FD_SETSIZE : Z := 1024.
Abbreviation buffer := (list (option Z)).

Definition uninit : buffer := replicate 1024 None.
Definition zeroed : buffer := replicate 1024 (Some 0).

(** The bytes stored at the start of a buffer that holds them. *)
Definition store (bs : list Z) (buf : buffer) : buffer := (Some <$> bs) ++ drop (length bs) buf.

(** The C string at the start of a buffer, which [printf("%s")] and [strlen]
    read. *)
Fixpoint c_str (buf : buffer) : res (list Z) :=
  match buf with
  | [] => Err OutOfBounds
  | None :: _ => Err Uninit
  | Some b :: buf => if b =? 0 then mret [] else s ← c_str buf; mret (b :: s)
  end.

(** [fgets]: up to [n - 1] characters, not beyond the end of a line, and a zero;
    nothing at the end of the input. *)
Fixpoint line (n : nat) (input : list Z) : list Z :=
  match n, input with
  | S n, c :: input => c :: (if c =? 10 then [] else line n input)
  | _, _ => []
  end.
Definition fgets (input : list Z) (buf : buffer) : buffer * list Z :=
  let l := line (Z.to_nat BUFFER_SIZE - 1) input in
  (if bool_decide (l = []) then buf else store (l ++ [0]) buf, drop (length l) input).

(** [FD_SET] writes a bit of an array of [FD_SETSIZE]. *)
Definition FD_SET (fd : Z) : res unit := if (0 <=? fd) && (fd <? FD_SETSIZE) then mret tt else Err OutOfBounds.

(** ** The server *)

(** [select] on one descriptor: an error, a timeout, or ready, and the time left
    in [tv] (which Linux writes back). *)
Inductive select_result : Type := SelError | SelTimeout | SelReady.

(** An iterator: a node, by its position (nodes are only added at the end), or
    [end()]. *)
Abbreviation iterator := (option nat).

(** Where each thread is.  [getConn]: at [accept], with a connection to add, or
    with one to print.
    The others: at [begin()], at the test of the loop, at [++it]; [sendMess]
    also at [fgets], and with its buffer in the loop. *)
Inductive conn_pc : Type := CAccept | CPush (conn : Z) | CShow (conn : Z).
Inductive data_pc : Type := DBegin | DTest (it : iterator) | DNext (it : iterator).
Inductive send_pc : Type := SGets | SBegin (buf : buffer) | STest (it : iterator) (buf : buffer)
  | SNext (it : iterator) (buf : buffer).

(** [shown] is what [printf] wrote, [sent] what each [send] transmitted, newest last; [stack]
    what is left of an earlier [buf] where [sendMess] has its own. *)
Record ChatServer : Type := MkChat {
  li : list Z;
  tv : Z;
  getConn : conn_pc;
  getData : data_pc;
  sendMess : send_pc;
  stdin : list Z;
  stack : buffer;
  shown : list (list Z);
  sent : list (Z * buffer);
}.

Definition new_chat (input : list Z) (junk : buffer) : ChatServer :=
  MkChat [] 2000000 CAccept DBegin SGets input junk [] [].

Definition set_conn (pc : conn_pc) (l : list Z) (out : list (list Z)) (s : ChatServer) : ChatServer :=
  MkChat l (tv s) pc (getData s) (sendMess s) (stdin s) (stack s) out (sent s).
Definition set_data (pc : data_pc) (t : Z) (out : list (list Z)) (s : ChatServer) : ChatServer :=
  MkChat (li s) t (getConn s) pc (sendMess s) (stdin s) (stack s) out (sent s).
Definition set_send (pc : send_pc) (input : list Z) (junk : buffer) (out : list (Z * buffer)) (s : ChatServer) :
    ChatServer :=
  MkChat (li s) (tv s) (getConn s) (getData s) pc input junk (shown s) out.

(** [begin()] and [++it]. *)
Definition begin (l : list Z) : iterator := match l with [] => None | _ => Some 0%nat end.
Definition incr (i : nat) (l : list Z) : iterator := if decide (S i < length l)%nat then Some (S i) else None.

(** The body of [getData]'s loop for one connection: what it prints.  [bytes] are
    what [recv] gives, at most [sizeof(buf)]. *)
Definition receive (fd : Z) (r : select_result) (bytes : list Z) : res (list (list Z)) :=
  _ ← FD_SET fd;
  match r with
  | SelError => mret [CStdio.bytes "select error" ++ [10]]
  | SelTimeout => mret []
  | SelReady => text ← c_str (store bytes zeroed); mret [text]
  end.

(** One access to the list, or one call.  [send] transmits the first [n] bytes of
    its buffer, none when it fails. *)
Inductive step (s : ChatServer) : res ChatServer → Prop :=
  | c_accept conn : getConn s = CAccept → -1 ≤ conn →
      step s (Ok (set_conn (CPush conn) (li s) (shown s) s))
  | c_push conn : getConn s = CPush conn →
      step s (Ok (set_conn (CShow conn) (li s ++ [conn]) (shown s) s))
  | c_show conn : getConn s = CShow conn →
      step s (Ok (set_conn CAccept (li s) (shown s ++ [fmt_d false 0 conn ++ [10]]) s))
  | d_begin : getData s = DBegin →
      step s (Ok (set_data (DTest (begin (li s))) (tv s) (shown s) s))
  | d_end : getData s = DTest None →
      step s (Ok (set_data DBegin (tv s) (shown s) s))
  | d_body i fd r t bytes : getData s = DTest (Some i) → li s !! i = Some fd →
      0 ≤ t ≤ tv s → len bytes ≤ BUFFER_SIZE →
      step s (out ← receive fd r bytes; mret (set_data (DNext (Some i)) t (shown s ++ out) s))
  | d_next i : getData s = DNext (Some i) →
      step s (Ok (set_data (DTest (incr i (li s))) (tv s) (shown s) s))
  | s_gets buf input : sendMess s = SGets → fgets (stdin s) (stack s) = (buf, input) →
      step s (Ok (set_send (SBegin buf) input buf (sent s) s))
  | s_begin buf : sendMess s = SBegin buf →
      step s (Ok (set_send (STest (begin (li s)) buf) (stdin s) (stack s) (sent s) s))
  | s_end buf : sendMess s = STest None buf →
      step s (Ok (set_send SGets (stdin s) (stack s) (sent s) s))
  | s_body i fd buf n : sendMess s = STest (Some i) buf → li s !! i = Some fd → (n ≤ length buf)%nat →
      step s (Ok (set_send (SNext (Some i) buf) (stdin s) (stack s) (sent s ++ [(fd, take n buf)]) s))
  | s_next i buf : sendMess s = SNext (Some i) buf →
      step s (Ok (set_send (STest (incr i (li s)) buf) (stdin s) (stack s) (sent s) s)).

(** [main]: the server's address, and the state its threads start in; [None] when
    [bind] or [listen] fails and the program exits with status 1. *)
Definition PORT : Z := 7000.
Definition chat_addr (inet_addr : list Z → Z) : sockaddr_in :=
  MkAddr AF_INET (htons PORT) (inet_addr (CStdio.bytes "127.0.0.1")).
Definition chat_main (inet_addr : list Z → Z) (bind : sockaddr_in → bool) (listen : bool) (input : list Z) (junk : buffer) :
    option ChatServer :=
  if negb (bind (chat_addr inet_addr)) then None
  else if negb listen then None
  else Some (new_chat input junk).

Definition reachable (input : list Z) (junk : buffer) (s : ChatServer) : Prop :=
  rtc (λ s s', step s (Ok s')) (new_chat input junk) s.

(** *** Data races

    The list's nodes are linked through [next] fields, the list's own (read by
    [begin()]) and each node's (read by [++it]); [push_back] writes the last one.
    Two threads at such accesses to one field race, which is undefined. *)
Inductive field : Type := ListNext | NodeNext (i : nat).
Definition last_field (l : list Z) : field := match l with [] => ListNext | _ => NodeNext (length l - 1) end.

Definition conn_writes (s : ChatServer) : option field :=
  match getConn s with CPush _ => Some (last_field (li s)) | _ => None end.
Definition data_reads (s : ChatServer) : option field :=
  match getData s with DBegin => Some ListNext | DNext (Some i) => Some (NodeNext i) | _ => None end.
Definition send_reads (s : ChatServer) : option field :=
  match sendMess s with SBegin _ => Some ListNext | SNext (Some i) _ => Some (NodeNext i) | _ => None end.
Definition race (s : ChatServer) : Prop :=
  ∃ f, conn_writes s = Some f ∧ (data_reads s = Some f ∨ send_reads s = Some f).

(** ** The client *)

(** One turn of the loop of client.cc.  [received] is what [recv] gives when the
    socket is ready ([[]] at the end of the stream or on an error).  The result:
    what is shown, and the loop is left ([inl]), or what is shown, what is sent,
    and the input left. *)
Definition select_failed : list Z := CStdio.bytes "select出错，客户端程序退出" ++ [10].
Definition select_timed_out : list Z := CStdio.bytes "客户端没有任何输入信息，并且服务器也没有信息到来，waiting..." ++ [10].

Definition client_turn (r : select_result) (sock_ready stdin_ready : bool) (received : list Z) (input : list Z) :
    res (list (list Z) + list (list Z) * list Z * list Z) :=
  match r with
  | SelError => mret (inl [select_failed])
  | SelTimeout => mret (inr ([select_timed_out], [], input))
  | SelReady =>
      out ← (if sock_ready then text ← c_str (store received uninit); mret [text] else mret []);
      if stdin_ready then
        let '(sendbuf, input) := fgets input uninit in
        text ← c_str sendbuf;
        mret (inr (out, text, input))
      else mret (inr (out, [], input))
  end.

(** What [select] and [recv] give in a turn. *)
Record turn : Type := MkTurn { on_select : select_result; sock_set : bool; stdin_set : bool; on_recv : list Z }.

(** The loop: what is shown, what is sent, the input left, and whether it ended
    (by [break]). *)
Fixpoint client_loop (turns : list turn) (out : list (list Z)) (sent_ input : list Z) :
    res (list (list Z) * list Z * list Z * bool) :=
  match turns with
  | [] => mret (out, sent_, input, false)
  | t :: turns =>
      r ← client_turn (on_select t) (sock_set t) (stdin_set t) (on_recv t) input;
      match r with
      | inl o => mret (out ++ o, sent_, input, true)
      | inr (o, s, input) => client_loop turns (out ++ o) (sent_ ++ s) input
      end
  end.

(** [main]: exits with status 1 when it cannot connect. *)
Definition chat_client_main (inet_addr : list Z → Z) (connect : sockaddr_in → bool) (turns : list turn) (input : list Z) :
    res (Z + list (list Z) * list Z * list Z * bool) :=
  if negb (connect (chat_addr inet_addr)) then mret (inl 1)
  else r ← client_loop turns [] [] input; mret (inr r).

(** ** Lemmas *)
Lemma c_str_cons b buf : b ≠ 0 → c_str (Some b :: buf) = (s ← c_str buf; mret (b :: s)).
Proof. intros Hb. simpl. by rewrite (proj2 (Z.eqb_neq _ _) Hb). Qed.

Lemma c_str_zero bs r : Forall (λ b, b ≠ 0) bs → c_str ((Some <$> bs) ++ Some 0 :: r) = Ok bs.
Proof. induction 1 as [|b bs Hb _ IH]; [done|]. rewrite fmap_cons, <- app_comm_cons, c_str_cons by done. by rewrite IH. Qed.

Lemma c_str_end bs : Forall (λ b, b ≠ 0) bs → c_str (Some <$> bs) = Err OutOfBounds.
Proof. induction 1 as [|b bs Hb _ IH]; [done|]. rewrite fmap_cons, c_str_cons by done. by rewrite IH. Qed.

Lemma c_str_uninit bs r : Forall (λ b, b ≠ 0) bs → c_str ((Some <$> bs) ++ None :: r) = Err Uninit.
Proof. induction 1 as [|b bs Hb _ IH]; [done|]. rewrite fmap_cons, <- app_comm_cons, c_str_cons by done. by rewrite IH. Qed.

Lemma line_prefix n input : line n input `prefix_of` input.
Proof.
  revert input. induction n as [|n IH]; intros [|c input]; simpl; try apply prefix_nil.
  apply prefix_cons. case_match; [apply prefix_nil|apply IH].
Qed.

Lemma line_length n input : (length (line n input) ≤ n)%nat.
Proof.
  revert input. induction n as [|n IH]; intros [|c input]; simpl; try lia.
  case_match; simpl; [lia|]. specialize (IH input). lia.
Qed.

Lemma line_no_zero n input : Forall (λ b, b ≠ 0) input → Forall (λ b, b ≠ 0) (line n input).
Proof. intros Hi. destruct (line_prefix n input) as [k Hk]. rewrite Hk in Hi. by apply Forall_app in Hi as [? _]. Qed.

Lemma store_app bs r : (length bs ≤ length r)%nat → length (store bs r) = length r.
Proof. intros Hl. unfold store. rewrite length_app, length_fmap, length_drop. lia. Qed.

(** What reaches the network of a buffer: an indeterminate cell has some value. *)
Definition carried (buf : buffer) (bytes : list Z) : Prop :=
  Forall2 (λ c b, match c with Some x => b = x | None => True end) buf bytes.

Lemma carried_some l buf bytes :
  carried ((Some <$> l) ++ buf) bytes → ∃ rest, bytes = l ++ rest ∧ carried buf rest.
Proof.
  revert bytes. induction l as [|x l IH]; intros bytes; [by exists bytes|].
  rewrite fmap_cons, <- app_comm_cons. intros H. inversion H as [|c b ? bs' Hc Hs]; subst. destruct (IH _ Hs) as (rest & -> & Hr). by exists rest.
Qed.

(** *** Steps of the server *)
Definition run (s s' : ChatServer) : Prop := rtc (λ s s', step s (Ok s')) s s'.

Lemma run_step s s1 s' : step s (Ok s1) → run s1 s' → run s s'.
Proof. intros H1 H2. by eapply rtc_l. Qed.

(** A run while [sendMess] is between two calls of [fgets], the other threads
    going on. *)
Definition busy (s s' : ChatServer) : Prop := sendMess s ≠ SGets ∧ step s (Ok s').

(** *** Invariant: iterators point into the list *)
Definition it_ok (l : list Z) (it : iterator) : Prop :=
  match it with Some i => (i < length l)%nat | None => True end.
Definition data_ok (l : list Z) (pc : data_pc) : Prop :=
  match pc with DBegin => True | DTest it => it_ok l it | DNext it => it_ok l it ∧ it ≠ None end.
Definition send_ok (l : list Z) (pc : send_pc) : Prop :=
  match pc with SGets | SBegin _ => True | STest it _ => it_ok l it | SNext it _ => it_ok l it ∧ it ≠ None end.
Record chat_ok (s : ChatServer) : Prop := ChatOk {
  ok_data : data_ok (li s) (getData s);
  ok_send : send_ok (li s) (sendMess s);
  ok_tv : 0 ≤ tv s ≤ 2000000;
}.

Lemma it_ok_app l x it : it_ok l it → it_ok (l ++ x) it.
Proof. destruct it; simpl; [rewrite length_app; lia|done]. Qed.
Lemma begin_ok l : it_ok l (begin l).
Proof. destruct l; simpl; [done|lia]. Qed.
Lemma incr_ok i l : it_ok l (incr i l).
Proof. unfold incr. by case_decide. Qed.
Lemma data_ok_app l x pc : data_ok l pc → data_ok (l ++ x) pc.
Proof. destruct pc; simpl; naive_solver eauto using it_ok_app. Qed.
Lemma send_ok_app l x pc : send_ok l pc → send_ok (l ++ x) pc.
Proof. destruct pc; simpl; naive_solver eauto using it_ok_app. Qed.

#[local] Hint Resolve begin_ok incr_ok data_ok_app send_ok_app : core.
#[local] Hint Constructors chat_ok : core.

Lemma chat_ok_step s s' : chat_ok s → step s (Ok s') → chat_ok s' ∧ li s `prefix_of` li s'.
Proof.
  intros [Hd Hs Ht] Hstep. inversion Hstep as [| | | | |i fd r t bytes Hg Hfd Htt _ Heq| | | | | |]; simplify_eq; simpl.
  all: repeat match goal with
    | H : getData _ = _ |- _ => rewrite H in Hd; clear H
    | H : sendMess _ = _ |- _ => rewrite H in Hs; clear H
    end; try (split; [constructor; simpl; by eauto|eauto using prefix_app_r]).
  destruct (receive fd r bytes) as [out|e]; [|discriminate Heq]. injection Heq as <-. split; [|done].
  constructor; simpl; [done|done|lia].
Qed.

Lemma chat_run_ok s s' : run s s' → chat_ok s → chat_ok s' ∧ li s `prefix_of` li s'.
Proof.
  induction 1 as [s|s1 s2 s3 H12 _ IH]; intros H; [done|].
  destruct (chat_ok_step _ _ H H12) as [H2 Hp]. destruct (IH H2) as [H3 Hp']. split; [done|by etrans].
Qed.

Lemma new_chat_ok input junk : chat_ok (new_chat input junk).
Proof. constructor; simpl; [done|done|lia]. Qed.

Lemma chat_reachable_ok input junk s : reachable input junk s → chat_ok s.
Proof. intros Hr. apply (chat_run_ok _ _ Hr), new_chat_ok. Qed.

(** ** Theorems *)
Lemma fgets_line input junk : input ≠ [] → length junk = 1024%nat → ∃ r,
  fgets input junk = ((Some <$> line 1023 input) ++ Some 0 :: r, drop (length (line 1023 input)) input).
Proof.
  intros Hi Hj. unfold fgets. change (Z.to_nat BUFFER_SIZE - 1)%nat with 1023%nat.
  rewrite bool_decide_false by (destruct input; [done|simpl; by case_match]).
  eexists. unfold store. rewrite fmap_app, <- app_assoc. done.
Qed.

Lemma fgets_c_str input junk : input ≠ [] → length junk = 1024%nat → Forall (λ b, b ≠ 0) input →
  c_str (fgets input junk).1 = Ok (line 1023 input).
Proof.
  intros Hi Hj Hz. destruct (fgets_line input junk Hi Hj) as [r ->]. by apply c_str_zero, line_no_zero.
Qed.

Definition nonzero (bs : list Z) : Prop := Forall (λ b, b ≠ 0) bs.

Lemma c_str_zeroed bs : nonzero bs → (length bs < 1024)%nat → c_str (store bs zeroed) = Ok bs.
Proof.
  intros Hz Hl. unfold store, zeroed. rewrite drop_replicate.
  destruct (1024 - length bs)%nat as [|k] eqn:Hk; [lia|]. by apply c_str_zero.
Qed.

Lemma FD_SET_ok fd : 0 ≤ fd < FD_SETSIZE → FD_SET fd = Ok tt.
Proof. intros. unfold FD_SET. by rewrite (proj2 (Z.leb_le _ _)), (proj2 (Z.ltb_lt _ _)) by lia. Qed.

Lemma receive_ready fd bs : 0 ≤ fd < FD_SETSIZE → nonzero bs → (length bs < 1024)%nat →
  receive fd SelReady bs = Ok [bs].
Proof. intros. unfold receive. rewrite FD_SET_ok by done. cbn. by rewrite c_str_zeroed. Qed.

(** *** A line of the server, in any run *)
Section Line.
Context (block : buffer) (s1 : ChatServer).

(** What has been transmitted to the first [k] connections of the list: prefixes
    of [block]. *)
Definition sent_to (k : nat) (s : ChatServer) : Prop := ∃ new, sent s = sent s1 ++ new ∧
  new.*1 = take k (li s) ∧ Forall (λ x, x.2 `prefix_of` block) new.

Definition sending (s : ChatServer) : Prop :=
  li s1 `prefix_of` li s ∧ stdin s = stdin s1 ∧
  match sendMess s with
  | SBegin buf => buf = block ∧ sent_to 0 s
  | STest (Some i) buf => buf = block ∧ (i < length (li s))%nat ∧ sent_to i s
  | SNext (Some i) buf => buf = block ∧ (i < length (li s))%nat ∧ sent_to (S i) s
  | SNext None _ => False
  | STest None _ | SGets => ∃ k, (length (li s1) ≤ k ≤ length (li s))%nat ∧ sent_to k s
  end.

Lemma sent_to_same k s s' : sent s' = sent s → li s' = li s → sent_to k s → sent_to k s'.
Proof. intros Hs Hl (new & Hn & Hk & Hp). exists new. by rewrite Hs, Hl. Qed.

Lemma sent_to_more k x s s' : (k ≤ length (li s))%nat → li s' = li s ++ [x] → sent s' = sent s → sent_to k s → sent_to k s'.
Proof. intros Hk Hl Hs (new & Hn & Hf & Hp). exists new. rewrite Hs, Hl, take_app_le by lia. done. Qed.

Lemma sending_same s s' : li s' = li s → stdin s' = stdin s → sendMess s' = sendMess s → sent s' = sent s → sending s → sending s'.
Proof.
  intros Hl Hi Hs Ho (Hp & Hin & Hpc). unfold sending, sent_to. rewrite Hl, Hi, Hs, Ho. done.
Qed.

(** Another connection at the end of the list. *)
Lemma sending_push conn s : sending s → sending (set_conn (CShow conn) (li s ++ [conn]) (shown s) s).
Proof.
  intros (Hp & Hin & Hpc). split; [by apply prefix_app_r|]. split; [done|]. cbn.
  assert (Hm : ∀ k, (k ≤ length (li s))%nat → sent_to k s → sent_to k (set_conn (CShow conn) (li s ++ [conn]) (shown s) s)).
  { intros k Hk. by apply (sent_to_more k conn). }
  rewrite length_app. destruct (sendMess s) as [|buf|[i|] buf|[i|] buf]; cbn in *.
  - destruct Hpc as (k & Hk & Hs). exists k. split; [lia|]. apply Hm; [lia|done].
  - destruct Hpc as [-> Hs]. split; [done|]. apply Hm; [lia|done].
  - destruct Hpc as (-> & Hi & Hs). split; [done|]. split; [lia|]. apply Hm; [lia|done].
  - destruct Hpc as (k & Hk & Hs). exists k. split; [lia|]. apply Hm; [lia|done].
  - destruct Hpc as (-> & Hi & Hs). split; [done|]. split; [lia|]. apply Hm; [lia|done].
  - done.
Qed.

Lemma sending_step s s' : sending s → busy s s' → sending s'.
Proof.
  intros Hs [Hb Hstep].
  inversion Hstep as [|conn| | | |i fd r t bytes Hg Hfd Htt _ Heq| |buf input Hg|buf Hg|buf Hg|i fd buf n Hg Hfd Hn|i buf Hg]; simplify_eq;
    try (by apply (sending_same s)); [by apply sending_push|..].
  - destruct (receive fd r bytes) as [out|e]; [|discriminate Heq]. injection Heq as <-. by apply (sending_same s).
  - destruct Hs as (Hp & Hin & Hpc). rewrite Hg in Hpc. destruct Hpc as [-> Hs]. split; [done|]. split; [done|]. cbn.
    destruct (li s) as [|x l] eqn:Hl; cbn.
    + exists 0%nat. apply prefix_nil_inv in Hp. rewrite Hp. split; [done|by apply (sent_to_same 0 s)].
    + split; [done|]. split; [simpl; lia|by apply (sent_to_same 0 s)].
  - destruct Hs as (Hp & Hin & Hpc). rewrite Hg in Hpc. destruct Hpc as (k & Hk & Hs). split; [done|]. split; [done|].
    exists k. split; [done|by apply (sent_to_same k s)].
  - destruct Hs as (Hp & Hin & Hpc). rewrite Hg in Hpc. destruct Hpc as (-> & Hi & new & Ho & Hf & Hall). split; [done|]. split; [done|].
    split; [done|]. split; [done|]. exists (new ++ [(fd, take n block)]). cbn. split_and!.
    + by rewrite Ho, <- app_assoc.
    + by rewrite fmap_app, Hf, (take_S_r _ _ _ Hfd).
    + apply Forall_app. split; [done|]. apply Forall_singleton, prefix_take.
  - destruct Hs as (Hp & Hin & Hpc). rewrite Hg in Hpc. destruct Hpc as (-> & Hi & Hs). split; [done|]. split; [done|]. cbn.
    unfold incr. case_decide as Hlt.
    + split; [done|]. split; [done|by apply (sent_to_same (S i) s)].
    + exists (S i). split; [|by apply (sent_to_same (S i) s)]. apply prefix_length in Hp. cbn. lia.
Qed.

Lemma sending_run s s' : sending s → rtc busy s s' → sending s'.
Proof. intros Hs Hr. induction Hr as [s|s2 s3 s4 H1 _ IH]; [done|]. by eapply IH, sending_step. Qed.

(** The sender alone comes back to [fgets]. *)
Lemma send_from s i buf : (i < length (li s))%nat → sendMess s = STest (Some i) buf →
  ∃ s', rtc busy s s' ∧ sendMess s' = SGets.
Proof.
  remember (length (li s) - i)%nat as n eqn:Hn. revert s i Hn.
  induction n as [|n IH]; intros s i Hn Hi Hs; [lia|]. destruct (lookup_lt_is_Some_2 (li s) i Hi) as [fd Hfd].
  pose proof (s_body s i fd buf _ Hs Hfd (le_n _)) as H1. set (s2 := set_send _ _ _ _ _) in H1.
  pose proof (s_next s2 i buf eq_refl) as H2. set (s3 := set_send _ _ _ _ _) in H2.
  assert (Hr : rtc busy s s3).
  { eapply rtc_l; [split; [by rewrite Hs|exact H1]|]. by apply rtc_once; split. }
  destruct (decide (S i < length (li s))%nat) as [Hlt|Hge].
  - destruct (IH s3 (S i)) as (s' & Hr' & Hg); [cbn; lia|done|cbn; unfold incr; by rewrite decide_True|].
    exists s'. split; [by etrans|done].
  - eexists. split; [eapply rtc_r; [exact Hr|split; [done|apply (s_end s3 buf)]]|done].
    cbn. unfold incr. by rewrite decide_False.
Qed.

Lemma send_ends s : sending s → ∃ s', rtc busy s s' ∧ sendMess s' = SGets.
Proof.
  intros (_ & _ & Hpc).
  assert (Htest : ∀ y it buf, sendMess y = STest it buf → it_ok (li y) it → ∃ s', rtc busy y s' ∧ sendMess s' = SGets).
  { intros y [i|] buf Hy Hi; [by eapply send_from|]. eexists.
    split; [apply rtc_once; split; [by rewrite Hy|by eapply s_end]|done]. }
  destruct (sendMess s) as [|buf|it buf|[i|] buf] eqn:Hg; [by exists s| | | |done].
  - edestruct (Htest (set_send (STest (begin (li s)) buf) (stdin s) (stack s) (sent s) s)) as (s' & Hr & Hs'); [done|apply begin_ok|].
    exists s'. split; [|done]. eapply rtc_l; [split; [by rewrite Hg|by eapply s_begin]|done].
  - apply (Htest s it buf Hg). destruct it; [apply Hpc|done].
  - edestruct (Htest (set_send (STest (incr i (li s)) buf) (stdin s) (stack s) (sent s) s)) as (s' & Hr & Hs'); [done|apply incr_ok|].
    exists s'. split; [|done]. eapply rtc_l; [split; [by rewrite Hg|by eapply s_next]|done].
Qed.
End Line.

(** A client that receives a part of the block longer than the line. *)
Lemma client_prints l r b bytes typed : nonzero l → b `prefix_of` (Some <$> l) ++ Some 0 :: r → (length l < length b)%nat →
  carried b bytes → client_turn SelReady true false bytes typed = Ok (inr ([l], [], typed)).
Proof.
  intros Hz [k Hk] Hlen Hc.
  assert (Hb : ∃ r', b = (Some <$> l) ++ Some 0 :: r').
  { apply app_eq_inv in Hk as [(x & Hx & _)|(x & -> & Hx)].
    { apply (f_equal length) in Hx. rewrite length_app, length_fmap in Hx. lia. }
    rewrite length_app, length_fmap in Hlen. destruct x as [|y x]; [simpl in Hlen; lia|]. injection Hx as <- _. by exists x. }
  destruct Hb as [r' ->]. apply carried_some in Hc as (rest & -> & Hc).
  inversion Hc as [|c y ? rest' Hy _]; subst. unfold client_turn, store.
  rewrite fmap_app, fmap_cons, <- app_assoc, <- app_comm_cons, c_str_zero; done.
Qed.


(** C18: Client to server: a line typed at the client is sent without its zero,
    and however TCP cuts it into pieces, the server prints the pieces one after
    another, that is the line, since its buffer is zeroed before each [recv]. *)
Theorem chat_client_to_server input fd pieces : input ≠ [] → nonzero input → 0 ≤ fd < FD_SETSIZE →
  let l := line 1023 input in
  client_turn SelReady false true [] input = Ok (inr ([], l, drop (length l) input)) ∧
  (concat pieces = l → mapM (receive fd SelReady) pieces = Ok ((λ p, [p]) <$> pieces)).
Proof.
  intros Hi Hz Hfd l. split.
  - destruct (fgets_line input uninit Hi) as [r Hf]; [done|]. unfold client_turn. rewrite Hf. fold l.
    cbn [mbind res_bind]. rewrite c_str_zero; [done|by apply line_no_zero].
  - intros Hc. assert (Hp : Forall (λ p, nonzero p ∧ (length p < 1024)%nat) pieces).
    { assert (Hl : (length l ≤ 1023)%nat) by apply line_length.
      assert (Hlz : nonzero l) by (by apply line_no_zero). rewrite <- Hc in Hl, Hlz. clear Hc.
      induction pieces as [|p ps IH]; simpl in *; [done|]. rewrite length_app in Hl.
      apply Forall_app in Hlz as [??]. constructor; [split; [done|lia]|apply IH; [lia|done]]. }
    clear Hc. induction Hp as [|p ps [Hpz Hpl] _ IH]; [done|].
    cbn [mapM]. by rewrite receive_ready, IH.
Qed.

(** *** Races *)
Lemma run_snoc s s1 s' : run s s1 → step s1 (Ok s') → run s s'.
Proof. intros H1 H2. by eapply rtc_r. Qed.

Lemma accept_all input junk fds : Forall (λ fd, -1 ≤ fd) fds → ∃ s, reachable input junk s ∧
  li s = fds ∧ getConn s = CAccept ∧ sendMess s = SGets.
Proof.
  induction fds as [|fd fds IH] using rev_ind; intros H; [exists (new_chat input junk); split; [apply rtc_refl|done]|].
  apply Forall_app in H as [H Hfd]. rewrite Forall_singleton in Hfd. destruct (IH H) as (s & Hr & Hl & Hg & Hs).
  eexists. split; [|split; [|split]].
  - eapply run_snoc; [eapply run_snoc; [eapply run_snoc; [exact Hr|exact (c_accept s fd Hg Hfd)]|by eapply c_push]|by eapply c_show].
  - simpl. by rewrite Hl.
  - done.
  - done.
Qed.

Lemma send_at s j : sendMess s = SGets → (j < length (li s))%nat → ∃ s' buf, run s s' ∧
  sendMess s' = SNext (Some j) buf ∧ li s' = li s ∧ getConn s' = getConn s.
Proof.
  intros Hs. induction j as [|j IH]; intros Hj; destruct (lookup_lt_is_Some_2 _ _ Hj) as [fd Hfd].
  - destruct (fgets (stdin s) (stack s)) as [buf input] eqn:Hf. eexists _, buf. split; [|split; [|split]].
    + eapply run_step; [by eapply s_gets|]. eapply run_step; [by eapply s_begin|]. apply rtc_once.
      eapply (s_body _ _ _ _ 0); [|exact Hfd|lia]. simpl. by destruct (li s).
    + done.
    + done.
    + done.
  - destruct IH as (s1 & buf & Hr & Hs1 & Hl & Hc); [lia|]. eexists _, buf. split; [|split; [|split]].
    + eapply run_snoc; [eapply run_snoc; [exact Hr|by eapply s_next]|].
      eapply (s_body _ _ _ _ 0); [|simpl; by rewrite Hl|lia]. simpl. unfold incr. by rewrite Hl, decide_True.
    + done.
    + done.
    + done.
Qed.

(** C19: Data race: whatever connections there are, the program can reach a
    state with these where one more has been accepted and [push_back] is about
    to write the pointer that [sendMess] is about to read, with nothing between
    the two: the program has undefined behaviour. *)
Theorem chat_race input junk fds : Forall (λ fd, -1 ≤ fd) fds →
  ∃ s, reachable input junk s ∧ li s = fds ∧ race s.
Proof.
  intros H. destruct (accept_all input junk fds H) as (s & Hr & Hl & Hg & Hs).
  assert (Hw : ∀ s', getConn s' = CAccept → reachable input junk s' → reachable input junk (set_conn (CPush 3) (li s') (shown s') s')).
  { intros s' Hc Hr'. eapply run_snoc; [exact Hr'|]. apply c_accept; [done|lia]. }
  destruct fds as [|fd fds].
  - destruct (fgets (stdin s) (stack s)) as [buf input'] eqn:Hf.
    eexists. split; [apply Hw; [|eapply run_snoc; [exact Hr|by eapply s_gets]]|]; [done|].
    split; [done|]. exists ListNext. split; [simpl; by rewrite Hl|by right].
  - destruct (send_at s (length (fd :: fds) - 1)%nat Hs) as (s1 & buf & Hr1 & Hs1 & Hl1 & Hc1); [rewrite Hl; simpl; lia|].
    exists (set_conn (CPush 3) (li s1) (shown s1) s1). split; [apply Hw; [congruence|unfold reachable; by etrans; [exact Hr|]]|].
    split; [simpl; congruence|]. exists (NodeNext (length (fd :: fds) - 1)).
    split; [simpl; by rewrite Hl1, Hl|]. right. unfold send_reads. simpl. by rewrite Hs1.
Qed.

(** *** Errors *)
Lemma c_str_full bs : nonzero bs → length bs = 1024%nat → c_str (store bs zeroed) = Err OutOfBounds.
Proof. intros Hz Hl. unfold store, zeroed. rewrite drop_replicate, Hl. simpl. rewrite app_nil_r. by apply c_str_end. Qed.

Lemma c_str_has_zero bs r : Exists (λ b, b = 0) bs → ∃ s, c_str ((Some <$> bs) ++ r) = Ok s.
Proof.
  induction bs as [|b bs IH]; intros H; [by inversion H|].
  rewrite fmap_cons, <- app_comm_cons. destruct (decide (b = 0)) as [->|Hb]; [by exists []|].
  rewrite c_str_cons by done. destruct IH as [s Hs]; [by inversion H|]. exists (b :: s). by rewrite Hs.
Qed.

Lemma c_str_zeroed_cases bs : (length bs ≤ 1024)%nat →
  (∃ s, c_str (store bs zeroed) = Ok s) ∨ nonzero bs ∧ length bs = 1024%nat.
Proof.
  intros Hl. destruct (decide (Exists (λ b, b = 0) bs)) as [He|He].
  { left. by apply c_str_has_zero. }
  assert (Hz : nonzero bs) by 
    (by apply Forall_forall; intros b Hb ->; apply He, Exists_exists; eauto).
  destruct (decide (length bs = 1024)%nat); [by right|]. left. exists bs. apply c_str_zeroed; [done|lia].
Qed.

Lemma receive_errors fd r bytes e : (length bytes ≤ 1024)%nat →
  receive fd r bytes = Err e ↔ e = OutOfBounds ∧
    (¬ (0 ≤ fd < FD_SETSIZE) ∨ r = SelReady ∧ nonzero bytes ∧ length bytes = 1024%nat).
Proof.
  intros Hl. destruct (decide (0 ≤ fd < FD_SETSIZE)) as [Hfd|Hfd]; unfold receive.
  - rewrite FD_SET_ok by done. cbn [mbind res_bind]. destruct r; [naive_solver|naive_solver|].
    destruct (c_str_zeroed_cases bytes Hl) as [[t Ht]|[Hz Hb]].
    + rewrite Ht. split; [done|]. intros [_ [?|(_ & Hz & Hb)]]; [done|]. by rewrite c_str_full in Ht.
    + rewrite c_str_full by done. cbn. naive_solver.
  - replace (FD_SET fd) with (Err OutOfBounds : res unit); [cbn; naive_solver|].
    unfold FD_SET. destruct (Z.leb_spec 0 fd), (Z.ltb_spec fd FD_SETSIZE); [lia|done|done|done].
Qed.

(** C20: The only errors of the server's steps (its races apart) are those of
    [getData] for a connection of the list: [FD_SET] outside the set, when the
    descriptor is the [-1] of a failed [accept] or at least [FD_SETSIZE], or
    [printf] past the end of [buf], when [recv] fills it without a zero; each of
    these does happen.  Connections are never removed from the list. *)
Theorem chat_errors input junk s : reachable input junk s →
  (∀ s', step s (Ok s') → li s `prefix_of` li s') ∧
  (∀ e, step s (Err e) → ∃ i fd r bytes, getData s = DTest (Some i) ∧ li s !! i = Some fd ∧
     receive fd r bytes = Err e ∧ (length bytes ≤ 1024)%nat) ∧
  (∀ i fd r bytes e, getData s = DTest (Some i) → li s !! i = Some fd → (length bytes ≤ 1024)%nat →
     receive fd r bytes = Err e → step s (Err e)) ∧
  (∀ fd r bytes e, (length bytes ≤ 1024)%nat → receive fd r bytes = Err e ↔ e = OutOfBounds ∧
     (¬ (0 ≤ fd < FD_SETSIZE) ∨ r = SelReady ∧ nonzero bytes ∧ length bytes = 1024%nat)).
Proof.
  intros Hr. pose proof (chat_reachable_ok _ _ _ Hr) as Hok. split; [|split; [|split]].
  - intros s' Hs. by eapply chat_ok_step.
  - intros e Hs. inversion Hs as [| | | | |i fd r t bytes Hg Hfd Htt Hb Heq| | | | | |]; subst.
    exists i, fd, r, bytes. split; [done|]. split; [done|]. split; [|unfold BUFFER_SIZE, len in Hb; lia].
    destruct (receive fd r bytes) as [out|e']; [done|]. by injection Heq as <-.
  - intros i fd r bytes e Hg Hfd Hb He.
    assert (Hs : step s (out ← receive fd r bytes; mret (set_data (DNext (Some i)) (tv s) (shown s ++ out) s))).
    { apply d_body; [done|done| |unfold BUFFER_SIZE, len; lia]. pose proof (ok_tv s Hok). lia. }
    by rewrite He in Hs.
  - intros. by apply receive_errors.
Qed.

(** When the client's [recv] gives less than a block and no zero (TCP cut
    the block, the server closed, or the call failed), [printf] reads the
    indeterminate rest of [recvbuf]; a full block without a zero sends it past
    the end. *)
Theorem chat_client_unterminated received stdin_ready input : nonzero received →
  ((length received < 1024)%nat → client_turn SelReady true stdin_ready received input = Err Uninit) ∧
  (length received = 1024%nat → client_turn SelReady true stdin_ready received input = Err OutOfBounds).
Proof.
  intros Hz. unfold client_turn, store, uninit. rewrite drop_replicate. split; intros Hl.
  - destruct (1024 - length received)%nat as [|k] eqn:Hk; [lia|].
    cbn [replicate]. by rewrite c_str_uninit.
  - rewrite Hl. cbn [replicate Nat.sub]. rewrite app_nil_r, c_str_end by done. done.
Qed.

(** *** At concrete inputs *)
Definition hi : list Z := [104; 105; 10; 111; 107; 10].


(** Two clients are connected; one of them receives the whole block. *)
Definition two_clients : ChatServer := MkChat [4; 5] 2000000 CAccept DBegin SGets hi uninit [[52; 10]; [53; 10]] [].

Lemma carried_default x (buf : buffer) : carried buf (default x <$> buf).
Proof. induction buf as [|[b|] buf IH]; constructor; done. Qed.


Lemma chat_client_to_server_witness :
  client_turn SelReady false true [] hi = Ok (inr ([], [104; 105; 10], [111; 107; 10])) ∧
  mapM (receive 4 SelReady) [[104]; [105; 10]] = Ok [[[104]]; [[105; 10]]].
Proof.
  destruct (chat_client_to_server hi 4 [[104]; [105; 10]]) as [H1 H2];
    [done|repeat constructor; done|by unfold FD_SETSIZE|split; [exact H1|exact (H2 eq_refl)]].
Defined.

Lemma chat_race_witness : ∃ s, reachable hi uninit s ∧ li s = [4; 5] ∧ race s.
Proof. apply (chat_race hi uninit [4; 5]). repeat constructor; done. Defined.

(** A connection that [accept] could not make, in the list. *)
Definition failed_accept : ChatServer := MkChat [-1] 2000000 CAccept (DTest (Some 0%nat)) SGets hi uninit [[45; 49; 10]] [].

Lemma failed_accept_reachable : reachable hi uninit failed_accept.
Proof.
  eapply run_snoc; [eapply run_snoc; [eapply run_snoc; [apply rtc_once|]|]|].
  - by apply (c_accept (new_chat hi uninit) (-1)).
  - by eapply c_push.
  - by eapply c_show.
  - by apply d_begin.
Qed.

Lemma chat_errors_witness : step failed_accept (Err OutOfBounds).
Proof.
  destruct (chat_errors hi uninit failed_accept failed_accept_reachable) as (_ & _ & H & _).
  by apply (H 0%nat (-1) SelTimeout []); [..|simpl; lia|].
Defined.

Lemma chat_client_unterminated_witness : client_turn SelReady true false [104; 105] hi = Err Uninit.
Proof. apply (chat_client_unterminated [104; 105] false hi); [repeat constructor; done|simpl; lia]. Defined.
